(* ===== verification/_CoqProject ===== *)
-Q . S2P
Prelude.v
Hashing.v
Types.v
Codec.v
Store.v
Mtree.v
State.v
StateExample.v
TrieCodec.v
Keys.v
Transaction.v
Storage.v
Balance.v
Block.v
Executor.v
Staking.v
Runtime.v
Messages.v
RangeSync.v
RangeSyncInv.v
Poa.v
Vrf.v
ChainStore.v
BlockChain.v
TxPool.v
ChainService.v
Restart.v
SyncManager.v
Handler.v
SyncLive.v
Epoch.v
P2PCodec.v
P2PHandler.v
P2PHandlerInv.v
NetService.v
NetServiceInv.v
Rpc.v
Gossip.v
Startup.v
PoolLib.v
PoolLibInv.v
PoolLibOps.v
