(* ===== verification/Prelude.v ===== *)
(** * Ori: a verification development for the MAP Protocol node

    Ori is the Rust node of the MAP Protocol.  A node keeps a chain of blocks in
    a key-value database and the accounts in a trie over another one; validators
    produce a block per slot from the transaction pool; nodes gossip blocks and
    transactions, answer each other's requests and download missing blocks.  This
    library models the node's own logic as executable definitions and proves the
    properties that make it correct, or the ones that show where it is not.

    ** How the code is modelled

    - A function that can fail returns an [Outcome]: a value, an error, or a panic
      ([unwrap] of nothing, an overflow in a build with overflow checks, an index
      out of range).  State that Rust mutates is passed and returned.
    - Machine integers are elements of [Z] with their width written out ([in_u],
      [add_u], [sub_u], [mul_u]); the build profile ([Profile]: [Dev] checks
      overflow, [Release] wraps) is an argument, and theorems hold for both unless
      they say which.
    - Third-party code is a class of operations with a class of the documented laws
      the code relies on, and every theorem that uses laws has a witness where they
      are proved for a concrete instance: blake2b ([Blake2b]), bincode ([Bincode]),
      hex ([Hex]), ed25519 ([Ed25519]), Ristretto ([Ristretto]), RocksDB
      ([RocksDB]), the trie and its node store ([TrieOps], [MemoryDB]), hash-map
      iteration ([IterOrder], [PoolOrder], [PeerOrder]), the binary heap
      ([PriorityHeap]), the priority queue ([BlockQueue]), floating-point powers
      ([FloatPow]), RLP ([RlpCrate]), RocksDB's batches ([WriteBatchOps]), length-
      delimited frames ([UviBytes]), framed substreams ([Framed]), timer queues
      ([DelayQueue]), libp2p's swarm with gossip and discovery ([Swarm], [Discovery])
      with its cache of seen messages ([LruLaws]), and at start-up the argument parser,
      multiaddresses, key files and randomness.  In the generic pool the traits of the
      crate itself are classes ([Scoring], [Ready], [Listener], [ShouldReplace]), with
      what their documentation asks of them ([ScoringLaws]); that a scoring keeps one
      transaction per slot, which the documentation leaves open, is a hypothesis of its
      own ([OnePerSlot]).
    - Loops that are not structural carry a bound, and a theorem shows it is enough:
      the validator list is walked with its length as the bound
      ([validator_set_complete]), the ancestor search with the height
      ([find_ancestor_nearest]), the request loop of the range sync with the number
      of idle peers ([request_batches_exhausts]), the range answer with the height of
      the head ([range_transfer_roundtrip]), the gossip queue with its length
      ([on_block_gossip_spec]), the substreams of a connection with their number and
      queued responses ([handler_reachable]), the rounds of the network thread with the
      events of the swarm ([network_round_returns]), the eviction loops, the binary
      search and the pending iterator of the generic pool with the number of its
      transactions ([pool_reachable], [pool_import_spec], [pending_in_order]).
    - Threads that share the chain are sequences of messages and jobs; the lock makes
      each handler atomic on the chain.

    ** Files, in order, and the sources they model (under src/)

    - Prelude: outcomes, machine integers, byte strings, sums, tactics, hint bases.
    - Hashing, Types, Codec: common/hash, core/src/types.rs with its text forms and
      formatting traits, the bincode interface.
    - Store, Mtree: common/store (MemoryKV, MapDB) and the node store of
      common/mtree/src/lib.rs.
    - State, StateExample, TrieCodec: core/src/state.rs (ArchiveDB, CachingDB, StateDB
      over the trie), one instance of its interfaces for examples, and the node codec
      of core/src/trie.rs.
    - Keys, Transaction, Block: common/ed25519, core/src/transaction.rs,
      core/src/block.rs.
    - Storage: the interface [Storage] between the state database and the modules
      above it, and its laws.
    - Balance, Executor: core/src/balance.rs and executor/src/lib.rs, refined to an
      abstract ledger (a map from addresses to accounts).
    - Staking, Runtime: core/src/staking.rs with its linked list of validators,
      core/src/runtime.rs and core/src/genesis.rs.
    - ChainStore, BlockChain: chain/src/store.rs and chain/src/blockchain.rs.
    - Poa, Vrf: consensus/src/poa.rs and common/crypto/src/vrf.rs.
    - TxPool: pool/src/tx_pool.rs.
    - Messages: the messages of network/src/p2p, topics.rs, behaviour.rs, manager.rs.
    - RangeSync, RangeSyncInv: network/src/sync/range_sync and
      network/src/sync/network_context.rs; the second file holds the proofs.
    - ChainService: the interface between the chain and the network layer, with
      [BlockChain] as its instance.
    - Restart: the databases of a chain over several runs of the node, and after a
      process that died between two writes.
    - SyncManager: network/src/sync/manager.rs and block_processor.rs.
    - Handler: network/src/handler.rs and handler_processor.rs.
    - SyncLive: the range sync, the block processor and the chain together.
    - Epoch: generator/src/epoch.rs, apos.rs and types.rs (epochs, slot clock,
      proposers, block production and the proposal loop under the clock).
    - P2PCodec: network/src/p2p/codec and the upgrades of p2p/protocol.rs, the bytes of
      requests and responses.
    - P2PHandler, P2PHandlerInv: network/src/p2p/handler.rs, the substreams of one
      connection; the second file holds the proofs.
    - NetService, NetServiceInv: network/src/p2p/mod.rs, behaviour.rs, service.rs and
      the network thread of manager.rs; the second file holds the proofs.
    - Rpc: rpc/src/api and rpc/src/types, on top of the pool, the network and block
      production.
    - Gossip: two nodes; what one publishes (generator, rpc) goes through both network
      threads to the handler and the pool of the other.
    - Startup: cli/src/lib.rs, service/src/lib.rs, network/src/config.rs, the key
      generator of common/ed25519: from the arguments to a running node.
    - PoolLib, PoolLibInv, PoolLibOps: pool/src/transaction_pool, the generic pool; the
      second file proves its invariant, the third what its operations do.

    ** What the theorems show

    - Execution (Executor, Balance): executing a block over the database implements
      the execution on abstract ledgers with the same errors and panics, and saves the new
      ledger under the root it returns; it conserves money, is deterministic, and
      executes only signed, fresh and funded transactions, in builds with overflow
      checks; without them a value that overflows is refused, costs only the fee or
      makes money, depending on the funds of the sender.
    - Chain (ChainStore, BlockChain): stored blocks are read back; an import checks
      what it should in order and extends a valid chain or leaves it alone; every
      reachable chain is valid; valid blocks are accepted; genesis starts a chain.
    - Restarts (Restart): a node that is stopped between blocks finds its chain again; one
      that dies between the block and the head of an import never gets past that height,
      and one that dies there in genesis panics at every later start.
    - Trie nodes (TrieCodec): every node the codec writes is read back.
    - Staking and genesis (Staking, Runtime): the list operations implement insertion
      and deletion, stakes stay covered by locked funds (with overflow checks), activation of deposits never
      ends, messages are never dispatched, genesis funds what it should.
    - Consensus (Poa, Vrf, Epoch): finalised blocks verify, signatures are not bound
      to blocks, VRF proofs are accepted, proposers are entitled, a produced block is
      accepted by every node with the same head, and one bad pending transaction
      stops a proposer.
    - Pool (TxPool): insertion keeps the pool consistent and bounded and evicts the
      cheapest; queued transactions are never promoted; stale entries panic.
    - Generic pool (PoolLibInv, PoolLibOps): with one transaction per slot and room for one
      per sender, no sequence of operations panics or takes its indexes apart, and imports
      respect the limits as far as they are meant to; without either the pool panics
      or its indexes come apart.  Culling drops the stalled transactions; the pending
      iterator keeps the order of every sender, for readiness that keeps state too.
    - Interface (Rpc): a transfer sent through it is pooled, published and goes into the
      next block; one that leaves no room for the fee, or a second one of the account
      before that block, stops block production.
    - Nodes together (Gossip): a follower that hears the blocks of the proposal service in
      order has its chain, one that hears two of them in the wrong order stays behind; a
      transaction is pooled by the direct neighbours of its node and not passed on; a
      hostile one panics the handler or stops a proposer.
    - Start-up (Startup): the arguments decide the configuration and the node starts with
      the chain of its databases, its network identity is stable over restarts, the
      account that is printed belongs to the printed key, the consensus key cannot be set.
    - Network (RangeSyncInv, SyncManager, Handler, SyncLive): the range sync never
      panics, keeps its tables consistent and sends well-formed requests for any
      sequence of events; with an honest peer it imports the whole chain and stops;
      one out-of-range answer stalls it; requests are answered with the right blocks
      and these reach the sync thread of the other node; the ancestors of an orphan are
      asked for one by one and imported; what a gossiped block does to the chain, the
      queue and the network is given for every height and any queue, and a stale one
      panics a dev build.
    - Connections (P2PCodec, P2PHandlerInv, NetServiceInv): requests and responses
      survive encoding and any cutting of the stream; a connection keeps its tables
      consistent and never panics, and writes responses in order, but failed dials use
      up its slots; a round of the network thread ends, passes gossip on once, and
      panics when a peer leaves that discovery never found.

    ** What is not modelled

    - The transport (network/src/transport.rs), the HTTP server of the JSON-RPC
      interface, common/metrics, common/logger and common/mtree/src/mapTree.rs: they pass
      their calls on to libp2p, jsonrpc, prometheus, slog and the starling tree and keep
      no state of their own.
    - common/errors: wrappers of the failure crate; the error kinds are modelled where
      they are used.  tools: a boot node and a key generator, separate programs.
    - Of the modelled parts: the logging, the texts of errors and the Display forms of the
      network messages, the tokio runtime, the threads and the loop that waits for the
      signal to stop, opening the database files, and code nothing calls: the types Slot
      and Stakeholder of the generator, remove_batch_by_peer of the range sync. *)

From Stdlib Require Export ZArith Lia.
From Stdlib Require Import Ascii String.
From stdpp Require Export base tactics list gmap numbers fin_maps option.
Export list_basics.list list_relations.list list_monad.list list_misc.list list_tactics.list.

#[global] Open Scope Z_scope.

(** ** Outcomes of Rust code

    A Rust function either returns a value ([Ok] of a [Result], or a plain
    value), returns an error ([Err]) or panics ([unwrap] of [None], [expect] of
    an [Err], an arithmetic overflow with overflow checks on, an index out of
    range).  Functions that cannot return [Err] are polymorphic in [E]. *)
Inductive Outcome (E A : Type) : Type :=
  | Ok (a : A)
  | Err (e : E)
  | Panic.
Arguments Ok {E A} a.
Arguments Err {E A} e.
Arguments Panic {E A}.

#[global] Instance outcome_mret {E} : MRet (Outcome E) := fun A a => Ok a.
#[global] Instance outcome_mbind {E} : MBind (Outcome E) := fun A B f m =>
  match m with Ok a => f a | Err e => Err e | Panic => Panic end.
#[global] Instance outcome_fmap {E} : FMap (Outcome E) := fun A B f m =>
  match m with Ok a => Ok (f a) | Err e => Err e | Panic => Panic end.

(** [Option::unwrap] and [Option::expect]. *)
Definition unwrap {E A} (o : option A) : Outcome E A :=
  match o with Some a => Ok a | None => Panic end.

(** [Result::unwrap] and [Result::expect]: an error becomes a panic. *)
Definition unwrap_res {E E' A} (o : Outcome E A) : Outcome E' A :=
  match o with Ok a => Ok a | _ => Panic end.

(** [Option::ok_or]. *)
Definition ok_or {E A} (e : E) (o : option A) : Outcome E A :=
  match o with Some a => Ok a | None => Err e end.

(** [Result::map_err], and the conversion [?] makes. *)
Definition map_err {E E' A} (f : E → E') (o : Outcome E A) : Outcome E' A :=
  match o with Ok a => Ok a | Err e => Err (f e) | Panic => Panic end.

Definition is_ok {E A} (o : Outcome E A) : bool :=
  match o with Ok _ => true | _ => false end.

Section OutcomeFacts.
Context {E A B : Type}.
Implicit Types (m : Outcome E A) (f : A → Outcome E B).

Lemma bind_Ok a f : (Ok a ≫= f) = f a.
Proof. done. Qed.

Lemma bind_Ok_inv m f b :
  (m ≫= f) = Ok b ↔ ∃ a, m = Ok a ∧ f a = Ok b.
Proof. destruct m; simpl; naive_solver. Qed.

Lemma bind_Err_inv m f e :
  (m ≫= f) = Err e ↔ m = Err e ∨ ∃ a, m = Ok a ∧ f a = Err e.
Proof. destruct m; simpl; naive_solver. Qed.

Lemma is_ok_inv m : is_ok m = true → ∃ a, m = Ok a.
Proof. destruct m; naive_solver. Qed.

Lemma unwrap_Ok_inv (o : option A) a : unwrap (E:=E) o = Ok a ↔ o = Some a.
Proof. destruct o; naive_solver. Qed.
End OutcomeFacts.

(** Two computations agree: they end the same way, with the same error, and
    their results are related.  This is how an operation refines its abstract
    specification. *)
Definition outcome_rel {E A B} (R : A → B → Prop) (m : Outcome E A) (n : Outcome E B) : Prop :=
  match m, n with
  | Ok a, Ok b => R a b
  | Err e, Err e' => e = e'
  | Panic, Panic => True
  | _, _ => False
  end.

Section OutcomeRel.
Context {E A B A' B' : Type}.

Lemma outcome_rel_bind (R : A → B → Prop) (R' : A' → B' → Prop)
    (m : Outcome E A) n (f : A → Outcome E A') (g : B → Outcome E B') :
  outcome_rel R m n → (∀ a b, R a b → outcome_rel R' (f a) (g b)) →
  outcome_rel R' (m ≫= f) (n ≫= g).
Proof. destruct m, n; simpl; naive_solver. Qed.

(** Both sides start with the same computation. *)
Lemma outcome_rel_bind_eq {X} (R : A → B → Prop)
    (m : Outcome E X) (f : X → Outcome E A) (g : X → Outcome E B) :
  (∀ x, m = Ok x → outcome_rel R (f x) (g x)) → outcome_rel R (m ≫= f) (m ≫= g).
Proof. destruct m; simpl; eauto. Qed.

Lemma outcome_rel_mono (R R' : A → B → Prop) (m : Outcome E A) n :
  (∀ a b, R a b → R' a b) → outcome_rel R m n → outcome_rel R' m n.
Proof. destruct m, n; simpl; auto. Qed.

Lemma outcome_rel_Ok_inv (R : A → B → Prop) (m : Outcome E A) n a :
  outcome_rel R m n → m = Ok a → ∃ b, n = Ok b ∧ R a b.
Proof. intros H ->. destruct n; simpl in *; naive_solver. Qed.

Lemma outcome_rel_Ok_inv_r (R : A → B → Prop) (m : Outcome E A) n b :
  outcome_rel R m n → n = Ok b → ∃ a, m = Ok a ∧ R a b.
Proof. intros H ->. destruct m; simpl in *; naive_solver. Qed.

Lemma outcome_rel_Err_inv_r (R : A → B → Prop) (m : Outcome E A) n e :
  outcome_rel R m n → n = Err e → m = Err e.
Proof. intros H ->. destruct m; simpl in *; naive_solver. Qed.
End OutcomeRel.

(** ** Machine integers

    A [w]-bit unsigned integer is a [Z] in [0, 2^w).  The dev profile (the one
    [cargo build] and [cargo run] of the README use) compiles arithmetic with
    overflow checks, which panic; the release profile wraps around.  Every
    definition that does arithmetic takes the profile as an argument. *)
Class Profile : Type := overflow_checks : bool.
Definition Dev : Profile := true.
Definition Release : Profile := false.

Definition in_u (w x : Z) : Prop := 0 ≤ x < 2 ^ w.
#[global] Instance in_u_dec w x : Decision (in_u w x).
Proof. unfold in_u. apply _. Defined.

(** The result of an arithmetic operation whose exact value is [x]. *)
Definition arith `{P : Profile} {E} (w x : Z) : Outcome E Z :=
  if decide (in_u w x) then Ok x
  else if overflow_checks then Panic else Ok (x mod 2 ^ w).

Definition add_u `{P : Profile} {E} (w a b : Z) : Outcome E Z := arith w (a + b).
Definition sub_u `{P : Profile} {E} (w a b : Z) : Outcome E Z := arith w (a - b).
Definition mul_u `{P : Profile} {E} (w a b : Z) : Outcome E Z := arith w (a * b).

(** [saturating_add] and [saturating_sub]. *)
Definition sat_add (w a b : Z) : Z := Z.min (a + b) (2 ^ w - 1).
Definition sat_sub (a b : Z) : Z := Z.max (a - b) 0.

Section ArithFacts.
Context `{P : Profile} {E : Type}.

Lemma arith_in w x : in_u w x → arith (E:=E) w x = Ok x.
Proof. intros. unfold arith. by rewrite decide_True. Qed.

Lemma arith_Ok_in w x y : 0 ≤ w → arith (E:=E) w x = Ok y → in_u w y.
Proof.
  unfold arith. intros Hw. case_decide; [naive_solver|].
  destruct overflow_checks; [done|]. intros [= <-].
  apply Z.mod_pos_bound, Z.pow_pos_nonneg; lia.
Qed.

Lemma arith_dev w x y : P = Dev → arith (E:=E) w x = Ok y → y = x ∧ in_u w x.
Proof. intros ->. unfold arith. case_decide; naive_solver. Qed.

Lemma arith_panic w x : P = Dev → ¬ in_u w x → arith (E:=E) w x = Panic.
Proof. intros -> ?. unfold arith. by rewrite decide_False. Qed.

(** Without overflow checks a result one modulus off is wrapped. *)
Lemma arith_wrap w x y :
  P = Release → 0 ≤ w → in_u w y → x = y + 2 ^ w ∨ x = y - 2 ^ w →
  arith (E:=E) w x = Ok y.
Proof.
  intros -> Hw Hy Hx. unfold arith. unfold in_u in Hy.
  rewrite decide_False by (unfold in_u; lia). simpl. f_equal. symmetry.
  destruct Hx; [apply (Z.mod_unique_pos _ _ 1)|apply (Z.mod_unique_pos _ _ (-1))]; lia.
Qed.

Lemma arith_not_err w x e : arith (E:=E) w x ≠ Err e.
Proof. unfold arith. by repeat case_match. Qed.
End ArithFacts.

Lemma in_u_weaken w x y : in_u w y → 0 ≤ x ≤ y → in_u w x.
Proof. unfold in_u. lia. Qed.

(** ** Byte strings *)
Abbreviation bytes := (list Z).
Definition is_byte (b : Z) : Prop := 0 ≤ b < 256.

(** A byte-string literal [b"..."]. *)
Definition bytes_of (s : string) : bytes :=
  (λ c, Z.of_N (N_of_ascii c)) <$> list_ascii_of_string s.

(** [to_be_bytes] of an [n]-byte integer: most significant byte first. *)
Fixpoint to_le_bytes (n : nat) (x : Z) : bytes :=
  match n with
  | O => []
  | S n => x mod 256 :: to_le_bytes n (x / 256)
  end.
Fixpoint from_le_bytes (l : bytes) : Z :=
  match l with [] => 0 | b :: l => b + 256 * from_le_bytes l end.
Definition to_be_bytes (n : nat) (x : Z) : bytes := rev (to_le_bytes n x).
Definition from_be_bytes (l : bytes) : Z := from_le_bytes (rev l).

Lemma length_to_le_bytes n x : length (to_le_bytes n x) = n.
Proof. revert x; induction n; intros; simpl; auto. Qed.

Lemma length_to_be_bytes n x : length (to_be_bytes n x) = n.
Proof. unfold to_be_bytes. by rewrite length_rev, length_to_le_bytes. Qed.

Lemma to_le_bytes_is_byte n x : Forall is_byte (to_le_bytes n x).
Proof.
  revert x; induction n as [|n IH]; intros x; constructor; [|apply IH].
  apply Z.mod_pos_bound; lia.
Qed.

Lemma from_to_le_bytes n x :
  0 ≤ x < 256 ^ Z.of_nat n → from_le_bytes (to_le_bytes n x) = x.
Proof.
  revert x; induction n as [|n IH]; intros x Hx; simpl to_le_bytes.
  - simpl. change (256 ^ Z.of_nat 0) with 1 in Hx. lia.
  - simpl. rewrite Nat2Z.inj_succ, Z.pow_succ_r in Hx by lia.
    rewrite IH.
    + pose proof (Z.div_mod x 256). lia.
    + split; [apply Z.div_pos; lia | apply Z.div_lt_upper_bound; lia].
Qed.

Lemma from_to_be_bytes n x :
  0 ≤ x < 256 ^ Z.of_nat n → from_be_bytes (to_be_bytes n x) = x.
Proof.
  intros. unfold from_be_bytes, to_be_bytes. rewrite rev_involutive.
  by apply from_to_le_bytes.
Qed.

Lemma to_be_bytes_inj n x y :
  0 ≤ x < 256 ^ Z.of_nat n → 0 ≤ y < 256 ^ Z.of_nat n →
  to_be_bytes n x = to_be_bytes n y → x = y.
Proof.
  intros Hx Hy Heq. apply (f_equal from_be_bytes) in Heq.
  by rewrite !from_to_be_bytes in Heq.
Qed.

Lemma from_le_bytes_bound l :
  Forall is_byte l → 0 ≤ from_le_bytes l < 256 ^ Z.of_nat (length l).
Proof.
  induction 1 as [|b l Hb _ IH]; simpl from_le_bytes; simpl length.
  - change (256 ^ Z.of_nat 0) with 1. lia.
  - rewrite Nat2Z.inj_succ, Z.pow_succ_r by lia. unfold is_byte in Hb. lia.
Qed.

(** [copy_from_slice] panics unless the slice has exactly the length of the
    destination; this is the array of [n] bytes it fills. *)
Definition copy_from_slice {E} (n : nat) (src : bytes) : Outcome E bytes :=
  if decide (length src = n) then Ok src else Panic.

(** The slice [src[..n]] panics when [src] is shorter than [n]. *)
Definition slice_to {E} (n : nat) (src : bytes) : Outcome E bytes :=
  if decide (n ≤ length src)%nat then Ok (take n src) else Panic.

(** Disequality of closed terms by evaluation. *)
Lemma bool_decide_ne {A B} `{EqDecision B} (f : A → B) (x y : A) :
  bool_decide (f x = f y) = false → x ≠ y.
Proof. intros Hf%bool_decide_eq_false ->. done. Qed.

(** ** Automation *)

(** Inverts every [_ = Ok _] hypothesis about a monadic computation. *)
Ltac outcome_inv :=
  repeat match goal with
  | H : (_ ≫= _) = Ok _ |- _ =>
      apply bind_Ok_inv in H;
      let x := fresh "x" in let Hx := fresh "Hx" in
      destruct H as (x & Hx & H); simplify_eq
  | H : unwrap _ = Ok _ |- _ => apply unwrap_Ok_inv in H
  | H : Ok _ = Ok _ |- _ => injection H as H; simplify_eq
  | H : Err _ = Ok _ |- _ => discriminate H
  | H : Panic = Ok _ |- _ => discriminate H
  | H : mret _ = Ok _ |- _ => injection H as H; simplify_eq
  end.

Create HintDb ori discriminated.
#[global] Hint Constants Opaque : ori.
#[global] Hint Resolve arith_in in_u_weaken : ori.
#[global] Hint Extern 2 (in_u _ _) => (unfold in_u in *; lia) : ori.
#[global] Hint Extern 3 (_ ≤ _) => lia : ori.
#[global] Hint Extern 3 (_ < _) => lia : ori.

Create Rewrite HintDb ori_arith.
#[global] Hint Rewrite @arith_in using (solve [auto with ori]) : ori_arith.

(** Evaluates in-range arithmetic in the goal. *)
Ltac arith_step := unfold add_u, sub_u, mul_u; autorewrite with ori_arith; simpl.

(** Evaluates the in-range arithmetic the computation on the left starts with. *)
Ltac arith_bind :=
  match goal with
  | |- (arith ?w ?x ≫= _) = _ => rewrite (arith_in w x) by (unfold in_u; lia); rewrite bind_Ok
  end.

(** ** Sums over lists *)
Definition sum_list_Z {A} (f : A → Z) (l : list A) : Z := foldr (fun a z => f a + z) 0 l.

Section SumFacts.
Context {A : Type} `{EqDecision A}.
Implicit Types (f g : A → Z) (l : list A).

Lemma sum_list_Z_ext f g l :
  (∀ a, a ∈ l → f a = g a) → sum_list_Z f l = sum_list_Z g l.
Proof.
  induction l as [|a l IH]; intros H; simpl; [done|].
  rewrite (H a) by set_solver. f_equal. apply IH. set_solver.
Qed.

(** Changing one point of the summand changes the sum by the difference. *)
Lemma sum_list_Z_update f g l a :
  NoDup l → a ∈ l → (∀ b, b ∈ l → b ≠ a → g b = f b) →
  sum_list_Z g l = sum_list_Z f l + (g a - f a).
Proof.
  induction 1 as [|b l Hb Hnd IH]; intros Hin Hext; [set_solver|]; simpl.
  apply elem_of_cons in Hin as [->|Hin].
  - rewrite (sum_list_Z_ext g f l); [lia|].
    intros c Hc. apply Hext; [set_solver|congruence].
  - rewrite (IH Hin) by (intros; apply Hext; set_solver).
    rewrite (Hext b) by set_solver. lia.
Qed.

Lemma sum_list_Z_nonneg f l : (∀ a, a ∈ l → 0 ≤ f a) → 0 ≤ sum_list_Z f l.
Proof.
  induction l as [|a l IH]; intros H; simpl; [lia|].
  pose proof (H a ltac:(set_solver)). specialize (IH ltac:(set_solver)). lia.
Qed.

Lemma sum_list_Z_elem_le f l a :
  (∀ b, b ∈ l → 0 ≤ f b) → a ∈ l → f a ≤ sum_list_Z f l.
Proof.
  induction l as [|b l IH]; intros H Hin; simpl; [set_solver|].
  pose proof (sum_list_Z_nonneg f l ltac:(set_solver)).
  pose proof (H b ltac:(set_solver)).
  apply elem_of_cons in Hin as [->|Hin]; [lia|].
  specialize (IH ltac:(set_solver) Hin). lia.
Qed.
End SumFacts.
