(* ===== verification/Hashing.v ===== *)
(** * Hashing: the [hash] crate (src/common/hash)

    [blake2b_256] over the third-party [blake2b_rs] hasher.  The digest itself
    is a parameter ([Blake2b]); what the crate adds, the constant it returns
    for empty input, is modelled. *)
From S2P Require Import Prelude.

(** The third-party digest, personalised as [new_blake2b] builds it. *)
Class Blake2b : Type := inner_blake2b_256 : bytes → bytes.

(** Documented behaviour of a BLAKE2b instance with a 32-byte output. *)
Class Blake2bLaws `{Blake2b} : Prop := {
  blake2b_length s : length (inner_blake2b_256 s) = 32%nat;
  blake2b_bytes s : Forall is_byte (inner_blake2b_256 s);
}.

Definition BLANK_HASH : bytes :=
  [68; 244; 198; 151; 68; 213; 248; 197; 93; 100; 32; 98; 148; 157; 202; 228;
   155; 196; 231; 239; 67; 211; 136; 197; 161; 47; 66; 181; 99; 61; 22; 62].

Definition blake2b_256 `{Blake2b} (s : bytes) : bytes :=
  match s with [] => BLANK_HASH | _ => inner_blake2b_256 s end.

Section HashingFacts.
Context `{Blake2bLaws}.

Lemma length_blake2b_256 s : length (blake2b_256 s) = 32%nat.
Proof. destruct s; [done|apply blake2b_length]. Qed.

Lemma blake2b_256_bytes s : Forall is_byte (blake2b_256 s).
Proof.
  destruct s; [|apply blake2b_bytes].
  unfold BLANK_HASH, is_byte. repeat constructor; lia.
Qed.
End HashingFacts.

(** A digest for worked examples.  On the 32- and 64-byte inputs from which the
    state derives its storage keys it keeps the 20 bytes that tell them apart,
    tagged with the length of the input; other inputs are summed up in base
    257. *)
Definition example_sum (s : bytes) : Z :=
  foldl (λ acc b, (acc * 257 + b + 1) mod (2 ^ 61 - 1)) 0 s.
Definition example_blake2b : Blake2b := fun s =>
  if decide (length s = 32 ∨ length s = 64)%nat then
    replicate 12 (Z.of_nat (length s) mod 256) ++
    ((λ b, b mod 256) <$> take 20 (drop 12 s))
  else to_be_bytes 32 (example_sum s).

Lemma example_blake2b_laws : @Blake2bLaws example_blake2b.
Proof.
  split; intros s; unfold inner_blake2b_256, example_blake2b; case_decide as Hl.
  - rewrite length_app, length_replicate, length_fmap, length_take, length_drop. lia.
  - apply length_to_be_bytes.
  - apply Forall_app; split.
    + apply Forall_replicate, Z.mod_pos_bound; lia.
    + apply Forall_fmap, Forall_forall. intros b _. apply Z.mod_pos_bound; lia.
  - unfold to_be_bytes. apply Forall_rev, to_le_bytes_is_byte.
Qed.

(** The digest of a padded 20-byte string keeps the string. *)
Lemma example_digest c rest :
  length c = 20%nat → Forall is_byte c → (length rest = 0 ∨ length rest = 32)%nat →
  example_blake2b (replicate 12 0 ++ c ++ rest) =
    replicate 12 ((32 + Z.of_nat (length rest)) mod 256) ++ c.
Proof.
  intros Hc Hb Hr. unfold example_blake2b.
  rewrite decide_True by (rewrite !length_app, length_replicate; lia). f_equal.
  - f_equal. rewrite !length_app, length_replicate, Hc. f_equal. lia.
  - rewrite drop_app_length' by done. rewrite take_app_length' by done.
    clear Hc. induction Hb as [|x c Hx _ IH]; [done|].
    rewrite fmap_cons, IH. f_equal. apply Z.mod_small, Hx.
Qed.
