(* ===== verification/Types.v ===== *)
(** * Types: hashes and addresses (src/core/src/types.rs)

    [Hash] is a 32-byte digest and [Address] a 20-byte account identifier; the
    models keep the bytes and state the length where it matters
    ([hash_wf], [addr_wf]).  The [hex] and [byteorder] crates are parameters. *)
From S2P Require Import Prelude Hashing.

(** ** Third-party text and integer codecs *)

(** [hex::encode] and [hex::decode]; strings are their UTF-8 bytes. *)
Class Hex : Type := {
  hex_encode : bytes → bytes;
  hex_decode : bytes → option bytes;
}.
Definition is_hex_digit (c : Z) : Prop := 48 ≤ c ≤ 57 ∨ 97 ≤ c ≤ 102.
(** The lower-case digits of a string of bytes, high nibble first. *)
Definition hex_digit (n : Z) : Z := if decide (n < 10) then 48 + n else 87 + n.
Fixpoint hex_digits (b : bytes) : bytes :=
  match b with
  | [] => []
  | x :: b => hex_digit (x / 16) :: hex_digit (x mod 16) :: hex_digits b
  end.
Class HexLaws `{Hex} : Prop := {
  hex_encode_spec b : Forall is_byte b → hex_encode b = hex_digits b;
  hex_decode_encode b : Forall is_byte b → hex_decode (hex_encode b) = Some b;
}.

Lemma hex_digit_ok n : 0 ≤ n < 16 → is_hex_digit (hex_digit n).
Proof. unfold hex_digit, is_hex_digit. case_decide; lia. Qed.
Lemma hex_digits_ok b : Forall is_byte b → Forall is_hex_digit (hex_digits b).
Proof.
  induction 1 as [|x b Hx _ IH]; simpl; constructor; [|constructor; [|done]]; apply hex_digit_ok;
    unfold is_byte in Hx.
  - split; [apply Z.div_pos; lia|apply Z.div_lt_upper_bound; lia].
  - apply Z.mod_pos_bound. lia.
Qed.
Lemma hex_encode_digits `{HexLaws} b : Forall is_byte b → Forall is_hex_digit (hex_encode b).
Proof. intros Hb. rewrite hex_encode_spec by done. by apply hex_digits_ok. Qed.

(** [byteorder]'s [write_u64] and [read_u64]. *)
Class ByteOrder : Type := {
  write_u64_be : Z → bytes;
  read_u64_be : bytes → Z;
  write_u64_le : Z → bytes;
  read_u64_le : bytes → Z;
}.
Class ByteOrderLaws `{ByteOrder} : Prop := {
  write_u64_be_length x : length (write_u64_be x) = 8%nat;
  write_u64_le_length x : length (write_u64_le x) = 8%nat;
  read_write_u64_be x : in_u 64 x → read_u64_be (write_u64_be x) = x;
  read_write_u64_le x : in_u 64 x → read_u64_le (write_u64_le x) = x;
}.

(** ** Hash *)
Record Hash : Type := mkHash { hash_bytes : bytes }.
#[global] Instance Hash_eq_dec : EqDecision Hash.
Proof. solve_decision. Defined.
#[global] Program Instance Hash_countable : Countable Hash :=
  inj_countable' hash_bytes mkHash _.
Next Obligation. by intros []. Qed.

Definition hash_wf (h : Hash) : Prop := length (hash_bytes h) = 32%nat.
Definition Hash_default : Hash := mkHash (replicate 32 0).

Module Hash.
Definition to_slice (h : Hash) : bytes := hash_bytes h.
Definition as_bytes (h : Hash) : bytes := hash_bytes h.
Definition to_vec (h : Hash) : bytes := hash_bytes h.

(** Left-pads a short slice with zeros, keeps the last 32 bytes of a long one. *)
Definition from_bytes (src : bytes) : Hash :=
  if decide (length src ≤ 32)%nat
  then mkHash (replicate (32 - length src) 0 ++ src)
  else mkHash (drop (length src - 32) src).

(** [text.starts_with("0x") || text.starts_with("0X")] and [&text[2..]]. *)
Definition strip_0x (text : bytes) : bytes :=
  match text with
  | 48 :: c :: rest => if decide (c = 120 ∨ c = 88) then rest else text
  | _ => text
  end.

Definition from_hex `{Hex} (text : bytes) : Outcome unit Hash :=
  b ← ok_or tt (hex_decode (strip_0x text));
  mret (from_bytes b).

Definition make_hash `{Blake2b} (data : bytes) : Hash := mkHash (blake2b_256 data).

Definition from_u64 `{ByteOrder} {E} (val : Z) : Outcome E Hash :=
  let buf := write_u64_be val in
  let s := length buf in
  if decide (s ≤ 20)%nat
  then mret (from_bytes (replicate (20 - s) 0 ++ take s buf)) else Panic.

(** [Serialize]: the string ["0x" ++ hex]; [Deserialize] parses it and
    panics on a malformed string. *)
Definition serialize_str `{Hex} (h : Hash) : bytes :=
  48 :: 120 :: hex_encode (hash_bytes h).
Definition deserialize_str `{Hex} {E} (s : bytes) : Outcome E Hash :=
  unwrap_res (from_hex s).

(** The formatting traits; [{:02x}] of a byte is its two lower-case digits.
    [Debug] prints the whole hash, [Display] and [LowerHex] its first four bytes. *)
Definition fmt_debug (h : Hash) : bytes := hex_digits (hash_bytes h).
Definition fmt_display (h : Hash) : bytes :=
  48 :: 120 :: hex_digits (take 4 (hash_bytes h)).
Definition fmt_lower_hex (h : Hash) : bytes :=
  48 :: 120 :: hex_digits (take 4 (hash_bytes h)).

(** [From<&[u8]>]: the same padding as [from_bytes]. *)
Definition from (src : bytes) : Hash :=
  if decide (length src ≤ 32)%nat
  then mkHash (replicate (32 - length src) 0 ++ src)
  else mkHash (drop (length src - 32) src).
End Hash.

(** ** Address *)
Record Address : Type := mkAddress { addr_bytes : bytes }.
#[global] Instance Address_eq_dec : EqDecision Address.
Proof. solve_decision. Defined.
#[global] Program Instance Address_countable : Countable Address :=
  inj_countable' addr_bytes mkAddress _.
Next Obligation. by intros []. Qed.

Definition addr_wf (a : Address) : Prop :=
  length (addr_bytes a) = 20%nat ∧ Forall is_byte (addr_bytes a).
Definition Address_default : Address := mkAddress (replicate 20 0).

Module Address.
Definition as_slice (a : Address) : bytes := addr_bytes a.

Definition from_slice {E} (b : bytes) : Outcome E Address :=
  s ← slice_to 20 b; mret (mkAddress s).

Definition zero : Address := Address_default.

(** Panics (in [copy_from_slice]) when the text decodes to other than 20 bytes. *)
Definition from_hex `{Hex} (text : bytes) : Outcome unit Address :=
  b ← ok_or tt (hex_decode (Hash.strip_0x text));
  s ← copy_from_slice 20 b;
  mret (mkAddress s).

Definition pad20 {E} (buf : bytes) : Outcome E bytes :=
  let s := length buf in
  if decide (s ≤ 20)%nat then Ok (replicate (20 - s) 0 ++ take s buf) else Panic.

Definition from_low_u64_le `{ByteOrder} {E} (val : Z) : Outcome E Address :=
  b ← pad20 (write_u64_le val); from_slice b.
Definition from_low_u64_be `{ByteOrder} {E} (val : Z) : Outcome E Address :=
  b ← pad20 (write_u64_be val); from_slice b.
Definition to_low_u64_be `{ByteOrder} (a : Address) : Z :=
  read_u64_be (drop (20 - 8) (addr_bytes a)).
Definition to_low_u64_le `{ByteOrder} (a : Address) : Z :=
  read_u64_le (drop (20 - 8) (addr_bytes a)).

(** [From<Pubkey>]: the last 20 bytes of the digest of the raw key. *)
Definition from_pubkey `{Blake2b} (raw : bytes) : Address :=
  mkAddress (drop 12 (blake2b_256 raw)).

(** [Display] and [Debug]: the digits, without a prefix. *)
Definition fmt_display (a : Address) : bytes := hex_digits (addr_bytes a).
Definition fmt_debug (a : Address) : bytes := hex_digits (addr_bytes a).
End Address.

(** ** Facts *)
Lemma from_bytes_wf src : hash_wf (Hash.from_bytes src).
Proof.
  unfold Hash.from_bytes, hash_wf. case_decide; simpl.
  - rewrite length_app, length_replicate. lia.
  - rewrite length_drop. lia.
Qed.

Lemma from_bytes_32 src : length src = 32%nat → Hash.from_bytes src = mkHash src.
Proof.
  intros Hl. unfold Hash.from_bytes. rewrite decide_True by lia.
  by rewrite Hl, Nat.sub_diag.
Qed.

Lemma from_bytes_20 src :
  length src = 20%nat → Hash.from_bytes src = mkHash (replicate 12 0 ++ src).
Proof. intros Hl. unfold Hash.from_bytes. rewrite decide_True by lia. by rewrite Hl. Qed.

Lemma from_bytes_hash h : hash_wf h → Hash.from_bytes (hash_bytes h) = h.
Proof. intros. rewrite from_bytes_32 by done. by destruct h. Qed.

(** Padding is injective on slices of one length. *)
Lemma from_bytes_inj a b :
  length a = length b → (length a ≤ 32)%nat →
  Hash.from_bytes a = Hash.from_bytes b → a = b.
Proof.
  intros Hl Hle. unfold Hash.from_bytes.
  rewrite !decide_True by lia. intros [= Heq].
  rewrite Hl in Heq. by apply app_inv_head in Heq.
Qed.

Lemma make_hash_wf `{Blake2bLaws} data : hash_wf (Hash.make_hash data).
Proof. apply length_blake2b_256. Qed.

Section TypesFacts.
Context `{HL : HexLaws}.

Lemma strip_0x_hex b :
  Hash.strip_0x (48 :: 120 :: hex_encode b) = hex_encode b.
Proof. reflexivity. Qed.

(** A string of hex digits never looks like it has a prefix. *)
Lemma strip_0x_digits t : Forall is_hex_digit t → Hash.strip_0x t = t.
Proof.
  intros Hd. destruct t as [|a [|c rest]]; try done.
  - unfold Hash.strip_0x. by repeat case_match.
  - rewrite !Forall_cons_iff in Hd. destruct Hd as (_ & Hc & _).
    unfold is_hex_digit in Hc. unfold Hash.strip_0x.
    repeat case_match; try done; lia.
Qed.

Lemma Hash_from_hex_encode h :
  hash_wf h → Forall is_byte (hash_bytes h) →
  Hash.from_hex (hex_encode (hash_bytes h)) = Ok h.
Proof.
  intros Hwf Hb. unfold Hash.from_hex.
  rewrite strip_0x_digits by (by apply hex_encode_digits).
  rewrite hex_decode_encode by done. simpl. by rewrite from_bytes_hash.
Qed.

(** Printing a hash and parsing it back gives the same hash. *)
Lemma Hash_str_roundtrip {E} h :
  hash_wf h → Forall is_byte (hash_bytes h) →
  Hash.deserialize_str (E:=E) (Hash.serialize_str h) = Ok h.
Proof.
  intros Hwf Hb. unfold Hash.deserialize_str, Hash.serialize_str, Hash.from_hex.
  rewrite strip_0x_hex, hex_decode_encode by done. simpl.
  by rewrite from_bytes_hash.
Qed.

(** An address parses from its digits, with or without the prefix. *)
Lemma Address_from_hex_encode a :
  addr_wf a →
  Address.from_hex (hex_encode (addr_bytes a)) = Ok a ∧
  Address.from_hex (48 :: 120 :: hex_encode (addr_bytes a)) = Ok a.
Proof.
  intros [Hl Hb]. unfold Address.from_hex.
  rewrite strip_0x_hex, strip_0x_digits, hex_decode_encode;
    auto using hex_encode_digits. simpl.
  unfold copy_from_slice. rewrite decide_True by done. by destruct a.
Qed.

(** What the formatting traits print of a whole value parses back. *)
Lemma Hash_debug_parses h :
  hash_wf h → Forall is_byte (hash_bytes h) → Hash.from_hex (Hash.fmt_debug h) = Ok h.
Proof.
  intros Hwf Hb. unfold Hash.fmt_debug. rewrite <-hex_encode_spec by done.
  by apply Hash_from_hex_encode.
Qed.
Lemma Address_display_parses a : addr_wf a → Address.from_hex (Address.fmt_display a) = Ok a.
Proof.
  intros Ha. unfold Address.fmt_display. rewrite <-hex_encode_spec by apply Ha.
  by apply Address_from_hex_encode.
Qed.
(** What [Display] prints of a hash parses as another hash: the four bytes, padded. *)
Lemma Hash_display_parses h :
  hash_wf h → Forall is_byte (hash_bytes h) →
  Hash.from_hex (Hash.fmt_display h) = Ok (mkHash (replicate 28 0 ++ take 4 (hash_bytes h))).
Proof.
  intros Hwf Hb. unfold Hash.from_hex, Hash.fmt_display.
  assert (Forall is_byte (take 4 (hash_bytes h))) as Ht by by apply Forall_take.
  rewrite <-hex_encode_spec, strip_0x_hex, hex_decode_encode by done. simpl.
  unfold hash_wf in Hwf. unfold Hash.from_bytes.
  rewrite length_take, Hwf. by rewrite decide_True by (simpl; lia).
Qed.
Lemma hex_digits_inj a b :
  Forall is_byte a → Forall is_byte b → hex_digits a = hex_digits b → a = b.
Proof.
  intros Ha Hb Heq. apply (f_equal hex_decode) in Heq.
  rewrite <-!hex_encode_spec, !hex_decode_encode in Heq by done. by simplify_eq.
Qed.
(** Two hashes print the same exactly when their first four bytes agree. *)
Lemma Hash_display_eq h k :
  Forall is_byte (hash_bytes h) → Forall is_byte (hash_bytes k) →
  Hash.fmt_display h = Hash.fmt_display k ↔ take 4 (hash_bytes h) = take 4 (hash_bytes k).
Proof.
  intros Hh Hk. split; [|by unfold Hash.fmt_display; intros ->].
  intros [= Heq]. apply hex_digits_inj; [by apply Forall_take..|done].
Qed.
End TypesFacts.

Section LowU64.
Context `{BL : ByteOrderLaws} {E : Type}.

Lemma pad20_8 buf :
  length buf = 8%nat → Address.pad20 (E:=E) buf = Ok (replicate 12 0 ++ buf).
Proof.
  intros Hl. unfold Address.pad20. rewrite Hl, decide_True by lia.
  by rewrite <-Hl, firstn_all, Hl.
Qed.

Lemma from_slice_20 b :
  length b = 20%nat → Address.from_slice (E:=E) b = Ok (mkAddress b).
Proof.
  intros Hl. unfold Address.from_slice, slice_to. rewrite decide_True by lia.
  simpl. by rewrite <-Hl, firstn_all.
Qed.

Lemma low_u64_be_roundtrip v :
  in_u 64 v →
  ∃ a, Address.from_low_u64_be (E:=E) v = Ok a ∧ Address.to_low_u64_be a = v ∧
       length (addr_bytes a) = 20%nat.
Proof.
  intros Hv. pose proof (write_u64_be_length v) as Hl.
  eexists. unfold Address.from_low_u64_be.
  rewrite pad20_8 by done. simpl. rewrite from_slice_20.
  - split_and!; [done| |]; simpl.
    + unfold Address.to_low_u64_be; simpl. by apply read_write_u64_be.
    + by rewrite Hl.
  - simpl. by rewrite Hl.
Qed.

Lemma low_u64_le_roundtrip v :
  in_u 64 v →
  ∃ a, Address.from_low_u64_le (E:=E) v = Ok a ∧ Address.to_low_u64_le a = v ∧
       length (addr_bytes a) = 20%nat.
Proof.
  intros Hv. pose proof (write_u64_le_length v) as Hl.
  eexists. unfold Address.from_low_u64_le.
  rewrite pad20_8 by done. simpl. rewrite from_slice_20.
  - split_and!; [done| |]; simpl.
    + unfold Address.to_low_u64_le; simpl. by apply read_write_u64_le.
    + by rewrite Hl.
  - simpl. by rewrite Hl.
Qed.
End LowU64.

(** ** Concrete codecs for worked examples *)
Definition hex_value (c : Z) : option Z :=
  if decide (48 ≤ c ≤ 57) then Some (c - 48)
  else if decide (97 ≤ c ≤ 102) then Some (c - 87) else None.
Fixpoint hex_parse (t : bytes) : option bytes :=
  match t with
  | [] => Some []
  | [_] => None
  | c :: d :: t =>
      x ← hex_value c; y ← hex_value d; b ← hex_parse t; mret (16 * x + y :: b)
  end.
Definition example_hex : Hex := {| hex_encode := hex_digits; hex_decode := hex_parse |}.

Lemma hex_value_digit n : 0 ≤ n < 16 → hex_value (hex_digit n) = Some n.
Proof.
  intros Hn. unfold hex_digit. case_decide; unfold hex_value.
  - rewrite decide_True by lia. f_equal. lia.
  - rewrite decide_False, decide_True by lia. f_equal. lia.
Qed.

Lemma example_hex_laws : @HexLaws example_hex.
Proof.
  split; [done|]. simpl. induction 1 as [|x b Hx _ IH]; [done|].
  unfold is_byte in Hx. cbn [hex_digits hex_parse].
  rewrite !hex_value_digit, IH.
  - simpl. do 2 f_equal. pose proof (Z.div_mod x 16). lia.
  - split; [apply Z.div_pos; lia|apply Z.div_lt_upper_bound; lia].
  - apply Z.mod_pos_bound. lia.
Qed.

Definition example_byteorder : ByteOrder := {|
  write_u64_be := to_be_bytes 8; read_u64_be := from_be_bytes;
  write_u64_le := to_le_bytes 8; read_u64_le := from_le_bytes;
|}.
Lemma example_byteorder_laws : @ByteOrderLaws example_byteorder.
Proof.
  split; intros x.
  - apply length_to_be_bytes.
  - apply length_to_le_bytes.
  - intros Hx. by apply (from_to_be_bytes 8).
  - intros Hx. by apply (from_to_le_bytes 8).
Qed.
