(* ===== verification/Codec.v ===== *)
(** * Codec: the [bincode] interface

    Accounts, validators, headers, blocks and messages are stored and sent as
    [bincode] of their serde encodings.  [bincode] is third-party code, so a
    serialised type comes with a pair of functions ([Bincode]) and the
    documented round trip ([BincodeLaws]); every type serialised by the
    program has at least one byte of encoding. *)
From S2P Require Import Prelude.

Class Bincode (A : Type) : Type := {
  serialize : A → bytes;
  deserialize : bytes → option A;
}.
#[global] Hint Mode Bincode ! : typeclass_instances.

Class BincodeLaws (A : Type) `{Bincode A} : Prop := {
  deserialize_serialize (x : A) : deserialize (serialize x) = Some x;
  serialize_nonempty (x : A) : serialize x ≠ [];
}.
#[global] Hint Mode BincodeLaws ! - : typeclass_instances.

Lemma serialize_inj `{BincodeLaws A} (x y : A) : serialize x = serialize y → x = y.
Proof.
  intros Heq. apply (f_equal (deserialize (A:=A))) in Heq.
  rewrite !deserialize_serialize in Heq. by injection Heq.
Qed.

Create Rewrite HintDb ori_codec.
#[global] Hint Rewrite @deserialize_serialize using (typeclasses eauto) : ori_codec.

(** ** A concrete codec for worked examples

    Any countable type has the encoding by its code, written as one word
    behind a zero; the words of the examples are not bounded. *)
Definition example_bincode {A} `{Countable A} : Bincode A := {|
  serialize x := [0; Zpos (encode x)];
  deserialize l := match l with [0; Zpos p] => decode p | _ => None end;
|}.

Lemma example_bincode_laws {A} `{Countable A} : @BincodeLaws A example_bincode.
Proof. split; intros x; simpl; [apply decode_encode|done]. Qed.
