(* ===== verification/Store.v ===== *)
(** * Store: key-value backends (src/common/store)

    [KVDB] is the trait the state database is written against and [MapDB] the
    RocksDB wrapper that the chain database uses directly.  [KVDBLaws] states
    what a backend promises its clients, a finite map; [MemoryKV] is proved to
    implement it, and [MapDB] implements it whenever RocksDB does. *)
From S2P Require Import Prelude.

(** I/O failures reported by a backend. *)
Inductive IoError : Type := IoFailure.

(** ** The trait [KVDB] *)
Class KVDB (D : Type) : Type := {
  kv_get : D → bytes → Outcome IoError (option bytes);
  kv_put : D → bytes → bytes → Outcome IoError D;
  kv_remove : D → bytes → Outcome IoError D;
}.
#[global] Hint Mode KVDB ! : typeclass_instances.

(** What clients rely on: the backend behaves like the map [kv_map]. *)
Class KVDBLaws (D : Type) `{KVDB D} : Type := {
  kv_map : D → gmap bytes bytes;
  kv_get_spec (d : D) k : kv_get d k = Ok (kv_map d !! k);
  kv_put_spec (d : D) k v :
    ∃ d', kv_put d k v = Ok d' ∧ kv_map d' = <[k:=v]> (kv_map d);
  kv_remove_spec (d : D) k :
    ∃ d', kv_remove d k = Ok d' ∧ kv_map d' = delete k (kv_map d);
}.
#[global] Hint Mode KVDBLaws ! - : typeclass_instances.

(** ** MemoryKV *)
Record MemoryKV : Type := mkMemoryKV { mem_db : gmap bytes bytes }.

Module MemoryKV.
Definition new : MemoryKV := mkMemoryKV ∅.
Definition put {E} (s : MemoryKV) (key value : bytes) : Outcome E MemoryKV :=
  Ok (mkMemoryKV (<[key:=value]> (mem_db s))).
Definition get {E} (s : MemoryKV) (key : bytes) : Outcome E (option bytes) :=
  Ok (match mem_db s !! key with Some v => Some v | None => None end).
Definition remove {E} (s : MemoryKV) (key : bytes) : Outcome E MemoryKV :=
  Ok (mkMemoryKV (delete key (mem_db s))).
End MemoryKV.

#[global] Instance MemoryKV_KVDB : KVDB MemoryKV := {|
  kv_get := MemoryKV.get; kv_put := MemoryKV.put; kv_remove := MemoryKV.remove |}.

#[global] Instance MemoryKV_laws : KVDBLaws MemoryKV.
Proof.
  refine {| kv_map := mem_db |}.
  - intros d k. simpl. unfold MemoryKV.get. by destruct (mem_db d !! k).
  - intros d k v. eexists. done.
  - intros d k. eexists. done.
Defined.

(** ** RocksDB and MapDB *)

(** The operations of a RocksDB handle that [MapDB] calls. *)
Class RocksDB (R : Type) : Type := {
  rdb_get : R → bytes → Outcome IoError (option bytes);
  rdb_put : R → bytes → bytes → Outcome IoError R;
  rdb_delete : R → bytes → Outcome IoError R;
}.
#[global] Hint Mode RocksDB ! : typeclass_instances.

(** A healthy database: every operation succeeds and acts like a map. *)
Class RocksDBLaws (R : Type) `{RocksDB R} : Type := {
  rdb_map : R → gmap bytes bytes;
  rdb_get_spec (d : R) k : rdb_get d k = Ok (rdb_map d !! k);
  rdb_put_spec (d : R) k v :
    ∃ d', rdb_put d k v = Ok d' ∧ rdb_map d' = <[k:=v]> (rdb_map d);
  rdb_delete_spec (d : R) k :
    ∃ d', rdb_delete d k = Ok d' ∧ rdb_map d' = delete k (rdb_map d);
}.
#[global] Hint Mode RocksDBLaws ! - : typeclass_instances.

Record MapDB (R : Type) : Type := mkMapDB { inner : R }.
Arguments mkMapDB {R}. Arguments inner {R}.

Module MapDB.
Section MapDB.
Context {R : Type} `{RocksDB R}.

Definition put (s : MapDB R) (key value : bytes) : Outcome IoError (MapDB R) :=
  mkMapDB <$> rdb_put (inner s) key value.
(** [db.get(key).unwrap()] *)
Definition get {E} (s : MapDB R) (key : bytes) : Outcome E (option bytes) :=
  unwrap_res (rdb_get (inner s) key).
Definition remove (s : MapDB R) (key : bytes) : Outcome IoError (MapDB R) :=
  mkMapDB <$> rdb_delete (inner s) key.
Definition exists_ (s : MapDB R) (key : bytes) : Outcome IoError bool :=
  (λ val, bool_decide (is_Some val)) <$> rdb_get (inner s) key.

(** The [KVDB] implementation panics where the inherent methods return [Err]. *)
Definition kv_put_ (s : MapDB R) (key value : bytes) : Outcome IoError (MapDB R) :=
  mkMapDB <$> unwrap_res (rdb_put (inner s) key value).
Definition kv_get_ (s : MapDB R) (key : bytes) : Outcome IoError (option bytes) :=
  unwrap_res (rdb_get (inner s) key).
Definition kv_remove_ (s : MapDB R) (key : bytes) : Outcome IoError (MapDB R) :=
  mkMapDB <$> unwrap_res (rdb_delete (inner s) key).
End MapDB.
End MapDB.

#[global] Instance MapDB_KVDB {R} `{RocksDB R} : KVDB (MapDB R) := {|
  kv_get := MapDB.kv_get_; kv_put := MapDB.kv_put_; kv_remove := MapDB.kv_remove_ |}.

#[global] Instance MapDB_laws {R} `{RocksDBLaws R} : KVDBLaws (MapDB R).
Proof.
  refine {| kv_map d := rdb_map (inner d) |}; intros d k; simpl.
  - unfold MapDB.kv_get_. by rewrite rdb_get_spec.
  - intros v. destruct (rdb_put_spec (inner d) k v) as (d' & Hp & Hm).
    exists (mkMapDB d'). unfold MapDB.kv_put_. by rewrite Hp.
  - destruct (rdb_delete_spec (inner d) k) as (d' & Hp & Hm).
    exists (mkMapDB d'). unfold MapDB.kv_remove_. by rewrite Hp.
Defined.

(** ** The inherent methods under the RocksDB laws *)
Section MapDBFacts.
Context {R : Type} `{RL : RocksDBLaws R}.
Implicit Types (s : MapDB R).

Definition mapdb_map (s : MapDB R) : gmap bytes bytes := rdb_map (inner s).

Lemma MapDB_get_spec {E} s k : MapDB.get (E:=E) s k = Ok (mapdb_map s !! k).
Proof. unfold MapDB.get. by rewrite rdb_get_spec. Qed.

Lemma MapDB_put_spec s k v :
  ∃ s', MapDB.put s k v = Ok s' ∧ mapdb_map s' = <[k:=v]> (mapdb_map s).
Proof.
  destruct (rdb_put_spec (inner s) k v) as (d' & Hp & Hm).
  exists (mkMapDB d'). unfold MapDB.put. by rewrite Hp.
Qed.

Lemma MapDB_remove_spec s k :
  ∃ s', MapDB.remove s k = Ok s' ∧ mapdb_map s' = delete k (mapdb_map s).
Proof.
  destruct (rdb_delete_spec (inner s) k) as (d' & Hp & Hm).
  exists (mkMapDB d'). unfold MapDB.remove. by rewrite Hp.
Qed.
End MapDBFacts.

(** A RocksDB handle for worked examples: an in-memory map. *)
Definition example_rocksdb : RocksDB (gmap bytes bytes) := {|
  rdb_get d k := Ok (d !! k);
  rdb_put d k v := Ok (<[k:=v]> d);
  rdb_delete d k := Ok (delete k d);
|}.

Definition example_rocksdb_laws : @RocksDBLaws _ example_rocksdb.
Proof.
  refine (@Build_RocksDBLaws _ example_rocksdb id _ _ _); intros; simpl; eauto.
Defined.
