(* ===== verification/Mtree.v ===== *)
(** * Mtree: the node store of the merkle tree (src/common/mtree/src/lib.rs)

    [TreeDB] stores the nodes of a starling merkle tree in a [MapDB].  Inserted nodes are
    collected in a write batch until [batch_write]; removals go to the database at once.
    The batch of RocksDB and the encoding of tree nodes are third-party code. *)
From S2P Require Import Prelude Store.

(** [rocksdb::WriteBatch] and [DB::write]. *)
Class WriteBatchOps (R : Type) : Type := {
  WriteBatch : Type;
  wb_default : WriteBatch;
  wb_put : WriteBatch → bytes → bytes → Outcome IoError WriteBatch;
  rdb_write : R → WriteBatch → Outcome IoError R;
}.
#[global] Hint Mode WriteBatchOps ! : typeclass_instances.
Arguments WriteBatch R {_}.
(** starling's [TreeNode]. *)
Class NodeCodec (N Ex : Type) : Type := {
  node_encode : N → Outcome Ex bytes;
  node_decode : bytes → Outcome Ex N;
  exception_of : IoError → Ex;
}.

Definition MapDB_write_batch {R} `{WriteBatchOps R} (s : MapDB R) (wb : WriteBatch R) : Outcome IoError (MapDB R) :=
  mkMapDB <$> rdb_write (inner s) wb.

Record TreeDB (R : Type) `{WriteBatchOps R} : Type := mkTreeDB { tree_db : MapDB R; pending_inserts : option (WriteBatch R) }.
Arguments mkTreeDB {R _}. Arguments tree_db {R _}. Arguments pending_inserts {R _}.

Module TreeDB.
Section TreeDB.
Context {R N Ex : Type} `{RocksDB R, WO : WriteBatchOps R, NC : NodeCodec N Ex}.
Implicit Types (t : TreeDB R) (key : bytes).
Definition new (db : MapDB R) : TreeDB R := mkTreeDB db (Some wb_default).
(** [Err] carries the exception; the tree keeps the state it has then. *)
Definition get_node t key : Outcome Ex (option N) :=
  buffer ← MapDB.get (tree_db t) key;
  match buffer with
  | Some buffer => n ← node_decode buffer; Ok (Some n)
  | None => Ok None
  end.
Definition map_err {A} (o : Outcome IoError A) : Outcome Ex A :=
  match o with Ok a => Ok a | Err e => Err (exception_of e) | Panic => Panic end.
Definition insert t key (value : N) : Outcome Ex (TreeDB R) :=
  serialized ← node_encode value;
  match pending_inserts t with
  | Some wb => wb ← map_err (wb_put wb key serialized); Ok (mkTreeDB (tree_db t) (Some wb))
  | None => wb ← map_err (wb_put wb_default key serialized); Ok (mkTreeDB (tree_db t) (Some wb))
  end.
Definition remove t key : Outcome Ex (TreeDB R) :=
  db ← map_err (MapDB.remove (tree_db t) key); Ok (mkTreeDB db (pending_inserts t)).
(** [Option::replace] leaves an empty batch while the old one is written. *)
Definition batch_write t : Outcome Ex (TreeDB R * (unit + Ex)) :=
  match pending_inserts t with
  | Some wb =>
      match MapDB_write_batch (tree_db t) wb with
      | Ok db => Ok (mkTreeDB db None, inl tt)
      | Err e => Ok (mkTreeDB (tree_db t) (Some wb_default), inr (exception_of e))
      | Panic => Panic
      end
  | None => Ok (mkTreeDB (tree_db t) None, inl tt)
  end.
End TreeDB.
End TreeDB.

(** What RocksDB documents: a batch holds its puts in order, writing it applies them all,
    or none when it fails. *)
Class WriteBatchLaws (R : Type) `{RL : RocksDBLaws R, WO : !WriteBatchOps R} : Type := {
  wb_items : WriteBatch R → list (bytes * bytes);
  wb_default_items : wb_items wb_default = [];
  wb_put_items wb k v : ∃ wb', wb_put wb k v = Ok wb' ∧ wb_items wb' = wb_items wb ++ [(k, v)];
  rdb_write_items d d' wb : rdb_write d wb = Ok d' → rdb_map d' = foldl (λ m x, <[x.1 := x.2]> m) (rdb_map d) (wb_items wb);
}.
Class NodeCodecLaws (N Ex : Type) `{NodeCodec N Ex} : Prop :=
  node_roundtrip_law n : ∃ b, node_encode n = Ok b ∧ node_decode b = Ok n.

Section TreeFacts.
Context {R N Ex : Type} `{WL : WriteBatchLaws R, NL : NodeCodecLaws N Ex}.
Implicit Types (t : TreeDB R) (key k : bytes) (l : list (bytes * N)).
Definition pending_items t : list (bytes * bytes) := match pending_inserts t with Some wb => wb_items wb | None => [] end.
Fixpoint insert_all t l : Outcome Ex (TreeDB R) :=
  match l with [] => Ok t | (k, n) :: l => t ← TreeDB.insert t k n; insert_all t l end.
(** The node a list of insertions leaves for a key. *)
Definition latest l k : option N := snd <$> last (filter (λ x, x.1 = k) l).
Definition apply_items (m : gmap bytes bytes) (l : list (bytes * bytes)) : gmap bytes bytes := foldl (λ m x, <[x.1 := x.2]> m) m l.

Lemma insert_spec t key n :
  ∃ t' b, TreeDB.insert t key n = Ok t' ∧ node_encode n = Ok b ∧ node_decode b = Ok n ∧ tree_db t' = tree_db t ∧
    pending_items t' = pending_items t ++ [(key, b)].
Proof.
  destruct (node_roundtrip_law n) as (b & He & Hd). unfold TreeDB.insert, pending_items. rewrite He, bind_Ok.
  destruct (pending_inserts t) as [wb|].
  - destruct (wb_put_items wb key b) as (wb' & -> & Hi). simpl. eexists _, b. done.
  - destruct (wb_put_items wb_default key b) as (wb' & -> & Hi). rewrite wb_default_items in Hi. simpl. eexists _, b. done.
Qed.
Lemma apply_items_lookup m (l : list (bytes * bytes)) k : apply_items m l !! k = match last (filter (λ x, x.1 = k) l) with Some x => Some x.2 | None => m !! k end.
Proof.
  revert m. induction l as [|[k' v] l IH] using rev_ind; intros m; [done|]. unfold apply_items. rewrite foldl_app. simpl.
  fold (apply_items m l). rewrite filter_app, filter_cons, filter_nil. simpl. case_decide as Hk.
  - subst k'. by rewrite last_snoc, lookup_insert_eq.
  - rewrite app_nil_r, lookup_insert_ne by done. apply IH.
Qed.
Lemma insert_all_spec t l :
  ∃ t' bl, insert_all t l = Ok t' ∧ tree_db t' = tree_db t ∧ pending_items t' = pending_items t ++ bl ∧
    Forall2 (λ x y, y.1 = x.1 ∧ node_decode y.2 = Ok x.2) l bl.
Proof.
  revert t. induction l as [|[k n] l IH]; intros t; simpl; [exists t, []; by rewrite app_nil_r|].
  destruct (insert_spec t k n) as (t1 & b & -> & _ & Hd & Hdb & Hp). rewrite bind_Ok. destruct (IH t1) as (t' & bl & -> & Hdb' & Hp' & Hf).
  exists t', ((k, b) :: bl). split_and!; [done|congruence|by rewrite Hp', Hp, <- app_assoc|by constructor].
Qed.
Lemma latest_decoded l bl k :
  Forall2 (λ x y, y.1 = x.1 ∧ node_decode y.2 = Ok x.2) l bl →
  match last (filter (λ x, x.1 = k) bl) with
  | Some y => ∃ n, latest l k = Some n ∧ node_decode y.2 = Ok n
  | None => latest l k = None
  end.
Proof.
  unfold latest. revert bl. induction l as [|[k' n] l IH] using rev_ind; intros bl Hf.
  { by apply Forall2_nil_inv_l in Hf as ->. }
  apply Forall2_app_inv_l in Hf as (bl1 & bl2 & Hf1 & Hf2 & ->). apply Forall2_cons_inv_l in Hf2 as ([k2 b] & bl3 & [Hk Hd] & Hn & ->).
  apply Forall2_nil_inv_l in Hn as ->. simpl in Hk, Hd. subst k2. rewrite !filter_app, !filter_cons, !filter_nil. simpl. case_decide.
  - rewrite !last_snoc. by exists n.
  - rewrite !app_nil_r. by apply IH.
Qed.

(** Nodes are invisible until [batch_write], which then makes the last node inserted
    under each key readable and leaves all others. *)
Theorem batch_write_spec t l :
  pending_items t = [] →
  ∃ t', insert_all t l = Ok t' ∧ (∀ k, TreeDB.get_node (N:=N) (Ex:=Ex) t' k = TreeDB.get_node t k) ∧
    ∀ t'', TreeDB.batch_write (Ex:=Ex) t' = Ok (t'', inl tt) →
      pending_items t'' = [] ∧
      ∀ k, TreeDB.get_node t'' k = match latest l k with Some n => Ok (Some n) | None => TreeDB.get_node t k end.
Proof.
  intros Hp. destruct (insert_all_spec t l) as (t' & bl & Hi & Hdb & Hp' & Hf). rewrite Hp in Hp'. exists t'. split; [done|]. split.
  - intros k. unfold TreeDB.get_node. by rewrite Hdb.
  - intros t'' Hw. unfold TreeDB.batch_write, MapDB_write_batch in Hw.
    assert (Hmap : mapdb_map (tree_db t'') = apply_items (mapdb_map (tree_db t)) bl ∧ pending_items t'' = []).
    { unfold pending_items in Hp'. destruct (pending_inserts t') as [wb|]; simpl in Hp'.
      - destruct (rdb_write (inner (tree_db t')) wb) as [d|e|] eqn:Hr; simpl in Hw; [|done..]. injection Hw as <-. split; [|done].
        apply rdb_write_items in Hr. rewrite Hp', Hdb in Hr. done.
      - injection Hw as <-. subst bl. rewrite Hdb. done. }
    destruct Hmap as [Hmap He]. split; [done|]. intros k. unfold TreeDB.get_node. rewrite !MapDB_get_spec, !bind_Ok, Hmap, apply_items_lookup.
    pose proof (latest_decoded l bl k Hf) as Hl. destruct (last _) as [y|]; [|by rewrite Hl].
    destruct Hl as (n & -> & Hd). by rewrite Hd, bind_Ok.
Qed.
(** A batch whose write fails is gone: the nodes it held are never written. *)
Theorem failed_batch_lost t wb e :
  pending_inserts t = Some wb → rdb_write (inner (tree_db t)) wb = Err e →
  ∃ t', TreeDB.batch_write (Ex:=Ex) t = Ok (t', inr (exception_of e)) ∧ pending_items t' = [] ∧ tree_db t' = tree_db t.
Proof.
  intros Hp Hw. unfold TreeDB.batch_write, MapDB_write_batch. rewrite Hp, Hw. simpl. eexists. split; [done|]. split; [|done].
  apply wb_default_items.
Qed.
(** A node removed while its insertion is pending comes back with the batch. *)
Theorem remove_overtaken t key n t1 t2 t3 :
  pending_items t = [] → TreeDB.insert t key n = Ok t1 → TreeDB.remove (Ex:=Ex) t1 key = Ok t2 → TreeDB.batch_write (Ex:=Ex) t2 = Ok (t3, inl tt) →
  TreeDB.get_node t3 key = Ok (Some n).
Proof.
  intros Hp Hi Hr Hw. destruct (insert_spec t key n) as (t1' & b & Hi' & _ & Hd & _ & Hp1). rewrite Hi in Hi'. injection Hi' as <-.
  rewrite Hp in Hp1. unfold TreeDB.remove in Hr.
  destruct (MapDB.remove (tree_db t1) key) as [db|e|]; simpl in Hr; [|done..]. injection Hr as <-.
  unfold TreeDB.batch_write, MapDB_write_batch in Hw. unfold pending_items in Hp1. simpl in Hw.
  destruct (pending_inserts t1) as [wb|]; [|done].
  destruct (rdb_write (inner db) wb) as [d|e|] eqn:Hrw; simpl in Hw; [|done..]. injection Hw as <-.
  apply rdb_write_items in Hrw. rewrite Hp1 in Hrw. simpl in Hrw.
  unfold TreeDB.get_node. rewrite MapDB_get_spec, bind_Ok. unfold mapdb_map. simpl. by rewrite Hrw, lookup_insert_eq, Hd.
Qed.
End TreeFacts.

(** ** A batch over finite maps *)
Module TreeEx.
#[export] Instance map_rdb : RocksDB (gmap bytes bytes) := {| rdb_get d k := Ok (d !! k); rdb_put d k v := Ok (<[k := v]> d); rdb_delete d k := Ok (delete k d) |}.
#[export] Instance map_rdb_laws : RocksDBLaws (gmap bytes bytes).
Proof. refine {| rdb_map d := d |}; intros; simpl; eauto. Defined.
#[export] Instance list_batch : WriteBatchOps (gmap bytes bytes) := {|
  WriteBatch := list (bytes * bytes); wb_default := []; wb_put wb k v := Ok (wb ++ [(k, v)]); rdb_write d wb := Ok (foldl (λ m x, <[x.1 := x.2]> m) d wb) |}.
#[export] Instance list_batch_laws : WriteBatchLaws (gmap bytes bytes).
Proof.
  refine (Build_WriteBatchLaws (gmap bytes bytes) _ _ _ (λ wb : WriteBatch (gmap bytes bytes), wb : list (bytes * bytes)) _ _ _); simpl; [done|eauto|].
  intros d d' wb [= <-]. done. Defined.
#[export] Instance byte_nodes : NodeCodec Z unit := {| node_encode n := Ok [n]; node_decode b := match b with [n] => Ok n | _ => Err tt end; exception_of _ := tt |}.
#[export] Instance byte_nodes_laws : NodeCodecLaws Z unit.
Proof. intros n. by exists [n]. Qed.
End TreeEx.
Section TreeWitnesses.
Import TreeEx.
Lemma batch_write_spec_witness :
  ∃ t', insert_all (TreeDB.new (mkMapDB (∅ : gmap bytes bytes))) [([1], 5); ([2], 6); ([1], 7)] = Ok t' ∧ TreeDB.get_node (N:=Z) (Ex:=unit) t' [1] = Ok None ∧
    ∃ t'', TreeDB.batch_write (Ex:=unit) t' = Ok (t'', inl tt) ∧ TreeDB.get_node (Ex:=unit) t'' [1] = Ok (Some 7).
Proof.
  destruct (batch_write_spec (N:=Z) (Ex:=unit) (TreeDB.new (mkMapDB (∅ : gmap bytes bytes))) [([1], 5); ([2], 6); ([1], 7)])
    as (t' & Hi & Hg & Hw); [reflexivity|].
  exists t'. split; [exact Hi|]. split; [rewrite Hg; reflexivity|].
  simpl in Hi. injection Hi as <-. eexists. split; [reflexivity|]. rewrite (proj2 (Hw _ eq_refl)). reflexivity.
Defined.
End TreeWitnesses.
