(* ===== verification/State.v ===== *)
(** * State: the trie-backed state database (src/core/src/state.rs)

    [ArchiveDB] caches trie nodes with reference counts in a [memory_db] and
    writes them to a [KVDB] backend, never deleting one; [CachingDB] keeps the
    counts in the backend too; [StateDB] overlays uncommitted changes on the
    trie at a root.  [memory_db] and [trie_db] are third-party: their
    operations are parameters ([MemoryDB], [TrieOps]) with their documented
    behaviour as laws ([MemoryDBLaws], [TrieLaws]). *)
From S2P Require Import Prelude Types Codec Store.

(** Hash of the empty trie and its RLP node (src/core/src/trie.rs). *)
Definition NULL_ROOT : Hash := mkHash
  [0x3a; 0xc4; 0xbf; 0x3c; 0xc9; 0x2d; 0x05; 0x46; 0x3d; 0x1e; 0x9c; 0x40; 0x24;
   0xca; 0xab; 0x4c; 0x78; 0x0f; 0x9d; 0x99; 0xd2; 0x4d; 0xd2; 0xf4; 0x55; 0x70;
   0x86; 0x94; 0xb5; 0x0a; 0x00; 0xc9].
Definition EMPTY_TRIE : bytes := [0x80].

(** ** memory_db: reference-counted nodes

    The key function is [HashKey], which ignores the prefix argument, so the
    prefix is left out. *)
Class MemoryDB (M : Type) : Type := {
  mdb_new : M;
  mdb_raw : M → Hash → option (bytes * Z);
  mdb_insert : M → bytes → M * Hash;
  mdb_emplace : M → Hash → bytes → M;
  mdb_remove : M → Hash → M;
  mdb_drain : M → list (Hash * (bytes * Z)) * M;
}.
#[global] Hint Mode MemoryDB ! : typeclass_instances.

Definition emplace_entry (value : bytes) (e : option (bytes * Z)) : bytes * Z :=
  match e with
  | Some (v, rc) => (if decide (rc ≤ 0) then value else v, rc + 1)
  | None => (value, 1)
  end.
Definition remove_entry (e : option (bytes * Z)) : bytes * Z :=
  match e with Some (v, rc) => (v, rc - 1) | None => ([], -1) end.

(** Documented behaviour: a map of counted values in which the null node is
    always present and never stored. *)
Class MemoryDBLaws (M : Type) `{MemoryDB M} (node_hash : bytes → Hash) : Type := {
  mdb_entries : M → gmap Hash (bytes * Z);
  mdb_entries_new : mdb_entries mdb_new = ∅;
  mdb_raw_spec (m : M) k :
    mdb_raw m k = if decide (k = NULL_ROOT) then Some (EMPTY_TRIE, 1)
                  else mdb_entries m !! k;
  mdb_emplace_spec (m : M) k v :
    mdb_entries (mdb_emplace m k v) =
      if decide (v = EMPTY_TRIE) then mdb_entries m
      else <[k := emplace_entry v (mdb_entries m !! k)]> (mdb_entries m);
  mdb_insert_spec (m : M) v :
    mdb_insert m v =
      if decide (v = EMPTY_TRIE) then (m, NULL_ROOT)
      else (mdb_emplace m (node_hash v) v, node_hash v);
  mdb_remove_spec (m : M) k :
    mdb_entries (mdb_remove m k) =
      if decide (k = NULL_ROOT) then mdb_entries m
      else <[k := remove_entry (mdb_entries m !! k)]> (mdb_entries m);
  mdb_drain_spec (m : M) :
    (mdb_drain m).1 ≡ₚ map_to_list (mdb_entries m) ∧
    mdb_entries (mdb_drain m).2 = ∅;
}.
#[global] Hint Mode MemoryDBLaws ! - - : typeclass_instances.

(** ** ArchiveDB *)
Record ArchiveDB (D M : Type) : Type := mkArchiveDB {
  backend : D;
  cached : M;
}.
Arguments mkArchiveDB {D M}. Arguments backend {D M}. Arguments cached {D M}.

Module ArchiveDB.
Section ArchiveDB.
Context {D M : Type} `{KVDB D, MemoryDB M}.
Implicit Types (db : ArchiveDB D M).

Definition new (d : D) : ArchiveDB D M := mkArchiveDB d mdb_new.

Definition payload {E} db (key : Hash) : Outcome E (option bytes) :=
  unwrap_res (kv_get (backend db) (Hash.as_bytes key)).

(** The body of the loop of [commit]: only counted nodes reach the backend. *)
Definition commit_one {E} (d : D) (i : Hash * (bytes * Z)) : Outcome E D :=
  let '(key, (value, rc)) := i in
  if decide (rc > 0) then unwrap_res (kv_put d (Hash.as_bytes key) value) else Ok d.

Fixpoint commit_all {E} (items : list (Hash * (bytes * Z))) (d : D) : Outcome E D :=
  match items with
  | [] => Ok d
  | i :: items => d ← commit_one d i; commit_all items d
  end.

Definition commit {E} db : Outcome E (ArchiveDB D M) :=
  let '(items, cache) := mdb_drain (cached db) in
  d ← commit_all items (backend db);
  mret (mkArchiveDB d cache).

(** The [HashDB] implementation. *)
Definition get {E} db (key : Hash) : Outcome E (option bytes) :=
  match mdb_raw (cached db) key with
  | Some (d, rc) => if decide (rc > 0) then Ok (Some d) else payload db key
  | None => payload db key
  end.
Definition contains {E} db (key : Hash) : Outcome E bool :=
  (λ v, bool_decide (is_Some v)) <$> get db key.
Definition insert db (value : bytes) : ArchiveDB D M * Hash :=
  let '(m, key) := mdb_insert (cached db) value in (mkArchiveDB (backend db) m, key).
Definition emplace db (key : Hash) (value : bytes) : ArchiveDB D M :=
  mkArchiveDB (backend db) (mdb_emplace (cached db) key value).
Definition remove db (key : Hash) : ArchiveDB D M :=
  mkArchiveDB (backend db) (mdb_remove (cached db) key).
End ArchiveDB.
End ArchiveDB.

(** ** CachingDB *)
Record Payload : Type := mkPayload { p_count : Z; p_value : bytes }.
#[global] Instance Payload_eq_dec : EqDecision Payload.
Proof. solve_decision. Defined.
#[global] Program Instance Payload_countable : Countable Payload :=
  inj_countable' (λ p, (p_count p, p_value p)) (λ p, mkPayload p.1 p.2) _.
Next Obligation. by intros []. Qed.

Record CachingDB (D M : Type) : Type := mkCachingDB {
  c_backend : D;
  c_cached : M;
}.
Arguments mkCachingDB {D M}. Arguments c_backend {D M}. Arguments c_cached {D M}.

(** [x as i32] of a [u32]. *)
Definition as_i32 (x : Z) : Z := if decide (x < 2 ^ 31) then x else x - 2 ^ 32.
Definition in_i32 (x : Z) : Prop := - 2 ^ 31 ≤ x < 2 ^ 31.
#[global] Instance in_i32_dec x : Decision (in_i32 x).
Proof. unfold in_i32. apply _. Defined.
Definition add_i32 `{P : Profile} {E} (a b : Z) : Outcome E Z :=
  if decide (in_i32 (a + b)) then Ok (a + b)
  else if overflow_checks then Panic
  else Ok ((a + b + 2 ^ 31) mod 2 ^ 32 - 2 ^ 31).

Module CachingDB.
Section CachingDB.
Context {D M : Type} `{KVDB D, MemoryDB M, Bincode Payload, P : Profile}.
Implicit Types (db : CachingDB D M).

Definition new (d : D) : CachingDB D M := mkCachingDB d mdb_new.

Definition payload {E} (d : D) (key : Hash) : Outcome E (option Payload) :=
  data ← unwrap_res (kv_get d (Hash.as_bytes key));
  match data with
  | Some data => p ← unwrap (deserialize data); Ok (Some p)
  | None => Ok None
  end.

Definition put_count {E} (d : D) (key : Hash) (p : Payload) : Outcome E D :=
  unwrap_res (kv_put d (Hash.as_bytes key) (serialize p)).

Definition commit_one {E} (d : D) (i : Hash * (bytes * Z)) : Outcome E D :=
  let '(key, (value, rc)) := i in
  if decide (rc ≠ 0) then
    x ← payload d key;
    match x with
    | Some x =>
        total_rc ← add_i32 (as_i32 (p_count x)) rc;
        if decide (total_rc < 0) then Panic
        else put_count d key (mkPayload total_rc (p_value x))
    | None =>
        if decide (rc < 0) then Panic else put_count d key (mkPayload rc value)
    end
  else Ok d.

Fixpoint commit_all {E} (items : list (Hash * (bytes * Z))) (d : D) : Outcome E D :=
  match items with
  | [] => Ok d
  | i :: items => d ← commit_one d i; commit_all items d
  end.

Definition commit {E} db : Outcome E (CachingDB D M) :=
  let '(items, cache) := mdb_drain (c_cached db) in
  d ← commit_all items (c_backend db);
  mret (mkCachingDB d cache).

Definition get {E} db (key : Hash) : Outcome E (option bytes) :=
  let from_backend memrc :=
    x ← payload (c_backend db) key;
    match x with
    | Some x => c ← add_i32 (as_i32 (p_count x)) memrc;
                Ok (if decide (c > 0) then Some (p_value x) else None)
    | None => Ok None
    end in
  match mdb_raw (c_cached db) key with
  | Some (d, rc) => if decide (rc > 0) then Ok (Some d) else from_backend rc
  | None => from_backend 0
  end.

Definition contains {E} db (key : Hash) : Outcome E bool :=
  let k := mdb_raw (c_cached db) key in
  let otherwise :=
    let memrc := match k with Some (_, rc) => rc | None => 0 end in
    x ← payload (c_backend db) key;
    match x with
    | Some x => c ← add_i32 (as_i32 (p_count x)) memrc; Ok (bool_decide (c > 0))
    | None => Ok false
    end in
  match k with
  | Some (_, rc) => if decide (rc > 0) then Ok true else otherwise
  | None => otherwise
  end.

Definition insert db (value : bytes) : CachingDB D M * Hash :=
  let '(m, key) := mdb_insert (c_cached db) value in (mkCachingDB (c_backend db) m, key).
Definition emplace db (key : Hash) (value : bytes) : CachingDB D M :=
  mkCachingDB (c_backend db) (mdb_emplace (c_cached db) key value).
Definition remove db (key : Hash) : CachingDB D M :=
  mkCachingDB (c_backend db) (mdb_remove (c_cached db) key).
End CachingDB.
End CachingDB.

(** ** trie_db: Merkle-Patricia tries over a node database

    [trie_new]/[trie_get] are [TrieDB::new] and [Trie::get];
    [tm_from_existing], [tm_insert], [tm_remove] and [tm_drop] are a
    [TrieDBMut] session: the nodes and the root are written back when the
    session is dropped. *)
Class TrieOps (DB TrieMut : Type) : Type := {
  trie_new : DB → Hash → bool;
  trie_get : DB → Hash → bytes → Outcome unit (option bytes);
  tm_from_existing : DB → Hash → Outcome unit TrieMut;
  tm_insert : TrieMut → bytes → bytes → Outcome unit TrieMut;
  tm_remove : TrieMut → bytes → Outcome unit TrieMut;
  tm_drop : TrieMut → DB * Hash;
}.
#[global] Hint Mode TrieOps ! - : typeclass_instances.
#[global] Hint Mode TrieOps - ! : typeclass_instances.

(** ** StateDB *)
Record StateDB (D M : Type) : Type := mkStateDB {
  db : ArchiveDB D M;
  state_root : Hash;
  local_changes : gmap Hash (option bytes);
}.
Arguments mkStateDB {D M}. Arguments db {D M}. Arguments state_root {D M}.
Arguments local_changes {D M}.

(** The order in which a [HashMap] of changes is iterated. *)
Class IterOrder : Type := iter_order : gmap Hash (option bytes) → list (Hash * option bytes).
Class IterOrderLaw `{IterOrder} : Prop := iter_order_perm m : iter_order m ≡ₚ map_to_list m.

Module StateDB.
Section StateDB.
Context {D M TM : Type} `{KVDB D, MemoryDB M, TrieOps (ArchiveDB D M) TM, IterOrder}.
Implicit Types (s : StateDB D M).

Definition new (d : ArchiveDB D M) : StateDB D M := mkStateDB d NULL_ROOT ∅.
Definition from_existing (d : ArchiveDB D M) (root : Hash) : StateDB D M :=
  mkStateDB d root ∅.
Definition root s : Hash := state_root s.

Definition set_storage s (key : Hash) (value : bytes) : StateDB D M :=
  mkStateDB (db s) (state_root s) (<[key := Some value]> (local_changes s)).

Definition get_storage {E} s (key : Hash) : Outcome E (option bytes) :=
  match local_changes s !! key with
  | Some data => Ok data
  | None =>
      if trie_new (db s) (state_root s)
      then unwrap_res (trie_get (db s) (state_root s) (Hash.as_bytes key))
      else Ok None
  end.

Definition remove_storage s (key : Hash) : StateDB D M :=
  mkStateDB (db s) (state_root s) (<[key := None]> (local_changes s)).

(** The loop of [commit]: a [None] deletes the key from the trie. *)
Fixpoint apply_changes {E} (changes : list (Hash * option bytes)) (t : TM)
    : Outcome E TM :=
  match changes with
  | [] => Ok t
  | (key, data) :: changes =>
      t ← match data with
          | Some d => unwrap_res (tm_insert t (Hash.as_bytes key) d)
          | None => unwrap_res (tm_remove t (Hash.as_bytes key))
          end;
      apply_changes changes t
  end.

(** Note that [local_changes] is kept. *)
Definition commit {E} s : Outcome E (StateDB D M) :=
  t ← unwrap_res (tm_from_existing (db s) (state_root s));
  t ← apply_changes (iter_order (local_changes s)) t;
  let '(d, r) := tm_drop t in
  d ← ArchiveDB.commit d;
  mret (mkStateDB d r (local_changes s)).
End StateDB.
End StateDB.

(** ** Facts: the node database *)

(** What [ArchiveDB::commit] writes: the counted nodes. *)
Definition flush_list (items : list (Hash * (bytes * Z))) (B : gmap bytes bytes) :=
  foldl (λ B i, if decide (i.2.2 > 0) then <[hash_bytes i.1 := i.2.1]> B else B) B items.
Definition flush (entries : gmap Hash (bytes * Z)) (B : gmap bytes bytes) :=
  flush_list (map_to_list entries) B.

Lemma hash_bytes_inj h h' : hash_bytes h = hash_bytes h' → h = h'.
Proof. destruct h, h'; simpl; congruence. Qed.

Lemma flush_list_lookup items B k :
  NoDup items.*1 →
  flush_list items B !! hash_bytes k =
    match (list_to_map items : gmap Hash (bytes * Z)) !! k with
    | Some (v, rc) => if decide (rc > 0) then Some v else B !! hash_bytes k
    | None => B !! hash_bytes k
    end.
Proof.
  revert B; induction items as [|[k' [v rc]] items IH]; intros B Hnd; simpl.
  - by rewrite lookup_empty.
  - inversion_clear Hnd as [|?? Hk Hnd']. rewrite IH by done.
    destruct (decide (k' = k)) as [->|Hne].
    + rewrite lookup_insert_eq.
      rewrite (not_elem_of_list_to_map_1 items k) by done.
      case_decide; [by rewrite lookup_insert_eq|done].
    + rewrite lookup_insert_ne by done.
      assert ((if decide (rc > 0) then <[hash_bytes k':=v]> B else B) !! hash_bytes k
              = B !! hash_bytes k) as ->; [|done].
      case_decide; [|done]. rewrite lookup_insert_ne; [done|].
      by intros ?%hash_bytes_inj.
Qed.

Lemma flush_list_eq items entries B :
  NoDup items.*1 → (list_to_map items : gmap Hash (bytes * Z)) = entries →
  flush_list items B = flush entries B.
Proof.
  intros Hnd Heq. apply map_eq. intros k.
  change k with (hash_bytes (mkHash k)). unfold flush.
  rewrite !flush_list_lookup by (done || apply NoDup_fst_map_to_list).
  by rewrite Heq, list_to_map_to_list.
Qed.

Section ArchiveFacts.
Context {D M : Type} `{KL : KVDBLaws D} {node_hash : bytes → Hash}.
Context `{ML : !MemoryDB M, MLL : !MemoryDBLaws M node_hash}.
Implicit Types (a : ArchiveDB D M).

Lemma commit_all_spec {E} items (d : D) :
  ∃ d', ArchiveDB.commit_all (E:=E) items d = Ok d' ∧
        kv_map d' = flush_list items (kv_map d).
Proof.
  revert d; induction items as [|[k [v rc]] items IH]; intros d; simpl; [eauto|].
  case_decide as Hrc; simpl; [|apply IH].
  destruct (kv_put_spec d (hash_bytes k) v) as (d' & Hp & Hm).
  unfold Hash.as_bytes. rewrite Hp. simpl.
  destruct (IH d') as (d'' & Hc & Hm'). exists d''. by rewrite Hm' , Hm.
Qed.

(** The node visible under a key: a counted cached node, else the backend's. *)
Definition archive_view a (k : Hash) : option bytes :=
  if decide (k = NULL_ROOT) then Some EMPTY_TRIE
  else match mdb_entries (cached a) !! k with
       | Some (v, rc) => if decide (rc > 0) then Some v
                         else kv_map (backend a) !! hash_bytes k
       | None => kv_map (backend a) !! hash_bytes k
       end.

Lemma archive_get_spec {E} a k :
  ArchiveDB.get (E:=E) a k = Ok (archive_view a k).
Proof.
  unfold ArchiveDB.get, archive_view, ArchiveDB.payload.
  rewrite mdb_raw_spec, kv_get_spec. case_decide; [done|].
  repeat case_match; done.
Qed.

Lemma NoDup_drain (m : M) : NoDup (mdb_drain m).1.*1.
Proof.
  destruct (mdb_drain_spec m) as [Hp _]. rewrite Hp. apply NoDup_fst_map_to_list.
Qed.

Lemma list_to_map_drain (m : M) :
  (list_to_map (mdb_drain m).1 : gmap Hash _) = mdb_entries m.
Proof.
  destruct (mdb_drain_spec m) as [Hp _].
  rewrite (list_to_map_proper _ _ (NoDup_drain m) Hp). apply list_to_map_to_list.
Qed.

(** Committing empties the cache, keeps every node visible and never fails. *)
Lemma archive_commit_spec {E} a :
  ∃ a', ArchiveDB.commit (E:=E) a = Ok a' ∧
        mdb_entries (cached a') = ∅ ∧
        kv_map (backend a') = flush (mdb_entries (cached a)) (kv_map (backend a)) ∧
        (∀ k, archive_view a' k = archive_view a k).
Proof.
  unfold ArchiveDB.commit.
  pose proof (list_to_map_drain (cached a)) as Hltm.
  pose proof (NoDup_drain (cached a)) as Hnd.
  destruct (mdb_drain_spec (cached a)) as [_ He].
  destruct (mdb_drain (cached a)) as [items cache]; simpl in *.
  destruct (commit_all_spec (E:=E) items (backend a)) as (d' & Hc & Hm).
  exists (mkArchiveDB d' cache). rewrite Hc. split_and!; [done|done| |].
  { simpl. rewrite Hm. by apply flush_list_eq. }
  intros k. unfold archive_view; simpl. rewrite He, lookup_empty, Hm.
  rewrite flush_list_lookup, Hltm by done. repeat case_match; done.
Qed.
End ArchiveFacts.

(** ** Facts: tries and the overlay *)

(** Documented behaviour of [trie_db] over an archive database whose cache has
    been written out: [trie_rep B r m] says that the trie at root [r] in the
    backend contents [B] stores the map [m]; [tm_rep t B m] that the session
    [t], opened on [B], stores [m].  A root determines and is determined by the
    map; dropping a session leaves counted nodes in the cache which, once
    written to the backend, represent the new map and keep every older node. *)
Class TrieLaws (D M TM : Type) `{KVDBLaws D, MemoryDB M, TrieOps (ArchiveDB D M) TM}
    (node_hash : bytes → Hash) `{!MemoryDBLaws M node_hash} : Type := {
  trie_rep : gmap bytes bytes → Hash → gmap bytes bytes → Prop;
  tm_rep : TM → gmap bytes bytes → gmap bytes bytes → Prop;
  trie_rep_fresh : trie_rep ∅ NULL_ROOT ∅;
  trie_rep_mono B B' r r' m m' :
    trie_rep B r m → trie_rep B' r' m' → B ⊆ B' → trie_rep B' r m;
  trie_rep_canonical B B' r r' m : trie_rep B r m → trie_rep B' r' m → r = r';
  trie_read (a : ArchiveDB D M) r m k :
    mdb_entries (cached a) = ∅ → trie_rep (kv_map (backend a)) r m →
    trie_new a r = true ∧ trie_get a r k = Ok (m !! k);
  tm_open (a : ArchiveDB D M) r m :
    mdb_entries (cached a) = ∅ → trie_rep (kv_map (backend a)) r m →
    ∃ t, tm_from_existing a r = Ok t ∧ tm_rep t (kv_map (backend a)) m;
  tm_insert_rep (t : TM) B m k v :
    tm_rep t B m → v ≠ [] → ∃ t', tm_insert t k v = Ok t' ∧ tm_rep t' B (<[k:=v]> m);
  tm_remove_rep (t : TM) B m k :
    tm_rep t B m → ∃ t', tm_remove t k = Ok t' ∧ tm_rep t' B (delete k m);
  tm_drop_rep (t : TM) B m a r :
    tm_rep t B m → tm_drop t = (a, r) →
    kv_map (backend a) = B ∧ trie_rep (flush (mdb_entries (cached a)) B) r m ∧
    B ⊆ flush (mdb_entries (cached a)) B;
}.

(** The map a list of changes makes of [m]. *)
Definition change_map (m : gmap bytes bytes) (c : Hash * option bytes) : gmap bytes bytes :=
  match c.2 with
  | Some v => <[hash_bytes c.1 := v]> m
  | None => delete (hash_bytes c.1) m
  end.
Definition changes_map (cs : list (Hash * option bytes)) (m : gmap bytes bytes) :=
  foldl change_map m cs.
Definition overlay (lc : gmap Hash (option bytes)) (m : gmap bytes bytes) :=
  changes_map (map_to_list lc) m.

Lemma changes_map_lookup cs m k :
  NoDup cs.*1 →
  changes_map cs m !! hash_bytes k =
    match (list_to_map cs : gmap Hash (option bytes)) !! k with
    | Some o => o
    | None => m !! hash_bytes k
    end.
Proof.
  unfold changes_map. revert m; induction cs as [|[k' o] cs IH]; intros m Hnd; simpl.
  - by rewrite lookup_empty.
  - inversion_clear Hnd as [|?? Hk Hnd']. rewrite IH by done.
    destruct (decide (k' = k)) as [->|Hne].
    + rewrite lookup_insert_eq, (not_elem_of_list_to_map_1 cs k) by done.
      unfold change_map; simpl. destruct o; by simplify_map_eq.
    + rewrite lookup_insert_ne by done. unfold change_map; simpl.
      assert (hash_bytes k' ≠ hash_bytes k) by (by intros ?%hash_bytes_inj).
      destruct o; by simplify_map_eq.
Qed.

Lemma overlay_lookup lc m k :
  overlay lc m !! hash_bytes k =
    match lc !! k with Some o => o | None => m !! hash_bytes k end.
Proof.
  unfold overlay. rewrite changes_map_lookup by apply NoDup_fst_map_to_list.
  by rewrite list_to_map_to_list.
Qed.

Lemma changes_map_perm cs lc m : cs ≡ₚ map_to_list lc → changes_map cs m = overlay lc m.
Proof.
  intros Hp. apply map_eq. intros k. change k with (hash_bytes (mkHash k)).
  assert (NoDup cs.*1) as Hnd by (rewrite Hp; apply NoDup_fst_map_to_list).
  rewrite changes_map_lookup, overlay_lookup by done.
  by rewrite (list_to_map_proper _ _ Hnd Hp), list_to_map_to_list.
Qed.

(** Only non-empty values are stored (an empty value would be a deletion). *)
Definition changes_ok (lc : gmap Hash (option bytes)) : Prop :=
  map_Forall (λ _ o, o ≠ Some []) lc.

Section StateFacts.
Context {D M TM : Type} {node_hash : bytes → Hash}.
Context `{KL : KVDBLaws D, MM : MemoryDB M, TO : !TrieOps (ArchiveDB D M) TM}.
Context `{MLL : !MemoryDBLaws M node_hash, TL : !TrieLaws D M TM node_hash}.
Implicit Types (s : StateDB D M).

(** The state database holds the map [m]: its trie is readable from the
    backend, its cache is written out and its overlay is applied. *)
Definition state_rep s (m : gmap bytes bytes) : Prop :=
  mdb_entries (cached (db s)) = ∅ ∧ changes_ok (local_changes s) ∧
  ∃ m0, trie_rep (kv_map (backend (db s))) (state_root s) m0 ∧
        m = overlay (local_changes s) m0.

Lemma state_rep_get {E} s m k :
  state_rep s m → StateDB.get_storage (E:=E) s k = Ok (m !! hash_bytes k).
Proof.
  intros (He & _ & m0 & Hr & ->). rewrite overlay_lookup.
  unfold StateDB.get_storage, Hash.as_bytes.
  destruct (trie_read _ _ _ (hash_bytes k) He Hr) as [-> ->].
  by destruct (local_changes s !! k).
Qed.

Lemma state_rep_update s m k o :
  state_rep s m → o ≠ Some [] →
  state_rep (mkStateDB (db s) (state_root s) (<[k:=o]> (local_changes s)))
    (match o with Some v => <[hash_bytes k:=v]> m | None => delete (hash_bytes k) m end).
Proof.
  intros (He & Hok & m0 & Hr & ->) Ho. split_and!; [done| |].
  - by apply map_Forall_insert_2.
  - exists m0. split; [done|]. apply map_eq. intros k'.
    change k' with (hash_bytes (mkHash k')). rewrite overlay_lookup; simpl.
    destruct (decide (k = mkHash k')) as [->|Hne].
    + rewrite lookup_insert_eq. destruct o; by simplify_map_eq.
    + rewrite lookup_insert_ne by done.
      assert (hash_bytes k ≠ k') by (intros <-; by destruct k).
      destruct o; simplify_map_eq; exact (overlay_lookup _ _ (mkHash k')).
Qed.

Lemma set_storage_rep s m k v :
  state_rep s m → v ≠ [] →
  state_rep (StateDB.set_storage s k v) (<[hash_bytes k := v]> m).
Proof. intros Hs Hv. apply (state_rep_update s m k (Some v)); congruence. Qed.

Lemma remove_storage_rep s m k :
  state_rep s m → state_rep (StateDB.remove_storage s k) (delete (hash_bytes k) m).
Proof. intros Hs. by apply (state_rep_update s m k None). Qed.

Lemma apply_changes_rep {E} cs t B m :
  tm_rep t B m → Forall (λ c, c.2 ≠ Some []) cs →
  ∃ t', StateDB.apply_changes (E:=E) cs t = Ok t' ∧ tm_rep t' B (changes_map cs m).
Proof.
  unfold changes_map. revert t m; induction cs as [|[k o] cs IH]; intros t m Ht Hok; simpl.
  { eauto. }
  inversion_clear Hok as [|?? Ho Hok']. simpl in Ho. unfold Hash.as_bytes.
  destruct o as [v|].
  - destruct (tm_insert_rep t B m (hash_bytes k) v Ht) as (t' & -> & Ht'); [congruence|].
    simpl. by apply IH.
  - destruct (tm_remove_rep t B m (hash_bytes k) Ht) as (t' & -> & Ht').
    simpl. by apply IH.
Qed.

(** Committing succeeds, keeps the stored map and every older node, and makes
    the map readable from the new root alone. *)
Lemma commit_rep {E} `{IO : IterOrder, !IterOrderLaw} s m :
  state_rep s m →
  ∃ s', StateDB.commit (E:=E) s = Ok s' ∧ state_rep s' m ∧
        trie_rep (kv_map (backend (db s'))) (state_root s') m ∧
        local_changes s' = local_changes s ∧
        mdb_entries (cached (db s')) = ∅ ∧
        kv_map (backend (db s)) ⊆ kv_map (backend (db s')).
Proof.
  intros (He & Hok & m0 & Hr & ->). unfold StateDB.commit.
  destruct (tm_open _ _ _ He Hr) as (t & -> & Ht). simpl.
  destruct (apply_changes_rep (E:=E) (iter_order (local_changes s)) _ _ _ Ht)
    as (t' & -> & Ht').
  { rewrite iter_order_perm. apply Forall_forall. intros [k o] Hin%elem_of_map_to_list.
    by apply (Hok k o). }
  rewrite (changes_map_perm _ _ _ (iter_order_perm _)) in Ht'. simpl.
  destruct (tm_drop t') as [a r] eqn:Hd.
  destruct (tm_drop_rep _ _ _ _ _ Ht' Hd) as (Hb & Hrep & Hsub).
  destruct (archive_commit_spec (E:=E) a) as (a' & -> & Hc & Hm & _). simpl.
  rewrite Hb in Hm. eexists; split; [done|]; simpl.
  rewrite Hm. split_and!; try done. split_and!; [done..|].
  exists (overlay (local_changes s) m0); simpl. rewrite Hm. split; [done|].
  apply map_eq. intros k. change k with (hash_bytes (mkHash k)).
  rewrite !overlay_lookup. by destruct (local_changes s !! mkHash k).
Qed.

(** The root after a commit is a function of the stored map. *)
Lemma commit_root_canonical {E E'} `{IO1 : IterOrder, L1 : !IterOrderLaw}
    (IO2 : IterOrder) (L2 : @IterOrderLaw IO2) s1 s2 s1' s2' m :
  state_rep s1 m → state_rep s2 m →
  StateDB.commit (E:=E) s1 = Ok s1' →
  StateDB.commit (H2:=IO2) (E:=E') s2 = Ok s2' →
  state_root s1' = state_root s2'.
Proof.
  intros H1 H2 Hc1 Hc2.
  destruct (commit_rep (E:=E) s1 m H1) as (? & Hc1' & _ & Hr1 & _).
  destruct (commit_rep (E:=E') (IO:=IO2) s2 m H2) as (? & Hc2' & _ & Hr2 & _).
  rewrite Hc1 in Hc1'. rewrite Hc2 in Hc2'. simplify_eq.
  by eapply trie_rep_canonical.
Qed.

Lemma from_existing_rep (a : ArchiveDB D M) r m :
  mdb_entries (cached a) = ∅ → trie_rep (kv_map (backend a)) r m →
  state_rep (StateDB.from_existing a r) m.
Proof.
  intros. split_and!; [done|apply map_Forall_empty|].
  exists m. split; [done|]. apply map_eq. intros k.
  change k with (hash_bytes (mkHash k)). rewrite overlay_lookup; simpl. by rewrite lookup_empty.
Qed.
End StateFacts.
