(* ===== verification/StateExample.v ===== *)
(** * StateExample: concrete instances of the state database's parameters

    An in-memory [memory_db] and a content-addressed [trie_db] whose nodes hold
    whole maps, with proofs of the laws of [State].  They show that the
    hypotheses of the theorems about the state can hold, and let the worked
    examples of the other files run. *)
From S2P Require Import Prelude Types Codec Store State.

(** ** memory_db *)
Definition ex_hash (node : bytes) : Hash := mkHash node.
Definition ex_mem : Type := gmap Hash (bytes * Z).

#[global] Instance ex_memdb : MemoryDB ex_mem := {|
  mdb_new := (∅ : gmap Hash (bytes * Z));
  mdb_raw m k := if decide (k = NULL_ROOT) then Some (EMPTY_TRIE, 1)
                 else (m : gmap Hash (bytes * Z)) !! k;
  mdb_insert m v :=
    if decide (v = EMPTY_TRIE) then (m, NULL_ROOT)
    else (if decide (v = EMPTY_TRIE) then m
          else <[ex_hash v := emplace_entry v ((m : gmap Hash (bytes * Z)) !! ex_hash v)]>
                 (m : gmap Hash (bytes * Z)), ex_hash v);
  mdb_emplace m k v :=
    if decide (v = EMPTY_TRIE) then m
    else <[k := emplace_entry v ((m : gmap Hash (bytes * Z)) !! k)]> (m : gmap Hash (bytes * Z));
  mdb_remove m k :=
    if decide (k = NULL_ROOT) then m
    else <[k := remove_entry ((m : gmap Hash (bytes * Z)) !! k)]> (m : gmap Hash (bytes * Z));
  mdb_drain m := (map_to_list (m : gmap Hash (bytes * Z)), (∅ : gmap Hash (bytes * Z)));
|}.

#[global] Instance ex_memdb_laws : MemoryDBLaws ex_mem ex_hash.
Proof.
  refine {| mdb_entries := (λ m, m : gmap Hash (bytes * Z)) |}; try done.
Defined.

(** ** trie_db *)
Abbreviation ex_archive := (ArchiveDB MemoryKV ex_mem).
Abbreviation tmap := (gmap bytes bytes).

Definition node_of (m : tmap) : bytes := serialize (Bincode:=example_bincode) m.
Definition map_of (node : bytes) : option tmap := deserialize (Bincode:=example_bincode) node.

Lemma map_of_node_of m : map_of (node_of m) = Some m.
Proof. apply (@deserialize_serialize _ _ example_bincode_laws). Qed.

Lemma node_of_inj m m' : node_of m = node_of m' → m = m'.
Proof. apply (@serialize_inj _ _ example_bincode_laws). Qed.

Lemma node_of_head m : ∃ b l, node_of m = b :: l ∧ (b = 0 ∨ b = 1).
Proof. unfold node_of; simpl. eauto. Qed.

Lemma node_of_not_null m : mkHash (node_of m) ≠ NULL_ROOT ∧ node_of m ≠ EMPTY_TRIE.
Proof.
  destruct (node_of_head m) as (b & l & -> & Hb).
  unfold NULL_ROOT, EMPTY_TRIE. split; intros [= ? ?]; lia.
Qed.

Definition root_of (m : tmap) : Hash :=
  if decide (m = ∅) then NULL_ROOT else mkHash (node_of m).

#[global] Instance ex_trie : TrieOps ex_archive (ex_archive * tmap) := {|
  trie_new a r :=
    match ArchiveDB.get (E:=unit) a r with Ok (Some _) => true | _ => false end;
  trie_get a r k :=
    if decide (r = NULL_ROOT) then Ok None
    else node ← ArchiveDB.get a r;
         n ← ok_or tt node;
         m ← ok_or tt (map_of n);
         Ok (m !! k);
  tm_from_existing a r :=
    if decide (r = NULL_ROOT) then Ok (a, ∅)
    else node ← ArchiveDB.get a r;
         n ← ok_or tt node;
         m ← ok_or tt (map_of n);
         Ok (a, m);
  tm_insert t k v := Ok (t.1, if decide (v = []) then delete k t.2 else <[k:=v]> t.2);
  tm_remove t k := Ok (t.1, delete k t.2);
  tm_drop t :=
    if decide (t.2 = ∅) then (t.1, NULL_ROOT)
    else (ArchiveDB.emplace t.1 (mkHash (node_of t.2)) (node_of t.2), mkHash (node_of t.2));
|}.

Definition content_addressed (B : tmap) : Prop := ∀ k v, B !! k = Some v → k = v.
Definition ex_rep (B : tmap) (r : Hash) (m : tmap) : Prop :=
  content_addressed B ∧ r = root_of m ∧ (m ≠ ∅ → B !! node_of m = Some (node_of m)).
Definition ex_tm_rep (t : ex_archive * tmap) (B m : tmap) : Prop :=
  kv_map (backend t.1) = B ∧ mdb_entries (cached t.1) = ∅ ∧ content_addressed B ∧ t.2 = m.

Lemma ex_get {E} (a : ex_archive) m :
  mdb_entries (cached a) = ∅ → m ≠ ∅ →
  kv_map (backend a) !! node_of m = Some (node_of m) →
  ArchiveDB.get (E:=E) a (root_of m) = Ok (Some (node_of m)) ∧ root_of m ≠ NULL_ROOT.
Proof.
  intros He Hm Hb. unfold root_of. rewrite decide_False by done.
  destruct (node_of_not_null m) as [Hn _]. split; [|done].
  rewrite archive_get_spec. unfold archive_view. rewrite decide_False by done.
  rewrite He, lookup_empty; simpl. by f_equal.
Qed.

Lemma ex_read (a : ex_archive) r m k :
  mdb_entries (cached a) = ∅ → ex_rep (kv_map (backend a)) r m →
  trie_new a r = true ∧ trie_get a r k = Ok (m !! k).
Proof.
  intros He (_ & -> & Hm). simpl. destruct (decide (m = ∅)) as [->|Hne].
  - change (root_of ∅) with NULL_ROOT. rewrite decide_True by done.
    rewrite archive_get_spec. unfold archive_view. rewrite decide_True by done.
    by rewrite lookup_empty.
  - destruct (ex_get (E:=unit) a m He Hne (Hm Hne)) as [-> Hr].
    rewrite decide_False by done. simpl. by rewrite map_of_node_of.
Qed.

Lemma ex_open (a : ex_archive) r m :
  mdb_entries (cached a) = ∅ → ex_rep (kv_map (backend a)) r m →
  ∃ t, tm_from_existing a r = Ok t ∧ ex_tm_rep t (kv_map (backend a)) m.
Proof.
  intros He (Hc & -> & Hm). exists (a, m). split; [|by split_and!]. simpl.
  destruct (decide (m = ∅)) as [->|Hne].
  - by rewrite decide_True by done.
  - destruct (ex_get (E:=unit) a m He Hne (Hm Hne)) as [-> Hr].
    rewrite decide_False by done. simpl. by rewrite map_of_node_of.
Qed.

Lemma ex_drop (t : ex_archive * tmap) B m a r :
  ex_tm_rep t B m → tm_drop t = (a, r) →
  kv_map (backend a) = B ∧ ex_rep (flush (mdb_entries (cached a)) B) r m ∧
  B ⊆ flush (mdb_entries (cached a)) B.
Proof.
  destruct t as [a0 m0]. intros (Hb & He & Hc & Hm); simpl in *; subst m0.
  case_decide as Hm; intros [= <- <-].
  - subst m. rewrite He. split_and!; [done| |done]. by split_and!.
  - destruct (node_of_not_null m) as [Hn Hn']. simpl. rewrite He, lookup_empty; simpl.
    unfold flush. rewrite insert_empty, map_to_list_singleton. simpl.
    split_and!; [done| |].
    + split_and!.
      * intros k v [[<- <-]|[_ ?]]%lookup_insert_Some; [done|by apply Hc].
      * unfold root_of. by rewrite decide_False.
      * by rewrite lookup_insert_eq.
    + apply map_subseteq_spec. intros k v Hk. rewrite lookup_insert.
      case_decide as Heq; [|done]. f_equal. rewrite Heq. by apply Hc.
Qed.

#[global] Instance ex_trie_laws :
  TrieLaws MemoryKV ex_mem (ex_archive * tmap) ex_hash.
Proof.
  refine {| trie_rep := ex_rep; tm_rep := ex_tm_rep |}.
  - by split_and!.
  - intros B B' r r' m m' (_ & -> & Hm) (Hc & _ & _) Hsub. split_and!; [done..|].
    intros Hne. eapply lookup_weaken; [|done]. auto.
  - intros B B' r r' m (_ & -> & _) (_ & -> & _). done.
  - apply ex_read.
  - apply ex_open.
  - intros [a m0] B m k v (Hb & He & Hc & Hm) Hv; simpl in *; subst.
    eexists; split; [done|]. rewrite decide_False by done. by split_and!.
  - intros [a m0] B m k (Hb & He & Hc & Hm); simpl in *; subst.
    eexists; split; [done|]. by split_and!.
  - apply ex_drop.
Defined.

(** The iteration order of a hash map: any fixed order. *)
#[global] Instance ex_iter : IterOrder := map_to_list.
#[global] Instance ex_iter_law : IterOrderLaw.
Proof. intros m. done. Qed.
Definition ex_iter_rev : IterOrder := λ m, rev (map_to_list m).
Lemma ex_iter_rev_law : @IterOrderLaw ex_iter_rev.
Proof. intros m. unfold iter_order, ex_iter_rev. symmetry. apply Permutation_rev. Qed.

(** A fresh state database. *)
Definition ex_db : ex_archive := ArchiveDB.new MemoryKV.new.
Definition ex_state : StateDB MemoryKV ex_mem := StateDB.from_existing ex_db NULL_ROOT.

Lemma ex_state_rep : state_rep ex_state ∅.
Proof. apply from_existing_rep; [done|]. exact trie_rep_fresh. Qed.
