(* ===== verification/TrieCodec.v ===== *)
(** * TrieCodec: the nodes of the state trie (src/core/src/trie.rs)

    The state trie of [trie_db] asks [BinNodeCodec] to write its nodes and to say where
    in the bytes of a node the parts are.  A node is an RLP list: of two items for a
    leaf or an extension, of seventeen for a branch.

    The [rlp] crate is a parameter ([RlpCrate]) with its documented behaviour
    ([RlpLaws]); the plans are the types of [trie_db].  Offsets into a node are natural
    numbers: they stay within its length. *)
From S2P Require Import Prelude Hashing Types State.

(** ** The rlp crate *)
Module DecoderError.
Inductive t : Type := RlpError | Custom.
End DecoderError.
Abbreviation DecoderError := DecoderError.t.
Module Prototype.
Inductive t : Type := Null | Data (n : nat) | List (n : nat).
End Prototype.
Abbreviation Prototype := Prototype.t.
Record PayloadInfo : Type := mkPayloadInfo { header_len : nat; value_len : nat }.

(** A stream of the items of a list, which panics when it is drained before its end; a
    decoder is the bytes it looks at. *)
Class RlpCrate : Type := {
  RlpStream : Type;
  rs_new_list : nat → RlpStream;
  rs_append : RlpStream → bytes → RlpStream;
  rs_append_iter : RlpStream → bytes → RlpStream;
  rs_append_raw : RlpStream → bytes → nat → RlpStream;
  rs_append_empty_data : RlpStream → RlpStream;
  rs_drain : RlpStream → option bytes;
  rlp_prototype : bytes → Outcome DecoderError Prototype;
  rlp_at_with_offset : bytes → nat → Outcome DecoderError (bytes * nat);
  rlp_payload_info : bytes → Outcome DecoderError PayloadInfo;
  rlp_is_data : bytes → bool;
  rlp_is_empty : bytes → bool;
  rlp_size : bytes → nat;
  rlp_data : bytes → Outcome DecoderError bytes;
}.

(** ** Plans *)
Definition Range : Type := nat * nat.
Record NibbleSlicePlan : Type := mkNibbleSlicePlan { plan_bytes : Range; plan_offset : nat }.
Module NodeHandlePlan.
Inductive t : Type := Hash (r : Range) | Inline (r : Range).
End NodeHandlePlan.
Abbreviation NodeHandlePlan := NodeHandlePlan.t.
Module NodePlan.
Inductive t : Type :=
  | Empty
  | Leaf (partial : NibbleSlicePlan) (value : Range)
  | Extension (partial : NibbleSlicePlan) (child : NodeHandlePlan)
  | Branch (value : option Range) (children : list (option NodeHandlePlan)).
End NodePlan.
Abbreviation NodePlan := NodePlan.t.

(** [Partial]: the number of nibbles in the first byte, that byte, the other bytes. *)
Definition Partial : Type := (Z * Z) * bytes.
(** A child: its hash, or the bytes of the node in an array of 32 with its length. *)
Module ChildReference.
Inductive t : Type := Hash (h : Hash) | Inline (inline_data : Hash) (length : nat).
End ChildReference.
Abbreviation ChildReference := ChildReference.t.

(** ** The codec *)
Module Blake2Hasher.
Definition LENGTH : nat := 32.
Definition hash `{Blake2b} (x : bytes) : Hash := Hash.from_bytes (blake2b_256 x).
End Blake2Hasher.

Module BinNodeCodec.
Section BinNodeCodec.
Context `{RC : RlpCrate, P : Profile, B : Blake2b}.

(** [Encodable for Hash]. *)
Definition rlp_append_hash (s : RlpStream) (h : Hash) : RlpStream := rs_append s (hash_bytes h).

Definition encode_partial_inner_iter {E} (first_byte : Z) (partial_remaining : bytes) (odd is_leaf : bool) : Outcome E bytes :=
  let encoded_type := if is_leaf then 32 else 0 in
  first ← (if odd then x ← add_u 8 16 encoded_type; add_u 8 x first_byte else Ok encoded_type);
  mret (first :: partial_remaining).
Definition encode_partial_iter {E} (partial : Partial) (is_leaf : bool) : Outcome E bytes :=
  encode_partial_inner_iter partial.1.2 partial.2 (bool_decide (partial.1.1 > 0)) is_leaf.
Definition encode_partial_from_iterator_iter {E} (partial : bytes) (odd is_leaf : bool) : Outcome E bytes :=
  let first := if odd then default 0 (head partial) else 0 in
  let partial := if odd then tail partial else partial in
  encode_partial_inner_iter first partial odd is_leaf.

Definition decode_value_range (rlp : bytes) (offset : nat) : Outcome DecoderError Range :=
  payload ← rlp_payload_info rlp;
  let offset := (offset + header_len payload)%nat in
  mret (offset, offset + value_len payload)%nat.
Definition decode_child_handle_plan (child_rlp : bytes) (offset : nat) : Outcome DecoderError NodeHandlePlan :=
  if rlp_is_data child_rlp && bool_decide (rlp_size child_rlp = Blake2Hasher.LENGTH) then
    payload ← rlp_payload_info child_rlp;
    let offset := (offset + header_len payload)%nat in
    mret (NodeHandlePlan.Hash (offset, offset + value_len payload)%nat)
  else mret (NodeHandlePlan.Inline (offset, offset + length child_rlp)%nat).

Definition empty_node : bytes := EMPTY_TRIE.
Definition hashed_null_node : Hash := Hash.from_bytes (blake2b_256 empty_node).
Definition is_empty_node (data : bytes) : bool := rlp_is_empty data.

(** Where the partial key of a leaf or an extension is, and which of the two it is. *)
Definition decode_partial (partial_rlp : bytes) (partial_offset : nat) : Outcome DecoderError (NibbleSlicePlan * bool) :=
  partial_payload ← rlp_payload_info partial_rlp;
  let partial_offset := (partial_offset + header_len partial_payload)%nat in
  if rlp_is_empty partial_rlp then mret (mkNibbleSlicePlan (partial_offset, partial_offset) 0, false)
  else
    d ← rlp_data partial_rlp;
    partial_header ← unwrap (head d);
    let is_leaf := bool_decide (Z.land partial_header 32 = 32) in
    let (start, byte_offset) := if decide (Z.land partial_header 16 = 16) then (0, 1)%nat else (1, 0)%nat in
    let range := (partial_offset + start, partial_offset + value_len partial_payload)%nat in
    mret (mkNibbleSlicePlan range byte_offset, is_leaf).
(** The children from the [i]th on. *)
Fixpoint decode_children (data : bytes) (i n : nat) : Outcome DecoderError (list (option NodeHandlePlan)) :=
  match n with
  | O => mret []
  | S n =>
      c ← rlp_at_with_offset data i;
      child ← (if rlp_is_empty c.1 then mret None else Some <$> decode_child_handle_plan c.1 c.2);
      rest ← decode_children data (S i) n;
      mret (child :: rest)
  end.
Definition decode_plan (data : bytes) : Outcome DecoderError NodePlan :=
  prototype ← rlp_prototype data;
  match prototype with
  | Prototype.List 2 =>
      p ← rlp_at_with_offset data 0;
      pl ← decode_partial p.1 p.2;
      v ← rlp_at_with_offset data 1;
      match pl.2 with
      | true => value ← decode_value_range v.1 v.2; mret (NodePlan.Leaf pl.1 value)
      | false => child ← decode_child_handle_plan v.1 v.2; mret (NodePlan.Extension pl.1 child)
      end
  | Prototype.List 17 =>
      children ← decode_children data 0 16;
      v ← rlp_at_with_offset data 16;
      value ← (if rlp_is_empty v.1 then mret None else Some <$> decode_value_range v.1 v.2);
      mret (NodePlan.Branch value children)
  | Prototype.Data 0 => mret NodePlan.Empty
  | _ => Err DecoderError.Custom
  end.

Definition leaf_node {E} (partial : Partial) (value : bytes) : Outcome E bytes :=
  let stream := rs_new_list 2 in
  partial ← encode_partial_iter partial true;
  let stream := rs_append_iter stream partial in
  let stream := rs_append stream value in
  unwrap (rs_drain stream).
(** [&inline_data[..length]]. *)
Definition append_child {E} (stream : RlpStream) (c : ChildReference) : Outcome E RlpStream :=
  match c with
  | ChildReference.Hash hash => mret (rlp_append_hash stream hash)
  | ChildReference.Inline inline_data len =>
      bytes ← slice_to len (hash_bytes inline_data);
      mret (rs_append_raw stream bytes 1)
  end.
Definition extension_node {E} (partial : bytes) (number_nibble : Z) (child_ref : ChildReference) : Outcome E bytes :=
  let stream := rs_new_list 2 in
  partial ← encode_partial_from_iterator_iter partial (bool_decide (number_nibble mod 2 > 0)) false;
  let stream := rs_append_iter stream partial in
  stream ← append_child stream child_ref;
  unwrap (rs_drain stream).
Fixpoint append_children {E} (stream : RlpStream) (children : list (option ChildReference)) : Outcome E RlpStream :=
  match children with
  | [] => mret stream
  | child_ref :: children =>
      stream ← match child_ref with
               | Some c => append_child stream c
               | None => mret (rs_append_empty_data stream)
               end;
      append_children stream children
  end.
Definition branch_node {E} (children : list (option ChildReference)) (maybe_value : option bytes) : Outcome E bytes :=
  let stream := rs_new_list 17 in
  stream ← append_children stream children;
  let stream := match maybe_value with
                | Some value => rs_append stream value
                | None => rs_append_empty_data stream
                end in
  unwrap (rs_drain stream).
Definition branch_node_nibbled {E} : Outcome E bytes := Panic.
End BinNodeCodec.
End BinNodeCodec.

(** ** What rlp promises *)
Inductive stream_op : Type := Append (b : bytes) | AppendIter (b : bytes) | AppendRaw (b : bytes) | AppendEmpty.
Definition apply_op `{RlpCrate} (s : RlpStream) (op : stream_op) : RlpStream :=
  match op with
  | Append b => rs_append s b
  | AppendIter b => rs_append_iter s b
  | AppendRaw b => rs_append_raw s b 1
  | AppendEmpty => rs_append_empty_data s
  end.
Definition rlp_fits (b : bytes) : Prop := Z.of_nat (length b) < 2 ^ 32.

Class RlpLaws `{RlpCrate} : Type := {
  data_item : bytes → bytes;
  list_item : list bytes → bytes;
  is_item (b : bytes) : Prop := (∃ x, b = data_item x) ∨ (∃ l, b = list_item l);
  op_item (op : stream_op) : bytes :=
    match op with Append b | AppendIter b => data_item b | AppendRaw b => b | AppendEmpty => data_item [] end;
  drain_spec ops : ops ≠ [] →
    rs_drain (foldl apply_op (rs_new_list (length ops)) ops) = Some (list_item (op_item <$> ops));
  prototype_list l : Forall is_item l → rlp_fits (list_item l) → rlp_prototype (list_item l) = Ok (Prototype.List (length l));
  prototype_data x : rlp_fits (data_item x) → rlp_prototype (data_item x) = Ok (Prototype.Data (length x));
  at_spec l i b : Forall is_item l → rlp_fits (list_item l) → l !! i = Some b →
    ∃ offset, rlp_at_with_offset (list_item l) i = Ok (b, offset) ∧ take (length b) (drop offset (list_item l)) = b;
  payload_spec x : rlp_fits (data_item x) →
    ∃ h, rlp_payload_info (data_item x) = Ok (mkPayloadInfo h (length x)) ∧ length (data_item x) = (h + length x)%nat ∧
      drop h (data_item x) = x;
  is_data_data x : rlp_is_data (data_item x) = true;
  is_data_list l : rlp_is_data (list_item l) = false;
  is_empty_data x : rlp_is_empty (data_item x) = bool_decide (x = []);
  is_empty_list l : Forall is_item l → rlp_is_empty (list_item l) = bool_decide (l = []);
  size_spec x : rlp_fits (data_item x) → rlp_size (data_item x) = length x;
  data_spec x : rlp_fits (data_item x) → rlp_data (data_item x) = Ok x;
  item_fits l b : b ∈ l → (length b ≤ length (list_item l))%nat;
}.

(** ** What a node says *)
Definition read (data : bytes) (r : Range) : bytes := take (r.2 - r.1) (drop r.1 data).
Fixpoint nibbles (b : bytes) : list Z :=
  match b with [] => [] | x :: b => x / 16 :: x mod 16 :: nibbles b end.
Module Child.
Inductive t : Type := Hash (b : bytes) | Inline (b : bytes).
End Child.
Module Node.
Inductive t : Type :=
  | Empty
  | Leaf (key : list Z) (value : bytes)
  | Extension (key : list Z) (child : Child.t)
  | Branch (value : option bytes) (children : list (option Child.t)).
End Node.
Definition plan_nibbles (data : bytes) (p : NibbleSlicePlan) : list Z := drop (plan_offset p) (nibbles (read data (plan_bytes p))).
Definition handle_view (data : bytes) (h : NodeHandlePlan) : Child.t :=
  match h with NodeHandlePlan.Hash r => Child.Hash (read data r) | NodeHandlePlan.Inline r => Child.Inline (read data r) end.
Definition plan_view (data : bytes) (p : NodePlan) : Node.t :=
  match p with
  | NodePlan.Empty => Node.Empty
  | NodePlan.Leaf partial value => Node.Leaf (plan_nibbles data partial) (read data value)
  | NodePlan.Extension partial child => Node.Extension (plan_nibbles data partial) (handle_view data child)
  | NodePlan.Branch value children => Node.Branch (option_map (read data) value) (map (option_map (handle_view data)) children)
  end.
Definition decode_node `{RlpCrate} (data : bytes) : Outcome DecoderError Node.t :=
  plan_view data <$> BinNodeCodec.decode_plan data.

(** The keys and children that [trie_db] hands over. *)
Definition is_nibble (x : Z) : Prop := 0 ≤ x < 16.
Definition partial_ok (p : Partial) : Prop := p.1.1 > 0 → is_nibble p.1.2.
Definition partial_nibbles (p : Partial) : list Z := (if bool_decide (p.1.1 > 0) then [p.1.2] else []) ++ nibbles p.2.
Definition iter_ok (partial : bytes) (number_nibble : Z) : Prop :=
  number_nibble mod 2 > 0 → ∃ x l, partial = x :: l ∧ is_nibble x.
Definition iter_nibbles (partial : bytes) (number_nibble : Z) : list Z :=
  if bool_decide (number_nibble mod 2 > 0) then take 1 partial ++ nibbles (tail partial) else nibbles partial.
Definition child_view (c : ChildReference) : Child.t :=
  match c with
  | ChildReference.Hash h => Child.Hash (hash_bytes h)
  | ChildReference.Inline d len => Child.Inline (take len (hash_bytes d))
  end.
(** A child that is not hashed is a node itself. *)
Definition child_ok `{RlpLaws} (c : ChildReference) : Prop :=
  match c with
  | ChildReference.Hash h => hash_wf h
  | ChildReference.Inline d len =>
      (len ≤ length (hash_bytes d))%nat ∧ ∃ l, l ≠ [] ∧ Forall is_item l ∧ take len (hash_bytes d) = list_item l
  end.

Section CodecFacts.
Context `{RL : RlpLaws, P : Profile, B : Blake2b}.
Import BinNodeCodec.

Lemma fits_item l b : b ∈ l → rlp_fits (list_item l) → rlp_fits b.
Proof. unfold rlp_fits. intros Hb%item_fits. lia. Qed.

(** Where the payload of a data item is. *)
Lemma read_payload data x off h :
  take (length (data_item x)) (drop off data) = data_item x → length (data_item x) = (h + length x)%nat → drop h (data_item x) = x →
  read data ((off + h)%nat, (off + h + length x)%nat) = x.
Proof.
  intros Ht Hl Hd. unfold read. cbn [fst snd]. replace (off + h + length x - (off + h))%nat with (length x) by lia.
  rewrite <- drop_drop. rewrite <- Hd at 2. rewrite <- Ht, Hl, take_drop_commute. f_equal; f_equal; lia.
Qed.
Lemma decode_value_range_spec data x off :
  rlp_fits (data_item x) → take (length (data_item x)) (drop off data) = data_item x →
  ∃ r, decode_value_range (data_item x) off = Ok r ∧ read data r = x.
Proof.
  intros Hf Ht. destruct (payload_spec x Hf) as (h & Hp & Hl & Hd). unfold decode_value_range. rewrite Hp. simpl.
  eexists. split; [done|]. by apply read_payload.
Qed.

Definition child_item (c : ChildReference) : bytes :=
  match c with
  | ChildReference.Hash h => data_item (hash_bytes h)
  | ChildReference.Inline d len => take len (hash_bytes d)
  end.
Definition child_op (c : ChildReference) : stream_op :=
  match c with
  | ChildReference.Hash h => Append (hash_bytes h)
  | ChildReference.Inline d len => AppendRaw (take len (hash_bytes d))
  end.
Lemma append_child_spec {E} s c : child_ok c → append_child (E:=E) s c = Ok (apply_op s (child_op c)).
Proof. destruct c as [h|d len]; simpl; [done|]. intros [Hl _]. unfold slice_to. by rewrite decide_True. Qed.
Lemma child_is_item c : child_ok c → is_item (child_item c) ∧ rlp_is_empty (child_item c) = false.
Proof.
  destruct c as [h|d len]; simpl.
  - intros Hh. split; [left; eauto|]. rewrite is_empty_data, bool_decide_false; [done|]. intros He. unfold hash_wf in Hh. by rewrite He in Hh.
  - intros (_ & l & Hl & Hi & ->). split; [right; eauto|]. by rewrite is_empty_list, bool_decide_false.
Qed.
Lemma decode_child_spec data c off :
  child_ok c → rlp_fits (child_item c) → take (length (child_item c)) (drop off data) = child_item c →
  ∃ h, decode_child_handle_plan (child_item c) off = Ok h ∧ handle_view data h = child_view c.
Proof.
  destruct c as [h|d len]; simpl; unfold decode_child_handle_plan.
  - intros Hh Hf Ht. destruct (payload_spec (hash_bytes h) Hf) as (n & Hp & Hl & Hd).
    rewrite is_data_data, size_spec by done. rewrite bool_decide_true by done. simpl. rewrite Hp. simpl.
    eexists. split; [done|]. simpl. by rewrite (read_payload data (hash_bytes h)).
  - intros (_ & l & Hl & Hi & Hd) Hf Ht. rewrite Hd, is_data_list in *. simpl. eexists. split; [done|].
    simpl. f_equal. unfold read. simpl. by replace (off + length (list_item l) - off)%nat with (length (list_item l)) by lia.
Qed.

(** ** Partial keys *)
Definition key_header (odd is_leaf : bool) (nib : Z) : Z := (if odd then 16 + nib else 0) + (if is_leaf then 32 else 0).
Lemma key_header_spec odd is_leaf nib :
  is_nibble nib →
  bool_decide (Z.land (key_header odd is_leaf nib) 32 = 32) = is_leaf ∧
  bool_decide (Z.land (key_header odd is_leaf nib) 16 = 16) = odd ∧ (odd = true → key_header odd is_leaf nib mod 16 = nib).
Proof.
  intros Hn. unfold is_nibble in Hn. unfold key_header.
  assert (nib = 0 ∨ nib = 1 ∨ nib = 2 ∨ nib = 3 ∨ nib = 4 ∨ nib = 5 ∨ nib = 6 ∨ nib = 7 ∨ nib = 8 ∨ nib = 9 ∨ nib = 10 ∨
    nib = 11 ∨ nib = 12 ∨ nib = 13 ∨ nib = 14 ∨ nib = 15) as Hc by lia.
  destruct odd, is_leaf; repeat (destruct Hc as [->|Hc]); subst; by split_and!.
Qed.
Lemma encode_partial_inner_spec {E} first rest odd is_leaf :
  (odd = true → is_nibble first) →
  encode_partial_inner_iter (E:=E) first rest odd is_leaf = Ok (key_header odd is_leaf (if odd then first else 0) :: rest).
Proof.
  intros Hf. unfold encode_partial_inner_iter, key_header. destruct odd; simpl; [|by destruct is_leaf].
  specialize (Hf eq_refl). unfold is_nibble in Hf.
  destruct is_leaf; unfold add_u; rewrite !arith_in by (unfold in_u; lia); simpl; rewrite !arith_in by (unfold in_u; lia);
    simpl; do 2 f_equal; lia.
Qed.

(** What is read back from the header and the bytes behind it. *)
Lemma decode_partial_spec data off odd is_leaf nib rest :
  let item := data_item (key_header odd is_leaf nib :: rest) in
  is_nibble nib → rlp_fits item → take (length item) (drop off data) = item →
  ∃ p, decode_partial item off = Ok (p, is_leaf) ∧ plan_nibbles data p = (if odd then [nib] else []) ++ nibbles rest.
Proof.
  intros item Hn Hf Ht. subst item. set (x := key_header odd is_leaf nib :: rest) in *.
  destruct (payload_spec x Hf) as (h & Hp & Hl & Hd). destruct (key_header_spec odd is_leaf nib Hn) as (H32 & H16 & Hm).
  unfold decode_partial. rewrite Hp. simpl. rewrite is_empty_data, bool_decide_false by done.
  rewrite data_spec by done. simpl. rewrite H32. pose proof (read_payload data x off h Ht Hl Hd) as Hr.
  change (length x) with (S (length rest)) in Hr.
  destruct odd.
  - apply bool_decide_eq_true in H16. rewrite decide_True by done. eexists. split; [done|].
    unfold plan_nibbles. cbn [plan_offset plan_bytes]. rewrite Nat.add_0_r. rewrite Hr. unfold x. simpl. by rewrite (Hm eq_refl).
  - apply bool_decide_eq_false in H16. rewrite decide_False by done. eexists. split; [done|].
    unfold plan_nibbles. cbn [plan_offset plan_bytes]. rewrite drop_0. simpl. f_equal.
    apply (f_equal (drop 1)) in Hr. unfold x in Hr. simpl in Hr. etransitivity; [|exact Hr]. unfold read. cbn [fst snd].
    rewrite <- (drop_drop data 1 (off + h)). rewrite (skipn_firstn_comm 1). f_equal. lia.
Qed.

(** ** Children *)
Definition slot_item (c : option ChildReference) : bytes := match c with Some c => child_item c | None => data_item [] end.
Definition slot_op (c : option ChildReference) : stream_op := match c with Some c => child_op c | None => AppendEmpty end.
Definition slot_ok (c : option ChildReference) : Prop := match c with Some c => child_ok c | None => True end.
Lemma append_children_spec {E} s cs : Forall slot_ok cs → append_children (E:=E) s cs = Ok (foldl apply_op s (slot_op <$> cs)).
Proof.
  intros Hc. revert s. induction Hc as [|c cs Hc _ IH]; intros s; [done|]. simpl.
  destruct c as [c|]; simpl; [rewrite append_child_spec by done|]; simpl; apply IH.
Qed.
Lemma slot_op_item c : op_item (slot_op c) = slot_item c.
Proof. by destruct c as [[]|]. Qed.
Lemma slot_is_item c : slot_ok c → is_item (slot_item c).
Proof. destruct c as [c|]; simpl; [intros Hc; by apply child_is_item|]. intros _. left. eauto. Qed.
Lemma decode_children_spec l cs i :
  Forall is_item l → rlp_fits (list_item l) → Forall slot_ok cs →
  (∀ j c, cs !! j = Some c → l !! (i + j)%nat = Some (slot_item c)) →
  ∃ hs, decode_children (list_item l) i (length cs) = Ok hs ∧
    map (option_map (handle_view (list_item l))) hs = map (option_map child_view) cs.
Proof.
  intros Hl Hf Hok. revert i. induction Hok as [|c cs Hc _ IH]; intros i Hat; [by exists []|]. simpl.
  assert (Hi : l !! i = Some (slot_item c)) by (rewrite <- (Hat O c eq_refl); f_equal; lia).
  destruct (at_spec l i _ Hl Hf Hi) as (off & -> & Ht). simpl.
  assert (Hslot : ∃ h, (if rlp_is_empty (slot_item c) then mret None else Some <$> decode_child_handle_plan (slot_item c) off) = Ok h ∧
    option_map (handle_view (list_item l)) h = option_map child_view c).
  { destruct c as [c|]; simpl in *.
    - destruct (child_is_item c Hc) as [_ ->].
      destruct (decode_child_spec (list_item l) c off Hc) as (h & -> & Hh); [|done|exists (Some h); simpl; by rewrite Hh].
      eapply fits_item, Hf. by eapply list_elem_of_lookup_2.
    - rewrite is_empty_data. simpl. by exists None. }
  destruct Hslot as (h & -> & Hh). simpl.
  destruct (IH (S i)) as (hs & -> & Hhs); [|exists (h :: hs); simpl; by rewrite Hh, Hhs].
  intros j c' Hj. rewrite <- (Hat (S j) c' Hj). f_equal. lia.
Qed.

(** ** Nodes as lists of items *)
Lemma leaf_node_spec {E} partial value :
  partial_ok partial → let odd := bool_decide (partial.1.1 > 0) in
  leaf_node (E:=E) partial value =
    Ok (list_item [data_item (key_header odd true (if odd then partial.1.2 else 0) :: partial.2); data_item value]).
Proof.
  intros Hp odd. unfold leaf_node, encode_partial_iter. rewrite encode_partial_inner_spec.
  - simpl. pose proof (drain_spec [AppendIter (key_header odd true (if odd then partial.1.2 else 0) :: partial.2); Append value]) as Hd.
    simpl in Hd. unfold odd in *. by rewrite Hd.
  - intros Ho%bool_decide_eq_true. by apply Hp.
Qed.
Lemma extension_node_spec {E} partial n c :
  iter_ok partial n → child_ok c → let odd := bool_decide (n mod 2 > 0) in
  extension_node (E:=E) partial n c =
    Ok (list_item [data_item (key_header odd false (if odd then default 0 (head partial) else 0) ::
                              (if odd then tail partial else partial)); child_item c]).
Proof.
  intros Hp Hc odd. unfold extension_node, encode_partial_from_iterator_iter. fold odd. rewrite encode_partial_inner_spec.
  - simpl. rewrite append_child_spec by done. simpl.
    pose proof (drain_spec [AppendIter (key_header odd false (if odd then default 0 (head partial) else 0) ::
      (if odd then tail partial else partial)); child_op c]) as Hd. 
    destruct odd, c; simpl in Hd; simpl; by rewrite Hd.
  - intros Ho. rewrite Ho. apply bool_decide_eq_true in Ho. destruct (Hp Ho) as (x & l & -> & Hx). done.
Qed.
Lemma branch_node_spec {E} children value :
  length children = 16%nat → Forall slot_ok children →
  branch_node (E:=E) children value =
    Ok (list_item ((slot_item <$> children) ++ [data_item (default [] value)])).
Proof.
  intros Hl Hc. unfold branch_node. rewrite append_children_spec by done. simpl.
  set (op := match value with Some v => Append v | None => AppendEmpty end).
  pose proof (drain_spec ((slot_op <$> children) ++ [op])) as Hd.
  rewrite length_app, length_fmap, Hl, foldl_app, fmap_app, <- list_fmap_compose in Hd. simpl in Hd.
  rewrite (list_fmap_ext (op_item ∘ slot_op) slot_item) in Hd by (intros; apply slot_op_item).
  assert (Ho : apply_op (foldl apply_op (rs_new_list 17) (slot_op <$> children)) op =
    match value with Some v => rs_append (foldl apply_op (rs_new_list 17) (slot_op <$> children)) v
    | None => rs_append_empty_data (foldl apply_op (rs_new_list 17) (slot_op <$> children)) end) by (by destruct value).
  rewrite Ho in Hd. rewrite Hd by (by destruct children). unfold op. by destruct value.
Qed.

(** ** Reading nodes back *)
Lemma data_is_item x : is_item (data_item x).
Proof. left. eauto. Qed.
Lemma pair_items a b : is_item a → is_item b → Forall is_item [a; b].
Proof. intros Ha Hb. apply Forall_cons. split; [exact Ha|]. apply Forall_singleton. exact Hb. Qed.
Lemma decode_pair key_item item :
  Forall is_item [key_item; item] → rlp_fits (list_item [key_item; item]) →
  ∃ o1 o2, take (length key_item) (drop o1 (list_item [key_item; item])) = key_item ∧
    take (length item) (drop o2 (list_item [key_item; item])) = item ∧
    decode_plan (list_item [key_item; item]) =
      (pl ← decode_partial key_item o1;
       match pl.2 with
       | true => value ← decode_value_range item o2; mret (NodePlan.Leaf pl.1 value)
       | false => child ← decode_child_handle_plan item o2; mret (NodePlan.Extension pl.1 child)
       end).
Proof.
  intros Hi Hf. destruct (at_spec _ 0 key_item Hi Hf eq_refl) as (o1 & H1 & Ht1).
  destruct (at_spec _ 1 item Hi Hf eq_refl) as (o2 & H2 & Ht2). exists o1, o2. split_and!; [done..|].
  unfold decode_plan. rewrite prototype_list by done. simpl. rewrite H1. simpl.
  destruct (decode_partial key_item o1) as [[p b]| |]; simpl; [|done..]. by rewrite H2.
Qed.
Lemma leaf_read odd nib rest value :
  is_nibble nib →
  let data := list_item [data_item (key_header odd true nib :: rest); data_item value] in
  rlp_fits data → decode_node data = Ok (Node.Leaf ((if odd then [nib] else []) ++ nibbles rest) value).
Proof.
  intros Hn data Hf. subst data. unfold decode_node.
  set (k := data_item (key_header odd true nib :: rest)) in *. set (v := data_item value) in *.
  destruct (decode_pair k v) as (o1 & o2 & H1 & H2 & ->); [apply pair_items; apply data_is_item|done|].
  destruct (decode_partial_spec (list_item [k; v]) o1 odd true nib rest Hn) as (p & Hp & Hnib);
    [eapply fits_item, Hf; set_solver|done|]. fold k in Hp. rewrite Hp. simpl.
  destruct (decode_value_range_spec (list_item [k; v]) value o2) as (r & Hr & Hv);
    [eapply fits_item, Hf; set_solver|done|]. fold v in Hr. rewrite Hr. simpl. by rewrite Hnib, Hv.
Qed.
Lemma extension_read odd nib rest c :
  is_nibble nib → child_ok c →
  let data := list_item [data_item (key_header odd false nib :: rest); child_item c] in
  rlp_fits data → decode_node data = Ok (Node.Extension ((if odd then [nib] else []) ++ nibbles rest) (child_view c)).
Proof.
  intros Hn Hc data Hf. subst data. unfold decode_node.
  set (k := data_item (key_header odd false nib :: rest)) in *.
  destruct (decode_pair k (child_item c)) as (o1 & o2 & H1 & H2 & ->);
    [apply pair_items; [apply data_is_item|by apply child_is_item]|done|].
  destruct (decode_partial_spec (list_item [k; child_item c]) o1 odd false nib rest Hn) as (p & Hp & Hnib);
    [eapply fits_item, Hf; set_solver|done|]. fold k in Hp. rewrite Hp. simpl.
  destruct (decode_child_spec (list_item [k; child_item c]) c o2 Hc) as (h & -> & Hh);
    [eapply fits_item, Hf; set_solver|done|]. simpl. by rewrite Hnib, Hh.
Qed.
Lemma branch_read children value :
  length children = 16%nat → Forall slot_ok children →
  let data := list_item ((slot_item <$> children) ++ [data_item value]) in
  rlp_fits data →
  decode_node data = Ok (Node.Branch (if decide (value = []) then None else Some value) (map (option_map child_view) children)).
Proof.
  intros Hl Hc data Hf. set (items := (slot_item <$> children) ++ [data_item value]) in *.
  assert (Hi : Forall is_item items).
  { apply Forall_app. split; [|apply Forall_singleton, data_is_item]. apply Forall_fmap. eapply Forall_impl; [exact Hc|].
    intros c. apply slot_is_item. }
  unfold decode_node, decode_plan, data. rewrite prototype_list by done.
  replace (length items) with 17%nat by (unfold items; rewrite length_app, length_fmap, Hl; done). rewrite bind_Ok. cbv beta iota.
  destruct (decode_children_spec items children 0 Hi Hf Hc) as (hs & Hhs & Hv).
  { intros j c Hj. simpl. unfold items. rewrite lookup_app_l by (rewrite length_fmap; by eapply lookup_lt_Some).
    by rewrite list_lookup_fmap, Hj. }
  rewrite Hl in Hhs. rewrite Hhs, bind_Ok.
  destruct (at_spec items 16 (data_item value) Hi Hf) as (o & -> & Ht).
  { unfold items. rewrite lookup_app_r by (rewrite length_fmap; lia). by rewrite length_fmap, Hl. }
  simpl. rewrite is_empty_data. destruct (decide (value = [])) as [He|He].
  - rewrite bool_decide_true by done. simpl. by rewrite Hv.
  - rewrite bool_decide_false by done.
    destruct (decode_value_range_spec (list_item items) value o) as (r & -> & Hr);
      [eapply fits_item, Hf; unfold items; set_solver|done|]. simpl. by rewrite Hv, Hr.
Qed.
End CodecFacts.

(** ** Theorems *)
Section CodecTheorems.
Context `{RL : RlpLaws, P : Profile, B : Blake2b}.
Import BinNodeCodec.

(** C11: The nodes of the trie are read back as they were written.  Writing a leaf, an
    extension or a branch over the keys and children that the trie hands over never
    panics, and the plan of the bytes names exactly its key, nibble by nibble, its
    value and its children, for nodes of less than 4 GiB.  The one exception is a branch
    whose value is the empty string: it comes back without a value. *)
Theorem node_roundtrip :
  (∀ partial value, partial_ok partial →
    ∃ data, leaf_node (E:=DecoderError) partial value = Ok data ∧
      (rlp_fits data → decode_node data = Ok (Node.Leaf (partial_nibbles partial) value))) ∧
  (∀ partial n c, iter_ok partial n → child_ok c →
    ∃ data, extension_node (E:=DecoderError) partial n c = Ok data ∧
      (rlp_fits data → decode_node data = Ok (Node.Extension (iter_nibbles partial n) (child_view c)))) ∧
  (∀ children value, length children = 16%nat → Forall slot_ok children →
    ∃ data, branch_node (E:=DecoderError) children value = Ok data ∧
      (rlp_fits data → decode_node data =
        Ok (Node.Branch (if decide (value = Some []) then None else value) (map (option_map child_view) children)))).
Proof.
  split_and!.
  - intros [[n nib] rest] value Hp. rewrite leaf_node_spec by done. eexists. split; [done|]. intros Hf. simpl in *.
    unfold partial_nibbles. simpl. case_bool_decide as Hn.
    + by apply (leaf_read true nib rest value (Hp Hn)).
    + by apply (leaf_read false 0 rest value).
  - intros partial n c Hp Hc. rewrite extension_node_spec by done. eexists. split; [done|]. intros Hf.
    unfold iter_nibbles. simpl in *. case_bool_decide as Hn.
    + destruct (Hp Hn) as (x & l & -> & Hx). by apply (extension_read true x l c Hx Hc).
    + by apply (extension_read false 0 partial c).
  - intros children value Hl Hc. rewrite branch_node_spec by done. eexists. split; [done|]. intros Hf.
    rewrite (branch_read children (default [] value) Hl Hc Hf). do 2 f_equal.
    destruct value as [[|x v]|]; simpl; repeat case_decide; congruence.
Qed.

(** A list of another length, or a string that is not empty, is not a node. *)
Lemma decode_plan_other l x :
  Forall is_item l → rlp_fits (list_item l) → length l ≠ 2%nat → length l ≠ 17%nat → rlp_fits (data_item x) → x ≠ [] →
  decode_plan (list_item l) = Err DecoderError.Custom ∧ decode_plan (data_item x) = Err DecoderError.Custom.
Proof.
  intros Hl Hf H2 H17 Hx Hne. unfold decode_plan. rewrite prototype_list, prototype_data by done. simpl. split.
  - destruct (length l) as [|[|[|n]]]; [done..|]. do 14 (destruct n as [|n]; [done|]). destruct n; done.
  - by destruct x.
Qed.
End CodecTheorems.

(** ** RLP *)
Module RlpEx.
Definition len_len (n : nat) : nat :=
  if decide (Z.of_nat n < 2 ^ 8) then 1 else if decide (Z.of_nat n < 2 ^ 16) then 2 else if decide (Z.of_nat n < 2 ^ 24) then 3 else 4.
Definition header (base : Z) (n : nat) : bytes :=
  if decide (n ≤ 55)%nat then [base + Z.of_nat n]
  else base + 55 + Z.of_nat (len_len n) :: to_be_bytes (len_len n) (Z.of_nat n).
Definition data_enc (x : bytes) : bytes :=
  match x with
  | [b] => if decide (0 ≤ b < 128) then [b] else header 128 1 ++ [b]
  | _ => header 128 (length x) ++ x
  end.
Definition list_enc (l : list bytes) : bytes := header 192 (length (concat l)) ++ concat l.

Definition long_info (k : Z) (rest : bytes) : PayloadInfo :=
  mkPayloadInfo (S (Z.to_nat k)) (Z.to_nat (from_be_bytes (take (Z.to_nat k) rest))).
Definition payload_info (b : bytes) : Outcome DecoderError PayloadInfo :=
  match b with
  | [] => Err DecoderError.RlpError
  | h :: rest =>
      Ok (if decide (h < 128) then mkPayloadInfo 0 1
          else if decide (h ≤ 183) then mkPayloadInfo 1 (Z.to_nat (h - 128))
          else if decide (h ≤ 191) then long_info (h - 183) rest
          else if decide (h ≤ 247) then mkPayloadInfo 1 (Z.to_nat (h - 192))
          else long_info (h - 247) rest)
  end.
Definition total (p : PayloadInfo) : nat := header_len p + value_len p.
Fixpoint skip (n : nat) (rest : bytes) (off : nat) : Outcome DecoderError (bytes * nat) :=
  match n with
  | O => Ok (rest, off)
  | S n => p ← payload_info rest; skip n (drop (total p) rest) (off + total p)
  end.
Fixpoint count (fuel : nat) (b : bytes) : Outcome DecoderError nat :=
  match fuel, b with
  | S fuel, _ :: _ => p ← payload_info b; n ← count fuel (drop (total p) b); Ok (S n)
  | _, _ => Ok O
  end.
Definition is_data (b : bytes) : bool := match b with h :: _ => bool_decide (h < 192) | [] => false end.
Definition is_empty (b : bytes) : bool := match b with h :: _ => bool_decide (h = 128 ∨ h = 192) | [] => false end.
Definition at_offset (b : bytes) (i : nat) : Outcome DecoderError (bytes * nat) :=
  p ← payload_info b;
  r ← skip i (drop (header_len p) b) (header_len p);
  q ← payload_info r.1;
  Ok (take (total q) r.1, r.2).

#[export] Instance rlp : RlpCrate := {
  RlpStream := nat * list bytes;
  rs_new_list n := (n, []);
  rs_append s b := (s.1, s.2 ++ [data_enc b]);
  rs_append_iter s b := (s.1, s.2 ++ [data_enc b]);
  rs_append_raw s b _ := (s.1, s.2 ++ [b]);
  rs_append_empty_data s := (s.1, s.2 ++ [data_enc []]);
  rs_drain s := if decide (length s.2 = s.1) then Some (list_enc s.2) else None;
  rlp_prototype b := p ← payload_info b;
    if is_data b then Ok (Prototype.Data (value_len p)) else Prototype.List <$> count (length b) (drop (header_len p) b);
  rlp_at_with_offset := at_offset;
  rlp_payload_info := payload_info;
  rlp_is_data := is_data;
  rlp_is_empty := is_empty;
  rlp_size b := match payload_info b with Ok p => if is_data b then value_len p else 0 | _ => 0 end%nat;
  rlp_data b := p ← payload_info b; Ok (take (value_len p) (drop (header_len p) b));
}.

Lemma payload_header base n rest :
  (base = 128 ∨ base = 192) → Z.of_nat n < 2 ^ 32 →
  payload_info (header base n ++ rest) = Ok (mkPayloadInfo (length (header base n)) n).
Proof.
  intros Hb Hn. unfold header. case_decide as Hs.
  - destruct Hb as [->| ->]; cbn [app payload_info]; repeat first [rewrite decide_True by lia|rewrite decide_False by lia]; do 2 f_equal; lia.
  - assert (Hk : (1 ≤ len_len n ≤ 4)%nat ∧ Z.of_nat n < 256 ^ Z.of_nat (len_len n)).
    { unfold len_len. repeat case_decide; (split; [lia|]); simpl; lia. }
    destruct Hk as [Hk Hb']. set (k := len_len n) in *.
    assert (Hl : long_info (Z.of_nat k) (to_be_bytes k (Z.of_nat n) ++ rest) = mkPayloadInfo (S k) n).
    { unfold long_info. rewrite Nat2Z.id, take_app_length' by (symmetry; apply length_to_be_bytes).
      rewrite from_to_be_bytes by lia. by rewrite Nat2Z.id. }
    rewrite length_cons, length_to_be_bytes, <- Hl.
    destruct Hb as [->| ->]; cbn [app payload_info]; repeat first [rewrite decide_True by lia|rewrite decide_False by lia]; do 2 f_equal; lia.
Qed.
Lemma header_cons base n : ∃ h l, header base n = h :: l ∧ (base ≤ h ≤ base + 59) ∧ (h = base ↔ n = O).
Proof.
  unfold header. case_decide; eexists _, _; (split; [done|]); [lia|].
  assert (1 ≤ len_len n ≤ 4)%nat by (unfold len_len; repeat case_decide; lia). lia.
Qed.

Lemma data_payload x rest :
  Z.of_nat (length x) < 2 ^ 32 →
  ∃ h, payload_info (data_enc x ++ rest) = Ok (mkPayloadInfo h (length x)) ∧ length (data_enc x) = (h + length x)%nat ∧
    drop h (data_enc x) = x.
Proof.
  intros Hx.
  assert (Hlong : payload_info ((header 128 (length x) ++ x) ++ rest) = Ok (mkPayloadInfo (length (header 128 (length x))) (length x)) ∧
    length (header 128 (length x) ++ x) = (length (header 128 (length x)) + length x)%nat ∧
    drop (length (header 128 (length x))) (header 128 (length x) ++ x) = x).
  { rewrite <- app_assoc, payload_header, length_app, drop_app_length by auto. done. }
  destruct x as [|b [|c x]]; simpl data_enc; [by eexists| |by eexists]. case_decide as Hb; [|by eexists].
  exists O. simpl. by rewrite decide_True by lia.
Qed.
Lemma data_head x : ∃ h l, data_enc x = h :: l ∧ h < 192 ∧ (h = 128 ↔ x = []).
Proof.
  destruct x as [|b [|c x]]; [by exists 128, []| |]; cbn [data_enc].
  - case_decide; [exists b, []; split; [done|]; split; [lia|]; split; [lia|done]|].
    by exists 129, [b].
  - destruct (header_cons 128 (length (b :: c :: x))) as (h & l & -> & Hr & H0). exists h, (l ++ b :: c :: x).
    split; [done|]. split; [lia|]. split; [|done]. by intros Hh%H0.
Qed.
Lemma list_payload l rest :
  Z.of_nat (length (concat l)) < 2 ^ 32 →
  payload_info (list_enc l ++ rest) = Ok (mkPayloadInfo (length (header 192 (length (concat l)))) (length (concat l))) ∧
  length (list_enc l) = (length (header 192 (length (concat l))) + length (concat l))%nat.
Proof. intros Hl. unfold list_enc. rewrite <- app_assoc, payload_header, length_app by auto. done. Qed.

Definition item (b : bytes) : Prop := (∃ x, b = data_enc x) ∨ (∃ l, b = list_enc l).
Lemma item_payload b rest :
  item b → Z.of_nat (length b) < 2 ^ 32 → (∃ p, payload_info (b ++ rest) = Ok p ∧ total p = length b) ∧ (0 < length b)%nat.
Proof.
  intros [[x ->]|[l ->]] Hb.
  - assert (Hx : (length x ≤ length (data_enc x))%nat).
    { destruct x as [|c [|d x]]; simpl; [lia|case_decide; rewrite ?length_app; simpl; lia|rewrite length_app; simpl; lia]. }
    destruct (data_payload x rest) as (h & Hp & Hl & _); [lia|]. split; [|destruct (data_head x) as (? & ? & -> & _); simpl; lia].
    eexists. split; [done|]. unfold total. simpl. lia.
  - assert (Hl : (length (concat l) ≤ length (list_enc l))%nat) by (unfold list_enc; rewrite length_app; lia).
    destruct (list_payload l rest) as [Hp He]; [lia|].
    split; [eexists; split; [done|]; unfold total; simpl; lia|].
    unfold list_enc. destruct (header_cons 192 (length (concat l))) as (? & ? & -> & _). simpl. lia.
Qed.
Lemma count_items l fuel :
  Forall item l → Z.of_nat (length (concat l)) < 2 ^ 32 → (length (concat l) ≤ fuel)%nat →
  count fuel (concat l) = Ok (length l).
Proof.
  intros Hl. revert fuel. induction Hl as [|b l Hb _ IH]; intros fuel Hf Hlen; [by destruct fuel|].
  simpl in *. rewrite length_app in *. destruct (item_payload b (concat l) Hb) as [(p & Hp & Ht) Hpos]; [lia|].
  destruct fuel as [|fuel]; [lia|]. simpl. destruct (b ++ concat l) as [|c r] eqn:Hc.
  { apply (f_equal length) in Hc. rewrite length_app in Hc. simpl in Hc. lia. }
  rewrite Hp. simpl. rewrite <- Hc, Ht, drop_app_length. rewrite IH by lia. done.
Qed.
Lemma skip_items l i b off :
  Forall item l → Z.of_nat (length (concat l)) < 2 ^ 32 → l !! i = Some b →
  ∃ n rest, skip i (concat l) off = Ok (b ++ rest, (off + n)%nat) ∧ drop n (concat l) = b ++ rest.
Proof.
  intros Hl. revert i off. induction Hl as [|c l Hc _ IH]; intros i off Hf Hi; [done|]. simpl in *. rewrite length_app in Hf.
  destruct i as [|i]; simplify_eq/=; [exists O, (concat l); rewrite Nat.add_0_r; done|].
  destruct (item_payload c (concat l) Hc) as [(p & -> & Ht) _]; [lia|]. simpl. rewrite Ht, drop_app_length.
  destruct (IH i (off + length c)%nat) as (n & rest & Hs & Hd); [lia|done|]. rewrite Hs.
  exists (length c + n)%nat, rest. split; [do 2 f_equal; lia|]. by rewrite drop_app_add.
Qed.

Lemma fits_data x : rlp_fits (data_enc x) → Z.of_nat (length x) < 2 ^ 32.
Proof.
  unfold rlp_fits. destruct x as [|c [|d x]]; simpl; [lia|lia|]. rewrite length_app. simpl. lia.
Qed.
Lemma fits_list l : rlp_fits (list_enc l) → Z.of_nat (length (concat l)) < 2 ^ 32.
Proof. unfold rlp_fits, list_enc. rewrite length_app. lia. Qed.

#[export] Instance rlp_laws : RlpLaws.
Proof.
  refine {| data_item := data_enc; list_item := list_enc |}.
  - intros ops Hne.
    set (it := λ op, match op with Append b | AppendIter b => data_enc b | AppendRaw b => b | AppendEmpty => data_enc [] end).
    assert (Hf : ∀ n acc, foldl apply_op ((n, acc) : @RlpStream rlp) ops = (n, acc ++ (it <$> ops))).
    { clear Hne. intros n. induction ops as [|op ops IH]; intros acc; [by rewrite app_nil_r|].
      simpl foldl. replace (apply_op ((n, acc) : @RlpStream rlp) op) with ((n, acc ++ [it op]) : @RlpStream rlp) by (by destruct op).
      rewrite IH, <- app_assoc. done. }
    change (rs_new_list (length ops)) with ((length ops, []) : @RlpStream rlp). rewrite Hf. simpl.
    by rewrite decide_True by (by rewrite length_fmap).
  - intros l Hl Hf. simpl. pose proof (fits_list l Hf) as Hc. destruct (list_payload l [] Hc) as [Hp _].
    rewrite app_nil_r in Hp. rewrite Hp. simpl.
    destruct (header_cons 192 (length (concat l))) as (h & t & Hh & Hr & _).
    replace (is_data (list_enc l)) with false by (unfold list_enc; rewrite Hh; simpl; rewrite bool_decide_false by lia; done).
    unfold list_enc at 2. rewrite drop_app_length. rewrite count_items; [done..|].
    unfold list_enc. rewrite length_app. lia.
  - intros x Hf. simpl. destruct (data_payload x [] (fits_data x Hf)) as (h & Hp & _). rewrite app_nil_r in Hp. rewrite Hp. simpl.
    destruct (data_head x) as (b & t & -> & Hb & _). simpl. by rewrite bool_decide_true by lia.
  - intros l i b Hl Hf Hi. simpl. unfold at_offset. pose proof (fits_list l Hf) as Hc.
    destruct (list_payload l [] Hc) as [Hp _]. rewrite app_nil_r in Hp. rewrite Hp. simpl.
    unfold list_enc at 1. rewrite drop_app_length.
    destruct (skip_items l i b (length (header 192 (length (concat l)))) Hl Hc Hi) as (n & rest & Hs & Hd). rewrite Hs. simpl.
    assert (Hlen : (length b ≤ length (concat l))%nat).
    { apply (f_equal length) in Hd. rewrite length_drop, length_app in Hd. lia. }
    destruct (item_payload b rest) as [(p & -> & Ht) _]; [eapply Forall_lookup_1; done|lia|]. simpl.
    rewrite Ht, take_app_length. eexists. split; [done|]. unfold list_enc. rewrite drop_app_add, Hd. apply take_app_length.
  - intros x Hf. destruct (data_payload x [] (fits_data x Hf)) as (h & Hp & Hl & Hd). rewrite app_nil_r in Hp. eauto.
  - intros x. simpl. destruct (data_head x) as (b & t & -> & Hb & _). simpl. by rewrite bool_decide_true by lia.
  - intros l. simpl. unfold list_enc. destruct (header_cons 192 (length (concat l))) as (h & t & -> & Hr & _). simpl.
    by rewrite bool_decide_false by lia.
  - intros x. simpl. destruct (data_head x) as (b & t & -> & Hb & H0). simpl. apply bool_decide_ext. split; [|naive_solver].
    intros [->|?]; [by apply H0|lia].
  - intros l Hl. simpl. unfold list_enc. destruct (header_cons 192 (length (concat l))) as (h & t & -> & Hr & H0). simpl.
    apply bool_decide_ext. split; [|intros ->; right; by apply H0]. intros [?|Hh]; [lia|]. apply H0, nil_length_inv in Hh.
    destruct Hl as [|b l Hb _]; [done|]. simpl in Hh. apply app_eq_nil in Hh as [-> _].
    destruct Hb as [[x Hx]|[l' Hx]]; [by destruct (data_head x) as (? & ? & Hx' & _); rewrite Hx' in Hx|].
    unfold list_enc in Hx. by destruct (header_cons 192 (length (concat l'))) as (? & ? & Hh & _); rewrite Hh in Hx.
  - intros x Hf. simpl. destruct (data_payload x [] (fits_data x Hf)) as (h & Hp & _). rewrite app_nil_r in Hp. rewrite Hp. simpl.
    destruct (data_head x) as (b & t & -> & Hb & _). simpl. by rewrite bool_decide_true by lia.
  - intros x Hf. simpl. destruct (data_payload x [] (fits_data x Hf)) as (h & Hp & _ & Hd). rewrite app_nil_r in Hp. rewrite Hp. simpl.
    by rewrite Hd, firstn_all.
  - intros l b Hb. unfold list_enc. rewrite length_app. apply list_elem_of_split in Hb as (l1 & l2 & ->).
    rewrite concat_app, length_app. simpl. rewrite length_app. lia.
Defined.
End RlpEx.
Import RlpEx.

Lemma node_roundtrip_witness :
  let hash := mkHash (replicate 32 9) in
  (∃ data, BinNodeCodec.leaf_node (P:=Dev) (E:=DecoderError) ((1, 5), [18; 52]) [7; 8] = Ok data ∧
    decode_node data = Ok (Node.Leaf [5; 1; 2; 3; 4] [7; 8])) ∧
  ∃ data, BinNodeCodec.branch_node (E:=DecoderError) (Some (ChildReference.Hash hash) :: replicate 15 None) (Some [3]) = Ok data ∧
    decode_node data = Ok (Node.Branch (Some [3]) (Some (Child.Hash (replicate 32 9)) :: replicate 15 None)).
Proof.
  destruct (node_roundtrip (P:=Dev)) as (Hleaf & _ & Hbranch). split.
  - destruct (Hleaf ((1, 5), [18; 52]) [7; 8]) as (data & Hd & Hr).
    + intros _. unfold is_nibble. simpl. lia.
    + exists data. split; [exact Hd|]. apply Hr. vm_compute in Hd. injection Hd as <-. vm_compute. reflexivity.
  - destruct (Hbranch (Some (ChildReference.Hash (mkHash (replicate 32 9))) :: replicate 15 None) (Some [3])) as (data & Hd & Hr).
    + reflexivity.
    + apply Forall_cons. split; [reflexivity|]. by apply Forall_replicate.
    + exists data. split; [exact Hd|]. apply Hr. vm_compute in Hd. injection Hd as <-. vm_compute. reflexivity.
Defined.
