(* ===== verification/Keys.v ===== *)
(** * Keys: ed25519 keys and signatures (src/common/ed25519)

    The curve arithmetic of [ed25519_dalek] is a parameter ([Ed25519]) with the
    documented correctness of signatures as law; the key and signature
    containers of the crate, their conversions and error paths are modelled. *)
From S2P Require Import Prelude Hashing Types.

(** [InternalErrorKind] of src/common/errors; the text of [Other] is dropped. *)
Inductive InternalErrorKind : Type :=
  | InvalidSignData | BalanceNotEnough | InvalidTxNonce | NoneSign | Execute | Other.

Class Ed25519 : Type := {
  (** [SecretKey::from_bytes], [PublicKey::from_bytes], [Signature::from_bytes] accept *)
  secret_ok : bytes → bool;
  public_ok : bytes → bool;
  signature_ok : bytes → bool;
  (** [PublicKey::from_secret(..).to_bytes()] *)
  public_of_secret : bytes → bytes;
  (** [ExpandedSecretKey::from_secret_key(sk).sign(message, pk).to_bytes()] *)
  dalek_sign : bytes → bytes → bytes → bytes;
  dalek_verify : bytes → bytes → bytes → bool;
}.

Class Ed25519Laws `{Ed25519} : Prop := {
  public_of_secret_length sk :
    secret_ok sk = true → length (public_of_secret sk) = 32%nat;
  public_of_secret_ok sk :
    secret_ok sk = true → public_ok (public_of_secret sk) = true;
  dalek_sign_length sk m :
    secret_ok sk = true → length (dalek_sign sk m (public_of_secret sk)) = 64%nat;
  dalek_sign_ok sk m :
    secret_ok sk = true → signature_ok (dalek_sign sk m (public_of_secret sk)) = true;
  dalek_verify_sign sk m :
    secret_ok sk = true →
    dalek_verify (public_of_secret sk) m (dalek_sign sk m (public_of_secret sk)) = true;
}.

(** ** SignatureInfo: (r, s, public key) *)
Record SignatureInfo : Type := mkSignatureInfo { sig_r : bytes; sig_s : bytes; sig_p : bytes }.
#[global] Instance SignatureInfo_eq_dec : EqDecision SignatureInfo.
Proof. solve_decision. Defined.
#[global] Program Instance SignatureInfo_countable : Countable SignatureInfo :=
  inj_countable' (λ x, (sig_r x, sig_s x, sig_p x)) (λ x, mkSignatureInfo x.1.1 x.1.2 x.2) _.
Next Obligation. by intros []. Qed.
Definition SignatureInfo_default : SignatureInfo :=
  mkSignatureInfo (replicate 32 0) (replicate 32 0) (replicate 32 0).

Module SignatureInfo.
Section SignatureInfo.
Context `{Ed25519}.
Definition make (r s p : bytes) : SignatureInfo := mkSignatureInfo r s p.

Definition to_signature (i : SignatureInfo) : Outcome InternalErrorKind bytes :=
  let sig := sig_r i ++ sig_s i in
  if signature_ok sig then Ok sig else Err Other.

Definition from_signature (data p : bytes) : SignatureInfo :=
  mkSignatureInfo (take 32 data) (take 32 (drop 32 data)) p.

(** [data[0..64]] and [data[64..96]] panic on short input. *)
Definition from_slice (data : bytes) : Outcome InternalErrorKind SignatureInfo :=
  if decide (length data < 96)%nat then Panic
  else let sign_data := take 64 data in
       let p := take 32 (drop 64 data) in
       if signature_ok sign_data then Ok (from_signature sign_data p) else Err Other.
End SignatureInfo.
End SignatureInfo.

(** ** Pubkey *)
Record Pubkey : Type := mkPubkey { pk_inner : bytes }.
#[global] Instance Pubkey_eq_dec : EqDecision Pubkey.
Proof. solve_decision. Defined.

Module Pubkey.
Section Pubkey.
Context `{Ed25519}.
Definition equal (a b : Pubkey) : bool := bool_decide (pk_inner a = pk_inner b).
Definition to_bytes (k : Pubkey) : bytes := pk_inner k.
Definition from_bytes {E} (b : bytes) : Outcome E Pubkey :=
  s ← slice_to 32 b; mret (mkPubkey s).
(** Panics on a malformed string or on any length but 32. *)
Definition from_hex `{Hex} {E} (text : bytes) : Outcome E Pubkey :=
  b ← unwrap (hex_decode (Hash.strip_0x text));
  pk ← copy_from_slice 32 b;
  mret (mkPubkey pk).
Definition to_pubkey (k : Pubkey) : Outcome InternalErrorKind bytes :=
  if public_ok (pk_inner k) then Ok (pk_inner k) else Err Other.

(** [signinfo.to_signature().unwrap()] panics on a malformed signature. *)
Definition verify (k : Pubkey) (message : bytes) (signinfo : SignatureInfo)
    : Outcome InternalErrorKind unit :=
  sign ← unwrap_res (SignatureInfo.to_signature signinfo);
  pubkey ← to_pubkey k;
  if dalek_verify pubkey message sign then Ok tt else Err Other.
End Pubkey.
End Pubkey.

(** ** PrivKey *)
Record PrivKey : Type := mkPrivKey { sk_inner : bytes }.

Module PrivKey.
Section PrivKey.
Context `{Ed25519}.
Definition to_bytes (k : PrivKey) : bytes := sk_inner k.
Definition from_bytes {E} (b : bytes) : Outcome E PrivKey :=
  s ← slice_to 32 b; mret (mkPrivKey s).
Definition to_secrit_key (k : PrivKey) : Outcome InternalErrorKind bytes :=
  if secret_ok (sk_inner k) then Ok (sk_inner k) else Err Other.
Definition from_secret_key (sk : bytes) : PrivKey := mkPrivKey sk.

Definition to_pubkey (k : PrivKey) : Outcome InternalErrorKind Pubkey :=
  sk ← to_secrit_key k;
  mret (mkPubkey (public_of_secret sk)).

Definition sign (k : PrivKey) (message : bytes) : Outcome InternalErrorKind SignatureInfo :=
  sk ← to_secrit_key k;
  pubkey ← to_pubkey k;
  pk ← Pubkey.to_pubkey pubkey;
  mret (SignatureInfo.from_signature (dalek_sign sk message pk) pk).

Definition from_hex `{Hex} (text : bytes) : Outcome unit PrivKey :=
  b ← ok_or tt (hex_decode (Hash.strip_0x text));
  if decide (length b = 32%nat) then Ok (mkPrivKey b) else Err tt.
End PrivKey.
End PrivKey.

(** ** Facts *)
Section KeysFacts.
Context `{EL : Ed25519Laws}.

Lemma sign_spec k m :
  secret_ok (sk_inner k) = true →
  PrivKey.to_pubkey k = Ok (mkPubkey (public_of_secret (sk_inner k))) ∧
  ∃ i, PrivKey.sign k m = Ok i ∧ sig_p i = public_of_secret (sk_inner k) ∧
       length (sig_r i) = 32%nat ∧ length (sig_s i) = 32%nat ∧
       Pubkey.verify (mkPubkey (sig_p i)) m i = Ok tt.
Proof.
  intros Hk. unfold PrivKey.sign, PrivKey.to_pubkey, PrivKey.to_secrit_key.
  rewrite Hk; simpl. split; [done|].
  unfold Pubkey.to_pubkey; simpl. rewrite public_of_secret_ok by done.
  pose proof (dalek_sign_length (sk_inner k) m Hk) as Hl.
  eexists; split_and!; [done|done|..]; simpl.
  - rewrite length_take. lia.
  - rewrite length_take, length_drop. lia.
  - unfold Pubkey.verify, SignatureInfo.to_signature; simpl.
    rewrite (take_ge (drop 32 _)) by (rewrite length_drop; lia).
    rewrite take_drop, dalek_sign_ok by done. simpl.
    unfold Pubkey.to_pubkey; simpl. rewrite public_of_secret_ok by done. simpl.
    by rewrite dalek_verify_sign.
Qed.

(** [to_signature] of a signature read from 64 bytes gives the bytes back. *)
Lemma to_from_signature data p :
  length data = 64%nat → signature_ok data = true →
  SignatureInfo.to_signature (SignatureInfo.from_signature data p) = Ok data.
Proof.
  intros Hl Hok. unfold SignatureInfo.to_signature, SignatureInfo.from_signature; simpl.
  rewrite (take_ge (drop 32 _)) by (rewrite length_drop; lia).
  by rewrite take_drop, Hok.
Qed.
End KeysFacts.

(** A signature scheme for worked examples: the public key is the secret key
    and a signature is the public key followed by the padded message. *)
Definition example_ed25519 : Ed25519 := {|
  secret_ok sk := bool_decide (length sk = 32%nat);
  public_ok pk := bool_decide (length pk = 32%nat);
  signature_ok s := bool_decide (length s = 64%nat);
  public_of_secret sk := sk;
  dalek_sign sk m pk := pk ++ take 32 (m ++ replicate 32 0);
  dalek_verify pk m s := bool_decide (s = pk ++ take 32 (m ++ replicate 32 0));
|}.

Lemma example_ed25519_laws : @Ed25519Laws example_ed25519.
Proof.
  split; intros sk; cbn -[replicate take bool_decide]; rewrite ?bool_decide_eq_true; try done.
  - intros m Hl%bool_decide_eq_true. rewrite length_app, length_take, length_app, length_replicate. lia.
  - intros m Hl%bool_decide_eq_true. rewrite bool_decide_eq_true.
    rewrite length_app, length_take, length_app, length_replicate. lia.
  - intros m _. by rewrite bool_decide_eq_true.
Qed.
