(* ===== verification/Transaction.v ===== *)
(** * Transaction: transactions and their signatures
    (src/core/src/transaction.rs) *)
From S2P Require Import Prelude Hashing Types Codec Keys.

Definition CHAIN_ID : Z := 1.

Record Transaction : Type := mkTransaction {
  tx_sender : Address;
  tx_nonce : Z;
  tx_gas_price : Z;
  tx_gas : Z;
  tx_call : bytes;
  tx_data : bytes;
  tx_sign_data : bytes * bytes * bytes;
}.
#[global] Instance Transaction_eq_dec : EqDecision Transaction.
Proof. solve_decision. Defined.
#[global] Instance Transaction_countable : Countable Transaction.
Proof.
  refine (inj_countable
    (λ t, [[tx_nonce t; tx_gas_price t; tx_gas t]; addr_bytes (tx_sender t); tx_call t; tx_data t;
           (tx_sign_data t).1.1; (tx_sign_data t).1.2; (tx_sign_data t).2])
    (λ l, match l with
          | [[b; c; d]; a; e; f; g; h; i] => Some (mkTransaction (mkAddress a) b c d e f (g, h, i))
          | _ => None
          end) _).
  intros t. destruct t as [a ? ? ? ? ? s]. by destruct a, s as [[] ?].
Defined.

(** [balance_msg::MsgTransfer] *)
Record MsgTransfer : Type := mkMsgTransfer { receiver : Address; transfer_value : Z }.
#[global] Instance MsgTransfer_eq_dec : EqDecision MsgTransfer.
Proof. solve_decision. Defined.
#[global] Program Instance MsgTransfer_countable : Countable MsgTransfer :=
  inj_countable' (λ t, (receiver t, transfer_value t)) (λ t, mkMsgTransfer t.1 t.2) _.
Next Obligation. by intros []. Qed.

(** What the transaction hash covers: everything but the sender and the
    signature. *)
Record TxHashType : Type := mkTxHashType {
  th_chainid : Z; th_nonce : Z; th_gas_price : Z; th_gas : Z;
  th_call : bytes; th_data : bytes;
}.
#[global] Instance TxHashType_eq_dec : EqDecision TxHashType.
Proof. solve_decision. Defined.
#[global] Instance TxHashType_countable : Countable TxHashType.
Proof.
  refine (inj_countable
    (λ t, [[th_chainid t; th_nonce t; th_gas_price t; th_gas t]; th_call t; th_data t])
    (λ l, match l with
          | [[a; b; c; d]; e; f] => Some (mkTxHashType a b c d e f)
          | _ => None
          end) _).
  by intros [].
Defined.

Definition TxHashType_new (tx : Transaction) : TxHashType :=
  mkTxHashType CHAIN_ID (tx_nonce tx) (tx_gas_price tx) (tx_gas tx) (tx_call tx) (tx_data tx).

Module Transaction.
Section Transaction.
Context `{Blake2b, Ed25519, Bincode MsgTransfer, Bincode TxHashType}.
Implicit Types (tx : Transaction).

Definition get_to_address {E} tx : Outcome E Address :=
  input ← unwrap (deserialize (tx_data tx)); mret (receiver input).
Definition get_from_address tx : Address := tx_sender tx.
Definition get_nonce tx : Z := tx_nonce tx.
Definition get_gas_price tx : Z := tx_gas_price tx.
Definition get_value {E} tx : Outcome E Z :=
  input ← unwrap (deserialize (tx_data tx)); mret (transfer_value input).
Definition get_sign_data tx : SignatureInfo :=
  SignatureInfo.make (tx_sign_data tx).1.1 (tx_sign_data tx).1.2 (tx_sign_data tx).2.

Definition new (sender : Address) (nonce gas_price gas : Z) (method data : bytes)
    : Transaction :=
  mkTransaction sender nonce gas_price gas method data
    (replicate 32 0, replicate 32 0, replicate 32 0).

Definition hash tx : Hash := mkHash (blake2b_256 (serialize (TxHashType_new tx))).

Definition set_sign_data {E} tx (d : SignatureInfo) : Outcome E Transaction :=
  r ← copy_from_slice 32 (sig_r d);
  s ← copy_from_slice 32 (sig_s d);
  p ← copy_from_slice 32 (sig_p d);
  mret (mkTransaction (tx_sender tx) (tx_nonce tx)
          (tx_gas_price tx) (tx_gas tx) (tx_call tx)
          (tx_data tx) (r, s, p)).

Definition sign tx (priv_data : bytes) : Outcome InternalErrorKind Transaction :=
  let h := hash tx in
  priv_key ← PrivKey.from_bytes priv_data;
  d ← PrivKey.sign priv_key (Hash.to_slice h);
  set_sign_data tx d.

(** The key is the one the transaction carries. *)
Definition verify_sign tx : Outcome InternalErrorKind unit :=
  pk ← Pubkey.from_bytes (tx_sign_data tx).2;
  Pubkey.verify pk (hash_bytes (hash tx)) (get_sign_data tx).
End Transaction.
End Transaction.

Section TransactionFacts.
Context `{Blake2b, EL : Ed25519Laws, Bincode MsgTransfer, Bincode TxHashType}.
Implicit Types (tx : Transaction).

(** [sign] always succeeds with a valid 32-byte secret, and the result
    verifies; nothing but the signature changes. *)
Lemma sign_verify tx sk :
  length sk = 32%nat → secret_ok sk = true →
  ∃ tx', Transaction.sign tx sk = Ok tx' ∧ Transaction.verify_sign tx' = Ok tt ∧
         Transaction.hash tx' = Transaction.hash tx ∧
         Transaction.get_from_address tx' = Transaction.get_from_address tx ∧
         (tx_sign_data tx').2 = public_of_secret sk.
Proof.
  intros Hl Hok. unfold Transaction.sign, PrivKey.from_bytes, slice_to.
  rewrite decide_True, (take_ge sk) by lia. simpl.
  destruct (sign_spec (mkPrivKey sk) (hash_bytes (Transaction.hash tx)) Hok)
    as (_ & i & Hs & Hp & Hr & Hsl & Hv).
  unfold Hash.to_slice. simpl in Hp, Hs |- *. rewrite Hs. simpl.
  pose proof (public_of_secret_length sk Hok) as Hpl. rewrite <-Hp in Hpl.
  unfold Transaction.set_sign_data, copy_from_slice.
  rewrite !decide_True by done. simpl.
  eexists; split_and!; [done| |done|done|done].
  unfold Transaction.verify_sign, Pubkey.from_bytes, slice_to; simpl.
  rewrite decide_True, take_ge by lia. simpl.
  unfold Transaction.get_sign_data, SignatureInfo.make; simpl.
  destruct i; exact Hv.
Qed.

(** The signature does not cover the sender: any transaction verifies under
    every sender when it verifies under one. *)
Lemma verify_sign_ignores_sender tx a :
  Transaction.verify_sign
    (mkTransaction a (tx_nonce tx) (tx_gas_price tx) (tx_gas tx) (tx_call tx) (tx_data tx) (tx_sign_data tx))
  = Transaction.verify_sign tx.
Proof. reflexivity. Qed.
End TransactionFacts.
