(* ===== verification/Storage.v ===== *)
(** * Storage: the interface between the state database and its clients

    [Balance] and [Staking] keep everything in the state database, through
    [get_storage], [set_storage], [remove_storage], [commit] and [root]
    (src/core/src/state.rs).  [Storage] names these operations and
    [StorageLaws] states what they promise: the database behaves like a finite
    map from hashes to non-empty byte strings, and its committed root is a
    function of that map.  [StateDB] implements the interface. *)
From S2P Require Import Prelude Types Store State.

Class Storage (S : Type) : Type := {
  st_get {E} : S → Hash → Outcome E (option bytes);
  st_set : S → Hash → bytes → S;
  st_remove : S → Hash → S;
  st_commit {E} : S → Outcome E S;
  st_root : S → Hash;
}.
#[global] Hint Mode Storage ! : typeclass_instances.

Class StorageLaws (S : Type) `{Storage S} : Type := {
  st_rep : S → gmap bytes bytes → Prop;
  (** The trie root of a map, and the roots a database can be reopened at. *)
  st_root_of : Hash → gmap bytes bytes → Prop;
  st_saved : S → Hash → gmap bytes bytes → Prop;
  st_saved_root (s : S) r m : st_saved s r m → st_root_of r m;
  st_root_canonical r r' m : st_root_of r m → st_root_of r' m → r = r';
  st_get_rep {E} (s : S) m k :
    st_rep s m → st_get (E:=E) s k = Ok (m !! hash_bytes k);
  st_set_rep (s : S) m k v :
    st_rep s m → v ≠ [] → st_rep (st_set s k v) (<[hash_bytes k := v]> m);
  st_remove_rep (s : S) m k :
    st_rep s m → st_rep (st_remove s k) (delete (hash_bytes k) m);
  st_commit_rep {E} (s : S) m :
    st_rep s m →
    ∃ s', st_commit (E:=E) s = Ok s' ∧ st_rep s' m ∧ st_saved s' (st_root s') m;
}.
#[global] Hint Mode StorageLaws ! - : typeclass_instances.

(** [StateDB] over any backend and trie is a storage. *)
Section StateDBStorage.
Context {D M TM : Type} {node_hash : bytes → Hash}.
Context `{KL : KVDBLaws D, MM : MemoryDB M, TO : !TrieOps (ArchiveDB D M) TM}.
Context `{MLL : !MemoryDBLaws M node_hash, TL : !TrieLaws D M TM node_hash}.
Context `{IO : IterOrder, !IterOrderLaw}.

#[global] Instance StateDB_Storage : Storage (StateDB D M) := {|
  st_get E := StateDB.get_storage (E:=E);
  st_set := StateDB.set_storage;
  st_remove := StateDB.remove_storage;
  st_commit E := StateDB.commit (E:=E);
  st_root := StateDB.root;
|}.

#[global] Instance StateDB_StorageLaws : StorageLaws (StateDB D M).
Proof.
  refine {| st_rep := state_rep;
            st_root_of := λ r m, ∃ B, trie_rep B r m;
            st_saved := λ s r m, mdb_entries (cached (db s)) = ∅ ∧
                                 trie_rep (kv_map (backend (db s))) r m |}.
  - intros s r m [_ Hr]. by eexists.
  - intros r r' m [B HB] [B' HB']. by eapply trie_rep_canonical.
  - intros E s m k. apply state_rep_get.
  - intros s m k v. apply set_storage_rep.
  - intros s m k. apply remove_storage_rep.
  - intros E s m Hs. destruct (commit_rep (E:=E) s m Hs) as (s' & Hc & Hr & Ht & _ & He & _).
    by exists s'.
Defined.
End StateDBStorage.
