(* ===== verification/Balance.v ===== *)
(** * Balance: accounts and transfers (src/core/src/balance.rs)

    An account is stored, serialised, under the digest of its padded address.
    The operations load, change and store one account; they are modelled over
    any [Storage] and shown to refine the same operations on an abstract
    [Ledger], a map from addresses to accounts. *)
From S2P Require Import Prelude Hashing Types Codec Store State StateExample Transaction Storage.

Definition BALANCE_POS : Z := 1.
Definition NONCE_POS : Z := 2.

Record Account : Type := mkAccount {
  acc_balance : Z;
  acc_nonce : Z;
  acc_locked : Z;
}.
#[global] Instance Account_eq_dec : EqDecision Account.
Proof. solve_decision. Defined.
#[global] Program Instance Account_countable : Countable Account :=
  inj_countable' (λ a, (acc_balance a, acc_nonce a, acc_locked a))
    (λ a, mkAccount a.1.1 a.1.2 a.2) _.
Next Obligation. by intros []. Qed.
Definition Account_default : Account := mkAccount 0 0 0.

Module Account.
Definition get_balance (a : Account) : Z := acc_balance a.
Definition get_nonce (a : Account) : Z := acc_nonce a.
End Account.

(** The interpreter a [Balance] carries only gives it the shared database. *)
Record Balance (S : Type) : Type := mkBalance { treedb : S; root_hash : Hash }.
Arguments mkBalance {S}. Arguments treedb {S}. Arguments root_hash {S}.

Module Balance.
Section Balance.
Context {S : Type} `{P : Profile, Storage S, Blake2b, Bincode Account, Bincode MsgTransfer}.
Context {E : Type}.
Implicit Types (b : Balance S) (addr : Address) (value : Z).

Definition new (statedb : S) : Balance S := mkBalance statedb NULL_ROOT.
Definition from_state (statedb : S) : Balance S := mkBalance statedb NULL_ROOT.

(** Storage key of an account. *)
Definition address_key addr : Hash :=
  let h := Hash.from_bytes (Address.as_slice addr) in
  mkHash (blake2b_256 (Hash.to_slice h)).
Definition balance_key addr : Hash :=
  let raw := Hash.to_slice (Hash.from_bytes (Address.as_slice addr)) in
  let raw := raw ++ Hash.to_slice (Hash.from_bytes (to_be_bytes 8 BALANCE_POS)) in
  mkHash (blake2b_256 raw).
Definition nonce_key addr : Hash :=
  let raw := Hash.to_slice (Hash.from_bytes (Address.as_slice addr)) in
  let raw := raw ++ Hash.to_slice (Hash.from_bytes (to_be_bytes 8 NONCE_POS)) in
  mkHash (blake2b_256 raw).

Definition load_account b addr : Outcome E Account :=
  serialized ← st_get (treedb b) (address_key addr);
  match serialized with
  | None => Ok Account_default
  | Some s => unwrap (deserialize s)
  end.
Definition set_account b addr (account : Account) : Balance S :=
  mkBalance (st_set (treedb b) (address_key addr) (serialize account)) (root_hash b).

Definition balance b addr : Outcome E Z :=
  account ← load_account b addr; mret (acc_balance account).
Definition nonce b addr : Outcome E Z :=
  account ← load_account b addr; mret (acc_nonce account).
Definition locked b addr : Outcome E Z :=
  account ← load_account b addr; mret (acc_locked account).
Definition get_account b addr : Outcome E Account := load_account b addr.

Definition inc_nonce b addr : Outcome E (Balance S) :=
  account ← load_account b addr;
  n ← add_u 64 (acc_nonce account) 1;
  mret (set_account b addr (mkAccount (acc_balance account) n (acc_locked account))).

Definition add_balance b addr value : Outcome E (Balance S) :=
  account ← load_account b addr;
  v ← add_u 128 (acc_balance account) value;
  mret (set_account b addr (mkAccount v (acc_nonce account) (acc_locked account))).

Definition sub_balance b addr value : Outcome E (Balance S) :=
  account ← load_account b addr;
  v ← sub_u 128 (acc_balance account) value;
  mret (set_account b addr (mkAccount v (acc_nonce account) (acc_locked account))).

Definition slash b addr value : Outcome E (Balance S) :=
  account ← load_account b addr;
  l ← sub_u 128 (acc_locked account) value;
  mret (set_account b addr (mkAccount (acc_balance account) (acc_nonce account) l)).

Definition lock_balance b addr value : Outcome E (Balance S) :=
  account ← load_account b addr;
  v ← sub_u 128 (acc_balance account) value;
  l ← add_u 128 (acc_locked account) value;
  mret (set_account b addr (mkAccount v (acc_nonce account) l)).

Definition unlock_balance b addr value : Outcome E (Balance S) :=
  account ← load_account b addr;
  v ← add_u 128 (acc_balance account) value;
  l ← sub_u 128 (acc_locked account) value;
  mret (set_account b addr (mkAccount v (acc_nonce account) l)).

(** Does nothing when the sender cannot pay. *)
Definition transfer b (from_addr to_addr : Address) (amount : Z) : Outcome E (Balance S) :=
  available ← balance b from_addr;
  if decide (available >= amount) then
    b ← sub_balance b from_addr amount;
    add_balance b to_addr amount
  else Ok b.

Definition exec_transfer b (from_addr : Address) (input : bytes) : Outcome E (Balance S) :=
  msg ← unwrap (deserialize input);
  transfer b from_addr (receiver msg) (transfer_value msg).

Definition commit b : Outcome E (Balance S * Hash) :=
  s ← st_commit (treedb b);
  let root := st_root s in
  mret (mkBalance s root, root).

Definition load_root b (root : Hash) : Balance S := mkBalance (treedb b) root.
End Balance.
End Balance.

(** ** The abstract ledger *)
Abbreviation ledger := (Address → Account).

Module Ledger.
Section Ledger.
Context `{P : Profile} {E : Type}.
Implicit Types (L : ledger) (a : Address) (v : Z).

Definition empty : ledger := λ _, Account_default.
Definition set L a (x : Account) : ledger := λ a', if decide (a' = a) then x else L a'.

(** Replaces the account of [a] by what [f] makes of it. *)
Definition update L a (f : Account → Outcome E Account) : Outcome E ledger :=
  x ← f (L a); mret (set L a x).

Definition credit v (x : Account) : Outcome E Account :=
  b ← add_u 128 (acc_balance x) v; mret (mkAccount b (acc_nonce x) (acc_locked x)).
Definition debit v (x : Account) : Outcome E Account :=
  b ← sub_u 128 (acc_balance x) v; mret (mkAccount b (acc_nonce x) (acc_locked x)).
Definition bump (x : Account) : Outcome E Account :=
  n ← add_u 64 (acc_nonce x) 1; mret (mkAccount (acc_balance x) n (acc_locked x)).
Definition lock v (x : Account) : Outcome E Account :=
  b ← sub_u 128 (acc_balance x) v; l ← add_u 128 (acc_locked x) v;
  mret (mkAccount b (acc_nonce x) l).
Definition unlock v (x : Account) : Outcome E Account :=
  b ← add_u 128 (acc_balance x) v; l ← sub_u 128 (acc_locked x) v;
  mret (mkAccount b (acc_nonce x) l).
Definition slash v (x : Account) : Outcome E Account :=
  l ← sub_u 128 (acc_locked x) v; mret (mkAccount (acc_balance x) (acc_nonce x) l).

Definition transfer L (from to : Address) v : Outcome E ledger :=
  if decide (v ≤ acc_balance (L from)) then
    L ← update L from (debit v); update L to (credit v)
  else Ok L.
End Ledger.

(** Total of a quantity over the accounts of [l]. *)
Definition total (q : Account → Z) (L : ledger) (l : list Address) : Z :=
sum_list_Z (λ a, q (L a)) l.
Definition funds (x : Account) : Z := acc_balance x + acc_locked x.

Definition account_wf (x : Account) : Prop :=
in_u 128 (acc_balance x) ∧ in_u 64 (acc_nonce x) ∧ in_u 128 (acc_locked x).
Definition wf (L : ledger) : Prop := ∀ a, account_wf (L a).
End Ledger.

(** ** Refinement *)

(** The storage keys of the accounts in use do not collide. *)
Class AddressKeys `{Blake2b} : Prop :=
  address_key_inj a a' :
    addr_wf a → addr_wf a' → Balance.address_key a = Balance.address_key a' → a = a'.

Section BalanceFacts.
Context {S : Type} `{P : Profile, SL : StorageLaws S, HB : Blake2b, AK : !AddressKeys}.
Context `{BA : BincodeLaws Account, BT : Bincode MsgTransfer} {E : Type}.
Implicit Types (b : Balance S) (L : ledger) (a : Address).

(** The account a storage map holds for an address. *)
Definition stored_account (m : gmap bytes bytes) a : option Account :=
  match m !! hash_bytes (Balance.address_key a) with
  | None => Some Account_default
  | Some s => deserialize s
  end.

(** A storage map, a database holds the ledger [L]. *)
Definition ledger_of (m : gmap bytes bytes) L : Prop :=
  ∀ a, addr_wf a → stored_account m a = Some (L a).
Definition ledger_rep b L : Prop := ∃ m, st_rep (treedb b) m ∧ ledger_of m L.
(** The ledger [L] is committed: [r] is the root of the database and the one recorded, and
    a map that holds [L] is saved under it, so that the database can be opened there. *)
Definition ledger_saved b (r : Hash) L : Prop :=
  root_hash b = r ∧ r = st_root (treedb b) ∧ ∃ m, st_saved (treedb b) r m ∧ ledger_of m L.

Lemma ledger_rep_ext b L L' : ledger_rep b L → (∀ a, L a = L' a) → ledger_rep b L'.
Proof. intros (m & Hm & HL) Heq. exists m. split; [done|]. intros a. rewrite <-Heq. apply HL. Qed.

Lemma load_account_rep b L a :
  ledger_rep b L → addr_wf a → Balance.load_account (E:=E) b a = Ok (L a).
Proof.
  intros (m & Hm & HL) Ha. unfold Balance.load_account.
  rewrite (st_get_rep _ m) by done. rewrite bind_Ok. specialize (HL a Ha).
  unfold stored_account in HL. case_match; [by rewrite HL|congruence].
Qed.

Lemma ledger_of_set m L a x :
  ledger_of m L → addr_wf a →
  ledger_of (<[hash_bytes (Balance.address_key a) := serialize x]> m) (Ledger.set L a x).
Proof.
  intros HL Ha a' Ha'. unfold stored_account, Ledger.set. case_decide as Heq.
  - subst. rewrite lookup_insert_eq. apply deserialize_serialize.
  - rewrite lookup_insert_ne; [by apply HL|].
    intros Hk%hash_bytes_inj. by apply Heq, address_key_inj.
Qed.

Lemma set_account_rep b L a x :
  ledger_rep b L → addr_wf a → ledger_rep (Balance.set_account b a x) (Ledger.set L a x).
Proof.
  intros (m & Hm & HL) Ha. eexists; split; [|by apply ledger_of_set].
  apply st_set_rep; [done|]. apply serialize_nonempty.
Qed.

(** An operation that changes one account does the same to the ledger. *)
Lemma update_rep b L a (f : Account → Outcome E Account) :
  ledger_rep b L → addr_wf a →
  outcome_rel ledger_rep
    (x ← Balance.load_account b a; y ← f x; mret (Balance.set_account b a y))
    (Ledger.update L a f).
Proof.
  intros HL Ha. rewrite load_account_rep with (L:=L) by done. simpl. unfold Ledger.update.
  apply outcome_rel_bind_eq. intros x _. by apply set_account_rep.
Qed.

(** The bodies of the operations that change one account associate the
    binds differently. *)
Lemma one_account b L a (f : Account → Outcome E Account) o :
  ledger_rep b L → addr_wf a →
  o = (x ← Balance.load_account b a; y ← f x; mret (Balance.set_account b a y)) →
  outcome_rel ledger_rep o (Ledger.update L a f).
Proof. intros ?? ->. by apply update_rep. Qed.

Ltac one_account :=
  intros HL Ha; apply (one_account _ _ _ _ _ HL Ha);
  destruct (Balance.load_account _ _) eqn:Hload;
  cbv [Balance.inc_nonce Balance.add_balance Balance.sub_balance Balance.slash
       Balance.lock_balance Balance.unlock_balance Ledger.credit Ledger.debit
       Ledger.bump Ledger.lock Ledger.unlock Ledger.slash];
  rewrite Hload; simpl; try done;
  repeat (destruct (add_u _ _ _) || destruct (sub_u _ _ _)); done.

Lemma add_balance_refines b L a v :
  ledger_rep b L → addr_wf a →
  outcome_rel ledger_rep (Balance.add_balance (E:=E) b a v) (Ledger.update L a (Ledger.credit v)).
Proof. one_account. Qed.
Lemma sub_balance_refines b L a v :
  ledger_rep b L → addr_wf a →
  outcome_rel ledger_rep (Balance.sub_balance (E:=E) b a v) (Ledger.update L a (Ledger.debit v)).
Proof. one_account. Qed.

Lemma inc_nonce_refines b L a :
  ledger_rep b L → addr_wf a →
  outcome_rel ledger_rep (Balance.inc_nonce (E:=E) b a) (Ledger.update L a Ledger.bump).
Proof. one_account. Qed.

Lemma lock_balance_refines b L a v :
  ledger_rep b L → addr_wf a →
  outcome_rel ledger_rep (Balance.lock_balance (E:=E) b a v) (Ledger.update L a (Ledger.lock v)).
Proof. one_account. Qed.

Lemma unlock_balance_refines b L a v :
  ledger_rep b L → addr_wf a →
  outcome_rel ledger_rep (Balance.unlock_balance (E:=E) b a v) (Ledger.update L a (Ledger.unlock v)).
Proof. one_account. Qed.

Lemma slash_refines b L a v :
  ledger_rep b L → addr_wf a →
  outcome_rel ledger_rep (Balance.slash (E:=E) b a v) (Ledger.update L a (Ledger.slash v)).
Proof. one_account. Qed.

Lemma balance_rep b L a :
  ledger_rep b L → addr_wf a → Balance.balance (E:=E) b a = Ok (acc_balance (L a)).
Proof. intros. unfold Balance.balance. by rewrite load_account_rep with (L:=L). Qed.

Lemma transfer_refines_spec b L from to v :
  ledger_rep b L → addr_wf from → addr_wf to →
  outcome_rel ledger_rep (Balance.transfer (E:=E) b from to v) (Ledger.transfer L from to v).
Proof.
  intros HL Hf Ht. unfold Balance.transfer, Ledger.transfer.
  rewrite balance_rep with (L:=L) by done. rewrite bind_Ok.
  do 2 case_decide; try lia; [|done].
  eapply outcome_rel_bind; [by apply sub_balance_refines|].
  intros b' L' HL'. by apply add_balance_refines.
Qed.

(** Committing saves the ledger, records the root and returns it. *)
Lemma commit_rep_spec b L :
  ledger_rep b L →
  ∃ b' r, Balance.commit (E:=E) b = Ok (b', r) ∧ ledger_rep b' L ∧ ledger_saved b' r L.
Proof.
  intros (m & Hm & HL). unfold Balance.commit.
  destruct (st_commit_rep (E:=E) _ m Hm) as (s' & -> & Hr & Hs). simpl.
  eexists _, _; split_and!; [done|by exists m|]. split_and!; [done..|]. by exists m.
Qed.
End BalanceFacts.

(** ** Facts about the abstract ledger *)
Module LedgerFacts.
Section LedgerFacts.
Context `{P : Profile} {E : Type}.
Implicit Types (L : ledger) (a : Address) (q : Account → Z).

Lemma set_eq L a x : Ledger.set L a x a = x.
Proof. unfold Ledger.set. by rewrite decide_True. Qed.
Lemma set_ne L a x a' : a' ≠ a → Ledger.set L a x a' = L a'.
Proof. intros. unfold Ledger.set. by rewrite decide_False. Qed.

Lemma total_set q L a x l :
  NoDup l → a ∈ l →
  Ledger.total q (Ledger.set L a x) l = Ledger.total q L l + (q x - q (L a)).
Proof.
  intros Hl Ha. unfold Ledger.total.
  rewrite (sum_list_Z_update (λ a, q (L a)) (λ b, q (Ledger.set L a x b)) l a) by
    (done || (intros; by rewrite set_ne)).
  by rewrite set_eq.
Qed.

(** What a successful update did. *)
Lemma update_inv L a (f : Account → Outcome E Account) L' :
  Ledger.update L a f = Ok L' → ∃ x, f (L a) = Ok x ∧ L' = Ledger.set L a x.
Proof. unfold Ledger.update. intros H. outcome_inv. eauto. Qed.

Lemma set_wf L a x : Ledger.wf L → Ledger.account_wf x → Ledger.wf (Ledger.set L a x).
Proof. intros HL Hx a'. unfold Ledger.set. by case_decide. Qed.

Lemma update_wf L a (f : Account → Outcome E Account) L' :
  Ledger.wf L → (∀ x y, Ledger.account_wf x → f x = Ok y → Ledger.account_wf y) →
  Ledger.update L a f = Ok L' → Ledger.wf L'.
Proof. intros HL Hf (x & Hx & ->)%update_inv. by eapply set_wf, Hf. Qed.

Lemma credit_wf v x y : Ledger.account_wf x → Ledger.credit (E:=E) v x = Ok y → Ledger.account_wf y.
Proof.
  intros (Hb&Hn&Hl) Hf. unfold Ledger.credit in Hf. outcome_inv. split_and!; simpl; [|done..].
  by eapply arith_Ok_in; [|done].
Qed.
Lemma debit_wf v x y : Ledger.account_wf x → Ledger.debit (E:=E) v x = Ok y → Ledger.account_wf y.
Proof.
  intros (Hb&Hn&Hl) Hf. unfold Ledger.debit in Hf. outcome_inv. split_and!; simpl; [|done..].
  by eapply arith_Ok_in; [|done].
Qed.
Lemma bump_wf x y : Ledger.account_wf x → Ledger.bump (E:=E) x = Ok y → Ledger.account_wf y.
Proof.
  intros (Hb&Hn&Hl) Hf. unfold Ledger.bump in Hf. outcome_inv. split_and!; simpl; [done| |done].
  by eapply arith_Ok_in; [|done].
Qed.

Lemma lock_wf v x y : Ledger.account_wf x → Ledger.lock (E:=E) v x = Ok y → Ledger.account_wf y.
Proof.
  intros (Hb&Hn&Hl) Hf. unfold Ledger.lock in Hf. outcome_inv. split_and!; simpl; [|done|];
    by eapply arith_Ok_in; [|done].
Qed.

Lemma credit_in v x :
  in_u 128 (acc_balance x + v) →
  Ledger.credit (E:=E) v x = Ok (mkAccount (acc_balance x + v) (acc_nonce x) (acc_locked x)).
Proof. intros. unfold Ledger.credit. by arith_step. Qed.
Lemma debit_in v x :
  in_u 128 (acc_balance x - v) →
  Ledger.debit (E:=E) v x = Ok (mkAccount (acc_balance x - v) (acc_nonce x) (acc_locked x)).
Proof. intros. unfold Ledger.debit. by arith_step. Qed.
Lemma debit_wrap v x :
  P = Release → 0 ≤ v < 2 ^ 128 → 0 ≤ acc_balance x < v →
  Ledger.debit (E:=E) v x =
    Ok (mkAccount (acc_balance x - v + 2 ^ 128) (acc_nonce x) (acc_locked x)).
Proof.
  intros HP Hv Hx. unfold Ledger.debit, sub_u.
  by rewrite (arith_wrap _ _ (acc_balance x - v + 2 ^ 128)) by (unfold in_u; auto with lia).
Qed.
Lemma lock_in v x :
  in_u 128 (acc_balance x - v) → in_u 128 (acc_locked x + v) →
  Ledger.lock (E:=E) v x = Ok (mkAccount (acc_balance x - v) (acc_nonce x) (acc_locked x + v)).
Proof. intros. unfold Ledger.lock. by arith_step. Qed.
Lemma bump_in x :
  in_u 64 (acc_nonce x + 1) →
  Ledger.bump (E:=E) x = Ok (mkAccount (acc_balance x) (acc_nonce x + 1) (acc_locked x)).
Proof. intros. unfold Ledger.bump. by arith_step. Qed.

(** The effect of a transfer the sender can pay and the receiver can hold. *)
Definition after_transfer L (from to : Address) (v : Z) : ledger :=
  let L1 := Ledger.set L from
    (mkAccount (acc_balance (L from) - v) (acc_nonce (L from)) (acc_locked (L from))) in
  Ledger.set L1 to
    (mkAccount (acc_balance (L1 to) + v) (acc_nonce (L1 to)) (acc_locked (L1 to))).

Lemma transfer_Ok L from to v :
  Ledger.wf L → 0 ≤ v ≤ acc_balance (L from) →
  (to ≠ from → in_u 128 (acc_balance (L to) + v)) →
  Ledger.transfer (E:=E) L from to v = Ok (after_transfer L from to v).
Proof.
  intros Hwf Hv Ht. unfold Ledger.transfer. rewrite decide_True by lia.
  destruct (Hwf from) as (Hb & _ & _). unfold in_u in Hb.
  unfold Ledger.update. rewrite debit_in by (unfold in_u; lia). simpl.
  rewrite credit_in; [done|].
  destruct (decide (to = from)) as [->|Hne].
  - rewrite set_eq. simpl. unfold in_u. lia.
  - rewrite set_ne by done. auto.
Qed.

Lemma after_transfer_total q L from to v l :
  (∀ x n, q (mkAccount (acc_balance x + n) (acc_nonce x) (acc_locked x)) = q x + n) →
  NoDup l → from ∈ l → to ∈ l →
  Ledger.total q (after_transfer L from to v) l = Ledger.total q L l.
Proof.
  intros Hq Hl Hf Ht. unfold after_transfer.
  rewrite !total_set by done. rewrite !Hq.
  replace (acc_balance (L from) - v) with (acc_balance (L from) + - v) by lia.
  rewrite Hq. lia.
Qed.
Lemma after_transfer_wf L from to v :
  Ledger.wf L → in_u 128 v → v ≤ acc_balance (L from) →
  (to ≠ from → in_u 128 (acc_balance (L to) + v)) →
  Ledger.wf (after_transfer L from to v).
Proof.
  intros Hwf Hv Hle Hr. destruct (Hwf from) as (Hb & Hn & Hl). unfold in_u in Hb, Hv.
  unfold after_transfer. apply set_wf; [apply set_wf; [done|]|].
  { split_and!; simpl; auto with ori. }
  destruct (decide (to = from)) as [->|Hne].
  - rewrite set_eq; simpl. split_and!; simpl; auto with ori.
  - rewrite set_ne by done. destruct (Hwf to) as (? & ? & ?). split_and!; simpl; auto.
Qed.

Lemma after_transfer_other L from to v a :
  a ≠ from → a ≠ to → after_transfer L from to v a = L a.
Proof. intros. unfold after_transfer. by rewrite !set_ne. Qed.

Lemma after_transfer_moved L from to v :
  to ≠ from →
  acc_balance (after_transfer L from to v from) = acc_balance (L from) - v ∧
  acc_balance (after_transfer L from to v to) = acc_balance (L to) + v.
Proof.
  intros Hne. unfold after_transfer. rewrite set_eq, set_ne by done.
  rewrite set_eq, set_ne by done. done.
Qed.

Lemma after_transfer_nonce L from to v a :
  acc_nonce (after_transfer L from to v a) = acc_nonce (L a).
Proof. unfold after_transfer, Ledger.set. repeat (case_decide; simpl; subst); done. Qed.
End LedgerFacts.
End LedgerFacts.

(** ** Properties of the operations *)
Section BalanceProperties.
Context {S : Type} `{P : Profile, SL : StorageLaws S, HB : Blake2b, AK : !AddressKeys}.
Context `{BA : BincodeLaws Account, BT : BincodeLaws MsgTransfer} {E : Type}.
Implicit Types (b : Balance S) (L : ledger) (a : Address).

(** A transfer never fails when the receiver can hold the amount: it moves
    the amount between the two accounts if the sender has it and does
    nothing otherwise; the total balance of any set of accounts that has
    both is conserved (also for a transfer to oneself), no other account
    changes, and every account stays in range. *)
Theorem transfer_conserves_supply b L from to v :
  ledger_rep b L → Ledger.wf L → addr_wf from → addr_wf to → in_u 128 v →
  (to ≠ from → in_u 128 (acc_balance (L to) + v)) →
  ∃ b' L', Balance.transfer (E:=E) b from to v = Ok b' ∧ ledger_rep b' L' ∧ Ledger.wf L' ∧
    (∀ l, NoDup l → from ∈ l → to ∈ l →
          Ledger.total acc_balance L' l = Ledger.total acc_balance L l) ∧
    (∀ a, a ≠ from → a ≠ to → L' a = L a) ∧
    (v ≤ acc_balance (L from) → to ≠ from →
     acc_balance (L' from) = acc_balance (L from) - v ∧
     acc_balance (L' to) = acc_balance (L to) + v) ∧
    (acc_balance (L from) < v → b' = b ∧ L' = L).
Proof.
  intros HL Hwf Hf Ht Hv Hr.
  pose proof (transfer_refines_spec (E:=E) b L from to v HL Hf Ht) as Hsim.
  destruct (decide (v ≤ acc_balance (L from))) as [Hle|Hgt].
  - rewrite LedgerFacts.transfer_Ok in Hsim by (unfold in_u in Hv; auto with lia).
    destruct (outcome_rel_Ok_inv_r _ _ _ _ Hsim eq_refl) as (b' & Hb' & HL').
    exists b', (LedgerFacts.after_transfer L from to v).
    split_and!; [done|done|by apply LedgerFacts.after_transfer_wf| | | |lia].
    + intros l. by apply LedgerFacts.after_transfer_total.
    + intros a. by apply LedgerFacts.after_transfer_other.
    + intros _. by apply LedgerFacts.after_transfer_moved.
  - exists b, L. unfold Balance.transfer. rewrite balance_rep with (L:=L) by done.
    rewrite bind_Ok, decide_False by lia. split_and!; auto; lia.
Qed.

(** Locking moves funds from the available to the locked balance of one
    account, and unlocking the same amount gives the ledger back. *)
Theorem lock_unlock_roundtrip b L a v :
  ledger_rep b L → Ledger.wf L → addr_wf a →
  0 ≤ v ≤ acc_balance (L a) → in_u 128 (acc_locked (L a) + v) →
  ∃ b1 b2 x, Balance.lock_balance (E:=E) b a v = Ok b1 ∧
    ledger_rep b1 (Ledger.set L a x) ∧
    acc_balance x = acc_balance (L a) - v ∧ acc_locked x = acc_locked (L a) + v ∧
    Ledger.funds x = Ledger.funds (L a) ∧
    Balance.unlock_balance (E:=E) b1 a v = Ok b2 ∧ ledger_rep b2 L.
Proof.
  intros HL Hwf Ha Hv Hl. destruct (Hwf a) as (Hb & Hn & Hl'). unfold in_u in Hb, Hl'.
  pose proof (lock_balance_refines (E:=E) b L a v HL Ha) as Hsim.
  unfold Ledger.update in Hsim. rewrite LedgerFacts.lock_in in Hsim by auto with ori.
  destruct (outcome_rel_Ok_inv_r _ _ _ _ Hsim eq_refl) as (b1 & Hb1 & HL1).
  pose proof (unlock_balance_refines (E:=E) b1 _ a v HL1 Ha) as Hsim2.
  unfold Ledger.update, Ledger.unlock in Hsim2. rewrite LedgerFacts.set_eq in Hsim2.
  unfold add_u, sub_u in Hsim2. cbn [acc_balance acc_locked acc_nonce] in Hsim2.
  rewrite !arith_in in Hsim2 by auto with ori.
  destruct (outcome_rel_Ok_inv_r _ _ _ _ Hsim2 eq_refl) as (b2 & Hb2 & HL2).
  exists b1, b2. eexists. split_and!; [done|done|done|done| |done|].
  - unfold Ledger.funds; simpl. lia.
  - eapply ledger_rep_ext; [done|]. intros a'. unfold Ledger.set.
    case_decide; [subst|done]. destruct (L a) as [x y z]; simpl. f_equal; lia.
Qed.

(** Crediting past the width of the balance panics with overflow checks and
    wraps around to the low bits without them. *)
Theorem add_balance_overflow b L a v :
  ledger_rep b L → Ledger.wf L → addr_wf a → in_u 128 v →
  2 ^ 128 ≤ acc_balance (L a) + v →
  (P = Dev → Balance.add_balance (E:=E) b a v = Panic) ∧
  (P = Release → ∃ b', Balance.add_balance (E:=E) b a v = Ok b' ∧
     Balance.balance (E:=E) b' a = Ok (acc_balance (L a) + v - 2 ^ 128)).
Proof.
  intros HL Hwf Ha Hv Hov. destruct (Hwf a) as (Hb & _ & _). unfold in_u in Hb, Hv.
  pose proof (add_balance_refines (E:=E) b L a v HL Ha) as Hsim.
  unfold Ledger.update, Ledger.credit, add_u in Hsim. split; intros HP.
  - rewrite arith_panic in Hsim by (done || unfold in_u; lia).
    by destruct (Balance.add_balance b a v).
  - rewrite (arith_wrap _ _ (acc_balance (L a) + v - 2 ^ 128)) in Hsim
      by (unfold in_u; auto with lia).
    destruct (outcome_rel_Ok_inv_r _ _ _ _ Hsim eq_refl) as (b' & Hb' & HL').
    exists b'. split; [done|]. by rewrite (balance_rep _ _ _ HL' Ha), LedgerFacts.set_eq.
Qed.
End BalanceProperties.

(** ** Worked examples: two funded accounts over a fresh state database *)
Lemma example_address_key a :
  addr_wf a →
  @Balance.address_key example_blake2b a = mkHash (replicate 12 32 ++ addr_bytes a).
Proof.
  intros [Hl Hb]. unfold Balance.address_key, Hash.to_slice, Hash.from_bytes, Address.as_slice.
  rewrite decide_True by lia. cbn [hash_bytes]. rewrite Hl. f_equal.
  pose proof (example_digest (addr_bytes a) [] Hl Hb (or_introl eq_refl)) as Hd. rewrite app_nil_r in Hd.
  exact Hd.
Qed.
Lemma example_address_keys : @AddressKeys example_blake2b.
Proof.
  intros [a] [a'] Ha Ha'. rewrite !example_address_key by done.
  intros [= Heq]. simpl in Heq. by simplify_eq.
Qed.

Module Ex.
#[export] Existing Instance example_blake2b.
#[export] Existing Instance example_blake2b_laws.
#[export] Existing Instance example_address_keys.
#[export] Instance ex_bin_account : Bincode Account := example_bincode.
#[export] Instance ex_bin_account_laws : BincodeLaws Account := example_bincode_laws.
#[export] Instance ex_bin_transfer : Bincode MsgTransfer := example_bincode.
#[export] Instance ex_bin_transfer_laws : BincodeLaws MsgTransfer := example_bincode_laws.

Definition addr (n : Z) : Address := mkAddress (replicate 19 0 ++ [n mod 256]).
Definition b0 : Balance (StateDB MemoryKV ex_mem) := Balance.new ex_state.
Definition acc (n nonce : Z) : Account := mkAccount n nonce 0.
(** Account 1 holds 100000, account 2 holds 5. *)
Definition b2 := Balance.set_account (Balance.set_account b0 (addr 1) (acc 100000 0))
                   (addr 2) (acc 5 0).
Definition L2 := Ledger.set (Ledger.set Ledger.empty (addr 1) (acc 100000 0)) (addr 2) (acc 5 0).

Lemma addr_ok n : addr_wf (addr n).
Proof.
  split; [done|]. simpl. unfold is_byte. repeat constructor; try lia.
  1-2: pose proof (Z.mod_pos_bound n 256); lia.
Qed.
Lemma b0_rep : ledger_rep b0 Ledger.empty.
Proof.
  exists ∅. split; [exact ex_state_rep|]. intros a _.
  unfold stored_account. by rewrite lookup_empty.
Qed.
Lemma b2_rep : ledger_rep b2 L2.
Proof. do 2 (apply set_account_rep; [|apply addr_ok]). apply b0_rep. Qed.
Lemma L2_wf : Ledger.wf L2.
Proof.
  do 2 (apply LedgerFacts.set_wf; [|by vm_compute]). intros a. by vm_compute.
Qed.
#[export] Hint Resolve addr_ok b0_rep b2_rep L2_wf : ori.
End Ex.

Section BalanceWitnesses.
Import Ex.
#[local] Existing Instance Dev.

Lemma transfer_conserves_supply_witness :
  ∃ b' L', Balance.transfer (E:=unit) b2 (addr 1) (addr 2) 30 = Ok b' ∧
    acc_balance (L' (addr 2)) = 35 ∧ Balance.balance (E:=unit) b' (addr 2) = Ok 35.
Proof.
  destruct (transfer_conserves_supply (E:=unit) b2 L2 (addr 1) (addr 2) 30)
    as (b' & L' & Hb & HL & _ & _ & _ & Hm & _); auto with ori; [done|].
  destruct Hm as [_ Hm]; [by vm_compute|done|].
  exists b', L'. split_and!; [done|done|].
  rewrite (balance_rep _ _ _ HL) by auto with ori. by rewrite Hm.
Defined.

Lemma lock_unlock_roundtrip_witness :
  ∃ b1 b3 x, Balance.lock_balance (E:=unit) b2 (addr 1) 70 = Ok b1 ∧
    acc_locked x = 70 ∧ Balance.unlock_balance (E:=unit) b1 (addr 1) 70 = Ok b3.
Proof.
  destruct (lock_unlock_roundtrip (E:=unit) b2 L2 (addr 1) 70)
    as (b1 & b3 & x & H1 & _ & _ & H2 & _ & H3 & _); auto with ori; [by vm_compute..|].
  exists b1, b3, x. split_and!; [done|by rewrite H2|done].
Defined.

Lemma add_balance_overflow_witness :
  Balance.add_balance (E:=unit) b2 (addr 1) (2 ^ 128 - 1) = Panic.
Proof.
  destruct (add_balance_overflow (E:=unit) b2 L2 (addr 1) (2 ^ 128 - 1)) as [Hd _];
    [auto with ori..|by vm_compute|by vm_compute|]. by apply Hd.
Defined.
End BalanceWitnesses.
