(* ===== verification/Block.v ===== *)
(** * Block: headers, blocks and their hashes (src/core/src/block.rs) *)
From S2P Require Import Prelude Hashing Types Codec Keys Transaction.

(** [VRFProof]: two 32-byte halves. *)
Record VRFProof : Type := mkVRFProof { vrf_0 : bytes; vrf_1 : bytes }.
#[global] Instance VRFProof_eq_dec : EqDecision VRFProof.
Proof. solve_decision. Defined.
#[global] Program Instance VRFProof_countable : Countable VRFProof :=
  inj_countable' (λ p, (vrf_0 p, vrf_1 p)) (λ p, mkVRFProof p.1 p.2) _.
Next Obligation. by intros []. Qed.

Module VRFProof.
(** The argument is a 64-byte array. *)
Definition new (proof : bytes) : VRFProof := mkVRFProof (take 32 proof) (drop 32 proof).
Definition to_bytes (p : VRFProof) : bytes := vrf_0 p ++ vrf_1 p.
End VRFProof.

Record Header : Type := mkHeader {
  height : Z;
  parent_hash : Hash;
  slot : Z;
  vrf_output : bytes;
  vrf_proof : VRFProof;
  tx_root : Hash;
  sign_root : Hash;
  hdr_state_root : Hash;
  time : Z;
}.
#[global] Instance Header_eq_dec : EqDecision Header.
Proof. solve_decision. Defined.
#[global] Instance Header_countable : Countable Header.
Proof.
  refine (inj_countable
    (λ h, [[height h; slot h; time h]; hash_bytes (parent_hash h); vrf_output h;
           vrf_0 (vrf_proof h); vrf_1 (vrf_proof h); hash_bytes (tx_root h);
           hash_bytes (sign_root h); hash_bytes (hdr_state_root h)])
    (λ l, match l with
          | [[a; c; j]; b; d; e; e'; f; g; i] =>
              Some (mkHeader a (mkHash b) c d (mkVRFProof e e') (mkHash f) (mkHash g) (mkHash i) j)
          | _ => None
          end) _).
  intros h. destruct h as [? a ? ? b c d e ?]. by destruct a, b, c, d, e.
Defined.

Definition Header_default : Header :=
  mkHeader 0 (mkHash (replicate 32 0)) 0 (replicate 32 0) (VRFProof.new (replicate 64 0))
    (mkHash (replicate 32 0)) (mkHash (replicate 32 0)) (mkHash (replicate 32 0)) 0.

Module Header.
Definition hash `{Blake2b, Bincode Header} (h : Header) : Hash :=
  mkHash (blake2b_256 (serialize h)).
End Header.

Record VerificationItem : Type := mkVerificationItem { msg : Hash; signs : SignatureInfo }.
#[global] Instance VerificationItem_eq_dec : EqDecision VerificationItem.
Proof. solve_decision. Defined.
#[global] Program Instance VerificationItem_countable : Countable VerificationItem :=
  inj_countable' (λ p, (msg p, signs p)) (λ p, mkVerificationItem p.1 p.2) _.
Next Obligation. by intros []. Qed.

Module VerificationItem.
Definition to_msg (i : VerificationItem) : bytes := hash_bytes (msg i).
Definition new (m : Hash) (s : SignatureInfo) : VerificationItem := mkVerificationItem m s.
End VerificationItem.

(** [BlockProof(pub [u8;32], pub [u8;32], pub u8)]: a key and its type. *)
Record BlockProof : Type := mkBlockProof { proof_0 : bytes; proof_1 : bytes; proof_2 : Z }.
#[global] Instance BlockProof_eq_dec : EqDecision BlockProof.
Proof. solve_decision. Defined.
#[global] Program Instance BlockProof_countable : Countable BlockProof :=
  inj_countable' (λ p, (proof_0 p, proof_1 p, proof_2 p)) (λ p, mkBlockProof p.1.1 p.1.2 p.2) _.
Next Obligation. by intros []. Qed.

Module BlockProof.
(** The slices [pk[0..32]] and [pk[32..64]] panic on a short key. *)
Definition new {E} (t : Z) (pk : bytes) : Outcome E BlockProof :=
  if decide (t = 0) then
    o1 ← slice_to 32 pk;
    mret (mkBlockProof o1 (replicate 32 0) t)
  else
    o1 ← slice_to 32 pk;
    both ← slice_to 64 pk;
    mret (mkBlockProof o1 (drop 32 both) t).
(** The buffer filled from the key, and the type. *)
Definition get_pk (p : BlockProof) (pk : bytes) : bytes * Z :=
  if decide (proof_2 p = 0) then (proof_0 p ++ drop 32 pk, proof_2 p)
  else (proof_0 p ++ proof_1 p, proof_2 p).
Definition to_address `{Blake2b} {E} (p : BlockProof) : Outcome E Address :=
  if decide (proof_2 p = 0) then
    pk ← Pubkey.from_bytes (proof_0 p);
    mret (Address.from_pubkey (pk_inner pk))
  else Ok (mkAddress (replicate 20 0)).
End BlockProof.

Definition get_hash_from_txs `{Blake2b, Bincode (list Transaction)} (txs : list Transaction) : Hash :=
  mkHash (blake2b_256 (serialize txs)).
Definition get_hash_from_signs `{Blake2b, Bincode (list VerificationItem)}
    (signs : list VerificationItem) : Hash :=
  mkHash (blake2b_256 (serialize signs)).

Record Block : Type := mkBlock {
  header : Header;
  block_signs : list VerificationItem;
  txs : list Transaction;
  proofs : list BlockProof;
}.
#[global] Instance Block_eq_dec : EqDecision Block.
Proof. solve_decision. Defined.
#[global] Program Instance Block_countable : Countable Block :=
  inj_countable' (λ p, (header p, block_signs p, txs p, proofs p))
    (λ '(a, b, c, d), mkBlock a b c d) _.
Next Obligation. by intros []. Qed.
Definition Block_default : Block := mkBlock Header_default [] [] [].

Definition set_header_state_root (h : Header) (r : Hash) : Header :=
  mkHeader (height h) (parent_hash h) (slot h) (vrf_output h) (vrf_proof h) (tx_root h)
    (sign_root h) r (time h).
Definition set_header_sign_root (h : Header) (r : Hash) : Header :=
  mkHeader (height h) (parent_hash h) (slot h) (vrf_output h) (vrf_proof h) (tx_root h)
    r (hdr_state_root h) (time h).
Definition set_header_tx_root (h : Header) (r : Hash) : Header :=
  mkHeader (height h) (parent_hash h) (slot h) (vrf_output h) (vrf_proof h) r
    (sign_root h) (hdr_state_root h) (time h).

Module Block.
Section Block.
Context `{Blake2b, Bincode Header, Bincode (list Transaction), Bincode (list VerificationItem)}.
Implicit Types (b : Block).

Definition new (h : Header) (t : list Transaction) (s : list VerificationItem)
    (p : list BlockProof) : Block :=
  let h := set_header_tx_root h (get_hash_from_txs t) in
  let h := set_header_sign_root h (get_hash_from_signs s) in
  mkBlock h s t p.
Definition set_sign_hash b (r : Hash) : Block :=
  mkBlock (set_header_sign_root (header b) r) (block_signs b) (txs b) (proofs b).
Definition set_state_root b (r : Hash) : Block :=
  mkBlock (set_header_state_root (header b) r) (block_signs b) (txs b) (proofs b).
Definition block_height b : Z := height (header b).
Definition hash b : Hash := Header.hash (header b).
Definition get_hash b : Hash := Header.hash (header b).
Definition state_root b : Hash := hdr_state_root (header b).
Definition add_proof b (p : BlockProof) : Block :=
  mkBlock (header b) (block_signs b) (txs b) (proofs b ++ [p]).
Definition proof_one b : option BlockProof := proofs b !! 0%nat.
Definition get_proofs b : list BlockProof := proofs b.
Definition add_verify_item b (i : VerificationItem) : Block :=
  mkBlock (header b) (block_signs b ++ [i]) (txs b) (proofs b).
Definition get_signs b : list VerificationItem := block_signs b.
Definition sign_one b : option VerificationItem := block_signs b !! 0%nat.
Definition get_txs b : list Transaction := txs b.
End Block.
End Block.

Definition is_equal_hash (hash1 hash2 : option Hash) : bool :=
  match hash1, hash2 with
  | Some v, Some v2 => bool_decide (v = v2)
  | _, _ => false
  end.

(** ** Facts *)
Lemma vrf_proof_roundtrip p : VRFProof.to_bytes (VRFProof.new p) = p.
Proof. apply take_drop. Qed.

(** A typed key of the right length is read back from its proof. *)
Lemma block_proof_roundtrip {E} t pk :
  (t = 0 → length pk = 32%nat) → (t ≠ 0 → length pk = 64%nat) →
  ∃ p, BlockProof.new (E:=E) t pk = Ok p ∧
       BlockProof.get_pk p (replicate 64 0) =
         (if decide (t = 0) then pk ++ replicate 32 0 else pk, t).
Proof.
  intros H0 H1. unfold BlockProof.new, slice_to. case_decide as Ht.
  - specialize (H0 Ht). rewrite decide_True by lia. eexists; split; [done|].
    unfold BlockProof.get_pk. cbn -[replicate take drop]. rewrite decide_True by done.
    by rewrite take_ge by lia.
  - specialize (H1 Ht). rewrite !decide_True by lia. eexists; split; [done|].
    unfold BlockProof.get_pk. cbn -[replicate take drop]. rewrite decide_False by done.
    by rewrite (take_ge _ 64), take_drop by lia.
Qed.

Lemma header_hash_wf `{Blake2bLaws, Bincode Header} h : hash_wf (Header.hash h).
Proof. apply length_blake2b_256. Qed.

(** [is_equal_hash] is equality of two present hashes. *)
Lemma is_equal_hash_spec a b : is_equal_hash a b = true ↔ ∃ h, a = Some h ∧ b = Some h.
Proof.
  destruct a, b; simpl; rewrite ?bool_decide_eq_true; naive_solver.
Qed.
