(* ===== verification/Executor.v ===== *)
(** * Executor: running the transactions of a block (src/executor/src/lib.rs)

    [Executor] checks a transfer's signature, nonce and funds, takes the fee,
    advances the nonce and moves the value; a block's transactions run in
    order, each paying the miner, and the state is committed once.  The
    operations are shown to refine [LedgerExec] on abstract ledgers. *)
From S2P Require Import Prelude Hashing Types Codec Keys Store State StateExample.
From S2P Require Import Transaction Storage Balance Block.

Definition transfer_fee : Z := 10000.

Module Executor.
Section Executor.
Context {S : Type} `{P : Profile, Storage S, Blake2b, Ed25519}.
Context `{Bincode Account, Bincode MsgTransfer, Bincode TxHashType}.
Implicit Types (state : Balance S) (tx : Transaction).

Definition verify_tx_sign tx : Outcome InternalErrorKind unit := Transaction.verify_sign tx.

(** Nothing is changed before the checks have passed. *)
Definition exc_transfer_tx tx state : Outcome InternalErrorKind (Balance S * Hash) :=
  let from_addr := Transaction.get_from_address tx in
  to_addr ← Transaction.get_to_address tx;
  _ ← verify_tx_sign tx;
  from_account ← Balance.get_account state from_addr;
  next_nonce ← add_u 64 (Account.get_nonce from_account) 1;
  if decide (Transaction.get_nonce tx ≠ next_nonce) then Err InvalidTxNonce else
  value ← Transaction.get_value tx;
  needed ← add_u 128 value transfer_fee;
  if decide (needed > Account.get_balance from_account) then Err BalanceNotEnough else
  state ← Balance.sub_balance state from_addr transfer_fee;
  state ← Balance.inc_nonce state from_addr;
  value ← Transaction.get_value tx;
  state ← Balance.transfer state from_addr to_addr value;
  mret (state, Hash_default).

(** The loop over the transactions.  On an error the state is left with the
    earlier transactions applied; every caller passes a temporary and drops
    it, so the error is returned alone. *)
Fixpoint exc_txs_loop (l : list Transaction) state (miner_addr : Address)
    : Outcome InternalErrorKind (Balance S) :=
  match l with
  | [] => Ok state
  | tx :: l =>
      r ← exc_transfer_tx tx state;
      state ← Balance.add_balance r.1 miner_addr transfer_fee;
      exc_txs_loop l state miner_addr
  end.

Definition exc_txs_in_block (b : Block) state (miner_addr : Address)
    : Outcome InternalErrorKind (Balance S * Hash) :=
  state ← exc_txs_loop (Block.get_txs b) state miner_addr;
  Balance.commit state.

Definition exc_contract_tx : Outcome InternalErrorKind unit := Ok tt.
End Executor.
End Executor.

(** ** The abstract execution *)
Module LedgerExec.
Section LedgerExec.
Context `{P : Profile, Blake2b, Ed25519, Bincode MsgTransfer, Bincode TxHashType}.

Definition exec_tx (tx : Transaction) (L : ledger) : Outcome InternalErrorKind ledger :=
  let from := tx_sender tx in
  m ← unwrap (deserialize (tx_data tx));
  _ ← Transaction.verify_sign tx;
  next ← add_u 64 (acc_nonce (L from)) 1;
  if decide (tx_nonce tx ≠ next) then Err InvalidTxNonce else
  needed ← add_u 128 (transfer_value m) transfer_fee;
  if decide (needed > acc_balance (L from)) then Err BalanceNotEnough else
  L ← Ledger.update L from (Ledger.debit transfer_fee);
  L ← Ledger.update L from Ledger.bump;
  Ledger.transfer L from (receiver m) (transfer_value m).

Fixpoint exec_txs (l : list Transaction) (miner : Address) (L : ledger)
    : Outcome InternalErrorKind ledger :=
  match l with
  | [] => Ok L
  | tx :: l =>
      L ← exec_tx tx L;
      L ← Ledger.update L miner (Ledger.credit transfer_fee);
      exec_txs l miner L
  end.
End LedgerExec.
End LedgerExec.

(** The addresses of a transfer are well-formed. *)
Definition tx_wf `{Bincode MsgTransfer} (tx : Transaction) : Prop :=
  addr_wf (tx_sender tx) ∧
  ∀ m, deserialize (tx_data tx) = Some m → addr_wf (receiver m) ∧ in_u 128 (transfer_value m).

Section ExecutorFacts.
Context {S : Type} `{P : Profile, SL : StorageLaws S, HB : Blake2b, AK : !AddressKeys, ED : Ed25519}.
Context `{BA : BincodeLaws Account, BT : Bincode MsgTransfer, BH : Bincode TxHashType}.
Implicit Types (b : Balance S) (L : ledger).

Lemma exc_transfer_tx_refines b L tx :
  ledger_rep b L → tx_wf tx →
  outcome_rel (λ r L', ledger_rep r.1 L') (Executor.exc_transfer_tx tx b)
    (LedgerExec.exec_tx tx L).
Proof.
  intros HL [Hs Hd]. unfold Executor.exc_transfer_tx, LedgerExec.exec_tx,
    Transaction.get_to_address, Transaction.get_value, Transaction.get_from_address,
    Transaction.get_nonce, Balance.get_account, Executor.verify_tx_sign,
    Account.get_nonce, Account.get_balance.
  destruct (deserialize (tx_data tx)) as [m|] eqn:Hm; simpl; [|done].
  destruct (Hd m eq_refl) as [Hr _].
  apply outcome_rel_bind_eq. intros _ _.
  rewrite load_account_rep with (L:=L) by done. rewrite bind_Ok.
  apply outcome_rel_bind_eq. intros next _. case_decide; [done|].
  apply outcome_rel_bind_eq. intros needed _. case_decide; [done|].
  eapply outcome_rel_bind; [by apply sub_balance_refines|]. intros b1 L1 HL1.
  eapply outcome_rel_bind; [by apply inc_nonce_refines|]. intros b2 L2 HL2.
  pose proof (transfer_refines_spec (E:=InternalErrorKind) b2 L2 (tx_sender tx)
    (receiver m) (transfer_value m) HL2 Hs Hr) as Ht.
  destruct (Balance.transfer b2 _ _ _), (Ledger.transfer L2 _ _ _); done.
Qed.

Lemma exc_transfer_tx_hash b tx r :
  Executor.exc_transfer_tx tx b = Ok r → r.2 = Hash_default.
Proof.
  unfold Executor.exc_transfer_tx. intros He.
  repeat (apply bind_Ok_inv in He as (? & ? & He) || (case_decide; [done|])).
  by injection He as <-.
Qed.

Lemma exc_txs_loop_refines l b L miner :
  ledger_rep b L → addr_wf miner → Forall tx_wf l →
  outcome_rel ledger_rep (Executor.exc_txs_loop l b miner) (LedgerExec.exec_txs l miner L).
Proof.
  intros HL Hm Hl. revert b L HL. induction Hl as [|tx l Htx _ IH]; intros b L HL; simpl; [done|].
  eapply outcome_rel_bind; [by apply exc_transfer_tx_refines|]. intros [b1 h] L1 HL1.
  eapply outcome_rel_bind; [by apply add_balance_refines|]. intros b2 L2 HL2.
  by apply IH.
Qed.

Lemma exc_txs_in_block_refines_spec blk b L miner :
  ledger_rep b L → addr_wf miner → Forall tx_wf (txs blk) →
  outcome_rel (λ r L', ledger_rep r.1 L' ∧ ledger_saved r.1 r.2 L')
    (Executor.exc_txs_in_block blk b miner) (LedgerExec.exec_txs (txs blk) miner L).
Proof.
  intros HL Hm Hl. unfold Executor.exc_txs_in_block, Block.get_txs.
  pose proof (exc_txs_loop_refines _ b L miner HL Hm Hl) as Hsim.
  destruct (Executor.exc_txs_loop _ _ _) as [b'|e|], (LedgerExec.exec_txs _ _ _); try done.
  simpl in *. destruct (commit_rep_spec (E:=InternalErrorKind) b' _ Hsim)
    as (b'' & r & -> & HL' & Hs). done.
Qed.
End ExecutorFacts.

(** ** Facts about the abstract execution *)
Section LedgerExecFacts.
Context `{P : Profile, HB : Blake2b, ED : Ed25519, BT : Bincode MsgTransfer, BH : Bincode TxHashType}.
Implicit Types (L : ledger) (tx : Transaction) (m : MsgTransfer).

(** The transaction is signed, carries the next nonce and the sender can pay
    the value and the fee. *)
Definition tx_valid L tx m : Prop :=
  deserialize (tx_data tx) = Some m ∧ Transaction.verify_sign tx = Ok tt ∧
  tx_nonce tx = acc_nonce (L (tx_sender tx)) + 1 ∧
  transfer_value m + transfer_fee ≤ acc_balance (L (tx_sender tx)).

(** The sender after the fee is taken and its nonce advanced. *)
Definition charge L tx : ledger :=
  let from := tx_sender tx in
  let L := Ledger.set L from (mkAccount (acc_balance (L from) - transfer_fee)
                                (acc_nonce (L from)) (acc_locked (L from))) in
  Ledger.set L from (mkAccount (acc_balance (L from)) (acc_nonce (L from) + 1)
                       (acc_locked (L from))).
(** The ledger after a valid transfer. *)
Definition after_tx L tx m : ledger :=
  LedgerFacts.after_transfer (charge L tx) (tx_sender tx) (receiver m) (transfer_value m).

Lemma charge_sender L tx :
  charge L tx (tx_sender tx) =
    mkAccount (acc_balance (L (tx_sender tx)) - transfer_fee)
      (acc_nonce (L (tx_sender tx)) + 1) (acc_locked (L (tx_sender tx))).
Proof. unfold charge. by rewrite !LedgerFacts.set_eq. Qed.
Lemma charge_other L tx a : a ≠ tx_sender tx → charge L tx a = L a.
Proof. intros. unfold charge. by rewrite !LedgerFacts.set_ne. Qed.

Lemma charge_wf L tx :
  Ledger.wf L → transfer_fee ≤ acc_balance (L (tx_sender tx)) →
  in_u 64 (acc_nonce (L (tx_sender tx)) + 1) → Ledger.wf (charge L tx).
Proof.
  intros Hwf Hfee Hn a. destruct (decide (a = tx_sender tx)) as [->|?].
  - rewrite charge_sender. destruct (Hwf (tx_sender tx)) as (Hb & _ & Hl).
    unfold in_u, transfer_fee in *. split_and!; simpl; auto with ori.
  - by rewrite charge_other.
Qed.

Lemma exec_charge L tx :
  Ledger.wf L → transfer_fee ≤ acc_balance (L (tx_sender tx)) →
  in_u 64 (acc_nonce (L (tx_sender tx)) + 1) →
  (L ← Ledger.update (E:=InternalErrorKind) L (tx_sender tx) (Ledger.debit transfer_fee);
   Ledger.update L (tx_sender tx) Ledger.bump) = Ok (charge L tx).
Proof.
  intros Hwf Hfee Hn. destruct (Hwf (tx_sender tx)) as (Hb & _ & _). unfold in_u in Hb.
  unfold Ledger.update, transfer_fee in *. rewrite LedgerFacts.debit_in by auto with ori. simpl.
  rewrite LedgerFacts.bump_in; [done|]. by rewrite LedgerFacts.set_eq.
Qed.

(** Past its checks, a transaction charges the sender and transfers. *)
Lemma exec_tx_charged L tx m :
  Ledger.wf L → tx_valid L tx m → in_u 128 (transfer_value m) → in_u 64 (tx_nonce tx) →
  LedgerExec.exec_tx tx L =
    Ledger.transfer (charge L tx) (tx_sender tx) (receiver m) (transfer_value m) ∧
  Ledger.wf (charge L tx).
Proof.
  intros Hwf (Hd & Hv & Hn & Hf) Hval Hn64. rewrite Hn in Hn64.
  destruct (Hwf (tx_sender tx)) as (Hb & _ & _).
  assert (transfer_fee ≤ acc_balance (L (tx_sender tx))) as Hfee by (unfold in_u in *; lia).
  split; [|by apply charge_wf].
  unfold LedgerExec.exec_tx, add_u. rewrite Hd, Hv, (arith_in 64) by done.
  cbn [unwrap]. rewrite !bind_Ok, decide_False by auto.
  rewrite (arith_in 128) by (unfold transfer_fee, in_u in *; lia).
  rewrite bind_Ok, decide_False by lia.
  pose proof (exec_charge L tx Hwf Hfee Hn64) as Hc.
  apply bind_Ok_inv in Hc as (L1 & -> & Hc). by rewrite bind_Ok, Hc.
Qed.

(** A valid transaction whose value the receiver can hold is executed. *)
Lemma exec_tx_valid L tx m :
  Ledger.wf L → tx_valid L tx m → in_u 128 (transfer_value m) → in_u 64 (tx_nonce tx) →
  (receiver m ≠ tx_sender tx → in_u 128 (acc_balance (L (receiver m)) + transfer_value m)) →
  LedgerExec.exec_tx tx L = Ok (after_tx L tx m) ∧ Ledger.wf (after_tx L tx m).
Proof.
  intros Hwf Hvalid Hval Hn64 Hr.
  destruct (exec_tx_charged L tx m Hwf Hvalid Hval Hn64) as [-> Hcwf].
  destruct Hvalid as (_ & _ & _ & Hf). unfold in_u in Hval.
  assert (receiver m ≠ tx_sender tx →
          in_u 128 (acc_balance (charge L tx (receiver m)) + transfer_value m)).
  { intros Hne. rewrite charge_other; auto. }
  split; [apply LedgerFacts.transfer_Ok|apply LedgerFacts.after_transfer_wf]; try done;
    rewrite charge_sender; simpl; auto with lia.
Qed.

(** With overflow checks, only valid transactions are executed. *)
Lemma exec_tx_inv L tx L' :
  P = Dev → Ledger.wf L →
  (∀ m, deserialize (tx_data tx) = Some m → in_u 128 (transfer_value m)) →
  LedgerExec.exec_tx tx L = Ok L' →
  ∃ m, tx_valid L tx m ∧ L' = after_tx L tx m ∧ Ledger.wf L' ∧ in_u 64 (tx_nonce tx).
Proof.
  intros HP Hwf Hval He. pose proof He as He'. unfold LedgerExec.exec_tx in He'.
  apply bind_Ok_inv in He' as (m & Hd%unwrap_Ok_inv & He').
  apply bind_Ok_inv in He' as ([] & Hv & He').
  apply bind_Ok_inv in He' as (next & [-> Hn]%arith_dev & He'); [|done].
  case_decide as Hn'; [done|]. rewrite <-Hn' in Hn.
  apply bind_Ok_inv in He' as (needed & [-> _]%arith_dev & He'); [|done].
  case_decide as Hf; [done|]. clear He'. specialize (Hval m Hd).
  assert (tx_valid L tx m) as Hvalid by (split_and!; [done..|lia]).
  exists m. cut (receiver m ≠ tx_sender tx →
          in_u 128 (acc_balance (L (receiver m)) + transfer_value m)).
  { intros Hr. destruct (exec_tx_valid L tx m Hwf Hvalid Hval Hn Hr) as [Hok Hwf'].
    rewrite He in Hok. by injection Hok as ->. }
  destruct (exec_tx_charged L tx m) as [He' _]; [done..|]. rewrite He' in He.
  intros Hne. unfold Ledger.transfer in He.
  rewrite decide_True in He by (rewrite charge_sender; simpl; lia).
  apply bind_Ok_inv in He as (L2 & (x & Hx & ->)%LedgerFacts.update_inv & He).
  apply LedgerFacts.update_inv in He as (y & Hy & _).
  rewrite LedgerFacts.set_ne, charge_other in Hy by done.
  by apply bind_Ok_inv in Hy as (z & [_ Hz]%arith_dev & _).
Qed.

(** What a valid transfer does to the ledger: the total falls by the fee,
    the sender's nonce advances by one and no other nonce changes. *)
Lemma after_tx_total L tx m l :
  NoDup l → tx_sender tx ∈ l → receiver m ∈ l →
  Ledger.total acc_balance (after_tx L tx m) l = Ledger.total acc_balance L l - transfer_fee.
Proof.
  intros Hl Hs Hr. unfold after_tx.
  rewrite LedgerFacts.after_transfer_total by done.
  unfold charge. rewrite !LedgerFacts.total_set by done.
  rewrite LedgerFacts.set_eq. simpl. lia.
Qed.

Lemma after_tx_nonce L tx m a :
  acc_nonce (after_tx L tx m a) =
    acc_nonce (L a) + (if decide (a = tx_sender tx) then 1 else 0).
Proof.
  unfold after_tx. rewrite LedgerFacts.after_transfer_nonce.
  case_decide; [subst; by rewrite charge_sender|rewrite charge_other by done; lia].
Qed.

(** The overflow of the sum of value and fee: a panic with overflow checks; without them
    the sum comes out as [k], and a sender who has that much but not the fee is charged
    below zero and then credited to the receiver. *)
Section Overflow.
Context (L : ledger) (tx : Transaction) (m : MsgTransfer).
Abbreviation from := (tx_sender tx).
Abbreviation k := (transfer_value m + transfer_fee - 2 ^ 128).
Context (Hwf : Ledger.wf L) (Hd : deserialize (tx_data tx) = Some m) (Hv : Transaction.verify_sign tx = Ok tt).
Context (Hn64 : in_u 64 (tx_nonce tx)) (Hn : tx_nonce tx = acc_nonce (L from) + 1).
Context (Hval : in_u 128 (transfer_value m)) (Hover : 2 ^ 128 ≤ transfer_value m + transfer_fee).

Lemma exec_tx_overflow_dev : P = Dev → LedgerExec.exec_tx tx L = Panic.
Proof using Hd Hv Hn64 Hn Hover.
  intros HP. unfold LedgerExec.exec_tx, add_u. rewrite Hd, Hv, <-Hn, (arith_in 64) by done. cbn [unwrap].
  rewrite !bind_Ok, decide_False by auto. by rewrite arith_panic by (done || unfold in_u; lia).
Qed.
Lemma exec_tx_overflow_release :
  P = Release →
  LedgerExec.exec_tx tx L =
    if decide (k > acc_balance (L from)) then Err BalanceNotEnough else
    L ← Ledger.update L from (Ledger.debit transfer_fee);
    L ← Ledger.update L from Ledger.bump;
    Ledger.transfer L from (receiver m) (transfer_value m).
Proof using All.
  clear Hwf. intros HP. unfold LedgerExec.exec_tx, add_u. rewrite Hd, Hv, <-Hn, (arith_in 64) by done. cbn [unwrap].
  rewrite !bind_Ok, decide_False by auto.
  by rewrite (arith_wrap 128 _ k) by (unfold in_u, transfer_fee in *; auto with lia).
Qed.
(** A sender who can pay the fee pays it, and nothing is transferred. *)
Lemma exec_tx_overflow_funded :
  P = Release → transfer_fee ≤ acc_balance (L from) → LedgerExec.exec_tx tx L = Ok (charge L tx).
Proof using All.
  intros HP Hfee. destruct (Hwf from) as (Hb & _ & _). rewrite exec_tx_overflow_release by done.
  rewrite decide_False by (unfold in_u, transfer_fee in *; lia). rewrite Hn in Hn64.
  pose proof (exec_charge L tx Hwf Hfee Hn64) as Hc. apply bind_Ok_inv in Hc as (L1 & -> & Hc). rewrite bind_Ok, Hc, bind_Ok.
  unfold Ledger.transfer. rewrite decide_False; [done|]. rewrite charge_sender. simpl. unfold in_u in Hb. lia.
Qed.
(** A sender who cannot makes money. *)
Lemma exec_tx_overflow_mints :
  P = Release → k ≤ acc_balance (L from) < transfer_fee → receiver m ≠ from →
  in_u 128 (acc_balance (L (receiver m)) + transfer_value m) →
  ∃ L', LedgerExec.exec_tx tx L = Ok L' ∧ acc_balance (L' from) = acc_balance (L from) - k ∧
    acc_balance (L' (receiver m)) = acc_balance (L (receiver m)) + transfer_value m.
Proof using All.
  intros HP [Hk Hfee] Hne Hr. destruct (Hwf from) as (Hb & _ & Hlock). unfold in_u in Hb. unfold transfer_fee in *.
  rewrite exec_tx_overflow_release, decide_False by (done || unfold transfer_fee; lia).
  unfold Ledger.update, transfer_fee. rewrite LedgerFacts.debit_wrap by (done || lia). simpl.
  rewrite LedgerFacts.bump_in by (by rewrite LedgerFacts.set_eq; simpl; rewrite <-Hn).
  rewrite LedgerFacts.set_eq. cbn [acc_balance acc_nonce acc_locked]. simpl.
  set (x := mkAccount _ (acc_nonce (L from)) _). set (y := mkAccount _ _ _).
  assert (Hx : Ledger.account_wf x) by (split_and!; simpl; [unfold in_u; lia|apply Hwf|done]).
  assert (Hy : Ledger.account_wf y) by (split_and!; simpl; [unfold in_u; lia|by rewrite <- Hn|done]).
  rewrite LedgerFacts.transfer_Ok; [|apply LedgerFacts.set_wf; [by apply LedgerFacts.set_wf|done]|rewrite LedgerFacts.set_eq; unfold in_u in Hval; simpl; lia|].
  2: { intros _. by rewrite !LedgerFacts.set_ne. }
  eexists; split; [done|].
  destruct (LedgerFacts.after_transfer_moved (Ledger.set (Ledger.set L from x) from y) from (receiver m) (transfer_value m) Hne) as [-> ->].
  rewrite LedgerFacts.set_eq, !LedgerFacts.set_ne by done. simpl. split; [lia|done].
Qed.
End Overflow.

(** In either profile, only a transaction with the next nonce is executed, and it advances
    the nonce: of two with the same nonce from one sender, the second is refused. *)
Lemma update_nonce {E} L a (f : Account → Outcome E Account) L' :
  (∀ x y, f x = Ok y → acc_nonce y = acc_nonce x) → Ledger.update L a f = Ok L' → ∀ a', acc_nonce (L' a') = acc_nonce (L a').
Proof.
  intros Hf (x & Hx & ->)%LedgerFacts.update_inv a'. unfold Ledger.set. case_decide; [subst a'; eauto|done].
Qed.
Lemma credit_nonce {E} v x y : Ledger.credit (E:=E) v x = Ok y → acc_nonce y = acc_nonce x.
Proof. intros (z & _ & [= <-])%bind_Ok_inv. done. Qed.
Lemma debit_nonce {E} v x y : Ledger.debit (E:=E) v x = Ok y → acc_nonce y = acc_nonce x.
Proof. intros (z & _ & [= <-])%bind_Ok_inv. done. Qed.
Lemma transfer_nonce {E} L from to v L' : Ledger.transfer (E:=E) L from to v = Ok L' → ∀ a, acc_nonce (L' a) = acc_nonce (L a).
Proof.
  unfold Ledger.transfer. case_decide; [|by intros [= <-]]. intros (L1 & H1 & H2)%bind_Ok_inv a.
  rewrite (update_nonce _ _ _ _ (credit_nonce v) H2). apply (update_nonce _ _ _ _ (debit_nonce v) H1).
Qed.
Lemma exec_tx_nonce L tx L' :
  LedgerExec.exec_tx tx L = Ok L' → in_u 64 (acc_nonce (L (tx_sender tx)) + 1) →
  tx_nonce tx = acc_nonce (L (tx_sender tx)) + 1 ∧ acc_nonce (L' (tx_sender tx)) = acc_nonce (L (tx_sender tx)) + 1.
Proof.
  intros He Hn. unfold LedgerExec.exec_tx in He.
  apply bind_Ok_inv in He as (m & _ & (? & _ & He)%bind_Ok_inv). unfold add_u in He.
  rewrite (arith_in 64) in He by exact Hn. rewrite bind_Ok in He.
  case_decide as Hne; [done|]. apply bind_Ok_inv in He as (needed & _ & He). case_decide; [done|].
  apply bind_Ok_inv in He as (L1 & H1 & (L2 & H2 & H3)%bind_Ok_inv). split; [exact Hne|].
  rewrite (transfer_nonce _ _ _ _ _ H3). pose proof (update_nonce _ _ _ _ (debit_nonce _) H1 (tx_sender tx)) as Hn1.
  apply LedgerFacts.update_inv in H2 as (y & Hx & ->). rewrite LedgerFacts.set_eq. rewrite LedgerFacts.bump_in in Hx by (by rewrite Hn1).
  injection Hx as <-. simpl. by rewrite Hn1.
Qed.
Lemma exec_txs_same_nonce L tx tx' l miner :
  tx_sender tx' = tx_sender tx → tx_nonce tx' = tx_nonce tx → in_u 64 (acc_nonce (L (tx_sender tx)) + 1) →
  is_ok (LedgerExec.exec_txs (tx :: tx' :: l) miner L) = false.
Proof.
  intros Hs Hn' Hn. destruct (LedgerExec.exec_txs (tx :: tx' :: l) miner L) as [L'|e|] eqn:He; [exfalso|done..]. cbn [LedgerExec.exec_txs] in He.
  apply bind_Ok_inv in He as (L1 & H1 & (L2 & H2 & (L3 & H3 & _)%bind_Ok_inv)%bind_Ok_inv).
  destruct (exec_tx_nonce _ _ _ H1 Hn) as [Ha Hb]. pose proof (update_nonce _ _ _ _ (credit_nonce _) H2 (tx_sender tx)) as Hc.
  assert (Hx : LedgerExec.exec_tx tx' L2 = Ok L3) by done. unfold LedgerExec.exec_tx in Hx.
  apply bind_Ok_inv in Hx as (m & _ & (? & _ & (next & Hnext & Hx)%bind_Ok_inv)%bind_Ok_inv). case_decide as Hne; [done|].
  rewrite Hs, Hc, Hb in Hnext. rewrite Hn', Ha in Hne. subst next.
  unfold add_u, arith in Hnext. case_decide; [injection Hnext; lia|]. destruct overflow_checks; [done|]. injection Hnext as Hm.
  unfold in_u in *. assert (acc_nonce (L (tx_sender tx)) + 1 + 1 = 2 ^ 64) as Heq by lia. rewrite Heq, Z_mod_same_full in Hm. lia.
Qed.

(** Number of transactions of a block that [a] sent. *)
Definition sent_by (a : Address) (l : list Transaction) : Z :=
  sum_list_Z (λ tx, if decide (a = tx_sender tx) then 1 else 0) l.

(** All accounts a list of transactions touches are in [l]. *)
Definition touches_only (ts : list Transaction) (l : list Address) : Prop :=
  Forall (λ tx, tx_sender tx ∈ l ∧
    ∀ m, deserialize (tx_data tx) = Some m → receiver m ∈ l) ts.

Lemma exec_txs_inv ts miner L L' l :
  P = Dev → Ledger.wf L → Forall tx_wf ts →
  NoDup l → miner ∈ l → touches_only ts l →
  LedgerExec.exec_txs ts miner L = Ok L' →
  Ledger.wf L' ∧
  Ledger.total acc_balance L' l = Ledger.total acc_balance L l ∧
  (∀ a, acc_nonce (L' a) = acc_nonce (L a) + sent_by a ts).
Proof.
  intros HP Hwf Hts Hl Hm. revert L Hwf.
  induction Hts as [|tx ts [Hs Hd] _ IH]; intros L Hwf Ht He; simpl in He.
  { simplify_eq. split_and!; [done..|]. intros a. unfold sent_by; simpl. lia. }
  apply Forall_cons_iff in Ht as [[Hts Htr] Ht].
  apply bind_Ok_inv in He as (L1 & He1 & He).
  apply exec_tx_inv in He1 as (m & Hv & -> & Hwf1 & _); [|done|done|intros m Hmd; by apply (Hd m Hmd)].
  apply bind_Ok_inv in He as (L2 & Hu & He). pose proof Hu as Hu'.
  apply LedgerFacts.update_inv in Hu' as (x & Hx & ->).
  destruct (IH _ (LedgerFacts.update_wf _ _ _ _ Hwf1
    (LedgerFacts.credit_wf transfer_fee) Hu) Ht He) as (Hwf' & Htot & Hn).
  unfold Ledger.credit in Hx. apply bind_Ok_inv in Hx as (z & [-> _]%arith_dev & [= <-]); [|done].
  split_and!; [done| |].
  - rewrite Htot, LedgerFacts.total_set by done. simpl.
    rewrite after_tx_total; [lia|done|done|]. destruct Hv as (Hdm & _). auto.
  - intros a. rewrite Hn. unfold sent_by; simpl. fold (sent_by a ts).
    unfold Ledger.set. case_decide; simpl; subst; rewrite after_tx_nonce; lia.
Qed.
End LedgerExecFacts.

(** ** Properties of the executor *)
Section ExecutorProperties.
Context {S : Type} `{P : Profile, SL : StorageLaws S, HB : Blake2b, AK : !AddressKeys, ED : Ed25519}.
Context `{BA : BincodeLaws Account, BT : Bincode MsgTransfer, BH : Bincode TxHashType}.
Implicit Types (b : Balance S) (L : ledger).

(** C1: Running a block's transactions over the state database and committing does what the
    abstract execution does to the ledger, with the same error or panic.  When it
    succeeds the new ledger is saved: the database holds it under the root that is
    returned, with no change left pending, and the root is recorded in the state. *)
Theorem exc_txs_in_block_refines blk b L miner :
  ledger_rep b L → addr_wf miner → Forall tx_wf (txs blk) →
  outcome_rel (λ r L', ledger_rep r.1 L' ∧ ledger_saved r.1 r.2 L')
    (Executor.exc_txs_in_block blk b miner) (LedgerExec.exec_txs (txs blk) miner L).
Proof. apply exc_txs_in_block_refines_spec. Qed.

(** C4: With overflow checks, a transaction that executes was signed, carried the
    sender's next nonce and was covered by the sender's balance with the fee;
    the value moves to the receiver, the total falls by exactly the fee,
    which the caller credits, and only the sender's nonce advances. *)
Theorem exc_transfer_tx_sound b L tx b' h :
  P = Dev → ledger_rep b L → Ledger.wf L → tx_wf tx →
  Executor.exc_transfer_tx tx b = Ok (b', h) →
  ∃ m, tx_valid L tx m ∧ ledger_rep b' (after_tx L tx m) ∧ Ledger.wf (after_tx L tx m) ∧
    (∀ l, NoDup l → tx_sender tx ∈ l → receiver m ∈ l →
       Ledger.total acc_balance (after_tx L tx m) l =
       Ledger.total acc_balance L l - transfer_fee) ∧
    (∀ a, acc_nonce (after_tx L tx m a) =
          acc_nonce (L a) + if decide (a = tx_sender tx) then 1 else 0) ∧
    (∀ a, a ≠ tx_sender tx → a ≠ receiver m → after_tx L tx m a = L a).
Proof.
  intros HP HL Hwf Htx He. pose proof (exc_transfer_tx_refines b L tx HL Htx) as Hsim.
  destruct (outcome_rel_Ok_inv _ _ _ _ Hsim He) as (L' & He' & HL').
  destruct (exec_tx_inv L tx L' HP Hwf) as (m & Hv & -> & Hwf' & _); [|done|].
  { intros m Hm. by apply Htx. }
  exists m. split_and!; auto using after_tx_total, after_tx_nonce.
  intros a ??. unfold after_tx.
  by rewrite LedgerFacts.after_transfer_other, charge_other.
Qed.

(** Every branch of the execution of a decodable transfer whose sums are in
    range: a bad signature, then a wrong nonce, then missing funds are
    reported in this order, and a valid transaction is executed. *)
Theorem exc_transfer_tx_branches b L tx m :
  ledger_rep b L → Ledger.wf L → tx_wf tx → deserialize (tx_data tx) = Some m →
  in_u 64 (acc_nonce (L (tx_sender tx)) + 1) → in_u 128 (transfer_value m + transfer_fee) →
  (receiver m ≠ tx_sender tx → in_u 128 (acc_balance (L (receiver m)) + transfer_value m)) →
  match Transaction.verify_sign tx with
  | Err e => Executor.exc_transfer_tx tx b = Err e
  | Panic => Executor.exc_transfer_tx tx b = Panic
  | Ok _ =>
      if decide (tx_nonce tx ≠ acc_nonce (L (tx_sender tx)) + 1)
      then Executor.exc_transfer_tx tx b = Err InvalidTxNonce
      else if decide (transfer_value m + transfer_fee > acc_balance (L (tx_sender tx)))
      then Executor.exc_transfer_tx tx b = Err BalanceNotEnough
      else ∃ b', Executor.exc_transfer_tx tx b = Ok (b', Hash_default) ∧
                 ledger_rep b' (after_tx L tx m)
  end.
Proof.
  intros HL Hwf Htx Hd Hn Hf Hr.
  destruct (Transaction.verify_sign tx) as [[]|e|] eqn:Hv; [|unfold Executor.exc_transfer_tx,
    Transaction.get_to_address, Executor.verify_tx_sign; by rewrite Hd, Hv..].
  pose proof (exc_transfer_tx_refines b L tx HL Htx) as Hsim.
  case_decide as Hn'; [|case_decide as Hf'].
  1,2: apply (outcome_rel_Err_inv_r _ _ _ _ Hsim); unfold LedgerExec.exec_tx, add_u;
    rewrite Hd, Hv, (arith_in 64) by done; cbn [unwrap]; rewrite !bind_Ok.
  - by rewrite decide_True.
  - rewrite decide_False by auto. by rewrite (arith_in 128), bind_Ok, decide_True.
  - destruct (exec_tx_valid L tx m Hwf) as [Hok _]; auto.
    + split_and!; auto; lia.
    + by apply Htx.
    + by rewrite Hn'.
    + destruct (outcome_rel_Ok_inv_r _ _ _ _ Hsim Hok) as ([b' h] & He & HL').
      exists b'. split; [|done]. pose proof (exc_transfer_tx_hash _ _ _ He). by simplify_eq/=.
Qed.

(** C2: With overflow checks, executing a block conserves the total balance of
    any set of accounts that has the block's senders, receivers and the
    miner (the fees go to the miner), advances every nonce by the number of
    the account's transactions, and returns the committed root. *)
Theorem exc_txs_in_block_conserves blk b L miner b' r l :
  P = Dev → ledger_rep b L → Ledger.wf L → addr_wf miner → Forall tx_wf (txs blk) →
  NoDup l → miner ∈ l → touches_only (txs blk) l →
  Executor.exc_txs_in_block blk b miner = Ok (b', r) →
  ∃ L', ledger_rep b' L' ∧ Ledger.wf L' ∧ r = st_root (treedb b') ∧
    Ledger.total acc_balance L' l = Ledger.total acc_balance L l ∧
    ∀ a, acc_nonce (L' a) = acc_nonce (L a) + sent_by a (txs blk).
Proof.
  intros HP HL Hwf Hm Htx Hl Hin Ht He.
  pose proof (exc_txs_in_block_refines_spec blk b L miner HL Hm Htx) as Hsim.
  destruct (outcome_rel_Ok_inv _ _ _ _ Hsim He) as (L' & He' & HL' & (_ & Hr & _)).
  destruct (exec_txs_inv _ _ _ _ l HP Hwf Htx Hl Hin Ht He') as (? & ? & ?).
  by exists L'.
Qed.

(** C5: The sum of value and fee is computed at the width of the balance.  Take a signed
    transaction with the right nonce whose sum overflows.  With overflow checks it
    panics.  Without them the sum wraps to a small amount [k], and what happens depends on
    the sender: one who has less than [k] is refused; one who can pay the fee pays it and
    advances its nonce, and nothing is transferred; one who has [k] but not the fee has
    the fee subtracted below zero, and the receiver, when it is another account that can
    hold the value, is credited with a value that the sender never had. *)
Theorem exc_transfer_tx_overflow b L tx m :
  ledger_rep b L → Ledger.wf L → tx_wf tx → deserialize (tx_data tx) = Some m →
  Transaction.verify_sign tx = Ok tt → in_u 64 (tx_nonce tx) →
  tx_nonce tx = acc_nonce (L (tx_sender tx)) + 1 → 2 ^ 128 ≤ transfer_value m + transfer_fee →
  let funds := acc_balance (L (tx_sender tx)) in
  let k := transfer_value m + transfer_fee - 2 ^ 128 in
  (P = Dev → Executor.exc_transfer_tx tx b = Panic) ∧
  (P = Release →
    (funds < k → Executor.exc_transfer_tx tx b = Err BalanceNotEnough) ∧
    (transfer_fee ≤ funds → ∃ b', Executor.exc_transfer_tx tx b = Ok (b', Hash_default) ∧ ledger_rep b' (charge L tx)) ∧
    (k ≤ funds < transfer_fee → receiver m ≠ tx_sender tx → in_u 128 (acc_balance (L (receiver m)) + transfer_value m) →
       ∃ b' L', Executor.exc_transfer_tx tx b = Ok (b', Hash_default) ∧ ledger_rep b' L' ∧
         acc_balance (L' (tx_sender tx)) = funds - k ∧
         acc_balance (L' (receiver m)) = acc_balance (L (receiver m)) + transfer_value m)).
Proof.
  intros HL Hwf Htx Hd Hv Hn64 Hn Hover. cbv zeta. pose proof (exc_transfer_tx_refines b L tx HL Htx) as Hsim.
  assert (Hval : in_u 128 (transfer_value m)) by (by apply Htx).
  assert (Hok : ∀ L', LedgerExec.exec_tx tx L = Ok L' → ∃ b', Executor.exc_transfer_tx tx b = Ok (b', Hash_default) ∧ ledger_rep b' L').
  { intros L' HL'. destruct (outcome_rel_Ok_inv_r _ _ _ _ Hsim HL') as ([b' h] & He & Hrep).
    pose proof (exc_transfer_tx_hash _ _ _ He). simplify_eq/=. by exists b'. }
  split; [|intros HP; split_and!].
  - intros HP. rewrite exec_tx_overflow_dev with (m:=m) in Hsim by done. by destruct (Executor.exc_transfer_tx tx b).
  - intros Hk. apply (outcome_rel_Err_inv_r _ _ _ _ Hsim). rewrite exec_tx_overflow_release with (m:=m) by done.
    by rewrite decide_True by lia.
  - intros Hfee. by apply Hok, exec_tx_overflow_funded with (m:=m).
  - intros Hk Hne Hr. destruct (exec_tx_overflow_mints L tx m) as (L' & HL' & Hb); [done..|].
    destruct (Hok L' HL') as (b' & ? & ?). by exists b', L'.
Qed.
End ExecutorProperties.

(** ** Determinism

    Two nodes may hold the same state in differently arranged databases (other
    caches, other backend contents, another iteration order of the hash map of
    changes).  Executing the same block ends the same way on both. *)
Section SameState.
Context {S1 S2 : Type} `{P : Profile, SL1 : StorageLaws S1, SL2 : StorageLaws S2}.
Context `{HB : Blake2b, ED : Ed25519, BA : BincodeLaws Account}.
Context `{BT : Bincode MsgTransfer, BH : Bincode TxHashType}.


Definition same_state (b1 : Balance S1) (b2 : Balance S2) : Prop :=
  ∃ m, st_rep (treedb b1) m ∧ st_rep (treedb b2) m.

Lemma same_load {E} b1 b2 a :
  same_state b1 b2 →
  Balance.load_account (E:=E) b1 a = Balance.load_account (E:=E) b2 a.
Proof.
  intros (m & Hm1 & Hm2). unfold Balance.load_account.
  by rewrite (st_get_rep _ _ _ Hm1), (st_get_rep _ _ _ Hm2).
Qed.

Lemma same_set b1 b2 a x :
  same_state b1 b2 → same_state (Balance.set_account b1 a x) (Balance.set_account b2 a x).
Proof.
  intros (m & Hm1 & Hm2). eexists; split; simpl; (apply st_set_rep; [done|]);
    apply serialize_nonempty.
Qed.

Ltac same_step :=
  match goal with
  | |- outcome_rel _ (mret _) (mret _) => apply same_set
  | Hs : same_state ?b1 ?b2 |- context [Balance.load_account ?b1 _] =>
      rewrite (same_load b1 b2 _ Hs)
  | |- outcome_rel _ (_ ≫= _) (_ ≫= _) => apply outcome_rel_bind_eq; intros ? _
  end.

Lemma same_add {E} b1 b2 a v : same_state b1 b2 →
  outcome_rel same_state (Balance.add_balance (E:=E) b1 a v) (Balance.add_balance b2 a v).
Proof. intros Hs. unfold Balance.add_balance. repeat same_step; done. Qed.
Lemma same_sub {E} b1 b2 a v : same_state b1 b2 →
  outcome_rel same_state (Balance.sub_balance (E:=E) b1 a v) (Balance.sub_balance b2 a v).
Proof. intros Hs. unfold Balance.sub_balance. repeat same_step; done. Qed.
Lemma same_inc {E} b1 b2 a : same_state b1 b2 →
  outcome_rel same_state (Balance.inc_nonce (E:=E) b1 a) (Balance.inc_nonce b2 a).
Proof. intros Hs. unfold Balance.inc_nonce. repeat same_step; done. Qed.
Lemma same_transfer {E} b1 b2 a a' v : same_state b1 b2 →
  outcome_rel same_state (Balance.transfer (E:=E) b1 a a' v) (Balance.transfer b2 a a' v).
Proof.
  intros Hs. unfold Balance.transfer, Balance.balance. rewrite (same_load b1 b2 _ Hs).
  same_step. case_decide; [|done].
  eapply outcome_rel_bind; [by apply same_sub|]. intros. by apply same_add.
Qed.

Lemma same_exc_tx b1 b2 tx : same_state b1 b2 →
  outcome_rel (λ r1 r2, same_state r1.1 r2.1)
    (Executor.exc_transfer_tx tx b1) (Executor.exc_transfer_tx tx b2).
Proof.
  intros Hs. unfold Executor.exc_transfer_tx, Balance.get_account.
  rewrite (same_load b1 b2 _ Hs). do 4 (apply outcome_rel_bind_eq; intros ? _).
  case_decide; [done|]. do 2 (apply outcome_rel_bind_eq; intros ? _). case_decide; [done|].
  eapply outcome_rel_bind; [by apply same_sub|]. intros ?? Hs1.
  eapply outcome_rel_bind; [by apply same_inc|]. intros ?? Hs2.
  apply outcome_rel_bind_eq; intros ? _.
  eapply outcome_rel_bind; [by apply same_transfer|]. done.
Qed.

Lemma same_loop l b1 b2 miner : same_state b1 b2 →
  outcome_rel same_state (Executor.exc_txs_loop l b1 miner) (Executor.exc_txs_loop l b2 miner).
Proof.
  revert b1 b2; induction l as [|tx l IH]; intros b1 b2 Hs; simpl; [done|].
  eapply outcome_rel_bind; [by apply same_exc_tx|]. intros [] [] Hs1; simpl in *.
  eapply outcome_rel_bind; [by apply same_add|]. auto.
Qed.

Lemma same_block blk b1 b2 miner :
  (∀ m r r', st_root_of (S:=S1) r m → st_root_of (S:=S2) r' m → r = r') →
  same_state b1 b2 →
  outcome_rel (λ r1 r2, same_state r1.1 r2.1 ∧ r1.2 = r2.2)
    (Executor.exc_txs_in_block blk b1 miner) (Executor.exc_txs_in_block blk b2 miner).
Proof.
  intros Hroots Hs. unfold Executor.exc_txs_in_block.
  eapply outcome_rel_bind; [by apply same_loop|]. intros b1' b2' (m & Hm1 & Hm2).
  unfold Balance.commit.
  destruct (st_commit_rep (E:=InternalErrorKind) _ m Hm1) as (s1 & -> & Hr1 & Hroot1%st_saved_root).
  destruct (st_commit_rep (E:=InternalErrorKind) _ m Hm2) as (s2 & -> & Hr2 & Hroot2%st_saved_root).
  simpl. split; [|by eapply Hroots]. by exists m.
Qed.
End SameState.

Section Determinism.
Context {D M TM : Type} {node_hash : bytes → Hash}.
Context `{KL : KVDBLaws D, MM : MemoryDB M, TO : !TrieOps (ArchiveDB D M) TM}.
Context `{MLL : !MemoryDBLaws M node_hash, TL : !TrieLaws D M TM node_hash}.
Context `{P : Profile, HB : Blake2b, ED : Ed25519, BA : BincodeLaws Account}.
Context `{BT : Bincode MsgTransfer, BH : Bincode TxHashType}.
Context (IO1 IO2 : IterOrder) (OL1 : @IterOrderLaw IO1) (OL2 : @IterOrderLaw IO2).

(** C3: Executing a block is deterministic: two state databases that hold the
    same map, whatever their overlay and the iteration order of their change
    sets, end with the same error or panic, or with the same state root. *)
Theorem exc_txs_in_block_deterministic blk (s1 s2 : StateDB D M) r1 r2 m miner :
  state_rep s1 m → state_rep s2 m →
  outcome_rel (λ x1 x2, x1.2 = x2.2 ∧
      ∃ m', state_rep (treedb x1.1) m' ∧ state_rep (treedb x2.1) m')
    (Executor.exc_txs_in_block (H:=StateDB_Storage (IO:=IO1)) blk (mkBalance s1 r1) miner)
    (Executor.exc_txs_in_block (H:=StateDB_Storage (IO:=IO2)) blk (mkBalance s2 r2) miner).
Proof.
  intros Hm1 Hm2.
  pose proof (same_block (SL1:=StateDB_StorageLaws (IO:=IO1)) (SL2:=StateDB_StorageLaws (IO:=IO2))
    blk (mkBalance s1 r1) (mkBalance s2 r2) miner) as Hs.
  eapply outcome_rel_mono; [|apply Hs; [|by exists m]].
  - intros [] [] [(m' & ? & ?) ?]; simpl in *. eauto.
  - intros m' r r' [B HB1] [B' HB2]. by eapply trie_rep_canonical.
Qed.
End Determinism.

(** ** Worked examples *)
Module ExecEx.
Export Ex.
#[export] Existing Instance example_ed25519.
#[export] Existing Instance example_ed25519_laws.
#[export] Instance ex_bin_txhash : Bincode TxHashType := example_bincode.
#[export] Instance ex_bin_txhash_laws : BincodeLaws TxHashType := example_bincode_laws.
Definition sk : bytes := replicate 32 7.
(** Account 1 sends [v] to account 2. *)
Definition unsigned (nonce v : Z) : Transaction :=
  Transaction.new (addr 1) nonce 0 0 [] (serialize (mkMsgTransfer (addr 2) v)).
Definition tx (nonce v : Z) : Transaction :=
  match Transaction.sign (unsigned nonce v) sk with Ok t => t | _ => unsigned nonce v end.
Definition blk : Block := mkBlock Header_default [] [tx 1 30; tx 2 40] [].

Lemma tx_data_decode n v : deserialize (tx_data (tx n v)) = Some (mkMsgTransfer (addr 2) v).
Proof.
  unfold tx. destruct (sign_verify (unsigned n v) sk) as (t & Hs & _); [done..|].
  rewrite Hs. unfold Transaction.sign in Hs. outcome_inv. unfold Transaction.set_sign_data in Hs.
  outcome_inv. exact (deserialize_serialize (mkMsgTransfer (addr 2) v)).
Qed.
Lemma tx_sender_1 n v : tx_sender (tx n v) = addr 1.
Proof.
  unfold tx. destruct (sign_verify (unsigned n v) sk) as (t & Hs & _ & _ & Ha & _); [done..|].
  rewrite Hs. exact Ha.
Qed.
Lemma tx_verifies n v : Transaction.verify_sign (tx n v) = Ok tt.
Proof.
  unfold tx. destruct (sign_verify (unsigned n v) sk) as (t & Hs & Hv & _); [done..|].
  by rewrite Hs.
Qed.
Lemma tx_ok n v : in_u 128 v → tx_wf (tx n v).
Proof.
  intros Hv. split; [rewrite tx_sender_1; apply addr_ok|].
  rewrite tx_data_decode. intros m [= <-]. split; [apply addr_ok|done].
Qed.
Lemma tx_ok_30 : tx_wf (tx 1 30).
Proof. by apply tx_ok. Qed.
Lemma blk_ok : Forall tx_wf (txs blk).
Proof. constructor; [|constructor; [|constructor]]; by apply tx_ok. Qed.
Lemma tx_nonce_n n v : tx_nonce (tx n v) = n.
Proof.
  unfold tx. destruct (sign_verify (unsigned n v) sk) as (t & Hs & _); [done..|].
  rewrite Hs. unfold Transaction.sign in Hs. outcome_inv. unfold Transaction.set_sign_data in Hs.
  by outcome_inv.
Qed.
Lemma blk_touches : touches_only (txs blk) [addr 1; addr 2; addr 9].
Proof.
  constructor; [|constructor; [|constructor]]; rewrite tx_sender_1, tx_data_decode;
    (split; [set_solver|]); intros m [= <-]; simpl; set_solver.
Qed.
Lemma blk_nodup : NoDup [addr 1; addr 2; addr 9].
Proof. apply (bool_decide_eq_true_1 (NoDup _)). by vm_compute. Qed.
Lemma blk_miner : addr 9 ∈ [addr 1; addr 2; addr 9].
Proof. set_solver. Qed.
(** Account 1 can pay nothing. *)
Definition b1 := Balance.set_account b0 (addr 1) (acc 5 0).
Definition L1 := Ledger.set Ledger.empty (addr 1) (acc 5 0).
Lemma b1_rep : ledger_rep b1 L1.
Proof. apply set_account_rep; [|apply addr_ok]. apply b0_rep. Qed.
Lemma L1_wf : Ledger.wf L1.
Proof. apply LedgerFacts.set_wf; [|by vm_compute]. intros a. by vm_compute. Qed.
(** The value whose sum with the fee overflows. *)
Definition big : Z := 2 ^ 128 - 10000.
Lemma big_tx_ok : tx_wf (tx 1 big).
Proof. by apply tx_ok. Qed.
Lemma big_nonce64 : in_u 64 (tx_nonce (tx 1 big)).
Proof. by rewrite tx_nonce_n. Qed.
Lemma big_nonce : tx_nonce (tx 1 big) = acc_nonce (L1 (tx_sender (tx 1 big))) + 1.
Proof. by rewrite tx_nonce_n, tx_sender_1. Qed.
Lemma big_receiver : receiver (mkMsgTransfer (addr 2) big) ≠ tx_sender (tx 1 big).
Proof. by rewrite tx_sender_1. Qed.
Lemma big_over : 2 ^ 128 ≤ transfer_value (mkMsgTransfer (addr 2) big) + transfer_fee.
Proof. done. Qed.
Lemma big_poor :
  transfer_value (mkMsgTransfer (addr 2) big) + transfer_fee - 2 ^ 128 ≤ acc_balance (L1 (tx_sender (tx 1 big))) < transfer_fee.
Proof. by rewrite tx_sender_1. Qed.
Lemma big_fits : in_u 128 (acc_balance (L1 (receiver (mkMsgTransfer (addr 2) big)))
                           + transfer_value (mkMsgTransfer (addr 2) big)).
Proof. done. Qed.
#[export] Hint Resolve blk_ok b1_rep L1_wf tx_ok : ori.
End ExecEx.

Section ExecutorWitnesses.
Import ExecEx.

Lemma exc_txs_in_block_refines_witness :
  outcome_rel (λ r L', ledger_rep r.1 L' ∧ ledger_saved r.1 r.2 L')
    (Executor.exc_txs_in_block (P:=Dev) blk b2 (addr 9))
    (LedgerExec.exec_txs (P:=Dev) (txs blk) (addr 9) L2).
Proof. apply exc_txs_in_block_refines; [auto with ori..|]. exact blk_ok. Defined.

Lemma exc_transfer_tx_branches_witness :
  ∃ b', Executor.exc_transfer_tx (P:=Dev) (tx 1 30) b2 = Ok (b', Hash_default) ∧
        ledger_rep b' (after_tx L2 (tx 1 30) (mkMsgTransfer (addr 2) 30)).
Proof.
  pose proof (exc_transfer_tx_branches (P:=Dev) b2 L2 (tx 1 30) (mkMsgTransfer (addr 2) 30)) as H.
  rewrite tx_verifies, tx_sender_1, tx_nonce_n in H.
  do 2 (rewrite decide_False in H by (by vm_compute)).
  apply H; [auto with ori| auto with ori| by apply tx_ok | auto with ori|done..].
Defined.

Lemma exc_transfer_tx_sound_witness :
  ∃ b' m, Executor.exc_transfer_tx (P:=Dev) (tx 1 30) b2 = Ok (b', Hash_default) ∧
    tx_valid L2 (tx 1 30) m ∧ acc_balance (after_tx L2 (tx 1 30) m (addr 3)) = 0.
Proof.
  destruct (is_ok_inv (Executor.exc_transfer_tx (P:=Dev) (tx 1 30) b2)) as [[b' h] He];
    [vm_compute; reflexivity|].
  pose proof (exc_transfer_tx_hash _ _ _ He) as Hh. cbn [snd] in Hh. subst h.
  destruct (exc_transfer_tx_sound (P:=Dev) b2 L2 (tx 1 30) b' Hash_default eq_refl
    b2_rep L2_wf tx_ok_30 He) as (m & Hv & _ & _ & _ & _ & Ho).
  exists b', m. split; [exact He|split; [exact Hv|]]. clear He.
  rewrite Ho; [reflexivity|by rewrite tx_sender_1|].
  destruct Hv as (Hd & _). rewrite tx_data_decode in Hd. by injection Hd as <-.
Defined.

Lemma exc_txs_in_block_conserves_witness :
  ∃ b' r L', Executor.exc_txs_in_block (P:=Dev) blk b2 (addr 9) = Ok (b', r) ∧
    ledger_rep b' L' ∧
    Ledger.total acc_balance L' [addr 1; addr 2; addr 9] = 100005 ∧
    acc_nonce (L' (addr 1)) = 2.
Proof.
  destruct (is_ok_inv (Executor.exc_txs_in_block (P:=Dev) blk b2 (addr 9)))
    as [[b' r] He]; [vm_compute; reflexivity|].
  exists b', r.
  destruct (exc_txs_in_block_conserves (P:=Dev) blk b2 L2 (addr 9) b' r
    [addr 1; addr 2; addr 9]) as (L' & HL' & _ & _ & Ht & Hn);
    [reflexivity|exact b2_rep|exact L2_wf|apply addr_ok|exact blk_ok|exact blk_nodup|
     exact blk_miner|exact blk_touches|exact He|].
  exists L'. split; [exact He|]. clear He. split_and!; [done|rewrite Ht; by vm_compute|].
  rewrite Hn. by vm_compute.
Defined.

Lemma exc_transfer_tx_overflow_witness :
  Executor.exc_transfer_tx (P:=Dev) (tx 1 big) b1 = Panic ∧
  ∃ b' L', Executor.exc_transfer_tx (P:=Release) (tx 1 big) b1 = Ok (b', Hash_default) ∧
    ledger_rep b' L' ∧ acc_balance (L' (addr 2)) = acc_balance (L1 (addr 2)) + big.
Proof.
  split.
  - exact (proj1 (exc_transfer_tx_overflow (P:=Dev) b1 L1 _ _ b1_rep L1_wf big_tx_ok
      (tx_data_decode 1 big) (tx_verifies 1 big) big_nonce64 big_nonce big_over) eq_refl).
  - destruct (exc_transfer_tx_overflow (P:=Release) b1 L1 _ _ b1_rep L1_wf big_tx_ok
      (tx_data_decode 1 big) (tx_verifies 1 big) big_nonce64 big_nonce big_over) as [_ Hrel].
    destruct (Hrel eq_refl) as (_ & _ & Hmint).
    destruct (Hmint big_poor big_receiver big_fits) as (b' & L' & He & HL & _ & Hb).
    exact (ex_intro _ b' (ex_intro _ L' (conj He (conj HL Hb)))).
Defined.

Lemma exc_txs_in_block_deterministic_witness :
  outcome_rel (λ x1 x2, x1.2 = x2.2 ∧
      ∃ m', state_rep (treedb x1.1) m' ∧ state_rep (treedb x2.1) m')
    (Executor.exc_txs_in_block (P:=Dev) (H:=StateDB_Storage (IO:=ex_iter)) blk b0 (addr 9))
    (Executor.exc_txs_in_block (P:=Dev) (H:=StateDB_Storage (IO:=ex_iter_rev)) blk b0 (addr 9)).
Proof.
  apply (exc_txs_in_block_deterministic (P:=Dev) ex_iter ex_iter_rev ex_iter_law
    ex_iter_rev_law blk ex_state ex_state NULL_ROOT NULL_ROOT ∅); apply ex_state_rep.
Defined.
End ExecutorWitnesses.
