(* ===== verification/Staking.v ===== *)
(** * Staking: the validator list (src/core/src/staking.rs, src/core/src/storage.rs)

    Validators are kept in the state database as a doubly linked list: the head
    key holds the storage key of the first validator, and every validator is
    stored under a digest of its address with the keys of its neighbours.
    Locking a stake goes through [Balance] over the same database. *)
From S2P Require Import Prelude Hashing Types Codec Store State StateExample.
From S2P Require Import Transaction Storage Balance.

(** [StatePrefix::Validator] *)
Definition Validator_prefix : Z := 2.

Record LockingBalance : Type := mkLockingBalance { lb_amount : Z; lb_height : Z }.
#[global] Instance LockingBalance_eq_dec : EqDecision LockingBalance.
Proof. solve_decision. Defined.
#[global] Program Instance LockingBalance_countable : Countable LockingBalance :=
  inj_countable' (λ x, (lb_amount x, lb_height x)) (λ x, mkLockingBalance x.1 x.2) _.
Next Obligation. by intros []. Qed.

Record Validator : Type := mkValidator {
  v_address : Address;
  v_pubkey : bytes;
  v_balance : Z;
  v_effective_balance : Z;
  v_activate_height : Z;
  v_exit_height : Z;
  v_deposit_queue : list LockingBalance;
  v_unlocked_queue : list LockingBalance;
}.
#[global] Instance Validator_eq_dec : EqDecision Validator.
Proof. solve_decision. Defined.
(** The fields of a validator as lists of numbers. *)
Definition validator_fields (v : Validator) : list (list Z) :=
  [[v_balance v; v_effective_balance v; v_activate_height v; v_exit_height v];
   addr_bytes (v_address v); v_pubkey v;
   lb_amount <$> v_deposit_queue v; lb_height <$> v_deposit_queue v;
   lb_amount <$> v_unlocked_queue v; lb_height <$> v_unlocked_queue v].
Definition validator_parse (l : list (list Z)) : option Validator :=
  match l with
  | [[b; e; a; x]; addr; pk; da; dh; ua; uh] =>
      Some (mkValidator (mkAddress addr) pk b e a x
              (zip_with mkLockingBalance da dh) (zip_with mkLockingBalance ua uh))
  | _ => None
  end.
Lemma validator_parse_fields v : validator_parse (validator_fields v) = Some v.
Proof.
  assert (∀ q, zip_with mkLockingBalance (lb_amount <$> q) (lb_height <$> q) = q) as Hq.
  { induction q as [|[] q IH]; simpl; [done|]. by f_equal. }
  destruct v as [[]]. simpl. by rewrite !Hq.
Qed.
#[global] Instance Validator_countable : Countable Validator :=
  inj_countable validator_fields validator_parse validator_parse_fields.

Record MsgValidatorCreate : Type := mkMsgValidatorCreate { vc_pubkey : bytes; vc_amount : Z }.
#[global] Instance MsgValidatorCreate_eq_dec : EqDecision MsgValidatorCreate.
Proof. solve_decision. Defined.
#[global] Program Instance MsgValidatorCreate_countable : Countable MsgValidatorCreate :=
  inj_countable' (λ x, (vc_pubkey x, vc_amount x)) (λ x, mkMsgValidatorCreate x.1 x.2) _.
Next Obligation. by intros []. Qed.

(** [storage::ListEntry<Validator>] *)
Record ListEntry : Type := mkListEntry {
  pre : option Hash;
  next : option Hash;
  payload : Validator;
}.
#[global] Instance ListEntry_eq_dec : EqDecision ListEntry.
Proof. solve_decision. Defined.
Definition hash_field (o : option Hash) : list Z :=
  match o with Some h => 1 :: hash_bytes h | None => [] end.
Definition hash_parse (l : list Z) : option Hash :=
  match l with _ :: l => Some (mkHash l) | [] => None end.
#[global] Instance ListEntry_countable : Countable ListEntry.
Proof.
  refine (inj_countable
    (λ x, hash_field (pre x) :: hash_field (next x) :: validator_fields (payload x))
    (λ l, match l with
          | p :: n :: l => mkListEntry (hash_parse p) (hash_parse n) <$> validator_parse l
          | _ => None
          end) _).
  intros [p n v]. cbn [pre next payload]. rewrite validator_parse_fields.
  by destruct p as [[]|], n as [[]|].
Defined.

Module Validator.
Definition create (addr : Address) : Validator := mkValidator addr [] 0 0 0 0 [] [].
Section Validator.
Context `{Blake2b}.
Definition map_key (v : Validator) : Hash :=
  let raw := Hash.as_bytes (Hash.from_bytes (Address.as_slice (v_address v))) in
  let position := Hash.from_bytes (to_be_bytes 8 Validator_prefix) in
  mkHash (blake2b_256 (raw ++ Hash.as_bytes position)).
Definition key_index (addr : Address) : Hash :=
  let raw := Hash.as_bytes (Hash.from_bytes (Address.as_slice addr)) in
  let position := Hash.from_bytes (to_be_bytes 8 Validator_prefix) in
  mkHash (blake2b_256 (raw ++ Hash.as_bytes position)).
End Validator.
End Validator.

(** [storage::List]: the key under which the first entry is found. *)
Record Staking (S : Type) : Type := mkStaking { head_key : Hash; state_db : S }.
Arguments mkStaking {S}. Arguments head_key {S}. Arguments state_db {S}.

Module Staking.
Section Staking.
Context {S : Type} `{P : Profile, Storage S, Blake2b}.
Context `{Bincode Account, Bincode ListEntry, Bincode MsgValidatorCreate, Bincode Z}.
Context {E : Type}.
Implicit Types (s : Staking S) (item : Validator) (addr : Address).

Definition new (statedb : S) : Staking S :=
  mkStaking (Hash.from_bytes (to_be_bytes 8 Validator_prefix)) statedb.
Definition from_state (statedb : S) : Staking S :=
  mkStaking (Hash.from_bytes (to_be_bytes 8 Validator_prefix)) statedb.

(** The shared database, read and written. *)
Definition get s (k : Hash) : Outcome E (option bytes) := st_get (state_db s) k.
Definition set s (k : Hash) (v : bytes) : Staking S :=
  mkStaking (head_key s) (st_set (state_db s) k v).
Definition unset s (k : Hash) : Staking S := mkStaking (head_key s) (st_remove (state_db s) k).

(** [bincode::deserialize(&get_storage(k).unwrap()).unwrap()] *)
Definition get_entry s (k : Hash) : Outcome E ListEntry :=
  encoded ← get s k;
  encoded ← unwrap encoded;
  unwrap (deserialize encoded).

Definition insert s item : Outcome E (Staking S) :=
  head ← get s (head_key s);
  match head with
  | None =>
      let entry := mkListEntry None None item in
      let s := set s (Validator.map_key item) (serialize entry) in
      mret (set s (head_key s) (Hash.as_bytes (Validator.map_key item)))
  | Some h =>
      let head_ref := Hash.from_bytes h in
      let entry := mkListEntry None (Some head_ref) item in
      let s := set s (Validator.map_key item) (serialize entry) in
      next_entry ← get_entry s head_ref;
      let next_entry := mkListEntry (Some (Validator.map_key item)) (next next_entry)
                          (payload next_entry) in
      let s := set s (Validator.map_key (payload next_entry)) (serialize next_entry) in
      mret (set s (head_key s) (Hash.as_bytes (Validator.map_key item)))
  end.

Definition set_item s item : Outcome E (Staking S) :=
  encoded ← get s (Validator.map_key item);
  match encoded with
  | None => insert s item
  | Some e =>
      entry ← unwrap (deserialize e);
      let entry := mkListEntry (pre entry) (next entry) item in
      mret (set s (Validator.map_key item) (serialize entry))
  end.

Definition delete s addr : Outcome E (Staking S) :=
  encoded ← get s (Validator.key_index addr);
  match encoded with
  | None => Ok s
  | Some e =>
      item ← unwrap (deserialize (A:=ListEntry) e);
      s ← match pre item with
          | Some p =>
              pre_node ← get_entry s p;
              let pre_node := mkListEntry (pre pre_node) (next item) (payload pre_node) in
              mret (set s p (serialize pre_node))
          | None =>
              match next item with
              | Some n => mret (set s (head_key s) (Hash.as_bytes n))
              | None => mret (unset s (head_key s))
              end
          end;
      s ← match next item with
          | Some n =>
              next_node ← get_entry s n;
              let next_node := mkListEntry (pre item) (next next_node) (payload next_node) in
              mret (set s n (serialize next_node))
          | None => Ok s
          end;
      mret (unset s (Validator.key_index addr))
  end.

(** The [while] loop of [validator_set]; [None] when the fuel runs out. *)
Fixpoint walk (fuel : nat) s (next_ref : option Hash) (items : list Validator)
    : option (Outcome E (list Validator)) :=
  match next_ref with
  | None => Some (Ok items)
  | Some r =>
      match fuel with
      | O => None
      | Datatypes.S fuel =>
          match get_entry s r with
          | Ok item => walk fuel s (next item) (items ++ [payload item])
          | Err e => Some (Err e)
          | Panic => Some Panic
          end
      end
  end.
Definition validator_set (fuel : nat) s : option (Outcome E (list Validator)) :=
  match get s (head_key s) with
  | Ok None => Some (Ok [])
  | Ok (Some h) => walk fuel s (Some (Hash.from_bytes h)) []
  | Err e => Some (Err e)
  | Panic => Some Panic
  end.

Definition get_validator s addr : Outcome E (option Validator) :=
  encoded ← get s (Validator.key_index addr);
  match encoded with
  | None => Ok None
  | Some e => obj ← unwrap (deserialize (A:=ListEntry) e); mret (Some (payload obj))
  end.

(** [Balance::from_state(self.interpreter.clone())] shares the database. *)
Definition lock s addr (amount : Z) : Outcome E (Staking S) :=
  b ← Balance.lock_balance (Balance.from_state (state_db s)) addr amount;
  mret (mkStaking (head_key s) (treedb b)).

Definition validate s addr (pubkey : bytes) (amount : Z)
    : Outcome E (Staking S) :=
  existing ← get_validator s addr;
  match existing with
  | Some _ => Ok s
  | None =>
      let validator := mkValidator addr pubkey amount amount 0 0 [] [] in
      s ← insert s validator;
      lock s addr amount
  end.

Definition deposit s addr (amount : Z) : Outcome E (Staking S) :=
  existing ← get_validator s addr;
  match existing with
  | None => Ok s
  | Some v =>
      balance ← add_u 128 (v_balance v) amount;
      let v := mkValidator (v_address v) (v_pubkey v) balance (v_effective_balance v)
                 (v_activate_height v) (v_exit_height v)
                 (v_deposit_queue v ++ [mkLockingBalance amount 0]) (v_unlocked_queue v) in
      s ← set_item s v;
      lock s addr amount
  end.

(** The [while] loop of [activate_deposit]: [offset] and [epoch] never change. *)
Fixpoint activate_loop (fuel : nat) (queue : list LockingBalance) (effective : Z)
    : option (Outcome E Z) :=
  match queue !! 0%nat with
  | None => Some (Ok effective)
  | Some d =>
      match fuel with
      | O => None
      | Datatypes.S fuel =>
          if decide (lb_height d > 0) then Some (Ok effective)
          else match add_u 128 effective (lb_amount d) with
               | Ok e => activate_loop fuel queue e
               | Err e => Some (Err e)
               | Panic => Some Panic
               end
      end
  end.
Definition activate_deposit (fuel : nat) s addr : option (Outcome E (Staking S)) :=
  match get_validator s addr with
  | Ok None => Some (Ok s)
  | Ok (Some v) =>
      match activate_loop fuel (v_deposit_queue v) (v_effective_balance v) with
      | None => None
      | Some r => Some (
          effective ← r;
          set_item s (mkValidator (v_address v) (v_pubkey v) (v_balance v) effective
                        (v_activate_height v) (v_exit_height v)
                        (take 0 (v_deposit_queue v)) (v_unlocked_queue v)))
      end
  | Err e => Some (Err e)
  | Panic => Some Panic
  end.

Definition exit s addr : Outcome E (Staking S) :=
  existing ← get_validator s addr;
  match existing with
  | None => Ok s
  | Some v =>
      set_item s (mkValidator (v_address v) (v_pubkey v) (v_balance v) (v_effective_balance v)
                    (v_activate_height v) 0 (v_deposit_queue v) (v_unlocked_queue v))
  end.

(** A malformed message is ignored. *)
Definition exec_validate s addr (input : bytes) : Outcome E (Staking S) :=
  match deserialize (A:=MsgValidatorCreate) input with
  | Some m => validate s addr (vc_pubkey m) (vc_amount m)
  | None => Ok s
  end.
Definition exec_deposit s addr (input : bytes) : Outcome E (Staking S) :=
  match deserialize (A:=Z) input with
  | Some amount => deposit s addr amount
  | None => Ok s
  end.
Definition exec_exit s addr (input : bytes) : Outcome E (Staking S) := exit s addr.
End Staking.
End Staking.

(** ** The list in a storage map *)
Definition validators_head : Hash := Hash.from_bytes (to_be_bytes 8 Validator_prefix).

(** The storage keys in use do not collide. *)
Class StakingKeys `{Blake2b} : Prop := {
  key_index_inj a a' :
    addr_wf a → addr_wf a' → Validator.key_index a = Validator.key_index a' → a = a';
  key_index_head a : addr_wf a → Validator.key_index a ≠ validators_head;
  key_index_account a a' :
    addr_wf a → addr_wf a' → Validator.key_index a ≠ Balance.address_key a';
  account_head a : addr_wf a → Balance.address_key a ≠ validators_head;
}.

Section ListRep.
Context `{HB : Blake2bLaws, SK : !StakingKeys, BE : BincodeLaws ListEntry}.
Implicit Types (m : gmap bytes bytes) (l : list Validator) (v : Validator).

Definition vkey (a : Address) : bytes := hash_bytes (Validator.key_index a).
Definition hkey : bytes := hash_bytes validators_head.

(** The key of the first and of the last validator of a list. *)
Definition first l (n : option Hash) : option Hash :=
  match l with [] => n | v :: _ => Some (Validator.map_key v) end.
Fixpoint last_key l (p : option Hash) : option Hash :=
  match l with [] => p | v :: l => last_key l (Some (Validator.map_key v)) end.

(** The validators [l] are linked in [m], after [p] and before [n]. *)
Fixpoint seg m (p : option Hash) l (n : option Hash) : Prop :=
  match l with
  | [] => True
  | v :: l =>
      m !! vkey (v_address v) = Some (serialize (mkListEntry p (first l n) v)) ∧
      seg m (Some (Validator.map_key v)) l n
  end.

Record list_rep m l : Prop := {
  lr_head : m !! hkey = hash_bytes <$> first l None;
  lr_seg : seg m None l None;
  lr_nodup : NoDup (v_address <$> l);
  lr_wf : Forall (λ v, addr_wf (v_address v)) l;
  lr_only a : addr_wf a → a ∉ v_address <$> l → m !! vkey a = None;
}.

(** [m'] differs from [m] at most at the keys of the list. *)
Definition agrees m m' : Prop :=
  ∀ k, k ≠ hkey → (∀ a, addr_wf a → k ≠ vkey a) → m' !! k = m !! k.

Lemma vkey_inj a a' : addr_wf a → addr_wf a' → vkey a = vkey a' → a = a'.
Proof. intros ?? Heq%hash_bytes_inj. by apply key_index_inj. Qed.
Lemma vkey_head a : addr_wf a → vkey a ≠ hkey.
Proof. intros ? Heq%hash_bytes_inj. by eapply key_index_head. Qed.

Lemma seg_frame m m' p l n :
  (∀ v, v ∈ l → m' !! vkey (v_address v) = m !! vkey (v_address v)) →
  seg m p l n → seg m' p l n.
Proof.
  revert p; induction l as [|v l IH]; intros p Hag; simpl; [done|].
  intros [Hv Hl]. split; [rewrite Hag by set_solver; done|].
  apply IH; [|done]. intros; apply Hag. set_solver.
Qed.

Lemma seg_app m p l1 l2 n :
  seg m p (l1 ++ l2) n ↔ seg m p l1 (first l2 n) ∧ seg m (last_key l1 p) l2 n.
Proof.
  revert p; induction l1 as [|v l1 IH]; intros p; simpl; [naive_solver|].
  rewrite IH. assert (first (l1 ++ l2) n = first l1 (first l2 n)) as -> by (by destruct l1).
  naive_solver.
Qed.

Lemma seg_lookup m p l n v :
  seg m p l n → v ∈ l →
  ∃ p' n', m !! vkey (v_address v) = Some (serialize (mkListEntry p' n' v)).
Proof.
  revert p; induction l as [|w l IH]; intros p; simpl; [set_solver|].
  intros [Hw Hl] [->|Hin]%elem_of_cons; eauto.
Qed.

Lemma last_key_snoc l v p : last_key (l ++ [v]) p = Some (Validator.map_key v).
Proof. revert p; induction l; simpl; auto. Qed.

(** Relinking the first or the last validator of a segment. *)
Lemma seg_set_pre m p p' v l n :
  NoDup (v_address <$> v :: l) → Forall (λ v, addr_wf (v_address v)) (v :: l) →
  seg m p (v :: l) n →
  seg (<[vkey (v_address v) := serialize (mkListEntry p' (first l n) v)]> m) p' (v :: l) n.
Proof.
  intros [Hnd _]%NoDup_cons [Hv Hl]%Forall_cons_iff [_ Hs]. split.
  - by rewrite lookup_insert_eq.
  - eapply seg_frame; [|done]. intros w Hw. apply lookup_insert_ne.
    intros Heq%vkey_inj; [|done|by apply (proj1 (Forall_forall _ _) Hl)].
    apply Hnd. rewrite Heq. by apply list_elem_of_fmap_2.
Qed.

Lemma seg_set_next m p v l n n' :
  NoDup (v_address <$> l ++ [v]) → Forall (λ v, addr_wf (v_address v)) (l ++ [v]) →
  seg m p (l ++ [v]) n →
  seg (<[vkey (v_address v) := serialize (mkListEntry (last_key l p) n' v)]> m) p (l ++ [v]) n'.
Proof.
  rewrite fmap_app, NoDup_app, Forall_app. intros (_ & Hnd & _) [Hl Hv] Hs.
  apply Forall_cons_iff in Hv as [Hv _].
  rewrite seg_app in Hs |- *. destruct Hs as [Hs _]. simpl. split.
  - eapply seg_frame; [|exact Hs]. intros w Hw. apply lookup_insert_ne.
    intros Heq%vkey_inj; [|done|by apply (proj1 (Forall_forall _ _) Hl)].
    apply (Hnd (v_address w)); [by apply list_elem_of_fmap_2|]. rewrite <-Heq. set_solver.
  - by rewrite lookup_insert_eq.
Qed.

Lemma vkey_ne a a' : addr_wf a → addr_wf a' → a ≠ a' → vkey a ≠ vkey a'.
Proof. intros ??? Heq. by apply vkey_inj in Heq. Qed.
Lemma hkey_ne a : addr_wf a → hkey ≠ vkey a.
Proof. intros ? Heq. by eapply vkey_head. Qed.

Lemma elem_wf l v : Forall (λ v, addr_wf (v_address v)) l → v ∈ l → addr_wf (v_address v).
Proof. rewrite Forall_forall. auto. Qed.

(** The map after a validator is put in front of the list. *)
Definition insert_map m l v : gmap bytes bytes :=
  let k := hash_bytes (Validator.map_key v) in
  match l with
  | [] => <[hkey := k]> (<[vkey (v_address v) := serialize (mkListEntry None None v)]> m)
  | w :: l =>
      <[hkey := k]>
      (<[vkey (v_address w) := serialize (mkListEntry (Some (Validator.map_key v)) (first l None) w)]>
       (<[vkey (v_address v) := serialize (mkListEntry None (Some (Validator.map_key w)) v)]> m))
  end.

Lemma insert_map_agrees m l v :
  Forall (λ v, addr_wf (v_address v)) (v :: l) → agrees m (insert_map m l v).
Proof.
  intros [Hv Hl]%Forall_cons k Hk Ha. unfold insert_map. destruct l as [|w l].
  - by rewrite !lookup_insert_ne by (symmetry; auto).
  - apply Forall_cons in Hl as [Hw _]. by rewrite !lookup_insert_ne by (symmetry; auto).
Qed.

Lemma insert_map_rep m l v :
  list_rep m l → addr_wf (v_address v) → v_address v ∉ v_address <$> l →
  list_rep (insert_map m l v) (v :: l).
Proof.
  intros [Hh Hs Hnd Hwf Ho] Hv Hni. split.
  - unfold insert_map. destruct l; by rewrite lookup_insert_eq.
  - unfold insert_map. destruct l as [|w l].
    { split; [|done]. by rewrite lookup_insert_ne, lookup_insert_eq by auto using hkey_ne. }
    pose proof Hwf as [Hw Hl]%Forall_cons.
    assert (v_address v ≠ v_address w) by set_solver. split.
    + rewrite !lookup_insert_ne by auto using hkey_ne, vkey_ne. by rewrite lookup_insert_eq.
    + pose proof (seg_set_pre m None (Some (Validator.map_key v)) w l None Hnd Hwf Hs) as Hs'.
      eapply seg_frame; [|exact Hs']. intros u Hu. pose proof (elem_wf _ _ Hwf Hu).
      rewrite lookup_insert_ne by auto using hkey_ne.
      destruct (decide (v_address u = v_address w)) as [->|]; [by rewrite !lookup_insert_eq|].
      rewrite !(lookup_insert_ne _ (vkey (v_address w))) by auto using vkey_ne.
      apply lookup_insert_ne, vkey_ne; [done..|]. intros Heq. apply Hni. rewrite Heq.
      by apply list_elem_of_fmap_2.
  - rewrite fmap_cons. by apply NoDup_cons.
  - by apply Forall_cons.
  - intros a Ha Hna. rewrite fmap_cons, not_elem_of_cons in Hna. destruct Hna as [Hav Hal].
    unfold insert_map. destruct l as [|w l].
    + rewrite !lookup_insert_ne by auto using hkey_ne, vkey_ne. by apply Ho.
    + pose proof Hwf as [Hw Hl]%Forall_cons.
      rewrite !lookup_insert_ne; [by apply Ho|auto using vkey_ne|apply vkey_ne; set_solver|
        by apply hkey_ne].
Qed.

(** The map after the entry of a listed validator is rewritten in place. *)
Definition replace_payload a (v : Validator) (l : list Validator) : list Validator :=
  (λ w, if decide (v_address w = a) then v else w) <$> l.

Lemma replace_payload_keys v l :
  v_address <$> replace_payload (v_address v) v l = v_address <$> l.
Proof.
  unfold replace_payload. rewrite <-list_fmap_compose. apply list_fmap_ext.
  intros _ w _. simpl. by case_decide.
Qed.

Lemma first_replace v l n : first (replace_payload (v_address v) v l) n = first l n.
Proof.
  destruct l as [|w l]; simpl; [done|]. case_decide as Heq; [|done].
  unfold Validator.map_key. by rewrite Heq.
Qed.

Lemma seg_replace m p l n v w p' n' :
  NoDup (v_address <$> l) → Forall (λ v, addr_wf (v_address v)) l →
  seg m p l n → w ∈ l → v_address w = v_address v →
  m !! vkey (v_address w) = Some (serialize (mkListEntry p' n' w)) →
  seg (<[vkey (v_address v) := serialize (mkListEntry p' n' v)]> m) p
    (replace_payload (v_address v) v l) n.
Proof.
  revert p; induction l as [|u l IH]; intros p Hnd Hwf Hs Hw Heq Hl; simpl; [done|].
  apply NoDup_cons in Hnd as [Hu Hnd]. pose proof Hwf as [Hwu Hwl]%Forall_cons.
  destruct Hs as [Hue Hs]. rewrite first_replace.
  assert (addr_wf (v_address v)) by (rewrite <-Heq; by apply (elem_wf (u :: l))).
  apply elem_of_cons in Hw as [->|Hw].
  - rewrite decide_True by done. rewrite Hl in Hue. apply (inj Some), serialize_inj in Hue.
    injection Hue as -> ->. split; [by rewrite lookup_insert_eq|].
    assert (replace_payload (v_address v) v l = l) as ->.
    { unfold replace_payload. rewrite <-list_fmap_id. apply list_fmap_ext.
      intros i x Hx. simpl. rewrite decide_False; [done|]. intros Hxe. apply Hu.
      rewrite Heq, <-Hxe. apply list_elem_of_fmap_2. by eapply list_elem_of_lookup_2. }
    assert (Validator.map_key v = Validator.map_key u) as ->
      by (unfold Validator.map_key; by rewrite Heq).
    eapply seg_frame; [|done]. intros x Hx. apply lookup_insert_ne.
    apply vkey_ne; [done|by apply (elem_wf l)|]. rewrite <-Heq. intros Hxe. apply Hu.
    rewrite Hxe. by apply list_elem_of_fmap_2.
  - assert (v_address u ≠ v_address v) as Hne.
    { rewrite <-Heq. intros Hue'. apply Hu. rewrite Hue'. by apply list_elem_of_fmap_2. }
    rewrite decide_False by done. split.
    + rewrite lookup_insert_ne by auto using vkey_ne. done.
    + by apply IH.
Qed.
End ListRep.

(** ** The operations over the list *)
Section StakingOps.
Context {S : Type} `{P : Profile, SL : StorageLaws S, HB : Blake2bLaws, SK : !StakingKeys}.
Context `{BA : BincodeLaws Account, BE : BincodeLaws ListEntry}.
Context `{BM : Bincode MsgValidatorCreate, BZ : Bincode Z} {E : Type}.
Implicit Types (s : Staking S) (m : gmap bytes bytes) (l : list Validator) (v : Validator).

(** The database of [s] holds the map [m]. *)
Definition map_rep s m : Prop := head_key s = validators_head ∧ st_rep (state_db s) m.

Lemma get_rep s m k : map_rep s m → Staking.get (E:=E) s k = Ok (m !! hash_bytes k).
Proof. intros [_ Hm]. by apply st_get_rep. Qed.
Lemma set_rep s m k b : map_rep s m → b ≠ [] → map_rep (Staking.set s k b) (<[hash_bytes k := b]> m).
Proof. intros [Hh Hm] Hb. split; [done|]. by apply st_set_rep. Qed.
Lemma set_head_rep s m b :
  map_rep s m → b ≠ [] → map_rep (Staking.set s (head_key s) b) (<[hkey := b]> m).
Proof. intros Hm. pose proof Hm as [Hh _]. unfold hkey. rewrite <-Hh. by apply set_rep. Qed.
Lemma unset_rep s m k : map_rep s m → map_rep (Staking.unset s k) (delete (hash_bytes k) m).
Proof. intros [Hh Hm]. split; [done|]. by apply st_remove_rep. Qed.
Lemma get_entry_rep s m k (e : ListEntry) :
  map_rep s m → m !! hash_bytes k = Some (serialize e) →
  Staking.get_entry (E:=E) s k = Ok e.
Proof.
  intros Hm Hk. unfold Staking.get_entry. rewrite (get_rep s m k Hm), Hk. simpl.
  by rewrite deserialize_serialize.
Qed.
Lemma map_key_nonempty a : hash_bytes (Validator.key_index a) ≠ [].
Proof.
  intros Heq. assert (length (hash_bytes (Validator.key_index a)) = 32%nat) as Hl
    by apply length_blake2b_256. by rewrite Heq in Hl.
Qed.
Lemma map_key_from_bytes v :
  Hash.from_bytes (hash_bytes (Validator.map_key v)) = Validator.map_key v.
Proof. apply from_bytes_hash, length_blake2b_256. Qed.

(** [insert] of a new validator puts it in front of the list. *)
Lemma insert_rep s m l v :
  map_rep s m → list_rep m l → addr_wf (v_address v) → v_address v ∉ v_address <$> l →
  ∃ s', Staking.insert (E:=E) s v = Ok s' ∧ map_rep s' (insert_map m l v).
Proof.
  intros Hm Hl Hv Hni. pose proof Hm as [Hh _]. unfold Staking.insert.
  rewrite (get_rep s m _ Hm), Hh, bind_Ok. fold hkey. rewrite (lr_head _ _ Hl).
  destruct l as [|w l]; cbn [first fmap option_fmap option_map].
  - eexists; split; [done|]. apply set_head_rep; [|apply map_key_nonempty].
    apply (set_rep s m (Validator.map_key v)); [done|apply serialize_nonempty].
  - rewrite map_key_from_bytes. pose proof (lr_wf _ _ Hl) as [Hw _]%Forall_cons.
    assert (map_rep (Staking.set s (Validator.map_key v)
      (serialize (mkListEntry None (Some (Validator.map_key w)) v)))
      (<[vkey (v_address v) := serialize (mkListEntry None (Some (Validator.map_key w)) v)]> m))
      as Hm1 by (apply set_rep; [done|apply serialize_nonempty]).
    erewrite get_entry_rep; [|exact Hm1|].
    2:{ rewrite lookup_insert_ne; [|apply vkey_ne; set_solver]. apply (lr_seg _ _ Hl). }
    rewrite bind_Ok. cbn [payload next]. eexists; split; [done|].
    apply set_head_rep; [|apply map_key_nonempty].
    apply (set_rep _ _ (Validator.map_key w)); [done|apply serialize_nonempty].
Qed.

(** Lookups find exactly the listed validators. *)
Lemma get_validator_in s m l v :
  map_rep s m → list_rep m l → v ∈ l →
  Staking.get_validator (E:=E) s (v_address v) = Ok (Some v).
Proof.
  intros Hm Hl Hv. unfold Staking.get_validator. rewrite (get_rep s m _ Hm), bind_Ok.
  destruct (seg_lookup _ _ _ _ _ (lr_seg _ _ Hl) Hv) as (p & n & Hk).
  unfold vkey in Hk. rewrite Hk. by rewrite deserialize_serialize.
Qed.
Lemma get_validator_out s m l a :
  map_rep s m → list_rep m l → addr_wf a → a ∉ v_address <$> l →
  Staking.get_validator (E:=E) s a = Ok None.
Proof.
  intros Hm Hl Ha Hni. unfold Staking.get_validator. rewrite (get_rep s m _ Hm), bind_Ok.
  pose proof (lr_only _ _ Hl a Ha Hni) as Hk. unfold vkey in Hk. by rewrite Hk.
Qed.

(** [set_item] of a listed validator rewrites it in place. *)
Lemma set_item_rep s m l v w :
  map_rep s m → list_rep m l → w ∈ l → v_address w = v_address v →
  ∃ s' m', Staking.set_item (E:=E) s v = Ok s' ∧ map_rep s' m' ∧
           list_rep m' (replace_payload (v_address v) v l) ∧ agrees m m'.
Proof.
  intros Hm Hl Hw Heq. pose proof (elem_wf _ _ (lr_wf _ _ Hl) Hw) as Hwf. rewrite Heq in Hwf.
  unfold Staking.set_item. rewrite (get_rep s m _ Hm), bind_Ok.
  destruct (seg_lookup _ _ _ _ _ (lr_seg _ _ Hl) Hw) as (p & n & Hk).
  pose proof Hk as Hk'. rewrite Heq in Hk'. unfold vkey in Hk'.
  change (Validator.map_key v) with (Validator.key_index (v_address v)). rewrite Hk'.
  rewrite deserialize_serialize. cbn [unwrap]. rewrite bind_Ok. cbn [pre next].
  eexists _, _; split_and!; [done|apply set_rep; [done|apply serialize_nonempty]| |].
  - pose proof Hl as [Hh Hs Hnd Hlwf Ho]. fold (vkey (v_address v)). split.
    + rewrite first_replace, lookup_insert_ne; [done|by apply vkey_head].
    + by eapply seg_replace.
    + by rewrite replace_payload_keys.
    + apply Forall_fmap, (Forall_impl _ _ _ Hlwf). intros x Hx. simpl. by case_decide.
    + intros a Ha. rewrite replace_payload_keys. intros Hna.
      rewrite lookup_insert_ne; [by apply Ho|]. apply vkey_ne; [done..|].
      rewrite <-Heq. intros <-. by apply Hna, list_elem_of_fmap_2.
  - intros k Hk1 Hk2. apply lookup_insert_ne. symmetry. by apply Hk2.
Qed.

(** The walk along the links returns the list when it has fuel for it. *)
Lemma walk_rep s m l p acc fuel :
  map_rep s m → seg m p l None → (length l ≤ fuel)%nat →
  Staking.walk (E:=E) fuel s (first l None) acc = Some (Ok (acc ++ l)).
Proof.
  intros Hm. revert p acc fuel; induction l as [|v l IH]; intros p acc fuel Hs Hf.
  { destruct fuel; simpl; by rewrite app_nil_r. }
  destruct Hs as [Hv Hs]. simpl in Hf. destruct fuel as [|fuel]; [lia|].
  cbn [Staking.walk first].
  rewrite (get_entry_rep s m (Validator.map_key v) _ Hm Hv). cbn [next payload].
  rewrite (IH _ _ _ Hs) by lia. by rewrite <-app_assoc.
Qed.

(** The first half of [delete]: the predecessor, or the head, is linked to the
    successor [n]. *)
Definition unlink_prev s (p n : option Hash) : Outcome E (Staking S) :=
  match p with
  | Some p =>
      pre_node ← Staking.get_entry s p;
      mret (Staking.set s p (serialize (mkListEntry (pre pre_node) n (payload pre_node))))
  | None =>
      match n with
      | Some n => mret (Staking.set s (head_key s) (Hash.as_bytes n))
      | None => mret (Staking.unset s (head_key s))
      end
  end.
(** The second half: the successor is linked to the predecessor [p]. *)
Definition unlink_next s (p n : option Hash) : Outcome E (Staking S) :=
  match n with
  | Some n =>
      next_node ← Staking.get_entry s n;
      mret (Staking.set s n (serialize (mkListEntry p (next next_node) (payload next_node))))
  | None => Ok s
  end.

Lemma unlink_prev_rep s m l n n0 :
  map_rep s m → seg m None l n0 → NoDup (v_address <$> l) →
  Forall (λ v, addr_wf (v_address v)) l →
  m !! hkey = hash_bytes <$> first l n0 → (∀ h, n = Some h → hash_bytes h ≠ []) →
  ∃ s' m', unlink_prev s (last_key l None) n = Ok s' ∧ map_rep s' m' ∧
    seg m' None l n ∧ m' !! hkey = hash_bytes <$> first l n ∧
    ∀ k, k ≠ hkey → (∀ w, w ∈ l → k ≠ vkey (v_address w)) → m' !! k = m !! k.
Proof.
  intros Hm Hs Hnd Hwf Hh Hn. destruct l as [|u l _] using rev_ind.
  - simpl. destruct n as [n|].
    + eexists _, _; split_and!; [done|apply set_head_rep; [done|by apply Hn]|done|
        by rewrite lookup_insert_eq|]. intros k Hk _. by apply lookup_insert_ne.
    + pose proof Hm as [Hk _]. eexists _, _; split_and!; [done|by apply unset_rep|done| |];
        rewrite Hk; fold hkey.
      * by rewrite lookup_delete_eq.
      * intros k Hk' _. by apply lookup_delete_ne.
  - rewrite last_key_snoc. pose proof Hs as [Hs1 [Hu _]]%seg_app. simpl in Hu.
    assert (addr_wf (v_address u)) by (apply (elem_wf _ _ Hwf); set_solver).
    unfold unlink_prev.
    rewrite (get_entry_rep s m (Validator.map_key u) _ Hm Hu). rewrite bind_Ok. cbn [pre payload].
    eexists _, _; split_and!; [done|apply set_rep; [done|apply serialize_nonempty]| | |].
    + by eapply seg_set_next.
    + rewrite lookup_insert_ne by (by apply (vkey_head (v_address u))). rewrite Hh.
      by destruct l.
    + intros k _ Hk. apply lookup_insert_ne. symmetry. apply (Hk u). set_solver.
Qed.

Lemma unlink_next_rep s m l p p0 :
  map_rep s m → seg m p0 l None → NoDup (v_address <$> l) →
  Forall (λ v, addr_wf (v_address v)) l →
  ∃ s' m', unlink_next s p (first l None) = Ok s' ∧ map_rep s' m' ∧ seg m' p l None ∧
    ∀ k, (∀ w, w ∈ l → k ≠ vkey (v_address w)) → m' !! k = m !! k.
Proof.
  intros Hm Hs Hnd Hwf. destruct l as [|w l]; [by exists s, m|].
  pose proof Hs as [Hw _]. cbn [unlink_next first].
  rewrite (get_entry_rep s m (Validator.map_key w) _ Hm Hw). rewrite bind_Ok. cbn [next payload].
  eexists _, _; split_and!; [done|apply set_rep; [done|apply serialize_nonempty]| |].
  - by eapply seg_set_pre.
  - intros k Hk. apply lookup_insert_ne. symmetry. apply (Hk w). set_solver.
Qed.

(** A validator between two lists is told apart from both. *)
Lemma middle_ne l1 v l2 :
  NoDup (v_address <$> l1 ++ v :: l2) → Forall (λ v, addr_wf (v_address v)) (l1 ++ v :: l2) →
  (∀ w, w ∈ l1 ++ l2 → vkey (v_address w) ≠ vkey (v_address v)) ∧
  (∀ u w, u ∈ l1 → w ∈ v :: l2 → vkey (v_address u) ≠ vkey (v_address w)) ∧
  NoDup (v_address <$> l1) ∧ NoDup (v_address <$> l2) ∧ NoDup (v_address <$> l1 ++ l2).
Proof.
  intros Hnd Hwf. rewrite fmap_app, fmap_cons in Hnd.
  pose proof Hnd as (Hnd1 & Hdis & [Hv2 Hnd2]%NoDup_cons)%NoDup_app.
  assert (∀ u w, u ∈ l1 → w ∈ v :: l2 → v_address u ≠ v_address w) as Hd.
  { intros u w Hu Hw Heq. apply (Hdis (v_address u)); [by apply list_elem_of_fmap_2|].
    rewrite Heq, <-fmap_cons. by apply list_elem_of_fmap_2. }
  assert (∀ w, w ∈ l1 ++ v :: l2 → addr_wf (v_address w)) as Hw by (intros; by eapply elem_wf).
  split_and!; [| |done|done|].
  - intros w [Hw1|Hw2]%elem_of_app; (apply vkey_ne; [apply Hw; set_solver..|]).
    + apply Hd; set_solver.
    + intros Heq. apply Hv2. rewrite <-Heq. by apply list_elem_of_fmap_2.
  - intros u w Hu Hw'. apply vkey_ne; [apply Hw; set_solver..|]. by apply Hd.
  - rewrite fmap_app. apply NoDup_app. split_and!; [done| |done]. intros a Ha Ha2.
    apply (Hdis a Ha). set_solver.
Qed.

Lemma unlink_list_rep m m1 m2 l1 v l2 :
  list_rep m (l1 ++ v :: l2) →
  seg m1 None l1 (first l2 None) → m1 !! hkey = hash_bytes <$> first l1 (first l2 None) →
  (∀ k, k ≠ hkey → (∀ w, w ∈ l1 → k ≠ vkey (v_address w)) → m1 !! k = m !! k) →
  seg m2 (last_key l1 None) l2 None →
  (∀ k, (∀ w, w ∈ l2 → k ≠ vkey (v_address w)) → m2 !! k = m1 !! k) →
  list_rep (delete (vkey (v_address v)) m2) (l1 ++ l2) ∧
  agrees m (delete (vkey (v_address v)) m2).
Proof.
  intros [Hh Hs Hnd Hwf Ho] Hs1 Hh1 Hf1 Hs2 Hf2.
  destruct (middle_ne l1 v l2 Hnd Hwf) as (Hv & Hd & _ & _ & Hnd').
  assert (∀ w, w ∈ l1 ++ v :: l2 → addr_wf (v_address w)) as Hw by (intros; by eapply elem_wf).
  assert (∀ k, k ≠ hkey → (∀ w, w ∈ l1 ++ v :: l2 → k ≠ vkey (v_address w)) →
            delete (vkey (v_address v)) m2 !! k = m !! k) as Hout.
  { intros k Hk Hkw. rewrite lookup_delete_ne by (symmetry; apply Hkw; set_solver).
    rewrite Hf2, Hf1; try done; intros; apply Hkw; set_solver. }
  split; [split|].
  - rewrite lookup_delete_ne by (apply vkey_head, Hw; set_solver).
    rewrite Hf2 by (intros; apply hkey_ne, Hw; set_solver). rewrite Hh1. by destruct l1.
  - apply seg_app. split.
    + eapply seg_frame; [|exact Hs1]. intros u Hu.
      rewrite lookup_delete_ne by (apply not_eq_sym, Hv; set_solver).
      apply Hf2. intros w Hw2. apply Hd; set_solver.
    + eapply seg_frame; [|exact Hs2]. intros u Hu.
      rewrite lookup_delete_ne by (apply not_eq_sym, Hv; set_solver). done.
  - done.
  - rewrite Forall_app, Forall_cons in Hwf. rewrite Forall_app. naive_solver.
  - intros a Ha Hna. destruct (decide (a = v_address v)) as [->|Hav].
    { by rewrite lookup_delete_eq. }
    rewrite Hout; [|by apply vkey_head|].
    + apply Ho; [done|]. rewrite fmap_app, fmap_cons in *. set_solver.
    + intros w Hwin. apply vkey_ne; [done|by apply Hw|]. intros ->.
      apply elem_of_app in Hwin as [?|[->|?]%elem_of_cons]; [|done|];
        (apply Hna, list_elem_of_fmap_2; set_solver).
  - intros k Hk Hka. apply Hout; [done|]. auto.
Qed.

(** [delete] unlinks the validator, wherever it is in the list. *)
Lemma delete_rep s m l1 v l2 :
  map_rep s m → list_rep m (l1 ++ v :: l2) →
  ∃ s' m', Staking.delete (E:=E) s (v_address v) = Ok s' ∧ map_rep s' m' ∧
           list_rep m' (l1 ++ l2) ∧ agrees m m'.
Proof.
  intros Hm Hl. pose proof Hl as [Hh Hs Hnd Hwf Ho].
  destruct (middle_ne l1 v l2 Hnd Hwf) as (_ & Hd & Hnd1 & Hnd2 & _).
  pose proof Hwf as [Hwf1 [Hwfv Hwf2]%Forall_cons]%Forall_app.
  apply seg_app in Hs as [Hs1 [Hv Hs2]]. cbn [first] in Hs1.
  destruct (unlink_prev_rep s m l1 (first l2 None) (Some (Validator.map_key v)))
    as (s1 & m1 & Hu1 & Hm1 & Hs1' & Hh1 & Hf1); auto.
  { rewrite Hh. by destruct l1. }
  { intros h. destruct l2; [done|]. intros [= <-]. apply map_key_nonempty. }
  destruct (unlink_next_rep s1 m1 l2 (last_key l1 None) (Some (Validator.map_key v)))
    as (s2 & m2 & Hu2 & Hm2 & Hs2' & Hf2); auto.
  { eapply seg_frame; [|exact Hs2]. intros w Hw. apply Hf1.
    - apply vkey_head. by apply (elem_wf l2).
    - intros u Hu. apply not_eq_sym, Hd; set_solver. }
  exists (Staking.unset s2 (Validator.key_index (v_address v))), (delete (vkey (v_address v)) m2).
  destruct (unlink_list_rep m m1 m2 l1 v l2) as [Hrep Hag]; auto.
  split_and!; [|by apply unset_rep|done|done].
  unfold Staking.delete. rewrite (get_rep s m _ Hm), bind_Ok. unfold vkey in Hv. rewrite Hv.
  rewrite deserialize_serialize. cbn [unwrap]. rewrite bind_Ok. cbn [pre next].
  unfold unlink_prev in Hu1. rewrite Hu1, bind_Ok.
  unfold unlink_next in Hu2. by rewrite Hu2, bind_Ok.
Qed.
End StakingOps.

(** ** The list and the ledger together *)
Section StakingState.
Context {S : Type} `{P : Profile, SL : StorageLaws S, HB : Blake2bLaws, SK : !StakingKeys, AK : !AddressKeys}.
Context `{BA : BincodeLaws Account, BE : BincodeLaws ListEntry}.
Context `{BM : Bincode MsgValidatorCreate, BZ : Bincode Z} {E : Type}.
Implicit Types (s : Staking S) (m : gmap bytes bytes) (L : ledger) (l : list Validator) (v : Validator).

(** The database holds the ledger [L] and the validators [l]. *)
Definition staking_rep s L l : Prop :=
  ∃ m, map_rep s m ∧ ledger_of m L ∧ list_rep m l.

Lemma agrees_ledger m m' L : agrees m m' → ledger_of m L → ledger_of m' L.
Proof.
  intros Hag HL a Ha. unfold stored_account. rewrite Hag; [by apply HL|..].
  - intros Heq%hash_bytes_inj. by eapply account_head.
  - intros a' Ha' Heq%hash_bytes_inj. by eapply (key_index_account a' a).
Qed.

Lemma list_rep_account m l a b :
  list_rep m l → addr_wf a → list_rep (<[hash_bytes (Balance.address_key a) := b]> m) l.
Proof.
  intros [Hh Hs Hnd Hwf Ho] Ha.
  assert (∀ a', addr_wf a' → hash_bytes (Balance.address_key a) ≠ vkey a') as Hne.
  { intros a' Ha' Heq%hash_bytes_inj. by eapply (key_index_account a' a). }
  split; [| |done|done|].
  - rewrite lookup_insert_ne; [done|]. intros Heq%hash_bytes_inj. by eapply account_head.
  - eapply seg_frame; [|done]. intros v Hv. apply lookup_insert_ne, Hne. by eapply elem_wf.
  - intros a' Ha' Hni. rewrite lookup_insert_ne by auto. by apply Ho.
Qed.

(** Operations of [Balance] on the shared database keep the list. *)
Definition balance_on (b : Balance S) : Staking S := mkStaking validators_head (treedb b).

Lemma update_keeps_list b L l a (f : Account → Outcome E Account) o :
  staking_rep (balance_on b) L l → addr_wf a →
  o = (x ← Balance.load_account b a; y ← f x; mret (Balance.set_account b a y)) →
  outcome_rel (λ b' L', staking_rep (balance_on b') L' l) o (Ledger.update L a f).
Proof.
  intros (m & [_ Hm] & HL & Hl) Ha ->.
  rewrite load_account_rep with (L:=L) by (done || by exists m). rewrite bind_Ok.
  apply outcome_rel_bind_eq. intros x _.
  eexists; split_and!; [split; [done|]|by apply ledger_of_set|by apply list_rep_account].
  apply st_set_rep; [done|apply serialize_nonempty].
Qed.

Ltac one_account :=
  intros Hs Ha; apply (update_keeps_list _ _ _ _ _ _ Hs Ha);
  unfold Balance.lock_balance, Balance.add_balance, Balance.sub_balance,
    Ledger.lock, Ledger.credit, Ledger.debit;
  destruct (Balance.load_account _ _); simpl; try done;
  repeat (destruct (add_u _ _ _) || destruct (sub_u _ _ _)); done.

Lemma lock_keeps_list b L l a (v : Z) :
  staking_rep (balance_on b) L l → addr_wf a →
  outcome_rel (λ b' L', staking_rep (balance_on b') L' l)
    (Balance.lock_balance (E:=E) b a v) (Ledger.update L a (Ledger.lock v)).
Proof. one_account. Qed.
Lemma add_keeps_list b L l a (v : Z) :
  staking_rep (balance_on b) L l → addr_wf a →
  outcome_rel (λ b' L', staking_rep (balance_on b') L' l)
    (Balance.add_balance (E:=E) b a v) (Ledger.update L a (Ledger.credit v)).
Proof. one_account. Qed.
Lemma sub_keeps_list b L l a (v : Z) :
  staking_rep (balance_on b) L l → addr_wf a →
  outcome_rel (λ b' L', staking_rep (balance_on b') L' l)
    (Balance.sub_balance (E:=E) b a v) (Ledger.update L a (Ledger.debit v)).
Proof. one_account. Qed.

Lemma transfer_keeps_list b L l from to (v : Z) :
  staking_rep (balance_on b) L l → addr_wf from → addr_wf to →
  outcome_rel (λ b' L', staking_rep (balance_on b') L' l)
    (Balance.transfer (E:=E) b from to v) (Ledger.transfer L from to v).
Proof.
  intros Hs Hf Ht. unfold Balance.transfer, Ledger.transfer.
  assert (ledger_rep b L) by (destruct Hs as (m & [_ Hm] & HL & _); by exists m).
  rewrite balance_rep with (L:=L) by done. rewrite bind_Ok.
  do 2 case_decide; try lia; [|done].
  eapply outcome_rel_bind; [by apply sub_keeps_list|]. intros b' L' Hs'. by apply add_keeps_list.
Qed.

Lemma staking_rep_on s L l r :
  staking_rep s L l ↔ head_key s = validators_head ∧ staking_rep (balance_on (mkBalance (state_db s) r)) L l.
Proof.
  split; [intros (m & [Hh Hm] & HL & Hl); split; [done|]; by exists m|].
  intros (Hh & m & [_ Hm] & HL & Hl). by exists m.
Qed.

(** Locking a stake changes the ledger and keeps the list. *)
Lemma lock_rep s L l a amount :
  staking_rep s L l → addr_wf a →
  outcome_rel (λ s' L', staking_rep s' L' l) (Staking.lock (E:=E) s a amount)
    (Ledger.update L a (Ledger.lock amount)).
Proof.
  intros [Hh Hs]%(staking_rep_on s L l NULL_ROOT) Ha. unfold Staking.lock, Balance.from_state.
  pose proof (lock_keeps_list _ L l a amount Hs Ha) as Hl.
  destruct (Balance.lock_balance _ _ _) as [b| |], (Ledger.update L a _); try done.
  simpl in *. by rewrite Hh.
Qed.

Lemma new_validator_insert s L l v :
  staking_rep s L l → addr_wf (v_address v) → v_address v ∉ v_address <$> l →
  ∃ s', Staking.insert (E:=E) s v = Ok s' ∧ staking_rep s' L (v :: l).
Proof.
  intros (m & Hm & HL & Hl) Hv Hni.
  destruct (insert_rep (E:=E) s m l v Hm Hl Hv Hni) as (s' & Hi & Hm').
  exists s'. split; [done|]. eexists; split_and!; [done| |by apply insert_map_rep].
  eapply agrees_ledger; [|done]. apply insert_map_agrees, Forall_cons. split; [done|]. apply Hl.
Qed.

Lemma listed_validator_set s L l v w :
  staking_rep s L l → w ∈ l → v_address w = v_address v →
  ∃ s', Staking.set_item (E:=E) s v = Ok s' ∧ staking_rep s' L (replace_payload (v_address v) v l).
Proof.
  intros (m & Hm & HL & Hl) Hw Heq.
  destruct (set_item_rep (E:=E) s m l v w Hm Hl Hw Heq) as (s' & m' & Hi & Hm' & Hl' & Hag).
  exists s'. split; [done|]. exists m'. split_and!; [done| |done]. by eapply agrees_ledger.
Qed.

Lemma staking_get_in s L l v :
  staking_rep s L l → v ∈ l → Staking.get_validator (E:=E) s (v_address v) = Ok (Some v).
Proof. intros (m & Hm & HL & Hl). by eapply get_validator_in. Qed.
Lemma staking_get_out s L l a :
  staking_rep s L l → addr_wf a → a ∉ v_address <$> l →
  Staking.get_validator (E:=E) s a = Ok None.
Proof. intros (m & Hm & HL & Hl). by eapply get_validator_out. Qed.
End StakingState.

(** ** Properties of staking *)
Section StakingProperties.
Context {S : Type} `{P : Profile, SL : StorageLaws S, HB : Blake2bLaws, SK : !StakingKeys, AK : !AddressKeys}.
Context `{BA : BincodeLaws Account, BE : BincodeLaws ListEntry}.
Context `{BM : Bincode MsgValidatorCreate, BZ : Bincode Z} {E : Type}.
Implicit Types (s : Staking S) (L : ledger) (l : list Validator) (v : Validator).

Definition fresh_validator a pk amount : Validator := mkValidator a pk amount amount 0 0 [] [].
Definition deposited v (balance amount : Z) : Validator :=
  mkValidator (v_address v) (v_pubkey v) balance (v_effective_balance v) (v_activate_height v)
    (v_exit_height v) (v_deposit_queue v ++ [mkLockingBalance amount 0]) (v_unlocked_queue v).
Definition exited v : Validator :=
  mkValidator (v_address v) (v_pubkey v) (v_balance v) (v_effective_balance v)
    (v_activate_height v) 0 (v_deposit_queue v) (v_unlocked_queue v).

Lemma validate_new s L l a pk amount :
  staking_rep s L l → addr_wf a → a ∉ v_address <$> l →
  outcome_rel (λ s' L', staking_rep s' L' (fresh_validator a pk amount :: l))
    (Staking.validate (E:=E) s a pk amount) (Ledger.update L a (Ledger.lock amount)).
Proof.
  intros Hs Ha Hni. unfold Staking.validate. rewrite (staking_get_out s L l a Hs Ha Hni), bind_Ok.
  destruct (new_validator_insert (E:=E) s L l (fresh_validator a pk amount) Hs Ha Hni)
    as (s' & Hi & Hs').
  unfold fresh_validator in Hi. rewrite Hi, bind_Ok. by apply lock_rep.
Qed.

Lemma validate_known s L l v pk amount :
  staking_rep s L l → v ∈ l → Staking.validate (E:=E) s (v_address v) pk amount = Ok s.
Proof.
  intros Hs Hv. unfold Staking.validate. by rewrite (staking_get_in s L l v Hs Hv).
Qed.

Lemma deposit_in s L l v amount :
  staking_rep s L l → v ∈ l → addr_wf (v_address v) →
  outcome_rel (λ s' r, staking_rep s' r.1 (replace_payload (v_address v) r.2 l))
    (Staking.deposit (E:=E) s (v_address v) amount)
    (balance ← add_u 128 (v_balance v) amount;
     L' ← Ledger.update L (v_address v) (Ledger.lock amount);
     mret (L', deposited v balance amount)).
Proof.
  intros Hs Hv Ha. unfold Staking.deposit. rewrite (staking_get_in s L l v Hs Hv), bind_Ok.
  apply outcome_rel_bind_eq. intros balance _.
  destruct (listed_validator_set (E:=E) s L l (deposited v balance amount) v Hs Hv eq_refl)
    as (s' & Hi & Hs'). unfold deposited in Hi. rewrite Hi, bind_Ok.
  pose proof (lock_rep (E:=E) s' L _ (v_address v) amount Hs' Ha) as Hl.
  destruct (Staking.lock s' _ _), (Ledger.update L _ _); done.
Qed.

Lemma exit_in s L l v :
  staking_rep s L l → v ∈ l →
  ∃ s', Staking.exit (E:=E) s (v_address v) = Ok s' ∧
        staking_rep s' L (replace_payload (v_address v) (exited v) l).
Proof.
  intros Hs Hv. unfold Staking.exit. rewrite (staking_get_in s L l v Hs Hv), bind_Ok.
  by apply (listed_validator_set s L l (exited v) v).
Qed.

(** The stored links represent the validator list: reading them back returns
    the validators in order once the loop has as many steps as the list is
    long, and a lookup by address finds exactly the listed validator. *)
Theorem validator_set_complete s L l fuel :
  staking_rep s L l → (length l ≤ fuel)%nat →
  Staking.validator_set (E:=E) fuel s = Some (Ok l) ∧
  (∀ v, v ∈ l → Staking.get_validator (E:=E) s (v_address v) = Ok (Some v)) ∧
  (∀ a, addr_wf a → a ∉ v_address <$> l → Staking.get_validator (E:=E) s a = Ok None).
Proof.
  intros Hs Hf. split_and!; [|intros; by eapply staking_get_in|intros; by eapply staking_get_out].
  destruct Hs as (m & Hm & _ & Hl). unfold Staking.validator_set. pose proof Hm as [Hh _].
  rewrite (get_rep s m _ Hm), Hh. fold hkey. rewrite (lr_head _ _ Hl).
  destruct l as [|v l]; [done|]. cbn [first fmap option_fmap option_map].
  rewrite map_key_from_bytes.
  exact (walk_rep s m (v :: l) None [] fuel Hm (lr_seg _ _ Hl) Hf).
Qed.

(** C13: Inserting a new validator puts it in front of the list, and deleting a
    validator, at whatever position, removes exactly it; neither touches an
    account. *)
Theorem insert_delete_spec s L l1 v l2 :
  addr_wf (v_address v) →
  (staking_rep s L (l1 ++ l2) → v_address v ∉ v_address <$> l1 ++ l2 →
   ∃ s', Staking.insert (E:=E) s v = Ok s' ∧ staking_rep s' L (v :: l1 ++ l2)) ∧
  (staking_rep s L (l1 ++ v :: l2) →
   ∃ s', Staking.delete (E:=E) s (v_address v) = Ok s' ∧ staking_rep s' L (l1 ++ l2)) ∧
  (staking_rep s L (l1 ++ l2) → v_address v ∉ v_address <$> l1 ++ l2 →
   Staking.delete (E:=E) s (v_address v) = Ok s).
Proof.
  intros Ha. split_and!.
  - intros Hs Hni. by apply new_validator_insert.
  - intros (m & Hm & HL & Hl).
    destruct (delete_rep (E:=E) s m l1 v l2 Hm Hl) as (s' & m' & Hd & Hm' & Hl' & Hag).
    exists s'. split; [done|]. exists m'. split_and!; [done| |done]. by eapply agrees_ledger.
  - intros (m & Hm & HL & Hl) Hni. unfold Staking.delete. rewrite (get_rep s m _ Hm), bind_Ok.
    pose proof (lr_only _ _ Hl _ Ha Hni) as Hk. unfold vkey in Hk. by rewrite Hk.
Qed.

(** Joining as a validator: a known address is ignored; a new one is put in
    front of the list with the stake locked when its balance covers it.  The
    funds are not checked first, so a stake above the balance panics with
    overflow checks. *)
Theorem validate_spec s L l a pk amount :
  staking_rep s L l → Ledger.wf L → addr_wf a → in_u 128 amount →
  (a ∈ v_address <$> l → Staking.validate (E:=E) s a pk amount = Ok s) ∧
  (a ∉ v_address <$> l → amount ≤ acc_balance (L a) → in_u 128 (acc_locked (L a) + amount) →
   ∃ s' x, Staking.validate (E:=E) s a pk amount = Ok s' ∧
     staking_rep s' (Ledger.set L a x) (fresh_validator a pk amount :: l) ∧
     acc_balance x = acc_balance (L a) - amount ∧ acc_locked x = acc_locked (L a) + amount) ∧
  (a ∉ v_address <$> l → acc_balance (L a) < amount → P = Dev →
   Staking.validate (E:=E) s a pk amount = Panic).
Proof.
  intros Hs Hwf Ha Hamt. destruct (Hwf a) as (Hb & _ & _). unfold in_u in Hb, Hamt. split_and!.
  - intros (v & -> & Hv)%list_elem_of_fmap. by eapply validate_known.
  - intros Hni Hle Hl. pose proof (validate_new s L l a pk amount Hs Ha Hni) as Hsim.
    unfold Ledger.update in Hsim. rewrite LedgerFacts.lock_in in Hsim by auto with ori.
    destruct (outcome_rel_Ok_inv_r _ _ _ _ Hsim eq_refl) as (s' & He & Hs'). eauto 10.
  - intros Hni Hlt HP. pose proof (validate_new s L l a pk amount Hs Ha Hni) as Hsim.
    unfold Ledger.update, Ledger.lock, sub_u in Hsim.
    rewrite arith_panic in Hsim by (done || unfold in_u; lia).
    by destruct (Staking.validate s a pk amount).
Qed.

Lemma activate_loop_release fuel d q e :
  P = Release → lb_height d ≤ 0 → Staking.activate_loop (E:=E) fuel (d :: q) e = None.
Proof.
  intros HP Hd. revert e; induction fuel as [|fuel IH]; intros e; simpl; [done|].
  rewrite decide_False by lia. unfold add_u, arith. case_decide; [apply IH|].
  subst P. simpl. apply IH.
Qed.

Lemma activate_loop_dev fuel d q e :
  P = Dev → lb_height d ≤ 0 →
  Staking.activate_loop (E:=E) fuel (d :: q) e = None ∨
  Staking.activate_loop (E:=E) fuel (d :: q) e = Some Panic.
Proof.
  intros HP Hd. revert e; induction fuel as [|fuel IH]; intros e; simpl; [auto|].
  rewrite decide_False by lia. unfold add_u, arith. case_decide; [apply IH|].
  subst P. simpl. auto.
Qed.

Lemma activate_loop_panics n d q e :
  P = Dev → lb_height d ≤ 0 → 0 < lb_amount d → 2 ^ 128 ≤ e + Z.of_nat n * lb_amount d →
  Staking.activate_loop (E:=E) (Datatypes.S n) (d :: q) e = Some Panic.
Proof.
  intros HP Hd Ha. revert e; induction n as [|n IH]; intros e He; simpl;
    rewrite decide_False by lia; unfold add_u.
  - rewrite arith_panic by (done || unfold in_u; lia). done.
  - destruct (decide (in_u 128 (e + lb_amount d))) as [Hin|Hout].
    + rewrite arith_in by done. apply IH. lia.
    + by rewrite arith_panic.
Qed.

(** C14: A due deposit is never activated: the loop does not advance along the
    queue.  Without overflow checks it never returns; with them it never
    returns a value, and it panics after finitely many rounds when the amount
    is positive. *)
Theorem activate_deposit_diverges s L l v d q :
  staking_rep s L l → v ∈ l → v_deposit_queue v = d :: q → lb_height d ≤ 0 →
  (P = Release → ∀ fuel, Staking.activate_deposit (E:=E) fuel s (v_address v) = None) ∧
  (P = Dev → (∀ fuel, Staking.activate_deposit (E:=E) fuel s (v_address v) = None ∨
                      Staking.activate_deposit (E:=E) fuel s (v_address v) = Some Panic) ∧
     (0 < lb_amount d → ∃ fuel,
        Staking.activate_deposit (E:=E) fuel s (v_address v) = Some Panic)).
Proof.
  intros Hs Hv Hq Hd. unfold Staking.activate_deposit.
  rewrite (staking_get_in s L l v Hs Hv), Hq. split; [|intros HP; split].
  - intros HP fuel. by rewrite activate_loop_release.
  - intros fuel. destruct (activate_loop_dev fuel d q (v_effective_balance v) HP Hd) as [->| ->]; auto.
  - intros Ha. set (n := Z.to_nat (2 ^ 128 - v_effective_balance v)). exists (Datatypes.S n).
    rewrite activate_loop_panics; [done..|]. subst n.
    destruct (decide (0 ≤ 2 ^ 128 - v_effective_balance v)).
    + rewrite Z2Nat.id by lia. nia.
    + lia.
Qed.
End StakingProperties.

(** ** Stakes stay backed by locked funds *)
Section StakeInvariant.
Context {S : Type} `{P : Profile, SL : StorageLaws S, HB : Blake2bLaws, SK : !StakingKeys, AK : !AddressKeys}.
Context `{BA : BincodeLaws Account, BE : BincodeLaws ListEntry}.
Context `{BM : Bincode MsgValidatorCreate, BZ : Bincode Z} {E : Type}.
Implicit Types (s : Staking S) (L : ledger) (l : list Validator) (v : Validator).

(** The calls that reach the validator list and the accounts; decoded amounts
    are [u128]. *)
Inductive stake_step : Staking S → Staking S → Prop :=
  | step_validate s a input s' :
      addr_wf a → (∀ m, deserialize input = Some m → in_u 128 (vc_amount m)) →
      Staking.exec_validate (E:=E) s a input = Ok s' → stake_step s s'
  | step_deposit s a input s' :
      addr_wf a → (∀ n : Z, deserialize input = Some n → in_u 128 n) →
      Staking.exec_deposit (E:=E) s a input = Ok s' → stake_step s s'
  | step_activate fuel s a s' :
      addr_wf a → Staking.activate_deposit (E:=E) fuel s a = Some (Ok s') → stake_step s s'
  | step_exit s a input s' :
      addr_wf a → Staking.exec_exit (E:=E) s a input = Ok s' → stake_step s s'
  | step_delete s a s' :
      addr_wf a → Staking.delete (E:=E) s a = Ok s' → stake_step s s'
  | step_transfer s from to (v : Z) b' :
      addr_wf from → addr_wf to → in_u 128 v →
      Balance.transfer (E:=E) (Balance.from_state (state_db s)) from to v = Ok b' →
      stake_step s (mkStaking (head_key s) (treedb b')).

(** Every stake is covered by the funds its owner has locked. *)
Definition backed L l : Prop := ∀ v, v ∈ l → v_balance v ≤ acc_locked (L (v_address v)).
Definition stake_inv s : Prop := ∃ L l, staking_rep s L l ∧ Ledger.wf L ∧ backed L l.

Lemma locked_update L a amount L' :
  P = Dev → Ledger.update (E:=E) L a (Ledger.lock amount) = Ok L' →
  acc_locked (L' a) = acc_locked (L a) + amount ∧ (∀ a', a' ≠ a → L' a' = L a').
Proof.
  intros HP (x & Hx & ->)%LedgerFacts.update_inv. unfold Ledger.lock in Hx.
  apply bind_Ok_inv in Hx as (b & [-> _]%arith_dev & Hx); [|done].
  apply bind_Ok_inv in Hx as (k & [-> _]%arith_dev & [= <-]); [|done].
  split; [by rewrite LedgerFacts.set_eq|]. intros. by apply LedgerFacts.set_ne.
Qed.

Lemma listed_or_not l a : (∃ v, v ∈ l ∧ v_address v = a) ∨ a ∉ v_address <$> l.
Proof.
  destruct (decide (a ∈ v_address <$> l)) as [(v & -> & Hv)%list_elem_of_fmap|]; eauto.
Qed.

Lemma staking_listed_wf s L l v : staking_rep s L l → v ∈ l → addr_wf (v_address v).
Proof. intros (m & _ & _ & Hl) Hv. exact (elem_wf _ _ (lr_wf _ _ Hl) Hv). Qed.

Lemma validate_inv s a pk amount s' :
  P = Dev → stake_inv s → addr_wf a → in_u 128 amount →
  Staking.validate (E:=E) s a pk amount = Ok s' → stake_inv s'.
Proof.
  intros HP (L & l & Hs & Hwf & Hb) Ha Hamt He. destruct (listed_or_not l a) as [(v & Hv & <-)|Hni].
  { rewrite (validate_known s L l v) in He by done. simplify_eq. by exists L, l. }
  destruct (outcome_rel_Ok_inv _ _ _ _ (validate_new s L l a pk amount Hs Ha Hni) He)
    as (L' & Hu & Hs').
  destruct (locked_update L a amount L' HP Hu) as [Hk Ho].
  exists L', (fresh_validator a pk amount :: l). split_and!; [done| |].
  - eapply LedgerFacts.update_wf; [done| |done]. intros x y. apply LedgerFacts.lock_wf.
  - intros w [->|Hw]%elem_of_cons; simpl.
    + rewrite Hk. destruct (Hwf a) as (_ & _ & Hl). unfold in_u in Hl. lia.
    + rewrite Ho; [by apply Hb|]. intros <-. by apply Hni, list_elem_of_fmap_2.
Qed.

Lemma deposit_inv s a amount s' :
  P = Dev → stake_inv s → addr_wf a → in_u 128 amount →
  Staking.deposit (E:=E) s a amount = Ok s' → stake_inv s'.
Proof.
  intros HP (L & l & Hs & Hwf & Hb) Ha Hamt He. destruct (listed_or_not l a) as [(v & Hv & <-)|Hni].
  2:{ unfold Staking.deposit in He. rewrite (staking_get_out s L l a Hs Ha Hni) in He.
      simpl in He. simplify_eq. by exists L, l. }
  destruct (outcome_rel_Ok_inv _ _ _ _ (deposit_in s L l v amount Hs Hv Ha) He) as (r & Hr & Hs').
  apply bind_Ok_inv in Hr as (balance & [-> _]%arith_dev & Hr); [|done].
  apply bind_Ok_inv in Hr as (L' & Hu & [= <-]). simpl in Hs'.
  destruct (locked_update L _ amount L' HP Hu) as [Hk Ho].
  exists L', (replace_payload (v_address v) (deposited v (v_balance v + amount) amount) l).
  split_and!; [done| |].
  - eapply LedgerFacts.update_wf; [done| |done]. intros x y. apply LedgerFacts.lock_wf.
  - intros w (u & -> & Hu')%list_elem_of_fmap. case_decide as Heq; simpl.
    + rewrite Hk. specialize (Hb v Hv). lia.
    + rewrite Ho by done. by apply Hb.
Qed.

(** A validator is stored again with the same balance. *)
Lemma set_item_inv s L l v v' s' :
  staking_rep s L l → Ledger.wf L → backed L l → v ∈ l → Staking.set_item (E:=E) s v' = Ok s' →
  v_address v' = v_address v → v_balance v' = v_balance v → stake_inv s'.
Proof.
  intros Hs Hwf Hb Hv He Ha Hbal. destruct (listed_validator_set (E:=E) s L l v' v Hs Hv (eq_sym Ha)) as (s1 & He1 & Hs').
  rewrite He in He1. simplify_eq. eexists L, _. split_and!; [exact Hs'|done|].
  intros w (u & -> & Hu)%list_elem_of_fmap. case_decide; [rewrite Ha, Hbal|]; by apply Hb.
Qed.
Lemma exit_inv s a s' :
  stake_inv s → addr_wf a → Staking.exit (E:=E) s a = Ok s' → stake_inv s'.
Proof.
  intros (L & l & Hs & Hwf & Hb) Ha He. unfold Staking.exit in He. destruct (listed_or_not l a) as [(v & Hv & <-)|Hni].
  - rewrite (staking_get_in s L l v Hs Hv), bind_Ok in He. exact (set_item_inv s L l v _ s' Hs Hwf Hb Hv He eq_refl eq_refl).
  - rewrite (staking_get_out s L l a Hs Ha Hni) in He. simpl in He. simplify_eq. by exists L, l.
Qed.
Lemma activate_inv fuel s a s' :
  stake_inv s → addr_wf a → Staking.activate_deposit (E:=E) fuel s a = Some (Ok s') → stake_inv s'.
Proof.
  intros (L & l & Hs & Hwf & Hb) Ha He. unfold Staking.activate_deposit in He. destruct (listed_or_not l a) as [(v & Hv & <-)|Hni].
  - rewrite (staking_get_in s L l v Hs Hv) in He. destruct (Staking.activate_loop _ _ _) as [r|]; [|done].
    injection He as He. apply bind_Ok_inv in He as (effective & _ & He).
    exact (set_item_inv s L l v _ s' Hs Hwf Hb Hv He eq_refl eq_refl).
  - rewrite (staking_get_out s L l a Hs Ha Hni) in He. simplify_eq. by exists L, l.
Qed.

Lemma delete_inv s a s' :
  stake_inv s → addr_wf a → Staking.delete (E:=E) s a = Ok s' → stake_inv s'.
Proof.
  intros (L & l & Hs & Hwf & Hb) Ha He. destruct Hs as (m & Hm & HL & Hl).
  destruct (listed_or_not l a) as [(v & Hv & <-)|Hni].
  - apply list_elem_of_split in Hv as (l1 & l2 & ->).
    destruct (delete_rep (E:=E) s m l1 v l2 Hm Hl) as (s1 & m' & He1 & Hm' & Hl' & Hag).
    rewrite He in He1. simplify_eq. exists L, (l1 ++ l2). split_and!; [|done|].
    + exists m'. split_and!; [done|by eapply agrees_ledger|done].
    + intros w Hw. apply Hb. set_solver.
  - unfold Staking.delete in He. rewrite (get_rep s m _ Hm), bind_Ok in He.
    pose proof (lr_only _ _ Hl _ Ha Hni) as Hk. unfold vkey in Hk. rewrite Hk in He. simplify_eq.
    exists L, l. split_and!; [by exists m|done..].
Qed.

Lemma transfer_inv s from to (v : Z) b' :
  P = Dev → stake_inv s → addr_wf from → addr_wf to →
  Balance.transfer (E:=E) (Balance.from_state (state_db s)) from to v = Ok b' →
  stake_inv (mkStaking (head_key s) (treedb b')).
Proof.
  intros HP (L & l & [Hh Hs]%(staking_rep_on s L l NULL_ROOT) & Hwf & Hb) Hf Ht He.
  destruct (outcome_rel_Ok_inv _ _ _ _ (transfer_keeps_list _ L l from to v Hs Hf Ht) He)
    as (L' & Hu & Hs').
  assert (Ledger.wf L' ∧ ∀ a, acc_locked (L' a) = acc_locked (L a)) as [Hwf' Hlk].
  { unfold Ledger.transfer in Hu. case_decide; [|by simplify_eq].
    apply bind_Ok_inv in Hu as (L1 & Hu1 & Hu). split.
    - eapply LedgerFacts.update_wf; [| |exact Hu]; [|intros ??; apply LedgerFacts.credit_wf].
      eapply LedgerFacts.update_wf; [| |exact Hu1]; [done|intros ??; apply LedgerFacts.debit_wf].
    - apply LedgerFacts.update_inv in Hu as (y & Hy & ->).
      apply LedgerFacts.update_inv in Hu1 as (x & Hx & ->). intros a.
      unfold Ledger.debit, Ledger.credit in Hx, Hy. outcome_inv.
      unfold Ledger.set. repeat (case_decide; simpl; subst); done. }
  exists L', l. split_and!; [|done|].
  - apply (staking_rep_on _ L' l NULL_ROOT). split; [done|]. exact Hs'.
  - intros w Hw. rewrite Hlk. by apply Hb.
Qed.

(** C12: In a build with overflow checks, along any sequence of calls that return, of
    joining, depositing, activating deposits, exiting and deleting validators and of
    transfers between accounts, the validator list stays well formed and every
    validator's balance stays covered by the locked balance of its account. *)
Theorem stake_backed_reachable s s' :
  P = Dev → rtc stake_step s s' → stake_inv s → stake_inv s'.
Proof.
  intros HP Hr. induction Hr as [|s1 s2 s3 Hstep _ IH]; intros Hi; [done|]. apply IH. clear IH.
  destruct Hstep as [s a input s' Ha Hm He|s a input s' Ha Hm He|fuel s a s' Ha He|s a input s' Ha He|
    s a s' Ha He|s from to v b' Hf Ht Hv He].
  - unfold Staking.exec_validate in He. destruct (deserialize input) as [m|]; [|by simplify_eq].
    exact (validate_inv s a _ _ s' HP Hi Ha (Hm m eq_refl) He).
  - unfold Staking.exec_deposit in He. destruct (deserialize input) as [n|]; [|by simplify_eq].
    exact (deposit_inv s a _ s' HP Hi Ha (Hm n eq_refl) He).
  - exact (activate_inv fuel s a s' Hi Ha He).
  - exact (exit_inv s a s' Hi Ha He).
  - exact (delete_inv s a s' Hi Ha He).
  - exact (transfer_inv s from to v b' HP Hi Hf Ht He).
Qed.
End StakeInvariant.

(** ** Worked examples *)
Lemma example_key_index a :
  addr_wf a →
  @Validator.key_index example_blake2b a = mkHash (replicate 12 64 ++ addr_bytes a).
Proof.
  intros [Hl Hb].
  unfold Validator.key_index, Hash.as_bytes, Address.as_slice. rewrite (from_bytes_20 _ Hl).
  cbn [hash_bytes]. f_equal.
  pose proof (example_digest (addr_bytes a)
    (hash_bytes (Hash.from_bytes (to_be_bytes 8 Validator_prefix))) Hl Hb (or_intror eq_refl)) as Hd.
  rewrite app_assoc in Hd. exact Hd.
Qed.

Lemma example_staking_keys : @StakingKeys example_blake2b.
Proof.
  split.
  - intros [a] [a'] Ha Ha'. rewrite !example_key_index by done. intros [= Heq].
    simpl in Heq. by simplify_eq.
  - intros a Ha. by rewrite example_key_index.
  - intros a a' Ha Ha'. by rewrite example_key_index, example_address_key.
  - intros a Ha. by rewrite example_address_key.
Qed.

Module StakeEx.
Export Ex.
#[export] Existing Instance example_staking_keys.
#[export] Instance ex_bin_entry : Bincode ListEntry := example_bincode.
#[export] Instance ex_bin_entry_laws : BincodeLaws ListEntry := example_bincode_laws.
#[export] Instance ex_bin_create : Bincode MsgValidatorCreate := example_bincode.
#[export] Instance ex_bin_Z : Bincode Z := example_bincode.

(** Two funded accounts and no validator. *)
Definition s0 : Staking (StateDB MemoryKV ex_mem) := Staking.new (treedb b2).
Lemma s0_rep : staking_rep s0 L2 [].
Proof.
  apply (staking_rep_on s0 L2 [] NULL_ROOT). split; [reflexivity|].
  assert (staking_rep (balance_on b0) Ledger.empty []) as H0.
  { exists ∅. split_and!; [split; [done|exact ex_state_rep]| |].
    - intros a _. unfold stored_account. by rewrite lookup_empty.
    - split; try done; try constructor. }
  unfold s0, b2, L2.
  pose proof (update_keeps_list (E:=unit) b0 _ _ (addr 1) (λ _, Ok (acc 100000 0)) _ H0
    (addr_ok 1) eq_refl) as H1.
  rewrite (load_account_rep (E:=unit) b0 _ _ b0_rep (addr_ok 1)) in H1. simpl in H1.
  pose proof (update_keeps_list (E:=unit) _ _ _ (addr 2) (λ _, Ok (acc 5 0)) _ H1
    (addr_ok 2) eq_refl) as H2.
  rewrite (load_account_rep (E:=unit) _ (Ledger.set Ledger.empty (addr 1) (acc 100000 0)))
    in H2; [exact H2| |apply addr_ok].
  apply set_account_rep; [apply b0_rep|apply addr_ok].
Qed.
Lemma s0_inv : stake_inv s0.
Proof. exists L2, []. split_and!; [apply s0_rep|apply L2_wf|]. intros v Hv. by apply elem_of_nil in Hv. Qed.

(** One validator with a pending deposit. *)
Definition v1 : Validator := mkValidator (addr 1) [] 7 7 0 0 [mkLockingBalance 3 0] [].
Lemma s1_exists : ∃ s1, Staking.insert (E:=unit) s0 v1 = Ok s1 ∧ staking_rep s1 L2 [v1].
Proof. apply new_validator_insert; [apply s0_rep|apply addr_ok|by intros ?%elem_of_nil]. Qed.
End StakeEx.

Section StakingWitnesses.
Import StakeEx.

Lemma validator_set_complete_witness :
  ∃ s1, Staking.insert (E:=unit) s0 v1 = Ok s1 ∧
        Staking.validator_set (E:=unit) 1 s1 = Some (Ok [v1]).
Proof.
  destruct s1_exists as (s1 & Hi & Hs). exists s1. split; [exact Hi|].
  apply (validator_set_complete s1 L2 [v1] 1 Hs (le_n 1)).
Defined.

Lemma insert_delete_spec_witness :
  ∃ s1 s2, Staking.insert (E:=unit) s0 v1 = Ok s1 ∧
    Staking.delete (E:=unit) s1 (addr 1) = Ok s2 ∧ staking_rep s2 L2 [].
Proof.
  destruct s1_exists as (s1 & Hi & Hs).
  destruct (insert_delete_spec (E:=unit) s1 L2 [] v1 [] (addr_ok 1)) as (_ & Hd & _).
  destruct (Hd Hs) as (s2 & Hd2 & Hs2). exists s1, s2. split; [exact Hi|]. split; [exact Hd2|exact Hs2].
Defined.

Lemma validate_spec_witness :
  ∃ s' x, Staking.validate (P:=Dev) (E:=unit) s0 (addr 1) [] 70 = Ok s' ∧
    staking_rep s' (Ledger.set L2 (addr 1) x) [fresh_validator (addr 1) [] 70] ∧
    acc_locked x = 70.
Proof.
  destruct (validate_spec (P:=Dev) (E:=unit) s0 L2 [] (addr 1) [] 70 s0_rep L2_wf (addr_ok 1))
    as (_ & Hv & _); [by vm_compute|].
  destruct Hv as (s' & x & He & Hr & _ & Hx); [by intros ?%elem_of_nil|by vm_compute|by vm_compute|].
  exists s', x. split; [exact He|]. split; [exact Hr|]. exact Hx.
Defined.

Lemma activate_deposit_diverges_witness :
  ∃ s1, Staking.insert (E:=unit) s0 v1 = Ok s1 ∧
    ∀ fuel, Staking.activate_deposit (P:=Release) (E:=unit) fuel s1 (addr 1) = None.
Proof.
  destruct s1_exists as (s1 & Hi & Hs). exists s1. split; [exact Hi|].
  apply (activate_deposit_diverges (P:=Release) s1 L2 [v1] v1 (mkLockingBalance 3 0) [] Hs);
    [by apply list_elem_of_singleton|reflexivity|simpl; lia|reflexivity].
Defined.

Lemma stake_backed_reachable_witness :
  ∃ s', Staking.exec_validate (P:=Dev) (E:=unit) s0 (addr 1)
          (serialize (mkMsgValidatorCreate [] 70)) = Ok s' ∧ stake_inv s'.
Proof.
  destruct (is_ok_inv (Staking.exec_validate (P:=Dev) (E:=unit) s0 (addr 1)
    (serialize (mkMsgValidatorCreate [] 70)))) as [s' He]; [vm_compute; reflexivity|].
  exists s'. split; [exact He|].
  apply (stake_backed_reachable (P:=Dev) (E:=unit) s0 s'); [reflexivity| |exact s0_inv].
  apply rtc_once. eapply (step_validate _ (addr 1)); [apply addr_ok| |exact He].
  intros m Hm. assert (m = mkMsgValidatorCreate [] 70) as ->; [|by vm_compute].
  vm_compute in Hm. by injection Hm as <-.
Defined.
End StakingWitnesses.
