(* ===== verification/Runtime.v ===== *)
(** * Runtime: message dispatch and the genesis state
    (src/core/src/runtime.rs, src/core/src/genesis.rs) *)
From S2P Require Import Prelude Hashing Types Codec Keys Store State StateExample.
From S2P Require Import Transaction Storage Balance Block Staking.
From Stdlib Require String.
Import (notations) String.

(** ** The interpreter

    It only holds the shared database. *)
Module Interpreter.
Section Interpreter.
Context {S : Type} `{P : Profile, Storage S, Blake2b}.
Context `{Bincode Account, Bincode MsgTransfer, Bincode ListEntry, Bincode MsgValidatorCreate, Bincode Z}.
Context {E : Type}.

(** [msg.iter().position(|&x| x == c)] *)
Fixpoint position (c : Z) (msg : bytes) : option nat :=
  match msg with
  | [] => None
  | x :: msg => if decide (x = c) then Some O else Datatypes.S <$> position c msg
  end.

(** [split_at] leaves the separator at the front of the second part. *)
Definition call (state_db : S) (caller : Address) (msg input : bytes) : Outcome E S :=
  match position 46 msg with
  | None => Ok state_db
  | Some sep =>
      let module_ := take sep msg in
      let func := drop sep msg in
      if decide (module_ = bytes_of "balance"%string) then
        if decide (func = bytes_of "transfer"%string) then
          b ← Balance.exec_transfer (Balance.from_state state_db) caller input;
          mret (treedb b)
        else Ok state_db
      else if decide (module_ = bytes_of "staking"%string) then
        if decide (func = bytes_of "validate"%string) then
          s ← Staking.exec_validate (Staking.from_state state_db) caller input;
          mret (Staking.state_db s)
        else if decide (func = bytes_of "deposit"%string) then
          s ← Staking.exec_deposit (Staking.from_state state_db) caller input;
          mret (Staking.state_db s)
        else Ok state_db
      else Ok state_db
  end.
End Interpreter.
End Interpreter.

(** ** Genesis *)
Definition ed_genesis_priv_key : bytes :=
  [249; 203; 126; 161; 115; 132; 10; 235; 164; 252; 129; 70; 116; 52; 100; 205; 174; 62; 85;
   39; 65; 72; 114; 21; 95; 227; 49; 189; 42; 52; 84; 162].
Definition ed_genesis_pub_key : bytes :=
  [243; 168; 124; 46; 165; 43; 188; 124; 215; 100; 221; 215; 249; 71; 217; 60; 226; 13; 9;
   72; 114; 24; 80; 73; 118; 31; 251; 38; 82; 192; 147; 7].
Definition GENESIS_TIME : Z := 1597916633.

Definition ALLOCATION : list (bytes * Z) :=
  [(bytes_of "0xd2480451ef35ff2fdd7c69cad058719b9dc4d631"%string, 1000000000000000000)].
Definition VALIDATORS : list (bytes * bytes * Z) :=
  [(bytes_of "0xd2480451ef35ff2fdd7c69cad058719b9dc4d631"%string,
    bytes_of "0xf3a87c2ea52bbc7cd764ddd7f947d93ce20d094872185049761ffb2652c09307"%string, 0)].

Section Genesis.
Context {S : Type} `{P : Profile, Storage S, Blake2b, Hex}.
Context `{Bincode Account, Bincode ListEntry, Bincode (list Transaction)}.
Context `{Bincode (list VerificationItem)} {E : Type}.

Definition to_genesis : Block :=
  let b := Block_default in
  let h := mkHeader 0 (mkHash (replicate 32 0)) (slot (header b)) (vrf_output (header b))
             (vrf_proof (header b)) (get_hash_from_txs (txs b))
             (get_hash_from_signs (block_signs b)) (hdr_state_root (header b)) GENESIS_TIME in
  mkBlock h (block_signs b) (txs b)
    (proofs b ++ [mkBlockProof ed_genesis_pub_key (replicate 32 0) 0]).

Fixpoint allocate (l : list (bytes * Z)) (state : Balance S) : Outcome E (Balance S) :=
  match l with
  | [] => Ok state
  | (addr, value) :: l =>
      a ← unwrap_res (Address.from_hex addr);
      state ← Balance.add_balance state a value;
      allocate l state
  end.

Fixpoint add_validators (l : list (bytes * bytes * Z)) (state : Staking S)
    : Outcome E (Staking S) :=
  match l with
  | [] => Ok state
  | (addr, pk, value) :: l =>
      a ← unwrap_res (Address.from_hex addr);
      k ← Pubkey.from_hex pk;
      state ← Staking.insert state (mkValidator a (Pubkey.to_bytes k) 0 value 0 0 [] []);
      add_validators l state
  end.

Definition setup_allocation (db : S) : Outcome E (S * Hash) :=
  state ← allocate ALLOCATION (Balance.new db);
  c ← Balance.commit state;
  let db := treedb c.1 in
  state ← add_validators (rev VALIDATORS) (Staking.new db);
  db ← st_commit (Staking.state_db state);
  mret (db, st_root db).
End Genesis.

(** ** Properties of the interpreter *)
Lemma position_drop c msg i :
  Interpreter.position c msg = Some i → drop i msg = c :: drop (Datatypes.S i) msg.
Proof.
  revert i; induction msg as [|x msg IH]; intros i; simpl; [done|].
  case_decide as Hx; [by intros [= <-]; subst|].
  destruct (Interpreter.position c msg) as [j|]; simpl; [|done]. intros [= <-].
  by apply IH.
Qed.

Section InterpreterProperties.
Context {S : Type} `{P : Profile, ST : Storage S, HB : Blake2b}.
Context `{BA : Bincode Account, BT : Bincode MsgTransfer, BE : Bincode ListEntry}.
Context `{BM : Bincode MsgValidatorCreate, BZ : Bincode Z} {E : Type}.

(** No message is ever dispatched: the function name compared still has the
    separator in front, so every call returns with the state unchanged,
    whatever the module, the function and the input. *)
Theorem call_never_dispatches (s : S) caller msg input :
  Interpreter.call (E:=E) s caller msg input = Ok s.
Proof.
  unfold Interpreter.call. destruct (Interpreter.position 46 msg) as [i|] eqn:Hp; [|done].
  apply position_drop in Hp. rewrite Hp. by repeat (case_decide; [|try done]).
Qed.
End InterpreterProperties.

(** ** Properties of the genesis state *)
Definition genesis_addr : Address := mkAddress
  [0xd2; 0x48; 0x04; 0x51; 0xef; 0x35; 0xff; 0x2f; 0xdd; 0x7c; 0x69; 0xca; 0xd0; 0x58; 0x71;
   0x9b; 0x9d; 0xc4; 0xd6; 0x31].
Lemma genesis_addr_wf : addr_wf genesis_addr.
Proof. split; [done|]. unfold is_byte. simpl. repeat constructor; lia. Qed.

Section GenesisProperties.
Context {S : Type} `{P : Profile, SL : StorageLaws S, HB : Blake2bLaws, SK : !StakingKeys, AK : !AddressKeys}.
Context `{HX : HexLaws, BA : BincodeLaws Account, BE : BincodeLaws ListEntry} {E : Type}.

Definition genesis_ledger : ledger :=
  Ledger.set Ledger.empty genesis_addr (mkAccount 1000000000000000000 0 0).
Definition genesis_validator : Validator :=
  mkValidator genesis_addr ed_genesis_pub_key 0 0 0 0 [] [].

Lemma genesis_addr_hex :
  Address.from_hex (bytes_of "0xd2480451ef35ff2fdd7c69cad058719b9dc4d631"%string) = Ok genesis_addr.
Proof.
  pose proof (Address_from_hex_encode genesis_addr genesis_addr_wf) as [_ Hx].
  rewrite hex_encode_spec in Hx by apply genesis_addr_wf. exact Hx.
Qed.

Lemma genesis_key_hex :
  Pubkey.from_hex (E:=E)
    (bytes_of "0xf3a87c2ea52bbc7cd764ddd7f947d93ce20d094872185049761ffb2652c09307"%string)
  = Ok (mkPubkey ed_genesis_pub_key).
Proof.
  assert (Forall is_byte ed_genesis_pub_key) as Hb
    by (unfold ed_genesis_pub_key, is_byte; repeat constructor; lia).
  unfold Pubkey.from_hex.
  change (Hash.strip_0x _) with (hex_digits ed_genesis_pub_key).
  rewrite <-hex_encode_spec, hex_decode_encode by done. reflexivity.
Qed.

Lemma empty_staking_rep (s : S) : st_rep s ∅ → staking_rep (Staking.new s) Ledger.empty [].
Proof.
  intros Hs. exists ∅. split_and!; [by split| |].
  - intros a _. unfold stored_account. by rewrite lookup_empty.
  - split; try done; constructor.
Qed.

Lemma setup_allocation_rep (s : S) :
  st_rep s ∅ →
  ∃ s' r, setup_allocation (E:=E) s = Ok (s', r) ∧
    staking_rep (Staking.new s') genesis_ledger [genesis_validator] ∧
    r = st_root s' ∧ ∃ m, st_rep s' m ∧ st_saved s' r m ∧ ledger_of m genesis_ledger ∧
      list_rep m [genesis_validator].
Proof.
  intros Hs. unfold setup_allocation, ALLOCATION, VALIDATORS. cbn [allocate rev app add_validators].
  rewrite genesis_addr_hex. cbn [unwrap_res]. rewrite bind_Ok.
  pose proof (add_keeps_list (E:=E) (Balance.new s) Ledger.empty [] genesis_addr
    1000000000000000000 (empty_staking_rep s Hs) genesis_addr_wf) as Hadd.
  unfold Ledger.update in Hadd. rewrite LedgerFacts.credit_in in Hadd by (unfold in_u; simpl; lia).
  destruct (outcome_rel_Ok_inv_r _ _ _ _ Hadd eq_refl) as (b1 & -> & m & [_ Hm] & HL & Hl).
  rewrite !bind_Ok. cbn [balance_on Staking.state_db] in Hm. unfold Balance.commit.
  destruct (st_commit_rep (E:=E) _ m Hm) as (s1 & -> & Hm1 & _).
  rewrite !bind_Ok. cbv [mret outcome_mret]. rewrite !bind_Ok. cbn [fst treedb].
  rewrite genesis_key_hex, bind_Ok.
  destruct (new_validator_insert (E:=E) (Staking.new s1) _ [] genesis_validator
    ltac:(by exists m) genesis_addr_wf) as (t & Hi & Ht); [by intros ?%elem_of_nil|].
  unfold genesis_validator in Hi. cbn [Pubkey.to_bytes pk_inner]. rewrite Hi, !bind_Ok.
  destruct Ht as (m2 & [Hh2 Hm2] & HL2 & Hl2).
  destruct (st_commit_rep (E:=E) _ m2 Hm2) as (s2 & -> & Hm3 & Hr). rewrite bind_Ok.
  exists s2, (st_root s2). split_and!; [done| |done|by exists m2; split_and!].
  exists m2. split_and!; [by split|exact HL2|done].
Qed.

(** Setting up the genesis state of an empty database funds the one allocated
    account, lists the one genesis validator, and commits: the returned root
    is the root of the stored state. *)
Theorem setup_allocation_spec (s : S) :
  st_rep s ∅ →
  ∃ s' r, setup_allocation (E:=E) s = Ok (s', r) ∧
    staking_rep (Staking.new s') genesis_ledger [genesis_validator] ∧
    r = st_root s' ∧ ∃ m, st_rep s' m ∧ st_saved s' r m ∧ ledger_of m genesis_ledger ∧
      list_rep m [genesis_validator].
Proof. apply setup_allocation_rep. Qed.
End GenesisProperties.

Section RuntimeWitnesses.
Import StakeEx.
#[local] Existing Instance example_hex.
#[local] Existing Instance example_hex_laws.

Lemma setup_allocation_spec_witness :
  ∃ s' r, setup_allocation (P:=Dev) (E:=unit) ex_state = Ok (s', r) ∧
    staking_rep (Staking.new s') genesis_ledger [genesis_validator].
Proof.
  destruct (setup_allocation_spec (P:=Dev) (E:=unit) ex_state)
    as (s' & r & He & Hs & _); [exact ex_state_rep|].
  exists s', r. split; [exact He|exact Hs].
Defined.
End RuntimeWitnesses.
