(* ===== verification/Messages.v ===== *)
(** * Messages: what nodes say to each other (src/network/src/p2p)

    The request and response types of the wire protocol (methods.rs,
    protocol.rs, mod.rs), and the messages the network service is sent
    (src/network/src/manager.rs).  Peers are identified by an opaque type of
    libp2p, a parameter. *)
From Stdlib Require String.
From S2P Require Import Prelude Hashing Types Codec.
Import (notations) String.

Record StatusMessage : Type := mkStatusMessage {
  genesis_hash : Hash;
  finalized_root : Hash;
  finalized_number : Z;
  head_root : Hash;
  network_id : Z;
}.

(** ** GoodbyeReason and its code *)
Module GoodbyeReason.
Inductive t : Type := ClientShutdown | IrrelevantNetwork | Fault | Unknown.
Definition from (id : Z) : t :=
  if decide (id = 1) then ClientShutdown else
  if decide (id = 2) then IrrelevantNetwork else
  if decide (id = 3) then Fault else Unknown.
Definition into (r : t) : Z :=
  match r with ClientShutdown => 1 | IrrelevantNetwork => 2 | Fault => 3 | Unknown => 0 end.
End GoodbyeReason.
Abbreviation GoodbyeReason := GoodbyeReason.t.

Record BlocksByRangeRequest : Type := mkBlocksByRangeRequest {
  head_block_root : Hash;
  start_slot : Z;
  count : Z;
  step : Z;
}.
Record BlocksByRootRequest : Type := mkBlocksByRootRequest { block_roots : list Hash }.

(** ** Responses *)
Record ErrorMessage : Type := mkErrorMessage { error_message : bytes }.
Module P2PResponse.
Inductive t : Type :=
  | Status (s : StatusMessage)
  | BlocksByRange (b : bytes)
  | BlocksByRoot (b : bytes).
End P2PResponse.
Abbreviation P2PResponse := P2PResponse.t.
Module ResponseTermination.
Inductive t : Type := BlocksByRange | BlocksByRoot.
End ResponseTermination.
Abbreviation ResponseTermination := ResponseTermination.t.

Module P2PErrorResponse.
Inductive t : Type :=
  | Success (r : P2PResponse)
  | InvalidRequest (e : ErrorMessage)
  | ServerError (e : ErrorMessage)
  | Unknown (e : ErrorMessage)
  | StreamTermination (r : ResponseTermination).
Definition as_u8 (r : t) : option Z :=
  match r with
  | Success _ => Some 0
  | InvalidRequest _ => Some 1
  | ServerError _ => Some 2
  | Unknown _ => Some 255
  | StreamTermination _ => None
  end.
Definition is_response (response_code : Z) : bool := bool_decide (response_code = 0).
Definition from_error (response_code : Z) (err : ErrorMessage) : t :=
  if decide (response_code = 1) then InvalidRequest err else
  if decide (response_code = 2) then ServerError err else Unknown err.
Definition multiple_responses (r : t) : bool :=
  match r with
  | Success resp =>
      match resp with
      | P2PResponse.Status _ => false
      | P2PResponse.BlocksByRange _ => true
      | P2PResponse.BlocksByRoot _ => true
      end
  | InvalidRequest _ | ServerError _ | Unknown _ | StreamTermination _ => true
  end.
Definition is_error (r : t) : bool := match r with Success _ => false | _ => true end.
End P2PErrorResponse.
Abbreviation P2PErrorResponse := P2PErrorResponse.t.

(** ** Requests *)
Module P2PRequest.
Inductive t : Type :=
  | Status (s : StatusMessage)
  | Goodbye (r : GoodbyeReason)
  | BlocksByRange (r : BlocksByRangeRequest)
  | BlocksByRoot (r : BlocksByRootRequest).
Definition expect_response (r : t) : bool :=
  match r with Status _ => true | Goodbye _ => false | BlocksByRange _ => true | BlocksByRoot _ => true end.
Definition multiple_responses (r : t) : bool :=
  match r with Status _ => false | Goodbye _ => false | BlocksByRange _ => true | BlocksByRoot _ => true end.
(** [unreachable!()] is a panic. *)
Definition stream_termination {E} (r : t) : Outcome E ResponseTermination :=
  match r with
  | BlocksByRange _ => Ok ResponseTermination.BlocksByRange
  | BlocksByRoot _ => Ok ResponseTermination.BlocksByRoot
  | Status _ | Goodbye _ => Panic
  end.
End P2PRequest.
Abbreviation P2PRequest := P2PRequest.t.

(** The causes of an error are dropped. *)
Module P2PError.
Inductive t : Type := ReadError | InvalidProtocol | IoError | StreamTimeout | P2PErrorResponse | Custom.
End P2PError.
Abbreviation P2PError := P2PError.t.

Module P2PEvent.
Inductive t : Type :=
  | Request (id : Z) (r : P2PRequest)
  | Response (id : Z) (r : P2PErrorResponse)
  | Error (id : Z) (e : P2PError).
Definition id (e : t) : Z :=
  match e with Request id _ => id | Response id _ => id | Error id _ => id end.
End P2PEvent.
Abbreviation P2PEvent := P2PEvent.t.

(** ** Gossip topics (src/network/src/topics.rs) *)
Definition TOPIC_PREFIX : bytes := bytes_of "map"%string.
Definition TOPIC_ENCODING_POSTFIX : bytes := bytes_of "bin"%string.
Definition MAP_BLOCK_TOPIC : bytes := bytes_of "block"%string.
Definition MAP_TRANSACTION_TOPIC : bytes := bytes_of "transaction"%string.
Definition SHARD_TOPIC_PREFIX : bytes := bytes_of "shard"%string.
(** The character '/'. *)
Definition slash : Z := 47.

(** [str::split] on one character. *)
Fixpoint split_on (c : Z) (s : bytes) : list bytes :=
  match s with
  | [] => [[]]
  | x :: s =>
      if decide (x = c) then [] :: split_on c s
      else match split_on c s with
           | [] => [[x]]
           | p :: ps => (x :: p) :: ps
           end
  end.

Module GossipTopic.
Inductive t : Type := MapBlock | Transaction | Shard | Unknown (topic : bytes).
Definition from (topic : bytes) : t :=
  match split_on slash topic with
  | [_; p1; p2; p3] =>
      if decide (p1 = TOPIC_PREFIX ∧ p3 = TOPIC_ENCODING_POSTFIX) then
        if decide (p2 = MAP_BLOCK_TOPIC) then MapBlock else
        if decide (p2 = MAP_TRANSACTION_TOPIC) then Transaction else Unknown p2
      else Unknown topic
  | _ => Unknown topic
  end.
Definition topic_builder (topic : bytes) : bytes :=
  slash :: TOPIC_PREFIX ++ slash :: topic ++ slash :: TOPIC_ENCODING_POSTFIX.
Definition into (x : t) : bytes :=
  match x with
  | MapBlock => topic_builder MAP_BLOCK_TOPIC
  | Transaction => topic_builder MAP_TRANSACTION_TOPIC
  | Shard => topic_builder SHARD_TOPIC_PREFIX
  | Unknown topic => topic
  end.
End GossipTopic.
Abbreviation GossipTopic := GossipTopic.t.

(** ** Gossip messages (src/network/src/behaviour.rs) *)
Module PubsubMessage.
Inductive t : Type := Block (d : bytes) | Transaction (d : bytes) | Unknown (d : bytes).
Fixpoint from_topics (topics : list bytes) (data : bytes) : t :=
  match topics with
  | [] => Unknown data
  | topic :: topics =>
      match GossipTopic.from topic with
      | GossipTopic.MapBlock => Block data
      | GossipTopic.Transaction => Transaction data
      | GossipTopic.Shard => Unknown data
      | GossipTopic.Unknown _ => from_topics topics data
      end
  end.
Definition into_data (m : t) : bytes :=
  match m with Block d => d | Transaction d => d | Unknown d => d end.
End PubsubMessage.
Abbreviation PubsubMessage := PubsubMessage.t.

(** ** Messages to the network service *)

Module NetworkMessage.
Inductive t (Peer MsgId : Type) : Type :=
  | P2P (p : Peer) (e : P2PEvent)
  | Publish (topics : list GossipTopic) (m : PubsubMessage)
  | Propagate (p : Peer) (id : MsgId)
  | Disconnect (p : Peer).
Arguments P2P {Peer MsgId}. Arguments Publish {Peer MsgId}.
Arguments Propagate {Peer MsgId}. Arguments Disconnect {Peer MsgId}.
End NetworkMessage.
Abbreviation NetworkMessage := NetworkMessage.t.

(** ** Facts *)

(** Reasons survive the wire; every unknown code is read as [Unknown]. *)
Lemma goodbye_roundtrip r : GoodbyeReason.from (GoodbyeReason.into r) = r.
Proof. by destruct r. Qed.
Lemma goodbye_code n :
  GoodbyeReason.into (GoodbyeReason.from n) = (if decide (1 ≤ n ≤ 3) then n else 0).
Proof. unfold GoodbyeReason.from. repeat case_decide; subst; simpl; lia. Qed.

(** A response code tells errors from successes, and an error code gives the
    error back. *)
Lemma response_code_spec r c :
  P2PErrorResponse.as_u8 r = Some c →
  (P2PErrorResponse.is_response c = true ↔ P2PErrorResponse.is_error r = false) ∧
  ∀ e, r = P2PErrorResponse.InvalidRequest e ∨ r = P2PErrorResponse.ServerError e ∨
       r = P2PErrorResponse.Unknown e → P2PErrorResponse.from_error c e = r.
Proof.
  destruct r; simpl; intros [= <-]; (split; [done|]); naive_solver.
Qed.

(** The stream of a request that awaits chunks can be terminated. *)
Lemma stream_termination_total {E} r :
  P2PRequest.multiple_responses r = true → is_ok (P2PRequest.stream_termination (E:=E) r) = true.
Proof. by destruct r. Qed.

(** A gossip message published under its topic is received as what it was. *)
Lemma pubsub_roundtrip d :
  PubsubMessage.from_topics [GossipTopic.into GossipTopic.MapBlock] d = PubsubMessage.Block d ∧
  PubsubMessage.from_topics [GossipTopic.into GossipTopic.Transaction] d = PubsubMessage.Transaction d.
Proof. done. Qed.
(** The shard topic is written but not read back. *)
Lemma shard_topic_unknown :
  GossipTopic.from (GossipTopic.into GossipTopic.Shard) = GossipTopic.Unknown SHARD_TOPIC_PREFIX.
Proof. done. Qed.
