(* ===== verification/RangeSync.v ===== *)
(** * RangeSync: downloading a chain in batches (src/network/src/sync)

    A [SyncingChain] asks idle peers for consecutive ranges of blocks, collects
    the responses, hands completed batches to the block processor in order and
    advances when it reports back (range_sync/batch.rs, range_sync/chain.rs,
    range_sync/range.rs, network_context.rs).  Messages to the network and jobs
    for the block processor are appended to a log. *)
From S2P Require Import Prelude Hashing Types Codec Keys Transaction Block Messages.

Definition BLOCKS_PER_BATCH : Z := 5.
Definition MAX_BATCH_RETRIES : Z := 5.
Definition BATCH_BUFFER_SIZE : Z := 5.
Definition INVALID_BATCH_LOOKUP_ATTEMPTS : Z := 3.

(** [DefaultHasher] on the serialised blocks. *)
Class BatchDigest : Type := batch_digest : bytes → Z.
(** [shuffle]: the random order of a peer pool when the next request would have
    this number; [pool_iter]: the order in which a [HashSet] is iterated. *)
Class PeerOrder (Peer : Type) `{Countable Peer} : Type := {
  shuffle : Z → gset Peer → list Peer;
  pool_iter : gset Peer → list Peer;
}.
Class PeerOrderLaws (Peer : Type) `{PeerOrder Peer} : Prop := {
  shuffle_perm n s : shuffle n s ≡ₚ elements s;
  pool_iter_perm s : pool_iter s ≡ₚ elements s;
}.

(** ** The network channel *)
Record SyncNetworkContext (Peer MsgId : Type) : Type := mkNet {
  net_open : bool;                                 (* the receiver is alive *)
  request_id : Z;
  net_sent : list (NetworkMessage Peer MsgId);     (* oldest first *)
}.
Arguments mkNet {Peer MsgId}. Arguments net_open {Peer MsgId}.
Arguments request_id {Peer MsgId}. Arguments net_sent {Peer MsgId}.

Module SyncNetworkContext.
Section SyncNetworkContext.
Context {Peer MsgId : Type} `{P : Profile} {E : Type}.
Implicit Types (n : SyncNetworkContext Peer MsgId).

Definition new : SyncNetworkContext Peer MsgId := mkNet true 0 [].

(** [try_send] on an unbounded channel fails only when it is closed. *)
Definition try_send n (m : NetworkMessage Peer MsgId) : SyncNetworkContext Peer MsgId * bool :=
  if net_open n then (mkNet (net_open n) (request_id n) (net_sent n ++ [m]), true) else (n, false).

Definition send_rpc_event n (peer_id : Peer) (e : P2PEvent) := try_send n (NetworkMessage.P2P peer_id e).

(** [None] when the message could not be sent; the id is used up either way. *)
Definition send_rpc_request n (peer_id : Peer) (r : P2PRequest)
    : Outcome E (SyncNetworkContext Peer MsgId * option Z) :=
  let id := request_id n in
  next ← add_u 64 id 1;
  let n := mkNet (net_open n) next (net_sent n) in
  let s := send_rpc_event n peer_id (P2PEvent.Request id r) in
  mret (s.1, if s.2 : bool then Some id else None).

Definition status_peer n (status : StatusMessage) (peer_id : Peer)
    : Outcome E (SyncNetworkContext Peer MsgId) :=
  r ← send_rpc_request n peer_id (P2PRequest.Status status); mret r.1.
Definition blocks_by_range_request n (peer_id : Peer) (r : BlocksByRangeRequest) :=
  send_rpc_request n peer_id (P2PRequest.BlocksByRange r).
Definition blocks_by_hash_request n (peer_id : Peer) (r : BlocksByRootRequest) :=
  send_rpc_request n peer_id (P2PRequest.BlocksByRoot r).

Definition disconnect n (peer_id : Peer) (reason : GoodbyeReason)
    : Outcome E (SyncNetworkContext Peer MsgId) :=
  r ← send_rpc_request n peer_id (P2PRequest.Goodbye reason);
  mret (try_send r.1 (NetworkMessage.Disconnect peer_id)).1.
Definition downvote_peer n (peer_id : Peer) : Outcome E (SyncNetworkContext Peer MsgId) :=
  disconnect n peer_id GoodbyeReason.Fault.
End SyncNetworkContext.
End SyncNetworkContext.

(** ** Batches *)
Record Batch (Peer : Type) : Type := mkBatch {
  batch_id : Z;
  start_numer : Z;
  end_number : Z;
  batch_root : Hash;
  original_peer : Peer;
  current_peer : Peer;
  retries : Z;
  reprocess_retries : Z;
  original_hash : option Z;
  downloaded_blocks : list Block;
}.
Arguments mkBatch {Peer}. Arguments batch_id {Peer}. Arguments start_numer {Peer}.
Arguments end_number {Peer}. Arguments batch_root {Peer}. Arguments original_peer {Peer}.
Arguments current_peer {Peer}. Arguments retries {Peer}. Arguments reprocess_retries {Peer}.
Arguments original_hash {Peer}. Arguments downloaded_blocks {Peer}.

Module Batch.
Section Batch.
Context {Peer : Type} `{P : Profile, BatchDigest, Bincode (list Block)} {E : Type}.
Implicit Types (b : Batch Peer).

Definition new (id start end_ : Z) (root : Hash) (peer_id : Peer) : Batch Peer :=
  mkBatch id start end_ root peer_id peer_id 0 0 None [].
Definition set_blocks b (l : list Block) : Batch Peer :=
  mkBatch (batch_id b) (start_numer b) (end_number b) (batch_root b) (original_peer b)
    (current_peer b) (retries b) (reprocess_retries b) (original_hash b) l.
Definition to_blocks_by_range_request b : Outcome E BlocksByRangeRequest :=
  n ← sub_u 64 (end_number b) (start_numer b);
  mret (mkBlocksByRangeRequest (batch_root b) (start_numer b) (Z.min BLOCKS_PER_BATCH n) 1).
Definition hash b : Z := batch_digest (serialize (downloaded_blocks b)).
Definition cmp (a b : Batch Peer) : comparison := Z.compare (batch_id a) (batch_id b).
End Batch.
End Batch.

(** ** Pending batches, by request and by peer *)
Record PendingBatches (Peer : Type) `{Countable Peer} : Type := mkPending {
  batches : gmap Z (Batch Peer);
  peer_requests : gmap Peer (gset Z);
}.
Arguments mkPending {Peer _ _}. Arguments batches {Peer _ _}. Arguments peer_requests {Peer _ _}.

Module PendingBatches.
Section PendingBatches.
Context {Peer : Type} `{Countable Peer}.
Implicit Types (s : PendingBatches Peer).

Definition new : PendingBatches Peer := mkPending ∅ ∅.
(** The replaced batch, if any, is returned. *)
Definition insert s (id : Z) (b : Batch Peer) : PendingBatches Peer * option (Batch Peer) :=
  (mkPending (<[id := b]> (batches s))
     (<[current_peer b := default ∅ (peer_requests s !! current_peer b) ∪ {[id]}]> (peer_requests s)),
   batches s !! id).
Definition remove s (id : Z) : PendingBatches Peer * option (Batch Peer) :=
  match batches s !! id with
  | Some b =>
      let reqs :=
        match peer_requests s !! current_peer b with
        | Some entry =>
            let entry := entry ∖ {[id]} in
            if decide (entry = ∅) then delete (current_peer b) (peer_requests s)
            else <[current_peer b := entry]> (peer_requests s)
        | None => peer_requests s
        end in
      (mkPending (delete id (batches s)) reqs, Some b)
  | None => (s, None)
  end.
Definition len s : nat := size (batches s).
Definition add_block s (id : Z) (block : Block) : option (PendingBatches Peer) :=
  match batches s !! id with
  | Some b => Some (mkPending (<[id := Batch.set_blocks b (downloaded_blocks b ++ [block])]> (batches s))
                      (peer_requests s))
  | None => None
  end.
Definition peer_is_idle s (p : Peer) : bool := bool_decide (peer_requests s !! p = None).
End PendingBatches.
End PendingBatches.

(** ** The chain being downloaded *)
Inductive ChainSyncingState : Type := Stopped | Syncing.
Inductive ProcessingResult : Type := KeepChain | RemoveChain.
Inductive BatchProcessResult : Type := Success | Failed.

Record SyncingChain (Peer : Type) `{Countable Peer} : Type := mkSyncingChain {
  chain_start : Z;
  target_head_slot : Z;
  target_head_root : Hash;
  pending_batches : PendingBatches Peer;
  completed_batches : list (Batch Peer);
  processed_batches : list (Batch Peer);
  peer_pool : gset Peer;
  to_be_downloaded_id : Z;
  to_be_processed_id : Z;
  sync_state : ChainSyncingState;
  current_processing_batch : option (Batch Peer);
}.
Arguments mkSyncingChain {Peer _ _}. Arguments chain_start {Peer _ _}.
Arguments target_head_slot {Peer _ _}. Arguments target_head_root {Peer _ _}.
Arguments pending_batches {Peer _ _}. Arguments completed_batches {Peer _ _}.
Arguments processed_batches {Peer _ _}. Arguments peer_pool {Peer _ _}.
Arguments to_be_downloaded_id {Peer _ _}. Arguments to_be_processed_id {Peer _ _}.
Arguments sync_state {Peer _ _}. Arguments current_processing_batch {Peer _ _}.

(** The channels of the sync thread: to the network, and the jobs spawned on
    the block processor. *)
Record SyncIO (Peer MsgId : Type) : Type := mkIO {
  io_net : SyncNetworkContext Peer MsgId;
  io_jobs : list (Z * list Block);
}.
Arguments mkIO {Peer MsgId}. Arguments io_net {Peer MsgId}. Arguments io_jobs {Peer MsgId}.

Module SyncingChain.
Section Setters.
Context {Peer : Type} `{Countable Peer}.
Implicit Types (c : SyncingChain Peer).
Definition set_target c s r := mkSyncingChain (chain_start c) s r (pending_batches c) (completed_batches c) (processed_batches c) (peer_pool c) (to_be_downloaded_id c) (to_be_processed_id c) (sync_state c) (current_processing_batch c).
Definition set_pending c x := mkSyncingChain (chain_start c) (target_head_slot c) (target_head_root c) x (completed_batches c) (processed_batches c) (peer_pool c) (to_be_downloaded_id c) (to_be_processed_id c) (sync_state c) (current_processing_batch c).
Definition set_completed c x := mkSyncingChain (chain_start c) (target_head_slot c) (target_head_root c) (pending_batches c) x (processed_batches c) (peer_pool c) (to_be_downloaded_id c) (to_be_processed_id c) (sync_state c) (current_processing_batch c).
Definition set_processed c x := mkSyncingChain (chain_start c) (target_head_slot c) (target_head_root c) (pending_batches c) (completed_batches c) x (peer_pool c) (to_be_downloaded_id c) (to_be_processed_id c) (sync_state c) (current_processing_batch c).
Definition set_peers c x := mkSyncingChain (chain_start c) (target_head_slot c) (target_head_root c) (pending_batches c) (completed_batches c) (processed_batches c) x (to_be_downloaded_id c) (to_be_processed_id c) (sync_state c) (current_processing_batch c).
Definition set_ids c d p := mkSyncingChain (chain_start c) (target_head_slot c) (target_head_root c) (pending_batches c) (completed_batches c) (processed_batches c) (peer_pool c) d p (sync_state c) (current_processing_batch c).
Definition set_state c x := mkSyncingChain (chain_start c) (target_head_slot c) (target_head_root c) (pending_batches c) (completed_batches c) (processed_batches c) (peer_pool c) (to_be_downloaded_id c) (to_be_processed_id c) x (current_processing_batch c).
Definition set_current c x := mkSyncingChain (chain_start c) (target_head_slot c) (target_head_root c) (pending_batches c) (completed_batches c) (processed_batches c) (peer_pool c) (to_be_downloaded_id c) (to_be_processed_id c) (sync_state c) x.
End Setters.

Section SyncingChain.
Context {Peer MsgId : Type} `{Countable Peer, PO : !PeerOrder Peer}.
Context `{P : Profile, BatchDigest, Bincode (list Block)} {E : Type}.
Implicit Types (c : SyncingChain Peer) (io : SyncIO Peer MsgId) (b : Batch Peer).
Abbreviation M A := (Outcome E (SyncingChain Peer * SyncIO Peer MsgId * A)).

Definition new (start target : Z) (root : Hash) : SyncingChain Peer :=
  mkSyncingChain start target root PendingBatches.new [] [] ∅ 1 1 Stopped None.

Definition current_processed_slot c : Outcome E Z :=
  n ← mul_u 64 (sat_sub (to_be_processed_id c) 1) BLOCKS_PER_BATCH;
  mret (sat_add 64 (chain_start c) n).

(** The first peer of the shuffled pool without a pending request. *)
Definition get_next_peer c io : option Peer :=
  head (filter (λ p, PendingBatches.peer_is_idle (pending_batches c) p = true)
          (shuffle (request_id (io_net io)) (peer_pool c))).

Definition get_next_batch c (peer_id : Peer) : Outcome E (SyncingChain Peer * option (Batch Peer)) :=
  if decide (Z.of_nat (length (completed_batches c) + PendingBatches.len (pending_batches c))
             > BATCH_BUFFER_SIZE) then Ok (c, None) else
  off ← mul_u 64 (sat_sub (to_be_downloaded_id c) 1) BLOCKS_PER_BATCH;
  s ← add_u 64 (chain_start c) off;
  batch_start ← add_u 64 s 1;
  if decide (batch_start > target_head_slot c) then Ok (c, None) else
  e ← add_u 64 batch_start BLOCKS_PER_BATCH;
  let batch_end := Z.min e (sat_add 64 (target_head_slot c) 1) in
  let id := to_be_downloaded_id c in
  let max_completed := match last (completed_batches c) with Some x => batch_id x | None => 0 end in
  n1 ← add_u 64 id 1;
  n2 ← add_u 64 max_completed 1;
  mret (set_ids c (Z.max n1 n2) (to_be_processed_id c),
        Some (Batch.new id batch_start batch_end (target_head_root c) peer_id)).

Definition send_batch c io b : Outcome E (SyncingChain Peer * SyncIO Peer MsgId) :=
  request ← Batch.to_blocks_by_range_request b;
  r ← SyncNetworkContext.blocks_by_range_request (io_net io) (current_peer b) request;
  let io := mkIO r.1 (io_jobs io) in
  mret (match r.2 with
        | Some id => (set_pending c (PendingBatches.insert (pending_batches c) id b).1, io)
        | None => (c, io)
        end).

Definition send_range_request c io : M bool :=
  match get_next_peer c io with
  | Some peer_id =>
      r ← get_next_batch c peer_id;
      match r.2 with
      | Some b => s ← send_batch r.1 io b; mret (s, true)
      | None => mret (r.1, io, false)
      end
  | None => mret (c, io, false)
  end.

(** [while self.send_range_request(network) {}].  Every round makes a peer busy
    or, when the channel is closed, moves on towards the target; the bound is
    enough. *)
Definition request_bound c io : nat :=
  if net_open (io_net io) then S (size (peer_pool c))
  else S (S (Z.to_nat (target_head_slot c))).
Fixpoint request_loop (fuel : nat) c io : Outcome E (SyncingChain Peer * SyncIO Peer MsgId) :=
  match fuel with
  | O => Ok (c, io)
  | S fuel =>
      r ← send_range_request c io;
      if r.2 : bool then request_loop fuel r.1.1 r.1.2 else mret r.1
  end.
Definition request_batches c io : Outcome E (SyncingChain Peer * SyncIO Peer MsgId) :=
  match sync_state c with
  | Syncing => request_loop (request_bound c io) c io
  | Stopped => Ok (c, io)
  end.

Definition process_batch c io b : SyncingChain Peer * SyncIO Peer MsgId :=
  (set_current c (Some (Batch.set_blocks b [])),
   mkIO (io_net io) (io_jobs io ++ [(batch_id b, downloaded_blocks b)])).
Definition process_completed_batches c io : SyncingChain Peer * SyncIO Peer MsgId :=
  match sync_state c, current_processing_batch c, completed_batches c with
  | Syncing, None, b :: rest =>
      if decide (batch_id b = to_be_processed_id c)
      then process_batch (set_completed c rest) io b else (c, io)
  | _, _, _ => (c, io)
  end.

(** [binary_search] for the position in the list, which is ordered by id.  Where an id is
    in the list already [binary_search] may find any of its positions, here it is the
    first. *)
Fixpoint insert_batch b (l : list (Batch Peer)) : list (Batch Peer) :=
  match l with
  | [] => [b]
  | x :: l' => match Batch.cmp x b with Lt => x :: insert_batch b l' | _ => b :: l end
  end.

Definition out_of_range b : bool :=
  match head (downloaded_blocks b), last (downloaded_blocks b) with
  | Some f, Some l => bool_decide (start_numer b > Block.block_height f ∨ end_number b < Block.block_height l)
  | _, _ => false
  end.

Definition handle_completed_batch c io b : Outcome E (SyncingChain Peer * SyncIO Peer MsgId) :=
  if out_of_range b then
    n ← SyncNetworkContext.downvote_peer (io_net io) (current_peer b);
    mret (set_ids c (to_be_downloaded_id c) (batch_id b), mkIO n (io_jobs io))
  else
    let c := set_completed c (insert_batch b (completed_batches c)) in
    r ← request_batches c io;
    mret (process_completed_batches r.1 r.2).

(** [false]: no request of this chain has the id. *)
Definition on_block_response c io (id : Z) (beacon_block : option Block) : M bool :=
  match beacon_block with
  | Some block =>
      match PendingBatches.add_block (pending_batches c) id block with
      | Some p => mret (set_pending c p, io, true)
      | None => mret (c, io, false)
      end
  | None =>
      let (p, o) := PendingBatches.remove (pending_batches c) id in
      match o with
      | Some b => r ← handle_completed_batch (set_pending c p) io b; mret (r, true)
      | None => mret (c, io, false)
      end
  end.

(** The loop over the batches awaiting validation. *)
Fixpoint validate_processed (l : list (Batch Peer)) (n : SyncNetworkContext Peer MsgId)
    : Outcome E (SyncNetworkContext Peer MsgId) :=
  match l with
  | [] => Ok n
  | b :: l =>
      n ← match original_hash b with
          | Some prev =>
              if decide (prev ≠ Batch.hash b ∧ bool_decide (current_peer b = original_peer b) = false)
              then SyncNetworkContext.downvote_peer n (original_peer b) else Ok n
          | None => Ok n
          end;
      validate_processed l n
  end.
Fixpoint downvote_all (l : list Peer) (n : SyncNetworkContext Peer MsgId)
    : Outcome E (SyncNetworkContext Peer MsgId) :=
  match l with
  | [] => Ok n
  | p :: l => n ← SyncNetworkContext.downvote_peer n p; downvote_all l n
  end.

(** The caller's option is emptied when the result is claimed. *)
Definition on_batch_process_result c io (id : Z) (blocks : option (list Block))
    (result : BatchProcessResult) : M (option (list Block) * option ProcessingResult) :=
  match current_processing_batch c with
  | None => mret (c, io, (blocks, None))
  | Some current =>
      if decide (batch_id current ≠ id) then mret (c, io, (blocks, None)) else
      match blocks with
      | None => mret (set_current c None, io, (None, None))
      | Some downloaded =>
          let b := Batch.set_blocks current downloaded in
          let c := set_current c None in
          match result with
          | Success =>
              next ← add_u 64 (to_be_processed_id c) 1;
              let c := set_ids c (to_be_downloaded_id c) next in
              r ← match downloaded with
                  | [] => Ok (c, io)
                  | _ => n ← validate_processed (processed_batches c) (io_net io);
                         mret (set_processed c [], mkIO n (io_jobs io))
                  end;
              let c := r.1 in let io := r.2 in
              let c := if decide (Block.block_height <$> last downloaded = Some (sat_sub (end_number b) 1))
                       then c else set_processed c (processed_batches c ++ [b]) in
              slot ← current_processed_slot c;
              if decide (slot >= target_head_slot c) then mret (c, io, (None, Some RemoveChain))
              else r ← request_batches c io;
                   mret (process_completed_batches r.1 r.2, (None, Some KeepChain))
          | Failed =>
              if decide (reprocess_retries b > INVALID_BATCH_LOOKUP_ATTEMPTS) then
                n ← downvote_all (pool_iter (peer_pool c)) (io_net io);
                mret (set_peers c ∅, mkIO n (io_jobs io), (None, Some RemoveChain))
              else mret (c, io, (None, Some KeepChain))
          end
      end
  end.

Definition add_peer c io (peer_id : Peer) : Outcome E (SyncingChain Peer * SyncIO Peer MsgId) :=
  let c := set_peers c (peer_pool c ∪ {[peer_id]}) in
  match sync_state c with
  | Stopped => Ok (c, io)
  | Syncing => request_batches c io
  end.

Definition start_syncing c io (local_finalized_number : Z)
    : Outcome E (SyncingChain Peer * SyncIO Peer MsgId) :=
  slot ← current_processed_slot c;
  let c := if decide (local_finalized_number > slot)
           then set_processed (set_completed (set_ids c 1 1) []) [] else c in
  let c := set_state c Syncing in
  let r := process_completed_batches c io in
  request_batches r.1 r.2.

Fixpoint status_all (l : list Peer) (status : StatusMessage) (n : SyncNetworkContext Peer MsgId)
    : Outcome E (SyncNetworkContext Peer MsgId) :=
  match l with
  | [] => Ok n
  | p :: l => n ← SyncNetworkContext.status_peer n status p; status_all l status n
  end.
Definition status_peers c io (status : StatusMessage) : Outcome E (SyncIO Peer MsgId) :=
  n ← status_all (pool_iter (peer_pool c)) status (io_net io);
  mret (mkIO n (io_jobs io)).
End SyncingChain.
End SyncingChain.

(** ** RangeSync: the one chain being synced *)
Record RangeSync (Peer : Type) `{Countable Peer} : Type := mkRangeSync {
  chains : SyncingChain Peer;
  awaiting_head_peers : gset Peer;
}.
Arguments mkRangeSync {Peer _ _}. Arguments chains {Peer _ _}. Arguments awaiting_head_peers {Peer _ _}.

Module RangeSync.
Section RangeSync.
Context {Peer MsgId : Type} `{Countable Peer, PO : !PeerOrder Peer}.
Context `{P : Profile, BatchDigest, Bincode (list Block)} {E : Type}.
Implicit Types (s : RangeSync Peer) (io : SyncIO Peer MsgId).

(** [local]: the height of the current block; [status]: the node's own status. *)
Definition new (local : Z) : RangeSync Peer :=
  mkRangeSync (SyncingChain.new local 0 (mkHash (replicate 32 0))) ∅.
Definition remove_peer s (p : Peer) : RangeSync Peer := s.

Definition add_peer s io (peer_id : Peer) (remote_number : Z) (remote_root : Hash) (local : Z)
    : Outcome E (RangeSync Peer * SyncIO Peer MsgId) :=
  let s := remove_peer s peer_id in
  r ← SyncingChain.add_peer (SyncingChain.set_target (chains s) remote_number remote_root) io peer_id;
  r ← SyncingChain.start_syncing r.1 r.2 local;
  mret (mkRangeSync r.1 (awaiting_head_peers s), r.2).

Definition blocks_by_range_response s io (id : Z) (beacon_block : option Block)
    : Outcome E (RangeSync Peer * SyncIO Peer MsgId) :=
  r ← SyncingChain.on_block_response (chains s) io id beacon_block;
  mret (mkRangeSync r.1.1 (awaiting_head_peers s), r.1.2).

(** A result no chain was waiting for is offered to the same chain again. *)
Definition handle_block_process_result s io (id : Z) (blocks : list Block)
    (result : BatchProcessResult) (status : StatusMessage)
    : Outcome E (RangeSync Peer * SyncIO Peer MsgId) :=
  r ← SyncingChain.on_batch_process_result (chains s) io id (Some blocks) result;
  let '(c, io, (blocks, o)) := (r : SyncingChain Peer * SyncIO Peer MsgId * (option (list Block) * option ProcessingResult)) in
  match o with
  | Some RemoveChain =>
      io ← SyncingChain.status_peers c io status;
      mret (mkRangeSync (SyncingChain.set_state c Stopped) (awaiting_head_peers s), io)
  | Some KeepChain => mret (mkRangeSync c (awaiting_head_peers s), io)
  | None =>
      r ← SyncingChain.on_batch_process_result c io id blocks result;
      mret (mkRangeSync r.1.1 (awaiting_head_peers s), r.1.2)
  end.

Definition is_syncing s : bool :=
  match sync_state (chains s) with Syncing => true | Stopped => false end.
Definition update_finalized `{Blake2b, Bincode Header} s io (block : Block) (local : Z)
    : Outcome E (RangeSync Peer * SyncIO Peer MsgId) :=
  match sync_state (chains s) with
  | Syncing => Ok (s, io)
  | Stopped =>
      r ← SyncingChain.start_syncing
            (SyncingChain.set_target (chains s) (Block.block_height block) (Block.hash block)) io local;
      mret (mkRangeSync r.1 (awaiting_head_peers s), r.2)
  end.
Definition peer_disconnect s (p : Peer) : RangeSync Peer :=
  remove_peer (mkRangeSync (chains s) (awaiting_head_peers s ∖ {[p]})) p.
End RangeSync.
End RangeSync.
