(* ===== verification/RangeSyncInv.v ===== *)
(** * RangeSyncInv: what the range sync guarantees

    An invariant of every state the range sync can reach, the total correctness
    of its handlers, and the consequence of an out-of-range response. *)
From Stdlib Require Import Sorted.
From S2P Require Import Prelude Hashing Types Codec Keys Transaction Block Messages RangeSync.

(** ** Pending batches: one request per busy peer *)
Section Pending.
Context {Peer : Type} `{Countable Peer}.
Implicit Types (s : PendingBatches Peer) (b : Batch Peer).

(** The two maps agree, a busy peer has exactly one request, and request ids
    were all handed out before [next]. *)
Record pending_ok s (next : Z) : Prop := {
  pending_registered : ∀ id b, batches s !! id = Some b → peer_requests s !! current_peer b = Some {[id]};
  pending_busy : ∀ p ids, peer_requests s !! p = Some ids →
    ∃ id b, ids = {[id]} ∧ batches s !! id = Some b ∧ current_peer b = p;
  pending_old : ∀ id b, batches s !! id = Some b → 0 ≤ id < next;
}.

Lemma pending_ok_new next : pending_ok PendingBatches.new next.
Proof. split; simpl; intros *; rewrite lookup_empty; done. Qed.

Lemma pending_ok_weaken s n n' : pending_ok s n → n ≤ n' → pending_ok s n'.
Proof. intros [Hr Hb Ho] ?. split; [done..|]. intros id b Hid. specialize (Ho _ _ Hid). lia. Qed.

Lemma pending_ok_insert s id b :
  pending_ok s id → 0 ≤ id → PendingBatches.peer_is_idle s (current_peer b) = true →
  pending_ok (PendingBatches.insert s id b).1 (id + 1) ∧
  PendingBatches.len (PendingBatches.insert s id b).1 = S (PendingBatches.len s).
Proof.
  intros [Hr Hb Ho] Hid Hidle%bool_decide_eq_true.
  assert (Hnew : batches s !! id = None).
  { destruct (batches s !! id) eqn:Hx; [|done]. specialize (Ho _ _ Hx). lia. }
  split; [|by apply map_size_insert_None].
  unfold PendingBatches.insert. rewrite Hidle. simpl. rewrite (left_id_L ∅ (∪)).
  split; simpl.
  - intros i b'. rewrite lookup_insert_Some. intros [[<- <-]|[Hne Hi]].
    + by rewrite lookup_insert_eq.
    + rewrite lookup_insert_ne; [by apply Hr|]. intros Heq.
      specialize (Hr _ _ Hi). congruence.
  - intros p ids. rewrite lookup_insert_Some. intros [[<- <-]|[Hne Hp]].
    + exists id, b. by rewrite lookup_insert_eq.
    + destruct (Hb _ _ Hp) as (i & b' & -> & Hi & <-). exists i, b'.
      rewrite lookup_insert_ne by congruence. done.
  - intros i b'. rewrite lookup_insert_Some. intros [[<- <-]|[Hne Hi]]; [lia|].
    specialize (Ho _ _ Hi). lia.
Qed.

(** An answered request frees its peer. *)
Lemma pending_ok_remove s next id b :
  pending_ok s next → batches s !! id = Some b →
  PendingBatches.remove s id =
    (mkPending (delete id (batches s)) (delete (current_peer b) (peer_requests s)), Some b) ∧
  pending_ok (PendingBatches.remove s id).1 next ∧
  S (PendingBatches.len (PendingBatches.remove s id).1) = PendingBatches.len s.
Proof.
  intros [Hr Hb Ho] Hid.
  assert (Hrm : PendingBatches.remove s id =
    (mkPending (delete id (batches s)) (delete (current_peer b) (peer_requests s)), Some b)).
  { unfold PendingBatches.remove. rewrite Hid, (Hr _ _ Hid). simpl.
    by rewrite decide_True by set_solver. }
  split; [done|]. rewrite Hrm. split.
  - split; simpl.
    + intros i b' [Hne Hi]%lookup_delete_Some. rewrite lookup_delete_ne; [by apply Hr|].
      intros Heq. pose proof (Hr _ _ Hi) as Hi'. rewrite <-Heq, (Hr _ _ Hid) in Hi'. set_solver.
    + intros p ids [Hne Hp]%lookup_delete_Some.
      destruct (Hb _ _ Hp) as (i & b' & -> & Hi & <-). exists i, b'.
      rewrite lookup_delete_ne by congruence. done.
    + intros i b' [Hne Hi]%lookup_delete_Some. by eapply Ho.
  - unfold PendingBatches.len. simpl.
    rewrite (map_size_delete_Some id) by eauto.
    assert (size (batches s) ≠ 0%nat); [|lia].
    intros Hz%map_size_empty_inv. rewrite Hz, lookup_empty in Hid. done.
Qed.

Lemma pending_ok_add_block s next id block s' :
  pending_ok s next → PendingBatches.add_block s id block = Some s' →
  ∃ b, batches s !! id = Some b ∧
    s' = mkPending (<[id := Batch.set_blocks b (downloaded_blocks b ++ [block])]> (batches s)) (peer_requests s) ∧
    pending_ok s' next ∧ PendingBatches.len s' = PendingBatches.len s.
Proof.
  unfold PendingBatches.add_block. intros [Hr Hb Ho]. destruct (batches s !! id) as [b|] eqn:Hid; [|done].
  intros [= <-]. exists b. split_and!; [done..| |].
  - split; simpl.
    + intros i b'. rewrite lookup_insert_Some. intros [[<- <-]|[Hne Hi]]; [exact (Hr id b Hid)|by apply Hr].
    + intros p ids Hp. destruct (Hb _ _ Hp) as (i & b' & -> & Hi & <-).
      destruct (decide (i = id)) as [->|Hne].
      * eexists id, _. rewrite lookup_insert_eq. split_and!; [done..|]. simpl. congruence.
      * exists i, b'. by rewrite lookup_insert_ne.
    + intros i b'. rewrite lookup_insert_Some. intros [[<- <-]|[Hne Hi]]; by eapply Ho.
  - unfold PendingBatches.len. simpl. by apply map_size_insert_Some.
Qed.
End Pending.

(** ** The invariant of a syncing chain

    [start] is the height the chain was created at and [T] bounds the heights
    peers announce. *)
Section ChainInv.
Context {Peer MsgId : Type} `{Countable Peer}.
Implicit Types (c : SyncingChain Peer) (io : SyncIO Peer MsgId) (b : Batch Peer).

(** A batch is the [id]-th range of at most five blocks after [start]; it is
    never retried. *)
Definition batch_ok (start T : Z) b : Prop :=
  1 ≤ batch_id b ∧ start_numer b = start + (batch_id b - 1) * BLOCKS_PER_BATCH + 1 ∧
  start_numer b < end_number b ≤ start_numer b + BLOCKS_PER_BATCH ∧ end_number b ≤ T + 1 ∧
  original_hash b = None ∧ reprocess_retries b = 0.

(** Requests on the wire ask for one to five blocks up to the announced height. *)
Definition range_request_ok (start T : Z) (m : NetworkMessage Peer MsgId) : Prop :=
  match m with
  | NetworkMessage.P2P _ (P2PEvent.Request _ (P2PRequest.BlocksByRange r)) =>
      start < start_slot r ∧ 1 ≤ count r ≤ BLOCKS_PER_BATCH ∧ start_slot r + count r ≤ T + 1 ∧ step r = 1
  | _ => True
  end.

Definition buffered c : nat := (length (completed_batches c) + PendingBatches.len (pending_batches c))%nat.

Record range_inv (start T : Z) c io : Prop := {
  ri_open : net_open (io_net io) = true;
  ri_start : chain_start c = start ∧ 0 ≤ start ≤ T;
  ri_target : 0 ≤ target_head_slot c ≤ T;
  ri_next : 0 ≤ request_id (io_net io);
  ri_pending : pending_ok (pending_batches c) (request_id (io_net io));
  ri_batches : ∀ id b, batches (pending_batches c) !! id = Some b → batch_ok start T b;
  ri_completed : Forall (batch_ok start T) (completed_batches c);
  ri_sorted : StronglySorted (λ a b, batch_id a ≤ batch_id b) (completed_batches c);
  ri_processed : Forall (batch_ok start T) (processed_batches c);
  ri_current : ∀ b, current_processing_batch c = Some b →
    batch_ok start T b ∧ start + (to_be_processed_id c - 1) * BLOCKS_PER_BATCH + 1 ≤ T;
  ri_buffer : (buffered c ≤ 6)%nat;
  ri_download : 1 ≤ to_be_downloaded_id c ∧ start + (to_be_downloaded_id c - 1) * BLOCKS_PER_BATCH ≤ T + 4;
  ri_process : 1 ≤ to_be_processed_id c ∧ start + (to_be_processed_id c - 1) * BLOCKS_PER_BATCH ≤ T + 4;
  ri_sent : Forall (range_request_ok start T) (net_sent (io_net io));
}.

(** What requesting does not touch. *)
Definition same_progress c c' : Prop :=
  completed_batches c' = completed_batches c ∧ processed_batches c' = processed_batches c ∧
  peer_pool c' = peer_pool c ∧ to_be_processed_id c' = to_be_processed_id c ∧
  sync_state c' = sync_state c ∧ current_processing_batch c' = current_processing_batch c ∧
  target_head_slot c' = target_head_slot c ∧ target_head_root c' = target_head_root c.

#[global] Instance same_progress_preorder : PreOrder same_progress.
Proof.
  split.
  - intros c. by unfold same_progress.
  - unfold same_progress. intros c1 c2 c3. intuition congruence.
Qed.

(** The peers that could be asked. *)
Definition idle c : gset Peer :=
  filter (λ p, peer_requests (pending_batches c) !! p = None) (peer_pool c).
End ChainInv.

Section Requests.
Context {Peer MsgId : Type} `{Countable Peer, PO : !PeerOrder Peer, PL : !PeerOrderLaws Peer}.
Context `{P : Profile, BatchDigest, Bincode (list Block)} {E : Type}.
Context (start T : Z) (HT : T + 11 < 2 ^ 64).
Implicit Types (c : SyncingChain Peer) (io : SyncIO Peer MsgId) (b : Batch Peer).

Lemma get_next_peer_idle c io :
  match SyncingChain.get_next_peer c io with
  | Some p => p ∈ idle c ∧ PendingBatches.peer_is_idle (pending_batches c) p = true
  | None => idle c = ∅
  end.
Proof.
  unfold SyncingChain.get_next_peer, idle.
  destruct (filter _ _) as [|p l] eqn:Hf; simpl.
  - apply set_eq. intros p. split; [|set_solver]. intros [Hp Hpool]%elem_of_filter.
    exfalso. apply (not_elem_of_nil p). rewrite <-Hf. apply list_elem_of_filter.
    split; [by apply bool_decide_eq_true_2|]. rewrite shuffle_perm. by apply elem_of_elements.
  - assert (Hp : p ∈ p :: l) by set_solver. rewrite <-Hf in Hp.
    apply list_elem_of_filter in Hp as [Hi Hp]. rewrite shuffle_perm in Hp.
    apply elem_of_elements in Hp. apply bool_decide_eq_true in Hi as Hi'. split; [|done]. by apply elem_of_filter.
Qed.

(** When the buffer has room and blocks are left, the next batch is the next
    range, and it is within the announced height. *)
Lemma get_next_batch_spec c io p :
  range_inv start T c io →
  SyncingChain.get_next_batch (E:=E) c p =
    let s := start + (to_be_downloaded_id c - 1) * BLOCKS_PER_BATCH + 1 in
    if decide ((buffered c ≤ 5)%nat ∧ s ≤ target_head_slot c) then
      Ok (SyncingChain.set_ids c
            (Z.max (to_be_downloaded_id c + 1) (default 0 (batch_id <$> last (completed_batches c)) + 1))
            (to_be_processed_id c),
          Some (Batch.new (to_be_downloaded_id c) s
                  (Z.min (s + BLOCKS_PER_BATCH) (target_head_slot c + 1)) (target_head_root c) p))
    else Ok (c, None).
Proof.
  intros Hi. pose proof (ri_start _ _ _ _ Hi) as [Hs ?]. pose proof (ri_target _ _ _ _ Hi).
  pose proof (ri_download _ _ _ _ Hi).
  assert (Hlast : match last (completed_batches c) with Some x => batch_id x | None => 0 end =
            default 0 (batch_id <$> last (completed_batches c)) ∧
          0 ≤ default 0 (batch_id <$> last (completed_batches c)) ≤ T).
  { destruct (last _) as [x|] eqn:Hx; simpl; [|lia]. split; [done|].
    apply last_Some_elem_of in Hx.
    pose proof (ri_completed _ _ _ _ Hi) as Hc. rewrite Forall_forall in Hc.
    destruct (Hc _ Hx) as (? & ? & ? & ? & _). unfold BLOCKS_PER_BATCH in *. lia. }
  destruct Hlast as [Hlast ?].
  unfold SyncingChain.get_next_batch, BATCH_BUFFER_SIZE, sat_sub, sat_add, BLOCKS_PER_BATCH, buffered in *.
  rewrite Hs, Hlast. case_decide as Hb.
  { rewrite decide_False by lia. done. }
  rewrite (Z.max_l (to_be_downloaded_id c - 1) 0) by lia.
  unfold add_u, mul_u. repeat arith_bind.
  set (s := start + (to_be_downloaded_id c - 1) * 5 + 1). cbv zeta.
  destruct (decide (s > target_head_slot c)); [rewrite decide_False by lia; done|].
  rewrite decide_True by lia.
  repeat arith_bind.
  rewrite (Z.min_l (target_head_slot c + 1)) by lia. done.
Qed.

(** Nothing is left to request. *)
Definition exhausted c : Prop :=
  idle c = ∅ ∨ (buffered c = 6)%nat ∨
  start + (to_be_downloaded_id c - 1) * BLOCKS_PER_BATCH + 1 > target_head_slot c.

(** The chain after a request with id [n] was sent. *)
Definition requested (n : Z) c c' : Prop :=
  same_progress c c' ∧ to_be_downloaded_id c < to_be_downloaded_id c' ∧
  ∃ b, batch_id b = to_be_downloaded_id c ∧
    batches (pending_batches c') = <[n := b]> (batches (pending_batches c)).

(** One round either finds nothing to request, or sends one more range to an
    idle peer. *)
Lemma send_range_request_spec c io :
  range_inv start T c io → request_id (io_net io) + 1 < 2 ^ 64 →
  (SyncingChain.send_range_request (E:=E) c io = Ok (c, io, false) ∧ exhausted c) ∨
  ∃ c' io', SyncingChain.send_range_request (E:=E) c io = Ok (c', io', true) ∧
    range_inv start T c' io' ∧ io_jobs io' = io_jobs io ∧
    request_id (io_net io') = request_id (io_net io) + 1 ∧
    buffered c' = S (buffered c) ∧ (size (idle c') < size (idle c))%nat ∧
    requested (request_id (io_net io)) c c'.
Proof.
  intros Hi Hid. pose proof (get_next_peer_idle c io) as Hp.
  unfold SyncingChain.send_range_request.
  destruct (SyncingChain.get_next_peer c io) as [p|]; [|left; split; [done|by left]].
  rewrite (get_next_batch_spec c io p Hi). cbv zeta.
  set (s := start + (to_be_downloaded_id c - 1) * BLOCKS_PER_BATCH + 1).
  case_decide as Hd; rewrite bind_Ok; [right|left; split; [done|]].
  2:{ pose proof (ri_buffer _ _ _ _ Hi). unfold exhausted. subst s. lia. }
  destruct Hp as [Hp Hpi]. pose proof Hi as [Hopen [Hs ?] ? ? Hpend Hbs Hcomp Hsort Hproc Hcur Hbuf [] [] Hsent].
  set (b := Batch.new _ _ _ _ p). set (c1 := SyncingChain.set_ids _ _ _).
  assert (Hb : batch_ok start T b).
  { unfold batch_ok, b, Batch.new, BLOCKS_PER_BATCH in *. simpl. split_and!; try done; subst s; lia. }
  assert (Hreq : Batch.to_blocks_by_range_request (E:=E) b =
    Ok (mkBlocksByRangeRequest (target_head_root c) s (end_number b - s) 1)).
  { destruct Hb as (_ & _ & Hr & Ht & _). unfold Batch.to_blocks_by_range_request, sub_u.
    simpl in *. rewrite arith_in by (unfold in_u, BLOCKS_PER_BATCH in *; lia). rewrite bind_Ok.
    unfold mret, outcome_mret. repeat f_equal. lia. }
  unfold SyncingChain.send_batch. simpl snd; cbv iota. rewrite Hreq, !bind_Ok.
  unfold SyncNetworkContext.blocks_by_range_request, SyncNetworkContext.send_rpc_request, add_u.
  rewrite arith_in by (unfold in_u; lia). rewrite bind_Ok.
  unfold SyncNetworkContext.send_rpc_event, SyncNetworkContext.try_send. simpl net_open. rewrite Hopen.
  simpl. eexists _, _. split; [done|].
  destruct (pending_ok_insert (pending_batches c) (request_id (io_net io)) b Hpend ltac:(lia) Hpi) as [Hpo Hlen].
  split_and!; try done; simpl.
  - constructor; simpl; try done.
    + lia.
    + intros i b'. rewrite lookup_insert_Some. intros [[<- <-]|[_ Hx]]; eauto.
    + unfold buffered, PendingBatches.len in *. simpl in *. rewrite Hlen. lia.
    + split; [lia|]. unfold BLOCKS_PER_BATCH in *.
      assert (default 0 (batch_id <$> last (completed_batches c)) * 5 + start ≤ T + 4); [|subst s; lia].
      destruct (last _) as [x|] eqn:Hx; simpl; [|lia]. apply last_Some_elem_of in Hx.
      rewrite Forall_forall in Hcomp. destruct (Hcomp _ Hx) as (? & ? & ? & ? & _).
      unfold BLOCKS_PER_BATCH in *. lia.
    + apply Forall_app. split; [done|]. apply Forall_singleton. simpl.
      destruct Hb as (? & ? & ? & ? & _). simpl in *. unfold BLOCKS_PER_BATCH in *. subst s. lia.
  - unfold buffered, PendingBatches.len in *. simpl in *. rewrite Hlen. lia.
  - apply subset_size. unfold idle. simpl. split.
    + intros q [Hq Hqp]%elem_of_filter. apply elem_of_filter. split; [|done].
      by apply lookup_insert_None in Hq as [].
    + intros Hsub. apply Hsub, elem_of_filter in Hp as [Hp _]. by rewrite lookup_insert_eq in Hp.
  - unfold requested. split_and!; [by unfold same_progress|simpl; lia|by exists b].
Qed.

(** The loop stops because nothing is left to request, not because the bound is
    reached; a property that every round keeps holds at the end. *)
Lemma request_loop_spec (Q : SyncingChain Peer → Prop) fuel c io :
  (∀ c io c', range_inv start T c io → Q c → requested (request_id (io_net io)) c c' → Q c') →
  range_inv start T c io → Q c → request_id (io_net io) + 7 < 2 ^ 64 + Z.of_nat (buffered c) →
  (size (idle c) < fuel)%nat →
  ∃ c' io', SyncingChain.request_loop (E:=E) fuel c io = Ok (c', io') ∧
    range_inv start T c' io' ∧ same_progress c c' ∧ io_jobs io' = io_jobs io ∧
    request_id (io_net io') + Z.of_nat (buffered c) = request_id (io_net io) + Z.of_nat (buffered c') ∧
    (buffered c ≤ buffered c')%nat ∧ exhausted c' ∧ Q c'.
Proof.
  intros HQ. revert c io. induction fuel as [|fuel IH]; intros c io Hi Hq Hid Hf; [lia|]. simpl.
  pose proof (ri_buffer _ _ _ _ Hi).
  destruct (send_range_request_spec c io Hi ltac:(lia))
    as [[-> Hex]|(c1 & io1 & -> & Hi1 & Hj & Hn & Hb & Hs & Hr)]; rewrite bind_Ok; simpl.
  - exists c, io. by split_and!.
  - destruct (IH c1 io1 Hi1) as (c2 & io2 & -> & Hi2 & Hp & Hj2 & Hn2 & Hle & Hex & Hq2).
    { exact (HQ _ _ _ Hi Hq Hr). } { lia. } { lia. }
    exists c2, io2. split_and!; try done; [|congruence|lia..]. etrans; [apply Hr|done].
Qed.

Lemma request_batches_spec (Q : SyncingChain Peer → Prop) c io :
  (∀ c io c', range_inv start T c io → Q c → requested (request_id (io_net io)) c c' → Q c') →
  range_inv start T c io → Q c → request_id (io_net io) + 7 < 2 ^ 64 →
  ∃ c' io', SyncingChain.request_batches (E:=E) c io = Ok (c', io') ∧
    range_inv start T c' io' ∧ same_progress c c' ∧ io_jobs io' = io_jobs io ∧
    request_id (io_net io) ≤ request_id (io_net io') ≤ request_id (io_net io) + 6 ∧
    (sync_state c = Syncing → exhausted c') ∧ Q c'.
Proof.
  intros HQ Hi Hq Hid. unfold SyncingChain.request_batches. destruct (sync_state c) eqn:Hst.
  { exists c, io. split_and!; try done; lia. }
  unfold SyncingChain.request_bound. rewrite (ri_open _ _ _ _ Hi).
  destruct (request_loop_spec Q (S (size (peer_pool c))) c io HQ Hi Hq)
    as (c' & io' & -> & Hi' & Hp & Hj & Hn & Hle & Hex & Hq'); [lia| |].
  { apply Nat.lt_succ_r. apply subseteq_size. unfold idle. intros p. by intros []%elem_of_filter. }
  pose proof (ri_buffer _ _ _ _ Hi'). exists c', io'. split_and!; try done; lia.
Qed.

(** *** Completed batches *)
Lemma insert_batch_perm b l : SyncingChain.insert_batch b l ≡ₚ b :: l.
Proof.
  induction l as [|x l IH]; simpl; [done|]. unfold Batch.cmp.
  destruct (Z.compare _ _); [done| |done]. rewrite IH. constructor.
Qed.

Lemma insert_batch_sorted b l :
  StronglySorted (λ a b, batch_id a ≤ batch_id b) l →
  StronglySorted (λ a b, batch_id a ≤ batch_id b) (SyncingChain.insert_batch b l).
Proof.
  induction 1 as [|x l Hl IH Hx]; simpl; [by repeat constructor|]. unfold Batch.cmp.
  destruct (Z.compare_spec (batch_id x) (batch_id b)).
  2:{ constructor; [done|]. rewrite insert_batch_perm. constructor; [lia|done]. }
  all: repeat constructor; try done; try lia.
  all: eapply Forall_impl; [exact Hx|]; simpl; lia.
Qed.

(** Only a batch whose turn it is leaves the buffer, and it is the only one
    being processed. *)
Lemma process_completed_batches_spec c io c' io' :
  range_inv start T c io → SyncingChain.process_completed_batches c io = (c', io') →
  range_inv start T c' io' ∧ io_net io' = io_net io ∧ peer_pool c' = peer_pool c ∧
  ((c' = c ∧ io' = io) ∨
   ∃ b rest, completed_batches c = b :: rest ∧ batch_id b = to_be_processed_id c ∧
     current_processing_batch c = None ∧ completed_batches c' = rest ∧
     current_processing_batch c' = Some (Batch.set_blocks b []) ∧
     io_jobs io' = io_jobs io ++ [(batch_id b, downloaded_blocks b)]).
Proof.
  intros Hi. unfold SyncingChain.process_completed_batches.
  destruct (sync_state c) eqn:Hst; [intros [= <- <-]; eauto 6|].
  destruct (current_processing_batch c) eqn:Hcur; [intros [= <- <-]; eauto 6|].
  destruct (completed_batches c) as [|b rest] eqn:Hc; [intros [= <- <-]; eauto 6|].
  case_decide as Hd; intros [= <- <-]; [|by eauto 6].
  destruct Hi as [Hopen [Hs ?] ? ? Hpend Hbs Hcomp Hsort Hproc Hcur' Hbuf [] [] Hsent].
  rewrite Hc in *. inversion Hcomp as [|? ? Hb Hrest]; subst. inversion Hsort; subst.
  split; [|split; [done|split; [done|right; exists b, rest; by split_and!]]].
  constructor; simpl; try done.
  - intros ? [= <-]. split; [exact Hb|]. rewrite <-Hd.
    destruct Hb as (? & ? & ? & ? & _). lia.
  - unfold buffered in *. rewrite Hc in Hbuf. simpl in *. lia.
Qed.
(** Requesting, then processing. *)
Lemma advance_spec (Q : SyncingChain Peer → Prop) c io :
  (∀ c io c', range_inv start T c io → Q c → requested (request_id (io_net io)) c c' → Q c') →
  range_inv start T c io → Q c → request_id (io_net io) + 7 < 2 ^ 64 →
  ∃ c1 io1 c' io', SyncingChain.request_batches (E:=E) c io = Ok (c1, io1) ∧
    SyncingChain.process_completed_batches c1 io1 = (c', io') ∧
    range_inv start T c' io' ∧ peer_pool c' = peer_pool c ∧
    request_id (io_net io) ≤ request_id (io_net io') ≤ request_id (io_net io) + 6 ∧
    same_progress c c1 ∧ io_jobs io1 = io_jobs io ∧ Q c1.
Proof.
  intros HQ Hi Hq Hid.
  destruct (request_batches_spec Q c io HQ Hi Hq Hid) as (c1 & io1 & -> & Hi1 & Hp & Hj & Hn & _ & Hq1).
  destruct (SyncingChain.process_completed_batches c1 io1) as [c' io'] eqn:Hpc.
  destruct (process_completed_batches_spec _ _ _ _ Hi1 Hpc) as (Hi' & Hnet & Hpool & _).
  exists c1, io1, c', io'. rewrite Hnet, Hpool. split_and!; try done; try lia. apply Hp.
Qed.

Lemma downvote_peer_spec (n : SyncNetworkContext Peer MsgId) (p : Peer) :
  net_open n = true → 0 ≤ request_id n → request_id n + 1 < 2 ^ 64 →
  SyncNetworkContext.downvote_peer (E:=E) n p =
    Ok (mkNet true (request_id n + 1)
          (net_sent n ++ [NetworkMessage.P2P p (P2PEvent.Request (request_id n) (P2PRequest.Goodbye GoodbyeReason.Fault));
                          NetworkMessage.Disconnect p])).
Proof.
  intros Hopen Hid ?. unfold SyncNetworkContext.downvote_peer, SyncNetworkContext.disconnect.
  unfold SyncNetworkContext.send_rpc_request, add_u. rewrite arith_in by (unfold in_u; lia).
  unfold SyncNetworkContext.send_rpc_event, SyncNetworkContext.try_send. simpl. rewrite Hopen. simpl.
  by rewrite <-app_assoc.
Qed.

(** A message log extended by anything but range requests, and more ids used up. *)
Lemma range_inv_net c io n k l :
  range_inv start T c io → n = mkNet true (request_id (io_net io) + k) (net_sent (io_net io) ++ l) → 0 ≤ k →
  Forall (range_request_ok start T) l → range_inv start T c (mkIO n (io_jobs io)).
Proof.
  intros [] -> Hk Hl. constructor; simpl; try done; [lia| |by apply Forall_app].
  eapply pending_ok_weaken; [done|lia].
Qed.

(** An answered batch leaves the pending ones, and joins the completed ones. *)
Lemma range_inv_remove c io id b :
  range_inv start T c io → batches (pending_batches c) !! id = Some b →
  let s := mkPending (delete id (batches (pending_batches c)))
             (delete (current_peer b) (peer_requests (pending_batches c))) in
  PendingBatches.remove (pending_batches c) id = (s, Some b) ∧
  range_inv start T (SyncingChain.set_pending c s) io ∧ (buffered (SyncingChain.set_pending c s) ≤ 5)%nat.
Proof.
  intros Hi Hb s. set (c1 := SyncingChain.set_pending c s). destruct (pending_ok_remove _ _ _ _ (ri_pending _ _ _ _ Hi) Hb) as (Hrm & Hp & Hl).
  rewrite Hrm in *. simpl fst in *. pose proof (ri_buffer _ _ _ _ Hi).
  assert (buffered c1 ≤ 5)%nat by (subst c1 s; unfold buffered in *; simpl in *; lia). split; [done|]. split; [|done].
  destruct Hi. constructor; simpl; try done; [|lia].
  intros i b' [_ Hi]%lookup_delete_Some. eauto.
Qed.

Lemma range_inv_completed c io b :
  range_inv start T c io → (buffered c ≤ 5)%nat → batch_ok start T b →
  range_inv start T (SyncingChain.set_completed c (SyncingChain.insert_batch b (completed_batches c))) io.
Proof.
  intros [] ??. constructor; simpl; try done.
  - rewrite insert_batch_perm. by constructor.
  - by apply insert_batch_sorted.
  - unfold buffered in *. simpl. rewrite insert_batch_perm. simpl. lia.
Qed.

Lemma handle_completed_batch_spec c io b :
  range_inv start T c io → (buffered c ≤ 5)%nat → batch_ok start T b → request_id (io_net io) + 7 < 2 ^ 64 →
  ∃ c' io', SyncingChain.handle_completed_batch (E:=E) c io b = Ok (c', io') ∧
    range_inv start T c' io' ∧ peer_pool c' = peer_pool c ∧
    request_id (io_net io) ≤ request_id (io_net io') ≤ request_id (io_net io) + 6.
Proof.
  intros Hi Hbuf Hb Hid. unfold SyncingChain.handle_completed_batch.
  pose proof (ri_next _ _ _ _ Hi). destruct (SyncingChain.out_of_range b).
  - rewrite downvote_peer_spec by (apply Hi || lia). rewrite bind_Ok. eexists _, _. split; [done|].
    split; [|split; [done|simpl; lia]].
    eapply range_inv_net; [|done|lia|by repeat constructor].
    destruct Hi, Hb as (? & ? & ? & ? & _). constructor; simpl; try done.
    + intros b' Hb'. split; [by apply ri_current0|]. lia.
    + split; [lia|]. lia.
  - pose proof (range_inv_completed _ _ _ Hi Hbuf Hb) as Hi1. set (c1 := SyncingChain.set_completed _ _) in *.
    destruct (advance_spec (λ _, True) c1 io) as (c2 & io2 & c' & io' & -> & Hpc & Hi' & Hpool & Hn & _);
      [done..|]. rewrite bind_Ok. simpl. rewrite Hpc. by exists c', io'.
Qed.

Lemma on_block_response_spec c io id o :
  range_inv start T c io → request_id (io_net io) + 7 < 2 ^ 64 →
  ∃ c' io' r, SyncingChain.on_block_response (E:=E) c io id o = Ok (c', io', r) ∧
    range_inv start T c' io' ∧ peer_pool c' = peer_pool c ∧
    request_id (io_net io) ≤ request_id (io_net io') ≤ request_id (io_net io) + 6.
Proof.
  intros Hi Hid. unfold SyncingChain.on_block_response. destruct o as [block|].
  - destruct (PendingBatches.add_block _ _ _) as [s|] eqn:Ha.
    2:{ exists c, io, false. split_and!; try done; lia. }
    destruct (pending_ok_add_block _ _ _ _ _ (ri_pending _ _ _ _ Hi) Ha) as (b & Hb & -> & Hp & Hl).
    eexists _, _, _. split; [done|]. split; [|split; [done|lia]].
    destruct Hi. constructor; simpl; try done.
    + intros i b'. rewrite lookup_insert_Some. intros [[<- <-]|[_ Hx]]; [exact (ri_batches0 _ _ Hb)|eauto].
    + unfold buffered in *. simpl. rewrite Hl. lia.
  - destruct (batches (pending_batches c) !! id) as [b|] eqn:Hb.
    2:{ unfold PendingBatches.remove. rewrite Hb. exists c, io, false. split_and!; try done; lia. }
    destruct (range_inv_remove _ _ _ _ Hi Hb) as (-> & Hi1 & Hbuf).
    destruct (handle_completed_batch_spec _ io b Hi1 Hbuf (ri_batches _ _ _ _ Hi _ _ Hb) Hid)
      as (c' & io' & -> & Hi' & Hpool & Hn). rewrite bind_Ok. by exists c', io', true.
Qed.
(** No batch is ever processed again, so nobody is downvoted for one. *)
Lemma validate_processed_spec l (n : SyncNetworkContext Peer MsgId) :
  Forall (batch_ok start T) l → SyncingChain.validate_processed (E:=E) l n = Ok n.
Proof.
  induction 1 as [|b l (_ & _ & _ & _ & Hh & _) _ IH]; simpl; [done|]. by rewrite Hh, bind_Ok.
Qed.

Lemma current_processed_slot_spec c io :
  range_inv start T c io →
  SyncingChain.current_processed_slot (E:=E) c = Ok (start + (to_be_processed_id c - 1) * BLOCKS_PER_BATCH).
Proof.
  intros Hi. pose proof (ri_start _ _ _ _ Hi) as [Hs ?]. pose proof (ri_process _ _ _ _ Hi).
  unfold SyncingChain.current_processed_slot, mul_u, sat_sub, sat_add, BLOCKS_PER_BATCH in *. rewrite Hs.
  rewrite arith_in by (unfold in_u; lia). rewrite bind_Ok. unfold mret, outcome_mret. f_equal. lia.
Qed.

Lemma range_inv_no_current c io : range_inv start T c io → range_inv start T (SyncingChain.set_current c None) io.
Proof. destruct 1. by constructor. Qed.

Lemma range_inv_processed c io l :
  range_inv start T c io → Forall (batch_ok start T) l → range_inv start T (SyncingChain.set_processed c l) io.
Proof. destruct 1. by constructor. Qed.

(** The batch being processed is done. *)
Lemma range_inv_next c io b :
  range_inv start T c io → current_processing_batch c = Some b →
  range_inv start T (SyncingChain.set_ids (SyncingChain.set_current c None)
                       (to_be_downloaded_id c) (to_be_processed_id c + 1)) io ∧
  in_u 64 (to_be_processed_id c + 1).
Proof.
  intros Hi Hc. destruct (ri_current _ _ _ _ Hi _ Hc) as [_ ?].
  pose proof (ri_start _ _ _ _ Hi). pose proof (ri_process _ _ _ _ Hi). unfold BLOCKS_PER_BATCH, in_u in *.
  split; [|lia]. destruct Hi. constructor; simpl; try done. unfold BLOCKS_PER_BATCH. lia.
Qed.

Lemma on_batch_process_result_spec c io id blocks result :
  range_inv start T c io → request_id (io_net io) + 7 < 2 ^ 64 →
  ∃ c' io' r, SyncingChain.on_batch_process_result (E:=E) c io id blocks result = Ok (c', io', r) ∧
    range_inv start T c' io' ∧ peer_pool c' = peer_pool c ∧
    request_id (io_net io) ≤ request_id (io_net io') ≤ request_id (io_net io) + 6.
Proof.
  intros Hi Hid. unfold SyncingChain.on_batch_process_result.
  assert (Hret : ∀ c' (r : option (list Block) * option ProcessingResult), range_inv start T c' io →
    peer_pool c' = peer_pool c → ∃ c1 io1 r1, Ok (E:=E) (c', io, r) = Ok (c1, io1, r1) ∧
    range_inv start T c1 io1 ∧ peer_pool c1 = peer_pool c ∧
    request_id (io_net io) ≤ request_id (io_net io1) ≤ request_id (io_net io) + 6).
  { intros c' r ??. exists c', io, r. split_and!; try done; lia. }
  destruct (current_processing_batch c) as [cur|] eqn:Hcur; [|by apply Hret].
  case_decide; [by apply Hret|]. destruct (ri_current _ _ _ _ Hi _ Hcur) as [Hb _].
  pose proof (range_inv_no_current _ _ Hi) as Hnone.
  destruct blocks as [downloaded|]; [|by apply Hret].
  set (b := Batch.set_blocks cur downloaded). destruct result.
  2:{ destruct Hb as (_ & _ & _ & _ & _ & Hr).
      rewrite decide_False by (simpl; rewrite Hr; unfold INVALID_BATCH_LOOKUP_ATTEMPTS; lia). by apply Hret. }
  destruct (range_inv_next _ _ _ Hi Hcur) as [Hi1 Hin].
  simpl to_be_processed_id. unfold add_u. rewrite (arith_in _ _ Hin), bind_Ok. cbv zeta.
  set (c1 := SyncingChain.set_ids _ _ _) in *.
  assert (Hv : ∃ c2, (match downloaded with [] => Ok (c1, io) | _ =>
        n ← SyncingChain.validate_processed (E:=E) (processed_batches c1) (io_net io);
        mret (SyncingChain.set_processed c1 [], mkIO n (io_jobs io)) end) = Ok (c2, io) ∧
    range_inv start T c2 io ∧ peer_pool c2 = peer_pool c).
  { destruct downloaded; [by exists c1|]. rewrite validate_processed_spec by apply Hi1. rewrite bind_Ok.
    exists (SyncingChain.set_processed c1 []). destruct io. split_and!; try done. by apply range_inv_processed. }
  destruct Hv as (c2 & -> & Hi2 & Hpool2). rewrite bind_Ok. cbv zeta. simpl fst; simpl snd.
  set (c3 := if decide _ then c2 else _).
  assert (Hi3 : range_inv start T c3 io ∧ peer_pool c3 = peer_pool c).
  { subst c3. case_decide; [done|]. split; [|done]. apply range_inv_processed; [done|].
    apply Forall_app. split; [apply Hi2|]. by apply Forall_singleton. }
  clearbody c3. destruct Hi3 as (Hi3 & Hpool3).
  rewrite (current_processed_slot_spec _ _ Hi3), bind_Ok. case_decide; [by apply Hret|].
  destruct (advance_spec (λ _, True) c3 io) as (c4 & io4 & c' & io' & -> & Hpc & Hi' & Hpool & Hn & _);
    [done..|]. rewrite bind_Ok. simpl. rewrite Hpc. eexists c', io', _. split; [done|].
  split; [done|]. split; [congruence|lia].
Qed.

Lemma add_peer_spec c io p :
  range_inv start T c io → request_id (io_net io) + 7 < 2 ^ 64 →
  ∃ c' io', SyncingChain.add_peer (E:=E) c io p = Ok (c', io') ∧
    range_inv start T c' io' ∧ peer_pool c' = peer_pool c ∪ {[p]} ∧
    request_id (io_net io) ≤ request_id (io_net io') ≤ request_id (io_net io) + 6.
Proof.
  intros Hi Hid. unfold SyncingChain.add_peer. set (c1 := SyncingChain.set_peers _ _).
  assert (Hi1 : range_inv start T c1 io) by (destruct Hi; by constructor).
  destruct (sync_state c1). { exists c1, io. split_and!; try done; lia. }
  destruct (request_batches_spec (λ _, True) c1 io) as (c' & io' & -> & Hi' & Hp & _ & Hn & _); [done..|].
  exists c', io'. split_and!; try done; try lia. apply Hp.
Qed.

Lemma start_syncing_spec c io local :
  range_inv start T c io → request_id (io_net io) + 7 < 2 ^ 64 →
  ∃ c' io', SyncingChain.start_syncing (E:=E) c io local = Ok (c', io') ∧
    range_inv start T c' io' ∧ peer_pool c' = peer_pool c ∧
    request_id (io_net io) ≤ request_id (io_net io') ≤ request_id (io_net io) + 6.
Proof.
  intros Hi Hid. unfold SyncingChain.start_syncing.
  rewrite (current_processed_slot_spec _ _ Hi), bind_Ok. cbv zeta.
  set (c1 := if decide _ then _ else c).
  assert (Hi1 : range_inv start T (SyncingChain.set_state c1 Syncing) io ∧ peer_pool c1 = peer_pool c).
  { subst c1. case_decide; (split; [|done]); destruct Hi; constructor; simpl; try done.
    - by constructor.
    - intros b Hb. destruct (ri_current0 _ Hb) as [Hb' ?]. split; [done|].
      destruct Hb' as (? & ? & ? & ? & _). unfold BLOCKS_PER_BATCH in *. lia.
    - unfold buffered in *. simpl in *. lia.
    - lia.
    - lia. }
  clearbody c1. destruct Hi1 as [Hi1 Hpool].
  destruct (SyncingChain.process_completed_batches _ _) as [c2 io2] eqn:Hpc.
  destruct (process_completed_batches_spec _ _ _ _ Hi1 Hpc) as (Hi2 & Hnet & Hpool2 & _). simpl.
  destruct (request_batches_spec (λ _, True) c2 io2) as (c' & io' & -> & Hi' & Hp & _ & Hn & _);
    [done..|by rewrite Hnet|].
  exists c', io'. rewrite Hnet in Hn. split; [done|split; [done|split; [|done]]].
  destruct Hp as (_ & _ & -> & _). by rewrite Hpool2.
Qed.

Lemma status_all_spec l status (n : SyncNetworkContext Peer MsgId) :
  net_open n = true → 0 ≤ request_id n → request_id n + Z.of_nat (length l) < 2 ^ 64 →
  ∃ sent, SyncingChain.status_all (E:=E) l status n =
      Ok (mkNet true (request_id n + Z.of_nat (length l)) (net_sent n ++ sent)) ∧
    Forall (range_request_ok start T) sent.
Proof.
  revert n. induction l as [|p l IH]; intros n Hopen H0' Hn; simpl.
  - exists []. rewrite Z.add_0_r, app_nil_r. destruct n; simpl in *. subst. done.
  - simpl in Hn. unfold SyncNetworkContext.status_peer, SyncNetworkContext.send_rpc_request, add_u.
    rewrite arith_in by (unfold in_u; lia).
    unfold SyncNetworkContext.send_rpc_event, SyncNetworkContext.try_send. simpl. rewrite Hopen. simpl.
    destruct (IH (mkNet true (request_id n + 1) (net_sent n ++ [NetworkMessage.P2P p
      (P2PEvent.Request (request_id n) (P2PRequest.Status status))]))) as (sent & -> & Hs); simpl; [done|lia..|].
    exists (NetworkMessage.P2P p (P2PEvent.Request (request_id n) (P2PRequest.Status status)) :: sent).
    split; [|by constructor]. rewrite <-app_assoc. simpl. do 2 f_equal. lia.
Qed.
End Requests.

(** ** Runs of the sync thread *)
Section Runs.
Context {Peer MsgId : Type} `{Countable Peer, PO : !PeerOrder Peer, PL : !PeerOrderLaws Peer}.
Context `{P : Profile, BatchDigest, Bincode (list Block)} {E : Type}.
Implicit Types (s : RangeSync Peer) (io : SyncIO Peer MsgId).

(** What the sync manager can tell the range sync (src/network/src/sync/manager.rs). *)
Inductive SyncEvent : Type :=
  | PeerAdded (p : Peer) (number : Z) (root : Hash) (local : Z)
  | RangeResponse (id : Z) (block : option Block)
  | Processed (id : Z) (blocks : list Block) (result : BatchProcessResult) (status : StatusMessage)
  | PeerGone (p : Peer).

Definition sync_step s io (e : SyncEvent) : Outcome E (RangeSync Peer * SyncIO Peer MsgId) :=
  match e with
  | PeerAdded p number root local => RangeSync.add_peer s io p number root local
  | RangeResponse id block => RangeSync.blocks_by_range_response s io id block
  | Processed id blocks result status => RangeSync.handle_block_process_result s io id blocks result status
  | PeerGone p => Ok (RangeSync.peer_disconnect s p, io)
  end.

Fixpoint sync_run s io (l : list SyncEvent) : Outcome E (RangeSync Peer * SyncIO Peer MsgId) :=
  match l with
  | [] => Ok (s, io)
  | e :: l => r ← sync_step s io e; sync_run r.1 r.2 l
  end.

(** Peers announce heights between 0 and [T]. *)
Definition event_ok (T : Z) (e : SyncEvent) : Prop :=
  match e with PeerAdded _ number _ _ => 0 ≤ number ≤ T | _ => True end.

Context (start T : Z) (HT : T + 11 < 2 ^ 64).

Lemma sync_step_spec s io e :
  range_inv start T (chains s) io → event_ok T e →
  request_id (io_net io) + 20 + Z.of_nat (size (peer_pool (chains s))) < 2 ^ 64 →
  ∃ s' io', sync_step s io e = Ok (s', io') ∧ range_inv start T (chains s') io' ∧
    (size (peer_pool (chains s')) ≤ size (peer_pool (chains s)) + 1)%nat ∧
    request_id (io_net io') ≤ request_id (io_net io) + 12 + Z.of_nat (size (peer_pool (chains s))).
Proof.
  intros Hi He Hid. destruct e as [p number root local|id block|id blocks result status|p]; simpl.
  - unfold RangeSync.add_peer, RangeSync.remove_peer.
    assert (Hi0 : range_inv start T (SyncingChain.set_target (chains s) number root) io).
    { destruct Hi. by constructor. }
    destruct (add_peer_spec (E:=E) start T HT _ io p Hi0) as (c1 & io1 & -> & Hi1 & Hp1 & Hn1); [lia|].
    rewrite bind_Ok. simpl.
    destruct (start_syncing_spec (E:=E) start T HT c1 io1 local Hi1) as (c2 & io2 & -> & Hi2 & Hp2 & Hn2); [lia|].
    rewrite bind_Ok. eexists _, _. split; [done|]. simpl. split; [done|]. rewrite Hp2, Hp1.
    split; [|lia]. simpl. rewrite size_union_alt, Nat.add_comm. rewrite Nat.add_comm.
    apply Nat.add_le_mono_l. transitivity (size ({[p]} : gset Peer)); [|by rewrite size_singleton].
    apply subseteq_size. set_solver.
  - unfold RangeSync.blocks_by_range_response.
    destruct (on_block_response_spec (E:=E) start T HT _ io id block Hi) as (c1 & io1 & r & -> & Hi1 & Hp1 & Hn1); [lia|].
    rewrite bind_Ok. eexists _, _. split; [done|]. simpl. rewrite Hp1. split; [done|lia].
  - unfold RangeSync.handle_block_process_result.
    destruct (on_batch_process_result_spec (E:=E) start T HT _ io id (Some blocks) result Hi)
      as (c1 & io1 & [bl o] & -> & Hi1 & Hp1 & Hn1); [lia|].
    rewrite bind_Ok. simpl. destruct o as [[]|].
    + eexists _, _. split; [done|]. simpl. rewrite Hp1. split; [done|lia].
    + unfold SyncingChain.status_peers.
      assert (Hlen : length (pool_iter (peer_pool c1)) = size (peer_pool (chains s))).
      { rewrite pool_iter_perm, Hp1. done. }
      destruct (status_all_spec (E:=E) start T (pool_iter (peer_pool c1)) status (io_net io1))
        as (sent & -> & Hs); [apply Hi1..|lia|].
      rewrite bind_Ok. eexists _, _. split; [done|]. simpl. split; [|rewrite Hlen, Hp1; lia].
      eapply range_inv_net; [|done|lia|done]. destruct Hi1. by constructor.
    + destruct (on_batch_process_result_spec (E:=E) start T HT _ io1 id bl result Hi1)
        as (c2 & io2 & r & -> & Hi2 & Hp2 & Hn2); [lia|].
      rewrite bind_Ok. eexists _, _. split; [done|]. simpl. rewrite Hp2, Hp1. split; [done|lia].
  - eexists _, _. split; [done|]. simpl. split; [done|lia].
Qed.

Lemma sync_run_spec l s io :
  range_inv start T (chains s) io → Forall (event_ok T) l →
  request_id (io_net io) + Z.of_nat (length l) * (32 + Z.of_nat (size (peer_pool (chains s))) + Z.of_nat (length l)) < 2 ^ 64 →
  ∃ s' io', sync_run s io l = Ok (s', io') ∧ range_inv start T (chains s') io'.
Proof.
  revert s io. induction l as [|e l IH]; intros s io Hi Hl Hid; simpl; [eauto|].
  apply Forall_cons in Hl as [He Hl]. simpl length in Hid.
  destruct (sync_step_spec s io e Hi He) as (s1 & io1 & -> & Hi1 & Hp & Hn); [nia|].
  rewrite bind_Ok. apply IH; [done..|]. simpl. nia.
Qed.
(** *** A lost batch

    Batches are numbered from [k] on, each number is used once, and none is being
    processed: the state of a sync that has not been reset. *)
Definition fresh (k : Z) (c : SyncingChain Peer) : Prop :=
  current_processing_batch c = None ∧
  (∀ b, b ∈ completed_batches c → batch_id b < to_be_downloaded_id c) ∧
  (∀ id b, batches (pending_batches c) !! id = Some b → k ≤ batch_id b < to_be_downloaded_id c) ∧
  (∀ i j b b', batches (pending_batches c) !! i = Some b → batches (pending_batches c) !! j = Some b' →
     batch_id b = batch_id b' → i = j) ∧
  (∀ i b b', batches (pending_batches c) !! i = Some b → b' ∈ completed_batches c → batch_id b ≠ batch_id b').

(** The batch whose turn it is was requested, but is neither awaited nor there. *)
Definition stalled (k : Z) (c : SyncingChain Peer) : Prop :=
  fresh k c ∧ k ≤ to_be_processed_id c < to_be_downloaded_id c ∧
  (∀ b, b ∈ completed_batches c → batch_id b ≠ to_be_processed_id c) ∧
  (∀ id b, batches (pending_batches c) !! id = Some b → batch_id b ≠ to_be_processed_id c).

Lemma stalled_requested k c (io : SyncIO Peer MsgId) c' :
  range_inv start T c io → stalled k c → requested (request_id (io_net io)) c c' → stalled k c'.
Proof.
  intros _ ((Hc & Hco & Hpe & Hd1 & Hd2) & Htp & Hnc & Hnp) ((E1 & _ & _ & E2 & _ & E3 & _) & Htd & b & Hb & Hbs).
  unfold stalled, fresh. rewrite E1, E2, E3, Hbs. split_and!; try done; try lia.
  - intros x Hx. specialize (Hco _ Hx). lia.
  - intros i x [[<- <-]|[_ Hx]]%lookup_insert_Some; [lia|]. specialize (Hpe _ _ Hx). lia.
  - intros i j x y [[<- <-]|[_ Hx]]%lookup_insert_Some [[<- <-]|[_ Hy]]%lookup_insert_Some Hxy; [done| | |eauto].
    + specialize (Hpe _ _ Hy). lia.
    + specialize (Hpe _ _ Hx). lia.
  - intros i x y [[<- <-]|[_ Hx]]%lookup_insert_Some Hy; [|eauto]. specialize (Hco _ Hy). lia.
  - intros i x [[<- <-]|[_ Hx]]%lookup_insert_Some; [lia|eauto].
Qed.

Lemma stalled_process k c (io : SyncIO Peer MsgId) :
  stalled k c → SyncingChain.process_completed_batches c io = (c, io).
Proof.
  intros (_ & _ & Hnc & _). unfold SyncingChain.process_completed_batches.
  destruct (sync_state c), (current_processing_batch c); try done.
  destruct (completed_batches c) as [|b l]; [done|].
  rewrite decide_False; [done|]. apply Hnc. set_solver.
Qed.

Lemma stalled_advance k c (io : SyncIO Peer MsgId) :
  range_inv start T c io → stalled k c → request_id (io_net io) + 7 < 2 ^ 64 →
  ∃ c' io', SyncingChain.request_batches (E:=E) c io = Ok (c', io') ∧
    SyncingChain.process_completed_batches c' io' = (c', io') ∧ stalled k c' ∧ io_jobs io' = io_jobs io.
Proof.
  intros Hi Hs Hid.
  destruct (request_batches_spec (E:=E) start T HT (stalled k) c io (stalled_requested k) Hi Hs Hid)
    as (c' & io' & -> & _ & _ & Hj & _ & _ & Hs').
  exists c', io'. split_and!; try done. by eapply stalled_process.
Qed.

(** A completed batch that is out of range is forgotten. *)
Lemma lost_batch_stalls k c id b :
  fresh k c → batches (pending_batches c) !! id = Some b →
  stalled k (SyncingChain.set_ids (SyncingChain.set_pending c
     (mkPending (delete id (batches (pending_batches c))) (delete (current_peer b) (peer_requests (pending_batches c)))))
     (to_be_downloaded_id c) (batch_id b)).
Proof.
  intros (Hc & Hco & Hpe & Hd1 & Hd2) Hb. unfold stalled, fresh. simpl. split_and!; try done.
  - intros i x [_ Hx]%lookup_delete_Some. eauto.
  - intros i j x y [_ Hx]%lookup_delete_Some [_ Hy]%lookup_delete_Some. eauto.
  - intros i x y [_ Hx]%lookup_delete_Some. eauto.
  - by apply (Hpe _ _ Hb).
  - by apply (Hpe _ _ Hb).
  - intros x Hx Heq. by eapply Hd2.
  - intros i x [Hne Hx]%lookup_delete_Some Heq. apply Hne. by eapply Hd1.
Qed.

Lemma stalled_completed k c id b :
  stalled k c → batches (pending_batches c) !! id = Some b →
  stalled k (SyncingChain.set_completed (SyncingChain.set_pending c
     (mkPending (delete id (batches (pending_batches c))) (delete (current_peer b) (peer_requests (pending_batches c)))))
     (SyncingChain.insert_batch b (completed_batches c))).
Proof.
  intros ((Hc & Hco & Hpe & Hd1 & Hd2) & Htp & Hnc & Hnp) Hb. unfold stalled, fresh. simpl.
  assert (Hin : ∀ x, x ∈ SyncingChain.insert_batch b (completed_batches c) ↔ x = b ∨ x ∈ completed_batches c).
  { intros x. rewrite insert_batch_perm. set_solver. }
  split_and!; try done; try lia.
  - intros x [->|Hx]%Hin; [apply (Hpe _ _ Hb)|eauto].
  - intros i x [_ Hx]%lookup_delete_Some. eauto.
  - intros i j x y [_ Hx]%lookup_delete_Some [_ Hy]%lookup_delete_Some. eauto.
  - intros i x y [Hne Hx]%lookup_delete_Some [->|Hy]%Hin; [|eauto]. intros Heq. apply Hne. eauto.
  - intros x [->|Hx]%Hin; eauto.
  - intros i x [_ Hx]%lookup_delete_Some. eauto.
Qed.
(** The local chain has not grown past the batches before [k], so the sync is not
    reset. *)
Definition quiet (k : Z) (e : SyncEvent) : Prop :=
  match e with PeerAdded _ _ _ local => local ≤ start + (k - 1) * BLOCKS_PER_BATCH | _ => True end.

(** The same maps with blocks added to a batch. *)
Lemma stalled_add_block k c id b l :
  stalled k c → batches (pending_batches c) !! id = Some b →
  stalled k (SyncingChain.set_pending c
    (mkPending (<[id := Batch.set_blocks b l]> (batches (pending_batches c))) (peer_requests (pending_batches c)))).
Proof.
  intros ((Hc & Hco & Hpe & Hd1 & Hd2) & Htp & Hnc & Hnp) Hb. unfold stalled, fresh. simpl.
  assert (Hin : ∀ i x, <[id := Batch.set_blocks b l]> (batches (pending_batches c)) !! i = Some x →
    ∃ y, batches (pending_batches c) !! i = Some y ∧ batch_id y = batch_id x).
  { intros i x [[<- <-]|[_ Hx]]%lookup_insert_Some; eauto. }
  split_and!; try done; try lia.
  - intros i x (y & Hy & <-)%Hin. eauto.
  - intros i j x x' (y & Hy & <-)%Hin (y' & Hy' & <-)%Hin. eauto.
  - intros i x x' (y & Hy & <-)%Hin. eauto.
  - intros i x (y & Hy & <-)%Hin. eauto.
Qed.

Lemma stalled_response k c (io : SyncIO Peer MsgId) id o c' io' r :
  range_inv start T c io → stalled k c → request_id (io_net io) + 7 < 2 ^ 64 →
  SyncingChain.on_block_response (E:=E) c io id o = Ok (c', io', r) →
  stalled k c' ∧ io_jobs io' = io_jobs io.
Proof.
  intros Hi Hs Hid. unfold SyncingChain.on_block_response. destruct o as [block|].
  - destruct (PendingBatches.add_block _ _ _) as [s|] eqn:Ha; intros [= <- <- <-]; [|done].
    destruct (pending_ok_add_block _ _ _ _ _ (ri_pending _ _ _ _ Hi) Ha) as (b & Hb & -> & _).
    split; [by apply stalled_add_block|done].
  - destruct (batches (pending_batches c) !! id) as [b|] eqn:Hb.
    2:{ unfold PendingBatches.remove. rewrite Hb. by intros [= <- <- <-]. }
    destruct (range_inv_remove start T _ _ _ _ Hi Hb) as (-> & Hi1 & Hbuf). unfold SyncingChain.handle_completed_batch.
    destruct (SyncingChain.out_of_range b).
    + rewrite downvote_peer_spec by (apply Hi || lia). rewrite !bind_Ok. unfold mret, outcome_mret.
      intros [= <- <- <-]. split; [|done]. by apply lost_batch_stalls; [apply Hs|].
    + pose proof (range_inv_completed _ _ _ _ _ Hi1 Hbuf (ri_batches _ _ _ _ Hi _ _ Hb)) as Hi2.
      destruct (stalled_advance k _ io Hi2) as (c2 & io2 & -> & Hpc & Hs2 & Hj); [exact (stalled_completed _ _ _ _ Hs Hb)|done|].
      rewrite bind_Ok. simpl. rewrite Hpc. by intros [= <- <- <-].
Qed.

Lemma sync_step_stalled k s io e s' io' :
  range_inv start T (chains s) io → stalled k (chains s) → event_ok T e → quiet k e →
  request_id (io_net io) + 20 + Z.of_nat (size (peer_pool (chains s))) < 2 ^ 64 →
  sync_step s io e = Ok (s', io') → stalled k (chains s') ∧ io_jobs io' = io_jobs io.
Proof.
  intros Hi Hs He Hq Hid. destruct e as [p number root local|id block|id blocks result status|p]; simpl.
  - unfold RangeSync.add_peer, RangeSync.remove_peer, SyncingChain.add_peer.
    set (c1 := SyncingChain.set_peers _ _).
    assert (Hi1 : range_inv start T c1 io) by (destruct Hi; by constructor).
    assert (Hs1 : stalled k c1) by exact Hs.
    destruct (add_peer_spec (E:=E) start T HT (SyncingChain.set_target (chains s) number root) io p)
      as (c2 & io2 & Ha & Hi2 & _ & Hn); [destruct Hi; by constructor|lia|].
    unfold SyncingChain.add_peer in Ha. fold c1 in Ha. rewrite Ha, bind_Ok. simpl.
    assert (Hs2 : stalled k c2 ∧ io_jobs io2 = io_jobs io).
    { destruct (sync_state c1); [by injection Ha as <- <-|].
      destruct (stalled_advance k c1 io Hi1 Hs1) as (c3 & io3 & Hr & _ & Hs3 & Hj3); [lia|].
      rewrite Hr in Ha. by injection Ha as <- <-. }
    destruct Hs2 as [Hs2 Hj2]. unfold SyncingChain.start_syncing.
    rewrite (current_processed_slot_spec start T HT _ _ Hi2), bind_Ok. cbv zeta.
    rewrite decide_False by (destruct Hs2 as (_ & ? & _); simpl in Hq; unfold BLOCKS_PER_BATCH in *; lia).
    assert (Hs2' : stalled k (SyncingChain.set_state c2 Syncing)) by exact Hs2.
    rewrite (stalled_process k _ io2 Hs2'). simpl.
    destruct (stalled_advance k (SyncingChain.set_state c2 Syncing) io2) as (c3 & io3 & -> & _ & Hs3 & Hj3);
      [destruct Hi2; by constructor|done|lia|].
    rewrite bind_Ok. intros [= <- <-]. split; [done|congruence].
  - unfold RangeSync.blocks_by_range_response. intros Hr. apply bind_Ok_inv in Hr as ([[c1 io1] r] & Hr & [= <- <-]).
    eapply stalled_response in Hr; [done..|lia].
  - unfold RangeSync.handle_block_process_result, SyncingChain.on_batch_process_result.
    rewrite (proj1 (proj1 Hs)). simpl. rewrite (proj1 (proj1 Hs)). simpl. intros [= <- <-]. done.
  - intros [= <- <-]. done.
Qed.

Lemma sync_run_stalled k l s io :
  range_inv start T (chains s) io → stalled k (chains s) → Forall (event_ok T) l → Forall (quiet k) l →
  request_id (io_net io) + Z.of_nat (length l) * (32 + Z.of_nat (size (peer_pool (chains s))) + Z.of_nat (length l)) < 2 ^ 64 →
  ∃ s' io', sync_run s io l = Ok (s', io') ∧ stalled k (chains s') ∧ io_jobs io' = io_jobs io.
Proof.
  revert s io. induction l as [|e l IH]; intros s io Hi Hs Hl Hq Hid; simpl; [eauto|].
  apply Forall_cons in Hl as [He Hl]. apply Forall_cons in Hq as [Hqe Hq]. simpl length in Hid.
  destruct (sync_step_spec s io e Hi He) as (s1 & io1 & Hst & Hi1 & Hp & Hn); [nia|].
  destruct (sync_step_stalled k s io e s1 io1 Hi Hs He Hqe ltac:(nia) Hst) as [Hs1 Hj].
  rewrite Hst, bind_Ok. destruct (IH s1 io1) as (s' & io' & Hr & Hs' & Hj'); [done..|simpl; nia|].
  exists s', io'. split_and!; [done..|congruence].
Qed.
End Runs.

Lemma new_inv {Peer MsgId : Type} `{Countable Peer} (local T : Z) :
  0 ≤ local ≤ T →
  range_inv local T (chains (RangeSync.new (Peer:=Peer) local)) (mkIO (SyncNetworkContext.new (MsgId:=MsgId)) []).
Proof.
  intros. constructor; simpl; try done; try lia.
  - by constructor.
  - unfold buffered, PendingBatches.len. simpl. rewrite map_size_empty. lia.
Qed.

(** ** Theorems *)
Section Theorems.
Context {Peer MsgId : Type} `{Countable Peer, PO : !PeerOrder Peer, PL : !PeerOrderLaws Peer}.
Context `{P : Profile, BatchDigest, Bincode (list Block)} {E : Type}.
Implicit Types (s : RangeSync Peer) (io : SyncIO Peer MsgId).

(** C29: Whatever peers announce and answer and whatever the block processor reports,
    in any order, the range sync never panics, no sum overflows, a busy peer has
    exactly one request, at most six batches are buffered, completed batches are
    in order, and every request asks for one to five blocks above the starting
    height and within the announced heights ([range_inv]).  Two billion events
    keep the request numbers within their width. *)
Theorem range_sync_reachable (local T : Z) (l : list SyncEvent) :
  0 ≤ local ≤ T → T + 11 < 2 ^ 64 → Forall (event_ok (Peer:=Peer) T) l → Z.of_nat (length l) < 2 ^ 31 →
  ∃ s io, sync_run (E:=E) (MsgId:=MsgId) (RangeSync.new local) (mkIO SyncNetworkContext.new []) l = Ok (s, io) ∧
    range_inv local T (chains s) io.
Proof.
  intros Hl HT He Hlen. apply sync_run_spec; [done| |done|].
  2:{ change (size (peer_pool (chains (RangeSync.new local)))) with (size (∅ : gset Peer)).
      rewrite size_empty. change (request_id _) with 0. change (2 ^ 31) with 2147483648 in Hlen.
      change (2 ^ 64) with 18446744073709551616. nia. }
  by apply new_inv.
Qed.

(** Requesting ends, after at most six requests and whatever order peers are
    tried in, and only because nothing is left to ask: every peer is busy, the
    buffer is full, or the announced height is covered. *)
Theorem request_batches_exhausts (start T : Z) c io :
  T + 11 < 2 ^ 64 → range_inv (Peer:=Peer) (MsgId:=MsgId) start T c io → request_id (io_net io) + 7 < 2 ^ 64 →
  sync_state c = Syncing →
  ∃ c' io', SyncingChain.request_batches (E:=E) c io = Ok (c', io') ∧
    range_inv start T c' io' ∧ same_progress c c' ∧
    request_id (io_net io) ≤ request_id (io_net io') ≤ request_id (io_net io) + 6 ∧
    (idle c' = ∅ ∨ (buffered c' = 6)%nat ∨
     start + (to_be_downloaded_id c' - 1) * BLOCKS_PER_BATCH + 1 > target_head_slot c').
Proof.
  intros HT Hi Hid Hst.
  destruct (request_batches_spec (E:=E) start T HT (λ _, True) c io) as (c' & io' & -> & Hi' & Hp & _ & Hn & Hex & _);
    [done..|]. exists c', io'. split_and!; try done; try lia. by apply Hex.
Qed.

(** One out-of-range response halts the sync: the batch is dropped but never
    requested again, so whatever happens later (more peers, more responses), no
    batch is given to the block processor until the local chain has grown by
    other means. *)
Theorem out_of_range_response_stalls (start T k : Z) s io id b l :
  T + 11 < 2 ^ 64 → range_inv start T (chains s) io → fresh k (chains s) →
  batches (pending_batches (chains s)) !! id = Some b → SyncingChain.out_of_range b = true →
  Forall (event_ok T) l → Forall (quiet start k) l →
  request_id (io_net io) + 32 + Z.of_nat (S (length l)) * (33 + Z.of_nat (size (peer_pool (chains s))) + Z.of_nat (length l)) < 2 ^ 64 →
  ∃ s' io', sync_run (E:=E) (MsgId:=MsgId) s io (RangeResponse id None :: l) = Ok (s', io') ∧
    io_jobs io' = io_jobs io ∧ stalled k (chains s').
Proof.
  intros HT Hi Hf Hb Ho Hl Hq Hid. simpl.
  destruct (sync_step_spec (E:=E) start T HT s io (RangeResponse id None) Hi I) as (s1 & io1 & Hst & Hi1 & Hp & Hn); [nia|].
  assert (Hs1 : stalled k (chains s1) ∧ io_jobs io1 = io_jobs io).
  { simpl in Hst. unfold RangeSync.blocks_by_range_response, SyncingChain.on_block_response in Hst.
    destruct (range_inv_remove start T _ _ _ _ Hi Hb) as (Hrm & _). rewrite Hrm in Hst.
    unfold SyncingChain.handle_completed_batch in Hst. rewrite Ho, downvote_peer_spec in Hst by (apply Hi || lia).
    rewrite bind_Ok in Hst. injection Hst as <- <-. split; [|done]. by apply lost_batch_stalls. }
  simpl in Hst. rewrite Hst, bind_Ok. destruct Hs1 as [Hs1 Hj].
  destruct (sync_run_stalled (E:=E) start T HT k l s1 io1 Hi1 Hs1 Hl Hq) as (s' & io' & Hr & Hs' & Hj'); [nia|].
  exists s', io'. split_and!; [done|congruence|done].
Qed.
End Theorems.

(** ** Worked example: one peer that answers with the wrong block *)
Module SyncEx.
#[export] Instance peer_order : PeerOrder Z := {| shuffle _ s := elements s; pool_iter s := elements s |}.
#[export] Instance peer_order_laws : PeerOrderLaws Z.
Proof. by split. Qed.
#[export] Instance digest : BatchDigest := λ _, 0.
#[export] Instance blocks_bincode : Bincode (list Block) := example_bincode.
#[export] Existing Instance Dev.

Definition root : Hash := mkHash [1].
Definition block_at (n : Z) : Block :=
  mkBlock (mkHeader n root 0 [] (mkVRFProof [] []) root root root 0) [] [] [].
Definition before : list (SyncEvent (Peer:=Z)) := [PeerAdded 1 20 root 0; RangeResponse 0 (Some (block_at 100))].
Definition later : list (SyncEvent (Peer:=Z)) :=
  [PeerAdded 2 20 root 0; RangeResponse 2 (Some (block_at 6)); RangeResponse 2 None; PeerAdded 1 20 root 0; PeerGone 1].

Definition s0 : RangeSync Z := RangeSync.new 0.
Definition io0 : SyncIO Z unit := mkIO SyncNetworkContext.new [].
Definition r1 : RangeSync Z * SyncIO Z unit :=
  match sync_run (E:=unit) s0 io0 before with Ok r => r | _ => (s0, io0) end.
Definition lost : Batch Z := Batch.set_blocks (Batch.new 1 1 6 root 1) [block_at 100].

Lemma r1_inv : range_inv 0 20 (chains r1.1) r1.2.
Proof.
  destruct (sync_run_spec (E:=unit) (MsgId:=unit) 0 20 ltac:(lia) before s0 io0) as (s & io & Hr & Hi).
  - by apply new_inv.
  - by repeat constructor.
  - by vm_compute.
  - unfold r1. by rewrite Hr.
Qed.
Lemma r1_batches : batches (pending_batches (chains r1.1)) = {[0 := lost]}.
Proof. vm_compute. reflexivity. Qed.
Lemma r1_fresh : fresh 1 (chains r1.1).
Proof.
  unfold fresh. rewrite r1_batches.
  assert (Hc : completed_batches (chains r1.1) = [] ∧ to_be_downloaded_id (chains r1.1) = 2) by (by vm_compute).
  destruct Hc as [-> ->]. split; [by vm_compute|]. split; [set_solver|].
  split; [intros id b [<- <-]%lookup_singleton_Some; simpl; lia|].
  split; [|set_solver]. by intros i j b b' [<- _]%lookup_singleton_Some [<- _]%lookup_singleton_Some.
Qed.
End SyncEx.

Import SyncEx.
Lemma range_sync_reachable_witness :
  ∃ s io, sync_run (E:=unit) s0 io0 (before ++ later) = Ok (s, io) ∧ range_inv 0 20 (chains s) io.
Proof.
  apply (range_sync_reachable 0 20); [lia|lia| |simpl; lia].
  repeat constructor; simpl; lia.
Defined.

Lemma request_batches_exhausts_witness :
  ∃ c' io', SyncingChain.request_batches (E:=unit) (chains r1.1) r1.2 = Ok (c', io') ∧
    range_inv 0 20 c' io' ∧ same_progress (chains r1.1) c' ∧
    request_id (io_net r1.2) ≤ request_id (io_net io') ≤ request_id (io_net r1.2) + 6 ∧
    (idle c' = ∅ ∨ (buffered c' = 6)%nat ∨
     0 + (to_be_downloaded_id c' - 1) * BLOCKS_PER_BATCH + 1 > target_head_slot c').
Proof.
  apply (request_batches_exhausts 0 20); [lia|exact r1_inv|by vm_compute|by vm_compute].
Defined.

Lemma out_of_range_response_stalls_witness :
  ∃ s' io', sync_run (E:=unit) r1.1 r1.2 (RangeResponse 0 None :: later) = Ok (s', io') ∧
    io_jobs io' = io_jobs r1.2 ∧ stalled 1 (chains s').
Proof.
  apply (out_of_range_response_stalls 0 20 1 r1.1 r1.2 0 lost later);
    [lia|exact r1_inv|exact r1_fresh| |by vm_compute| | |by vm_compute].
  - rewrite r1_batches. by rewrite lookup_singleton_eq.
  - repeat constructor; simpl; lia.
  - repeat constructor; simpl; lia.
Defined.
