(* ===== verification/Poa.v ===== *)
(** * Poa: proof of authority (src/consensus/src/poa.rs)

    A block is finalised by the validator's signature on its hash and verified
    against the public key of the same validator. *)
From S2P Require Import Prelude Hashing Types Codec Keys Transaction Block Runtime.

(** The kinds of src/consensus/src/lib.rs. *)
Module ConsensusErrorKind.
Inductive t : Type :=
  | NoneSign | AnotherPk | InvalidProof | InvalidKey | NotMatchEpochID | NoValidatorsInEpoch
  | EncryptedShareMsgError | DecryptShareMsgError | NotMatchLocalHolders | RecoverSharesError
  | NotEnoughShares | NotFoundSeedInfo | NotFetchAnyShares.
End ConsensusErrorKind.
Abbreviation ConsensusErrorKind := ConsensusErrorKind.t.

(** The two kinds of [errors::Error] this component returns. *)
Inductive PoaError : Type :=
  | Consensus (k : ConsensusErrorKind)
  | Internal (k : InternalErrorKind).

Definition poa_Version : Z := 1.
Record POA : Type := mkPOA { validator : bytes }.

Module POA.
Section POA.
Context `{Blake2b, Ed25519, Hex, Bincode Header, Bincode (list VerificationItem)}.
Implicit Types (s : POA) (b : Block).

Definition version : Z := poa_Version.

Definition new (v : option bytes) : POA :=
  match v with
  | Some val => mkPOA val
  | None => mkPOA ed_genesis_priv_key
  end.

(** Short and malformed keys fall back to the genesis key. *)
Definition new_from_string (priv_key : bytes) : Outcome PoaError POA :=
  if decide (length priv_key < 32)%nat then Ok (new None) else
  match PrivKey.from_hex priv_key with
  | Ok pkey => Ok (new (Some (PrivKey.to_bytes pkey)))
  | Err _ => Ok (new None)
  | Panic => Panic
  end.

Definition get_local_pk s : Outcome PoaError (option bytes) :=
  k ← PrivKey.from_bytes (validator s);
  match PrivKey.to_pubkey k with
  | Ok pk => Ok (Some (Pubkey.to_bytes pk))
  | Err _ => Ok None
  | Panic => Panic
  end.

Definition is_poa_sign s (pk : bytes) : Outcome PoaError bool :=
  o ← get_local_pk s;
  mret (match o with
        | Some lpk => bool_decide (length lpk = length pk ∧ lpk = pk)
        | None => false
        end).

Definition add_signs_to_block (h : Hash) (signs : SignatureInfo) b : Block :=
  let b := Block.add_verify_item b (VerificationItem.new h signs) in
  Block.set_sign_hash b (get_hash_from_signs (Block.get_signs b)).

Definition sign_with (k : PrivKey) b : Outcome PoaError Block :=
  let h := Block.get_hash b in
  signs ← map_err Internal (PrivKey.sign k (Hash.to_slice h));
  mret (add_signs_to_block h signs b).

Definition sign_block (t : Z) (pkey : option PrivKey) b : Outcome PoaError Block :=
  match pkey with
  | Some p => if decide (t = 0) then sign_with p b else Ok b
  | None =>
      if decide (t = 0) then
        p ← PrivKey.from_bytes ed_genesis_priv_key;
        sign_with p b
      else Ok b
  end.

Definition add_proof_to_block (t : Z) (pk : bytes) b : Outcome PoaError Block :=
  proof ← BlockProof.new t pk;
  mret (Block.add_proof b proof).

Definition finalize_block s b (h : Hash) : Outcome PoaError Block :=
  let b := Block.set_state_root b h in
  k ← PrivKey.from_bytes (validator s);
  sign_block 0 (Some k) b.

Definition poa_verify s (proof : BlockProof) (vInfo : VerificationItem) : Outcome PoaError unit :=
  let (pk0, t) := BlockProof.get_pk proof (replicate 64 0) in
  if decide (t = 0) then
    mine ← is_poa_sign s (take 32 pk0);
    if negb mine then Err (Consensus ConsensusErrorKind.AnotherPk) else
    pk ← Pubkey.from_bytes (take 32 pk0);
    map_err Internal (Pubkey.verify pk (VerificationItem.to_msg vInfo) (signs vInfo))
  else Ok tt.

Definition verify s b : Outcome PoaError unit :=
  match Block.proof_one b with
  | Some v =>
      match Block.sign_one b with
      | Some v2 => poa_verify s v v2
      | None => Err (Consensus ConsensusErrorKind.NoneSign)
      end
  | None =>
      o ← get_local_pk s;
      match o with
      | Some pk =>
          proof ← BlockProof.new 0 pk;
          match Block.sign_one b with
          | Some v2 => poa_verify s proof v2
          | None => Err (Consensus ConsensusErrorKind.NoneSign)
          end
      | None => Err (Consensus ConsensusErrorKind.InvalidProof)
      end
  end.

Definition get_interval : Z := 2000.
Definition get_default_miner : Outcome PoaError Address :=
  pk ← Pubkey.from_bytes ed_genesis_pub_key;
  mret (Address.from_pubkey (pk_inner pk)).
End POA.
End POA.

(** ** Properties *)
Section PoaFacts.
Context `{HB : Blake2bLaws, EL : Ed25519Laws, BH : Bincode Header, BS : Bincode (list VerificationItem)}.
Implicit Types (s : POA) (b : Block).

Lemma get_local_pk_spec s :
  length (validator s) = 32%nat → secret_ok (validator s) = true →
  POA.get_local_pk s = Ok (Some (public_of_secret (validator s))).
Proof.
  intros Hl Hok. unfold POA.get_local_pk, PrivKey.from_bytes, slice_to.
  rewrite decide_True, take_ge by lia. cbn [mbind outcome_mbind mret outcome_mret].
  by destruct (sign_spec (mkPrivKey (validator s)) [] Hok) as [-> _].
Qed.

(** A signature made with the validator's key passes the check. *)
Lemma poa_verify_key s v :
  length (validator s) = 32%nat → secret_ok (validator s) = true →
  ∃ p, BlockProof.new (E:=PoaError) 0 (public_of_secret (validator s)) = Ok p ∧
    POA.poa_verify s p v =
      map_err Internal (Pubkey.verify (mkPubkey (public_of_secret (validator s)))
        (VerificationItem.to_msg v) (signs v)).
Proof.
  intros Hl Hok. pose proof (public_of_secret_length _ Hok) as Hpl.
  destruct (block_proof_roundtrip (E:=PoaError) 0 (public_of_secret (validator s)))
    as (p & Hp & Hg); [done|done|].
  exists p. split; [done|]. unfold POA.poa_verify. rewrite Hg.
  rewrite !(decide_True (P:=0 = 0)) by done.
  rewrite take_app_length' by done. unfold POA.is_poa_sign.
  rewrite (get_local_pk_spec s Hl Hok), bind_Ok. cbv [mret outcome_mret]. rewrite bind_Ok.
  rewrite bool_decide_true by done. cbn [negb].
  unfold Pubkey.from_bytes, slice_to. rewrite decide_True, take_ge by lia. done.
Qed.

Lemma finalize_shape s b h :
  length (validator s) = 32%nat → secret_ok (validator s) = true →
  ∃ i, let b1 := Block.set_state_root b h in
    PrivKey.sign (mkPrivKey (validator s)) (hash_bytes (Block.hash b1)) = Ok i ∧
    Pubkey.verify (mkPubkey (public_of_secret (validator s))) (hash_bytes (Block.hash b1)) i = Ok tt ∧
    POA.finalize_block s b h = Ok (POA.add_signs_to_block (Block.hash b1) i b1).
Proof.
  intros Hl Hok. unfold POA.finalize_block, PrivKey.from_bytes, slice_to.
  rewrite decide_True, take_ge by lia. cbn [mbind outcome_mbind mret outcome_mret].
  unfold POA.sign_block. rewrite decide_True by done. unfold POA.sign_with, Hash.to_slice.
  destruct (sign_spec (mkPrivKey (validator s)) (hash_bytes (Block.hash (Block.set_state_root b h))) Hok)
    as (_ & i & Hs & Hp & _ & _ & Hv). simpl in Hp.
  exists i. cbn zeta. split; [done|]. split; [by rewrite <-Hp|].
  change (Block.get_hash (Block.set_state_root b h)) with (Block.hash (Block.set_state_root b h)).
  by rewrite Hs.
Qed.

(** Finalising an unsigned block with a valid key succeeds, and the result is
    accepted by every node with the same key: it carries the state root, the
    digest of its signatures and one signature on the hash it had when signed;
    transactions and every other header field are kept. *)
Theorem finalize_block_verifies s b h :
  length (validator s) = 32%nat → secret_ok (validator s) = true →
  block_signs b = [] → proofs b = [] →
  ∃ b', POA.finalize_block s b h = Ok b' ∧ POA.verify s b' = Ok tt ∧
    Block.state_root b' = h ∧ txs b' = txs b ∧
    sign_root (header b') = get_hash_from_signs (block_signs b') ∧
    (∃ i, block_signs b' = [mkVerificationItem (Block.hash (Block.set_state_root b h)) i]) ∧
    header b' = set_header_sign_root (set_header_state_root (header b) h) (sign_root (header b')).
Proof.
  intros Hl Hok Hsg Hpf.
  destruct (finalize_shape s b h Hl Hok) as (i & _ & Hv & Hf). rewrite Hf.
  eexists; split_and!; [done| |done|done|done| |done].
  - unfold POA.verify, Block.proof_one. cbn -[Block.sign_one POA.get_local_pk]. rewrite Hpf.
    cbn [lookup list_lookup]. rewrite (get_local_pk_spec s Hl Hok), bind_Ok.
    destruct (poa_verify_key s (mkVerificationItem (Block.hash (Block.set_state_root b h)) i) Hl Hok)
      as (p & Hp & Hpv).
    rewrite Hp, bind_Ok. unfold Block.sign_one. cbn -[POA.poa_verify]. rewrite Hsg.
    cbn -[POA.poa_verify]. unfold VerificationItem.new. rewrite Hpv.
    change (map_err Internal (Pubkey.verify (mkPubkey (public_of_secret (validator s)))
      (hash_bytes (Block.hash (Block.set_state_root b h))) i) = Ok tt). by rewrite Hv.
  - exists i. cbn. by rewrite Hsg.
Qed.

(** C33: The verdict depends only on the first proof and the first signature of the
    block: the signature of a finalised block, moved to any other block without
    proofs, is accepted there. *)
Theorem verify_replay s b h b' other :
  length (validator s) = 32%nat → secret_ok (validator s) = true →
  block_signs b = [] → POA.finalize_block s b h = Ok b' →
  proofs other = [] → block_signs other = block_signs b' →
  POA.verify s other = Ok tt.
Proof.
  intros Hl Hok Hsg Hf Hpf Hsame.
  destruct (finalize_shape s b h Hl Hok) as (i & _ & Hv & Hf'). rewrite Hf' in Hf.
  injection Hf as <-. cbn in Hsame. rewrite Hsg in Hsame. cbn in Hsame.
  unfold POA.verify, Block.proof_one, Block.sign_one. rewrite Hpf, Hsame.
  cbn [lookup list_lookup]. rewrite (get_local_pk_spec s Hl Hok), bind_Ok.
  destruct (poa_verify_key s (VerificationItem.new (Block.hash (Block.set_state_root b h)) i) Hl Hok)
    as (p & Hp & Hpv).
  rewrite Hp, bind_Ok, Hpv.
  change (map_err Internal (Pubkey.verify (mkPubkey (public_of_secret (validator s)))
    (hash_bytes (Block.hash (Block.set_state_root b h))) i) = Ok tt). by rewrite Hv.
Qed.
End PoaFacts.

Section PoaExamples.
#[local] Existing Instance example_blake2b.
#[local] Existing Instance example_blake2b_laws.
#[local] Existing Instance example_ed25519.
#[local] Existing Instance example_ed25519_laws.
#[local] Instance poa_bin_header : Bincode Header := example_bincode.
#[local] Instance poa_bin_signs : Bincode (list VerificationItem) := example_bincode.

Lemma finalize_block_verifies_witness :
  ∃ b', POA.finalize_block (POA.new None) Block_default Hash_default = Ok b' ∧
        POA.verify (POA.new None) b' = Ok tt.
Proof.
  destruct (finalize_block_verifies (POA.new None) Block_default Hash_default)
    as (b' & Hf & Hv & _); [reflexivity|reflexivity|reflexivity|reflexivity|].
  exists b'. split; [exact Hf|exact Hv].
Defined.

Lemma verify_replay_witness :
  ∃ b', POA.finalize_block (POA.new None) Block_default Hash_default = Ok b' ∧
    POA.verify (POA.new None)
      (mkBlock (set_header_tx_root Header_default (mkHash BLANK_HASH)) (block_signs b') [] []) = Ok tt.
Proof.
  destruct (is_ok_inv (POA.finalize_block (POA.new None) Block_default Hash_default)) as [b' Hf];
    [vm_compute; reflexivity|].
  exists b'. split; [exact Hf|].
  apply (verify_replay (POA.new None) Block_default Hash_default b');
    [reflexivity|reflexivity|reflexivity|exact Hf|reflexivity|reflexivity].
Defined.
End PoaExamples.
