(* ===== verification/Vrf.v ===== *)
(** * Vrf: the verifiable random function (src/common/crypto/src/vrf.rs)

    A Dodis-Yampolskiy style function over the ristretto group: the value of an
    input is the base point times the inverse of [sk + H(pk, input)], and the
    proof is a Fiat-Shamir proof of equality of discrete logarithms.  Curve and
    digests are third-party and parameters; scalars are integers modulo the
    order [ell] of the group. *)
From S2P Require Import Prelude.

(** curve25519_dalek, ed25519_dalek and blake2 as far as the file calls them. *)
Class Ristretto : Type := {
  point : Type;
  ell : Z;
  base : point;                                  (** [RISTRETTO_BASEPOINT_POINT] *)
  smul : Z → point → point;
  padd : point → point → point;
  invert : Z → Z;                                (** [Scalar::invert] *)
  compress : point → bytes;
  decompress : bytes → option point;
  hash256 : bytes → bytes;                       (** [VarBlake2b::new(32)] *)
  hash512 : bytes → bytes;                       (** [blake2::Blake2b] *)
  vrf_secret_ok : bytes → bool;                  (** [ed25519_dalek::SecretKey::from_bytes] *)
  expand_secret : bytes → bytes;                 (** [ExpandedSecretKey::to_bytes] *)
  edwards_point : Type;
  edwards_decompress : bytes → option edwards_point;
  is_torsion_free : edwards_point → bool;
  edwards_transmute : edwards_point → point;
}.

(** A group of order [ell] with its multiples of the base point, field
    inversion, canonical compression and the digest lengths. *)
Class RistrettoLaws `{Ristretto} : Prop := {
  ell_range : 1 < ell ≤ 2 ^ 256;
  smul_base a b : smul a (smul b base) = smul ((a * b) mod ell) base;
  padd_base a b : padd (smul a base) (smul b base) = smul ((a + b) mod ell) base;
  smul_one : smul 1 base = base;
  smul_mod a : smul (a mod ell) base = smul a base;
  invert_range s : 0 ≤ invert s < ell;
  invert_spec s : s mod ell ≠ 0 → (s * invert s) mod ell = 1 mod ell;
  compress_length p : length (compress p) = 32%nat;
  decompress_compress p : decompress (compress p) = Some p;
}.

(** ** Scalars *)
Module Scalar.
Section Scalar.
Context `{Ristretto}.
Definition from_bytes_mod_order (b : bytes) : Z := from_le_bytes b mod ell.
Definition from_bytes_mod_order_wide (b : bytes) : Z := from_le_bytes b mod ell.
Definition from_canonical_bytes (b : bytes) : option Z :=
  if decide (from_le_bytes b < ell) then Some (from_le_bytes b) else None.
Definition to_bytes (s : Z) : bytes := to_le_bytes 32 s.
Definition add (a b : Z) : Z := (a + b) mod ell.
Definition sub (a b : Z) : Z := (a - b) mod ell.
Definition mul (a b : Z) : Z := (a * b) mod ell.
End Scalar.
End Scalar.

(** ** Packing: 32 bytes a component *)
Class Packable (A : Type) : Type := { unpack : bytes → option A; pack : A → bytes }.

Section Packing.
Context `{Ristretto}.
Definition pack_bytes : Packable bytes := {| unpack d := Some d; pack b := b |}.
#[global] Instance pack_point : Packable point := {| unpack := decompress; pack := compress |}.
Definition pack_scalar : Packable Z :=
  {| unpack := Scalar.from_canonical_bytes; pack := Scalar.to_bytes |}.
Definition pack_pair {A B} (PA : Packable A) (PB : Packable B) : Packable (A * B) := {|
  unpack d := a ← unpack (take 32 d); b ← unpack (drop 32 d); Some (a, b);
  pack p := pack p.1 ++ pack p.2;
|}.
Definition pack_triple {A B C} (PA : Packable A) (PB : Packable B) (PC : Packable C)
    : Packable (A * B * C) := {|
  unpack d := a ← unpack (take 32 d); b ← unpack (take 32 (drop 32 d));
              c ← unpack (drop 64 d); Some (a, b, c);
  pack p := pack p.1.1 ++ pack p.1.2 ++ pack p.2;
|}.
End Packing.

(** ** Digests: the [hash_s!] and [prs!] macros chain the bytes of their arguments *)
Section Digests.
Context `{Ristretto}.
Definition hash_to_scalar (hash : bytes) : Z := Scalar.from_bytes_mod_order hash.
Definition hash_s (l : list bytes) : Z := hash_to_scalar (hash256 (concat l)).
Definition prs_result (res : bytes) : Z := Scalar.from_bytes_mod_order_wide (take 64 res).
Definition prs (l : list bytes) : Z := prs_result (hash512 (concat l)).

Definition basemul (s : Z) : point := smul s base.
Definition safe_invert (s : Z) : Z := invert (if decide (s = 0) then 1 else s).
Definition vmul2 (s1 : Z) (p1 : point) (s2 : Z) (p2 : point) : point :=
  padd (smul s1 p1) (smul s2 p2).
End Digests.

(** ** Keys *)
Record PublicKey `{Ristretto} : Type := mkPublicKey { pk_bytes : bytes; pk_point : point }.
Arguments mkPublicKey {_}. Arguments pk_bytes {_}. Arguments pk_point {_}.
Record SecretKey `{Ristretto} : Type := mkSecretKey { sk_scalar : Z; sk_public : PublicKey }.
Arguments mkSecretKey {_}. Arguments sk_scalar {_}. Arguments sk_public {_}.
(** [Value]: 32 bytes, [Proof]: 64 bytes. *)
Record Value : Type := mkValue { value_bytes : bytes }.
Record VrfProof : Type := mkVrfProof { proof_bytes : bytes }.

Module PublicKey.
Section PublicKey.
Context `{Ristretto}.
Definition from_bytes (b : bytes) : option PublicKey :=
  p ← unpack b; Some (mkPublicKey b p).
Definition offset (k : PublicKey) (input : bytes) : Z := hash_s [pk_bytes k; input].
Definition is_valid (k : PublicKey) (input : bytes) (value : Value) (proof : VrfProof) : bool :=
  match unpack (value_bytes value) with
  | None => false
  | Some p =>
      match @unpack _ (pack_pair pack_scalar pack_scalar) (proof_bytes proof) with
      | None => false
      | Some (r, c) =>
          bool_decide (hash_s
            [pk_bytes k; value_bytes value;
             pack (vmul2 (Scalar.add r (Scalar.mul c (offset k input))) base c (pk_point k));
             pack (vmul2 r p c base)] = c)
      end
  end.
Definition is_vrf_valid := is_valid.
End PublicKey.
End PublicKey.

Module SecretKey.
Section SecretKey.
Context `{Ristretto}.
Implicit Types (k : SecretKey).
Definition from_scalar (sk : Z) : SecretKey :=
  let pk := basemul sk in mkSecretKey sk (mkPublicKey (pack pk) pk).
Definition from_bytes (b : bytes) : option SecretKey :=
  s ← @unpack _ pack_scalar b; Some (from_scalar s).
Definition public_key k : PublicKey := sk_public k.
Definition compute k (input : bytes) : Value :=
  mkValue (pack (basemul (safe_invert (Scalar.add (sk_scalar k)
                                         (PublicKey.offset (sk_public k) input))))).
Definition compute_vrf := compute.
Definition compute_with_proof k (input : bytes) : Value * VrfProof :=
  let x := Scalar.add (sk_scalar k) (PublicKey.offset (sk_public k) input) in
  let inv := safe_invert x in
  let val := pack (basemul inv) in
  let kk := prs [@pack _ pack_scalar x] in
  let c := hash_s [pk_bytes (sk_public k); val; pack (basemul kk);
                   pack (basemul (Scalar.mul inv kk))] in
  (mkValue val,
   mkVrfProof (@pack _ (pack_pair pack_scalar pack_scalar) (Scalar.sub kk (Scalar.mul c x), c))).
Definition compute_vrf_with_proof := compute_with_proof.
Definition is_vrf_valid k (input : bytes) (value : Value) (proof : VrfProof) : bool :=
  PublicKey.is_valid (sk_public k) input value proof.
End SecretKey.
End SecretKey.

(** [SecretKey::from_bytes(key).unwrap()] panics on a malformed key. *)
Definition convert_secret_key `{Ristretto} {E} (key : bytes) : Outcome E SecretKey :=
  if vrf_secret_ok key
  then Ok (SecretKey.from_scalar (Scalar.from_bytes_mod_order (take 32 (expand_secret key))))
  else Panic.

Definition convert_public_key `{Ristretto} {E} (key : bytes) : Outcome E (option PublicKey) :=
  key ← copy_from_slice 32 key;
  mret (match edwards_decompress key with
        | None => None
        | Some ep =>
            if negb (is_torsion_free ep) then None
            else let rp := edwards_transmute ep in Some (mkPublicKey (compress rp) rp)
        end).

(** ** Properties *)
Section VrfFacts.
Context `{RL : RistrettoLaws}.

Lemma scalar_mod_range x : 0 ≤ x mod ell < ell.
Proof. pose proof ell_range. apply Z.mod_pos_bound. lia. Qed.

Lemma scalar_roundtrip s : 0 ≤ s < ell → @unpack _ pack_scalar (@pack _ pack_scalar s) = Some s.
Proof.
  intros Hs. pose proof ell_range. simpl. unfold Scalar.from_canonical_bytes, Scalar.to_bytes.
  rewrite from_to_le_bytes by (change (256 ^ Z.of_nat 32) with (2 ^ 256); lia).
  by rewrite decide_True by lia.
Qed.

Lemma pack_pair_roundtrip {A B} (PA : Packable A) (PB : Packable B) a b :
  length (pack a) = 32%nat → unpack (pack a) = Some a → unpack (pack b) = Some b →
  @unpack _ (pack_pair PA PB) (@pack _ (pack_pair PA PB) (a, b)) = Some (a, b).
Proof.
  intros Hl Ha Hb. simpl. rewrite take_app_length', drop_app_length', Ha by done. simpl. by rewrite Hb.
Qed.

Lemma vmul2_base a b c d :
  vmul2 a (smul b base) c (smul d base) = smul ((a * b + c * d) mod ell) base.
Proof.
  pose proof ell_range. unfold vmul2. rewrite !smul_base, padd_base. f_equal.
  by rewrite <-Z.add_mod by lia.
Qed.

(** Two exponents that agree modulo the order give the same point. *)
Lemma smul_ext a b : a mod ell = b mod ell → smul a base = smul b base.
Proof. intros He. by rewrite <-(smul_mod a), He, smul_mod. Qed.

(** Congruence modulo the order: reductions disappear under it. *)
#[local] Instance eqm_equiv : Equivalence (eqm ell) := eqm_setoid ell.
#[local] Instance eqm_add : Proper (eqm ell ==> eqm ell ==> eqm ell) Z.add := Zplus_eqm ell.
#[local] Instance eqm_sub : Proper (eqm ell ==> eqm ell ==> eqm ell) Z.sub := Zminus_eqm ell.
#[local] Instance eqm_mul : Proper (eqm ell ==> eqm ell ==> eqm ell) Z.mul := Zmult_eqm ell.
Lemma mod_eqm a : eqm ell (a mod ell) a.
Proof. apply Zmod_eqm. Qed.

Lemma commitment_pk kk c off sk :
  vmul2 (Scalar.add (Scalar.sub kk (Scalar.mul c (Scalar.add sk off))) (Scalar.mul c off))
    base c (smul sk base) = basemul kk.
Proof.
  rewrite <-smul_one at 1. rewrite vmul2_base, smul_mod. apply smul_ext.
  change (eqm ell ((Scalar.add (Scalar.sub kk (Scalar.mul c (Scalar.add sk off))) (Scalar.mul c off)) * 1
    + c * sk) kk).
  unfold Scalar.add, Scalar.sub, Scalar.mul. rewrite !mod_eqm. unfold eqm. f_equal. ring.
Qed.

Lemma commitment_value kk c x inv :
  (x * inv) mod ell = 1 mod ell →
  vmul2 (Scalar.sub kk (Scalar.mul c x)) (basemul inv) c base = basemul (Scalar.mul inv kk).
Proof.
  intros Hx. unfold basemul. rewrite <-smul_one at 2. rewrite vmul2_base, smul_mod. apply smul_ext.
  change (eqm ell (Scalar.sub kk (Scalar.mul c x) * inv + c * 1) (Scalar.mul inv kk)).
  change (eqm ell (x * inv) 1) in Hx. unfold Scalar.sub, Scalar.mul. rewrite !mod_eqm.
  replace ((kk - c * x) * inv + c * 1) with (inv * kk + c * (1 - x * inv)) by ring.
  rewrite Hx. unfold eqm. f_equal. ring.
Qed.

(** The two components of the value agree with [compute_vrf]. *)
Lemma compute_with_proof_value k input :
  (SecretKey.compute_with_proof k input).1 = SecretKey.compute k input.
Proof. done. Qed.

Lemma hash_s_range l : 0 ≤ hash_s l < ell.
Proof. apply scalar_mod_range. Qed.

Lemma vrf_complete sk input :
  let k := SecretKey.from_scalar sk in
  Scalar.add sk (PublicKey.offset (SecretKey.public_key k) input) ≠ 0 →
  let (v, pf) := SecretKey.compute_vrf_with_proof k input in
  PublicKey.is_vrf_valid (SecretKey.public_key k) input v pf = true ∧
  v = SecretKey.compute_vrf k input.
Proof.
  intros k Hx. set (x := Scalar.add sk (PublicKey.offset (SecretKey.public_key k) input)) in *.
  unfold SecretKey.compute_vrf_with_proof, SecretKey.compute_with_proof.
  change (Scalar.add (sk_scalar k) (PublicKey.offset (sk_public k) input)) with x.
  cbv zeta. split; [|done].
  unfold PublicKey.is_vrf_valid, PublicKey.is_valid. cbn [value_bytes proof_bytes].
  change (unpack (pack (basemul (safe_invert x)))) with (decompress (compress (basemul (safe_invert x)))).
  rewrite decompress_compress.
  rewrite pack_pair_roundtrip; [|apply length_to_le_bytes|apply scalar_roundtrip, scalar_mod_range
    |apply scalar_roundtrip, hash_s_range].
  apply bool_decide_true. set (kk := prs _). set (c := hash_s [_; _; _; _]) at 2 3 4.
  change (pk_point (SecretKey.public_key k)) with (smul sk base).
  unfold x at 2. rewrite commitment_pk, (commitment_value kk c x (safe_invert x)).
  { reflexivity. }
  unfold safe_invert. rewrite decide_False by done. apply invert_spec.
  unfold x, Scalar.add. pose proof ell_range. rewrite Z.mod_mod by lia. exact Hx.
Qed.

(** C23: Completeness: the value and proof a key computes for an input are accepted
    under its public key for that input.  The one exception is an input whose
    digest is the negated secret, where [safe_invert] inverts one instead of
    zero. *)
Theorem vrf_proof_accepted sk input :
  let k := SecretKey.from_scalar sk in
  Scalar.add sk (PublicKey.offset (SecretKey.public_key k) input) ≠ 0 →
  let (v, pf) := SecretKey.compute_vrf_with_proof k input in
  PublicKey.is_vrf_valid (SecretKey.public_key k) input v pf = true ∧
  v = SecretKey.compute_vrf k input.
Proof. apply vrf_complete. Qed.
End VrfFacts.

(** A group for worked examples: the integers modulo 7 under addition. *)
Definition example_ristretto : Ristretto := {|
  point := Z; ell := 7; base := 1;
  smul a p := (a * p) mod 7; padd p q := (p + q) mod 7;
  invert s := let r := s mod 7 in (r * r * r * r * r) mod 7;
  compress p := p :: replicate 31 0; decompress b := head b;
  hash256 s := [from_le_bytes s mod 251]; hash512 s := [from_le_bytes s mod 241];
  vrf_secret_ok b := bool_decide (length b = 32%nat); expand_secret b := b;
  edwards_point := Z; edwards_decompress b := head b; is_torsion_free _ := true;
  edwards_transmute p := p;
|}.
Lemma example_invert s : s mod 7 ≠ 0 →
  (s * ((s mod 7) * (s mod 7) * (s mod 7) * (s mod 7) * (s mod 7) mod 7)) mod 7 = 1.
Proof.
  intros Hs. rewrite Zmult_mod_idemp_r, <-Zmult_mod_idemp_l.
  pose proof (Z.mod_pos_bound s 7 ltac:(lia)) as Hr. set (r := s mod 7) in *.
  assert (r = 1 ∨ r = 2 ∨ r = 3 ∨ r = 4 ∨ r = 5 ∨ r = 6) as Hc by lia.
  by destruct Hc as [->|[->|[->|[->|[->| ->]]]]].
Qed.
Lemma example_ristretto_laws : @RistrettoLaws example_ristretto.
Proof.
  split; simpl.
  - lia.
  - intros a b. by rewrite !Z.mul_1_r, Zmult_mod_idemp_r, Z.mod_mod.
  - intros a b. by rewrite !Z.mul_1_r, Z.mod_mod, <-Z.add_mod.
  - done.
  - intros a. by rewrite !Z.mul_1_r, Z.mod_mod.
  - intros s. apply Z.mod_pos_bound. lia.
  - apply example_invert.
  - done.
  - done.
Qed.

Section VrfWitness.
#[local] Existing Instance example_ristretto.
#[local] Existing Instance example_ristretto_laws.
Lemma vrf_proof_accepted_witness :
  let k := SecretKey.from_scalar 3 in
  let (v, pf) := SecretKey.compute_vrf_with_proof k [1; 2] in
  PublicKey.is_vrf_valid (SecretKey.public_key k) [1; 2] v pf = true.
Proof.
  assert (Scalar.add 3 (PublicKey.offset (SecretKey.public_key (SecretKey.from_scalar 3)) [1; 2]) ≠ 0)
    as Hx by (vm_compute; discriminate).
  exact (proj1 (vrf_proof_accepted 3 [1; 2] Hx)).
Defined.
End VrfWitness.
