(* ===== verification/ChainStore.v ===== *)
(** * ChainStore: the block database (src/chain/src/store.rs)

    Headers by hash, hashes by height, blocks by hash and the head hash live in
    one [MapDB] under keys with a one-byte prefix. *)
From S2P Require Import Prelude Hashing Types Codec Keys Store Transaction Block.
From Stdlib Require String.
Import (notations) String.

Definition HEADER_PREFIX : Z := 104.
Definition HEAD_PREFIX : Z := 72.
Definition BLOCK_PREFIX : Z := 98.
Definition HEADERHASH_PREFIX : Z := 110.
Definition HEAD_KEY : bytes := bytes_of "HEAD"%string.

Record ChainDB (R : Type) : Type := mkChainDB { chain_map : MapDB R }.
Arguments mkChainDB {R}. Arguments chain_map {R}.

Module ChainDB.
Definition head_key : bytes := HEAD_PREFIX :: HEAD_KEY.
Definition header_key (h : bytes) : bytes := HEADER_PREFIX :: h.
Definition header_hash_key (num : Z) : bytes := HEADERHASH_PREFIX :: to_be_bytes 8 num.
Definition block_key (h : Hash) : bytes := BLOCK_PREFIX :: Hash.to_slice h.

Section ChainDB.
Context {R : Type} `{RocksDB R, Blake2b, Bincode Header, Bincode Block}.
Implicit Types (c : ChainDB R).

Definition put c (k v : bytes) : Outcome IoError (ChainDB R) :=
  mkChainDB <$> MapDB.put (chain_map c) k v.

Definition write_header_hash c (num : Z) (h : Hash) : Outcome IoError (ChainDB R) :=
  put c (header_hash_key num) (Hash.to_slice h).

Definition write_header c (h : Header) : Outcome IoError (ChainDB R) :=
  let encoded := serialize h in
  let key := header_key (hash_bytes (Header.hash h)) in
  c ← write_header_hash c (height h) (Header.hash h);
  put c key encoded.

Definition delete_header c (h : Hash) : Outcome IoError (ChainDB R) :=
  mkChainDB <$> MapDB.remove (chain_map c) (header_key (hash_bytes h)).

Definition write_head_hash c (h : Hash) : Outcome IoError (ChainDB R) :=
  put c head_key (Hash.to_slice h).

Definition delete_header_height c (num : Z) : Outcome IoError (ChainDB R) :=
  mkChainDB <$> MapDB.remove (chain_map c) (header_hash_key num).

Definition write_block c (b : Block) : Outcome IoError (ChainDB R) :=
  c ← write_header c (header b);
  let key := block_key (Header.hash (header b)) in
  put c key (serialize b).

Definition delete_block c (h : Hash) : Outcome IoError (ChainDB R) :=
  c ← mkChainDB <$> MapDB.remove (chain_map c) (block_key h);
  delete_header c h.

Section Reads.
Context {E : Type}.

Definition get_header c (h : Hash) : Outcome E (option Header) :=
  s ← MapDB.get (chain_map c) (header_key (hash_bytes h));
  match s with
  | None => Ok None
  | Some s => hd ← unwrap (deserialize s); mret (Some hd)
  end.

(** [copy_from_slice] panics when the stored hash does not have 32 bytes. *)
Definition get_header_hash c (num : Z) : Outcome E (option Hash) :=
  s ← MapDB.get (chain_map c) (header_hash_key num);
  match s with
  | None => Ok None
  | Some s => h ← copy_from_slice 32 s; mret (Some (mkHash h))
  end.

Definition get_header_by_number c (num : Z) : Outcome E (option Header) :=
  o ← get_header_hash c num;
  match o with None => Ok None | Some h => get_header c h end.

Definition head_hash c : Outcome E (option Hash) :=
  s ← MapDB.get (chain_map c) head_key;
  match s with
  | None => Ok None
  | Some s => h ← copy_from_slice 32 s; mret (Some (mkHash h))
  end.

Definition head_header c : Outcome E (option Header) :=
  o ← head_hash c;
  match o with
  | None => Ok None
  | Some h =>
      s ← MapDB.get (chain_map c) (header_key (hash_bytes h));
      match s with
      | None => Ok None
      | Some s => hd ← unwrap (deserialize s); mret (Some hd)
      end
  end.

Definition get_block c (h : Hash) : Outcome E (option Block) :=
  s ← MapDB.get (chain_map c) (block_key h);
  match s with
  | None => Ok None
  | Some s => b ← unwrap (deserialize s); mret (Some b)
  end.

Definition get_block_by_number c (num : Z) : Outcome E (option Block) :=
  o ← get_header_hash c num;
  match o with None => Ok None | Some h => get_block c h end.

Definition head_block c : Outcome E (option Block) :=
  o ← head_hash c;
  match o with None => Ok None | Some h => get_block c h end.

(** The [while] loop of [find_ancestor]; [None] when the fuel runs out. *)
Fixpoint ancestor_loop (fuel : nat) c (a b : Header) : option (Outcome E (option Hash)) :=
  if decide (Header.hash a = Header.hash b) then Some (Ok (Some (Header.hash a)))
  else match fuel with
  | O => None
  | S fuel =>
      match get_header c (parent_hash a) with
      | Ok (Some a') =>
          match get_header c (parent_hash b) with
          | Ok (Some b') => ancestor_loop fuel c a' b'
          | Ok None => Some (Ok None)
          | Err e => Some (Err e)
          | Panic => Some Panic
          end
      | Ok None => Some (Ok None)
      | Err e => Some (Err e)
      | Panic => Some Panic
      end
  end.
Definition find_ancestor (fuel : nat) c (a b : Header) : option (Outcome E (option Hash)) :=
  if decide (height a ≠ height b) then Some (Ok None) else ancestor_loop fuel c a b.

(** The [while] loop of [setup_height]: from the given height down to the
    first one that is already indexed. *)
Fixpoint setup_loop (fuel : nat) c (pre : Z) (pre_hash : Hash) : option (Outcome E (ChainDB R)) :=
  if decide (pre > 0) then
    match fuel with
    | O => None
    | S fuel =>
        match (hd ← get_header c pre_hash;
               hd ← unwrap hd;
               idx ← get_header_hash c pre;
               idx ← unwrap idx;
               if decide (idx = Header.hash hd) then mret (inl c)
               else c ← unwrap_res (write_header_hash c pre (Header.hash hd));
                    mret (inr (c, parent_hash hd))) with
        | Ok (inl c) => Some (Ok c)
        | Ok (inr (c, p)) => setup_loop fuel c (pre - 1) p
        | Err e => Some (Err e)
        | Panic => Some Panic
        end
    end
  else Some (Ok c).
Definition setup_height (fuel : nat) c (h : Header) : option (Outcome E (ChainDB R)) :=
  setup_loop fuel c (height h) (Header.hash h).
End Reads.
End ChainDB.
End ChainDB.

(** ** Facts: the four families of keys are disjoint *)
Lemma header_hash_key_inj n n' :
  in_u 64 n → in_u 64 n' → ChainDB.header_hash_key n = ChainDB.header_hash_key n' → n = n'.
Proof. intros Hn Hn' Heq. exact (to_be_bytes_inj 8 n n' Hn Hn' (f_equal tail Heq)). Qed.
Lemma header_key_inj h h' :
  ChainDB.header_key (hash_bytes h) = ChainDB.header_key (hash_bytes h') → h = h'.
Proof. intros [= Heq]. destruct h, h'; simpl in *; congruence. Qed.
Lemma block_key_inj h h' : ChainDB.block_key h = ChainDB.block_key h' → h = h'.
Proof. intros [= Heq]. destruct h, h'; simpl in *; congruence. Qed.

Section ChainStoreFacts.
Context {R : Type} `{RL : RocksDBLaws R, HB : Blake2bLaws}.
Context `{BH : BincodeLaws Header, BB : BincodeLaws Block}.
Implicit Types (c : ChainDB R) (b : Block).

(** The contents of the database. *)
Definition cmap c : gmap bytes bytes := mapdb_map (chain_map c).

Lemma put_spec c k v : ∃ c', ChainDB.put c k v = Ok c' ∧ cmap c' = <[k := v]> (cmap c).
Proof.
  destruct (MapDB_put_spec (chain_map c) k v) as (d & Hp & Hm).
  exists (mkChainDB d). unfold ChainDB.put. by rewrite Hp.
Qed.

Lemma cget {E} c k : MapDB.get (E:=E) (chain_map c) k = Ok (cmap c !! k).
Proof. apply MapDB_get_spec. Qed.

Lemma get_block_Some {E} c h b :
  cmap c !! ChainDB.block_key h = Some (serialize b) →
  ChainDB.get_block (E:=E) c h = Ok (Some b).
Proof. intros Hk. unfold ChainDB.get_block. rewrite cget, Hk. simpl. by rewrite deserialize_serialize. Qed.
Lemma get_block_None {E} c h :
  cmap c !! ChainDB.block_key h = None → ChainDB.get_block (E:=E) c h = Ok None.
Proof. intros Hk. unfold ChainDB.get_block. by rewrite cget, Hk. Qed.
Lemma get_header_Some {E} c h hd :
  cmap c !! ChainDB.header_key (hash_bytes h) = Some (serialize hd) →
  ChainDB.get_header (E:=E) c h = Ok (Some hd).
Proof. intros Hk. unfold ChainDB.get_header. rewrite cget, Hk. simpl. by rewrite deserialize_serialize. Qed.
Lemma get_header_hash_Some {E} c n h :
  hash_wf h → cmap c !! ChainDB.header_hash_key n = Some (hash_bytes h) →
  ChainDB.get_header_hash (E:=E) c n = Ok (Some h).
Proof.
  intros Hw Hk. unfold ChainDB.get_header_hash. rewrite cget, Hk. simpl.
  unfold copy_from_slice. rewrite decide_True by done. by destruct h.
Qed.
Lemma get_header_hash_None {E} c n :
  cmap c !! ChainDB.header_hash_key n = None → ChainDB.get_header_hash (E:=E) c n = Ok None.
Proof. intros Hk. unfold ChainDB.get_header_hash. by rewrite cget, Hk. Qed.
Lemma head_hash_Some {E} c h :
  hash_wf h → cmap c !! ChainDB.head_key = Some (hash_bytes h) →
  ChainDB.head_hash (E:=E) c = Ok (Some h).
Proof.
  intros Hw Hk. unfold ChainDB.head_hash. rewrite cget, Hk. simpl.
  unfold copy_from_slice. rewrite decide_True by done. by destruct h.
Qed.

(** What [write_block] stores. *)
Definition block_written b (m : gmap bytes bytes) : gmap bytes bytes :=
  let h := Header.hash (header b) in
  <[ChainDB.block_key h := serialize b]>
  (<[ChainDB.header_key (hash_bytes h) := serialize (header b)]>
   (<[ChainDB.header_hash_key (height (header b)) := hash_bytes h]> m)).

Lemma write_block_map c b :
  ∃ c', ChainDB.write_block c b = Ok c' ∧ cmap c' = block_written b (cmap c).
Proof.
  unfold ChainDB.write_block, ChainDB.write_header, ChainDB.write_header_hash.
  destruct (put_spec c (ChainDB.header_hash_key (height (header b)))
    (Hash.to_slice (Header.hash (header b)))) as (c1 & -> & Hm1). rewrite bind_Ok.
  destruct (put_spec c1 (ChainDB.header_key (hash_bytes (Header.hash (header b))))
    (serialize (header b))) as (c2 & -> & Hm2). rewrite bind_Ok.
  destruct (put_spec c2 (ChainDB.block_key (Header.hash (header b))) (serialize b))
    as (c3 & -> & Hm3).
  exists c3. split; [done|]. by rewrite Hm3, Hm2, Hm1.
Qed.

Lemma write_head_map c h :
  ∃ c', ChainDB.write_head_hash c h = Ok c' ∧ cmap c' = <[ChainDB.head_key := hash_bytes h]> (cmap c).
Proof. apply put_spec. Qed.

Lemma block_written_block b m h :
  block_written b m !! ChainDB.block_key h =
    if decide (h = Header.hash (header b)) then Some (serialize b) else m !! ChainDB.block_key h.
Proof.
  unfold block_written. case_decide as Hh; [by rewrite Hh, lookup_insert_eq|].
  rewrite !lookup_insert_ne; [done|done|done|]. intros Heq%block_key_inj. congruence.
Qed.
Lemma block_written_header b m h :
  block_written b m !! ChainDB.header_key (hash_bytes h) =
    if decide (h = Header.hash (header b)) then Some (serialize (header b))
    else m !! ChainDB.header_key (hash_bytes h).
Proof.
  unfold block_written. rewrite lookup_insert_ne by done.
  case_decide as Hh; [by rewrite Hh, lookup_insert_eq|].
  rewrite !lookup_insert_ne; [done|done|]. intros Heq%header_key_inj. congruence.
Qed.
Lemma block_written_number b m n :
  in_u 64 n → in_u 64 (height (header b)) →
  block_written b m !! ChainDB.header_hash_key n =
    if decide (n = height (header b)) then Some (hash_bytes (Header.hash (header b)))
    else m !! ChainDB.header_hash_key n.
Proof.
  intros Hn Hb. unfold block_written. do 2 (rewrite lookup_insert_ne by done).
  case_decide as Hh; [by rewrite Hh, lookup_insert_eq|].
  rewrite lookup_insert_ne; [done|]. intros Heq%header_hash_key_inj; [congruence|done..].
Qed.
Lemma block_written_head b m :
  block_written b m !! ChainDB.head_key = m !! ChainDB.head_key.
Proof. unfold block_written. by rewrite !lookup_insert_ne by done. Qed.
End ChainStoreFacts.

Section ChainStoreProperties.
Context {R : Type} `{RL : RocksDBLaws R, HB : Blake2bLaws}.
Context `{BH : BincodeLaws Header, BB : BincodeLaws Block} {E : Type}.
Implicit Types (c : ChainDB R) (b : Block).

(** Writing a block makes it, its header and its number readable, and changes
    no other block, header or number, nor the head. *)
Theorem write_block_roundtrip c b :
  in_u 64 (height (header b)) →
  ∃ c', ChainDB.write_block c b = Ok c' ∧
    ChainDB.get_block (E:=E) c' (Block.hash b) = Ok (Some b) ∧
    ChainDB.get_header (E:=E) c' (Block.hash b) = Ok (Some (header b)) ∧
    ChainDB.get_header_hash (E:=E) c' (height (header b)) = Ok (Some (Block.hash b)) ∧
    ChainDB.get_block_by_number (E:=E) c' (height (header b)) = Ok (Some b) ∧
    (∀ h, h ≠ Block.hash b →
       ChainDB.get_block (E:=E) c' h = ChainDB.get_block c h ∧
       ChainDB.get_header (E:=E) c' h = ChainDB.get_header c h) ∧
    (∀ n, in_u 64 n → n ≠ height (header b) →
       ChainDB.get_header_hash (E:=E) c' n = ChainDB.get_header_hash c n) ∧
    ChainDB.head_hash (E:=E) c' = ChainDB.head_hash c.
Proof.
  intros Hh. destruct (write_block_map c b) as (c' & Hw & Hm). exists c'. unfold Block.hash.
  assert (ChainDB.get_header_hash (E:=E) c' (height (header b)) = Ok (Some (Header.hash (header b))))
    as Hn.
  { apply get_header_hash_Some; [apply header_hash_wf|].
    by rewrite Hm, block_written_number, decide_True. }
  assert (ChainDB.get_block (E:=E) c' (Header.hash (header b)) = Ok (Some b)) as Hb.
  { apply get_block_Some. by rewrite Hm, block_written_block, decide_True. }
  split_and!; [done|done| |done| | | |].
  - apply get_header_Some. by rewrite Hm, block_written_header, decide_True.
  - unfold ChainDB.get_block_by_number. by rewrite Hn.
  - intros h Hne. unfold ChainDB.get_block, ChainDB.get_header.
    by rewrite !cget, Hm, block_written_block, block_written_header, !decide_False.
  - intros n Hn' Hne. unfold ChainDB.get_header_hash.
    by rewrite !cget, Hm, block_written_number, decide_False.
  - unfold ChainDB.head_hash. by rewrite !cget, Hm, block_written_head.
Qed.

(** The parent of a header, and its ancestor [n] steps up. *)
Definition parent c (a : Header) : option Header :=
  match ChainDB.get_header (E:=E) c (parent_hash a) with Ok o => o | _ => None end.
Fixpoint ancestor c (n : nat) (a : Header) : option Header :=
  match n with O => Some a | S n => parent c a ≫= ancestor c n end.

(** The height falls by one from a header to its parent, never below zero. *)
Definition linked c (a : Header) : Prop :=
  ∀ p, parent c a = Some p → 0 ≤ height p ∧ height p + 1 = height a.
(** Every stored header can be read and is linked. *)
Definition headers_ok c : Prop :=
  (∀ h, ∃ o, ChainDB.get_header (E:=E) c h = Ok o) ∧
  (∀ h a, ChainDB.get_header (E:=E) c h = Ok (Some a) → linked c a).

Lemma parent_spec c a :
  headers_ok c → ChainDB.get_header (E:=E) c (parent_hash a) = Ok (parent c a).
Proof. intros [Hr _]. unfold parent. destruct (Hr (parent_hash a)) as [o ->]. done. Qed.

Lemma ancestor_loop_spec c (a b : Header) fuel :
  headers_ok c → linked c a → linked c b →
  0 ≤ height a → height a = height b → (Z.to_nat (height a) < fuel)%nat →
  ∃ r, ChainDB.ancestor_loop (E:=E) fuel c a b = Some (Ok r) ∧
    match r with
    | Some h => ∃ n x y, ancestor c n a = Some x ∧ ancestor c n b = Some y ∧
        Header.hash x = h ∧ Header.hash y = h ∧
        ∀ k x' y', (k < n)%nat → ancestor c k a = Some x' → ancestor c k b = Some y' →
                   Header.hash x' ≠ Header.hash y'
    | None => ∀ n x y, ancestor c n a = Some x → ancestor c n b = Some y →
                       Header.hash x ≠ Header.hash y
    end.
Proof.
  intros Hok. revert a b; induction fuel as [|fuel IH]; intros a b Hla Hlb Ha Hab Hf; [lia|].
  cbn [ChainDB.ancestor_loop]. case_decide as Hhash.
  { eexists; split; [done|]. exists O, a, b. simpl. split_and!; try done. intros; lia. }
  pose proof (parent_spec c a Hok) as Hga. pose proof (parent_spec c b Hok) as Hgb.
  rewrite Hga, Hgb. destruct (parent c a) as [a'|] eqn:Hpa; [destruct (parent c b) as [b'|] eqn:Hpb|].
  - destruct (Hla _ Hpa), (Hlb _ Hpb).
    destruct (IH a' b') as (r & Hr & Hs); [by eapply (proj2 Hok)..|lia|lia|lia|]. exists r. split; [done|].
    destruct r as [h|].
    + destruct Hs as (n & x & y & Hx & Hy & Hxh & Hyh & Hk). exists (S n), x, y.
      simpl. rewrite Hpa, Hpb. split_and!; try done.
      intros [|k] x' y' Hlt; simpl; [by intros [= <-] [= <-]|]. rewrite Hpa, Hpb. simpl.
      apply Hk. lia.
    + intros [|n] x y; simpl; [by intros [= <-] [= <-]|]. rewrite Hpa, Hpb. simpl. apply Hs.
  - eexists; split; [done|]. intros [|n] x y; simpl; [by intros [= <-] [= <-]|].
    by rewrite Hpb.
  - eexists; split; [done|]. intros [|n] x y; simpl; [by intros [= <-] [= <-]|].
    by rewrite Hpa.
Qed.

(** C10: Looking for the common ancestor of two headers of one height always ends,
    within as many steps as the height, and returns the hash of the nearest
    ancestor the two branches share, or nothing when they share none. *)
Theorem find_ancestor_nearest c (a b : Header) fuel :
  headers_ok c → linked c a → linked c b → 0 ≤ height a → (Z.to_nat (height a) < fuel)%nat →
  ∃ r, ChainDB.find_ancestor (E:=E) fuel c a b = Some (Ok r) ∧
    (height a ≠ height b → r = None) ∧
    (height a = height b →
     match r with
     | Some h => ∃ n x y, ancestor c n a = Some x ∧ ancestor c n b = Some y ∧
         Header.hash x = h ∧ Header.hash y = h ∧
         ∀ k x' y', (k < n)%nat → ancestor c k a = Some x' → ancestor c k b = Some y' →
                    Header.hash x' ≠ Header.hash y'
     | None => ∀ n x y, ancestor c n a = Some x → ancestor c n b = Some y →
                        Header.hash x ≠ Header.hash y
     end).
Proof.
  intros Hok Hla Hlb Ha Hf. unfold ChainDB.find_ancestor. case_decide as Hh.
  - exists None. by split_and!.
  - destruct (ancestor_loop_spec c a b fuel Hok Hla Hlb Ha Hh Hf) as (r & Hr & Hs).
    exists r. split_and!; [done|done|]. by intros _.
Qed.
End ChainStoreProperties.

(** ** Worked examples *)
Module ChainEx.
#[export] Existing Instance example_rocksdb.
#[export] Existing Instance example_rocksdb_laws.
#[export] Existing Instance example_blake2b.
#[export] Existing Instance example_blake2b_laws.
#[export] Instance ex_bin_header : Bincode Header := example_bincode.
#[export] Instance ex_bin_header_laws : BincodeLaws Header := example_bincode_laws.
#[export] Instance ex_bin_block : Bincode Block := example_bincode.
#[export] Instance ex_bin_block_laws : BincodeLaws Block := example_bincode_laws.
Definition c0 : ChainDB (gmap bytes bytes) := mkChainDB (mkMapDB ∅).
Definition hdr (n : Z) (p : Hash) (t : Z) : Header :=
  mkHeader n p 0 [] (mkVRFProof [] []) Hash_default Hash_default Hash_default t.
Definition g : Header := hdr 0 Hash_default 5.
(** Only [g] is stored; two headers fork from it. *)
Definition c1 : ChainDB (gmap bytes bytes) :=
  mkChainDB (mkMapDB {[ChainDB.header_key (hash_bytes (Header.hash g)) := serialize g]}).
Definition a1 : Header := hdr 1 (Header.hash g) 6.
Definition a2 : Header := hdr 1 (Header.hash g) 7.

Lemma c1_get {E} h :
  ChainDB.get_header (E:=E) c1 h = Ok (if decide (h = Header.hash g) then Some g else None).
Proof.
  case_decide as Hh.
  - apply get_header_Some. subst h. unfold cmap, mapdb_map, c1. cbn [chain_map inner rdb_map].
    apply lookup_singleton_eq.
  - unfold ChainDB.get_header. rewrite cget.
    assert (cmap c1 !! ChainDB.header_key (hash_bytes h) = None) as ->; [|done].
    apply lookup_singleton_ne. intros Heq%header_key_inj. congruence.
Qed.
Lemma g_parent : parent (E:=unit) c1 g = None.
Proof. unfold parent. rewrite c1_get, decide_False; [done|]. by vm_compute. Qed.
Lemma fork_linked t : linked (E:=unit) c1 (hdr 1 (Header.hash g) t).
Proof.
  intros p. unfold parent. cbn [parent_hash hdr]. rewrite c1_get, decide_True by reflexivity.
  by intros [= <-].
Qed.
Lemma c1_ok : headers_ok (E:=unit) c1.
Proof.
  split; [intros h; eexists; apply c1_get|]. intros h a Ha p. rewrite c1_get in Ha.
  destruct (decide (h = Header.hash g)); [|discriminate Ha]. injection Ha as <-.
  rewrite g_parent. intros Hn. discriminate Hn.
Qed.
End ChainEx.

Section ChainStoreWitnesses.
Import ChainEx.

Lemma write_block_roundtrip_witness :
  ∃ c', ChainDB.write_block c0 Block_default = Ok c' ∧
        ChainDB.get_block_by_number (E:=unit) c' 0 = Ok (Some Block_default).
Proof.
  destruct (write_block_roundtrip (E:=unit) c0 Block_default) as (c' & Hw & _ & _ & _ & Hb & _);
    [by vm_compute|].
  exists c'. split; [exact Hw|exact Hb].
Defined.

Lemma find_ancestor_nearest_witness :
  ChainDB.find_ancestor (E:=unit) 2 c1 a1 a2 = Some (Ok (Some (Header.hash g))) ∧
  ∃ r, ChainDB.find_ancestor (E:=unit) 2 c1 a1 a2 = Some (Ok r).
Proof.
  split; [vm_compute; reflexivity|].
  destruct (find_ancestor_nearest (E:=unit) c1 a1 a2 2 c1_ok (fork_linked 6) (fork_linked 7))
    as (r & Hr & _); [by vm_compute|simpl; lia|].
  exists r. exact Hr.
Defined.
End ChainStoreWitnesses.
