(* ===== verification/BlockChain.v ===== *)
(** * BlockChain: importing blocks (src/chain/src/blockchain.rs, src/chain/src/lib.rs)

    A block is imported when its height is not yet taken, it extends the
    current head, its header and its hashes are consistent, and executing its
    transactions on the parent's state gives the state root it claims. *)
From S2P Require Import Prelude Hashing Types Codec Keys Store State StateExample.
From S2P Require Import Transaction Storage Balance Block Executor Staking Runtime ChainStore.

Inductive BlockChainErrorKind : Type :=
  | UnknownAncestor | KnownBlock | MismatchHash | InvalidBlockProof | InvalidBlockTime
  | InvalidBlockHeight | InvalidState | InvalidAuthority.
#[global] Instance BlockChainErrorKind_eq_dec : EqDecision BlockChainErrorKind.
Proof. solve_decision. Defined.

(** The unused [consensus] field and the empty [validator] are left out. *)
Record BlockChain (D M R : Type) : Type := mkBlockChain {
  bc_db : ChainDB R;
  state_backend : ArchiveDB D M;
  genesis : Block;
}.
Arguments mkBlockChain {D M R}. Arguments bc_db {D M R}.
Arguments state_backend {D M R}. Arguments genesis {D M R}.

Module BlockChain.
Section BlockChain.
Context {D M TM R : Type} `{P : Profile, KVDB D, MemoryDB M, TO : !TrieOps (ArchiveDB D M) TM}.
Context `{IterOrder, RocksDB R, Blake2b, Ed25519, Hex}.
Context `{Bincode Account, Bincode MsgTransfer, Bincode TxHashType, Bincode ListEntry}.
Context `{Bincode (list Transaction), Bincode (list VerificationItem), Bincode Header, Bincode Block}.
Implicit Types (bc : BlockChain D M R).

(** The two databases are opened by the caller. *)
Definition new (c : ChainDB R) (d : D) : BlockChain D M R :=
  mkBlockChain c (ArchiveDB.new d) to_genesis.

(** The state databases a chain hands out have their own node cache and share
    its backend: what they commit is there for the chain. *)
Definition sync bc (s : StateDB D M) : BlockChain D M R :=
  mkBlockChain (bc_db bc) (mkArchiveDB (backend (db s)) (cached (state_backend bc))) (genesis bc).
Definition set_db bc (c : ChainDB R) : BlockChain D M R :=
  mkBlockChain c (state_backend bc) (genesis bc).
Definition set_genesis bc (g : Block) : BlockChain D M R :=
  mkBlockChain (bc_db bc) (state_backend bc) g.

Definition statedb bc : ArchiveDB D M := state_backend bc.
Definition state_at bc (root : Hash) : StateDB D M := StateDB.from_existing (state_backend bc) root.
Definition genesis_hash bc : Hash := Block.hash (genesis bc).

Section Reads.
Context {E : Type}.
Definition current_block bc : Outcome E Block :=
  b ← ChainDB.head_block (bc_db bc); unwrap b.
Definition exits_block bc (h : Hash) (num : Z) : Outcome E bool :=
  (λ b, bool_decide (is_Some b)) <$> ChainDB.get_block_by_number (bc_db bc) num.
Definition check_previous bc (h : Header) : Outcome E bool :=
  (λ b, bool_decide (is_Some b)) <$> ChainDB.get_block (bc_db bc) (parent_hash h).
Definition get_block_by_number bc (num : Z) : Outcome E (option Block) :=
  ChainDB.get_block_by_number (bc_db bc) num.
Definition get_block bc (h : Hash) : Outcome E (option Block) := ChainDB.get_block (bc_db bc) h.
Definition get_header_by_number bc (num : Z) : Outcome E (option Header) :=
  ChainDB.get_header_by_number (bc_db bc) num.

Definition setup_genesis bc : Outcome E (BlockChain D M R * Hash) :=
  let state_db := StateDB.from_existing (state_backend bc) NULL_ROOT in
  r ← setup_allocation state_db;
  let bc := sync bc r.1 in
  let bc := set_genesis bc (Block.set_state_root (genesis bc) r.2) in
  c ← unwrap_res (ChainDB.write_block (bc_db bc) (genesis bc));
  c ← unwrap_res (ChainDB.write_head_hash c (Block.hash (genesis bc)));
  mret (set_db bc c, Block.hash (genesis bc)).

Definition load bc : Outcome E (BlockChain D M R) :=
  block_zero ← get_block_by_number bc 0;
  match block_zero with
  | None => r ← setup_genesis bc; mret r.1
  | Some g =>
      let bc := set_genesis bc g in
      current ← current_block bc;
      mret bc
  end.

(** [.unwrap()]: a failing transaction is a panic. *)
Definition apply_transactions bc (root : Hash) (b : Block) : Outcome E (BlockChain D M R * Hash) :=
  let statedb := state_at bc root in
  r ← unwrap_res (Executor.exc_txs_in_block b (Balance.new statedb) Address_default);
  mret (sync bc (treedb r.1), r.2).
End Reads.

(** [Validator::validate_block] and [Validator::validate_header] *)
Definition validate_block (b : Block) : Outcome BlockChainErrorKind unit :=
  if decide (sign_root (header b) ≠ get_hash_from_signs (block_signs b)) then Err MismatchHash else
  if decide (tx_root (header b) ≠ get_hash_from_txs (txs b)) then Err MismatchHash else Ok tt.
Definition validate_header bc (h : Header) : Outcome BlockChainErrorKind unit :=
  o ← get_block bc (parent_hash h);
  match o with
  | None => Err UnknownAncestor
  | Some p =>
      next ← add_u 64 (height (header p)) 1;
      if decide (height h ≠ next) then Err InvalidBlockHeight else
      if decide (time h ≤ time (header p)) then Err InvalidBlockTime else Ok tt
  end.

(** An error comes with the chain it leaves behind. *)
Definition fail_in {A} bc (o : Outcome BlockChainErrorKind A)
    : Outcome (BlockChainErrorKind * BlockChain D M R) A :=
  match o with Ok a => Ok a | Err e => Err (e, bc) | Panic => Panic end.

Definition import_block bc (b : Block)
    : Outcome (BlockChainErrorKind * BlockChain D M R) (BlockChain D M R) :=
  known ← exits_block bc (Block.hash b) (Block.block_height b);
  if (known : bool) then Err (KnownBlock, bc) else
  prev ← check_previous bc (header b);
  if negb prev then Err (UnknownAncestor, bc) else
  current ← current_block bc;
  if decide (parent_hash (header b) ≠ Block.hash current) then Err (UnknownAncestor, bc) else
  _ ← fail_in bc (validate_header bc (header b));
  _ ← fail_in bc (validate_block b);
  r ← apply_transactions bc (Block.state_root current) b;
  let bc := r.1 in
  if decide (Block.state_root b ≠ r.2) then Err (InvalidState, bc) else
  c ← unwrap_res (ChainDB.write_block (bc_db bc) b);
  c ← unwrap_res (ChainDB.write_head_hash c (Header.hash (header b)));
  mret (set_db bc c).

Definition insert_block bc (b : Block)
    : Outcome (BlockChainErrorKind * BlockChain D M R) (BlockChain D M R) := import_block bc b.
End BlockChain.
End BlockChain.

(** ** The state transition of a block

    Plain maps are a storage too; executing over them is the reference
    semantics of a block. *)
Definition map_storage : Storage (gmap bytes bytes) := {|
  st_get E s k := Ok (s !! hash_bytes k);
  st_set s k v := <[hash_bytes k := v]> s;
  st_remove s k := delete (hash_bytes k) s;
  st_commit E s := Ok s;
  st_root s := Hash_default;
|}.
Definition map_storage_laws : @StorageLaws _ map_storage.
Proof.
  refine (@Build_StorageLaws _ map_storage (λ s m, s = m) (λ r _, r = Hash_default)
    (λ s r m, s = m ∧ r = Hash_default) _ _ _ _ _ _); simpl; intros; subst; naive_solver.
Defined.

Section BlockState.
Context `{P : Profile, HB : Blake2b, ED : Ed25519, BA : BincodeLaws Account}.
Context `{BT : Bincode MsgTransfer, BH : Bincode TxHashType}.

Definition map_exec (l : list Transaction) (m : gmap bytes bytes) :
    Outcome InternalErrorKind (gmap bytes bytes) :=
  treedb <$> Executor.exc_txs_loop (H:=map_storage) l (mkBalance m Hash_default) Address_default.

(** What the transactions of a block keep: any predicate [st_set] keeps. *)
Section Keeps.
Context {S : Type} `{ST : Storage S} (Q : S → Prop) (HQ : ∀ s k v, Q s → Q (st_set s k v)).
Implicit Types (b : Balance S).

Definition keeps {E A} (f : Balance S → Outcome E A) (st : A → Balance S) : Prop :=
  ∀ b a, Q (treedb b) → f b = Ok a → Q (treedb (st a)).

Lemma set_account_keeps b a x : Q (treedb b) → Q (treedb (Balance.set_account b a x)).
Proof. intros. by apply HQ. Qed.

Ltac keeps_op :=
  intros b b' Hb He; repeat (apply bind_Ok_inv in He as (? & _ & He));
  injection He as <-; by apply set_account_keeps.
Lemma add_balance_keeps {E} a v : keeps (λ b, Balance.add_balance (E:=E) b a v) id.
Proof. keeps_op. Qed.
Lemma sub_balance_keeps {E} a v : keeps (λ b, Balance.sub_balance (E:=E) b a v) id.
Proof. keeps_op. Qed.
Lemma inc_nonce_keeps {E} a : keeps (λ b, Balance.inc_nonce (E:=E) b a) id.
Proof. keeps_op. Qed.
Lemma transfer_keeps {E} a a' v : keeps (λ b, Balance.transfer (E:=E) b a a' v) id.
Proof.
  intros b b' Hb He. apply bind_Ok_inv in He as (x & _ & He). case_decide; [|by simplify_eq].
  apply bind_Ok_inv in He as (b1 & Hb1 & He).
  exact (add_balance_keeps _ _ _ _ (sub_balance_keeps _ _ _ _ Hb Hb1) He).
Qed.
Lemma exc_tx_keeps tx : keeps (Executor.exc_transfer_tx tx) fst.
Proof.
  intros b [b' h] Hb He. unfold Executor.exc_transfer_tx in He.
  do 4 (apply bind_Ok_inv in He as (? & _ & He)). case_decide; [done|].
  do 2 (apply bind_Ok_inv in He as (? & _ & He)). case_decide; [done|].
  apply bind_Ok_inv in He as (b1 & Hb1 & He). apply (sub_balance_keeps _ _ _ _ Hb) in Hb1.
  apply bind_Ok_inv in He as (b2 & Hb2 & He). apply (inc_nonce_keeps _ _ _ Hb1) in Hb2.
  apply bind_Ok_inv in He as (? & _ & He).
  apply bind_Ok_inv in He as (b3 & Hb3 & [= <- <-]).
  exact (transfer_keeps _ _ _ _ _ Hb2 Hb3).
Qed.
Lemma exc_loop_keeps l miner : keeps (λ b, Executor.exc_txs_loop l b miner) id.
Proof.
  induction l as [|tx l IH]; intros b b' Hb He; simpl in He; [by simplify_eq|].
  apply bind_Ok_inv in He as ([b1 h] & Hb1 & He). apply (exc_tx_keeps _ _ _ Hb) in Hb1.
  apply bind_Ok_inv in He as (b2 & Hb2 & He). apply (add_balance_keeps _ _ _ _ Hb1) in Hb2.
  exact (IH _ _ Hb2 He).
Qed.
End Keeps.

Context {D M TM : Type} {node_hash : bytes → Hash}.
Context `{KL : KVDBLaws D, MM : MemoryDB M, TO : !TrieOps (ArchiveDB D M) TM}.
Context `{MLL : !MemoryDBLaws M node_hash, TL : !TrieLaws D M TM node_hash}.
Context `{IO : IterOrder, !IterOrderLaw}.

(** Executing a block on a state database that holds [m] does what executing
    it on the map does; when it succeeds the new map is readable from the
    returned root and no older node is lost. *)
Lemma exec_block_state b (s : StateDB D M) m r0 :
  state_rep s m →
  outcome_rel (λ r m',
      trie_rep (kv_map (backend (db (treedb r.1)))) r.2 m' ∧
      kv_map (backend (db s)) ⊆ kv_map (backend (db (treedb r.1))))
    (Executor.exc_txs_in_block b (mkBalance s r0) Address_default) (map_exec (txs b) m).
Proof.
  intros Hs. unfold Executor.exc_txs_in_block, map_exec, Block.get_txs.
  pose proof (same_loop (SL1:=StateDB_StorageLaws) (SL2:=map_storage_laws) (txs b)
    (mkBalance s r0) (mkBalance m Hash_default) Address_default) as Hsame.
  assert (@same_state _ _ _ StateDB_StorageLaws _ map_storage_laws (mkBalance s r0)
            (mkBalance m Hash_default)) as Hss by (by exists m).
  specialize (Hsame Hss).
  destruct (Executor.exc_txs_loop (txs b) (mkBalance s r0) Address_default) as [b1|e|] eqn:He,
    (Executor.exc_txs_loop (H:=map_storage) _ _ _) as [b2|e'|]; try done.
  simpl in Hsame |- *. destruct Hsame as (m' & Hr1 & Hr2). simpl in Hr1, Hr2. rewrite Hr2.
  pose proof (exc_loop_keeps (λ s', db s' = db s) (λ s' k v Hd, Hd) _ _ (mkBalance s r0) _ eq_refl He)
    as Hdb. simpl in Hdb. unfold Balance.commit.
  destruct (commit_rep (E:=InternalErrorKind) _ m' Hr1) as (s' & Hc & _ & Ht & _ & _ & Hsub).
  simpl. rewrite Hc. simpl. split; [done|]. by rewrite <-Hdb.
Qed.
End BlockState.

(** ** The chain *)
Section ChainInvariant.
Context {D M TM R : Type} {node_hash : bytes → Hash}.
Context `{P : Profile, KL : KVDBLaws D, MM : MemoryDB M, TO : !TrieOps (ArchiveDB D M) TM}.
Context `{MLL : !MemoryDBLaws M node_hash, TL : !TrieLaws D M TM node_hash}.
Context `{IO : IterOrder, !IterOrderLaw, RL : RocksDBLaws R, HB : Blake2bLaws, ED : Ed25519, HX : Hex}.
Context `{BA : BincodeLaws Account, BT : Bincode MsgTransfer, BX : Bincode TxHashType}.
Context `{BE : Bincode ListEntry, BTX : Bincode (list Transaction), BSG : Bincode (list VerificationItem)}.
Context `{BHD : BincodeLaws Header, BBK : BincodeLaws Block}.
Implicit Types (bc : BlockChain D M R) (b p : Block) (bs : list Block).

(** [b] follows [p]: it names it as parent, has the next height and a later
    time, carries the digests of its transactions and signatures, and its
    state root stands for the state its transactions make of the parent's. *)
Record follows (B : gmap bytes bytes) b p : Prop := {
  fl_parent : parent_hash (header b) = Block.hash p;
  fl_height : height (header b) = height (header p) + 1;
  fl_time : time (header p) < time (header b);
  fl_txs : tx_root (header b) = get_hash_from_txs (txs b);
  fl_signs : sign_root (header b) = get_hash_from_signs (block_signs b);
  fl_state : ∃ m m', trie_rep B (Block.state_root p) m ∧ map_exec (txs b) m = Ok m' ∧
                     trie_rep B (Block.state_root b) m';
}.

(** Newest block first, down to a block of height zero. *)
Fixpoint chain_ok (B : gmap bytes bytes) bs : Prop :=
  match bs with
  | [] => False
  | [g] => height (header g) = 0 ∧ ∃ m, trie_rep B (Block.state_root g) m
  | b :: (p :: _) as bs' => follows B b p ∧ chain_ok B bs'
  end.

Definition stored (m : gmap bytes bytes) b : Prop :=
  m !! ChainDB.block_key (Block.hash b) = Some (serialize b) ∧
  m !! ChainDB.header_key (hash_bytes (Block.hash b)) = Some (serialize (header b)) ∧
  m !! ChainDB.header_hash_key (height (header b)) = Some (hash_bytes (Block.hash b)).

(** The databases hold the chain [bs] and no other block. *)
Record chain_inv bc bs : Prop := {
  ci_cache : mdb_entries (cached (state_backend bc)) = ∅;
  ci_ok : chain_ok (kv_map (backend (state_backend bc))) bs;
  ci_stored : Forall (stored (cmap (bc_db bc))) bs;
  ci_head : cmap (bc_db bc) !! ChainDB.head_key = hash_bytes ∘ Block.hash <$> head bs;
  ci_only h : h ∉ Block.hash <$> bs → cmap (bc_db bc) !! ChainDB.block_key h = None;
  ci_index n : in_u 64 n → Z.of_nat (length bs) ≤ n →
               cmap (bc_db bc) !! ChainDB.header_hash_key n = None;
}.

Lemma chain_ok_heights B bs :
  chain_ok B bs → ∀ i b, bs !! i = Some b →
  height (header b) = Z.of_nat (length bs) - 1 - Z.of_nat i.
Proof.
  induction bs as [|b [|p bs] IH]; intros Hok i b'; [done| |].
  - destruct i; [|done]. intros [= <-]. destruct Hok as [Hh _]. simpl. lia.
  - destruct Hok as [Hf Hok]. specialize (IH Hok). destruct i as [|i]; intros Hi.
    + injection Hi as <-. rewrite (fl_height _ _ _ Hf), (IH O p eq_refl). simpl length. lia.
    + rewrite (IH i b' Hi). simpl length. lia.
Qed.

Lemma chain_ok_head B bs : chain_ok B bs → ∃ p bs', bs = p :: bs'.
Proof. destruct bs; [done|]. eauto. Qed.

Lemma chain_ok_root B p bs : chain_ok B (p :: bs) → ∃ m, trie_rep B (Block.state_root p) m.
Proof.
  destruct bs as [|q bs]; [by intros [_ ?]|].
  intros [[_ _ _ _ _ (m & m' & _ & _ & Hm')] _]. by exists m'.
Qed.

Lemma follows_mono B B' b p r m :
  B ⊆ B' → trie_rep B' r m → follows B b p → follows B' b p.
Proof.
  intros Hsub Hr [Hp Hh Ht Htx Hsg (m1 & m2 & Hm1 & He & Hm2)]. split; try done.
  exists m1, m2. split_and!; [|done|]; by eapply trie_rep_mono.
Qed.
Lemma chain_ok_mono B B' bs r m :
  B ⊆ B' → trie_rep B' r m → chain_ok B bs → chain_ok B' bs.
Proof.
  intros Hsub Hr. induction bs as [|b [|p bs] IH]; [done| |].
  - intros [Hh (m' & Hm')]. split; [done|]. exists m'. by eapply trie_rep_mono.
  - intros [Hf Hok]. split; [by eapply follows_mono|auto].
Qed.

Lemma head_length bc p bs : chain_inv bc (p :: bs) → height (header p) = Z.of_nat (length bs).
Proof. intros Hi. rewrite (chain_ok_heights _ _ (ci_ok _ _ Hi) O p eq_refl). simpl length. lia. Qed.

(** Reading the chain. *)
Lemma inv_current {E} bc p bs :
  chain_inv bc (p :: bs) → BlockChain.current_block (E:=E) bc = Ok p.
Proof.
  intros Hi. unfold BlockChain.current_block, ChainDB.head_block.
  rewrite (head_hash_Some _ (Block.hash p)); [|apply header_hash_wf|apply (ci_head _ _ Hi)].
  rewrite bind_Ok. pose proof (ci_stored _ _ Hi) as [[Hb _] _]%Forall_cons.
  by rewrite (get_block_Some _ _ _ Hb).
Qed.

Lemma inv_get_block {E} bc bs h :
  chain_inv bc bs →
  (∃ b, b ∈ bs ∧ Block.hash b = h ∧ BlockChain.get_block (E:=E) bc h = Ok (Some b)) ∨
  (h ∉ Block.hash <$> bs ∧ BlockChain.get_block (E:=E) bc h = Ok None).
Proof.
  intros Hi. destruct (decide (h ∈ Block.hash <$> bs)) as [Hin|Hni].
  - left. apply list_elem_of_fmap in Hin as (b & -> & Hb). exists b. split_and!; [done..|].
    pose proof (ci_stored _ _ Hi) as Hst. rewrite Forall_forall in Hst.
    by apply get_block_Some, Hst.
  - right. split; [done|]. apply get_block_None. by apply (ci_only _ _ Hi).
Qed.

(** A height is taken exactly below the length of the chain. *)
Lemma inv_exits {E} bc bs h n :
  chain_inv bc bs → in_u 64 n →
  BlockChain.exits_block (E:=E) bc h n = Ok (bool_decide (n < Z.of_nat (length bs))).
Proof.
  intros Hi Hn. unfold BlockChain.exits_block, ChainDB.get_block_by_number.
  case_bool_decide as Hlt.
  - pose proof (lookup_lt_is_Some_2 bs (Z.to_nat (Z.of_nat (length bs) - 1 - n))) as [b Hb];
      [unfold in_u in Hn; lia|].
    pose proof (chain_ok_heights _ _ (ci_ok _ _ Hi) _ _ Hb) as Hh. unfold in_u in Hn.
    rewrite Z2Nat.id in Hh by lia.
    pose proof (Forall_lookup_1 _ _ _ _ (ci_stored _ _ Hi) Hb) as (Hsb & _ & Hsn).
    replace (height (header b)) with n in Hsn by lia.
    rewrite (get_header_hash_Some _ _ (Block.hash b)); [|apply header_hash_wf|done].
    rewrite bind_Ok. by rewrite (get_block_Some _ _ _ Hsb).
  - rewrite get_header_hash_None; [done|]. apply (ci_index _ _ Hi); [done|lia].
Qed.

(** The checks before execution, in the order in which they are made. *)
Definition precheck p bs b : option BlockChainErrorKind :=
  if decide (height (header b) < Z.of_nat (length (p :: bs))) then Some KnownBlock
  else if decide (parent_hash (header b) ≠ Block.hash p) then Some UnknownAncestor
  else if decide (height (header b) ≠ height (header p) + 1) then Some InvalidBlockHeight
  else if decide (time (header b) ≤ time (header p)) then Some InvalidBlockTime
  else if decide (sign_root (header b) ≠ get_hash_from_signs (block_signs b)) then Some MismatchHash
  else if decide (tx_root (header b) ≠ get_hash_from_txs (txs b)) then Some MismatchHash
  else None.

(** Past the checks, a block is executed on the state of its parent. *)
Definition import_checked bc p b :
    Outcome (BlockChainErrorKind * BlockChain D M R) (BlockChain D M R) :=
  r ← BlockChain.apply_transactions bc (Block.state_root p) b;
  if decide (Block.state_root b ≠ r.2) then Err (InvalidState, r.1) else
  c ← unwrap_res (ChainDB.write_block (bc_db r.1) b);
  c ← unwrap_res (ChainDB.write_head_hash c (Header.hash (header b)));
  mret (BlockChain.set_db r.1 c).

(** Importing looks up the height, the parent and the head. *)
Lemma import_block_reads bc p bs b (known : bool) :
  (∀ E, BlockChain.exits_block (E:=E) bc (Block.hash b) (height (header b)) = Ok known) →
  (known = false → Z.of_nat (length (p :: bs)) ≤ height (header b)) →
  (∀ E, BlockChain.current_block (E:=E) bc = Ok p) →
  (∀ E, BlockChain.get_block (E:=E) bc (Block.hash p) = Ok (Some p)) →
  (∀ E, ∃ o, BlockChain.get_block (E:=E) bc (parent_hash (header b)) = Ok o) →
  (known = false → in_u 64 (height (header p) + 1)) →
  BlockChain.import_block bc b =
    if known then Err (KnownBlock, bc) else
    match precheck p bs b with
    | Some e => Err (e, bc)
    | None => import_checked bc p b
    end.
Proof.
  intros Hk Hlt Hcur Hgp Hgq Hp. unfold BlockChain.import_block, precheck, Block.block_height. rewrite Hk, bind_Ok.
  destruct known; [done|]. specialize (Hp eq_refl). rewrite decide_False by (specialize (Hlt eq_refl); lia). unfold BlockChain.check_previous.
  unfold BlockChain.get_block in Hgp, Hgq.
  destruct (decide (parent_hash (header b) = Block.hash p)) as [Hpar|Hpar].
  - rewrite (decide_False (P:=parent_hash (header b) ≠ _)) by auto.
    rewrite Hpar, Hgp. cbn [fmap outcome_fmap]. rewrite bind_Ok. cbn [negb bool_decide decide_rel is_Some_dec].
    rewrite Hcur, bind_Ok, decide_False by auto.
    unfold BlockChain.validate_header, BlockChain.get_block. rewrite Hpar, Hgp, bind_Ok. unfold add_u.
    rewrite arith_in, bind_Ok by done. case_decide; [done|]. case_decide; [done|]. simpl.
    unfold BlockChain.validate_block. case_decide; [done|]. by case_decide.
  - rewrite (decide_True (P:=parent_hash (header b) ≠ _)) by done.
    destruct (Hgq (BlockChainErrorKind * BlockChain D M R)%type) as [[q|] Hq]; rewrite Hq; simpl; [|done].
    by rewrite Hcur, bind_Ok, decide_True.
Qed.
Lemma import_block_checks bc p bs b :
  chain_inv bc (p :: bs) → in_u 64 (height (header b)) →
  BlockChain.import_block bc b =
    match precheck p bs b with
    | Some e => Err (e, bc)
    | None => import_checked bc p b
    end.
Proof.
  intros Hi Hb.
  rewrite (import_block_reads bc p bs b (bool_decide (height (header b) < Z.of_nat (length (p :: bs))))).
  - case_bool_decide as Hlt; [|done]. unfold precheck. by rewrite decide_True.
  - intros E. by apply inv_exits.
  - intros Hf%bool_decide_eq_false. lia.
  - intros E. by apply (inv_current _ _ bs).
  - intros E. pose proof (ci_stored _ _ Hi) as [[Hsp _] _]%Forall_cons. exact (get_block_Some _ _ _ Hsp).
  - intros E. destruct (inv_get_block (E:=E) bc _ (parent_hash (header b)) Hi) as [(q & _ & _ & Hq)|[_ Hq]]; eauto.
  - intros Hf%bool_decide_eq_false. rewrite (chain_ok_heights _ _ (ci_ok _ _ Hi) O p eq_refl). unfold in_u in *. lia.
Qed.

Lemma sync_inv bc bs (s : StateDB D M) r m :
  chain_inv bc bs → kv_map (backend (state_backend bc)) ⊆ kv_map (backend (db s)) →
  trie_rep (kv_map (backend (db s))) r m → chain_inv (BlockChain.sync bc s) bs.
Proof. intros [Hc Hok Hs Hh Ho Hx] Hsub Hr. split; try done. by eapply chain_ok_mono. Qed.

(** Writing a block that follows the head extends the chain. *)
Lemma extend_inv bc p bs b :
  chain_inv bc (p :: bs) → follows (kv_map (backend (state_backend bc))) b p →
  in_u 64 (height (header b)) → Block.hash b ∉ Block.hash <$> p :: bs →
  ∃ c1 c2, ChainDB.write_block (bc_db bc) b = Ok c1 ∧
    ChainDB.write_head_hash c1 (Header.hash (header b)) = Ok c2 ∧
    chain_inv (BlockChain.set_db bc c2) (b :: p :: bs).
Proof.
  intros Hi Hf Hb Hfresh.
  destruct (write_block_map (bc_db bc) b) as (c1 & Hw1 & Hm1).
  destruct (write_head_map c1 (Header.hash (header b))) as (c2 & Hw2 & Hm2).
  exists c1, c2. split_and!; [done..|].
  pose proof (chain_ok_heights _ _ (ci_ok _ _ Hi)) as Hhs.
  assert (height (header b) = Z.of_nat (length (p :: bs))) as Hlen.
  { rewrite (fl_height _ _ _ Hf), (Hhs O p eq_refl). lia. }
  assert (∀ h, cmap c2 !! ChainDB.block_key h =
    if decide (h = Block.hash b) then Some (serialize b) else cmap (bc_db bc) !! ChainDB.block_key h) as Hblk.
  { intros h. rewrite Hm2, lookup_insert_ne by done. rewrite Hm1. apply block_written_block. }
  split; cbn [bc_db BlockChain.set_db state_backend].
  - apply Hi.
  - split; [done|apply Hi].
  - apply Forall_cons. split.
    + split_and!.
      * by rewrite Hblk, decide_True.
      * rewrite Hm2, lookup_insert_ne by done. by rewrite Hm1, block_written_header, decide_True.
      * rewrite Hm2, lookup_insert_ne by done. by rewrite Hm1, block_written_number, decide_True.
    + apply Forall_lookup. intros i q Hq.
      pose proof (Forall_lookup_1 _ _ _ _ (ci_stored _ _ Hi) Hq) as (Hq1 & Hq2 & Hq3).
      assert (Block.hash q ≠ Block.hash b) as Hne.
      { intros Heq. apply Hfresh. rewrite <-Heq. apply list_elem_of_fmap_2.
        by eapply list_elem_of_lookup_2. }
      pose proof (Hhs _ _ Hq) as Hqh. apply lookup_lt_Some in Hq as Hqlt.
      split_and!.
      * by rewrite Hblk, decide_False.
      * rewrite Hm2, lookup_insert_ne by done. by rewrite Hm1, block_written_header, decide_False.
      * rewrite Hm2, lookup_insert_ne by done. unfold in_u in Hb.
        rewrite Hm1, block_written_number, decide_False; [done|lia|unfold in_u; lia|done].
  - rewrite Hm2. apply lookup_insert_eq.
  - intros h Hh. rewrite fmap_cons, not_elem_of_cons in Hh. destruct Hh as [Hhb Hhs'].
    rewrite Hblk, decide_False by done. by apply (ci_only _ _ Hi).
  - intros n Hn Hle. rewrite Hm2, lookup_insert_ne by done.
    assert (length (b :: p :: bs) = S (length (p :: bs))) as Hl2 by done. rewrite Hl2 in Hle.
    rewrite Hm1, block_written_number, decide_False by (done || lia).
    apply (ci_index _ _ Hi); [done|lia].
Qed.

(** The block's hash is not the hash of a different stored header. *)
Definition no_collision bc b : Prop :=
  ∀ b', BlockChain.get_block (E:=unit) bc (Block.hash b) = Ok (Some b') → header b' = header b.

Lemma no_collision_fresh bc p bs b :
  chain_inv bc (p :: bs) → no_collision bc b → precheck p bs b ≠ Some KnownBlock →
  Block.hash b ∉ Block.hash <$> p :: bs.
Proof.
  intros Hi Hnc Hk Hin. destruct (inv_get_block (E:=unit) bc (p :: bs) (Block.hash b) Hi)
    as [(q & Hq & _ & Hg)|[Hni _]]; [|done].
  apply Hnc in Hg. apply Hk. unfold precheck. rewrite decide_True; [done|].
  apply list_elem_of_lookup in Hq as [i Hq]. rewrite <-Hg.
  rewrite (chain_ok_heights _ _ (ci_ok _ _ Hi) _ _ Hq). lia.
Qed.

Lemma import_checked_spec bc p bs b m :
  chain_inv bc (p :: bs) → in_u 64 (height (header b)) → no_collision bc b →
  trie_rep (kv_map (backend (state_backend bc))) (Block.state_root p) m →
  precheck p bs b = None →
  match map_exec (txs b) m with
  | Ok m' =>
      (∃ bc', import_checked bc p b = Ok bc' ∧ chain_inv bc' (b :: p :: bs)) ∨
      (∃ bc', import_checked bc p b = Err (InvalidState, bc') ∧ bc_db bc' = bc_db bc ∧
              chain_inv bc' (p :: bs) ∧ ∀ B, ¬ trie_rep B (Block.state_root b) m')
  | _ => import_checked bc p b = Panic
  end.
Proof.
  intros Hi Hb Hnc Hm Hpre. unfold import_checked, BlockChain.apply_transactions, Balance.new.
  assert (state_rep (BlockChain.state_at bc (Block.state_root p)) m) as Hs.
  { apply from_existing_rep; [apply Hi|done]. }
  pose proof (exec_block_state b _ m NULL_ROOT Hs) as Hex.
  destruct (Executor.exc_txs_in_block b _ _) as [[b' r]|e|], (map_exec (txs b) m) as [m'|e'|] eqn:Hme;
    try done. simpl in Hex. destruct Hex as [Hr Hsub].
  cbn [unwrap_res]. rewrite bind_Ok. cbv [mret outcome_mret]. rewrite bind_Ok. cbn [fst snd].
  pose proof (sync_inv bc (p :: bs) (treedb b') r m' Hi Hsub Hr) as Hi'.
  case_decide as Hroot.
  - right. exists (BlockChain.sync bc (treedb b')). split_and!; [done..|].
    intros B HB'. apply Hroot. by eapply trie_rep_canonical.
  - left. pose proof Hpre as Hpre'. unfold precheck in Hpre'. repeat case_decide; try done.
    destruct (extend_inv (BlockChain.sync bc (treedb b')) p bs b Hi') as (c1 & c2 & Hw1 & Hw2 & Hinv).
    + split; auto; [lia|]. exists m, m'. split_and!; [|done|by rewrite Hroot].
      by eapply trie_rep_mono.
    + done.
    + apply (no_collision_fresh bc p bs b Hi Hnc). by rewrite Hpre.
    + eexists; split; [|exact Hinv]. cbn [bc_db BlockChain.sync] in Hw1 |- *.
      rewrite Hw1. cbn [unwrap_res]. rewrite bind_Ok, Hw2. done.
Qed.
End ChainInvariant.

(** ** Properties of the chain *)
Section ChainProperties.
Context {D M TM R : Type} {node_hash : bytes → Hash}.
Context `{P : Profile, KL : KVDBLaws D, MM : MemoryDB M, TO : !TrieOps (ArchiveDB D M) TM}.
Context `{MLL : !MemoryDBLaws M node_hash, TL : !TrieLaws D M TM node_hash}.
Context `{IO : IterOrder, !IterOrderLaw, RL : RocksDBLaws R, HB : Blake2bLaws, ED : Ed25519, HX : HexLaws}.
Context `{BA : BincodeLaws Account, BT : Bincode MsgTransfer, BX : Bincode TxHashType}.
Context `{BE : BincodeLaws ListEntry, BTX : Bincode (list Transaction), BSG : Bincode (list VerificationItem)}.
Context `{BHD : BincodeLaws Header, BBK : BincodeLaws Block}.
Context {AK : AddressKeys} {SK : StakingKeys}.
Implicit Types (bc : BlockChain D M R) (b p : Block) (bs : list Block).

(** C6: What importing a block does, on every path.  The checks are made in order
    and the first that fails is reported with the chain untouched.  Past them,
    a transaction that fails is a panic; a state root other than that of the
    executed state is reported and the block database is untouched; otherwise
    the block becomes the head of a longer valid chain. *)
Theorem import_block_spec bc p bs b :
  chain_inv bc (p :: bs) → in_u 64 (height (header b)) → no_collision bc b →
  ∃ m, trie_rep (kv_map (backend (state_backend bc))) (Block.state_root p) m ∧
  match precheck p bs b with
  | Some e => BlockChain.import_block bc b = Err (e, bc)
  | None =>
      match map_exec (txs b) m with
      | Ok m' =>
          (∃ bc', BlockChain.import_block bc b = Ok bc' ∧ chain_inv bc' (b :: p :: bs)) ∨
          (∃ bc', BlockChain.import_block bc b = Err (InvalidState, bc') ∧ bc_db bc' = bc_db bc ∧
                  chain_inv bc' (p :: bs) ∧ ∀ B, ¬ trie_rep B (Block.state_root b) m')
      | _ => BlockChain.import_block bc b = Panic
      end
  end.
Proof.
  intros Hi Hb Hnc. destruct (chain_ok_root _ _ _ (ci_ok _ _ Hi)) as [m Hm]. exists m.
  split; [done|]. rewrite (import_block_checks bc p bs b Hi Hb).
  destruct (precheck p bs b) eqn:Hpre; [done|]. by apply import_checked_spec.
Qed.

(** A block whose claimed root is the root of the executed state is accepted:
    nothing else than the checks and the execution can reject it. *)
Theorem import_block_accepts bc p bs b m m' B :
  chain_inv bc (p :: bs) → in_u 64 (height (header b)) → no_collision bc b →
  precheck p bs b = None →
  trie_rep (kv_map (backend (state_backend bc))) (Block.state_root p) m →
  map_exec (txs b) m = Ok m' → trie_rep B (Block.state_root b) m' →
  ∃ bc', BlockChain.import_block bc b = Ok bc' ∧ chain_inv bc' (b :: p :: bs).
Proof.
  intros Hi Hb Hnc Hpre Hm He HB'. rewrite (import_block_checks bc p bs b Hi Hb), Hpre.
  pose proof (import_checked_spec bc p bs b m Hi Hb Hnc Hm Hpre) as Hs. rewrite He in Hs.
  destruct Hs as [?|(bc' & _ & _ & _ & Hno)]; [done|]. by destruct (Hno B).
Qed.

(** The calls that change a chain. *)
Inductive chain_step bc : BlockChain D M R → Prop :=
  | step_import b bc' :
      in_u 64 (height (header b)) → no_collision bc b →
      BlockChain.import_block bc b = Ok bc' → chain_step bc bc'
  | step_reject b e bc' :
      in_u 64 (height (header b)) → no_collision bc b →
      BlockChain.import_block bc b = Err (e, bc') → chain_step bc bc'.

Lemma chain_step_inv bc bs bc' :
  chain_inv bc bs → chain_step bc bc' → ∃ bs', chain_inv bc' (bs' ++ bs).
Proof.
  intros Hi Hst. destruct (chain_ok_head _ _ (ci_ok _ _ Hi)) as (p & bs' & ->).
  destruct (chain_ok_root _ _ _ (ci_ok _ _ Hi)) as [m Hm].
  destruct Hst as [b bc' Hb Hnc He|b e bc' Hb Hnc He];
    rewrite (import_block_checks bc p bs' b Hi Hb) in He;
    (destruct (precheck p bs' b) eqn:Hpre; [simplify_eq; by exists []|]);
    pose proof (import_checked_spec bc p bs' b m Hi Hb Hnc Hm Hpre) as Hs; rewrite He in Hs;
    (destruct (map_exec (txs b) m); [|discriminate Hs..]);
    destruct Hs as [(bc1 & Heq & Hi1)|(bc1 & Heq & _ & Hi1 & _)]; simplify_eq.
  - by exists [b].
  - by exists [].
Qed.

(** C7: Along any sequence of imports, accepted or rejected, the databases hold a
    valid chain that only grows at its head: every block follows its
    predecessor in height, time, hash and executed state, every height up to
    the head has exactly one block, and no imported block is ever lost. *)
Theorem chain_reachable_inv bc bs bc' :
  chain_inv bc bs → rtc chain_step bc bc' → ∃ bs', chain_inv bc' (bs' ++ bs).
Proof.
  intros Hi Hr. revert bs Hi. induction Hr as [bc|bc1 bc2 bc3 Hst _ IH]; intros bs Hi.
  { by exists []. }
  destruct (chain_step_inv _ _ _ Hi Hst) as (bs1 & Hi1).
  destruct (IH _ Hi1) as (bs2 & Hi2). exists (bs2 ++ bs1). by rewrite <-app_assoc.
Qed.

Lemma setup_genesis_rep (c : ChainDB R) (d : D) {E} :
  cmap c = ∅ → kv_map d = ∅ →
  ∃ bc h, BlockChain.setup_genesis (E:=E) (BlockChain.new c d) = Ok (bc, h) ∧
    chain_inv bc [genesis bc] ∧ h = Block.hash (genesis bc) ∧
    height (header (genesis bc)) = 0 ∧ time (header (genesis bc)) = GENESIS_TIME ∧
    ∃ m, trie_rep (kv_map (backend (state_backend bc))) (Block.state_root (genesis bc)) m ∧
         ledger_of m genesis_ledger ∧ list_rep m [genesis_validator].
Proof.
  intros Hc Hd. unfold BlockChain.setup_genesis, BlockChain.new. cbn [state_backend genesis].
  destruct (setup_allocation_rep (E:=E) (StateDB.from_existing (ArchiveDB.new (M:=M) d) NULL_ROOT))
    as (s & r & Hs & _ & _ & m & _ & Hsv & HL & Hl).
  { apply from_existing_rep; [apply mdb_entries_new|]. simpl. rewrite Hd. exact trie_rep_fresh. }
  rewrite Hs, bind_Ok. cbn [fst snd]. destruct Hsv as [_ Hr]. simpl in Hr.
  set (g := Block.set_state_root to_genesis r).
  change (genesis (BlockChain.sync _ s)) with (to_genesis).
  cbn [BlockChain.set_genesis BlockChain.sync bc_db genesis state_backend cached ArchiveDB.new].
  fold g. destruct (write_block_map c g) as (c1 & Hw1 & Hm1).
  destruct (write_head_map c1 (Block.hash g)) as (c2 & Hw2 & Hm2).
  rewrite Hw1. cbn [unwrap_res]. rewrite bind_Ok, Hw2. cbn [unwrap_res]. rewrite bind_Ok.
  eexists _, _; split_and!; [done| |done|done|done|by exists m].
  unfold BlockChain.set_db, BlockChain.set_genesis, BlockChain.sync.
  cbn [genesis bc_db state_backend cached].
  split; cbn [state_backend cached bc_db backend].
  - apply mdb_entries_new.
  - split; [done|]. by exists m.
  - apply Forall_cons. split; [|done]. split_and!; rewrite Hm2, lookup_insert_ne by done.
    + by rewrite Hm1, block_written_block, decide_True.
    + by rewrite Hm1, block_written_header, decide_True.
    + by rewrite Hm1, block_written_number, decide_True.
  - rewrite Hm2. apply lookup_insert_eq.
  - intros h Hh. rewrite Hm2, lookup_insert_ne by done.
    rewrite Hm1, block_written_block, decide_False, Hc; [apply lookup_empty|].
    intros ->. apply Hh. by apply list_elem_of_singleton.
  - intros n Hn Hle. rewrite Hm2, lookup_insert_ne by done. simpl in Hle.
    rewrite Hm1, block_written_number, decide_False, Hc; [apply lookup_empty|simpl; lia|done|done].
Qed.

(** Setting up the genesis block in empty databases starts a valid chain
    whose state is the genesis allocation with the one genesis validator. *)
Theorem setup_genesis_inv (c : ChainDB R) (d : D) {E} :
  cmap c = ∅ → kv_map d = ∅ →
  ∃ bc h, BlockChain.setup_genesis (E:=E) (BlockChain.new c d) = Ok (bc, h) ∧
    chain_inv bc [genesis bc] ∧ h = Block.hash (genesis bc) ∧
    height (header (genesis bc)) = 0 ∧ time (header (genesis bc)) = GENESIS_TIME ∧
    ∃ m, trie_rep (kv_map (backend (state_backend bc))) (Block.state_root (genesis bc)) m ∧
         ledger_of m genesis_ledger ∧ list_rep m [genesis_validator].
Proof. apply setup_genesis_rep. Qed.
End ChainProperties.

(** ** Worked examples *)
Module BcEx.
Export ExecEx StakeEx ChainEx.
#[export] Existing Instance example_hex.
#[export] Existing Instance example_hex_laws.
#[export] Instance ex_bin_txs : Bincode (list Transaction) := example_bincode.
#[export] Instance ex_bin_signs : Bincode (list VerificationItem) := example_bincode.
#[export] Existing Instance Dev.
Abbreviation chain := (BlockChain MemoryKV ex_mem (gmap bytes bytes)).

(** The chain after [setup_genesis], and an empty block on top of it. *)
Definition gen : chain :=
  match BlockChain.setup_genesis (E:=unit) (BlockChain.new c0 MemoryKV.new) with
  | Ok r => r.1
  | _ => BlockChain.new c0 MemoryKV.new
  end.
Lemma gen_inv : chain_inv gen [genesis gen].
Proof.
  destruct (setup_genesis_rep c0 MemoryKV.new (E:=unit)) as (bc & h & Hs & Hi & _); [done..|].
  unfold gen. rewrite Hs. exact Hi.
Qed.
Lemma gen_state :
  ∃ m, trie_rep (kv_map (backend (state_backend gen))) (Block.state_root (genesis gen)) m ∧
       ledger_of m genesis_ledger ∧ list_rep m [genesis_validator].
Proof.
  destruct (setup_genesis_rep c0 MemoryKV.new (E:=unit)) as (bc & h & Hs & _ & _ & _ & _ & Hm); [done..|].
  unfold gen. rewrite Hs. exact Hm.
Qed.
Definition b1 : Block :=
  Block.new (mkHeader 1 (Block.hash (genesis gen)) 0 [] (mkVRFProof [] []) Hash_default
    Hash_default (Block.state_root (genesis gen)) (GENESIS_TIME + 1)) [] [] [].
Lemma b1_height : in_u 64 (height (header b1)).
Proof. by vm_compute. Qed.
Lemma b1_fresh : Block.hash b1 ≠ Block.hash (genesis gen).
Proof. apply (bool_decide_ne hash_bytes). vm_compute. reflexivity. Qed.
Lemma b1_no_collision : no_collision gen b1.
Proof.
  intros b' Hg. destruct (inv_get_block (E:=unit) gen _ (Block.hash b1) gen_inv)
    as [(q & Hq & Hh & _)|[_ Hn]].
  - apply list_elem_of_singleton in Hq. rewrite Hq in Hh. destruct (b1_fresh (eq_sym Hh)).
  - rewrite Hg in Hn. discriminate Hn.
Qed.
Lemma gen_height : height (header (genesis gen)) = 0.
Proof. by vm_compute. Qed.
Lemma gen_time : time (header (genesis gen)) = GENESIS_TIME.
Proof. by vm_compute. Qed.
Lemma b1_root : Block.state_root b1 = Block.state_root (genesis gen).
Proof.
  unfold b1, Block.new, Block.state_root at 1.
  cbn [header hdr_state_root set_header_sign_root set_header_tx_root]. reflexivity.
Qed.
Lemma b1_exec m : map_exec (txs b1) m = Ok m.
Proof. reflexivity. Qed.
Lemma b1_precheck : precheck (genesis gen) [] b1 = None.
Proof.
  unfold precheck. rewrite decide_False by (simpl; lia). rewrite decide_False by auto.
  rewrite gen_height, gen_time. by rewrite !decide_False by (simpl; auto; lia).
Qed.
End BcEx.

Section BlockChainWitnesses.
Import BcEx.

Lemma setup_genesis_inv_witness :
  ∃ bc h, BlockChain.setup_genesis (E:=unit) (BlockChain.new (M:=ex_mem) c0 MemoryKV.new) = Ok (bc, h) ∧
          chain_inv bc [genesis bc].
Proof.
  destruct (setup_genesis_inv c0 MemoryKV.new (E:=unit)) as (bc & h & Hs & Hi & _);
    [reflexivity|reflexivity|].
  exists bc, h. split; [exact Hs|exact Hi].
Defined.

Lemma import_block_spec_witness :
  ∃ m, trie_rep (kv_map (backend (state_backend gen))) (Block.state_root (genesis gen)) m ∧
    match map_exec (txs b1) m with
    | Ok m' =>
        (∃ bc', BlockChain.import_block gen b1 = Ok bc' ∧ chain_inv bc' [b1; genesis gen]) ∨
        (∃ bc', BlockChain.import_block gen b1 = Err (InvalidState, bc') ∧ bc_db bc' = bc_db gen ∧
                chain_inv bc' [genesis gen] ∧ ∀ B, ¬ trie_rep B (Block.state_root b1) m')
    | _ => BlockChain.import_block gen b1 = Panic
    end.
Proof.
  pose proof (import_block_spec gen (genesis gen) [] b1 gen_inv b1_height b1_no_collision) as Hs.
  rewrite b1_precheck in Hs. exact Hs.
Defined.

Lemma import_block_accepts_witness :
  ∃ bc', BlockChain.import_block gen b1 = Ok bc' ∧ chain_inv bc' [b1; genesis gen].
Proof.
  destruct (chain_ok_root _ _ _ (ci_ok _ _ gen_inv)) as [m Hm].
  apply (import_block_accepts gen (genesis gen) [] b1 m m
    (kv_map (backend (state_backend gen))) gen_inv b1_height b1_no_collision
    b1_precheck Hm (b1_exec m)).
  rewrite b1_root. exact Hm.
Defined.

Lemma chain_reachable_inv_witness :
  ∃ bc' bs', rtc chain_step gen bc' ∧ chain_inv bc' (bs' ++ [genesis gen]).
Proof.
  destruct (is_ok_inv (BlockChain.import_block gen b1)) as [bc' Hb]; [vm_compute; reflexivity|].
  assert (rtc chain_step gen bc') as Hr.
  { apply rtc_once. exact (step_import gen b1 bc' b1_height b1_no_collision Hb). }
  destruct (chain_reachable_inv gen [genesis gen] bc' gen_inv Hr) as [bs' Hi].
  exists bc', bs'. split; [exact Hr|exact Hi].
Defined.
End BlockChainWitnesses.
