(* ===== verification/TxPool.v ===== *)
(** * TxPool: the pool of submitted transactions (src/pool/src/tx_pool.rs)

    [TxPoolManager] keeps the transactions offered to the next block
    ([pending]), those beyond the block limit ([pool]) and a heap of all of
    them by price, from which the cheapest is evicted when both are full. *)
From S2P Require Import Prelude Hashing Types Codec Keys Store State StateExample.
From S2P Require Import Transaction Storage Balance Block Executor Staking Runtime ChainStore BlockChain.

Definition MAX_BLOCK_TX : Z := 500.
Definition MAX_QUEUE_TX : Z := 2048.

Record PriorityRef : Type := mkPriorityRef { tx_hash : Hash; price : Z }.

(** The order of the heap: the reversed order of prices. *)
Module PriorityRef.
Definition cmp (self other : PriorityRef) : comparison := CompOpp (Z.compare (price self) (price other)).
Definition eq (self other : PriorityRef) : bool := bool_decide (price self = price other).
End PriorityRef.

(** [BinaryHeap<PriorityRef>]: [pop] takes out a greatest entry, whichever the
    heap has at its root. *)
Class PriorityHeap : Type := heap_pop : list PriorityRef → option (PriorityRef * list PriorityRef).
Class PriorityHeapLaw `{PriorityHeap} : Prop := heap_pop_spec q :
  match heap_pop q with
  | Some (x, q') => q ≡ₚ x :: q' ∧ Forall (λ y, PriorityRef.cmp y x ≠ Gt) q
  | None => q = []
  end.
(** [HashMap::values] lists the entries in some order. *)
Class PoolOrder : Type := pool_order : gmap Hash Transaction → list (Hash * Transaction).
Class PoolOrderLaw `{PoolOrder} : Prop := pool_order_perm m : pool_order m ≡ₚ map_to_list m.

(** The chain the manager shares is an argument of its operations. *)
Record TxPoolManager : Type := mkTxPoolManager {
  pending : gmap Hash Transaction;
  pool : gmap Hash Transaction;
  ordered_queue : list PriorityRef;
  block_limit : Z;
  queue_limit : Z;
}.

Inductive TxPoolError : Type := NotSufficientFunds | InvalidNonce.

Module TxPoolManager.
Definition set_pending (s : TxPoolManager) m := mkTxPoolManager m (pool s) (ordered_queue s) (block_limit s) (queue_limit s).
Definition set_pool (s : TxPoolManager) m := mkTxPoolManager (pending s) m (ordered_queue s) (block_limit s) (queue_limit s).
Definition set_queue (s : TxPoolManager) q := mkTxPoolManager (pending s) (pool s) q (block_limit s) (queue_limit s).

Section TxPoolManager.
Context {D M TM R : Type} `{P : Profile, KVDB D, MemoryDB M, TO : !TrieOps (ArchiveDB D M) TM}.
Context `{IterOrder, RocksDB R, Blake2b, Bincode Account, Bincode MsgTransfer, Bincode TxHashType}.
Context `{Bincode Header, Bincode Block, PriorityHeap, PoolOrder}.
Implicit Types (bc : BlockChain D M R) (s : TxPoolManager) (tx : Transaction).

Definition new : TxPoolManager := mkTxPoolManager ∅ ∅ [] MAX_BLOCK_TX MAX_QUEUE_TX.

Definition head_account {E} bc (a : Address) : Outcome E Account :=
  current ← BlockChain.current_block bc;
  Balance.get_account (Balance.new (BlockChain.state_at bc (Block.state_root current))) a.

Definition validate_tx bc tx : Outcome TxPoolError unit :=
  account ← head_account bc (tx_sender tx);
  value ← Transaction.get_value tx;
  if decide (Account.get_balance account < value) then Err NotSufficientFunds else
  next ← add_u 64 (Account.get_nonce account) 1;
  if decide (next ≠ Transaction.get_nonce tx) then Err InvalidNonce else Ok tt.

Section Ops.
Context {E : Type}.

Definition get_nonce bc (a : Address) : Outcome E Z :=
  account ← head_account bc a; mret (Account.get_nonce account).

Definition add_tx bc s tx : Outcome E (TxPoolManager * bool) :=
  match validate_tx bc tx with
  | Ok _ => Ok (set_pending s (<[Transaction.hash tx := tx]> (pending s)), true)
  | Err _ => Ok (s, false)
  | Panic => Panic
  end.

Definition get_pending s : list Transaction := (pool_order (pending s)).*2.
Definition all_transactions s : list Transaction :=
  (pool_order (pending s)).*2 ++ (pool_order (pool s)).*2.

Definition pop_back s : Outcome E (TxPoolManager * option Hash) :=
  if decide (length (ordered_queue s) = 0%nat) then Ok (s, None) else
  r ← unwrap (heap_pop (ordered_queue s));
  let (last, q) := (r : PriorityRef * list PriorityRef) in
  let s := set_queue s q in
  match pool s !! tx_hash last with
  | Some _ => Ok (set_pool s (delete (tx_hash last) (pool s)), Some (tx_hash last))
  | None =>
      _ ← unwrap (pending s !! tx_hash last);
      Ok (set_pending s (delete (tx_hash last) (pending s)), Some (tx_hash last))
  end.

Definition remove_tx s (h : Hash) : TxPoolManager :=
  match pending s !! h with
  | Some _ => set_pending s (delete h (pending s))
  | None => set_pool s (delete h (pool s))
  end.

(** The removal after [pop_back] is that of [remove_tx]. *)
Definition make_room s : Outcome E TxPoolManager :=
  if decide (Z.of_nat (length (all_transactions s)) > block_limit s + queue_limit s) then
    r ← pop_back s;
    mret (match r.2 with
          | Some removed => remove_tx r.1 removed
          | None => r.1
          end)
  else Ok s.

Definition insert_tx bc s tx : Outcome E TxPoolManager :=
  match validate_tx bc tx with
  | Err _ => Ok s
  | Panic => Panic
  | Ok _ =>
      s ← make_room s;
      let h := Transaction.hash tx in
      let s := if decide (Z.of_nat (size (pending s)) > block_limit s)
               then set_pool s (<[h := tx]> (pool s))
               else set_pending s (<[h := tx]> (pending s)) in
      mret (set_queue s (mkPriorityRef h (Transaction.get_gas_price tx) :: ordered_queue s))
  end.

(** [retain]: the entries whose nonce is above their sender's. *)
Fixpoint retain (runtime : Balance (StateDB D M)) (l : list (Hash * Transaction))
    (m : gmap Hash Transaction) : Outcome E (gmap Hash Transaction) :=
  match l with
  | [] => Ok m
  | (h, tx) :: l =>
      account ← Balance.get_account runtime (tx_sender tx);
      retain runtime l
        (if decide (Transaction.get_nonce tx > Account.get_nonce account) then m else delete h m)
  end.

Definition reset_pool bc s (b : Block) : Outcome E TxPoolManager :=
  let runtime := Balance.new (BlockChain.state_at bc (Block.state_root b)) in
  m ← retain runtime (pool_order (pending s)) (pending s);
  mret (set_pending s m).
End Ops.
End TxPoolManager.
End TxPoolManager.

(** ** Properties *)
Section TxPoolFacts.
Context {D M TM R : Type} `{P : Profile, KVDB D, MemoryDB M, TO : !TrieOps (ArchiveDB D M) TM}.
Context `{IterOrder, RocksDB R, Blake2b, Bincode Account, Bincode MsgTransfer, Bincode TxHashType}.
Context `{Bincode Header, Bincode Block, HL : PriorityHeapLaw, OL : PoolOrderLaw} {E : Type}.
Implicit Types (bc : BlockChain D M R) (s : TxPoolManager) (tx : Transaction) (h : Hash).

(** A greatest entry is a cheapest one. *)
Lemma cmp_price x y : PriorityRef.cmp y x ≠ Gt ↔ price x ≤ price y.
Proof.
  unfold PriorityRef.cmp. destruct (Z.compare_spec (price y) (price x)); simpl; split; (done || lia).
Qed.
Lemma heap_pop_cheapest q :
  match heap_pop q with
  | Some (x, q') => q ≡ₚ x :: q' ∧ Forall (λ y, price x ≤ price y) q
  | None => q = []
  end.
Proof.
  pose proof (heap_pop_spec q) as Hs. destruct (heap_pop q) as [[x q']|]; [|done].
  destruct Hs as [Hq Hmax]. split; [done|]. eapply Forall_impl; [exact Hmax|]. intros y. apply cmp_price.
Qed.

Lemma length_all s :
  length (TxPoolManager.all_transactions s) = (size (pending s) + size (pool s))%nat.
Proof.
  unfold TxPoolManager.all_transactions.
  by rewrite length_app, !length_fmap, !pool_order_perm, !length_map_to_list.
Qed.

(** The transactions of the pool: those of [pending] and of [pool]. *)
Definition held s h : option Transaction :=
  match pending s !! h with Some tx => Some tx | None => pool s !! h end.

(** The queue lists every held transaction once, with its price. *)
Record pool_inv s : Prop := {
  pi_disj : pending s ##ₘ pool s;
  pi_hash h tx : held s h = Some tx → Transaction.hash tx = h;
  pi_nodup : NoDup (tx_hash <$> ordered_queue s);
  pi_queue x : x ∈ ordered_queue s →
    ∃ tx, held s (tx_hash x) = Some tx ∧ Transaction.get_gas_price tx = price x;
  pi_listed h tx : held s h = Some tx → h ∈ tx_hash <$> ordered_queue s;
}.
Definition limit s : Z := block_limit s + queue_limit s.

Lemma pop_back_spec s x q :
  heap_pop (ordered_queue s) = Some (x, q) → pending s ##ₘ pool s →
  TxPoolManager.pop_back (E:=E) s =
    match held s (tx_hash x) with
    | Some _ => Ok (mkTxPoolManager (delete (tx_hash x) (pending s)) (delete (tx_hash x) (pool s)) q
                      (block_limit s) (queue_limit s), Some (tx_hash x))
    | None => Panic
    end.
Proof.
  intros Hp Hd. unfold TxPoolManager.pop_back.
  pose proof (heap_pop_cheapest (ordered_queue s)) as Hs. rewrite Hp in Hs. destruct Hs as [Hs _].
  rewrite decide_False by (rewrite Hs; simpl; lia). rewrite Hp. cbn [unwrap mbind outcome_mbind].
  unfold TxPoolManager.set_queue, TxPoolManager.set_pool, TxPoolManager.set_pending, held.
  cbn [pool pending ordered_queue block_limit queue_limit].
  destruct (pool s !! tx_hash x) eqn:Hpool.
  - pose proof (map_disjoint_Some_r _ _ _ _ Hd Hpool) as Hpend. rewrite Hpend.
    by rewrite (delete_id (pending s)).
  - destruct (pending s !! tx_hash x) eqn:Hpend; simpl; [|done]. by rewrite (delete_id (pool s)).
Qed.

(** A removed hash is in neither map: removing it again changes nothing. *)
Lemma remove_absent s h : held s h = None → TxPoolManager.remove_tx s h = s.
Proof.
  unfold held, TxPoolManager.remove_tx. intros Hh. destruct (pending s !! h); [done|].
  rewrite delete_id by done. by destruct s.
Qed.

(** What eviction leaves. *)
Definition evict s (x : PriorityRef) (q : list PriorityRef) : TxPoolManager :=
  mkTxPoolManager (delete (tx_hash x) (pending s)) (delete (tx_hash x) (pool s)) q
    (block_limit s) (queue_limit s).

Lemma held_evict s x q h :
  held (evict s x q) h = if decide (h = tx_hash x) then None else held s h.
Proof.
  unfold held, evict; cbn [pending pool]. case_decide as Hh.
  - subst. by rewrite !lookup_delete_eq.
  - by rewrite !lookup_delete_ne by done.
Qed.

Lemma make_room_spec s :
  pool_inv s → 0 ≤ limit s →
  (Z.of_nat (length (TxPoolManager.all_transactions s)) ≤ limit s ∧
   TxPoolManager.make_room (E:=E) s = Ok s) ∨
  (∃ x q tx, limit s < Z.of_nat (length (TxPoolManager.all_transactions s)) ∧
     ordered_queue s ≡ₚ x :: q ∧ Forall (λ y, price x ≤ price y) (ordered_queue s) ∧
     held s (tx_hash x) = Some tx ∧ TxPoolManager.make_room (E:=E) s = Ok (evict s x q)).
Proof.
  intros Hi Hlim. unfold TxPoolManager.make_room. fold (limit s).
  case_decide as Hfull; [right|left; split; [lia|done]].
  pose proof (heap_pop_cheapest (ordered_queue s)) as Hs.
  destruct (heap_pop (ordered_queue s)) as [[x q]|] eqn:Hp.
  - destruct Hs as [Hq Hmin].
    destruct (pi_queue s Hi x) as (tx & Hx & _); [rewrite Hq; set_solver|].
    exists x, q, tx. split_and!; [lia|done|done|done|].
    rewrite (pop_back_spec s x q Hp (pi_disj _ Hi)), Hx. cbn [mbind outcome_mbind fst snd].
    fold (evict s x q). rewrite remove_absent; [done|]. by rewrite held_evict, decide_True.
  - exfalso. rewrite length_all in Hfull.
    assert (∃ h tx, held s h = Some tx) as (h & tx & Hh).
    { unfold held. destruct (decide (pending s = ∅)) as [He|He].
      - rewrite He in Hfull |- *. rewrite map_size_empty in Hfull.
        destruct (map_choose (pool s)) as (h & tx & Hp'); [|by exists h, tx; rewrite lookup_empty].
        intros He'. rewrite He', map_size_empty in Hfull. lia.
      - destruct (map_choose _ He) as (h & tx & Hp'). exists h, tx. by rewrite Hp'. }
    apply (pi_listed _ Hi) in Hh. rewrite Hs in Hh. set_solver.
Qed.

Lemma evict_inv s x q tx :
  pool_inv s → ordered_queue s ≡ₚ x :: q → held s (tx_hash x) = Some tx → pool_inv (evict s x q).
Proof.
  intros Hi Hq Hx.
  pose proof (pi_nodup _ Hi) as Hnd. rewrite Hq, fmap_cons in Hnd. apply NoDup_cons in Hnd as [Hni Hnd].
  split.
  - cbn. apply map_disjoint_delete_l, map_disjoint_delete_r, Hi.
  - intros h tx'. rewrite held_evict. case_decide; [done|]. apply Hi.
  - done.
  - intros y Hy. cbn in Hy. destruct (pi_queue _ Hi y) as (tx' & Ht & Hpr); [rewrite Hq; set_solver|].
    exists tx'. split; [|done]. rewrite held_evict, decide_False; [done|].
    intros He. apply Hni. rewrite <-He. by apply list_elem_of_fmap_2.
  - intros h tx'. rewrite held_evict. case_decide as Hne; [done|]. intros Hh.
    apply (pi_listed _ Hi) in Hh. rewrite Hq, fmap_cons in Hh. cbn. set_solver.
Qed.

Lemma size_evict s x q tx :
  pending s ##ₘ pool s → held s (tx_hash x) = Some tx →
  (size (pending s) + size (pool s) = S (size (pending (evict s x q)) + size (pool (evict s x q))))%nat.
Proof.
  intros Hd. unfold held, evict; cbn. destruct (pending s !! tx_hash x) as [t|] eqn:Hp; intros Hx.
  - pose proof (map_disjoint_Some_l _ _ _ _ Hd Hp) as Hn.
    rewrite map_size_delete_Some by eauto. rewrite (delete_id (pool s)) by done.
    assert (size (pending s) ≠ 0%nat); [|lia].
    intros He%map_size_empty_inv. rewrite He, lookup_empty in Hp. done.
  - rewrite (map_size_delete_Some _ (pool s)) by eauto. rewrite (delete_id (pending s)) by done.
    assert (size (pool s) ≠ 0%nat); [|lia].
    intros He%map_size_empty_inv. rewrite He, lookup_empty in Hx. done.
Qed.

(** The insertion itself, into whichever map has room. *)
Definition place s tx : TxPoolManager :=
  let h := Transaction.hash tx in
  let s := if decide (Z.of_nat (size (pending s)) > block_limit s)
           then TxPoolManager.set_pool s (<[h := tx]> (pool s))
           else TxPoolManager.set_pending s (<[h := tx]> (pending s)) in
  TxPoolManager.set_queue s (mkPriorityRef h (Transaction.get_gas_price tx) :: ordered_queue s).

Lemma held_place s tx h :
  held s (Transaction.hash tx) = None →
  held (place s tx) h = if decide (h = Transaction.hash tx) then Some tx else held s h.
Proof.
  unfold held, place. intros Hn. destruct (pending s !! Transaction.hash tx) eqn:Hp; [done|].
  case_decide as Hh; case_decide; subst; cbn; rewrite ?lookup_insert_eq, ?Hp; try done;
    by rewrite lookup_insert_ne.
Qed.

Lemma place_inv s tx :
  pool_inv s → held s (Transaction.hash tx) = None → pool_inv (place s tx).
Proof.
  intros Hi Hn.
  assert (ordered_queue (place s tx) =
    mkPriorityRef (Transaction.hash tx) (Transaction.get_gas_price tx) :: ordered_queue s) as Hq.
  { unfold place. by case_decide. }
  split.
  - unfold held in Hn. destruct (pending s !! Transaction.hash tx) eqn:Hp; [done|].
    unfold place. case_decide; cbn; [apply map_disjoint_insert_r_2|apply map_disjoint_insert_l_2];
      (done || apply Hi).
  - intros h tx'. rewrite held_place by done. case_decide; [naive_solver|]. apply Hi.
  - rewrite Hq, fmap_cons. apply NoDup_cons. split; [|apply Hi].
    intros (y & Hy & Hin)%list_elem_of_fmap. cbn in Hy.
    destruct (pi_queue _ Hi y Hin) as (t & Ht & _). by rewrite <-Hy, Hn in Ht.
  - intros y Hy. rewrite Hq in Hy. apply elem_of_cons in Hy as [->|Hy].
    + exists tx. rewrite held_place by done. by rewrite decide_True.
    + destruct (pi_queue _ Hi y Hy) as (t & Ht & Hpr). exists t. split; [|done].
      rewrite held_place by done. rewrite decide_False; [done|]. intros He. by rewrite He, Hn in Ht.
  - intros h tx'. rewrite held_place, Hq, fmap_cons by done. case_decide as Hh; intros Ht.
    + subst. apply elem_of_cons. by left.
    + apply elem_of_cons. right. by eapply Hi.
Qed.

Lemma size_place s tx :
  held s (Transaction.hash tx) = None →
  (size (pending (place s tx)) + size (pool (place s tx)) = S (size (pending s) + size (pool s)))%nat.
Proof.
  unfold held, place. intros Hn. destruct (pending s !! Transaction.hash tx) eqn:Hp; [done|].
  case_decide; cbn; rewrite map_size_insert_None by done; lia.
Qed.

(** C24: Inserting a valid new transaction into a consistent pool always succeeds,
    keeps the pool consistent and bounded, and stores the transaction; a full
    pool gives up exactly one of its cheapest transactions for it, any other
    pool gives up none. *)
Theorem insert_tx_spec bc s tx :
  pool_inv s → 0 ≤ limit s → TxPoolManager.validate_tx bc tx = Ok tt →
  held s (Transaction.hash tx) = None →
  Z.of_nat (length (TxPoolManager.all_transactions s)) ≤ limit s + 1 →
  ∃ s', TxPoolManager.insert_tx (E:=E) bc s tx = Ok s' ∧ pool_inv s' ∧
    Z.of_nat (length (TxPoolManager.all_transactions s')) ≤ limit s' + 1 ∧
    held s' (Transaction.hash tx) = Some tx ∧
    if decide (Z.of_nat (length (TxPoolManager.all_transactions s)) ≤ limit s) then
      ∀ h t, held s h = Some t → held s' h = Some t
    else ∃ h0 t0, held s h0 = Some t0 ∧
      (∀ h t, held s h = Some t → Transaction.get_gas_price t0 ≤ Transaction.get_gas_price t) ∧
      (∀ h t, h ≠ h0 → held s h = Some t → held s' h = Some t) ∧ held s' h0 = None.
Proof.
  intros Hi Hlim Hv Hn Hle. unfold TxPoolManager.insert_tx. rewrite Hv.
  destruct (make_room_spec s Hi Hlim) as [[Hroom Hm]|(x & q & t0 & Hfull & Hq & Hmin & Hx & Hm)];
    rewrite Hm, bind_Ok.
  - exists (place s tx). split_and!; [done|by apply place_inv| | |].
    + rewrite length_all in *. rewrite size_place by done.
      assert (limit (place s tx) = limit s) as -> by (unfold place; by case_decide). lia.
    + rewrite held_place by done. by rewrite decide_True.
    + rewrite decide_True by done. intros h t Ht. rewrite held_place by done.
      rewrite decide_False; [done|]. intros ->. by rewrite Hn in Ht.
  - assert (Transaction.hash tx ≠ tx_hash x) as Hne by (intros He; by rewrite He, Hx in Hn).
    assert (held (evict s x q) (Transaction.hash tx) = None) as Hn'
      by (by rewrite held_evict, decide_False).
    pose proof (evict_inv s x q t0 Hi Hq Hx) as Hi'.
    exists (place (evict s x q) tx). split_and!; [done|by apply place_inv| | |].
    + rewrite length_all in *. rewrite size_place by done.
      pose proof (size_evict s x q t0 (pi_disj _ Hi) Hx).
      assert (limit (place (evict s x q) tx) = limit s) as -> by (unfold place; by case_decide). lia.
    + rewrite held_place by done. by rewrite decide_True.
    + rewrite decide_False by lia. exists (tx_hash x), t0. split_and!; [done| | |].
      * intros h t Ht. pose proof (pi_listed _ Hi _ _ Ht) as (y & -> & Hy)%list_elem_of_fmap.
        destruct (pi_queue _ Hi x) as (tx1 & Ht1 & Hp1); [rewrite Hq; set_solver|].
        destruct (pi_queue _ Hi y Hy) as (ty & Hty & Hpy). simplify_eq.
        rewrite Hp1, Hpy. rewrite Forall_forall in Hmin. by apply Hmin.
      * intros h t Hh Ht. rewrite held_place, held_evict by done.
        rewrite (decide_False (P:=h = tx_hash x)) by done. rewrite decide_False; [done|].
        intros ->. by rewrite Hn in Ht.
      * rewrite held_place, held_evict by done. rewrite decide_False by done. by rewrite decide_True.
Qed.

(** Only inserting keeps the queue in step with the maps.  When the pool is over
    its limit and its cheapest queue entry has left the maps some other way,
    inserting panics. *)
Theorem insert_tx_stale_panics bc s tx :
  pending s ##ₘ pool s → TxPoolManager.validate_tx bc tx = Ok tt → ordered_queue s ≠ [] →
  limit s < Z.of_nat (length (TxPoolManager.all_transactions s)) →
  (∀ x, x ∈ ordered_queue s → Forall (λ y, price x ≤ price y) (ordered_queue s) →
        held s (tx_hash x) = None) →
  TxPoolManager.insert_tx (E:=E) bc s tx = Panic.
Proof.
  intros Hd Hv Hne Hfull Hst. unfold TxPoolManager.insert_tx. rewrite Hv.
  unfold TxPoolManager.make_room. fold (limit s). rewrite decide_True by lia.
  pose proof (heap_pop_cheapest (ordered_queue s)) as Hs.
  destruct (heap_pop (ordered_queue s)) as [[x q]|] eqn:Hp; [|done]. destruct Hs as [Hq Hmin].
  rewrite (pop_back_spec s x q Hp Hd), Hst; [done| |done]. rewrite Hq. set_solver.
Qed.

(** A transaction whose data is not a transfer message panics the pool before
    it can be rejected. *)
Theorem malformed_tx_panics bc s tx account :
  TxPoolManager.head_account (E:=TxPoolError) bc (tx_sender tx) = Ok account →
  deserialize (A:=MsgTransfer) (tx_data tx) = None →
  TxPoolManager.insert_tx (E:=E) bc s tx = Panic ∧ TxPoolManager.add_tx (E:=E) bc s tx = Panic.
Proof.
  intros Ha Hd. assert (TxPoolManager.validate_tx bc tx = Panic) as Hv.
  { unfold TxPoolManager.validate_tx, Transaction.get_value. by rewrite Ha, bind_Ok, Hd. }
  unfold TxPoolManager.insert_tx, TxPoolManager.add_tx. by rewrite Hv.
Qed.

(** ** What changes the pending transactions *)
Inductive pool_op : Type :=
  | AddTx (tx : Transaction) | InsertTx (tx : Transaction) | RemoveTx (h : Hash)
  | ResetPool (b : Block).
Definition submits (o : pool_op) h : Prop :=
  match o with AddTx tx | InsertTx tx => Transaction.hash tx = h | _ => False end.
Definition run_op bc s (o : pool_op) : Outcome E TxPoolManager :=
  match o with
  | AddTx tx => fst <$> TxPoolManager.add_tx bc s tx
  | InsertTx tx => TxPoolManager.insert_tx bc s tx
  | RemoveTx h => Ok (TxPoolManager.remove_tx s h)
  | ResetPool b => TxPoolManager.reset_pool bc s b
  end.
(** Each operation sees the chain of its time. *)
Fixpoint run_ops s (l : list (BlockChain D M R * pool_op)) : Outcome E TxPoolManager :=
  match l with
  | [] => Ok s
  | (bc, o) :: l => s ← run_op bc s o; run_ops s l
  end.

Lemma retain_sub runtime l m m' :
  TxPoolManager.retain (E:=E) (D:=D) (M:=M) runtime l m = Ok m' → m' ⊆ m.
Proof.
  revert m. induction l as [|[h tx] l IH]; intros m; simpl; [by intros [= <-]|].
  intros (acc & _ & Hr)%bind_Ok_inv. apply IH in Hr. case_decide; [done|].
  etrans; [done|apply delete_subseteq].
Qed.
Lemma remove_tx_pending s h0 h :
  pending s !! h = None → pending (TxPoolManager.remove_tx s h0) !! h = None.
Proof.
  unfold TxPoolManager.remove_tx. intros Hh. destruct (pending s !! h0) eqn:Hh0; [|done].
  cbn. by apply lookup_delete_None; right.
Qed.
Lemma make_room_pending s s' h :
  TxPoolManager.make_room (E:=E) s = Ok s' → pending s !! h = None → pending s' !! h = None.
Proof.
  unfold TxPoolManager.make_room. case_decide; [|by intros [= <-]].
  intros ([s1 o] & Hp & [= <-])%bind_Ok_inv Hh. cbn [fst snd].
  assert (pending s1 !! h = None) as Hs1.
  { unfold TxPoolManager.pop_back in Hp. case_decide; [by simplify_eq|].
    apply bind_Ok_inv in Hp as ([x q] & _ & Hp). cbn in Hp.
    destruct (pool s !! tx_hash x); [by simplify_eq|].
    apply bind_Ok_inv in Hp as (? & _ & [= <- _]). cbn. by apply lookup_delete_None; right. }
  destruct o; [by apply remove_tx_pending|done].
Qed.

Lemma run_op_pending bc s o s' h :
  run_op bc s o = Ok s' → ¬ submits o h → pending s !! h = None → pending s' !! h = None.
Proof.
  destruct o as [tx|tx|h0|b]; cbn -[TxPoolManager.remove_tx TxPoolManager.insert_tx]; intros Hr Hs Hh.
  - unfold TxPoolManager.add_tx in Hr. destruct (TxPoolManager.validate_tx bc tx); simplify_eq/=; [|done].
    by rewrite lookup_insert_ne.
  - unfold TxPoolManager.insert_tx in Hr.
    destruct (TxPoolManager.validate_tx bc tx); [|by simplify_eq|done].
    apply bind_Ok_inv in Hr as (s1 & Hm & [= <-]).
    pose proof (make_room_pending _ _ _ Hm Hh). case_decide; cbn; [done|]. by rewrite lookup_insert_ne.
  - injection Hr as <-. by apply remove_tx_pending.
  - apply bind_Ok_inv in Hr as (m & Hm & [= <-]). cbn. apply retain_sub in Hm.
    by eapply lookup_weaken_None.
Qed.

Lemma run_ops_pending l s s' h :
  Forall (λ x, ¬ submits x.2 h) l → run_ops s l = Ok s' →
  pending s !! h = None → pending s' !! h = None.
Proof.
  intros Hl. revert s. induction Hl as [|[bc o] l Ho _ IH]; intros s Hr Hh; simpl in Hr; [by simplify_eq|].
  apply bind_Ok_inv in Hr as (s1 & Hs1 & Hr). apply (IH s1 Hr). by eapply run_op_pending.
Qed.

(** A transaction that is not pending is never offered to a block, whatever
    becomes of the pool and of the chain, unless it is submitted again: nothing
    moves a transaction queued beyond the block limit into [pending]. *)
Theorem queued_never_pending l s s' h tx :
  pool s !! h = Some tx → pending s !! h = None →
  Forall (λ x, ¬ submits x.2 h) l → run_ops s l = Ok s' →
  pending s' !! h = None ∧ ∀ t, (h, t) ∉ pool_order (pending s').
Proof.
  intros _ Hh Hl Hr. pose proof (run_ops_pending l s s' h Hl Hr Hh) as Hn. split; [done|].
  intros t Ht. rewrite pool_order_perm in Ht. apply elem_of_map_to_list in Ht. by rewrite Hn in Ht.
Qed.
End TxPoolFacts.

(** ** Worked examples *)
Fixpoint cheapest (q : list PriorityRef) : option (PriorityRef * list PriorityRef) :=
  match q with
  | [] => None
  | x :: q =>
      match cheapest q with
      | None => Some (x, q)
      | Some (y, q') => if decide (price x ≤ price y) then Some (x, q) else Some (y, x :: q')
      end
  end.
Definition example_heap : PriorityHeap := cheapest.
Lemma example_heap_law : @PriorityHeapLaw example_heap.
Proof.
  intros q. unfold heap_pop, example_heap. induction q as [|x q IH]; simpl; [done|].
  destruct (cheapest q) as [[y q']|]; [|by subst; repeat constructor; rewrite cmp_price].
  destruct IH as [Hq Hmin]. case_decide as Hle.
  - split; [done|]. constructor; [by apply cmp_price|]. eapply Forall_impl; [exact Hmin|].
    intros z. rewrite !cmp_price. lia.
  - split; [rewrite Hq; apply Permutation_swap|]. constructor; [apply cmp_price; lia|done].
Qed.
Definition example_pool_order : PoolOrder := map_to_list.
Lemma example_pool_order_law : @PoolOrderLaw example_pool_order.
Proof. intros m. reflexivity. Qed.

Module PoolEx.
Export BcEx.
#[export] Existing Instance example_heap.
#[export] Existing Instance example_heap_law.
#[export] Existing Instance example_pool_order.
#[export] Existing Instance example_pool_order_law.
(** The genesis account sends 5 at price [p]. *)
Definition gtx (p : Z) : Transaction :=
  Transaction.new genesis_addr 1 p 0 [] (serialize (mkMsgTransfer (addr 2) 5)).
(** A pool of two. *)
Definition small : TxPoolManager := mkTxPoolManager ∅ ∅ [] 0 1.
Definition get_pool (o : Outcome unit TxPoolManager) : TxPoolManager :=
  match o with Ok s => s | _ => small end.
(** Price 1 was inserted and removed again, 2 and 3 are held. *)
Definition stale : TxPoolManager := Eval vm_compute in
  get_pool (run_ops small [(gen, InsertTx (gtx 1)); (gen, RemoveTx (Transaction.hash (gtx 1)));
                           (gen, InsertTx (gtx 2)); (gen, InsertTx (gtx 3))]).
Lemma small_inv : pool_inv small.
Proof.
  split.
  - apply map_disjoint_empty_l.
  - intros h tx Hh. unfold held in Hh. cbn in Hh. rewrite !lookup_empty in Hh. discriminate Hh.
  - constructor.
  - intros x Hx. apply elem_of_nil in Hx as [].
  - intros h tx Hh. unfold held in Hh. cbn in Hh. rewrite !lookup_empty in Hh. discriminate Hh.
Qed.
Definition stale_check (s : TxPoolManager) : bool :=
  forallb (λ x, implb (forallb (λ y, bool_decide (price x ≤ price y)) (ordered_queue s))
    (bool_decide (held s (tx_hash x) = None))) (ordered_queue s).
Lemma stale_queue x :
  x ∈ ordered_queue stale → Forall (λ y, price x ≤ price y) (ordered_queue stale) →
  held stale (tx_hash x) = None.
Proof.
  intros Hx Hmin.
  assert (stale_check stale = true) as Hb by (vm_compute; reflexivity).
  unfold stale_check in Hb. rewrite forallb_forall in Hb. specialize (Hb x (proj1 (list_elem_of_In _ _) Hx)).
  assert (forallb (λ y, bool_decide (price x ≤ price y)) (ordered_queue stale) = true) as Hm.
  { apply forallb_forall. intros y Hy%list_elem_of_In. apply bool_decide_true.
    exact (proj1 (Forall_forall _ _) Hmin y Hy). }
  rewrite Hm in Hb. exact (bool_decide_eq_true_1 _ Hb).
Qed.
Lemma gtx_valid : TxPoolManager.validate_tx gen (gtx 4) = Ok tt.
Proof. vm_compute. reflexivity. Qed.
End PoolEx.

Section TxPoolWitnesses.
Import PoolEx.

Lemma insert_tx_spec_witness :
  ∃ s', TxPoolManager.insert_tx (E:=unit) gen small (gtx 4) = Ok s' ∧ pool_inv s'.
Proof.
  destruct (insert_tx_spec (E:=unit) gen small (gtx 4) small_inv) as (s' & Hs & Hi & _).
  - vm_compute. discriminate.
  - exact gtx_valid.
  - reflexivity.
  - vm_compute. discriminate.
  - exists s'. split; [exact Hs|exact Hi].
Defined.

Lemma insert_tx_stale_panics_witness :
  ordered_queue stale ≠ [] ∧ TxPoolManager.insert_tx (E:=unit) gen stale (gtx 4) = Panic.
Proof.
  assert (pending stale ##ₘ pool stale) as Hd
    by (apply (bool_decide_eq_true_1 _); vm_compute; reflexivity).
  assert (ordered_queue stale ≠ []) as Hne
    by (assert (length (ordered_queue stale) = 3%nat) as Hl by (vm_compute; reflexivity);
        intros He; rewrite He in Hl; discriminate Hl).
  split; [exact Hne|].
  apply (insert_tx_stale_panics (E:=unit) gen stale (gtx 4) Hd gtx_valid Hne).
  - vm_compute. reflexivity.
  - exact stale_queue.
Defined.

Lemma malformed_tx_panics_witness :
  TxPoolManager.insert_tx (E:=unit) gen small (Transaction.new genesis_addr 1 0 0 [] []) = Panic.
Proof.
  destruct (is_ok_inv (TxPoolManager.head_account (E:=TxPoolError) gen genesis_addr)) as [a Ha];
    [vm_compute; reflexivity|].
  exact (proj1 (malformed_tx_panics (E:=unit) gen small (Transaction.new genesis_addr 1 0 0 [] []) a
    Ha eq_refl)).
Defined.

Lemma queued_never_pending_witness :
  ∃ s', run_ops (E:=unit) stale [(gen, ResetPool (genesis gen)); (gen, AddTx (gtx 4))] = Ok s' ∧
        pending s' !! Transaction.hash (gtx 3) = None.
Proof.
  destruct (is_ok_inv (run_ops (E:=unit) stale [(gen, ResetPool (genesis gen)); (gen, AddTx (gtx 4))]))
    as [s' Hs']; [vm_compute; reflexivity|].
  exists s'. split; [exact Hs'|].
  apply (queued_never_pending _ stale s' (Transaction.hash (gtx 3)) (gtx 3)) in Hs' as [Hn _].
  - exact Hn.
  - vm_compute. reflexivity.
  - vm_compute. reflexivity.
  - constructor; [intros []|]. constructor; [|constructor].
    apply (bool_decide_ne hash_bytes). vm_compute. reflexivity.
Defined.
End TxPoolWitnesses.
