(* ===== verification/ChainService.v ===== *)
(** * ChainService: what the network layer uses of the block chain

    The sync and message-handling threads share one [BlockChain] behind a lock
    and only read its head, look blocks up and import blocks.  This is that
    interface with what its clients rely on, and [BlockChain] as an instance. *)
From S2P Require Import Prelude Hashing Types Codec Keys Store State StateExample.
From S2P Require Import Transaction Storage Balance Block Executor Staking Runtime ChainStore BlockChain.

Class ChainService (C : Type) : Type := {
  cs_current_block : ∀ {E : Type}, C → Outcome E Block;
  cs_genesis_hash : C → Hash;
  cs_get_block : ∀ {E : Type}, C → Hash → Outcome E (option Block);
  cs_get_block_by_number : ∀ {E : Type}, C → Z → Outcome E (option Block);
  cs_import_block : C → Block → Outcome (BlockChainErrorKind * C) C;
}.
#[global] Hint Mode ChainService ! : typeclass_instances.

(** [cs_holds c bs]: the chain [c] holds exactly the blocks [bs], newest first;
    [cs_admissible c b]: the height of [b] fits its type and its hash is not that
    of a different block. *)
Class ChainServiceLaws (C : Type) `{ChainService C, Blake2b, Bincode Header} : Type := {
  cs_holds : C → list Block → Prop;
  cs_admissible : C → Block → Prop;
  cs_nonempty c bs : cs_holds c bs → ∃ p bs', bs = p :: bs';
  cs_heights c bs i b : cs_holds c bs → bs !! i = Some b →
    height (header b) = Z.of_nat (length bs) - 1 - Z.of_nat i;
  cs_current_spec {E} c p bs : cs_holds c (p :: bs) → cs_current_block (E:=E) c = Ok p;
  cs_number_spec {E} c bs n : cs_holds c bs → in_u 64 n →
    cs_get_block_by_number (E:=E) c n =
      Ok (if decide (n < Z.of_nat (length bs)) then bs !! Z.to_nat (Z.of_nat (length bs) - 1 - n) else None);
  cs_block_spec {E} c bs h : cs_holds c bs →
    (∃ b, b ∈ bs ∧ Block.hash b = h ∧ cs_get_block (E:=E) c h = Ok (Some b)) ∨
    (h ∉ Block.hash <$> bs ∧ cs_get_block (E:=E) c h = Ok None);
  (* a block is added at the head or the chain stays as it was *)
  cs_import_spec c p bs b : cs_holds c (p :: bs) → cs_admissible c b →
    match cs_import_block c b with
    | Ok c' => cs_holds c' (b :: p :: bs) ∧ parent_hash (header b) = Block.hash p
    | Err (_, c') => cs_holds c' (p :: bs)
    | Panic => True
    end;
  (* known heights and strangers are turned away *)
  cs_import_known c p bs b : cs_holds c (p :: bs) → cs_admissible c b →
    height (header b) ≤ height (header p) → cs_import_block c b = Err (KnownBlock, c);
  cs_import_stranger c p bs b : cs_holds c (p :: bs) → cs_admissible c b →
    parent_hash (header b) ≠ Block.hash p → ∃ e, cs_import_block c b = Err (e, c);
}.

(** ** [BlockChain] provides it *)
Section BlockChainService.
Context {D M TM R : Type} {node_hash : bytes → Hash}.
Context `{P : Profile, KL : KVDBLaws D, MM : MemoryDB M, TO : !TrieOps (ArchiveDB D M) TM}.
Context `{MLL : !MemoryDBLaws M node_hash, TL : !TrieLaws D M TM node_hash}.
Context `{IO : IterOrder, !IterOrderLaw, RL : RocksDBLaws R, HB : Blake2bLaws, ED : Ed25519, HX : Hex}.
Context `{BA : BincodeLaws Account, BT : Bincode MsgTransfer, BX : Bincode TxHashType}.
Context `{BE : Bincode ListEntry, BTX : Bincode (list Transaction), BSG : Bincode (list VerificationItem)}.
Context `{BHD : BincodeLaws Header, BBK : BincodeLaws Block}.

#[global] Instance blockchain_service : ChainService (BlockChain D M R) := {|
  cs_current_block E bc := BlockChain.current_block bc;
  cs_genesis_hash bc := BlockChain.genesis_hash bc;
  cs_get_block E bc h := BlockChain.get_block bc h;
  cs_get_block_by_number E bc n := BlockChain.get_block_by_number bc n;
  cs_import_block bc b := BlockChain.import_block bc b;
|}.

Lemma inv_get_by_number {E} (bc : BlockChain D M R) bs n :
  chain_inv bc bs → in_u 64 n →
  BlockChain.get_block_by_number (E:=E) bc n =
    Ok (if decide (n < Z.of_nat (length bs)) then bs !! Z.to_nat (Z.of_nat (length bs) - 1 - n) else None).
Proof.
  intros Hi Hn. unfold BlockChain.get_block_by_number, ChainDB.get_block_by_number. unfold in_u in Hn.
  case_decide as Hlt.
  - pose proof (lookup_lt_is_Some_2 bs (Z.to_nat (Z.of_nat (length bs) - 1 - n))) as [b Hb]; [lia|].
    rewrite Hb. pose proof (chain_ok_heights _ _ (ci_ok _ _ Hi) _ _ Hb) as Hh.
    rewrite Z2Nat.id in Hh by lia.
    pose proof (Forall_lookup_1 _ _ _ _ (ci_stored _ _ Hi) Hb) as (Hsb & _ & Hsn).
    replace (height (header b)) with n in Hsn by lia.
    rewrite (get_header_hash_Some _ _ (Block.hash b)); [|apply header_hash_wf|done].
    rewrite bind_Ok. by rewrite (get_block_Some _ _ _ Hsb).
  - rewrite get_header_hash_None; [done|]. apply (ci_index _ _ Hi); [done|lia].
Qed.

Lemma import_spec (bc : BlockChain D M R) p bs b :
  chain_inv bc (p :: bs) → in_u 64 (height (header b)) ∧ no_collision bc b →
  match BlockChain.import_block bc b with
  | Ok c' => chain_inv c' (b :: p :: bs) ∧ parent_hash (header b) = Block.hash p
  | Err (_, c') => chain_inv c' (p :: bs)
  | Panic => True
  end.
Proof.
  intros Hi [Hb Hnc]. rewrite (import_block_checks bc p bs b Hi Hb).
  destruct (precheck p bs b) eqn:Hpre; [done|].
  assert (parent_hash (header b) = Block.hash p).
  { unfold precheck in Hpre. by repeat case_decide. }
  destruct (chain_ok_root _ _ _ (ci_ok _ _ Hi)) as [m Hm].
  pose proof (import_checked_spec bc p bs b m Hi Hb Hnc Hm Hpre) as Hs.
  destruct (map_exec (txs b) m); [|by rewrite Hs..].
  by destruct Hs as [(c' & -> & Hc)|(c' & -> & _ & Hc & _)].
Qed.

(** An empty block that passes the checks and keeps the state is accepted. *)
Lemma import_empty (bc : BlockChain D M R) p bs b :
  chain_inv bc (p :: bs) → in_u 64 (height (header b)) → no_collision bc b →
  precheck p bs b = None → txs b = [] → Block.state_root b = Block.state_root p →
  ∃ bc', BlockChain.import_block bc b = Ok bc' ∧ chain_inv bc' (b :: p :: bs).
Proof.
  intros Hi Hb Hnc Hpre Htx Hroot. rewrite (import_block_checks bc p bs b Hi Hb), Hpre.
  destruct (chain_ok_root _ _ _ (ci_ok _ _ Hi)) as [m Hm].
  pose proof (import_checked_spec bc p bs b m Hi Hb Hnc Hm Hpre) as Hs. rewrite Htx in Hs.
  destruct Hs as [Hs|(bc' & _ & _ & _ & Hno)]; [exact Hs|].
  exfalso. apply (Hno (kv_map (backend (state_backend bc)))). by rewrite Hroot.
Qed.

#[global] Instance blockchain_service_laws : ChainServiceLaws (BlockChain D M R).
Proof.
  refine {| cs_holds := chain_inv; cs_admissible bc b := in_u 64 (height (header b)) ∧ no_collision bc b |}.
  - intros c bs Hi. exact (chain_ok_head _ _ (ci_ok _ _ Hi)).
  - intros c bs i b Hi. apply (chain_ok_heights _ _ (ci_ok _ _ Hi)).
  - intros E c p bs. apply inv_current.
  - intros E c bs n. apply inv_get_by_number.
  - intros E c bs h. apply inv_get_block.
  - exact import_spec.
  - intros c p bs b Hi [Hb _] Hle. simpl. rewrite (import_block_checks c p bs b Hi Hb). unfold precheck.
    rewrite decide_True; [done|]. rewrite (chain_ok_heights _ _ (ci_ok _ _ Hi) O p eq_refl) in Hle. lia.
  - intros c p bs b Hi [Hb _] Hne. simpl. rewrite (import_block_checks c p bs b Hi Hb). unfold precheck.
    case_decide; [by eexists|]. rewrite decide_True by done. by eexists.
Defined.
End BlockChainService.
