(* ===== verification/Restart.v ===== *)
(** * Restart: the chain over the life of its databases (src/chain/src/blockchain.rs, store.rs)

    The databases outlive the process.  [BlockChain::load] finds a chain in them or sets
    the genesis block up.  An import executes the block, commits its state and then makes
    four writes to the block database one after the other; a process that dies in between
    leaves the first few of them.  This file says what the next start makes of that. *)
From S2P Require Import Prelude Hashing Types Codec Keys Store State StateExample Transaction Storage Balance Block Executor.
From S2P Require Import Staking Runtime ChainStore BlockChain ChainService.

Section Writes.
Context {R : Type} `{RocksDB R, Blake2b, Bincode Header, Bincode Block}.
Implicit Types (c : ChainDB R) (b : Block).

(** What importing a block writes, in order. *)
Definition writes b : list (bytes * bytes) :=
  [(ChainDB.header_hash_key (height (header b)), hash_bytes (Block.hash b));
   (ChainDB.header_key (hash_bytes (Block.hash b)), serialize (header b));
   (ChainDB.block_key (Block.hash b), serialize b);
   (ChainDB.head_key, hash_bytes (Block.hash b))].
Fixpoint put_all c (l : list (bytes * bytes)) : Outcome IoError (ChainDB R) :=
  match l with [] => Ok c | (k, v) :: l => c ← ChainDB.put c k v; put_all c l end.
Lemma writes_all c b :
  (c ← ChainDB.write_block c b; ChainDB.write_head_hash c (Header.hash (header b))) = put_all c (writes b).
Proof.
  unfold ChainDB.write_block, ChainDB.write_header, ChainDB.write_header_hash, ChainDB.write_head_hash, writes. cbn [put_all].
  unfold Hash.to_slice, Block.hash. repeat (destruct (ChainDB.put _ _ _); [rewrite !bind_Ok|done..]). done.
Qed.
End Writes.

Section WriteFacts.
Context {R : Type} `{RL : RocksDBLaws R, HB : Blake2bLaws, BH : BincodeLaws Header, BB : BincodeLaws Block}.
Implicit Types (c : ChainDB R) (b : Block) (m : gmap bytes bytes).

Definition put_map m (l : list (bytes * bytes)) : gmap bytes bytes := foldl (λ m x, <[x.1 := x.2]> m) m l.
Lemma put_all_spec c l : ∃ c', put_all c l = Ok c' ∧ cmap c' = put_map (cmap c) l.
Proof.
  revert c. induction l as [|[k v] l IH]; intros c; [by exists c|]. cbn [put_all].
  destruct (put_spec c k v) as (c1 & -> & Hm). rewrite bind_Ok. destruct (IH c1) as (c' & Hp & Hc).
  exists c'. split; [done|]. by rewrite Hc, Hm.
Qed.
(** Writing everything makes what was under the keys before irrelevant. *)
Lemma put_map_agree m m' l : (∀ k, k ∉ l.*1 → m !! k = m' !! k) → put_map m l = put_map m' l.
Proof.
  revert m m'. induction l as [|[k v] l IH]; intros m m' Hm; [apply map_eq; intros k; apply Hm, not_elem_of_nil|].
  apply IH. intros k' Hk'. destruct (decide (k' = k)) as [->|Hne]; [by rewrite !lookup_insert_eq|].
  rewrite !lookup_insert_ne by done. apply Hm. rewrite fmap_cons. by apply not_elem_of_cons.
Qed.
Lemma put_map_other m l k : k ∉ l.*1 → put_map m l !! k = m !! k.
Proof.
  revert m. induction l as [|[k' v] l IH]; intros m Hk; [done|]. rewrite fmap_cons in Hk. apply not_elem_of_cons in Hk as [Hne Hk].
  unfold put_map in *. cbn [foldl fst snd]. rewrite IH by done. by rewrite lookup_insert_ne.
Qed.
Lemma put_map_again m l k : put_map (put_map m (take k l)) l = put_map m l.
Proof.
  apply put_map_agree. intros x Hx. apply put_map_other. intros Hin. apply Hx.
  rewrite fmap_take in Hin. by apply elem_of_take in Hin as (i & Hi & _); apply list_elem_of_lookup_2 in Hi.
Qed.

(** What a prefix of the writes leaves of the head, of other blocks and other heights,
    and of the block itself. *)
Lemma partial_reads m b k :
  (k < 4)%nat →
  let m' := put_map m (take k (writes b)) in
  m' !! ChainDB.head_key = m !! ChainDB.head_key ∧
  (∀ h, h ≠ Block.hash b → m' !! ChainDB.block_key h = m !! ChainDB.block_key h) ∧
  (∀ n, in_u 64 n → in_u 64 (height (header b)) → n ≠ height (header b) →
     m' !! ChainDB.header_hash_key n = m !! ChainDB.header_hash_key n) ∧
  m' !! ChainDB.block_key (Block.hash b) = (if decide (k = 3%nat) then Some (serialize b) else m !! ChainDB.block_key (Block.hash b)) ∧
  m' !! ChainDB.header_hash_key (height (header b)) =
    (if decide (k = O) then m !! ChainDB.header_hash_key (height (header b)) else Some (hash_bytes (Block.hash b))).
Proof.
  intros Hk. assert (Hi : ∀ n, in_u 64 n → in_u 64 (height (header b)) → n ≠ height (header b) →
    ChainDB.header_hash_key (height (header b)) ≠ ChainDB.header_hash_key n).
  { intros n Hn Hb Hne Heq. apply Hne. by apply header_hash_key_inj. }
  assert (Hj : ∀ h, h ≠ Block.hash b → ChainDB.block_key (Block.hash b) ≠ ChainDB.block_key h).
  { intros h Hne Heq. apply Hne. symmetry. by apply block_key_inj. }
  destruct k as [|[|[|[|]]]]; [..|lia]; cbn [take writes put_map foldl fst snd]; split_and!; intros;
    repeat first [rewrite lookup_insert_eq | rewrite lookup_insert_ne by (done || auto)]; done.
Qed.
End WriteFacts.

(** ** Restarts *)
Section Crash.
Context {D M TM R : Type} `{P : Profile, KVDB D, MemoryDB M, TO : !TrieOps (ArchiveDB D M) TM}.
Context `{IterOrder, RocksDB R, Blake2b, Ed25519, Hex, Bincode Account, Bincode MsgTransfer, Bincode TxHashType, Bincode ListEntry}.
Context `{Bincode (list Transaction), Bincode (list VerificationItem), Bincode Header, Bincode Block} {E : Type}.
Implicit Types (bc : BlockChain D M R).

(** The next start over the databases of a chain. *)
Definition restart bc : Outcome E (BlockChain D M R) :=
  BlockChain.load (BlockChain.new (M:=M) (bc_db bc) (backend (state_backend bc))).
(** The start after a process died in the import of [b] on top of [p], when the state was
    committed and [k] of the writes to the block database were made. *)
Definition crashed bc (p b : Block) (k : nat) : Outcome E (BlockChain D M R) :=
  r ← BlockChain.apply_transactions bc (Block.state_root p) b;
  c ← unwrap_res (put_all (bc_db r.1) (take k (writes b)));
  restart (BlockChain.set_db r.1 c).
End Crash.

Section RestartFacts.
Context {D M TM R : Type} {node_hash : bytes → Hash}.
Context `{P : Profile, KL : KVDBLaws D, MM : MemoryDB M, TO : !TrieOps (ArchiveDB D M) TM}.
Context `{MLL : !MemoryDBLaws M node_hash, TL : !TrieLaws D M TM node_hash}.
Context `{IO : IterOrder, !IterOrderLaw, RL : RocksDBLaws R, HB : Blake2bLaws, ED : Ed25519, HX : Hex}.
Context `{BA : BincodeLaws Account, BT : Bincode MsgTransfer, BX : Bincode TxHashType}.
Context `{BE : Bincode ListEntry, BTX : Bincode (list Transaction), BSG : Bincode (list VerificationItem)}.
Context `{BHD : BincodeLaws Header, BBK : BincodeLaws Block} {E : Type}.
Implicit Types (bc : BlockChain D M R) (c : ChainDB R) (p b : Block) (bs : list Block).

(** The invariant only looks at the contents of the databases. *)
Lemma chain_inv_ext bc bc' bs :
  mdb_entries (cached (state_backend bc')) = ∅ → kv_map (backend (state_backend bc')) = kv_map (backend (state_backend bc)) →
  cmap (bc_db bc') = cmap (bc_db bc) → chain_inv bc bs → chain_inv bc' bs.
Proof. intros Hc Hk Hm [Hc' Hok Hs Hh Ho Hx]. split; rewrite ?Hk, ?Hm; done. Qed.

Lemma last_number bs : (∃ p bs', bs = p :: bs') → bs !! Z.to_nat (Z.of_nat (length bs) - 1 - 0) = last bs.
Proof. intros _. rewrite last_lookup. f_equal. lia. Qed.

(** A clean stop. *)
Lemma restart_spec bc bs :
  chain_inv bc bs →
  ∃ bc', restart (E:=E) bc = Ok bc' ∧ chain_inv bc' bs ∧ last bs = Some (genesis bc') ∧
    bc_db bc' = bc_db bc ∧ state_backend bc' = ArchiveDB.new (backend (state_backend bc)).
Proof.
  intros Hi. set (bc0 := BlockChain.new (M:=M) (bc_db bc) (backend (state_backend bc))).
  assert (Hi0 : chain_inv bc0 bs) by (apply (chain_inv_ext bc); [apply mdb_entries_new|done..]).
  destruct (chain_ok_head _ _ (ci_ok _ _ Hi)) as (p & bs' & ->).
  unfold restart, BlockChain.load. fold bc0. rewrite (inv_get_by_number bc0 (p :: bs')) by (done || by vm_compute).
  rewrite bind_Ok, decide_True by (simpl; lia). rewrite last_number by eauto.
  destruct (last (p :: bs')) as [g|] eqn:Hg; [|by apply last_None in Hg].
  assert (Hi1 : chain_inv (BlockChain.set_genesis bc0 g) (p :: bs')) by (by apply (chain_inv_ext bc0); [apply mdb_entries_new|..]).
  rewrite (inv_current _ _ _ Hi1), bind_Ok. by eexists.
Qed.

(** ** A process that dies in an import *)

(** What can be read when a prefix of the writes of [b] was made. *)
Lemma damaged_reads {E'} bc p bs b k c :
  chain_inv bc (p :: bs) → Block.hash b ∉ Block.hash <$> p :: bs → in_u 64 (height (header b)) →
  height (header b) = Z.of_nat (length (p :: bs)) → (k < 4)%nat → cmap c = put_map (cmap (bc_db bc)) (take k (writes b)) →
  ChainDB.head_block (E:=E') c = Ok (Some p) ∧
  (∀ h, h ≠ Block.hash b → ChainDB.get_block (E:=E') c h = ChainDB.get_block (bc_db bc) h) ∧
  (∀ n, in_u 64 n → ChainDB.get_block_by_number (E:=E') c n =
     if decide (n = height (header b)) then Ok (if decide (k = 3%nat) then Some b else None)
     else ChainDB.get_block_by_number (bc_db bc) n).
Proof.
  intros Hi Hf Hb Hh Hk Hc. destruct (partial_reads (cmap (bc_db bc)) b k Hk) as (Hhd & Hbl & Hnu & Hown & Hnum).
  rewrite <-Hc in Hhd, Hbl, Hnu, Hown, Hnum.
  assert (Hbl' : ∀ h, h ≠ Block.hash b → ChainDB.get_block (E:=E') c h = ChainDB.get_block (bc_db bc) h).
  { intros h Hne. unfold ChainDB.get_block. by rewrite !cget, Hbl. }
  assert (Hp : Block.hash p ≠ Block.hash b) by (intros Heq; apply Hf; rewrite <-Heq; left).
  split_and!; [|done|].
  - pose proof (inv_current (E:=E') bc p bs Hi) as Hcur. unfold BlockChain.current_block, ChainDB.head_block in Hcur.
    unfold ChainDB.head_block. rewrite (head_hash_Some c (Block.hash p));
      [|apply header_hash_wf|rewrite Hhd; apply (ci_head _ _ Hi)]. rewrite bind_Ok, Hbl' by done.
    rewrite (head_hash_Some _ (Block.hash p)) in Hcur; [|apply header_hash_wf|apply (ci_head _ _ Hi)].
    rewrite bind_Ok in Hcur. apply bind_Ok_inv in Hcur as ([q|] & -> & Hq); [by injection Hq as ->|done].
  - intros n Hn. unfold ChainDB.get_block_by_number. destruct (decide (n = height (header b))) as [->|Hnb].
    + assert (Hno : cmap (bc_db bc) !! ChainDB.block_key (Block.hash b) = None) by (by apply (ci_only _ _ Hi)).
      destruct (decide (k = O)) as [->|Hk0].
      * rewrite get_header_hash_None; [by rewrite bind_Ok|]. rewrite Hnum. apply (ci_index _ _ Hi); [done|lia].
      * rewrite (get_header_hash_Some _ _ (Block.hash b)); [|apply header_hash_wf|exact Hnum]. rewrite bind_Ok.
        case_decide; [by apply get_block_Some|]. apply get_block_None. by rewrite Hown.
    + unfold ChainDB.get_header_hash. rewrite !cget, !bind_Ok, Hnu by done.
      destruct (cmap (bc_db bc) !! ChainDB.header_hash_key n) as [s|] eqn:Hs; [|done].
      destruct (decide (n < Z.of_nat (length (p :: bs)))) as [Hlt|Hge]; [|rewrite (ci_index _ _ Hi) in Hs by (done || lia); done].
      pose proof (lookup_lt_is_Some_2 (p :: bs) (Z.to_nat (Z.of_nat (length (p :: bs)) - 1 - n))) as [q Hq]; [unfold in_u in Hn; lia|].
      pose proof (chain_ok_heights _ _ (ci_ok _ _ Hi) _ _ Hq) as Hqh.
      pose proof (Forall_lookup_1 _ _ _ _ (ci_stored _ _ Hi) Hq) as (_ & _ & Hsn).
      unfold in_u in Hn. rewrite Z2Nat.id in Hqh by lia. replace (height (header q)) with n in Hsn by lia.
      rewrite Hs in Hsn. injection Hsn as ->. unfold copy_from_slice. rewrite decide_True by apply header_hash_wf.
      rewrite !bind_Ok. cbv [mret outcome_mret]. rewrite !bind_Ok. apply Hbl'.
      change (Block.hash q ≠ Block.hash b).
      intros Heq. apply Hf. rewrite <-Heq. apply list_elem_of_fmap_2. by eapply list_elem_of_lookup_2.
Qed.

Lemma precheck_height bc p bs b :
  chain_inv bc (p :: bs) → precheck p bs b = None → height (header b) = Z.of_nat (length (p :: bs)).
Proof.
  intros Hi Hpre. unfold precheck in Hpre. repeat case_decide; try done. rewrite (head_length bc p bs Hi) in *. simpl length in *. lia.
Qed.
(** An import that succeeds passed the checks and committed the state it announced. *)
Lemma import_ok_inv bc p bs b bc2 :
  chain_inv bc (p :: bs) → in_u 64 (height (header b)) → BlockChain.import_block bc b = Ok bc2 →
  precheck p bs b = None ∧ ∃ bc1 m m' c,
    put_all (bc_db bc1) (writes b) = Ok c ∧ bc2 = BlockChain.set_db bc1 c ∧
    (∀ E', BlockChain.apply_transactions (E:=E') bc (Block.state_root p) b = Ok (bc1, Block.state_root b)) ∧
    bc_db bc1 = bc_db bc ∧ chain_inv bc1 (p :: bs) ∧ map_exec (txs b) m = Ok m' ∧
    trie_rep (kv_map (backend (state_backend bc1))) (Block.state_root p) m ∧
    trie_rep (kv_map (backend (state_backend bc1))) (Block.state_root b) m'.
Proof.
  intros Hi Hb. rewrite (import_block_checks bc p bs b Hi Hb). destruct (precheck p bs b); [done|].
  destruct (chain_ok_root _ _ _ (ci_ok _ _ Hi)) as [m Hm].
  unfold import_checked, BlockChain.apply_transactions, Balance.new.
  assert (state_rep (BlockChain.state_at bc (Block.state_root p)) m) as Hs.
  { apply from_existing_rep; [apply Hi|done]. }
  pose proof (exec_block_state b _ m NULL_ROOT Hs) as Hex.
  destruct (Executor.exc_txs_in_block b _ _) as [[b' r]|e|], (map_exec (txs b) m) as [m'|e'|] eqn:Hme; try done.
  simpl in Hex. destruct Hex as [Hr Hsub]. cbn [unwrap_res]. rewrite bind_Ok. cbv [mret outcome_mret]. rewrite bind_Ok. cbn [fst snd].
  destruct (decide (Block.state_root b ≠ r)) as [|Hroot]; [done|]. apply dec_stable in Hroot. subst r.
  destruct (put_all_spec (bc_db (BlockChain.sync bc (treedb b'))) (writes b)) as (c & Hc & _). pose proof Hc as Hw. rewrite <-writes_all in Hw.
  apply bind_Ok_inv in Hw as (c1 & Hw1 & Hw2). rewrite Hw1. cbn [unwrap_res]. rewrite bind_Ok, Hw2. cbn [unwrap_res].
  rewrite bind_Ok. intros [= <-]. split; [done|].
  exists (BlockChain.sync bc (treedb b')), m, m', c. split_and!; [done|done|intros E'; cbn [unwrap_res]; by rewrite bind_Ok|done| |done| |done].
  - by eapply sync_inv.
  - by eapply trie_rep_mono.
Qed.

(** The next start sees the chain without the block, over a database that holds a prefix
    of its writes. *)
Lemma crash_start bc p bs b bc2 k :
  chain_inv bc (p :: bs) → in_u 64 (height (header b)) → no_collision bc b → BlockChain.import_block bc b = Ok bc2 → (k < 4)%nat →
  ∃ bcl c m m', crashed (E:=E) bc p b k = Ok (BlockChain.set_db bcl c) ∧ chain_inv bcl (p :: bs) ∧ bc_db bcl = bc_db bc ∧
    last (p :: bs) = Some (genesis bcl) ∧ cmap c = put_map (cmap (bc_db bc)) (take k (writes b)) ∧ map_exec (txs b) m = Ok m' ∧
    trie_rep (kv_map (backend (state_backend bcl))) (Block.state_root p) m ∧
    trie_rep (kv_map (backend (state_backend bcl))) (Block.state_root b) m'.
Proof.
  intros Hi Hb Hnc Himp Hk. destruct (import_ok_inv bc p bs b bc2 Hi Hb Himp) as (Hpre & bc1 & m & m' & _ & _ & _ & Ha & Hdb & Hi1 & He & Hmp & Hmb).
  destruct (restart_spec bc1 (p :: bs) Hi1) as (bcl & Hr & Hil & Hg & Hdl & Hsl).
  destruct (put_all_spec (bc_db bc1) (take k (writes b))) as (c & Hp & Hc). rewrite Hdb in Hp, Hc, Hdl.
  exists bcl, c, m, m'. rewrite Hsl. split_and!; try done. unfold crashed. rewrite Ha, bind_Ok. cbn [fst snd].
  rewrite Hdb, Hp. cbn [unwrap_res]. rewrite bind_Ok. revert Hr. unfold restart, BlockChain.load, BlockChain.set_db, BlockChain.new.
  unfold BlockChain.get_block_by_number, BlockChain.current_block, BlockChain.set_genesis. cbn [bc_db state_backend genesis backend].
  rewrite <-Hdb in Hc.
  pose proof (no_collision_fresh bc p bs b Hi Hnc ltac:(by rewrite Hpre)) as Hf.
  pose proof (precheck_height bc p bs b Hi Hpre) as Hlen.
  destruct (damaged_reads (E':=E) bc1 p bs b k c Hi1 Hf Hb Hlen Hk Hc) as (Hhead & _ & Hnum).
  rewrite Hnum by (by vm_compute). rewrite decide_False by (simpl length in Hlen; lia).
  pose proof (inv_current (E:=E) bc1 p bs Hi1) as Hcur. unfold BlockChain.current_block in Hcur. rewrite Hdb in Hcur |- *.
  destruct (ChainDB.get_block_by_number (bc_db bc) 0) as [[g|]|e|] eqn:Hz; try done.
  - rewrite !bind_Ok, Hhead, Hcur. by intros [= <-].
  - pose proof (inv_get_by_number (E:=E) bc (p :: bs) 0 Hi) as Hz'. unfold BlockChain.get_block_by_number in Hz'.
    rewrite Hz' in Hz by (by vm_compute). rewrite decide_True, last_number, Hg in Hz by (eauto || (simpl; lia)). done.
Qed.

(** The checks of an import over a damaged database: the height of the block is taken
    once the block is written. *)
Lemma import_damaged bc p bs b k c b' :
  chain_inv bc (p :: bs) → in_u 64 (height (header b)) → Block.hash b ∉ Block.hash <$> p :: bs →
  height (header b) = Z.of_nat (length (p :: bs)) → (k < 4)%nat →
  cmap c = put_map (cmap (bc_db bc)) (take k (writes b)) → in_u 64 (height (header b')) →
  BlockChain.import_block (BlockChain.set_db bc c) b' =
    if decide (k = 3%nat ∧ height (header b') = height (header b)) then Err (KnownBlock, BlockChain.set_db bc c) else
    match precheck p bs b' with
    | Some e => Err (e, BlockChain.set_db bc c)
    | None => import_checked (BlockChain.set_db bc c) p b'
    end.
Proof.
  intros Hi Hb Hf Hlen Hk Hc Hb'.
  pose proof (head_length bc p bs Hi) as Hp.
  assert (Hne : Block.hash p ≠ Block.hash b) by (intros Heq; apply Hf; rewrite <-Heq; left).
  pose proof (λ E', damaged_reads (E':=E') bc p bs b k c Hi Hf Hb Hlen Hk Hc) as Hr.
  rewrite (import_block_reads (BlockChain.set_db bc c) p bs b'
    (bool_decide (height (header b') < Z.of_nat (length (p :: bs)) ∨ (k = 3%nat ∧ height (header b') = height (header b))))).
  - destruct (decide (k = 3%nat ∧ _)) as [Hk3|Hk3]; [by rewrite bool_decide_true by auto|].
    case_bool_decide as Hlt; [|done]. destruct Hlt as [Hlt|]; [|done]. unfold precheck. by rewrite decide_True by exact Hlt.
  - intros E'. unfold BlockChain.exits_block. cbn [bc_db BlockChain.set_db]. destruct (Hr E') as (_ & _ & Hn). rewrite Hn by done.
    destruct (decide (height (header b') = height (header b))) as [He|He].
    + rewrite He. case_decide as Hk3; cbn; f_equal; symmetry; [apply bool_decide_true; auto|].
      apply bool_decide_false. intros [Hx|[Hx _]]; [simpl length in Hlen; lia|done].
    + pose proof (inv_exits (E:=E') bc (p :: bs) (Block.hash b') (height (header b')) Hi Hb') as Hx.
      unfold BlockChain.exits_block in Hx. rewrite Hx. f_equal. apply bool_decide_ext. split; [auto|by intros [?|[_ ?]]].
  - intros Hn%bool_decide_eq_false. lia.
  - intros E'. unfold BlockChain.current_block. cbn [bc_db BlockChain.set_db]. by rewrite (proj1 (Hr E')).
  - intros E'. unfold BlockChain.get_block. cbn [bc_db BlockChain.set_db]. rewrite (proj1 (proj2 (Hr E'))) by done.
    pose proof (ci_stored _ _ Hi) as [[Hsp _] _]%Forall_cons. exact (get_block_Some _ _ _ Hsp).
  - intros E'. unfold BlockChain.get_block. cbn [bc_db BlockChain.set_db].
    destruct (decide (parent_hash (header b') = Block.hash b)) as [He|He].
    + unfold ChainDB.get_block. rewrite cget, bind_Ok, Hc, He.
      destruct (partial_reads (cmap (bc_db bc)) b k Hk) as (_ & _ & _ & -> & _).
      case_decide; [rewrite deserialize_serialize; by eexists|]. rewrite (ci_only _ _ Hi) by done. by eexists.
    + rewrite (proj1 (proj2 (Hr E'))) by done.
      destruct (inv_get_block (E:=E') bc _ (parent_hash (header b')) Hi) as [(q & _ & _ & Hq)|[_ Hq]]; eauto.
  - intros Hn%bool_decide_eq_false. unfold in_u in *. simpl length in *. lia.
Qed.

(** An import over another block database makes the same writes there. *)
Lemma import_checked_db bc p b bc' c :
  import_checked bc p b = Ok bc' →
  cmap (bc_db bc') = put_map (cmap (bc_db bc)) (writes b) ∧
  ∃ c', import_checked (BlockChain.set_db bc c) p b = Ok (BlockChain.set_db bc' c') ∧ cmap c' = put_map (cmap c) (writes b).
Proof.
  unfold import_checked, BlockChain.apply_transactions. change (BlockChain.state_at (BlockChain.set_db bc c)) with (BlockChain.state_at bc).
  destruct (Executor.exc_txs_in_block b _ _) as [[b' r]|e|]; [|done..]. cbn [unwrap_res]. rewrite !bind_Ok.
  cbv [mret outcome_mret]. rewrite !bind_Ok. cbn [fst snd]. case_decide; [done|].
  destruct (write_block_map (bc_db bc) b) as (c1 & Hw1 & Hm1), (write_head_map c1 (Header.hash (header b))) as (c2 & Hw2 & Hm2).
  destruct (write_block_map c b) as (d1 & Hv1 & Hn1), (write_head_map d1 (Header.hash (header b))) as (d2 & Hv2 & Hn2).
  cbn [bc_db BlockChain.sync BlockChain.set_db]. rewrite Hw1, Hv1. cbn [unwrap_res]. rewrite !bind_Ok, Hw2, Hv2. cbn [unwrap_res].
  rewrite !bind_Ok. intros [= <-]. cbn [bc_db BlockChain.set_db]. rewrite Hm2, Hm1. split; [done|]. exists d2. split; [done|]. by rewrite Hn2, Hn1.
Qed.

(** Before the block itself is written, it can be imported again. *)
Lemma import_again bcl p bs b k c m m' :
  chain_inv bcl (p :: bs) → in_u 64 (height (header b)) → no_collision bcl b → precheck p bs b = None → (k < 3)%nat →
  cmap c = put_map (cmap (bc_db bcl)) (take k (writes b)) → map_exec (txs b) m = Ok m' →
  trie_rep (kv_map (backend (state_backend bcl))) (Block.state_root p) m →
  trie_rep (kv_map (backend (state_backend bcl))) (Block.state_root b) m' →
  ∃ bc', BlockChain.import_block (BlockChain.set_db bcl c) b = Ok bc' ∧ chain_inv bc' (b :: p :: bs).
Proof.
  intros Hi Hb Hnc Hpre Hk Hc He Hmp Hmb.
  pose proof (no_collision_fresh bcl p bs b Hi Hnc ltac:(by rewrite Hpre)) as Hf.
  rewrite (import_damaged bcl p bs b k c b Hi Hb Hf (precheck_height _ _ _ _ Hi Hpre) ltac:(lia) Hc Hb), decide_False by lia.
  rewrite Hpre. pose proof (import_checked_spec bcl p bs b m Hi Hb Hnc Hmp Hpre) as Hs. rewrite He in Hs.
  destruct Hs as [(bc' & Hok & Hi')|(bc' & _ & _ & _ & Hno)]; [|by destruct (Hno _ Hmb)].
  destruct (import_checked_db bcl p b bc' c Hok) as (Hm1 & c' & Hok' & Hm2). eexists. split; [exact Hok'|].
  apply (chain_inv_ext bc'); [apply Hi'|done| |done]. simpl bc_db. by rewrite Hm1, Hm2, Hc, put_map_again.
Qed.
End RestartFacts.

(** ** Properties *)
Section RestartProperties.
Context {D M TM R : Type} {node_hash : bytes → Hash}.
Context `{P : Profile, KL : KVDBLaws D, MM : MemoryDB M, TO : !TrieOps (ArchiveDB D M) TM}.
Context `{MLL : !MemoryDBLaws M node_hash, TL : !TrieLaws D M TM node_hash}.
Context `{IO : IterOrder, !IterOrderLaw, RL : RocksDBLaws R, HB : Blake2bLaws, ED : Ed25519, HX : Hex}.
Context `{BA : BincodeLaws Account, BT : Bincode MsgTransfer, BX : Bincode TxHashType}.
Context `{BE : Bincode ListEntry, BTX : Bincode (list Transaction), BSG : Bincode (list VerificationItem)}.
Context `{BHD : BincodeLaws Header, BBK : BincodeLaws Block} {E : Type}.
Implicit Types (bc : BlockChain D M R) (c : ChainDB R) (p b : Block) (bs : list Block).

(** C9: A node can be stopped and started at any time between imports: whatever blocks were
    offered to it, accepted or not, the next start finds the same chain with its state and
    its genesis block. *)
Theorem restart_keeps_chain bc bs bc' :
  chain_inv bc bs → rtc chain_step bc bc' →
  ∃ bs' bc'', restart (E:=E) bc' = Ok bc'' ∧ chain_inv bc' (bs' ++ bs) ∧ chain_inv bc'' (bs' ++ bs) ∧ last bs = Some (genesis bc'').
Proof.
  intros Hi Hs. assert (Hr : ∃ bs', chain_inv bc' (bs' ++ bs)).
  { revert bs Hi. induction Hs as [bc|bc1 bc2 bc3 Hst _ IH]; intros bs Hi; [by exists []|].
    destruct (chain_step_inv _ _ _ Hi Hst) as (bs1 & Hi1). destruct (IH _ Hi1) as (bs2 & Hi2).
    exists (bs2 ++ bs1). by rewrite <-app_assoc. }
  destruct Hr as [bs' Hi']. destruct (restart_spec (E:=E) bc' _ Hi') as (bc'' & Hr & Hi2 & Hg & _).
  exists bs', bc''. split_and!; [done..|].
  destruct (chain_ok_head _ _ (ci_ok _ _ Hi)) as (p & bs1 & ->). by rewrite last_app_cons in Hg.
Qed.

(** C8: A process that dies in an import, after [k] of the four writes to the block database:
    up to the second one the next start has the old head and takes the block again;
    after the third the block is found under its height while the head is still the old
    one, and from then on every block is refused, its own and any other; after the fourth
    the block is the head. *)
Theorem crash_during_import bc p bs b bc2 k :
  chain_inv bc (p :: bs) → in_u 64 (height (header b)) → no_collision bc b → BlockChain.import_block bc b = Ok bc2 → (k ≤ 4)%nat →
  ∃ bc', crashed (E:=E) bc p b k = Ok bc' ∧ last (p :: bs) = Some (genesis bc') ∧
    match k with
    | 0 | 1 | 2 => BlockChain.current_block (E:=E) bc' = Ok p ∧
        ∃ bc3, BlockChain.import_block bc' b = Ok bc3 ∧ chain_inv bc3 (b :: p :: bs)
    | 3 => BlockChain.current_block (E:=E) bc' = Ok p ∧
        ∀ b', in_u 64 (height (header b')) → ∃ e, BlockChain.import_block bc' b' = Err (e, bc')
    | _ => chain_inv bc' (b :: p :: bs)
    end%nat.
Proof.
  intros Hi Hb Hnc Himp Hk.
  destruct (import_ok_inv bc p bs b bc2 Hi Hb Himp) as (Hpre & bc1 & _ & _ & c4 & Hp4 & Hbc2 & Ha & _).
  destruct (decide (k = 4%nat)) as [->|Hne].
  - assert (Hi2 : chain_inv bc2 (b :: p :: bs)).
    { pose proof (import_spec bc p bs b Hi (conj Hb Hnc)) as Hs. rewrite Himp in Hs. apply Hs. }
    destruct (restart_spec (E:=E) bc2 _ Hi2) as (bc' & Hr & Hi' & Hg & _). exists bc'. split_and!; [|done|done].
    unfold crashed. rewrite Ha, bind_Ok. cbn [fst]. change (take 4 (writes b)) with (writes b). rewrite Hp4.
    cbn [unwrap_res]. by rewrite bind_Ok, <-Hbc2.
  - destruct (crash_start (E:=E) bc p bs b bc2 k Hi Hb Hnc Himp ltac:(lia)) as (bcl & c & m & m' & Hcr & Hil & Hdb & Hg & Hc & He & Hmp & Hmb).
    exists (BlockChain.set_db bcl c). split; [done|]. split; [done|]. rewrite <-Hdb in Hc.
    assert (Hncl : no_collision bcl b) by (unfold no_collision, BlockChain.get_block; by rewrite Hdb).
    pose proof (no_collision_fresh bcl p bs b Hil Hncl ltac:(by rewrite Hpre)) as Hf.
    pose proof (precheck_height bcl p bs b Hil Hpre) as Hlen.
    assert (Hcur : BlockChain.current_block (E:=E) (BlockChain.set_db bcl c) = Ok p).
    { unfold BlockChain.current_block. cbn [bc_db BlockChain.set_db].
      by rewrite (proj1 (damaged_reads (E':=E) bcl p bs b k c Hil Hf Hb Hlen ltac:(lia) Hc)). }
    assert (Hag : (k < 3)%nat → ∃ bc3, BlockChain.import_block (BlockChain.set_db bcl c) b = Ok bc3 ∧ chain_inv bc3 (b :: p :: bs)).
    { intros Hk3. by apply (import_again bcl p bs b k c m m'). }
    destruct k as [|[|[|[|]]]]; [auto with lia..| |lia]. split; [done|]. intros b' Hb'.
    rewrite (import_damaged bcl p bs b 3 c b' Hil Hb Hf Hlen ltac:(lia) Hc Hb'). case_decide as Hd; [by eexists|].
    destruct (precheck p bs b') eqn:Hpre'; [by eexists|].
    pose proof (precheck_height bcl p bs b' Hil Hpre'). destruct Hd. split; [done|lia].
Qed.

(** The same window is open when the genesis block is set up: with the block written and
    no head, every later start panics. *)
Theorem genesis_crash_panics c c' (d : D) g :
  cmap c = ∅ → height (header g) = 0 → put_all c (take 3 (writes g)) = Ok c' →
  BlockChain.load (E:=E) (BlockChain.new (M:=M) c' d) = Panic.
Proof.
  intros Hc Hg Hp. destruct (put_all_spec c (take 3 (writes g))) as (c1 & Hp1 & Hm). rewrite Hp in Hp1. injection Hp1 as <-.
  rewrite Hc in Hm. destruct (partial_reads ∅ g 3 ltac:(lia)) as (Hhd & _ & _ & Hown & Hnum). rewrite <-Hm in Hhd, Hown, Hnum.
  rewrite decide_True in Hown by done. rewrite decide_False, Hg in Hnum by done.
  unfold BlockChain.load, BlockChain.get_block_by_number, BlockChain.new. cbn [bc_db]. unfold ChainDB.get_block_by_number.
  rewrite (get_header_hash_Some _ _ (Block.hash g)) by (done || apply header_hash_wf).
  rewrite bind_Ok, (get_block_Some _ _ _ Hown), bind_Ok.
  unfold BlockChain.current_block, ChainDB.head_block, ChainDB.head_hash. cbn [bc_db BlockChain.set_genesis].
  by rewrite cget, Hhd, lookup_empty.
Qed.
End RestartProperties.

(** ** Worked examples: an import on top of the genesis block *)
Section RestartWitnesses.
Import BcEx.
Lemma b1_imports : ∃ bc, BlockChain.import_block gen b1 = Ok bc ∧ chain_inv bc [b1; genesis gen].
Proof. exact (import_empty gen (genesis gen) [] b1 gen_inv b1_height b1_no_collision b1_precheck eq_refl b1_root). Qed.

Lemma restart_keeps_chain_witness :
  ∃ bc bs' bc'', BlockChain.import_block gen b1 = Ok bc ∧ restart (E:=unit) bc = Ok bc'' ∧ chain_inv bc'' (bs' ++ [genesis gen]) ∧
    Some (genesis gen) = Some (genesis bc'').
Proof.
  destruct b1_imports as (bc & Hb & _).
  destruct (restart_keeps_chain (E:=unit) gen [genesis gen] bc gen_inv) as (bs' & bc'' & Hr & _ & Hi & Hg).
  - apply rtc_once. exact (step_import gen b1 bc b1_height b1_no_collision Hb).
  - exists bc, bs', bc''. split; [exact Hb|]. split; [exact Hr|]. split; [exact Hi|exact Hg].
Defined.

Lemma crash_during_import_witness :
  ∃ bc', crashed (E:=unit) gen (genesis gen) b1 3 = Ok bc' ∧ BlockChain.current_block (E:=unit) bc' = Ok (genesis gen) ∧
    ∃ e, BlockChain.import_block bc' b1 = Err (e, bc').
Proof.
  destruct b1_imports as (bc & Hb & _).
  destruct (crash_during_import (E:=unit) gen (genesis gen) [] b1 bc 3 gen_inv b1_height b1_no_collision Hb) as (bc' & Hc & _ & Hcur & Hno).
  - apply (bool_decide_eq_true_1 _). vm_compute. reflexivity.
  - exists bc'. split; [exact Hc|]. split; [exact Hcur|exact (Hno b1 b1_height)].
Defined.
End RestartWitnesses.
