(* ===== verification/SyncManager.v ===== *)
(** * SyncManager: the sync thread (src/network/src/sync/manager.rs)

    The sync manager receives messages from the message handler, drives the
    range sync, looks up the ancestors of orphan blocks, and is told by the block
    processor (src/network/src/sync/block_processor.rs) which batches are done.
    The chain is shared and passed along. *)
From S2P Require Import Prelude Hashing Types Codec Keys Transaction Block BlockChain ChainService.
From S2P Require Import Store State StateExample Runtime ChainStore Messages RangeSync RangeSyncInv.

Definition SLOT_IMPORT_TOLERANCE : Z := 20.

(** ** What a node knows of a peer's chain (src/network/src/handler_processor.rs) *)
Record PeerSyncInfo : Type := mkPeerSyncInfo {
  psi_genesis_hash : Hash;
  psi_finalized_root : Hash;
  psi_finalized_number : Z;
  psi_head_root : Hash;
  psi_network_id : Z;
}.

Section Status.
Context {C : Type} `{ChainService C, Blake2b, Bincode Header} {E : Type}.

(** [status_message] always has a message to return. *)
Definition local_status (c : C) : Outcome E StatusMessage :=
  block ← cs_current_block c;
  mret (mkStatusMessage (cs_genesis_hash c) (Block.hash block) (Block.block_height block)
          (Block.hash block) 31133).
Definition status_message (c : C) : Outcome E (option StatusMessage) := Some <$> local_status c.
End Status.

Module PeerSyncInfo.
Definition from (status : StatusMessage) : PeerSyncInfo :=
  mkPeerSyncInfo (genesis_hash status) (finalized_root status) (finalized_number status)
    (head_root status) (network_id status).
Definition from_chain {C} `{ChainService C, Blake2b, Bincode Header} {E} (c : C)
    : Outcome E (option PeerSyncInfo) :=
  o ← status_message (E:=E) c;
  mret (match o with Some status => Some (from status) | None => None end).
End PeerSyncInfo.

(** ** Messages and state *)
Module SyncMessage.
Inductive t (Peer : Type) : Type :=
  | AddPeer (p : Peer) (info : PeerSyncInfo)
  | BlocksByRangeResponse (p : Peer) (request_id : Z) (beacon_block : option Block)
  | BlocksByHashResponse (p : Peer) (request_id : Z) (block : option Block)
  | OrphanBlock (p : Peer) (block : Block)
  | Disconnect (p : Peer)
  | RPCError (p : Peer) (request_id : Z)
  | BatchProcessed (batch_id : Z) (downloaded_blocks : list Block) (result : BatchProcessResult).
Arguments AddPeer {Peer}. Arguments BlocksByRangeResponse {Peer}. Arguments BlocksByHashResponse {Peer}.
Arguments OrphanBlock {Peer}. Arguments Disconnect {Peer}. Arguments RPCError {Peer}. Arguments BatchProcessed {Peer}.
End SyncMessage.
Abbreviation SyncMessage := SyncMessage.t.

Record ParentRequests : Type := mkParentRequests {
  parent_blocks : list Block;       (* downloaded_blocks, the last one is popped first *)
  failed_attempts : Z;
}.
Record OrphanPool : Type := mkOrphanPool {
  parents : ParentRequests;
  orphan_roots : gmap Hash Block;
}.
Module OrphanPool.
Definition new : OrphanPool := mkOrphanPool (mkParentRequests [] 0) ∅.
Definition set_blocks (o : OrphanPool) (l : list Block) : OrphanPool :=
  mkOrphanPool (mkParentRequests l (failed_attempts (parents o))) (orphan_roots o).
End OrphanPool.

Module ManagerState.
Inductive t : Type := Syncing | Regular | Stalled.
End ManagerState.
Abbreviation ManagerState := ManagerState.t.

Record SyncManager (Peer MsgId : Type) `{Countable Peer} : Type := mkSyncManager {
  manager_state : ManagerState;
  sync_io : SyncIO Peer MsgId;        (* the network context, and the jobs spawned *)
  range_sync : RangeSync Peer;
  orphans : OrphanPool;
  full_peers : gset Peer;
}.
Arguments mkSyncManager {Peer MsgId _ _}. Arguments manager_state {Peer MsgId _ _}.
Arguments sync_io {Peer MsgId _ _}. Arguments range_sync {Peer MsgId _ _}.
Arguments orphans {Peer MsgId _ _}. Arguments full_peers {Peer MsgId _ _}.

(** ** The block processor *)
Module BlockProcessor.
Section BlockProcessor.
Context {C : Type} `{ChainService C} {E : Type}.

(** The loop ends at the first block that is not imported. *)
Fixpoint import_prefix (c : C) (downloaded_blocks : list Block) : Outcome E C :=
  match downloaded_blocks with
  | [] => Ok c
  | block :: rest =>
      match cs_import_block c block with
      | Ok c => import_prefix c rest
      | Err (_, c) => Ok c
      | Panic => Panic
      end
  end.
(** [Result<(), String>]. *)
Definition process_blocks (c : C) (downloaded_blocks : list Block) : Outcome E (C * (unit + bytes)) :=
  current ← cs_current_block c;
  c ← import_prefix c downloaded_blocks;
  mret (c, inl tt).
Definition spawn_block_processor {Peer} (c : C) (job : Z * list Block) : Outcome E (C * SyncMessage Peer) :=
  r ← process_blocks c job.2;
  let result := match r.2 with inl _ => Success | inr _ => Failed end in
  mret (r.1, SyncMessage.BatchProcessed job.1 job.2 result).
End BlockProcessor.
End BlockProcessor.

(** ** The manager *)
Module SyncManager.
Section SyncManager.
Context {C Peer MsgId : Type} `{ChainService C, Countable Peer, PO : !PeerOrder Peer}.
Context `{P : Profile, BatchDigest, Bincode (list Block), Blake2b, Bincode Header} {E : Type}.
Implicit Types (c : C) (m : SyncManager Peer MsgId) (p : Peer).

Definition set_state m x : SyncManager Peer MsgId := mkSyncManager x (sync_io m) (range_sync m) (orphans m) (full_peers m).
Definition set_range m (r : RangeSync Peer * SyncIO Peer MsgId) :=
  mkSyncManager (manager_state m) r.2 r.1 (orphans m) (full_peers m).
Definition set_net m (n : SyncNetworkContext Peer MsgId) : SyncManager Peer MsgId :=
  mkSyncManager (manager_state m) (mkIO n (io_jobs (sync_io m))) (range_sync m) (orphans m) (full_peers m).
Definition set_orphans m x : SyncManager Peer MsgId := mkSyncManager (manager_state m) (sync_io m) (range_sync m) x (full_peers m).
Definition set_full m x : SyncManager Peer MsgId := mkSyncManager (manager_state m) (sync_io m) (range_sync m) (orphans m) x.

(** [spawn], without the task it starts. *)
Definition new c : Outcome E (SyncManager Peer MsgId) :=
  current ← cs_current_block c;
  mret (mkSyncManager ManagerState.Stalled (mkIO SyncNetworkContext.new [])
          (RangeSync.new (Block.block_height current)) OrphanPool.new ∅).

Definition update_state m : SyncManager Peer MsgId :=
  set_state m (if RangeSync.is_syncing (range_sync m) then ManagerState.Syncing
               else if bool_decide (full_peers m = ∅) then ManagerState.Stalled
               else ManagerState.Regular).

Definition add_full_peer m p : SyncManager Peer MsgId := set_full m (full_peers m ∪ {[p]}).

Definition add_peer c m p (remote : PeerSyncInfo) : Outcome E (SyncManager Peer MsgId) :=
  local ← PeerSyncInfo.from_chain c;
  match local with
  | None => Ok m
  | Some local =>
      ahead ← sub_u 64 (psi_finalized_number remote) (psi_finalized_number local);
      let m := if decide (ahead < SLOT_IMPORT_TOLERANCE) then add_full_peer m p else m in
      current ← cs_current_block c;
      r ← RangeSync.add_peer (range_sync m) (sync_io m) p (psi_finalized_number remote)
            (psi_finalized_root remote) (Block.block_height current);
      mret (update_state (set_range m r))
  end.

Definition peer_disconnect m p : SyncManager Peer MsgId :=
  let m := set_range m (RangeSync.peer_disconnect (range_sync m) p, sync_io m) in
  update_state (set_full m (full_peers m ∖ {[p]})).

Definition request_for_block m p (block_hash : Hash) : Outcome E (SyncManager Peer MsgId) :=
  r ← SyncNetworkContext.blocks_by_hash_request (io_net (sync_io m)) p (mkBlocksByRootRequest [block_hash]);
  mret (set_net m r.1).

Definition push_orphan m (block : Block) : SyncManager Peer MsgId :=
  set_orphans m (OrphanPool.set_blocks (orphans m) (parent_blocks (parents (orphans m)) ++ [block])).

Definition add_unknown_block m p (block : Block) : Outcome E (SyncManager Peer MsgId) :=
  match orphan_roots (orphans m) !! Block.hash block with
  | Some _ => Ok m
  | None =>
      match parent_blocks (parents (orphans m)) with
      | [] => request_for_block (push_orphan m block) p (parent_hash (header block))
      | _ :: _ => Ok m
      end
  end.

(** Every waiting block is popped and offered to the chain, newest request first. *)
Fixpoint import_all c (l : list Block) : Outcome E C :=
  match l with
  | [] => Ok c
  | block :: l =>
      match cs_import_block c block with
      | Ok c => import_all c l
      | Err (_, c) => import_all c l
      | Panic => Panic
      end
  end.

Definition blocks_by_root_response c m p (block : option Block) : Outcome E (C * SyncManager Peer MsgId) :=
  match block with
  | None => Ok (c, m)
  | Some block =>
      _ ← cs_get_block c (Header.hash (header block));
      head ← cs_current_block c;
      if decide (parent_hash (header block) = Header.hash (header head)) then
        c ← import_all c (block :: rev (parent_blocks (parents (orphans m))));
        mret (c, set_orphans m (OrphanPool.set_blocks (orphans m) []))
      else
        m ← request_for_block (push_orphan m block) p (parent_hash (header block));
        mret (c, m)
  end.

(** One message of the input channel. *)
Definition handle c m (message : SyncMessage Peer) : Outcome E (C * SyncManager Peer MsgId) :=
  match message with
  | SyncMessage.AddPeer p info => m ← add_peer c m p info; mret (c, m)
  | SyncMessage.BlocksByRangeResponse p id beacon_block =>
      r ← RangeSync.blocks_by_range_response (range_sync m) (sync_io m) id beacon_block;
      mret (c, set_range m r)
  | SyncMessage.BlocksByHashResponse p id block => blocks_by_root_response c m p block
  | SyncMessage.Disconnect p => mret (c, peer_disconnect m p)
  | SyncMessage.RPCError p id => mret (c, m)
  | SyncMessage.OrphanBlock p block => m ← add_unknown_block m p block; mret (c, m)
  | SyncMessage.BatchProcessed id blocks result =>
      status ← local_status c;
      r ← RangeSync.handle_block_process_result (range_sync m) (sync_io m) id blocks result status;
      mret (c, set_range m r)
  end.

(** The messages that are there, each followed by an update of the state. *)
Fixpoint poll c m (messages : list (SyncMessage Peer)) : Outcome E (C * SyncManager Peer MsgId) :=
  match messages with
  | [] => Ok (c, m)
  | message :: messages => r ← handle c m message; poll r.1 (update_state r.2) messages
  end.
End SyncManager.
End SyncManager.

(** ** The block processor imports a prefix *)
Section ProcessorFacts.
Context {C : Type} `{CL : ChainServiceLaws C} {E : Type}.
Implicit Types (c : C) (bs l : list Block).

(** Each block of [l] is admissible on every chain that [bs] and a prefix of [l]
    make. *)
Definition admissible_run bs l : Prop :=
  ∀ c k b, cs_holds c (rev (take k l) ++ bs) → b ∈ l → cs_admissible c b.

Lemma admissible_run_cons bs b l : admissible_run bs (b :: l) → admissible_run (b :: bs) l.
Proof.
  intros Ha c k b' Hc Hb. apply (Ha c (S k)); [|set_solver]. simpl. by rewrite <-app_assoc.
Qed.
Lemma admissible_run_head bs b l c : admissible_run bs (b :: l) → cs_holds c bs → cs_admissible c b.
Proof. intros Ha Hc. apply (Ha c O); [done|set_solver]. Qed.

Lemma import_prefix_spec c p bs l :
  cs_holds c (p :: bs) → admissible_run (p :: bs) l →
  (∃ c' k, BlockProcessor.import_prefix (E:=E) c l = Ok c' ∧ (k ≤ length l)%nat ∧
     cs_holds c' (rev (take k l) ++ p :: bs)) ∨
  BlockProcessor.import_prefix (E:=E) c l = Panic.
Proof.
  revert c p bs. induction l as [|b l IH]; intros c p bs Hc Ha.
  { left. by exists c, O. }
  simpl. pose proof (cs_import_spec c p bs b Hc (admissible_run_head _ _ _ _ Ha Hc)) as Hi.
  destruct (cs_import_block c b) as [c1|[e c1]|]; [|left; exists c1, O; split_and!; [done|lia|done]|by right].
  destruct Hi as [Hi _].
  destruct (IH c1 b (p :: bs) Hi (admissible_run_cons _ _ _ Ha)) as [(c' & k & Hr & Hk & Hc')|Hr]; [|by right].
  left. exists c', (S k). split_and!; [done|simpl; lia|]. simpl. by rewrite <-app_assoc.
Qed.

(** A whole list of blocks that are all accepted. *)
Fixpoint import_each c l : option C :=
  match l with
  | [] => Some c
  | b :: l => match cs_import_block c b with Ok c => import_each c l | _ => None end
  end.

Lemma import_each_app c l l' : import_each c (l ++ l') = c ← import_each c l; import_each c l'.
Proof. revert c. induction l as [|b l IH]; intros c; simpl; [done|]. by destruct (cs_import_block c b). Qed.

Lemma import_each_prefix c l c' : import_each c l = Some c' → BlockProcessor.import_prefix (E:=E) c l = Ok c'.
Proof.
  revert c. induction l as [|b l IH]; intros c; simpl; [by intros [= <-]|].
  destruct (cs_import_block c b); naive_solver.
Qed.

Lemma import_each_holds c p bs l c' :
  cs_holds c (p :: bs) → admissible_run (p :: bs) l → import_each c l = Some c' → cs_holds c' (rev l ++ p :: bs).
Proof.
  revert c p bs. induction l as [|b l IH]; intros c p bs Hc Ha; simpl; [by intros [= <-]|].
  pose proof (cs_import_spec c p bs b Hc (admissible_run_head _ _ _ _ Ha Hc)) as Hi.
  destruct (cs_import_block c b) as [c1|[]|]; [|done..]. destruct Hi as [Hi _]. intros He.
  rewrite <-app_assoc. simpl. exact (IH c1 b (p :: bs) Hi (admissible_run_cons _ _ _ Ha) He).
Qed.
End ProcessorFacts.

(** ** Looking up the ancestors of an orphan *)
Section LookupFacts.
Context {C Peer MsgId : Type} `{CL : ChainServiceLaws C, Countable Peer, PO : !PeerOrder Peer}.
Context `{P : Profile, BatchDigest, Bincode (list Block)} {E : Type}.
Implicit Types (c : C) (m : SyncManager Peer MsgId) (p : Peer).

(** Requests for single blocks by their hash, with consecutive ids. *)
Fixpoint lookups p (id : Z) (hs : list Hash) : list (NetworkMessage Peer MsgId) :=
  match hs with
  | [] => []
  | h :: hs => NetworkMessage.P2P p (P2PEvent.Request id (P2PRequest.BlocksByRoot (mkBlocksByRootRequest [h]))) :: lookups p (id + 1) hs
  end.
(** The network context after [hs] were asked for. *)
Definition asked p (hs : list Hash) (n : SyncNetworkContext Peer MsgId) : SyncNetworkContext Peer MsgId :=
  mkNet true (request_id n + Z.of_nat (length hs)) (net_sent n ++ lookups p (request_id n) hs).
Lemma asked_nil p n : net_open n = true → asked p [] n = n.
Proof. destruct n; unfold asked; simpl. intros ->. by rewrite Z.add_0_r, app_nil_r. Qed.
Lemma asked_cons p h hs n : asked p hs (asked p [h] n) = asked p (h :: hs) n.
Proof. unfold asked. simpl. rewrite <- app_assoc. f_equal; lia. Qed.
Lemma request_for_block_spec m p h :
  net_open (io_net (sync_io m)) = true → 0 ≤ request_id (io_net (sync_io m)) → request_id (io_net (sync_io m)) + 1 < 2 ^ 64 →
  SyncManager.request_for_block (E:=E) m p h = Ok (SyncManager.set_net m (asked p [h] (io_net (sync_io m)))).
Proof.
  intros Ho ??. unfold SyncManager.request_for_block, SyncNetworkContext.blocks_by_hash_request.
  unfold SyncNetworkContext.send_rpc_request, add_u. rewrite arith_in by (unfold in_u; lia).
  rewrite bind_Ok. unfold SyncNetworkContext.send_rpc_event, SyncNetworkContext.try_send. cbn [net_open]. by rewrite Ho.
Qed.

(** Accepted blocks are all imported. *)
Lemma import_all_each c l c' : import_each c l = Some c' → SyncManager.import_all (E:=E) c l = Ok c'.
Proof.
  revert c. induction l as [|b l IH]; intros c; simpl; [by intros [= <-]|].
  destruct (cs_import_block c b); naive_solver.
Qed.

(** [ancestors h l]: [l] is a chain of blocks, the first of which names [h] as its parent. *)
Fixpoint ancestors (h : Hash) (l : list Block) : Prop :=
  match l with
  | [] => True
  | b :: l => parent_hash (header b) = h ∧ ancestors (Block.hash b) l
  end.

Definition answers p (l : list Block) : list (SyncMessage Peer) :=
  (λ b, SyncMessage.BlocksByHashResponse p 0 (Some b)) <$> l.

(** Blocks that are imported one after the other are linked. *)
Lemma import_each_ancestors c q bs l c' :
  cs_holds c (q :: bs) → admissible_run (q :: bs) l → import_each c l = Some c' → ancestors (Block.hash q) l.
Proof.
  revert c q bs. induction l as [|b l IH]; intros c q bs Hc Ha; simpl; [done|].
  pose proof (cs_import_spec c q bs b Hc (admissible_run_head _ _ _ _ Ha Hc)) as Hi.
  destruct (cs_import_block c b) as [c1|[]|]; [|done..]. destruct Hi as [Hi Hp]. intros He. split; [done|].
  exact (IH c1 b (q :: bs) Hi (admissible_run_cons _ _ _ Ha) He).
Qed.
Lemma ancestors_parents b l o :
  ancestors (Block.hash b) (l ++ [o]) → (λ x, parent_hash (header x)) <$> o :: rev l = Block.hash <$> rev l ++ [b].
Proof.
  intros Ha. assert (Hf : (λ x, parent_hash (header x)) <$> l ++ [o] = Block.hash <$> b :: l).
  { revert b Ha. induction l as [|x l IH]; intros b; simpl; [by intros [-> _]|]. intros [-> Ha]. f_equal. exact (IH x Ha). }
  apply (f_equal (@rev _)) in Hf. rewrite !rev_alt in Hf.
  fold (reverse ((λ x, parent_hash (header x)) <$> l ++ [o])) (reverse (Block.hash <$> b :: l)) in Hf.
  rewrite <- !fmap_reverse in Hf. unfold reverse in Hf. rewrite <- !rev_alt, rev_app_distr in Hf. exact Hf.
Qed.

(** The answers between the orphan and the oldest unknown block pile up, each
    asking for its parent. *)
Lemma lookup_answers c q bs m p l tail :
  cs_holds c (q :: bs) → Forall (λ b, parent_hash (header b) ≠ Block.hash q) l → net_open (io_net (sync_io m)) = true →
  0 ≤ request_id (io_net (sync_io m)) → request_id (io_net (sync_io m)) + Z.of_nat (length l) < 2 ^ 64 →
  ∃ m', SyncManager.poll (E:=E) c m (answers p l ++ tail) = SyncManager.poll c m' tail ∧
    orphans m' = OrphanPool.set_blocks (orphans m) (parent_blocks (parents (orphans m)) ++ l) ∧
    io_net (sync_io m') = asked p ((λ b, parent_hash (header b)) <$> l) (io_net (sync_io m)).
Proof.
  revert m. induction l as [|b l IH]; intros m Hc Hl Ho Hn0 Hn; simpl.
  { exists m. rewrite app_nil_r, asked_nil by done. split_and!; try done. by destruct (orphans m) as [[]]. }
  apply Forall_cons in Hl as [Hb Hl]. simpl length in Hn.
  assert (Hg : ∃ o, cs_get_block (E:=E) c (Header.hash (header b)) = Ok o).
  { destruct (cs_block_spec (E:=E) c (q :: bs) (Header.hash (header b)) Hc) as [(? & _ & _ & ->)|[_ ->]]; eauto. }
  destruct Hg as [o ->]. rewrite bind_Ok, (cs_current_spec _ _ _ Hc), bind_Ok.
  rewrite decide_False by exact Hb.
  rewrite request_for_block_spec by (done || (simpl; lia)). rewrite !bind_Ok. cbn [fst snd].
  edestruct (IH (SyncManager.update_state (SyncManager.set_net (SyncManager.push_orphan m b)
    (asked p [parent_hash (header b)] (io_net (sync_io (SyncManager.push_orphan m b))))))) as (m' & Hp & Hps & Hr);
    [done|done|done|simpl; lia|simpl; lia|].
  exists m'. split; [exact Hp|]. rewrite Hps, Hr. simpl. rewrite asked_cons, <-app_assoc. done.
Qed.
End LookupFacts.

(** ** Theorems *)
Section Theorems.
Context {C Peer MsgId : Type} `{CL : ChainServiceLaws C, Countable Peer, PO : !PeerOrder Peer}.
Context `{P : Profile, BatchDigest, Bincode (list Block)} {E : Type}.
Implicit Types (c : C) (m : SyncManager Peer MsgId) (p : Peer).

(** The block processor imports a prefix of the batch and reports success
    whatever happened: a failing import stops it, is not reported, and the rest
    of the batch is dropped.  In particular a batch that starts with a known
    block is dropped as a whole. *)
Theorem process_batch_prefix c q bs id l :
  cs_holds c (q :: bs) → admissible_run (q :: bs) l →
  (∃ c' k, BlockProcessor.spawn_block_processor (E:=E) (Peer:=Peer) c (id, l) =
       Ok (c', SyncMessage.BatchProcessed id l Success) ∧
     (k ≤ length l)%nat ∧ cs_holds c' (rev (take k l) ++ q :: bs) ∧
     (∀ b, head l = Some b → height (header b) ≤ height (header q) → c' = c)) ∨
  BlockProcessor.spawn_block_processor (E:=E) (Peer:=Peer) c (id, l) = Panic.
Proof.
  intros Hc Ha. unfold BlockProcessor.spawn_block_processor, BlockProcessor.process_blocks.
  rewrite (cs_current_spec _ _ _ Hc), bind_Ok. simpl snd.
  destruct (import_prefix_spec (E:=E) c q bs l Hc Ha) as [(c' & k & Hr & Hk & Hh)|Hr]; rewrite Hr; [|by right].
  left. exists c', k. split_and!; try done. intros b Hb Hle. destruct l as [|b' l]; [done|].
  injection Hb as ->. simpl in Hr.
  rewrite (cs_import_known c q bs b Hc (admissible_run_head _ _ _ _ Ha Hc) Hle) in Hr. by injection Hr.
Qed.

(** The lookup of an orphan up to the answers [l]: nothing is imported yet, and the
    parents of the orphan and of the answers have been asked for. *)
Lemma lookup_starts c q bs m p l orphan tail :
  cs_holds c (q :: bs) → Forall (λ b, parent_hash (header b) ≠ Block.hash q) l →
  orphans m = OrphanPool.new → net_open (io_net (sync_io m)) = true → 0 ≤ request_id (io_net (sync_io m)) →
  request_id (io_net (sync_io m)) + Z.of_nat (length l) + 1 < 2 ^ 64 →
  ∃ m', SyncManager.poll (E:=E) c m (SyncMessage.OrphanBlock p orphan :: answers p l ++ tail) = SyncManager.poll c m' tail ∧
    orphans m' = OrphanPool.set_blocks OrphanPool.new (orphan :: l) ∧
    io_net (sync_io m') = asked p ((λ b, parent_hash (header b)) <$> orphan :: l) (io_net (sync_io m)).
Proof.
  intros Hc Hl Ho Hop Hn0 Hn.
  assert (Hor : SyncManager.handle (E:=E) c m (SyncMessage.OrphanBlock p orphan) =
    Ok (c, SyncManager.set_net (SyncManager.push_orphan m orphan) (asked p [parent_hash (header orphan)] (io_net (sync_io m))))).
  { simpl. unfold SyncManager.add_unknown_block. rewrite Ho. simpl. rewrite request_for_block_spec by (done || (simpl; lia)). done. }
  cbn [SyncManager.poll]. rewrite Hor, bind_Ok. cbn [fst snd]. set (m1 := SyncManager.update_state _).
  destruct (lookup_answers (E:=E) c q bs m1 p l tail) as (m2 & Hp & Hps & Hnet); [done|done|done|simpl; lia|simpl; lia|].
  exists m2. split; [exact Hp|]. rewrite Hps, Hnet. simpl. rewrite Ho, asked_cons. done.
Qed.

(** C32: An orphan arrives at a sync thread with no lookup under way, and the peer answers
    every request with the block that was asked for, back to a child of the head; the
    chain accepts these blocks in order.  Then the ancestors are asked for one by one:
    after the orphan and the first [k] answers exactly the first [k + 1] ancestors have
    been asked for from the peer, by their hashes and with consecutive request ids, and
    nothing has been imported.  With the last answer, the child of the head, the
    ancestors and the orphan are imported in order; no more is asked for, and the pool
    is free again. *)
Theorem parent_lookup_imports c q bs m p b1 l orphan c' :
  cs_holds c (q :: bs) → admissible_run (q :: bs) (b1 :: l ++ [orphan]) →
  import_each c (b1 :: l ++ [orphan]) = Some c' →
  Forall (λ b, parent_hash (header b) ≠ Block.hash q) l →
  orphans m = OrphanPool.new → net_open (io_net (sync_io m)) = true → 0 ≤ request_id (io_net (sync_io m)) →
  request_id (io_net (sync_io m)) + Z.of_nat (length l) + 1 < 2 ^ 64 →
  let older := rev l ++ [b1] in
  let id := request_id (io_net (sync_io m)) in
  (∀ k, (k ≤ length l)%nat → ∃ mk,
     SyncManager.poll (E:=E) c m (SyncMessage.OrphanBlock p orphan :: answers p (take k older)) = Ok (c, mk) ∧
     net_sent (io_net (sync_io mk)) = net_sent (io_net (sync_io m)) ++ lookups p id (Block.hash <$> take (S k) older)) ∧
  ∃ m', SyncManager.poll (E:=E) c m (SyncMessage.OrphanBlock p orphan :: answers p older) = Ok (c', m') ∧
    cs_holds c' (orphan :: rev l ++ b1 :: q :: bs) ∧ orphans m' = OrphanPool.new ∧
    net_sent (io_net (sync_io m')) = net_sent (io_net (sync_io m)) ++ lookups p id (Block.hash <$> older).
Proof.
  intros Hc Ha Hi Hl Ho Hop Hn0 Hn. cbv zeta.
  destruct (import_each_ancestors c q bs _ c' Hc Ha Hi) as [Hb1 Hpar%ancestors_parents].
  pose proof (import_each_holds c q bs _ c' Hc Ha Hi) as Hh.
  simpl in Hh. rewrite rev_app_distr in Hh. simpl in Hh. rewrite <-app_assoc in Hh.
  assert (Hlr : Forall (λ b, parent_hash (header b) ≠ Block.hash q) (rev l)) by (by apply List.Forall_rev).
  split.
  - intros k Hk. destruct (lookup_starts c q bs m p (take k (rev l)) orphan []) as (mk & Hp & _ & Hnet);
      [done|by apply Forall_take|done..|rewrite length_take, length_rev; lia|].
    rewrite app_nil_r in Hp. exists mk. rewrite take_app_le by (rewrite length_rev; lia). split; [exact Hp|].
    rewrite Hnet. unfold asked. cbn [net_sent]. do 2 f_equal. rewrite fmap_take, <- Hpar. simpl. by rewrite <- fmap_take.
  - destruct (lookup_starts c q bs m p (rev l) orphan (answers p [b1])) as (m2 & Hp & Hps & Hnet);
      [done..|rewrite length_rev; lia|].
    unfold answers in *. rewrite fmap_app, Hp. simpl.
    assert (Hg : ∃ o, cs_get_block (E:=E) c (Header.hash (header b1)) = Ok o).
    { destruct (cs_block_spec (E:=E) c (q :: bs) (Header.hash (header b1)) Hc) as [(? & _ & _ & ->)|[_ ->]]; eauto. }
    destruct Hg as [o ->]. rewrite bind_Ok, (cs_current_spec _ _ _ Hc), bind_Ok, decide_True by exact Hb1.
    rewrite Hps. simpl. rewrite rev_involutive.
    pose proof (import_all_each (E:=E) c _ c' Hi) as Hall. simpl in Hall. rewrite Hall. simpl.
    eexists. split; [done|]. split_and!; [done|done|]. simpl. rewrite Hnet, Hpar. done.
Qed.
(** Any message but the answer to a lookup. *)
Definition no_answer (x : SyncMessage Peer) : Prop :=
  match x with SyncMessage.BlocksByHashResponse _ _ (Some _) => False | _ => True end.

Lemma handle_keeps_orphans c m x c' m' :
  parent_blocks (parents (orphans m)) ≠ [] → no_answer x →
  SyncManager.handle (E:=E) c m x = Ok (c', m') → orphans m' = orphans m ∧ c' = c.
Proof.
  intros Hne Hx Hh. destruct x as [p info|p id b|p id [b|]|p b|p|p id|id l r]; simpl in Hh.
  - outcome_inv. unfold SyncManager.add_peer in Hx0. outcome_inv. case_match; outcome_inv; [|done].
    by case_decide.
  - outcome_inv. done.
  - done.
  - by injection Hh as <- <-.
  - outcome_inv. unfold SyncManager.add_unknown_block in Hx0. case_match; [by injection Hx0 as <-|].
    case_match; [done|]. by injection Hx0 as <-.
  - by injection Hh as <- <-.
  - by injection Hh as <- <-.
  - outcome_inv. done.
Qed.

(** While a lookup waits for its answer, every other orphan is ignored: the lookup
    of a peer that never answers, left or reported an error keeps the pool for
    ever, and nothing is imported. *)
Theorem lookup_blocks_other_orphans c m l c' m' :
  parent_blocks (parents (orphans m)) ≠ [] → Forall no_answer l →
  SyncManager.poll (E:=E) c m l = Ok (c', m') → orphans m' = orphans m ∧ c' = c.
Proof.
  intros Hne Hl. revert c m Hne. induction Hl as [|x l Hx Hl IH]; intros c m Hne Hp; simpl in Hp.
  { by injection Hp as <- <-. }
  apply bind_Ok_inv in Hp as ([c1 m1] & Hh & Hp).
  destruct (handle_keeps_orphans c m x c1 m1 Hne Hx Hh) as [Ho ->].
  destruct (IH c (SyncManager.update_state m1)) as [Ho' ->]; [by simpl; rewrite Ho|done|].
  split; [|done]. rewrite Ho'. done.
Qed.

(** A peer is announced with a height at or above the local one at that time; when
    the local chain has grown past it before the message is handled, the
    subtraction underflows and the thread panics. *)
Lemma add_peer_behind_panics c q bs m p info :
  P = Dev → cs_holds c (q :: bs) → psi_finalized_number info < height (header q) →
  SyncManager.handle (E:=E) c m (SyncMessage.AddPeer p info) = Panic.
Proof.
  intros HP Hc Hlt. simpl. unfold SyncManager.add_peer, PeerSyncInfo.from_chain, status_message, local_status.
  rewrite (cs_current_spec _ _ _ Hc). simpl. unfold sub_u.
  rewrite arith_panic; [done|done|]. unfold in_u, Block.block_height. lia.
Qed.
End Theorems.

(** ** Worked example: two blocks on top of the genesis block *)
Module SyncMgrEx.
Export BcEx SyncEx.
Definition g0 : Block := genesis gen.
Definition b2 : Block :=
  Block.new (mkHeader 2 (Block.hash b1) 0 [] (mkVRFProof [] []) Hash_default
    Hash_default (Block.state_root (genesis gen)) (GENESIS_TIME + 2)) [] [] [].
Lemma b2_fresh : Block.hash b2 ≠ Block.hash g0.
Proof. apply (bool_decide_ne hash_bytes). vm_compute. reflexivity. Qed.
Lemma b12_differ : Block.hash b1 ≠ Block.hash b2.
Proof. apply (bool_decide_ne hash_bytes). vm_compute. reflexivity. Qed.
Lemma b2_height : in_u 64 (height (header b2)).
Proof. by vm_compute. Qed.

(** Hashes tell the three blocks apart. *)
Lemma ex_no_collision (c : chain) bs b :
  chain_inv c bs → (∀ q, q ∈ bs → q = g0 ∨ q = b1 ∨ q = b2) → b = b1 ∨ b = b2 → no_collision c b.
Proof.
  intros Hc Hbs Hb b' Hg. destruct (inv_get_block (E:=unit) c bs (Block.hash b) Hc) as [(q & Hq & Hh & Hgq)|[_ Hn]].
  - rewrite Hg in Hgq. injection Hgq as ->.
    destruct (Hbs q Hq) as [->|[->| ->]], Hb as [->| ->].
    + destruct (b1_fresh (eq_sym Hh)).
    + destruct (b2_fresh (eq_sym Hh)).
    + exact eq_refl.
    + destruct (b12_differ Hh).
    + destruct (b12_differ (eq_sym Hh)).
    + exact eq_refl.
  - rewrite Hg in Hn. discriminate Hn.
Qed.
Lemma gen_holds : cs_holds gen [g0].
Proof. unfold blockchain_service_laws. cbn [cs_holds]. exact gen_inv. Qed.
Lemma elem_of_run {A} (q x y g : A) k : q ∈ rev (take k [x; y]) ++ [g] → q = g ∨ q = x ∨ q = y.
Proof. destruct k as [|[|[|k]]]; simpl; set_solver. Qed.
Lemma elem_of_pair {A} (q x y : A) : q ∈ [x; y] → q = x ∨ q = y.
Proof. set_solver. Qed.
Lemma ex_admissible : admissible_run (C:=chain) [g0] [b1; b2].
Proof.
  intros c k b Hc Hb. apply elem_of_pair in Hb. split.
  - destruct Hb as [->| ->]; [exact b1_height|exact b2_height].
  - refine (ex_no_collision c _ b Hc _ Hb). intros q Hq. exact (elem_of_run q b1 b2 g0 k Hq).
Qed.
(** Both blocks are accepted. *)
Lemma precheck_none p bs b :
  Z.of_nat (length (p :: bs)) ≤ height (header b) → parent_hash (header b) = Block.hash p →
  height (header b) = height (header p) + 1 → time (header p) < time (header b) →
  sign_root (header b) = get_hash_from_signs (block_signs b) → tx_root (header b) = get_hash_from_txs (txs b) →
  precheck p bs b = None.
Proof. intros. unfold precheck. by rewrite !decide_False by (auto; lia). Qed.
Lemma b1_facts : height (header b1) = 1 ∧ time (header b1) = GENESIS_TIME + 1.
Proof. split; exact eq_refl. Qed.
Lemma b2_facts : height (header b2) = 2 ∧ time (header b2) = GENESIS_TIME + 2.
Proof. split; exact eq_refl. Qed.
Lemma b2_parent : parent_hash (header b2) = Block.hash b1.
Proof. exact eq_refl. Qed.
Lemma b2_sign_root : sign_root (header b2) = get_hash_from_signs (block_signs b2).
Proof. exact eq_refl. Qed.
Lemma b2_tx_root : tx_root (header b2) = get_hash_from_txs (txs b2).
Proof. exact eq_refl. Qed.
Lemma b2_above : Z.of_nat (length [b1; g0]) ≤ height (header b2).
Proof. rewrite (proj1 b2_facts). simpl. lia. Qed.
Lemma b2_next : height (header b2) = height (header b1) + 1.
Proof. rewrite (proj1 b2_facts), (proj1 b1_facts). exact eq_refl. Qed.
Lemma b2_later : time (header b1) < time (header b2).
Proof. rewrite (proj2 b2_facts), (proj2 b1_facts). lia. Qed.
Lemma b2_precheck : precheck b1 [g0] b2 = None.
Proof. exact (precheck_none b1 [g0] b2 b2_above b2_parent b2_next b2_later b2_sign_root b2_tx_root). Qed.
Lemma gen_import_b1 : ∃ c, BlockChain.import_block gen b1 = Ok c ∧ chain_inv c [b1; g0].
Proof. exact (import_empty gen g0 [] b1 gen_inv b1_height b1_no_collision b1_precheck eq_refl b1_root). Qed.
Lemma new_state_root h l1 l2 l3 : Block.state_root (Block.new h l1 l2 l3) = hdr_state_root h.
Proof. by destruct h. Qed.
Lemma b2_root : Block.state_root b2 = Block.state_root b1.
Proof. unfold b2. rewrite new_state_root, b1_root. cbn [hdr_state_root]. exact eq_refl. Qed.
Lemma gen_import_each : ∃ c, import_each gen [b1; b2] = Some c.
Proof.
  destruct gen_import_b1 as (c1 & H1 & Hc1).
  destruct (import_empty c1 b1 [g0] b2 Hc1 b2_height) as (c2 & H2 & _);
    [|exact b2_precheck|exact eq_refl|exact b2_root|].
  { refine (ex_no_collision c1 _ b2 Hc1 _ (or_intror eq_refl)). intros q Hq. apply elem_of_pair in Hq as [->| ->]; auto. }
  exists c2. cbn [import_each]. unfold cs_import_block, blockchain_service. rewrite H1, H2. exact eq_refl.
Qed.
Definition m0 : SyncManager Z unit :=
  mkSyncManager ManagerState.Stalled (mkIO SyncNetworkContext.new []) (RangeSync.new 0) OrphanPool.new ∅.
Definition m1 : SyncManager Z unit := SyncManager.push_orphan m0 b2.
End SyncMgrEx.

Section SyncManagerWitnesses.
Import SyncMgrEx.

Lemma process_batch_prefix_witness :
  (∃ c' k, BlockProcessor.spawn_block_processor (E:=unit) (Peer:=Z) gen (1, [b1; b2]) =
       Ok (c', SyncMessage.BatchProcessed 1 [b1; b2] Success) ∧
     (k ≤ length [b1; b2])%nat ∧ cs_holds c' (rev (take k [b1; b2]) ++ [g0]) ∧
     (∀ b, head [b1; b2] = Some b → height (header b) ≤ height (header g0) → c' = gen)) ∨
  BlockProcessor.spawn_block_processor (E:=unit) (Peer:=Z) gen (1, [b1; b2]) = Panic.
Proof. apply (process_batch_prefix gen g0 [] 1 [b1; b2] gen_holds ex_admissible). Defined.

Lemma parent_lookup_imports_witness :
  ∃ c' m', SyncManager.poll (E:=unit) gen m0
      (SyncMessage.OrphanBlock 7 b2 :: answers 7 (rev [] ++ [b1])) = Ok (c', m') ∧
    cs_holds c' (b2 :: rev [] ++ [b1; g0]) ∧ orphans m' = OrphanPool.new ∧
    net_sent (io_net (sync_io m')) = lookups 7 0 [Block.hash b1].
Proof.
  destruct gen_import_each as [c' Hi].
  destruct (parent_lookup_imports (E:=unit) gen g0 [] m0 7 b1 [] b2 c' gen_holds ex_admissible Hi)
    as (_ & m' & Hp & Hh & Ho & Hs); [by constructor|reflexivity|reflexivity|simpl; lia|simpl; lia|].
  exists c', m'. split; [exact Hp|]. split; [exact Hh|]. split; [exact Ho|exact Hs].
Defined.

Lemma lookup_blocks_other_orphans_witness :
  ∃ c' m', SyncManager.poll (E:=unit) gen m1
      [SyncMessage.OrphanBlock 8 b1; SyncMessage.RPCError 7 0; SyncMessage.Disconnect 7] = Ok (c', m') ∧
    orphans m' = orphans m1 ∧ c' = gen.
Proof.
  destruct (SyncManager.poll (E:=unit) gen m1
      [SyncMessage.OrphanBlock 8 b1; SyncMessage.RPCError 7 0; SyncMessage.Disconnect 7]) as [[c' m']| |] eqn:Hp.
  - destruct (lookup_blocks_other_orphans (E:=unit) gen m1
      [SyncMessage.OrphanBlock 8 b1; SyncMessage.RPCError 7 0; SyncMessage.Disconnect 7] c' m') as [Ho Hc];
      [discriminate|repeat constructor|exact Hp|].
    exists c', m'. split; [reflexivity|]. split; [exact Ho|exact Hc].
  - exfalso. simpl in Hp. discriminate Hp.
  - exfalso. simpl in Hp. discriminate Hp.
Defined.
End SyncManagerWitnesses.
