(* ===== verification/Handler.v ===== *)
(** * Handler: messages from the network (src/network/src/handler.rs, handler_processor.rs)

    The message handler decodes what the network service received and the
    message processor acts on it: it answers requests from the chain, tells the
    sync thread about useful peers and downloaded blocks, imports gossiped blocks
    and passes gossiped transactions to the pool.  Messages to the network
    service and to the sync thread are appended to logs. *)
From S2P Require Import Prelude Hashing Types Codec Keys Transaction Block BlockChain ChainService.
From S2P Require Import Store State StateExample Storage Balance Runtime ChainStore TxPool Messages RangeSync RangeSyncInv SyncManager.

Definition QUEUE_GOSSIP_BLOCK : Z := 512.

(** ** Interfaces *)

(** [TxPoolManager::add_tx]. *)
Class PoolService (C Pool : Type) : Type :=
  ps_add_tx : ∀ {E : Type}, C → Pool → Transaction → Outcome E (Pool * bool).

(** The [priority_queue] crate: a map from blocks to priorities, from which a
    pair of the highest priority is popped. *)
Class BlockQueue (Q : Type) : Type := {
  bq_new : Q;
  bq_push : Q → Block → Z → Q;
  bq_pop : Q → option (Block * Z * Q);
  bq_len : Q → nat;
}.
Class BlockQueueLaws (Q : Type) `{BlockQueue Q} : Type := {
  bq_map : Q → gmap Block Z;
  bq_new_spec : bq_map bq_new = ∅;
  bq_push_spec q b z : bq_map (bq_push q b z) = <[b := z]> (bq_map q);
  bq_pop_spec q :
    match bq_pop q with
    | Some (b, z, q') => bq_map q !! b = Some z ∧ (∀ b' z', bq_map q !! b' = Some z' → z' ≤ z) ∧
                         bq_map q' = delete b (bq_map q)
    | None => bq_map q = ∅
    end;
  bq_len_spec q : bq_len q = size (bq_map q);
}.

(** Casts between [u64] and [i64], and negation of an [i64]. *)
Definition as_i64 (x : Z) : Z := if decide (x < 2 ^ 63) then x else x - 2 ^ 64.
Definition as_u64 (x : Z) : Z := x mod 2 ^ 64.
Definition neg_i64 `{P : Profile} {E} (x : Z) : Outcome E Z :=
  if decide (x = - 2 ^ 63) then (if overflow_checks then Panic else Ok x) else Ok (- x).

(** ** The channel to the network service *)
Record HandlerNetworkContext (Peer MsgId : Type) : Type := mkHandlerNet {
  hn_open : bool;
  hn_sent : list (NetworkMessage Peer MsgId);
}.
Arguments mkHandlerNet {Peer MsgId}. Arguments hn_open {Peer MsgId}. Arguments hn_sent {Peer MsgId}.

Module HandlerNetworkContext.
Section HandlerNetworkContext.
Context {Peer MsgId : Type} `{Bincode Block}.
Implicit Types (n : HandlerNetworkContext Peer MsgId) (p : Peer).

Definition new : HandlerNetworkContext Peer MsgId := mkHandlerNet true [].
Definition try_send n (x : NetworkMessage Peer MsgId) : HandlerNetworkContext Peer MsgId :=
  if hn_open n then mkHandlerNet true (hn_sent n ++ [x]) else n.
Definition send_rpc_event n p (e : P2PEvent) := try_send n (NetworkMessage.P2P p e).
(** The handler has no request ids of its own. *)
Definition send_rpc_request n p (r : P2PRequest) := send_rpc_event n p (P2PEvent.Request 0 r).
Definition send_rpc_response n p (id : Z) (r : P2PResponse) :=
  send_rpc_event n p (P2PEvent.Response id (P2PErrorResponse.Success r)).
Definition send_rpc_error_response n p (id : Z) (r : P2PErrorResponse) :=
  send_rpc_event n p (P2PEvent.Response id r).
Definition disconnect n p (reason : GoodbyeReason) :=
  try_send (send_rpc_request n p (P2PRequest.Goodbye reason)) (NetworkMessage.Disconnect p).
Definition broadcast_block n (b : Block) :=
  try_send n (NetworkMessage.Publish [GossipTopic.MapBlock] (PubsubMessage.Block (serialize b))).
End HandlerNetworkContext.
End HandlerNetworkContext.

(** ** The message processor *)
Record MessageProcessor (C Pool Q Peer MsgId : Type) : Type := mkProcessor {
  mp_chain : C;
  mp_tx_pool : Pool;
  mp_sync_open : bool;
  mp_sync : list (SyncMessage Peer);
  mp_net : HandlerNetworkContext Peer MsgId;
  mp_queue : Q;
}.
Arguments mkProcessor {C Pool Q Peer MsgId}. Arguments mp_chain {C Pool Q Peer MsgId}.
Arguments mp_tx_pool {C Pool Q Peer MsgId}. Arguments mp_sync_open {C Pool Q Peer MsgId}.
Arguments mp_sync {C Pool Q Peer MsgId}. Arguments mp_net {C Pool Q Peer MsgId}.
Arguments mp_queue {C Pool Q Peer MsgId}.

Module MessageProcessor.
Section MessageProcessor.
Context {C Pool Q Peer MsgId : Type} `{P : Profile, ChainService C, PoolService C Pool, BlockQueue Q}.
Context `{Blake2b, Bincode Header, Bincode Block} {E : Type}.
Abbreviation MP := (MessageProcessor C Pool Q Peer MsgId).
Implicit Types (s : MP) (p : Peer).

Definition set_chain s c : MP := mkProcessor c (mp_tx_pool s) (mp_sync_open s) (mp_sync s) (mp_net s) (mp_queue s).
Definition set_pool s x : MP := mkProcessor (mp_chain s) x (mp_sync_open s) (mp_sync s) (mp_net s) (mp_queue s).
Definition set_net s n : MP := mkProcessor (mp_chain s) (mp_tx_pool s) (mp_sync_open s) (mp_sync s) n (mp_queue s).
Definition set_queue s q : MP := mkProcessor (mp_chain s) (mp_tx_pool s) (mp_sync_open s) (mp_sync s) (mp_net s) q.

(** Without the sync thread it spawns. *)
Definition new (c : C) (pool : Pool) : MP :=
  mkProcessor c pool true [] HandlerNetworkContext.new bq_new.

Definition send_to_sync s (message : SyncMessage Peer) : MP :=
  if mp_sync_open s
  then mkProcessor (mp_chain s) (mp_tx_pool s) true (mp_sync s ++ [message]) (mp_net s) (mp_queue s) else s.

Definition on_disconnect s p : MP := send_to_sync s (SyncMessage.Disconnect p).
Definition on_rpc_error s p (id : Z) : MP := send_to_sync s (SyncMessage.RPCError p id).

Definition on_connect s p : Outcome E MP :=
  o ← status_message (mp_chain s);
  mret (match (o : option StatusMessage) with
        | Some status => set_net s (HandlerNetworkContext.send_rpc_request (mp_net s) p (P2PRequest.Status status))
        | None => s
        end).

Definition process_status s p (status : StatusMessage) : Outcome E MP :=
  let remote := PeerSyncInfo.from status in
  o ← PeerSyncInfo.from_chain (mp_chain s);
  mret (match (o : option PeerSyncInfo) with
        | None => s
        | Some local =>
            if decide (psi_network_id local ≠ psi_network_id remote) then
              set_net s (HandlerNetworkContext.disconnect (mp_net s) p GoodbyeReason.IrrelevantNetwork)
            else if decide (psi_finalized_number remote < psi_finalized_number local) then s
            else send_to_sync s (SyncMessage.AddPeer p remote)
        end).
Definition on_status_request s p (id : Z) (status : StatusMessage) : Outcome E MP :=
  o ← status_message (mp_chain s);
  let s := match (o : option StatusMessage) with
           | Some mine => set_net s (HandlerNetworkContext.send_rpc_response (mp_net s) p id (P2PResponse.Status mine))
           | None => s
           end in
  process_status s p status.
Definition on_status_response s p (status : StatusMessage) : Outcome E MP := process_status s p status.

(** The loop that answers a range request; [len] blocks were sent so far. *)
Fixpoint range_loop (fuel : nat) (c : C) (head_height count step p_id : Z) p
    (n : HandlerNetworkContext Peer MsgId) (len start : Z) : Outcome E (HandlerNetworkContext Peer MsgId) :=
  match fuel with
  | O => Ok n
  | S fuel =>
      if decide (head_height > start ∧ len = count) then Ok n else
      block ← cs_get_block_by_number c start;
      match block with
      | Some b =>
          let n := HandlerNetworkContext.send_rpc_response n p p_id (P2PResponse.BlocksByRange (serialize (b : Block))) in
          start ← add_u 64 start step;
          range_loop fuel c head_height count step p_id p n (len + 1) start
      | None => Ok n
      end
  end.
Definition on_blocks_by_range_request s p (id : Z) (req : BlocksByRangeRequest) : Outcome E MP :=
  if decide (step req = 0) then
    mret (set_net s (HandlerNetworkContext.disconnect (mp_net s) p GoodbyeReason.Fault))
  else
    current ← cs_current_block (mp_chain s);
    n ← range_loop (Z.to_nat (Block.block_height current) + 2) (mp_chain s) (Block.block_height current)
          (count req) (step req) id p (mp_net s) 0 (start_slot req);
    mret (set_net s (HandlerNetworkContext.send_rpc_error_response n p id
                       (P2PErrorResponse.StreamTermination ResponseTermination.BlocksByRange))).

Definition on_blocks_by_range_response s p (id : Z) (b : option Block) : MP :=
  send_to_sync s (SyncMessage.BlocksByRangeResponse p id b).
Definition on_blocks_by_root_response s p (id : Z) (b : option Block) : MP :=
  send_to_sync s (SyncMessage.BlocksByHashResponse p id b).

Fixpoint root_loop (c : C) (id : Z) p (n : HandlerNetworkContext Peer MsgId) (roots : list Hash)
    : Outcome E (HandlerNetworkContext Peer MsgId) :=
  match roots with
  | [] => Ok n
  | root :: roots =>
      o ← cs_get_block c root;
      root_loop c id p
        (match o with
         | Some b => HandlerNetworkContext.send_rpc_response n p id (P2PResponse.BlocksByRoot (serialize (b : Block)))
         | None => n
         end) roots
  end.
Definition on_blocks_by_root_request s p (id : Z) (req : BlocksByRootRequest) : Outcome E MP :=
  n ← root_loop (mp_chain s) id p (mp_net s) (block_roots req);
  mret (set_net s (HandlerNetworkContext.send_rpc_error_response n p id
                     (P2PErrorResponse.StreamTermination ResponseTermination.BlocksByRoot))).

(** The chain after an attempted import, and whether the block was accepted. *)
Definition import_block (c : C) (b : Block) : Outcome E (C * bool) :=
  match cs_import_block c b with
  | Ok c => Ok (c, true)
  | Err (_, c) => Ok (c, false)
  | Panic => Panic
  end.

(** The loop over the queue of gossiped blocks.  The height of the head is the
    one read before the loop. *)
Fixpoint gossip_loop (fuel : nat) s p (block : Block) (height current_height : Z) (find : bool)
    : Outcome E (MP * bool) :=
  match fuel with
  | O => Ok (s, find)
  | S fuel =>
      match bq_pop (mp_queue s) with
      | None => Ok (s, find)
      | Some (low, neg, q) =>
          let s := set_queue s q in
          h ← neg_i64 neg;
          let height_low := as_u64 h in
          next ← add_u 64 current_height 1;
          if decide (height_low > next) then
            let s := set_queue s (bq_push (mp_queue s) low neg) in
            far ← add_u 64 current_height SLOT_IMPORT_TOLERANCE;
            mret (if decide (height > far) then send_to_sync s (SyncMessage.OrphanBlock p block) else s, find)
          else if decide (height_low = next) then
            r ← import_block (mp_chain s) low;
            let s := set_chain s r.1 in
            if (r.2 : bool) then
              if decide (height_low = height) then gossip_loop fuel s p block height current_height true
              else gossip_loop fuel (set_net s (HandlerNetworkContext.broadcast_block (mp_net s) low))
                     p block height current_height find
            else mret (s, find)
          else gossip_loop fuel s p block height current_height find
      end
  end.
Definition on_block_gossip s p (block : Block) : Outcome E (MP * bool) :=
  current ← cs_current_block (mp_chain s);
  let height := Block.block_height block in
  let current_height := Block.block_height current in
  ahead ← sub_u 64 height current_height;
  if decide (ahead < QUEUE_GOSSIP_BLOCK) then
    priority ← neg_i64 (as_i64 height);
    let s := set_queue s (bq_push (mp_queue s) block priority) in
    gossip_loop (S (bq_len (mp_queue s))) s p block height current_height false
  else mret (s, false).

Definition on_transaction_gossip s p (tx : Transaction) : Outcome E (MP * bool) :=
  r ← ps_add_tx (mp_chain s) (mp_tx_pool s) tx;
  mret (set_pool s r.1, r.2).
End MessageProcessor.
End MessageProcessor.

(** ** The message handler *)
Module HandlerMessage.
Inductive t (Peer MsgId : Type) : Type :=
  | PeerDialed (p : Peer)
  | PeerDisconnected (p : Peer)
  | RPC (p : Peer) (e : P2PEvent)
  | PubsubMessage (id : MsgId) (p : Peer) (m : PubsubMessage).
Arguments PeerDialed {Peer MsgId}. Arguments PeerDisconnected {Peer MsgId}.
Arguments RPC {Peer MsgId}. Arguments PubsubMessage {Peer MsgId}.
End HandlerMessage.
Abbreviation HandlerMessage := HandlerMessage.t.

Module MessageHandler.
Section MessageHandler.
Context {C Pool Q Peer MsgId : Type} `{P : Profile, ChainService C, PoolService C Pool, BlockQueue Q}.
Context `{Blake2b, Bincode Header, Bincode Block, Bincode Transaction} {E : Type}.
Abbreviation MP := (MessageProcessor C Pool Q Peer MsgId).
Implicit Types (s : MP) (p : Peer).

Definition handle_rpc_error s p (id : Z) (error : P2PError) : MP := MessageProcessor.on_rpc_error s p id.

Definition handle_rpc_request s p (id : Z) (request : P2PRequest) : Outcome E MP :=
  match request with
  | P2PRequest.Status status => MessageProcessor.on_status_request s p id status
  | P2PRequest.Goodbye _ => mret (MessageProcessor.on_disconnect s p)
  | P2PRequest.BlocksByRange r => MessageProcessor.on_blocks_by_range_request s p id r
  | P2PRequest.BlocksByRoot r => MessageProcessor.on_blocks_by_root_request s p id r
  end.

(** A block that cannot be decoded is dropped. *)
Definition handle_rpc_response s p (id : Z) (r : P2PErrorResponse) : Outcome E MP :=
  match r with
  | P2PErrorResponse.InvalidRequest _ | P2PErrorResponse.ServerError _ | P2PErrorResponse.Unknown _ =>
      mret (handle_rpc_error s p id P2PError.P2PErrorResponse)
  | P2PErrorResponse.Success (P2PResponse.Status status) => MessageProcessor.on_status_response s p status
  | P2PErrorResponse.Success (P2PResponse.BlocksByRange d) =>
      mret (match deserialize d with
            | Some b => MessageProcessor.on_blocks_by_range_response s p id (Some b)
            | None => s
            end)
  | P2PErrorResponse.Success (P2PResponse.BlocksByRoot d) =>
      mret (match deserialize d with
            | Some b => MessageProcessor.on_blocks_by_root_response s p id (Some b)
            | None => s
            end)
  | P2PErrorResponse.StreamTermination ResponseTermination.BlocksByRange =>
      mret (MessageProcessor.on_blocks_by_range_response s p id None)
  | P2PErrorResponse.StreamTermination ResponseTermination.BlocksByRoot =>
      mret (MessageProcessor.on_blocks_by_root_response s p id None)
  end.

Definition handle_rpc_message s p (e : P2PEvent) : Outcome E MP :=
  match e with
  | P2PEvent.Request id r => handle_rpc_request s p id r
  | P2PEvent.Response id r => handle_rpc_response s p id r
  | P2PEvent.Error id e => mret (handle_rpc_error s p id e)
  end.

Definition propagate_message s (id : MsgId) p : MP :=
  MessageProcessor.set_net s (HandlerNetworkContext.try_send (mp_net s) (NetworkMessage.Propagate p id)).

(** Transactions are not passed on. *)
Definition handle_gossip s (id : MsgId) p (m : PubsubMessage) : Outcome E MP :=
  match m with
  | PubsubMessage.Block d =>
      match deserialize d with
      | Some b => r ← MessageProcessor.on_block_gossip s p b;
                  mret (if (r.2 : bool) then propagate_message r.1 id p else r.1)
      | None => mret s
      end
  | PubsubMessage.Transaction d =>
      match deserialize d with
      | Some tx => r ← MessageProcessor.on_transaction_gossip s p tx; mret r.1
      | None => mret s
      end
  | PubsubMessage.Unknown _ => mret s
  end.

Definition handle_message s (m : HandlerMessage Peer MsgId) : Outcome E MP :=
  match m with
  | HandlerMessage.PeerDialed p => MessageProcessor.on_connect s p
  | HandlerMessage.PeerDisconnected p => mret (MessageProcessor.on_disconnect s p)
  | HandlerMessage.RPC p e => handle_rpc_message s p e
  | HandlerMessage.PubsubMessage id p m => handle_gossip s id p m
  end.
End MessageHandler.
End MessageHandler.

(** [TxPoolManager] over a [BlockChain]. *)
Section PoolInstance.
Context {D M TM R : Type} `{P : Profile, KVDB D, MemoryDB M, TO : !TrieOps (ArchiveDB D M) TM}.
Context `{IterOrder, RocksDB R, Blake2b, Bincode Account, Bincode MsgTransfer, Bincode TxHashType}.
Context `{Bincode Header, Bincode Block}.
#[global] Instance tx_pool_service : PoolService (BlockChain D M R) TxPoolManager :=
  λ E bc pool tx, TxPoolManager.add_tx bc pool tx.
End PoolInstance.

(** ** Answering range requests *)
Section RangeFacts.
Context {C Pool Q Peer MsgId : Type} `{P : Profile, PS : PoolService C Pool, BQ : BlockQueue Q}.
Context `{CL : ChainServiceLaws C, BB : Bincode Block} {E : Type}.
Abbreviation MP := (MessageProcessor C Pool Q Peer MsgId).
Implicit Types (s : MP) (p : Peer) (bs : list Block).

(** The blocks of heights [start] to [start + k - 1], oldest first. *)
Definition heights bs (start : Z) (k : nat) : list Block := take k (drop (Z.to_nat start) (rev bs)).

(** How many blocks a request of step one gets when the head has height [h]: those
    asked for, but when the range ends at the head or beyond, all up to the head,
    which may be one too many. *)
Definition served (h start count : Z) : nat :=
  if decide (start + count < h) then Z.to_nat count else Z.to_nat (h + 1 - start).

Definition range_answer p (id : Z) (b : Block) : NetworkMessage Peer MsgId :=
  NetworkMessage.P2P p (P2PEvent.Response id (P2PErrorResponse.Success (P2PResponse.BlocksByRange (serialize b)))).
Definition range_end p (id : Z) : NetworkMessage Peer MsgId :=
  NetworkMessage.P2P p (P2PEvent.Response id (P2PErrorResponse.StreamTermination ResponseTermination.BlocksByRange)).

Lemma number_rev {E'} c bs n :
  cs_holds c bs → in_u 64 n → cs_get_block_by_number (E:=E') c n = Ok (rev bs !! Z.to_nat n).
Proof.
  intros Hc Hn. rewrite (cs_number_spec c bs n Hc Hn). f_equal. unfold in_u in Hn.
  assert (rev bs = reverse bs) as -> by apply rev_alt.
  case_decide.
  - rewrite reverse_lookup by lia. f_equal. lia.
  - symmetry. apply lookup_ge_None. rewrite length_reverse. lia.
Qed.

Lemma heights_S bs start k b :
  0 ≤ start → rev bs !! Z.to_nat start = Some b →
  heights bs start (S k) = b :: heights bs (start + 1) k.
Proof.
  intros Hs Hb. unfold heights. rewrite (drop_S _ _ _ Hb). simpl. do 3 f_equal. lia.
Qed.

Lemma range_loop_spec fuel c q bs count p id n len start :
  cs_holds c (q :: bs) → in_u 64 (height (header q) + 1) → in_u 64 start →
  len ≤ count ∨ (len = count + 1 ∧ start = height (header q) + 1) → hn_open n = true → height (header q) + 1 - start < Z.of_nat fuel →
  MessageProcessor.range_loop (E:=E) (MsgId:=MsgId) fuel c (height (header q)) count 1 id p n len start =
    Ok (mkHandlerNet true (hn_sent n ++
          (range_answer p id <$> heights (q :: bs) start (served (height (header q)) start (count - len))))).
Proof.
  intros Hc Hh. revert n len start. induction fuel as [|fuel IH]; intros n len start Hst Hlen Hopen Hf.
  { unfold served. simpl in *. unfold in_u in *. rewrite decide_False by lia.
    replace (Z.to_nat (height (header q) + 1 - start)) with O by lia. simpl. rewrite app_nil_r.
    destruct n; simpl in *; by subst. }
  assert (Hnil : Ok n = Ok (E:=E) (mkHandlerNet true (hn_sent n ++ []))).
  { rewrite app_nil_r. destruct n; simpl in *; by subst. }
  simpl. unfold in_u in *. case_decide as Hd.
  { unfold served. rewrite decide_True by lia. replace (Z.to_nat (count - len)) with O by lia. exact Hnil. }
  rewrite (number_rev c (q :: bs)) by done. rewrite bind_Ok.
  pose proof (cs_heights c (q :: bs) O q Hc eq_refl) as Hq. simpl length in Hq.
  destruct (rev (q :: bs) !! Z.to_nat start) as [b|] eqn:Hb.
  2:{ apply lookup_ge_None in Hb. rewrite length_rev in Hb. simpl in Hb.
      unfold served. rewrite decide_False by lia.
      replace (Z.to_nat (height (header q) + 1 - start)) with O by lia. exact Hnil. }
  apply lookup_lt_Some in Hb as Hlt. rewrite length_rev in Hlt. simpl in Hlt.
  unfold add_u. rewrite (arith_in 64 (start + 1)) by (unfold in_u; lia). rewrite bind_Ok.
  rewrite IH; [|unfold in_u; lia|lia|unfold HandlerNetworkContext.send_rpc_response,
    HandlerNetworkContext.send_rpc_event, HandlerNetworkContext.try_send; by rewrite Hopen|lia].
  unfold HandlerNetworkContext.send_rpc_response, HandlerNetworkContext.send_rpc_event,
    HandlerNetworkContext.try_send. rewrite Hopen. simpl. rewrite <-app_assoc. do 3 f_equal.
  assert (served (height (header q)) start (count - len) =
          S (served (height (header q)) (start + 1) (count - (len + 1)))) as ->.
  { unfold served. repeat case_decide; lia. }
  by rewrite (heights_S _ _ _ b) by (done || lia).
Qed.

(** What a request of step one sends. *)
Lemma on_blocks_by_range_request_spec s q bs p id req :
  cs_holds (mp_chain s) (q :: bs) → in_u 64 (height (header q) + 1) →
  step req = 1 → in_u 64 (start_slot req) → 0 ≤ count req → hn_open (mp_net s) = true →
  MessageProcessor.on_blocks_by_range_request (E:=E) s p id req =
    Ok (MessageProcessor.set_net s (mkHandlerNet true (hn_sent (mp_net s) ++
      (range_answer p id <$> heights (q :: bs) (start_slot req)
                               (served (height (header q)) (start_slot req) (count req))) ++ [range_end p id]))).
Proof.
  intros Hc Hh Hs Hst Hcnt Hopen. unfold MessageProcessor.on_blocks_by_range_request.
  rewrite decide_False by lia. rewrite (cs_current_spec _ _ _ Hc), bind_Ok, Hs. unfold Block.block_height.
  rewrite (range_loop_spec _ _ q bs); [|done|done|done|lia|done|unfold in_u in *; lia].
  rewrite bind_Ok, Z.sub_0_r. unfold HandlerNetworkContext.send_rpc_error_response,
    HandlerNetworkContext.send_rpc_event, HandlerNetworkContext.try_send. simpl.
  by rewrite <-app_assoc.
Qed.

(** The responses to [p] in a message log, and a client that receives them under
    the number it gave the request. *)
Definition responses_to `{EqDecision Peer} p (l : list (NetworkMessage Peer MsgId)) : list P2PErrorResponse :=
  omap (λ m, match m with
             | NetworkMessage.P2P p' (P2PEvent.Response _ r) => if decide (p' = p) then Some r else None
             | _ => None
             end) l.
Fixpoint receive `{Bincode Transaction} s p (rid : Z) (l : list P2PErrorResponse) : Outcome E MP :=
  match l with
  | [] => Ok s
  | r :: l => s ← MessageHandler.handle_rpc_response s p rid r; receive s p rid l
  end.
End RangeFacts.

Section TransferFacts.
Context {C Pool Q Peer MsgId : Type} `{P : Profile, PS : PoolService C Pool, BQ : BlockQueue Q}.
Context `{CL : ChainServiceLaws C, BB : BincodeLaws Block, Bincode Transaction, EqDecision Peer} {E : Type}.
Abbreviation MP := (MessageProcessor C Pool Q Peer MsgId).
Implicit Types (s t : MP) (p : Peer) (bs : list Block).

Lemma receive_blocks t p rid l :
  mp_sync_open t = true →
  receive (E:=E) t p rid
    (((λ b, P2PErrorResponse.Success (P2PResponse.BlocksByRange (serialize b))) <$> l) ++
     [P2PErrorResponse.StreamTermination ResponseTermination.BlocksByRange]) =
  Ok (mkProcessor (mp_chain t) (mp_tx_pool t) true
        (mp_sync t ++ ((λ b, SyncMessage.BlocksByRangeResponse p rid (Some b)) <$> l) ++
         [SyncMessage.BlocksByRangeResponse p rid None]) (mp_net t) (mp_queue t)).
Proof.
  revert t. induction l as [|b l IH]; intros t Hopen; simpl.
  - unfold MessageProcessor.on_blocks_by_range_response, MessageProcessor.send_to_sync. by rewrite Hopen.
  - rewrite deserialize_serialize. unfold MessageProcessor.on_blocks_by_range_response.
    unfold MessageProcessor.send_to_sync at 1. rewrite Hopen, IH by done. simpl.
    by rewrite <-app_assoc.
Qed.
End TransferFacts.

(** ** Theorems *)
Section Theorems.
Context {C Pool Q Peer MsgId : Type} `{P : Profile, PS : PoolService C Pool, BL : BlockQueueLaws Q}.
Context `{CL : ChainServiceLaws C, BB : BincodeLaws Block, BT : Bincode Transaction, EqDecision Peer} {E : Type}.
Abbreviation MP := (MessageProcessor C Pool Q Peer MsgId).
Implicit Types (s t : MP) (p me : Peer) (bs : list Block).

Lemma length_heights bs start k :
  0 ≤ start → Z.of_nat (length (heights bs start k)) = Z.max 0 (Z.min (Z.of_nat k) (Z.of_nat (length bs) - start)).
Proof. intros. unfold heights. rewrite length_take, length_drop, length_rev. lia. Qed.

(** C30: A range request from one node to another, end to end: the server leaves its
    chain alone and answers with its blocks of the requested heights, in order,
    and the client hands exactly these and the end of the stream to its sync
    thread.  Never more than asked for, except for the head when the range ends
    just below it. *)
Theorem range_transfer_roundtrip s t q bs p me id rid req :
  cs_holds (mp_chain s) (q :: bs) → in_u 64 (height (header q) + 1) →
  step req = 1 → in_u 64 (start_slot req) → 0 ≤ count req →
  hn_open (mp_net s) = true → mp_sync_open t = true →
  let blocks := heights (q :: bs) (start_slot req) (served (height (header q)) (start_slot req) (count req)) in
  ∃ new, MessageProcessor.on_blocks_by_range_request (E:=E) s me id req =
      Ok (MessageProcessor.set_net s (mkHandlerNet true (hn_sent (mp_net s) ++ new))) ∧
    receive (E:=E) t p rid (responses_to me new) =
      Ok (mkProcessor (mp_chain t) (mp_tx_pool t) true
            (mp_sync t ++ ((λ b, SyncMessage.BlocksByRangeResponse p rid (Some b)) <$> blocks) ++
             [SyncMessage.BlocksByRangeResponse p rid None]) (mp_net t) (mp_queue t)) ∧
    (∀ i b, blocks !! i = Some b → height (header b) = start_slot req + Z.of_nat i) ∧
    Z.of_nat (length blocks) =
      (if decide (start_slot req + count req = height (header q)) then count req + 1
       else Z.max 0 (Z.min (count req) (height (header q) + 1 - start_slot req))).
Proof.
  intros Hc Hh Hs Hst Hcnt Hopen Hsync blocks. eexists.
  split; [by apply on_blocks_by_range_request_spec|]. split; [|split].
  - assert (Hr : responses_to me ((range_answer (MsgId:=MsgId) me id <$> blocks) ++ [range_end me id]) =
      ((λ b, P2PErrorResponse.Success (P2PResponse.BlocksByRange (serialize b))) <$> blocks) ++
      [P2PErrorResponse.StreamTermination ResponseTermination.BlocksByRange]).
    { clearbody blocks. induction blocks as [|b l IH]; simpl; (rewrite decide_True by done); [done|].
      f_equal. exact IH. }
    fold blocks. rewrite Hr. by apply receive_blocks.
  - intros i b Hb. unfold blocks, heights in Hb. apply lookup_take_Some in Hb as [Hb _].
    rewrite lookup_drop in Hb. assert (rev (q :: bs) = reverse (q :: bs)) as Hrev by apply rev_alt.
    rewrite Hrev in Hb. apply reverse_lookup_Some in Hb as [Hb Hlt].
    rewrite (cs_heights _ _ _ _ Hc Hb). unfold in_u in Hst. lia.
  - pose proof (cs_heights _ _ O q Hc eq_refl) as Hq. unfold in_u in *. unfold blocks.
    rewrite length_heights by lia. unfold served. repeat case_decide; lia.
Qed.

(** A step that makes the running height overflow panics the handler of a dev
    build, on a request any peer can send. *)
Theorem range_request_step_panics s q bs p id req :
  P = Dev → cs_holds (mp_chain s) (q :: bs) → in_u 64 (start_slot req) → start_slot req ≤ height (header q) →
  1 ≤ count req → in_u 64 (step req) → 2 ^ 64 ≤ start_slot req + step req →
  MessageProcessor.on_blocks_by_range_request (E:=E) s p id req = Panic.
Proof.
  intros HP Hc Hst Hle Hcnt Hstep Hov. unfold MessageProcessor.on_blocks_by_range_request.
  rewrite decide_False by (unfold in_u in *; lia). rewrite (cs_current_spec _ _ _ Hc), bind_Ok. unfold Block.block_height.
  replace (Z.to_nat (height (header q)) + 2)%nat with (S (Z.to_nat (height (header q)) + 1)) by lia. simpl.
  rewrite decide_False by lia. rewrite (number_rev _ (q :: bs)) by done. rewrite bind_Ok.
  pose proof (cs_heights _ _ O q Hc eq_refl) as Hq. simpl length in Hq. unfold in_u in Hst.
  destruct (rev (q :: bs) !! Z.to_nat (start_slot req)) as [b|] eqn:Hb.
  2:{ apply lookup_ge_None in Hb. rewrite length_rev in Hb. simpl in Hb. lia. }
  unfold add_u. by rewrite (arith_panic 64) by (done || (unfold in_u; lia)).
Qed.
(** *** Gossiped blocks *)

(** Every queued block is more than one above [h], and its priority is the
    negated height. *)
Definition ahead_queue (h : Z) (q : Q) : Prop :=
  ∀ b z, bq_map q !! b = Some z → z = - height (header b) ∧ h + 1 < height (header b) < 2 ^ 63.

(** Same state but for the queue, which holds the same blocks. *)
Definition same_but_queue s s' : Prop :=
  mp_chain s' = mp_chain s ∧ mp_tx_pool s' = mp_tx_pool s ∧ mp_net s' = mp_net s ∧
  mp_sync_open s' = mp_sync_open s ∧ bq_map (mp_queue s') = bq_map (mp_queue s).

Lemma neg_height h : 0 ≤ h < 2 ^ 63 → neg_i64 (E:=E) (- h) = Ok h ∧ as_u64 h = h ∧ as_i64 h = h ∧ neg_i64 (E:=E) h = Ok (- h).
Proof.
  intros. unfold neg_i64, as_u64, as_i64. split_and!.
  - rewrite decide_False by lia. by rewrite Z.opp_involutive.
  - apply Z.mod_small. lia.
  - by rewrite decide_True by lia.
  - by rewrite decide_False by lia.
Qed.

(** With only far blocks queued, the loop puts the lowest one back, and asks the
    sync thread for the ancestors of a block more than twenty ahead. *)
Lemma gossip_loop_ahead fuel s p block hgt h find :
  0 ≤ h → h + 20 < 2 ^ 63 → ahead_queue h (mp_queue s) →
  ∃ s', MessageProcessor.gossip_loop (E:=E) (S fuel) s p block hgt h find = Ok (s', find) ∧
    same_but_queue s s' ∧
    (bq_map (mp_queue s) = ∅ → mp_sync s' = mp_sync s) ∧
    (bq_map (mp_queue s) ≠ ∅ → mp_sync_open s = true →
       mp_sync s' = mp_sync s ++ (if decide (hgt > h + SLOT_IMPORT_TOLERANCE) then [SyncMessage.OrphanBlock p block] else [])).
Proof.
  intros Hpos Hh Ha. simpl. pose proof (bq_pop_spec (mp_queue s)) as Hp.
  destruct (bq_pop (mp_queue s)) as [[[low neg] q]|].
  2:{ exists s. by split_and!. }
  destruct Hp as (Hl & _ & Hq). destruct (Ha _ _ Hl) as [-> Hlow].
  destruct (neg_height (height (header low))) as (-> & Hu & _); [lia|]. rewrite bind_Ok. cbv zeta. rewrite Hu.
  unfold add_u. rewrite (arith_in 64 (h + 1)) by (unfold in_u; lia). rewrite bind_Ok, decide_True by lia.
  rewrite (arith_in 64) by (unfold in_u, SLOT_IMPORT_TOLERANCE; lia). rewrite bind_Ok.
  set (s1 := MessageProcessor.set_queue _ _).
  assert (Hmap : bq_map (mp_queue s1) = bq_map (mp_queue s)).
  { simpl. rewrite bq_push_spec, Hq. by rewrite insert_delete_eq, insert_id. }
  eexists. split; [done|].
  assert (Hsame : ∀ m, same_but_queue s (MessageProcessor.send_to_sync s1 m)).
  { intros m. unfold MessageProcessor.send_to_sync. by case_match. }
  split; [case_decide; [apply Hsame|by split_and!]|]. split.
  - intros He. rewrite He, lookup_empty in Hl. done.
  - intros _ Ho. case_decide; [|by rewrite app_nil_r]. unfold MessageProcessor.send_to_sync. simpl. by rewrite Ho.
Qed.

(** The next block is the first to leave a queue of blocks further ahead. *)
Lemma pop_next h q block :
  ahead_queue h q → height (header block) = h + 1 →
  ∃ q1, bq_pop (bq_push q block (- height (header block))) = Some (block, - height (header block), q1) ∧
    bq_map q1 = bq_map q ∧ ∃ k, bq_len (bq_push q block (- height (header block))) = S k.
Proof.
  intros Ha Hb. assert (Hnone : bq_map q !! block = None).
  { destruct (bq_map q !! block) eqn:Hx; [|done]. apply Ha in Hx. lia. }
  pose proof (bq_pop_spec (bq_push q block (- height (header block)))) as Hp. rewrite bq_len_spec.
  rewrite bq_push_spec in *. destruct (bq_pop _) as [[[low neg] q1]|]; [|by apply insert_non_empty in Hp].
  destruct Hp as (Hl & Hmx & Hq1).
  specialize (Hmx block (- height (header block)) ltac:(by rewrite lookup_insert_eq)).
  apply lookup_insert_Some in Hl as [[<- <-]|[_ Hl]]; [|apply Ha in Hl; lia].
  exists q1. split; [done|]. split; [by rewrite Hq1, delete_insert_id|].
  rewrite map_size_insert_None by done. eauto.
Qed.

(** A block ahead of the head is queued and the queue is worked off. *)
Lemma on_block_gossip_enters s q bs p block :
  cs_holds (mp_chain s) (q :: bs) → height (header q) + 1024 < 2 ^ 63 →
  height (header q) ≤ height (header block) < height (header q) + QUEUE_GOSSIP_BLOCK →
  0 ≤ height (header q) ∧
  MessageProcessor.on_block_gossip (E:=E) s p block =
    let s1 := MessageProcessor.set_queue s (bq_push (mp_queue s) block (- height (header block))) in
    MessageProcessor.gossip_loop (S (bq_len (mp_queue s1))) s1 p block (height (header block)) (height (header q)) false.
Proof.
  intros Hc Hmax Hb. pose proof (cs_heights _ _ O q Hc eq_refl) as Hq. simpl length in Hq. split; [lia|].
  unfold QUEUE_GOSSIP_BLOCK in *.
  unfold MessageProcessor.on_block_gossip. rewrite (cs_current_spec _ _ _ Hc), bind_Ok. unfold Block.block_height.
  unfold sub_u. rewrite arith_in by (unfold in_u; lia). rewrite bind_Ok.
  unfold QUEUE_GOSSIP_BLOCK. rewrite (decide_True (P:=_ < 512)) by lia.
  destruct (neg_height (height (header block))) as (Hn & Hu & -> & ->); [lia|]. by rewrite bind_Ok.
Qed.

(** One round that pops the next block. *)
Lemma gossip_loop_pop fuel s p block hgt h find low q1 :
  0 ≤ h → h + 20 < 2 ^ 63 → height (header low) = h + 1 →
  bq_pop (mp_queue s) = Some (low, - height (header low), q1) →
  MessageProcessor.gossip_loop (E:=E) (S fuel) s p block hgt h find =
    r ← MessageProcessor.import_block (mp_chain s) low;
    let s := MessageProcessor.set_chain (MessageProcessor.set_queue s q1) r.1 in
    if (r.2 : bool) then
      if decide (height (header low) = hgt) then MessageProcessor.gossip_loop (E:=E) fuel s p block hgt h true
      else MessageProcessor.gossip_loop fuel (MessageProcessor.set_net s (HandlerNetworkContext.broadcast_block (mp_net s) low)) p block hgt h find
    else mret (s, find).
Proof.
  intros Hpos Hh Hl Hpop. cbn [MessageProcessor.gossip_loop]. rewrite Hpop.
  destruct (neg_height (height (header low))) as (-> & Hu & _); [lia|]. rewrite bind_Ok. cbv zeta. rewrite Hu.
  unfold add_u. rewrite (arith_in 64 (h + 1)) by (unfold in_u; lia). rewrite bind_Ok.
  rewrite (decide_False (P:=height (header low) > _)) by lia. by rewrite decide_True by exact Hl.
Qed.

(** The next block is imported and passed on, or dropped. *)
Lemma on_block_gossip_next s q bs p block :
  cs_holds (mp_chain s) (q :: bs) → height (header q) + 1024 < 2 ^ 63 →
  ahead_queue (height (header q)) (mp_queue s) → mp_sync_open s = true →
  height (header block) = height (header q) + 1 →
  match cs_import_block (mp_chain s) block with
  | Ok c' => ∃ s', MessageProcessor.on_block_gossip (E:=E) s p block = Ok (s', true) ∧
      mp_sync s' = mp_sync s ∧ same_but_queue (MessageProcessor.set_chain s c') s'
  | Err (_, c') => ∃ s', MessageProcessor.on_block_gossip (E:=E) s p block = Ok (s', false) ∧
      mp_sync s' = mp_sync s ∧ same_but_queue (MessageProcessor.set_chain s c') s'
  | Panic => MessageProcessor.on_block_gossip (E:=E) s p block = Panic
  end.
Proof.
  intros Hc Hmax Ha Hop Hnext.
  destruct (on_block_gossip_enters s q bs p block Hc Hmax) as [Hpos ->]; [unfold QUEUE_GOSSIP_BLOCK; lia|]. cbv zeta.
  destruct (pop_next (height (header q)) (mp_queue s) block Ha Hnext) as (q1 & Hpop & Hq1 & k & Hlen).
  set (s1 := MessageProcessor.set_queue s _). change (mp_queue s1) with (bq_push (mp_queue s) block (- height (header block))).
  rewrite Hlen, (gossip_loop_pop _ _ _ _ _ _ _ block q1) by (done || lia).
  unfold MessageProcessor.import_block. simpl mp_chain.
  destruct (cs_import_block (mp_chain s) block) as [c'|[e c']|]; [| |done]; rewrite bind_Ok; cbv zeta; cbn [fst snd].
  - rewrite decide_True by done. set (s2 := MessageProcessor.set_chain _ c').
    destruct (gossip_loop_ahead k s2 p block (height (header block)) (height (header q)) true)
      as (s' & -> & (Hs1 & Hs2 & Hs3 & Hs5 & Hs4) & Hsy1 & Hsy2); [lia|lia| |].
    { intros b z Hz. apply Ha. rewrite <-Hq1. exact Hz. }
    exists s'. split; [done|]. split; [|split_and!; [done..|by rewrite Hs4]].
    destruct (decide (bq_map (mp_queue s2) = ∅)) as [Hem|Hem]; [by apply Hsy1|].
    rewrite Hsy2 by done. rewrite decide_False by (unfold SLOT_IMPORT_TOLERANCE; lia). by rewrite app_nil_r.
  - eexists. split; [done|]. by split_and!.
Qed.

(** A block further ahead waits in the queue. *)
Lemma on_block_gossip_ahead s q bs p block :
  cs_holds (mp_chain s) (q :: bs) → height (header q) + 1024 < 2 ^ 63 →
  ahead_queue (height (header q)) (mp_queue s) → mp_sync_open s = true →
  height (header q) + 1 < height (header block) < height (header q) + QUEUE_GOSSIP_BLOCK →
  ∃ s', MessageProcessor.on_block_gossip (E:=E) s p block = Ok (s', false) ∧
    mp_chain s' = mp_chain s ∧ mp_net s' = mp_net s ∧ mp_sync_open s' = true ∧
    bq_map (mp_queue s') = <[block := - height (header block)]> (bq_map (mp_queue s)) ∧
    mp_sync s' = mp_sync s ++ (if decide (height (header block) > height (header q) + SLOT_IMPORT_TOLERANCE)
                               then [SyncMessage.OrphanBlock p block] else []).
Proof.
  intros Hc Hmax Ha Hop Hb.
  destruct (on_block_gossip_enters s q bs p block Hc Hmax) as [Hpos ->]; [lia|]. cbv zeta.
  set (s1 := MessageProcessor.set_queue s _).
  assert (Hmap : bq_map (mp_queue s1) = <[block := - height (header block)]> (bq_map (mp_queue s))) by apply bq_push_spec.
  assert (Ha1 : ahead_queue (height (header q)) (mp_queue s1)).
  { intros b z. rewrite Hmap, lookup_insert_Some. unfold QUEUE_GOSSIP_BLOCK in Hb. intros [[<- <-]|[_ Hz]]; [lia|by apply Ha]. }
  destruct (gossip_loop_ahead (bq_len (mp_queue s1)) s1 p block (height (header block)) (height (header q)) false)
    as (s' & -> & (Hs1 & _ & Hs3 & Hs5 & Hs4) & _ & Hsync); [lia|lia|done|].
  exists s'. rewrite Hs4, Hs5, Hmap. split_and!; [done..|].
  apply Hsync; [|done]. rewrite Hmap. apply insert_non_empty.
Qed.

(** A gossiped block below the local head, which any peer can send, panics the
    handler of a dev build; a release build ignores it. *)
Theorem gossip_stale_block s q bs p block :
  cs_holds (mp_chain s) (q :: bs) → height (header q) < 2 ^ 63 → 0 ≤ height (header block) < height (header q) →
  (P = Dev → MessageProcessor.on_block_gossip (E:=E) s p block = Panic) ∧
  (P = Release → MessageProcessor.on_block_gossip (E:=E) s p block = Ok (s, false)).
Proof.
  intros Hc Hmax Hb. unfold MessageProcessor.on_block_gossip. rewrite (cs_current_spec _ _ _ Hc), bind_Ok.
  unfold Block.block_height, sub_u. split; intros HP.
  - by rewrite arith_panic by (done || (unfold in_u; lia)).
  - rewrite (arith_wrap 64 _ (height (header block) - height (header q) + 2 ^ 64)) by
      (done || lia || (unfold in_u; lia)).
    rewrite bind_Ok, decide_False by (unfold QUEUE_GOSSIP_BLOCK; lia). done.
Qed.
(** *** The queue of gossiped blocks *)

(** Blocks are queued with their negated height as the priority. *)
Definition queue_ok (q : Q) : Prop :=
  ∀ b z, bq_map q !! b = Some z → z = - height (header b) ∧ 0 ≤ height (header b) < 2 ^ 63.

(** Candidates for the next place, tried one after the other up to the first that is
    refused: the chain, the blocks that were imported, those that were not tried, and
    whether all were imported. *)
Record tried : Type := mkTried { im_chain : C; im_done : list Block; im_left : list Block; im_all : bool }.
Fixpoint try_each (c : C) (l : list Block) : Outcome E tried :=
  match l with
  | [] => Ok (mkTried c [] [] true)
  | b :: l =>
      match cs_import_block c b with
      | Ok c => r ← try_each c l; Ok (mkTried (im_chain r) (b :: im_done r) (im_left r) (im_all r))
      | Err (_, c) => Ok (mkTried c [] l false)
      | Panic => Panic
      end
  end.
Lemma try_each_left c l r : try_each c l = Ok r → ∀ b, b ∈ im_left r → b ∈ l.
Proof.
  revert c r. induction l as [|b l IH]; intros c r; simpl; [by intros [= <-]|].
  destruct (cs_import_block c b) as [c'|[e c']|]; [|intros [= <-]; set_solver|done].
  intros (r' & Hr & [= <-])%bind_Ok_inv b' Hb. right. by eapply IH.
Qed.
Definition candidates (h : Z) (m : gmap Block Z) : list Block :=
  filter (λ b, height (header b) = h + 1) (map_to_list m).*1.
(** What stays in the queue. *)
Definition kept (h : Z) (left : list Block) (m : gmap Block Z) : gmap Block Z :=
  filter (λ x, h + 1 < height (header x.1) ∨ x.1 ∈ left) m.

Lemma elem_candidates h m b : b ∈ candidates h m ↔ height (header b) = h + 1 ∧ is_Some (m !! b).
Proof.
  unfold candidates. rewrite list_elem_of_filter, list_elem_of_fmap. split.
  - intros [Hh ([b' z] & -> & Hb%elem_of_map_to_list)]. split; [done|by exists z].
  - intros [Hh [z Hz]]. split; [done|]. exists (b, z). split; [done|by apply elem_of_map_to_list].
Qed.
Lemma candidates_delete h m b z :
  m !! b = Some z →
  candidates h m ≡ₚ if decide (height (header b) = h + 1) then b :: candidates h (delete b m) else candidates h (delete b m).
Proof.
  intros Hb. unfold candidates. rewrite <- (insert_delete_id m b z Hb) at 1.
  rewrite map_to_list_insert by apply lookup_delete_eq. rewrite fmap_cons, filter_cons. simpl. by repeat case_decide.
Qed.
Lemma candidates_none h m : (∀ b z, m !! b = Some z → h + 1 < height (header b)) → candidates h m = [].
Proof.
  intros Hm. destruct (candidates h m) as [|b l] eqn:Hc; [done|]. assert (Hb : b ∈ candidates h m) by (rewrite Hc; left).
  apply elem_candidates in Hb as [Hh [z Hz]]. apply Hm in Hz. lia.
Qed.
Lemma kept_all h m l : (∀ b z, m !! b = Some z → h + 1 < height (header b)) → kept h l m = m.
Proof. intros Hm. apply map_filter_id. intros b z Hz. left. by eapply Hm. Qed.
Lemma kept_delete h m l b : height (header b) ≤ h + 1 → b ∉ l → kept h l (delete b m) = kept h l m.
Proof.
  intros Hh Hl. apply map_filter_delete_not. intros z _ [?|?]; simpl in *; [lia|done].
Qed.
Lemma kept_rest h m b z l :
  m !! b = Some z → height (header b) = h + 1 → (∀ b' z', m !! b' = Some z' → h + 1 ≤ height (header b')) →
  l ≡ₚ candidates h (delete b m) → kept h l m = delete b m.
Proof.
  intros Hb Hh Hm Hl. assert (Hn : b ∉ l).
  { rewrite Hl, elem_candidates, lookup_delete_eq. intros [_ [? [=]]]. }
  rewrite <- (kept_delete h m l b) by (done || lia). apply map_filter_id. intros b' z' Hb'.
  destruct (decide (height (header b') = h + 1)) as [He|He].
  - right. simpl. rewrite Hl. apply elem_candidates. split; [done|by exists z'].
  - left. simpl. apply lookup_delete_Some in Hb' as [_ Hb']. apply Hm in Hb'. lia.
Qed.

(** What the loop over the queue makes of a state: blocks at or below the head leave the
    queue, candidates for the next place are tried, blocks further ahead stay. *)
Definition worked_off (h hgt : Z) p block (find : bool) s (r : tried) s' (found : bool) : Prop :=
  found = find || bool_decide (hgt = h + 1 ∧ im_done r ≠ []) ∧
  mp_chain s' = im_chain r ∧ mp_tx_pool s' = mp_tx_pool s ∧ mp_sync_open s' = true ∧
  bq_map (mp_queue s') = kept h (im_left r) (bq_map (mp_queue s)) ∧
  mp_net s' = (if decide (hgt = h + 1) then mp_net s else foldl HandlerNetworkContext.broadcast_block (mp_net s) (im_done r)) ∧
  mp_sync s' = mp_sync s ++
    (if decide (im_all r = true ∧ hgt > h + SLOT_IMPORT_TOLERANCE ∧ kept h [] (bq_map (mp_queue s)) ≠ ∅) then [SyncMessage.OrphanBlock p block] else []).

(** A block that does not stay is popped. *)
Lemma worked_off_pop h hgt p block find s q1 low r s' found :
  bq_map q1 = delete low (bq_map (mp_queue s)) → height (header low) ≤ h + 1 → low ∉ im_left r →
  worked_off h hgt p block find (MessageProcessor.set_queue s q1) r s' found → worked_off h hgt p block find s r s' found.
Proof.
  intros Hq Hl Hn (Hf & Hc & Ht & Ho & Hm & Hnet & Hs). simpl in *. rewrite Hq, kept_delete in Hm by done.
  rewrite Hq, kept_delete in Hs by set_solver. by split_and!.
Qed.
(** A candidate is imported, and is what was waited for or passed on. *)
Lemma worked_off_import h hgt p block find s low c r s' found :
  height (header low) = h + 1 →
  (if decide (height (header low) = hgt)
   then worked_off h hgt p block true (MessageProcessor.set_chain s c) r s' found
   else worked_off h hgt p block find
          (MessageProcessor.set_net (MessageProcessor.set_chain s c) (HandlerNetworkContext.broadcast_block (mp_net s) low)) r s' found) →
  worked_off h hgt p block find s (mkTried (im_chain r) (low :: im_done r) (im_left r) (im_all r)) s' found.
Proof.
  intros Hl Hw. case_decide as Hh; destruct Hw as (Hf & Hc & Ht & Ho & Hm & Hnet & Hs); simpl in *.
  - split_and!; simpl; [|done..|by rewrite decide_True in Hnet |- * by lia|done].
    rewrite bool_decide_true by (split; [lia|done]). by rewrite Hf, orb_true_r.
  - split_and!; simpl; [|done..|by rewrite decide_False in Hnet |- * by lia|done].
    rewrite Hf, !bool_decide_false by lia. done.
Qed.
(** A block further ahead goes back, and everything else in the queue is further ahead. *)
Lemma worked_off_far h hgt p block find s q1 low :
  0 ≤ h → mp_sync_open s = true → bq_map (mp_queue s) !! low = Some (- height (header low)) →
  (∀ b z, bq_map (mp_queue s) !! b = Some z → h + 1 < height (header b)) →
  bq_map q1 = delete low (bq_map (mp_queue s)) →
  let s1 := MessageProcessor.set_queue s (bq_push q1 low (- height (header low))) in
  worked_off h hgt p block find s (mkTried (mp_chain s) [] [] true)
    (if decide (hgt > h + SLOT_IMPORT_TOLERANCE) then MessageProcessor.send_to_sync s1 (SyncMessage.OrphanBlock p block) else s1) find.
Proof.
  intros Hpos Ho Hl Hfar Hq s1.
  assert (Hmap : bq_map (mp_queue s1) = kept h [] (bq_map (mp_queue s))).
  { simpl. rewrite bq_push_spec, Hq, insert_delete_eq, insert_id by done. by rewrite kept_all. }
  assert (Hne : kept h [] (bq_map (mp_queue s)) ≠ ∅).
  { rewrite kept_all by done. intros He. by rewrite He in Hl. }
  unfold MessageProcessor.send_to_sync. simpl mp_sync_open. rewrite Ho. destruct (decide (hgt > h + SLOT_IMPORT_TOLERANCE)) as [Hh|Hh].
  - split_and!; [simpl; by rewrite bool_decide_false, orb_false_r by naive_solver|done|done|done|exact Hmap|simpl; by case_decide|simpl; by rewrite decide_True].
  - split_and!; [simpl; by rewrite bool_decide_false, orb_false_r by naive_solver|done|done|done|exact Hmap|simpl; by case_decide|simpl; rewrite decide_False by naive_solver; by rewrite app_nil_r].
Qed.
(** The candidates of the queue, in some order, are worked off. *)
Definition loop_ok (fuel : nat) s p block (hgt h : Z) (find : bool) : Prop :=
  ∃ next, next ≡ₚ candidates h (bq_map (mp_queue s)) ∧
    match try_each (mp_chain s) next with
    | Ok r => ∃ s' found, MessageProcessor.gossip_loop (E:=E) fuel s p block hgt h find = Ok (s', found) ∧
        worked_off h hgt p block find s r s' found
    | _ => MessageProcessor.gossip_loop (E:=E) fuel s p block hgt h find = Panic
    end.
Section OneRound.
Context (fuel : nat) s p (block : Block) (hgt h : Z) (find : bool) (low : Block) (q1 : Q).
Context (Hpos : 0 ≤ h) (Hh : h + 20 < 2 ^ 63) (Hop : mp_sync_open s = true).
Context (Hpop : bq_pop (mp_queue s) = Some (low, - height (header low), q1)).
Context (Hl : bq_map (mp_queue s) !! low = Some (- height (header low))) (Hq1 : bq_map q1 = delete low (bq_map (mp_queue s))).
Context (Hmin : ∀ b z, bq_map (mp_queue s) !! b = Some z → height (header low) ≤ height (header b)).

Lemma loop_ok_import c :
  height (header low) = h + 1 → cs_import_block (mp_chain s) low = Ok c →
  (let s1 := MessageProcessor.set_chain (MessageProcessor.set_queue s q1) c in
   if decide (height (header low) = hgt) then loop_ok fuel s1 p block hgt h true
   else loop_ok fuel (MessageProcessor.set_net s1 (HandlerNetworkContext.broadcast_block (mp_net s) low)) p block hgt h find) →
  loop_ok (S fuel) s p block hgt h find.
Proof using All.
  intros Hnext Him Hrec. cbv zeta in Hrec. pose proof (candidates_delete h _ low _ Hl) as Hcd. rewrite decide_True in Hcd by done.
  assert (Hround := gossip_loop_pop fuel s p block hgt h find low q1 Hpos Hh Hnext Hpop).
  unfold MessageProcessor.import_block in Hround. rewrite Him, bind_Ok in Hround. cbv zeta in Hround. cbn [fst snd] in Hround.
  set (s1 := MessageProcessor.set_chain (MessageProcessor.set_queue s q1) c) in *. change (mp_net s1) with (mp_net s) in Hround.
  assert (Hnext' : ∃ next, next ≡ₚ candidates h (delete low (bq_map (mp_queue s))) ∧
    match try_each c next with
    | Ok r => ∃ s' found, MessageProcessor.gossip_loop (E:=E) (S fuel) s p block hgt h find = Ok (s', found) ∧
        worked_off h hgt p block find (MessageProcessor.set_queue s q1) (mkTried (im_chain r) (low :: im_done r) (im_left r) (im_all r)) s' found
    | _ => MessageProcessor.gossip_loop (E:=E) (S fuel) s p block hgt h find = Panic
    end).
  { rewrite Hround. case_decide as He; destruct Hrec as (next & Hn & Hr); simpl in Hn, Hr; rewrite Hq1 in Hn; exists next; (split; [done|]);
      (destruct (try_each c next) as [r|e|]; [|done..]); destruct Hr as (s' & found & Hs & Hw); exists s', found; (split; [done|]);
      (apply (worked_off_import _ _ _ _ _ _ _ c); [done|]); [by rewrite decide_True|by rewrite decide_False]. }
  destruct Hnext' as (next & Hn & Hr). exists (low :: next). split; [by rewrite Hn, <- Hcd|]. simpl. rewrite Him.
  destruct (try_each c next) as [r|e|] eqn:Hie; [|done..]. destruct Hr as (s' & found & Hs & Hw). exists s', found. split; [exact Hs|].
  apply (worked_off_pop _ _ _ _ _ _ q1 low); [done|lia| |done].
  simpl. intros Hx%(try_each_left _ _ _ Hie). rewrite Hn, elem_candidates, lookup_delete_eq in Hx. by destruct Hx as [_ [? [=]]].
Qed.
Lemma loop_ok_refused :
  height (header low) = h + 1 → (∀ c, cs_import_block (mp_chain s) low ≠ Ok c) → loop_ok (S fuel) s p block hgt h find.
Proof using All.
  intros Hnext Him. pose proof (candidates_delete h _ low _ Hl) as Hcd. rewrite decide_True in Hcd by done.
  assert (Hround := gossip_loop_pop fuel s p block hgt h find low q1 Hpos Hh Hnext Hpop).
  unfold MessageProcessor.import_block in Hround. exists (low :: candidates h (delete low (bq_map (mp_queue s)))).
  split; [done|]. cbn [try_each]. rewrite Hround. destruct (cs_import_block (mp_chain s) low) as [c|[e c]|] eqn:Hi; [by destruct (Him c)| |done].
  rewrite bind_Ok. cbv zeta. cbn [fst snd]. eexists _, find. split; [done|]. clear Hround.
  split_and!; simpl; [|done..| |by case_decide|by rewrite app_nil_r].
  - by rewrite bool_decide_false, orb_false_r by naive_solver.
  - rewrite Hq1. symmetry. eapply kept_rest; [exact Hl|done| |done]. intros b z Hb. specialize (Hmin b z Hb). lia.
Qed.
End OneRound.

Lemma gossip_loop_spec fuel s p block hgt h find :
  0 ≤ h → h + 20 < 2 ^ 63 → queue_ok (mp_queue s) → mp_sync_open s = true → (size (bq_map (mp_queue s)) < fuel)%nat →
  loop_ok fuel s p block hgt h find.
Proof.
  intros Hpos Hh. revert s find. induction fuel as [|fuel IH]; intros s find Hok Hop Hf; [lia|].
  pose proof (bq_pop_spec (mp_queue s)) as Hp. destruct (bq_pop (mp_queue s)) as [[[low neg] q1]|] eqn:Hpop.
  2:{ exists []. rewrite Hp. split; [done|]. exists s, find. split; [simpl; by rewrite Hpop|].
      split_and!; simpl; [|done..|by rewrite Hp| |]; [by rewrite bool_decide_false, orb_false_r by naive_solver|by case_decide|].
      rewrite Hp, decide_False, app_nil_r; [done|]. intros (_ & _ & Hx). by destruct Hx. }
  destruct Hp as (Hl & Hmax & Hq1). destruct (Hok _ _ Hl) as [-> Hlow].
  assert (Hmin : ∀ b z, bq_map (mp_queue s) !! b = Some z → height (header low) ≤ height (header b)).
  { intros b z Hb. destruct (Hok _ _ Hb) as [-> _]. specialize (Hmax _ _ Hb). lia. }
  assert (Hsz : (size (delete low (bq_map (mp_queue s))) < fuel)%nat).
  { rewrite map_size_delete_Some by (by eexists). destruct (size (bq_map (mp_queue s))) eqn:Hz; [|lia].
    apply map_size_empty_inv in Hz. by rewrite Hz in Hl. }
  assert (Hok1 : queue_ok q1) by (intros b z; rewrite Hq1, lookup_delete_Some; intros [_ Hb]; by apply Hok).
  destruct (decide (height (header low) = h + 1)) as [Hnext|Hnext].
  { destruct (cs_import_block (mp_chain s) low) as [c|e|] eqn:Him; [|by apply (loop_ok_refused _ _ _ _ _ _ _ low q1); (done || by rewrite Him)..].
    apply (loop_ok_import _ _ _ _ _ _ _ low q1) with c; try done. case_decide; apply IH; simpl; by rewrite ?Hq1. }
  destruct (neg_height (height (header low))) as (Hneg & Hu & _); [lia|].
  assert (Hround : MessageProcessor.gossip_loop (E:=E) (S fuel) s p block hgt h find =
    if decide (height (header low) > h + 1) then
      let s1 := MessageProcessor.set_queue s (bq_push q1 low (- height (header low))) in
      Ok (if decide (hgt > h + SLOT_IMPORT_TOLERANCE) then MessageProcessor.send_to_sync s1 (SyncMessage.OrphanBlock p block) else s1, find)
    else MessageProcessor.gossip_loop fuel (MessageProcessor.set_queue s q1) p block hgt h find).
  { cbn [MessageProcessor.gossip_loop]. rewrite Hpop, Hneg, bind_Ok. cbv zeta. rewrite Hu. unfold add_u.
    rewrite (arith_in 64 (h + 1)), bind_Ok by (unfold in_u; lia). case_decide; [|by rewrite (decide_False (P:=_ = h + 1))].
    by rewrite (arith_in 64) by (unfold in_u, SLOT_IMPORT_TOLERANCE; lia). }
  unfold loop_ok. rewrite Hround. case_decide as Hfar.
  - assert (Hall : ∀ b z, bq_map (mp_queue s) !! b = Some z → h + 1 < height (header b)) by (intros b z Hb; specialize (Hmin b z Hb); lia).
    exists []. rewrite candidates_none by done. split; [done|]. eexists _, find. split; [done|].
    exact (worked_off_far h hgt p block find s q1 low Hpos Hop Hl Hall Hq1).
  - destruct (IH (MessageProcessor.set_queue s q1) find Hok1 Hop) as (next & Hnx & Hr); [simpl; by rewrite Hq1|]. simpl in Hnx, Hr.
    exists next. pose proof (candidates_delete h _ low _ Hl) as Hcd. rewrite decide_False in Hcd by lia. rewrite Hcd, <- Hq1. split; [done|].
    destruct (try_each (mp_chain s) next) as [r|e|] eqn:Him; [|done..]. destruct Hr as (s' & found & Hlo & Hw). exists s', found. split; [done|].
    apply (worked_off_pop _ _ _ _ _ _ q1 low); [done|lia| |done].
    intros Hx. apply (try_each_left _ _ _ Him) in Hx. rewrite Hnx in Hx. apply elem_candidates in Hx as [? _]. lia.
Qed.

(** C31: What a gossiped block does, for any head below 2^63, any queue in which blocks have
    their negated height as the priority, and a running sync thread.  A block 512 or more
    above the head is ignored; one below the head panics a build with overflow checks
    and is ignored without them.  Any other joins the queue, and the queue is worked
    off: blocks at or below the head leave it; the blocks of the next height are tried in
    turn on the chain, up to the first that is refused, which leaves the queue, while
    those not tried and all blocks further ahead stay; imported blocks are passed on,
    by the answer when the gossiped block has the next height itself and by a broadcast
    otherwise; and when every candidate was imported and the gossiped block is more
    than twenty above the head its ancestors are looked up.  Priorities stay as they
    should be. *)
Theorem on_block_gossip_spec s q bs p block :
  cs_holds (mp_chain s) (q :: bs) → height (header q) + 1024 < 2 ^ 63 → in_u 64 (height (header block)) →
  queue_ok (mp_queue s) → mp_sync_open s = true →
  let h := height (header q) in let hgt := height (header block) in
  let queued := <[block := - hgt]> (bq_map (mp_queue s)) in
  if decide (h + QUEUE_GOSSIP_BLOCK ≤ hgt) then MessageProcessor.on_block_gossip (E:=E) s p block = Ok (s, false)
  else if decide (hgt < h) then
    (P = Dev → MessageProcessor.on_block_gossip (E:=E) s p block = Panic) ∧
    (P = Release → MessageProcessor.on_block_gossip (E:=E) s p block = Ok (s, false))
  else ∃ next, next ≡ₚ candidates h queued ∧
    match try_each (mp_chain s) next with
    | Ok r => ∃ s',
        MessageProcessor.on_block_gossip (E:=E) s p block = Ok (s', bool_decide (hgt = h + 1 ∧ im_done r ≠ [])) ∧
        mp_chain s' = im_chain r ∧ mp_tx_pool s' = mp_tx_pool s ∧
        bq_map (mp_queue s') = kept h (im_left r) queued ∧ queue_ok (mp_queue s') ∧
        mp_net s' = (if decide (hgt = h + 1) then mp_net s
                     else foldl HandlerNetworkContext.broadcast_block (mp_net s) (im_done r)) ∧
        mp_sync s' = mp_sync s ++ (if decide (im_all r = true ∧ hgt > h + SLOT_IMPORT_TOLERANCE)
                                   then [SyncMessage.OrphanBlock p block] else [])
    | _ => MessageProcessor.on_block_gossip (E:=E) s p block = Panic
    end.
Proof.
  intros Hc Hmax Hb Hok Hop h hgt queued. unfold in_u in Hb. pose proof (cs_heights _ _ O q Hc eq_refl) as Hq. simpl length in Hq.
  case_decide as Hfar; [|case_decide as Hst; [by apply (gossip_stale_block s q bs); try lia|]].
  { unfold MessageProcessor.on_block_gossip. rewrite (cs_current_spec _ _ _ Hc), bind_Ok. unfold Block.block_height, sub_u.
    rewrite arith_in, bind_Ok by (unfold in_u, QUEUE_GOSSIP_BLOCK, h, hgt in *; lia). by rewrite decide_False by (unfold h, hgt in *; lia). }
  destruct (on_block_gossip_enters s q bs p block Hc Hmax) as [Hpos ->]; [unfold h, hgt in *; lia|]. cbv zeta.
  set (s1 := MessageProcessor.set_queue s _).
  assert (Hm1 : bq_map (mp_queue s1) = queued) by apply bq_push_spec.
  assert (Hok1 : ∀ b z, queued !! b = Some z → z = - height (header b) ∧ 0 ≤ height (header b) < 2 ^ 63).
  { intros b z [[<- <-]|[_ Hz]]%lookup_insert_Some; [unfold QUEUE_GOSSIP_BLOCK, h, hgt in *; lia|by apply Hok]. }
  destruct (gossip_loop_spec (S (bq_len (mp_queue s1))) s1 p block hgt h false) as (next & Hn & Hr);
    [done|lia|unfold queue_ok; by rewrite Hm1|done|rewrite bq_len_spec; lia|]. rewrite Hm1 in Hn. exists next. split; [done|].
  change (mp_chain s1) with (mp_chain s) in Hr. destruct (try_each (mp_chain s) next) as [r|e|]; [|done..].
  destruct Hr as (s' & found & Hs & -> & Hch & Htx & _ & Hmq & Hnet & Hsync). rewrite Hm1 in Hmq, Hsync.
  exists s'. split; [exact Hs|]. split_and!; [done..| |done|].
  - intros b z. rewrite Hmq. intros [Hz _]%map_lookup_filter_Some. by apply Hok1.
  - rewrite Hsync. simpl. f_equal. destruct (decide (hgt > h + SLOT_IMPORT_TOLERANCE)) as [Hg|Hg];
      [|rewrite !decide_False by naive_solver; done].
    assert (Hne : kept h [] queued ≠ ∅).
    { intros He. assert (Hx : kept h [] queued !! block = Some (- hgt)); [|by rewrite He in Hx].
      apply map_lookup_filter_Some. unfold queued. rewrite lookup_insert_eq. split; [done|]. left. simpl. unfold SLOT_IMPORT_TOLERANCE, hgt in *. lia. }
    destruct (im_all r); [by rewrite !decide_True|]. by rewrite !decide_False by naive_solver.
Qed.
End Theorems.

(** ** Worked examples: a server with two blocks above the genesis block *)

(** A queue for examples: the map itself. *)
Fixpoint max_entry (l : list (Block * Z)) : option (Block * Z) :=
  match l with
  | [] => None
  | x :: l => match max_entry l with
              | Some y => if decide (x.2 ≤ y.2) then Some y else Some x
              | None => Some x
              end
  end.
Lemma max_entry_spec l :
  match max_entry l with
  | Some x => x ∈ l ∧ ∀ y, y ∈ l → y.2 ≤ x.2
  | None => l = []
  end.
Proof.
  induction l as [|x l IH]; simpl; [done|]. destruct (max_entry l) as [y|].
  - destruct IH as [Hy Hm]. case_decide as Hxy; (split; [set_solver|]); intros z [->|Hz]%elem_of_cons; try lia; auto.
    specialize (Hm z Hz). lia.
  - subst. split; [set_solver|]. intros y [->|[]%not_elem_of_nil]%elem_of_cons. lia.
Qed.
Definition example_queue : BlockQueue (gmap Block Z) := {|
  bq_new := ∅;
  bq_push q b z := <[b := z]> q;
  bq_pop q := match max_entry (map_to_list q) with Some x => Some (x.1, x.2, delete x.1 q) | None => None end;
  bq_len q := size q;
|}.
Definition example_queue_laws : @BlockQueueLaws _ example_queue.
Proof.
  refine (@Build_BlockQueueLaws _ example_queue id _ _ _ _); try done.
  intros q. simpl. pose proof (max_entry_spec (map_to_list q)) as Hm.
  destruct (max_entry _) as [[b z]|]; simpl.
  - destruct Hm as [Hin Hm]. apply elem_of_map_to_list in Hin. split_and!; [done| |done].
    intros b' z' Hb'. apply (Hm (b', z')). by apply elem_of_map_to_list.
  - by apply map_to_list_empty_iff.
Defined.

Module HandlerEx.
Export SyncMgrEx.
#[export] Existing Instance example_queue.
#[export] Existing Instance example_queue_laws.
#[export] Instance tx_bincode : Bincode Transaction := example_bincode.
Abbreviation proc := (MessageProcessor chain TxPoolManager (gmap Block Z) Z unit).
Definition srv : proc := MessageProcessor.new gen (TxPoolManager.new).
Definition req (n k st : Z) : BlocksByRangeRequest := mkBlocksByRangeRequest root n k st.
Lemma g0_height : height (header g0) = 0.
Proof. exact gen_height. Qed.
Lemma srv_empty : bq_map (mp_queue srv) = ∅.
Proof. reflexivity. Qed.
Lemma srv_queue : queue_ok (mp_queue srv).
Proof. intros b z Hb. by rewrite srv_empty, lookup_empty in Hb. Qed.
(** The chain with the first block imported. *)
Definition gen1 : chain := match BlockChain.import_block gen b1 with Ok c => c | _ => gen end.
Lemma gen1_holds : cs_holds gen1 [b1; g0].
Proof.
  unfold blockchain_service_laws. cbn [cs_holds]. unfold gen1.
  destruct gen_import_b1 as (c & Hc & Hi). rewrite Hc. exact Hi.
Qed.
Definition srv1 : proc := MessageProcessor.new gen1 (TxPoolManager.new).
Lemma b1_number : height (header b1) = 1.
Proof. reflexivity. Qed.
End HandlerEx.

Section HandlerWitnesses.
Import HandlerEx.

Lemma range_transfer_roundtrip_witness :
  let blocks := heights [g0] 0 (served (height (header g0)) 0 5) in
  ∃ new, MessageProcessor.on_blocks_by_range_request (E:=unit) srv 7 3 (req 0 5 1) =
      Ok (MessageProcessor.set_net srv (mkHandlerNet true (hn_sent (mp_net srv) ++ new))) ∧
    receive (E:=unit) srv 8 4 (responses_to 7 new) =
      Ok (mkProcessor (mp_chain srv) (mp_tx_pool srv) true
            (mp_sync srv ++ ((λ b, SyncMessage.BlocksByRangeResponse 8 4 (Some b)) <$> blocks) ++
             [SyncMessage.BlocksByRangeResponse 8 4 None]) (mp_net srv) (mp_queue srv)).
Proof.
  destruct (range_transfer_roundtrip (E:=unit) srv srv g0 [] 8 7 3 4 (req 0 5 1) gen_holds) as (new & Hs & Hr & _);
    [rewrite g0_height; by vm_compute|reflexivity|by vm_compute|simpl; lia|reflexivity|reflexivity|].
  exists new. split; [exact Hs|exact Hr].
Defined.

Lemma range_request_step_panics_witness :
  MessageProcessor.on_blocks_by_range_request (E:=unit) srv1 7 3 (req 1 5 (2 ^ 64 - 1)) = Panic.
Proof.
  apply (range_request_step_panics srv1 b1 [g0] 7 3 (req 1 5 (2 ^ 64 - 1)) eq_refl gen1_holds);
    [by vm_compute|rewrite b1_number; simpl; lia|simpl; lia|by vm_compute|simpl; lia].
Defined.

Lemma gossip_stale_block_witness :
  MessageProcessor.on_block_gossip (E:=unit) srv1 7 g0 = Panic.
Proof.
  destruct (gossip_stale_block (E:=unit) srv1 b1 [g0] 7 g0 gen1_holds) as [Hd _];
    [rewrite b1_number; lia|rewrite b1_number, g0_height; lia|].
  exact (Hd eq_refl).
Defined.

Lemma on_block_gossip_spec_witness :
  ∃ s', MessageProcessor.on_block_gossip (E:=unit) srv 7 b2 = Ok (s', false) ∧ mp_chain s' = gen ∧
    bq_map (mp_queue s') = <[b2 := - height (header b2)]> ∅.
Proof.
  pose proof (on_block_gossip_spec (E:=unit) srv g0 [] 7 b2 gen_holds) as Hs.
  assert (height (header b2) = 2) as Hb2 by reflexivity. rewrite g0_height, Hb2 in Hs. cbv zeta in Hs.
  rewrite !decide_False in Hs by (unfold QUEUE_GOSSIP_BLOCK; lia).
  destruct Hs as (next & Hn & Hs); [lia|by vm_compute|exact srv_queue|reflexivity|].
  rewrite srv_empty, candidates_none in Hn; [|intros b z Hb; apply lookup_singleton_Some in Hb as [<- _]; rewrite Hb2; lia].
  apply Permutation_nil_r in Hn. rewrite Hn in Hs. destruct Hs as (s' & Hr & Hc & _ & Hq & _). simpl im_chain in Hc. cbn [im_done im_left] in Hr, Hq.
  exists s'. rewrite bool_decide_false in Hr by (intros [Hx _]; discriminate Hx). split; [exact Hr|]. split; [exact Hc|].
  rewrite Hq, srv_empty, Hb2. apply kept_all. intros b z Hb. apply lookup_singleton_Some in Hb as [<- _]. rewrite Hb2. lia.
Defined.
End HandlerWitnesses.
