(* ===== verification/SyncLive.v ===== *)
(** * SyncLive: a range sync from an honest peer completes

    The range sync, the block processor and the chain together: one peer
    announces a chain that extends the local one and answers every request with
    the blocks asked for.  Every block is imported, batch after batch, and the
    sync stops at the announced height. *)
From S2P Require Import Prelude Hashing Types Codec Keys Transaction Block BlockChain ChainService.
From S2P Require Import Messages RangeSync RangeSyncInv SyncManager Handler.

Section Rounds.
Context {C Peer MsgId : Type} `{ChainService C, Countable Peer, PO : !PeerOrder Peer}.
Context `{P : Profile, BatchDigest, Bincode (list Block), Blake2b, Bincode Header} {E : Type}.
Implicit Types (c : C) (s : RangeSync Peer) (io : SyncIO Peer MsgId).

(** One batch: the blocks of the answer to request [r], its end, the job this
    spawns, and the report of the block processor. *)
Definition sync_round c s io (r : Z) (blocks : list Block) : Outcome E (C * RangeSync Peer * SyncIO Peer MsgId) :=
  x ← sync_run s io ((RangeResponse r ∘ Some <$> blocks) ++ [RangeResponse r None]);
  job ← unwrap (last (io_jobs x.2));
  y ← BlockProcessor.spawn_block_processor (Peer:=Peer) c job;
  match y.2 with
  | SyncMessage.BatchProcessed id l result =>
      status ← local_status y.1;
      z ← sync_step x.1 x.2 (Processed id l result status);
      mret (y.1, z.1, z.2)
  | _ => Panic
  end.

(** Requests are numbered one after the other. *)
Fixpoint sync_rounds c s io (r : Z) (chunks : list (list Block)) : Outcome E (C * RangeSync Peer * SyncIO Peer MsgId) :=
  match chunks with
  | [] => Ok (c, s, io)
  | blocks :: chunks => x ← sync_round c s io r blocks; sync_rounds x.1.1 x.1.2 x.2 (r + 1) chunks
  end.

(** Batches of five blocks, the last one possibly shorter. *)
Fixpoint batched (chunks : list (list Block)) : Prop :=
  match chunks with
  | [] => False
  | [l] => (1 ≤ length l ≤ 5)%nat
  | l :: chunks => (length l = 5)%nat ∧ batched chunks
  end.
End Rounds.

Section Liveness.
Context {C Peer MsgId : Type} `{CL : ChainServiceLaws C, Countable Peer, PO : !PeerOrder Peer, PL : !PeerOrderLaws Peer}.
Context `{P : Profile, BatchDigest, Bincode (list Block)} {E : Type}.
Context (p : Peer) (start target : Z) (root : Hash) (HT : target + 11 < 2 ^ 64).
Implicit Types (c : C) (s : RangeSync Peer) (io : SyncIO Peer MsgId) (b : Batch Peer).

(** The batch with number [i], counted from one. *)
Definition batch_no (i : Z) : Batch Peer :=
  let st := start + (i - 1) * BLOCKS_PER_BATCH + 1 in
  Batch.new i st (Z.min (st + BLOCKS_PER_BATCH) (target + 1)) root p.

Definition one_pending (r : Z) b : PendingBatches Peer := mkPending {[r := b]} {[p := {[r]}]}.

(** Waiting for the answer to request [r], which is for batch [i]; [l] has arrived. *)
Definition waiting (i r : Z) (l : list Block) : SyncingChain Peer :=
  mkSyncingChain start target root (one_pending r (Batch.set_blocks (batch_no i) l)) [] []
    {[p]} (i + 1) i Syncing None.

Lemma shuffle_single n : shuffle n {[p]} = [p].
Proof.
  apply Permutation_singleton_r. rewrite shuffle_perm. by rewrite elements_singleton.
Qed.
Lemma pool_iter_single : pool_iter {[p]} = [p].
Proof. apply Permutation_singleton_r. rewrite pool_iter_perm. by rewrite elements_singleton. Qed.

Lemma insert_one r b : current_peer b = p → (PendingBatches.insert (mkPending ∅ ∅) r b).1 = one_pending r b.
Proof.
  intros Hp. unfold PendingBatches.insert, one_pending. simpl. rewrite Hp, lookup_empty. simpl.
  by rewrite (left_id_L ∅ (∪)).
Qed.

Lemma remove_one r b : current_peer b = p → PendingBatches.remove (one_pending r b) r = (mkPending ∅ ∅, Some b).
Proof.
  intros Hp. unfold PendingBatches.remove, one_pending. simpl. rewrite lookup_singleton_eq, Hp, lookup_singleton_eq.
  rewrite decide_True by set_solver. by rewrite !delete_singleton_eq.
Qed.

(** The request for a batch is sent. *)
Lemma send_batch_one (x : SyncingChain Peer) io b :
  pending_batches x = mkPending ∅ ∅ → current_peer b = p → batch_ok start target b → 0 ≤ start →
  0 ≤ request_id (io_net io) → request_id (io_net io) + 1 < 2 ^ 64 → net_open (io_net io) = true →
  ∃ n, SyncingChain.send_batch (E:=E) x io b =
    Ok (SyncingChain.set_pending x (one_pending (request_id (io_net io)) b), mkIO n (io_jobs io)) ∧
    request_id n = request_id (io_net io) + 1.
Proof.
  intros Hpe Hb (Hb1 & Hb2 & Hb3 & Hb4 & _) Hs Hid Hid' Hopen. unfold SyncingChain.send_batch, Batch.to_blocks_by_range_request.
  unfold sub_u, BLOCKS_PER_BATCH in *. rewrite arith_in by (unfold in_u; lia). rewrite !bind_Ok.
  unfold mret, outcome_mret. rewrite bind_Ok.
  unfold SyncNetworkContext.blocks_by_range_request, SyncNetworkContext.send_rpc_request, add_u.
  rewrite arith_in by (unfold in_u; lia). rewrite bind_Ok.
  unfold SyncNetworkContext.send_rpc_event, SyncNetworkContext.try_send. simpl. rewrite Hopen. simpl.
  rewrite Hpe, <-(insert_one _ b Hb). by eexists.
Qed.

(** With its only peer busy, nothing is asked for. *)
Lemma next_peer_busy (x : SyncingChain Peer) io r b :
  peer_pool x = {[p]} → pending_batches x = one_pending r b → SyncingChain.get_next_peer x io = None.
Proof.
  intros Hpool Hpe. unfold SyncingChain.get_next_peer. rewrite Hpool, shuffle_single, Hpe.
  rewrite filter_cons_False; [done|]. unfold PendingBatches.peer_is_idle. simpl. by rewrite lookup_singleton_eq.
Qed.
Lemma request_busy (x : SyncingChain Peer) io r b :
  peer_pool x = {[p]} → pending_batches x = one_pending r b → net_open (io_net io) = true →
  SyncingChain.request_batches (E:=E) x io = Ok (x, io).
Proof.
  intros Hpool Hpe Hopen. unfold SyncingChain.request_batches. destruct (sync_state x); [done|].
  unfold SyncingChain.request_bound. rewrite Hopen. cbn [SyncingChain.request_loop].
  unfold SyncingChain.send_range_request at 1. by rewrite (next_peer_busy _ _ r b).
Qed.

(** With the peer free, the next batch is asked for if there is one. *)
Lemma request_one (x : SyncingChain Peer) io i :
  range_inv start target x io → peer_pool x = {[p]} → pending_batches x = mkPending ∅ ∅ →
  sync_state x = Syncing → target_head_slot x = target → target_head_root x = root →
  to_be_downloaded_id x = i → request_id (io_net io) + 2 < 2 ^ 64 →
  (buffered x ≤ 5)%nat → default 0 (batch_id <$> last (completed_batches x)) < i →
  if decide (start + (i - 1) * BLOCKS_PER_BATCH + 1 ≤ target) then
    ∃ n, SyncingChain.request_batches (E:=E) x io =
      Ok (SyncingChain.set_pending (SyncingChain.set_ids x (i + 1) (to_be_processed_id x))
            (one_pending (request_id (io_net io)) (batch_no i)), mkIO n (io_jobs io)) ∧
      request_id n = request_id (io_net io) + 1
  else SyncingChain.request_batches (E:=E) x io = Ok (x, io).
Proof.
  intros Hi Hpool Hpe Hst Ht Hr Hd Hid Hbuf Hlast.
  assert (Hnext : SyncingChain.get_next_peer x io = Some p).
  { unfold SyncingChain.get_next_peer. rewrite Hpool, shuffle_single, Hpe. done. }
  pose proof (get_next_batch_spec (E:=E) start target HT x io p Hi) as Hb. rewrite Ht, Hr, Hd in Hb. cbv zeta in Hb.
  pose proof (ri_start _ _ _ _ Hi). pose proof (ri_download _ _ _ _ Hi). pose proof (ri_next _ _ _ _ Hi).
  unfold SyncingChain.request_batches. rewrite Hst. unfold SyncingChain.request_bound.
  rewrite (ri_open _ _ _ _ Hi), Hpool, size_singleton. cbn [SyncingChain.request_loop].
  destruct (decide (start + (i - 1) * BLOCKS_PER_BATCH + 1 ≤ target)) as [Hle|Hle].
  - rewrite decide_True in Hb by done. fold (batch_no i) in Hb. rewrite Z.max_l in Hb by lia.
    destruct (send_batch_one (SyncingChain.set_ids x (i + 1) (to_be_processed_id x)) io (batch_no i))
      as (n & Hsend & Hn); [done|done| |lia|lia|lia|apply Hi|].
    { unfold batch_ok, batch_no, BLOCKS_PER_BATCH in *. simpl. split_and!; try done; lia. }
    exists n. split; [|done].
    assert (Hrr : SyncingChain.send_range_request (E:=E) x io =
      Ok (SyncingChain.set_pending (SyncingChain.set_ids x (i + 1) (to_be_processed_id x))
            (one_pending (request_id (io_net io)) (batch_no i)), mkIO n (io_jobs io), true)).
    { unfold SyncingChain.send_range_request. rewrite Hnext, Hb, bind_Ok. simpl snd. cbv iota. simpl fst.
      by rewrite Hsend. }
    rewrite Hrr, bind_Ok. simpl snd. cbv iota. simpl fst.
    unfold SyncingChain.send_range_request. by rewrite (next_peer_busy _ _ (request_id (io_net io)) (batch_no i)).
  - rewrite decide_False in Hb by naive_solver.
    assert (Hrr : SyncingChain.send_range_request (E:=E) x io = Ok (x, io, false)).
    { unfold SyncingChain.send_range_request. by rewrite Hnext, Hb. }
    by rewrite Hrr.
Qed.
(** The blocks of an answer arrive. *)
Lemma receive_all s io i r l l' tail :
  chains s = waiting i r l →
  sync_run (E:=E) s io ((RangeResponse r ∘ Some <$> l') ++ tail) =
  sync_run (mkRangeSync (waiting i r (l ++ l')) (awaiting_head_peers s)) io tail.
Proof.
  revert s l. induction l' as [|b l' IH]; intros s l Hs.
  { rewrite app_nil_r, <-Hs. by destruct s. }
  change ((RangeResponse r ∘ Some <$> b :: l') ++ tail) with
    (RangeResponse (Peer:=Peer) r (Some b) :: ((RangeResponse r ∘ Some <$> l') ++ tail)).
  cbn [sync_run sync_step]. unfold RangeSync.blocks_by_range_response. rewrite Hs.
  unfold SyncingChain.on_block_response, PendingBatches.add_block. simpl. rewrite lookup_singleton_eq. simpl.
  rewrite (IH _ (l ++ [b])); simpl.
  - by rewrite <-app_assoc.
  - unfold SyncingChain.set_pending, waiting, one_pending. simpl. by rewrite insert_singleton_eq.
Qed.
(** More batches follow batch [i]. *)
Definition more (i : Z) : bool := bool_decide (start + i * BLOCKS_PER_BATCH + 1 ≤ target).

(** The blocks of batch [i]: all of them, at their heights. *)
Record full_batch (i : Z) (l : list Block) : Prop := {
  fb_first : Block.block_height <$> head l = Some (start + (i - 1) * BLOCKS_PER_BATCH + 1);
  fb_last : Block.block_height <$> last l = Some (end_number (batch_no i) - 1);
}.

(** Batch [i] is with the block processor; the next one is asked for with number [r]. *)
Definition processing (i r : Z) : SyncingChain Peer :=
  mkSyncingChain start target root
    (if more i then one_pending r (batch_no (i + 1)) else mkPending ∅ ∅) [] [] {[p]}
    (if more i then i + 2 else i + 1) i Syncing (Some (batch_no i)).

Lemma batch_complete s io i r l :
  chains s = waiting i r l → range_inv start target (chains s) io → full_batch i l →
  request_id (io_net io) + 2 < 2 ^ 64 →
  ∃ n, sync_step (E:=E) s io (RangeResponse r None) =
      Ok (mkRangeSync (processing i (request_id (io_net io))) (awaiting_head_peers s),
          mkIO n (io_jobs io ++ [(i, l)])) ∧
    request_id n = request_id (io_net io) + (if more i then 1 else 0).
Proof.
  intros Hs Hi [Hf Hl] Hid. rewrite Hs in Hi. set (b := Batch.set_blocks (batch_no i) l).
  destruct (range_inv_remove start target _ _ r b Hi) as (_ & Hi1 & Hbuf); [apply lookup_singleton_eq|].
  pose proof (range_inv_completed _ _ _ _ _ Hi1 Hbuf (ri_batches _ _ _ _ Hi r b ltac:(apply lookup_singleton_eq))) as Hi2.
  simpl in Hi2. rewrite !delete_singleton_eq in Hi2.
  pose proof (ri_download _ _ _ _ Hi) as Hd. simpl in Hd.
  cbn [sync_step]. unfold RangeSync.blocks_by_range_response. rewrite Hs.
  unfold SyncingChain.on_block_response. simpl pending_batches. rewrite remove_one by done.
  fold b. unfold SyncingChain.handle_completed_batch.
  assert (SyncingChain.out_of_range b = false) as ->.
  { unfold SyncingChain.out_of_range. simpl. destruct (head l) as [x|], (last l) as [y|]; try done. simpl in *.
    injection Hf as Hf. injection Hl as Hl. apply bool_decide_eq_false. simpl. lia. }
  set (x := SyncingChain.set_completed _ _) in *. change (SyncingChain.set_completed _ _) with x.
  pose proof (request_one x io (i + 1) Hi2 eq_refl eq_refl eq_refl eq_refl eq_refl eq_refl Hid) as Hreq.
  unfold more, processing. rewrite Z.add_simpl_r in Hreq.
  change (default 0 _) with i in Hreq. specialize (Hreq ltac:(unfold buffered, PendingBatches.len; simpl; rewrite map_size_empty; lia) ltac:(lia)).
  assert (Hpc : ∀ y (io' : SyncIO Peer MsgId), completed_batches y = [b] → sync_state y = Syncing →
    current_processing_batch y = None → to_be_processed_id y = i →
    SyncingChain.process_completed_batches y io' =
      (SyncingChain.set_current (SyncingChain.set_completed y []) (Some (batch_no i)), mkIO (io_net io') (io_jobs io' ++ [(i, l)]))).
  { intros y io' Hy1 Hy2 Hy3 Hy4. unfold SyncingChain.process_completed_batches. rewrite Hy1, Hy2, Hy3, Hy4.
    by rewrite decide_True. }
  unfold more. case_bool_decide as Hmore; [rewrite decide_True in Hreq by done|rewrite decide_False in Hreq by done].
  - destruct Hreq as (n & -> & Hn). rewrite bind_Ok. simpl fst; simpl snd. rewrite Hpc by done.
    exists n. split; [|done]. simpl. do 3 f_equal. unfold SyncingChain.set_current. simpl. f_equal. lia.
  - rewrite Hreq, bind_Ok. simpl fst; simpl snd. rewrite Hpc by done. exists (io_net io). split; [done|lia].
Qed.
Lemma batch_processed s io i r l status :
  chains s = processing i r → full_batch i l → range_inv start target (chains s) io →
  request_id (io_net io) + 2 < 2 ^ 64 →
  if more i then
    sync_step (E:=E) s io (Processed i l Success status) =
      Ok (mkRangeSync (waiting (i + 1) r []) (awaiting_head_peers s), io)
  else
    ∃ s' io', sync_step (E:=E) s io (Processed i l Success status) = Ok (s', io') ∧
      sync_state (chains s') = Stopped ∧ io_jobs io' = io_jobs io.
Proof.
  intros Hs [Hf Hl] Hi Hid. cbn [sync_step]. unfold RangeSync.handle_block_process_result. rewrite Hs in *.
  destruct (range_inv_next start target HT _ _ (batch_no i) Hi eq_refl) as [Hi1 Hin].
  pose proof (ri_next _ _ _ _ Hi). pose proof (ri_start _ _ _ _ Hi) as [_ ?].
  unfold SyncingChain.on_batch_process_result. simpl current_processing_batch. cbv iota.
  rewrite decide_False by (intros Hn; by apply Hn). cbv zeta.
  simpl to_be_processed_id. simpl to_be_processed_id in Hin. unfold add_u. rewrite (arith_in 64 (i + 1)) by done.
  rewrite bind_Ok. destruct l as [|b0 l]; [done|]. cbv iota.
  set (x1 := SyncingChain.set_ids _ _ _) in *.
  change (processed_batches x1) with (@nil (Batch Peer)). cbn [SyncingChain.validate_processed]. rewrite !bind_Ok.
  unfold mret, outcome_mret. rewrite bind_Ok. simpl snd. simpl fst. cbv zeta.
  pose proof (ri_process _ _ _ _ Hi) as Hpr. simpl in Hpr.
  rewrite decide_True by (rewrite Hl; unfold sat_sub; simpl; unfold BLOCKS_PER_BATCH in *; f_equal; lia).
  assert (Hi2 : range_inv start target (SyncingChain.set_processed x1 []) (mkIO (io_net io) (io_jobs io))).
  { destruct io. by apply range_inv_processed. }
  rewrite (current_processed_slot_spec (E:=E) start target HT _ _ Hi2), bind_Ok. simpl to_be_processed_id.
  simpl target_head_slot. rewrite Z.add_simpl_r. replace (mkIO (io_net io) (io_jobs io)) with io in * by by destruct io.
  destruct (more i) eqn:Hm; unfold more in Hm;
    [apply bool_decide_eq_true in Hm as Hle|apply bool_decide_eq_false in Hm as Hle].
  - rewrite decide_False by lia.
    rewrite (request_busy _ _ r (batch_no (i + 1))); [|done| |apply Hi].
    2:{ simpl. unfold more. by rewrite Hm. }
    rewrite bind_Ok. simpl. unfold mret, outcome_mret. do 2 f_equal. unfold SyncingChain.set_processed, waiting.
    simpl. unfold more. rewrite Hm. do 2 f_equal. lia.
  - rewrite decide_True by lia. rewrite bind_Ok. unfold SyncingChain.status_peers. simpl peer_pool.
    rewrite pool_iter_single.
    destruct (status_all_spec (E:=E) start target [p] status (io_net io)) as (sent & -> & _);
      [apply Hi|done|simpl; lia|]. rewrite bind_Ok. eexists _, _. split; [done|]. by split.
Qed.
(** The blocks that are still to come stand at their heights. *)
Definition at_heights (h : Z) (l : list Block) : Prop :=
  ∀ j (b : Block), l !! j = Some b → height (header b) = h + 1 + Z.of_nat j.

Lemma at_heights_app h l l' : at_heights h (l ++ l') → at_heights h l ∧ at_heights (h + Z.of_nat (length l)) l'.
Proof.
  intros Ha. split; intros j b Hj.
  - apply Ha. by apply lookup_app_l_Some.
  - rewrite (Ha (length l + j)%nat b); [lia|]. rewrite lookup_app_r by lia. rewrite <-Hj. f_equal. lia.
Qed.

Lemma at_heights_full i l :
  at_heights (start + (i - 1) * BLOCKS_PER_BATCH) l → (1 ≤ length l)%nat →
  end_number (batch_no i) = start + (i - 1) * BLOCKS_PER_BATCH + 1 + Z.of_nat (length l) → full_batch i l.
Proof.
  intros Ha Hl He. split.
  - destruct l as [|b l]; [simpl in Hl; lia|]. simpl. unfold Block.block_height. rewrite (Ha O b eq_refl). f_equal. lia.
  - rewrite He. destruct (last l) as [b|] eqn:Hb; [|apply last_None in Hb; subst; simpl in Hl; lia].
    rewrite last_lookup in Hb. simpl. unfold Block.block_height. rewrite (Ha _ _ Hb). f_equal. lia.
Qed.

(** One batch is imported. *)
Lemma round_complete c q bs s io i r l c1 :
  chains s = waiting i r [] → range_inv start target (chains s) io → request_id (io_net io) = r + 1 →
  full_batch i l → (length l ≤ 5)%nat → r + 500 < 2 ^ 64 →
  cs_holds c (q :: bs) → admissible_run (q :: bs) l → import_each c l = Some c1 →
  ∃ s' io', sync_round (E:=E) c s io r l = Ok (c1, s', io') ∧
    (more i = true → chains s' = waiting (i + 1) (r + 1) [] ∧ range_inv start target (chains s') io' ∧
       request_id (io_net io') = r + 2) ∧
    (more i = false → sync_state (chains s') = Stopped).
Proof.
  intros Hs Hi Hid Hfb Hlen Hb Hc Ha Him. unfold sync_round. rewrite (receive_all s io i r [] l) by done. simpl app.
  set (s1 := mkRangeSync (waiting i r l) (awaiting_head_peers s)).
  assert (Hi1 : range_inv start target (chains s1) io).
  { destruct (sync_run_spec (E:=E) start target HT (RangeResponse r ∘ Some <$> l) s io Hi) as (s' & io' & Hr & Hi').
    - apply Forall_fmap. by apply Forall_true.
    - rewrite length_fmap, Hs, Hid. simpl peer_pool. rewrite size_singleton. nia.
    - pose proof (receive_all s io i r [] l [] Hs) as Hra. rewrite app_nil_r in Hra. rewrite Hra in Hr.
      simpl in Hr. by injection Hr as <- <-. }
  destruct (batch_complete s1 io i r l eq_refl Hi1 Hfb) as (n & Hst & Hn); [lia|].
  destruct (sync_step_spec (E:=E) start target HT s1 io (RangeResponse r None) Hi1 I) as (s2' & io2' & Hst' & Hi2 & _);
    [change (peer_pool (chains s1)) with ({[p]} : gset Peer); rewrite size_singleton; lia|].
  rewrite Hst in Hst'. injection Hst' as <- <-. cbn [sync_run]. rewrite Hst, !bind_Ok. simpl snd. simpl fst.
  simpl io_jobs. rewrite last_snoc. simpl unwrap. rewrite !bind_Ok.
  unfold BlockProcessor.spawn_block_processor, BlockProcessor.process_blocks.
  rewrite (cs_current_spec _ _ _ Hc), bind_Ok. simpl snd. rewrite (import_each_prefix (E:=E) c l c1 Him). simpl.
  pose proof (import_each_holds c q bs l c1 Hc Ha Him) as Hh.
  destruct (cs_nonempty _ _ Hh) as (q' & bs' & Hq'). rewrite Hq' in Hh.
  unfold local_status. rewrite (cs_current_spec _ _ _ Hh). simpl.
  set (status := mkStatusMessage _ _ _ _ _). set (s2 := mkRangeSync (processing _ _) _) in *. set (io2 := mkIO _ _) in *.
  pose proof (batch_processed s2 io2 i _ l status eq_refl Hfb Hi2 ltac:(simpl; rewrite Hn; destruct (more i); lia)) as Hp.
  destruct (sync_step_spec (E:=E) start target HT s2 io2 (Processed i l Success status) Hi2 I) as (s3 & io3 & Hst3 & Hi3 & _).
  { change (peer_pool (chains s2)) with ({[p]} : gset Peer). rewrite size_singleton. simpl. rewrite Hn. destruct (more i); lia. }
  simpl in Hst3. change (sync_step s2 io2 (Processed i l Success status)) with
    (RangeSync.handle_block_process_result (E:=E) s2 io2 i l Success status) in Hp.
  destruct (more i) eqn:Hm.
  - rewrite Hp in *. injection Hst3 as <- <-. simpl. eexists _, _. split; [done|]. split; [|done]. intros _.
    rewrite Hid in *. split; [done|]. split; [done|]. simpl. lia.
  - destruct Hp as (s' & io' & -> & Hstop & _). simpl. eexists _, _. by split.
Qed.
Lemma admissible_run_app bs l l' :
  admissible_run bs (l ++ l') → admissible_run bs l ∧ admissible_run (rev l ++ bs) l'.
Proof.
  intros Ha. split; intros cc k b Hcc Hbl.
  - destruct (decide (k ≤ length l)%nat).
    + apply (Ha cc k b); [|set_solver]. by rewrite take_app_le by lia.
    + apply (Ha cc (length l) b); [|set_solver]. rewrite take_app_length. by rewrite take_ge in Hcc by lia.
  - apply (Ha cc (length l + k)%nat b); [|set_solver].
    rewrite take_app_add. by rewrite rev_app_distr, <-app_assoc.
Qed.

Lemma rounds_complete chunks c q bs s io i r c' :
  batched chunks → chains s = waiting i r [] → range_inv start target (chains s) io →
  request_id (io_net io) = r + 1 →
  at_heights (start + (i - 1) * BLOCKS_PER_BATCH) (concat chunks) →
  target = start + (i - 1) * BLOCKS_PER_BATCH + Z.of_nat (length (concat chunks)) →
  r + 500 + Z.of_nat (length chunks) < 2 ^ 64 →
  cs_holds c (q :: bs) → admissible_run (q :: bs) (concat chunks) → import_each c (concat chunks) = Some c' →
  ∃ s' io', sync_rounds (E:=E) c s io r chunks = Ok (c', s', io') ∧ sync_state (chains s') = Stopped.
Proof.
  revert c q bs s io i r. induction chunks as [|l chunks IH]; intros c q bs s io i r Hb Hs Hi Hid Hh Ht Hr Hc Ha Him; [done|].
  simpl in Hh, Ht, Ha, Him, Hr. rewrite length_app in Ht. rewrite import_each_app in Him.
  destruct (import_each c l) as [c1|] eqn:Hc1; [|done]. simpl in Him.
  apply at_heights_app in Hh as [Hh Hh'].
  assert (Hlen : (1 ≤ length l ≤ 5)%nat ∧ (chunks = [] ∨ (length l = 5%nat ∧ batched chunks ∧ (1 ≤ length (concat chunks))%nat))).
  { destruct chunks as [|l' ch]; [by split; [|left]|]. destruct Hb as [Hb Hb']. split; [lia|right].
    split_and!; [done..|]. destruct ch; simpl in *; rewrite ?length_app; destruct_and?; lia. }
  destruct Hlen as [Hlen Hnext].
  assert (Hfb : full_batch i l).
  { apply at_heights_full; [done|lia|]. unfold batch_no, BLOCKS_PER_BATCH in *. simpl.
    destruct Hnext as [->|(? & _ & ?)]; simpl in *; lia. }
  destruct (admissible_run_app _ _ _ Ha) as [Hal Hal'].
  destruct (round_complete c q bs s io i r l c1) as (s1 & io1 & Hround & Hm & Hstop); [(done || lia)..|].
  simpl. rewrite Hround, bind_Ok. simpl.
  destruct Hnext as [->|(Hl5 & Hb' & Hne)].
  - injection Him as <-. exists s1, io1. split; [done|]. apply Hstop. unfold more. apply bool_decide_eq_false.
    unfold BLOCKS_PER_BATCH in *. simpl in *. lia.
  - assert (Hmore : more i = true).
    { unfold more. apply bool_decide_eq_true. unfold BLOCKS_PER_BATCH in *. lia. }
    destruct (Hm Hmore) as (Hs1 & Hi1 & Hid1).
    pose proof (import_each_holds c q bs l c1 Hc Hal Hc1) as Hh1.
    destruct (cs_nonempty _ _ Hh1) as (q1 & bs1 & Hq1). rewrite Hq1 in *.
    apply (IH c1 q1 bs1 s1 io1 (i + 1) (r + 1)); try done; unfold BLOCKS_PER_BATCH in *; try lia.
    intros j b Hj. rewrite (Hh' j b Hj). lia.
Qed.

(** The first peer starts the sync. *)
Lemma first_request :
  0 ≤ start → start + 1 ≤ target →
  ∃ n, sync_step (E:=E) (RangeSync.new start) (mkIO (SyncNetworkContext.new (MsgId:=MsgId)) []) (PeerAdded p target root start) =
    Ok (mkRangeSync (waiting 1 0 []) ∅, mkIO n []) ∧ request_id n = 1.
Proof.
  intros Hs Ht. cbn [sync_step]. unfold RangeSync.add_peer, SyncingChain.add_peer. simpl. rewrite (left_id_L ∅ (∪)).
  set (x := SyncingChain.set_peers _ _).
  assert (Hx : range_inv start target x (mkIO (SyncNetworkContext.new (MsgId:=MsgId)) [])).
  { pose proof (new_inv (Peer:=Peer) (MsgId:=MsgId) start target ltac:(lia)) as Hn. destruct Hn. constructor; try done; simpl; lia. }
  unfold SyncingChain.start_syncing. rewrite (current_processed_slot_spec (E:=E) start target HT _ _ Hx), bind_Ok. cbv zeta.
  rewrite decide_False by (simpl; lia). unfold SyncingChain.process_completed_batches. simpl sync_state. cbv iota. simpl completed_batches. cbv iota.
  simpl fst. simpl snd.
  pose proof (request_one (SyncingChain.set_state x Syncing) (mkIO (SyncNetworkContext.new (MsgId:=MsgId)) []) 1) as Hr.
  simpl in Hr. rewrite decide_True in Hr by lia.
  destruct Hr as (n & -> & Hn); try done; try lia.
  { destruct Hx. by constructor. }
  { unfold buffered, PendingBatches.len. simpl. rewrite map_size_empty. lia. }
  rewrite bind_Ok. by exists n.
Qed.
End Liveness.

(** ** Theorem *)
Section Completion.
Context {C Peer MsgId : Type} `{CL : ChainServiceLaws C, Countable Peer, PO : !PeerOrder Peer, PL : !PeerOrderLaws Peer}.
Context `{P : Profile, BatchDigest, Bincode (list Block)} {E : Type}.

Lemma batched_length chunks : batched chunks → (1 ≤ length chunks ≤ length (concat chunks))%nat.
Proof.
  induction chunks as [|l [|l' ch] IH]; intros Hb; [done|simpl in *; rewrite app_nil_r; lia|].
  destruct Hb as [Hl Hb]. specialize (IH Hb). simpl in *. rewrite length_app. lia.
Qed.

(** C28: A peer whose chain extends the local one is synced with to the end: its blocks
    arrive in batches of five, every block is imported, and the sync stops at the
    announced height with the peer's chain. *)
Theorem range_sync_completes c q bs (p : Peer) (root : Hash) chunks c' :
  cs_holds c (q :: bs) → batched chunks →
  let start := height (header q) in
  let target := start + Z.of_nat (length (concat chunks)) in
  target + 500 < 2 ^ 64 → at_heights start (concat chunks) →
  admissible_run (q :: bs) (concat chunks) → import_each c (concat chunks) = Some c' →
  ∃ s1 io1 s' io',
    sync_step (E:=E) (RangeSync.new start) (mkIO (SyncNetworkContext.new (MsgId:=MsgId)) [])
      (PeerAdded p target root start) = Ok (s1, io1) ∧
    sync_rounds (E:=E) c s1 io1 0 chunks = Ok (c', s', io') ∧
    sync_state (chains s') = Stopped ∧ cs_holds c' (rev (concat chunks) ++ q :: bs).
Proof.
  intros Hc Hb start target HT Hh Ha Him.
  pose proof (cs_heights c (q :: bs) O q Hc eq_refl) as Hq. simpl length in Hq.
  pose proof (batched_length _ Hb) as Hlen.
  assert (HT' : target + 11 < 2 ^ 64) by lia.
  destruct (first_request (E:=E) (MsgId:=MsgId) p start target root HT') as (n & Hst & Hn); [lia|lia|].
  destruct (sync_step_spec (E:=E) start target HT' (RangeSync.new start) (mkIO (SyncNetworkContext.new (MsgId:=MsgId)) [])
    (PeerAdded p target root start)) as (s1 & io1 & Hst' & Hi1 & _).
  { apply new_inv. lia. } { simpl. lia. }
  { change (peer_pool (chains (RangeSync.new start))) with (∅ : gset Peer). rewrite size_empty. simpl. lia. }
  rewrite Hst in Hst'. injection Hst' as <- <-.
  destruct (rounds_complete (E:=E) p start target root HT' chunks c q bs
    (mkRangeSync (waiting p start target root 1 0 []) ∅) (mkIO n []) 1 0 c') as (s' & io' & Hr & Hstop);
    [(done || lia)..| | |lia|done|done|done|].
  - intros j b Hj. rewrite (Hh j b Hj). lia.
  - lia.
  - eexists _, _, s', io'. split; [exact Hst|]. split; [exact Hr|]. split; [done|]. by eapply import_each_holds.
Qed.
End Completion.

Section SyncLiveWitness.
Import HandlerEx.

Lemma range_sync_completes_witness :
  ∃ c' s1 io1 s' io',
    sync_step (E:=unit) (RangeSync.new (height (header g0))) (mkIO (SyncNetworkContext.new (Peer:=Z) (MsgId:=unit)) [])
      (PeerAdded 7 (height (header g0) + 2) root (height (header g0))) = Ok (s1, io1) ∧
    sync_rounds (E:=unit) gen s1 io1 0 [[b1; b2]] = Ok (c', s', io') ∧
    sync_state (chains s') = Stopped ∧ cs_holds c' [b2; b1; g0].
Proof.
  destruct gen_import_each as [c' Hi].
  exists c'. apply (range_sync_completes (E:=unit) gen g0 [] 7 root [[b1; b2]] c' gen_holds).
  - simpl. lia.
  - rewrite g0_height. simpl. lia.
  - rewrite g0_height. intros [|[|j]] b Hj; [injection Hj as <-; reflexivity|injection Hj as <-; reflexivity|discriminate Hj].
  - exact ex_admissible.
  - exact Hi.
Defined.
End SyncLiveWitness.
