(* ===== verification/Epoch.v ===== *)
(** * Epoch: slots, proposers and block production (src/generator)

    A node is woken at every slot, finds out by its VRF whether it proposes,
    builds a block from the pool on top of the head, imports it, clears the
    pool and publishes it. *)
From S2P Require Import Prelude Hashing Types Codec Keys Store State StateExample Vrf.
From S2P Require Import Transaction Storage Balance Block Executor Staking Runtime ChainStore BlockChain TxPool.

Definition EPOCH_LENGTH : Z := 64.
Definition SLOT_DURATION : Z := 6.

(** ** Epochs and heights *)
Module EpochId.
Definition epoch_from_height (h : Z) : Z := h / EPOCH_LENGTH.
Definition epoch_from_id (sid : Z) : Z := sid / EPOCH_LENGTH.
(** [eid as i64]: two's complement. *)
Definition as_i64 (x : Z) : Z := if decide (x < 2 ^ 63) then x else x - 2 ^ 64.
Definition get_height_from_eid `{P : Profile} {E} (eid : Z) : Outcome E (Z * Z) :=
  if decide (as_i64 eid ≤ 0) then Ok (0, 0) else
  e ← sub_u 64 eid 1;
  low ← mul_u 64 e EPOCH_LENGTH;
  h ← mul_u 64 eid EPOCH_LENGTH;
  hi ← sub_u 64 h 1;
  mret (low, hi).
End EpochId.

(** ** The slot clock

    Instants and durations in milliseconds; [now] is the wall clock since the
    Unix epoch and [instant] the monotonic clock. *)
Record SlotTick : Type := mkSlotTick {
  slot_duration : Z;      (* seconds *)
  delay : Z;              (* the deadline, an instant *)
  genesis_duration : Z;
}.

Module SlotTick.
Definition new (instant now duration genesis : Z) : SlotTick :=
  let timeout := if decide (now < genesis) then instant + (genesis - now) else instant in
  mkSlotTick duration timeout genesis.
(** [None]: not ready. The division panics on a zero duration. *)
Definition poll `{P : Profile} {E} (t : SlotTick) (instant now : Z)
    : Outcome E (SlotTick * option Z) :=
  if decide (instant < delay t) then Ok (t, None) else
  let t := mkSlotTick (slot_duration t) (delay t + slot_duration t * 1000) (genesis_duration t) in
  elapsed ← sub_u 128 now (genesis_duration t);
  if decide (slot_duration t = 0) then Panic else
  let slot := elapsed / (slot_duration t * 1000) in
  mret (t, Some (slot mod 2 ^ 64)).
End SlotTick.

(** ** Validators of an epoch *)
Record ValidatorStake : Type := mkValidatorStake {
  vs_pubkey : bytes;
  stake_amount : Z;
  sid : Z;
  vs_validator : bool;
}.
Module ValidatorStake.
Definition set_sid (v : ValidatorStake) (i : Z) : ValidatorStake :=
  mkValidatorStake (vs_pubkey v) (stake_amount v) i (vs_validator v).
Definition get_sid (v : ValidatorStake) : Z := sid v.
Definition is_validator (v : ValidatorStake) : bool := vs_validator v.
Definition get_my_id `{Blake2b} (v : ValidatorStake) : Hash := Hash.make_hash (vs_pubkey v).
Definition get_pubkey {E} (v : ValidatorStake) : Outcome E Pubkey := Pubkey.from_bytes (vs_pubkey v).
End ValidatorStake.

Record EpochInfo : Type := mkEpochInfo {
  seed : Z;
  rng_seed : bytes;
  validators : list ValidatorStake;
}.

(** The number [1f64 - (empty/1000).powf(1/num)] as the exact fraction
    [BigRational::from_float] makes of it, [None] when it is not finite. *)
Class FloatPow : Type := skip_complement : Z → Z → option (Z * Z).

Definition calc_random_threshold `{FloatPow} {E} (empty num : Z) : Outcome E Z :=
  p ← unwrap (skip_complement empty num);
  let (numer, denom) := (p : Z * Z) in
  if decide (numer < 0 ∨ denom < 0) then Panic else
  let t := 2 ^ 128 * numer / denom in
  mret (if decide (t < 2 ^ 128) then t else 2 ^ 128 - 1).

(** [copy_from_slice(&random_value.0[..16])] *)
Definition cmp_random_threshold (random_value : Value) (threshold : Z) : bool :=
  bool_decide (from_be_bytes (take 16 (value_bytes random_value)) < threshold).

(** A computation with a loop: [None] when the fuel runs out. *)
Definition fbind {E A B} (m : option (Outcome E A)) (f : A → option (Outcome E B))
    : option (Outcome E B) :=
  match m with
  | None => None
  | Some (Ok a) => f a
  | Some (Err e) => Some (Err e)
  | Some Panic => Some Panic
  end.

(** The chain the engine shares is an argument of its operations. *)
Record EpochPoS : Type := mkEpochPoS {
  epoch_infos : gmap Z EpochInfo;
  eid : Z;
  dev_mode : bool;
}.

Module EpochPoS.
Section EpochPoS.
Context {D M TM R : Type} `{P : Profile, KVDB D, MemoryDB M, TO : !TrieOps (ArchiveDB D M) TM}.
Context `{IterOrder, RocksDB R, Blake2b, Ed25519, Ristretto, FloatPow}.
Context `{Bincode Account, Bincode MsgTransfer, Bincode TxHashType, Bincode ListEntry}.
Context `{Bincode Header, Bincode Block} {E : Type}.
Implicit Types (bc : BlockChain D M R) (s : EpochPoS).

Definition new (dev : bool) : EpochPoS := mkEpochPoS ∅ 0 dev.

Definition holder (v : Validator) : Outcome E ValidatorStake :=
  pk ← copy_from_slice 32 (v_pubkey v);
  mret (mkValidatorStake pk (v_effective_balance v) 0 true).
Fixpoint holders (l : list Validator) : Outcome E (list ValidatorStake) :=
  match l with
  | [] => Ok []
  | v :: l => h ← holder v; hs ← holders l; mret (h :: hs)
  end.

Definition genesis_epoch (fuel : nat) bc s : option (Outcome E EpochInfo) :=
  match BlockChain.current_block bc with
  | Ok cur_block =>
      let state := Staking.new (BlockChain.state_at bc (Block.state_root cur_block)) in
      fbind (Staking.validator_set fuel state) (λ vals, Some (
        hs ← holders (if dev_mode s then take 1 vals else vals);
        mret (mkEpochInfo 0 (replicate 32 0) hs)))
  | Err e => Some (Err e)
  | Panic => Some Panic
  end.

Definition next_epoch s : Outcome E EpochPoS :=
  e ← add_u 64 (eid s) 1;
  mret (mkEpochPoS (epoch_infos s) e (dev_mode s)).
Definition dev_node s : bool := dev_mode s.

(** The block number is fixed at zero; the product is still computed. *)
Definition compute_epoch_seed bc (epoch : Z) : Outcome E (option bytes) :=
  _ ← mul_u 64 epoch EPOCH_LENGTH;
  block ← BlockChain.get_block_by_number bc 0;
  mret (match block with
        | Some b =>
            let seed := if decide (epoch = 0) then replicate 32 0 else hash_bytes (Block.hash b) in
            Some (blake2b_256 seed)
        | None => None
        end).

Definition get_epoch_info (fuel : nat) bc s (e : Z) : option (Outcome E EpochInfo) :=
  match epoch_infos s !! e with
  | Some v => Some (Ok v)
  | None =>
      fbind (genesis_epoch fuel bc s) (λ epoch, Some (
        if decide (e > 0) then
          o ← compute_epoch_seed bc e;
          r ← unwrap o;
          mret (mkEpochInfo (seed epoch) r (validators epoch))
        else Ok epoch))
  end.

(** The remainder panics on an empty committee. *)
Definition get_proposer_index (stake : EpochInfo) (slot_index : Z) (sd : bytes) : Outcome E Z :=
  let count := Z.of_nat (length (validators stake)) in
  let slot_seed := blake2b_256 (sd ++ to_be_bytes 8 slot_index) in
  b ← copy_from_slice 8 (drop 24 slot_seed);
  if decide (count = 0) then Panic else Ok (from_be_bytes b mod count).

Definition get_slot_proposer (fuel : nat) bc s (index e : Z)
    : option (Outcome E (option ValidatorStake)) :=
  fbind (get_epoch_info fuel bc s e) (λ epoch, Some (
    let i := index mod EPOCH_LENGTH in
    proposer ← get_proposer_index epoch i (rng_seed epoch);
    if decide (proposer >= Z.of_nat (length (validators epoch))) then Ok None else
    v ← unwrap (validators epoch !! Z.to_nat proposer);
    mret (Some v))).

Definition get_epoch_staking (fuel : nat) bc s (e : Z)
    : option (Outcome E (option (list ValidatorStake))) :=
  fbind (get_epoch_info fuel bc s e) (λ items, Some (Ok (
    let vv := filter (λ v, ValidatorStake.is_validator v = true) (validators items) in
    match vv with [] => None | _ => Some vv end))).

Definition calc_epoch_threshold (e : Z) (epoch : EpochInfo) : Outcome E Z :=
  calc_random_threshold 200 (Z.of_nat (length (validators epoch))).

Definition get_seed_by_epochid (fuel : nat) bc s (e : Z) : option (Outcome E Z) :=
  fbind (get_epoch_info fuel bc s e) (λ items, Some (Ok (seed items))).

(** [validators.iter().find(..).is_none()] negated. *)
Fixpoint is_member (l : list ValidatorStake) (k : PrivKey) : Outcome E bool :=
  match l with
  | [] => Ok false
  | x :: l =>
      pk ← Pubkey.from_bytes (vs_pubkey x);
      mine ← unwrap_res (PrivKey.to_pubkey k);
      if Pubkey.equal pk mine then Ok true else is_member l k
  end.

Definition vrf_input (epoch : EpochInfo) (slot : Z) : bytes :=
  blake2b_256 (rng_seed epoch ++ to_be_bytes 8 slot).

Definition make_slot_proposer (fuel : nat) bc s (slot : Z) (private_key : PrivKey)
    : option (Outcome E (option (Value * VrfProof))) :=
  let e := slot / EPOCH_LENGTH in
  fbind (get_epoch_info fuel bc s e) (λ epoch_data, Some (
    member ← is_member (validators epoch_data) private_key;
    if negb member then Ok None else
    secret_key ← convert_secret_key (PrivKey.to_bytes private_key);
    let vp := SecretKey.compute_vrf_with_proof secret_key (vrf_input epoch_data slot) in
    threshold ← calc_epoch_threshold e epoch_data;
    mret (if cmp_random_threshold vp.1 threshold then Some vp else None))).
End EpochPoS.
End EpochPoS.

(** ** Building blocks *)
Module Builder.
Section Builder.
Context {D M TM R : Type} `{P : Profile, KVDB D, MemoryDB M, TO : !TrieOps (ArchiveDB D M) TM}.
Context `{IterOrder, RocksDB R, Blake2b, Ed25519}.
Context `{Bincode Account, Bincode MsgTransfer, Bincode TxHashType}.
Context `{Bincode (list Transaction), Bincode (list VerificationItem), Bincode Header, Bincode Block}.
Context `{PoolOrder} {E : Type}.
Implicit Types (bc : BlockChain D M R) (tp : TxPoolManager).

Definition apply_block bc (root : Hash) (b : Block) : Outcome E (BlockChain D M R * Hash) :=
  let statedb := BlockChain.state_at bc root in
  r ← unwrap_res (Executor.exc_txs_in_block b (Balance.new statedb) Address_default);
  mret (BlockChain.sync bc (treedb r.1), r.2).

Definition prepare_transactions tp : list Transaction := TxPoolManager.get_pending tp.
Definition get_current_height bc : Outcome E Z :=
  b ← BlockChain.current_block bc; mret (Block.block_height b).
Definition get_head_block bc : Outcome E Block := BlockChain.current_block bc.
Definition get_block_by_height bc (h : Z) : Outcome E (option Block) :=
  BlockChain.get_block_by_number bc h.
Definition get_sid_from_current_block bc : Outcome E Z :=
  b ← BlockChain.current_block bc; add_u 64 (Block.block_height b) 1.

(** [now]: the wall clock in seconds.  Sealing executes the transactions, so
    the state they commit is in the shared backend before the import. *)
Definition produce_block bc tp (now slot : Z) (parent : Hash) (vrf_output : Value)
    (vrf_proof : VrfProof) : Outcome E (BlockChain D M R * Block) :=
  o ← BlockChain.get_block bc parent;
  pre ← unwrap o;
  let txs := prepare_transactions tp in
  let block := Block.new Header_default txs [] [] in
  r ← apply_block bc (Block.state_root pre) block;
  height ← add_u 64 (Block.block_height pre) 1;
  let h := header block in
  mret (r.1, mkBlock (mkHeader height parent slot (value_bytes vrf_output)
                        (VRFProof.new (proof_bytes vrf_proof)) (tx_root h) (sign_root h) r.2 now)
               (block_signs block) (Block.txs block) (proofs block)).
End Builder.
End Builder.

(** ** The proposal service *)
Record Node (D M R : Type) : Type := mkNode {
  node_chain : BlockChain D M R;
  node_pool : TxPoolManager;
  published : list Block;       (* newest first *)
}.
Arguments mkNode {D M R}. Arguments node_chain {D M R}.
Arguments node_pool {D M R}. Arguments published {D M R}.

(** The keys of the proposal service; the chain, the pool and the channel it shares are
    the [Node]. *)
Record Proposer : Type := mkProposer { pr_myid : PrivKey; pr_pubkey : Pubkey }.
Module EpochProposal.
Definition new `{Ed25519} {E} (mid : PrivKey) : Outcome E Proposer :=
  pubkey ← unwrap_res (PrivKey.to_pubkey mid); mret (mkProposer mid pubkey).
Section EpochProposal.
Context {D M TM R : Type} `{P : Profile, KVDB D, MemoryDB M, TO : !TrieOps (ArchiveDB D M) TM}.
Context `{IterOrder, RocksDB R, Blake2b, Ed25519, Hex, Ristretto, FloatPow}.
Context `{Bincode Account, Bincode MsgTransfer, Bincode TxHashType, Bincode ListEntry}.
Context `{Bincode (list Transaction), Bincode (list VerificationItem), Bincode Header, Bincode Block}.
Context `{PriorityHeap, PoolOrder} {E : Type}.
Implicit Types (n : Node D M R).

(** What [on_slot] does once the node is the proposer. *)
Definition propose n (now slot : Z) (value : Value) (proof : VrfProof) : Outcome E (Node D M R) :=
  current ← Builder.get_head_block (node_chain n);
  r ← Builder.produce_block (node_chain n) (node_pool n) now slot (Block.hash current) value proof;
  let b := r.2 in
  match BlockChain.insert_block r.1 b with
  | Err (_, bc) => Ok (mkNode bc (node_pool n) (published n))
  | Panic => Panic
  | Ok bc =>
      tp ← TxPoolManager.reset_pool bc (node_pool n) b;
      mret (mkNode bc tp (b :: published n))
  end.

Definition on_slot (fuel : nat) n (stake : EpochPoS) (myid : PrivKey) (now slot : Z)
    : option (Outcome E (Node D M R)) :=
  fbind (EpochPoS.make_slot_proposer fuel (node_chain n) stake slot myid) (λ o, Some (
    match o with
    | Some (value, proof) => propose n now slot value proof
    | None => Ok n
    end)).

(** The loop of [make_proposal]: each poll of the clock comes with the monotonic clock,
    the wall clock in milliseconds and the one in seconds that a block is stamped with. *)
Fixpoint proposal_loop (fuel : nat) n (stake : EpochPoS) (myid : PrivKey) (t : SlotTick) (polls : list (Z * Z * Z))
    : option (Outcome E (Node D M R)) :=
  match polls with
  | [] => Some (Ok n)
  | (instant, now, secs) :: polls =>
      match SlotTick.poll t instant now with
      | Ok (t, Some slot) =>
          fbind (on_slot fuel n stake myid secs slot) (λ n, proposal_loop fuel n stake myid t polls)
      | Ok (t, None) => proposal_loop fuel n stake myid t polls
      | Err e => Some (Err e)
      | Panic => Some Panic
      end
  end.
Definition make_proposal (fuel : nat) n (stake : EpochPoS) (p : Proposer) (instant now : Z) (polls : list (Z * Z * Z))
    : option (Outcome E (Node D M R)) :=
  proposal_loop fuel n stake (pr_myid p) (SlotTick.new instant now SLOT_DURATION (GENESIS_TIME * 1000)) polls.

Definition is_proposer (fuel : nat) n (stake : EpochPoS) (myid : PrivKey) (slot : Z)
    : option (Outcome E bool) :=
  if EpochPoS.dev_node stake then Some (Ok true) else
  fbind (EpochPoS.get_slot_proposer fuel (node_chain n) stake slot (slot / EPOCH_LENGTH))
    (λ o, Some (
      match o with
      | Some item =>
          mine ← unwrap_res (PrivKey.to_pubkey myid);
          pk ← ValidatorStake.get_pubkey item;
          mret (Pubkey.equal mine pk)
      | None => Ok false
      end)).
End EpochProposal.
End EpochProposal.

(** ** Properties of epochs and slots *)

(** The heights of [get_height_from_eid eid] are exactly those whose epoch,
    by [epoch_from_height], is [eid - 1]; the identifiers at which the function
    gives up are zero and those that are negative as [i64]. *)
Theorem epoch_height_range `{P : Profile} {E} e :
  in_u 64 e →
  (e = 0 ∨ 2 ^ 63 ≤ e → EpochId.get_height_from_eid (E:=E) e = Ok (0, 0)) ∧
  (0 < e → e * EPOCH_LENGTH < 2 ^ 64 →
   ∃ low hi, EpochId.get_height_from_eid (E:=E) e = Ok (low, hi) ∧ hi - low = EPOCH_LENGTH - 1 ∧
     ∀ h, low ≤ h ≤ hi ↔ EpochId.epoch_from_height h = e - 1).
Proof.
  unfold EPOCH_LENGTH, in_u. intros He. unfold EpochId.get_height_from_eid, EpochId.as_i64. split.
  - intros Hz. case_decide; case_decide; (done || lia).
  - intros Hpos Hlt. rewrite (decide_True (P:=e < 2 ^ 63)) by lia. rewrite decide_False by lia.
    unfold EPOCH_LENGTH, sub_u, mul_u.
    rewrite (arith_in _ (e - 1)) by (unfold in_u; lia). cbn [mbind outcome_mbind].
    rewrite (arith_in _ ((e - 1) * 64)), (arith_in _ (e * 64)) by (unfold in_u; lia).
    cbn [mbind outcome_mbind]. rewrite (arith_in _ (e * 64 - 1)) by (unfold in_u; lia).
    eexists _, _; split_and!; [done|lia|].
    intros h. unfold EpochId.epoch_from_height, EPOCH_LENGTH. split; intros Hh.
    + symmetry. apply (Z.div_unique _ _ _ (h - 64 * (e - 1))); lia.
    + pose proof (Z.div_mod h 64). pose proof (Z.mod_pos_bound h 64). lia.
Qed.

Lemma poll_ready `{P : Profile} {E} t instant now :
  delay t ≤ instant → 0 < slot_duration t → in_u 128 (now - genesis_duration t) →
  SlotTick.poll (E:=E) t instant now =
    Ok (mkSlotTick (slot_duration t) (delay t + slot_duration t * 1000) (genesis_duration t),
        Some (((now - genesis_duration t) / (slot_duration t * 1000)) mod 2 ^ 64)).
Proof.
  intros Hd Hs Hn. unfold SlotTick.poll. rewrite decide_False by lia. cbn [genesis_duration slot_duration].
  unfold sub_u. rewrite arith_in by done. cbn [mbind outcome_mbind]. by rewrite decide_False by lia.
Qed.

(** The clock polled [k] times at one moment. *)
Fixpoint poll_n `{P : Profile} {E} (k : nat) (t : SlotTick) (instant now : Z)
    : Outcome E (SlotTick * list (option Z)) :=
  match k with
  | O => Ok (t, [])
  | S k =>
      r ← SlotTick.poll t instant now;
      rs ← poll_n k r.1 instant now;
      mret (rs.1, r.2 :: rs.2)
  end.

(** The clock stays silent until its deadline, and a poll at the deadline
    yields the slot of the wall clock and sets the next deadline one slot
    later.  Polled late by [k] whole slots, it yields the current slot [k + 1]
    times before it falls silent again. *)
Theorem slot_tick_late `{P : Profile} {E} t instant now (k : nat) :
  0 < slot_duration t → in_u 128 (now - genesis_duration t) →
  delay t + Z.of_nat k * (slot_duration t * 1000) ≤ instant →
  instant < delay t + (Z.of_nat k + 1) * (slot_duration t * 1000) →
  ∃ t', poll_n (E:=E) (S k) t instant now =
          Ok (t', replicate (S k)
                (Some (((now - genesis_duration t) / (slot_duration t * 1000)) mod 2 ^ 64))) ∧
        slot_duration t' = slot_duration t ∧ genesis_duration t' = genesis_duration t ∧
        delay t' = delay t + (Z.of_nat k + 1) * (slot_duration t * 1000) ∧
        SlotTick.poll (E:=E) t' instant now = Ok (t', None).
Proof.
  intros Hs Hn. revert t Hs Hn. induction k as [|k IH]; intros t Hs Hn Hlo Hhi.
  - cbn [poll_n]. rewrite poll_ready by (done || lia). cbn [mbind outcome_mbind fst snd].
    eexists; split_and!; [done|done|done|cbn; lia|].
    unfold SlotTick.poll. rewrite decide_True; [done|]. cbn. lia.
  - change (poll_n (S (S k)) t instant now) with
      (r ← SlotTick.poll (E:=E) t instant now;
       rs ← poll_n (S k) r.1 instant now; mret (rs.1, r.2 :: rs.2)).
    rewrite poll_ready by (done || nia). rewrite bind_Ok. cbn [fst snd].
    destruct (IH (mkSlotTick (slot_duration t) (delay t + slot_duration t * 1000) (genesis_duration t)))
      as (t' & Ht' & Hd' & Hg' & Hdl & Hq); cbn [slot_duration genesis_duration delay] in *;
      [done|done|lia|lia|].
    rewrite Ht', bind_Ok. exists t'. split_and!; [done|done|done|lia|done].
Qed.

(** ** Choosing proposers *)
Section ProposerProperties.
Context {D M TM R : Type} `{P : Profile, KVDB D, MemoryDB M, TO : !TrieOps (ArchiveDB D M) TM}.
Context `{IterOrder, RocksDB R, HB : Blake2bLaws, EL : Ed25519Laws, RL : RistrettoLaws, FP : FloatPow}.
Context `{Bincode Account, Bincode MsgTransfer, Bincode TxHashType, Bincode ListEntry}.
Context `{Bincode Header, Bincode Block} {E : Type}.
Implicit Types (bc : BlockChain D M R) (s : EpochPoS).

Lemma proposer_index_spec (info : EpochInfo) i sd :
  EpochPoS.get_proposer_index (E:=E) info i sd =
    (if decide (validators info = []) then Panic
     else Ok (from_be_bytes (drop 24 (blake2b_256 (sd ++ to_be_bytes 8 i)))
              mod Z.of_nat (length (validators info)))).
Proof.
  unfold EpochPoS.get_proposer_index, copy_from_slice.
  rewrite decide_True by (rewrite length_drop, length_blake2b_256; lia). cbn [mbind outcome_mbind].
  destruct (validators info); [done|]. by rewrite !decide_False by (done || (simpl; lia)).
Qed.

(** Round-robin choice: a slot of an epoch with validators always has a
    proposer, it is one of them, and it is the same for two slots of the epoch
    only as the digest of seed and slot decides; an epoch without validators
    panics. *)
Theorem get_slot_proposer_spec fuel bc s index e info :
  EpochPoS.get_epoch_info (E:=E) fuel bc s e = Some (Ok info) →
  match validators info with
  | [] => EpochPoS.get_slot_proposer (E:=E) fuel bc s index e = Some Panic
  | _ => ∃ v, EpochPoS.get_slot_proposer (E:=E) fuel bc s index e = Some (Ok (Some v)) ∧
      v ∈ validators info ∧
      validators info !! Z.to_nat (from_be_bytes
        (drop 24 (blake2b_256 (rng_seed info ++ to_be_bytes 8 (index mod EPOCH_LENGTH))))
        mod Z.of_nat (length (validators info))) = Some v
  end.
Proof.
  intros Hi. unfold EpochPoS.get_slot_proposer. rewrite Hi. cbn [fbind].
  rewrite proposer_index_spec. destruct (validators info) as [|v0 l] eqn:Hv; [done|].
  rewrite decide_False by done. cbn [mbind outcome_mbind]. rewrite <-Hv.
  set (x := from_be_bytes _). assert (0 < Z.of_nat (length (validators info))) as Hl
    by (rewrite Hv; simpl; lia).
  pose proof (Z.mod_pos_bound x _ Hl) as Hb. rewrite decide_False by lia.
  destruct (lookup_lt_is_Some_2 (validators info) (Z.to_nat (x mod Z.of_nat (length (validators info)))))
    as [v Hx]; [lia|].
  exists v. rewrite Hx. split_and!; [done| |done]. by eapply list_elem_of_lookup_2.
Qed.

Lemma is_member_true l k :
  EpochPoS.is_member (E:=E) l k = Ok true →
  ∃ v, v ∈ l ∧ PrivKey.to_pubkey k = Ok (mkPubkey (take 32 (vs_pubkey v))).
Proof.
  induction l as [|x l IH]; cbn -[Pubkey.from_bytes PrivKey.to_pubkey]; [done|]. intros Hm.
  apply bind_Ok_inv in Hm as (pk & Hpk & Hm). apply bind_Ok_inv in Hm as (mine & Hmine & Hm).
  destruct (Pubkey.equal pk mine) eqn:Heq.
  - exists x. split; [set_solver|]. unfold Pubkey.equal in Heq. apply bool_decide_eq_true in Heq.
    unfold Pubkey.from_bytes, slice_to in Hpk. case_decide; [|done]. injection Hpk as <-.
    destruct (PrivKey.to_pubkey k) as [[mk]|?|]; simplify_eq/=. done.
  - destruct (IH Hm) as (v & Hv & Hk). exists v. split; [set_solver|done].
Qed.

(** C22: A node that finds itself proposer of a slot is one of the epoch's
    validators, its VRF value is below the threshold, and value and proof are
    accepted under its VRF key for the epoch's seed and the slot (but for the
    one digest at which the function is degenerate). *)
Theorem make_slot_proposer_sound fuel bc s slot k v pf :
  EpochPoS.make_slot_proposer (E:=E) fuel bc s slot k = Some (Ok (Some (v, pf))) →
  ∃ info x threshold,
    EpochPoS.get_epoch_info (E:=E) fuel bc s (slot / EPOCH_LENGTH) = Some (Ok info) ∧
    (∃ w, w ∈ validators info ∧ PrivKey.to_pubkey k = Ok (mkPubkey (take 32 (vs_pubkey w)))) ∧
    convert_secret_key (E:=E) (PrivKey.to_bytes k) = Ok (SecretKey.from_scalar x) ∧
    EpochPoS.calc_epoch_threshold (E:=E) (slot / EPOCH_LENGTH) info = Ok threshold ∧
    from_be_bytes (take 16 (value_bytes v)) < threshold ∧
    (Scalar.add x (PublicKey.offset (SecretKey.public_key (SecretKey.from_scalar x))
       (EpochPoS.vrf_input info slot)) ≠ 0 →
     PublicKey.is_vrf_valid (SecretKey.public_key (SecretKey.from_scalar x))
       (EpochPoS.vrf_input info slot) v pf = true).
Proof.
  unfold EpochPoS.make_slot_proposer.
  destruct (EpochPoS.get_epoch_info fuel bc s (slot / EPOCH_LENGTH)) as [[info|?|]|] eqn:Hi; try done.
  cbn [fbind]. intros Hm%(inj Some). apply bind_Ok_inv in Hm as ([] & Hmem & Hm); [|done]. cbn [negb] in Hm.
  apply bind_Ok_inv in Hm as (sk & Hsk & Hm). apply bind_Ok_inv in Hm as (th & Hth & Hm).
  assert (∃ x, sk = SecretKey.from_scalar x) as [x ->].
  { unfold convert_secret_key in Hsk. destruct (vrf_secret_ok _); [|done]. injection Hsk as <-. eauto. }
  pose proof (is_member_true _ _ Hmem) as Hw. set (input := EpochPoS.vrf_input info slot) in *.
  pose proof (vrf_complete x input) as Hc. cbv zeta in Hc.
  destruct (SecretKey.compute_vrf_with_proof (SecretKey.from_scalar x) input) as [v' pf'].
  unfold cmp_random_threshold in Hm. case_bool_decide as Hlt; [|done].
  cbn [fst] in Hlt. injection Hm as -> ->. exists info, x, th. split_and!; try done.
  intros Hne. by apply Hc.
Qed.
End ProposerProperties.

(** ** Producing blocks *)
Section ProductionFacts.
Context {D M TM R : Type} {node_hash : bytes → Hash}.
Context `{P : Profile, KL : KVDBLaws D, MM : MemoryDB M, TO : !TrieOps (ArchiveDB D M) TM}.
Context `{MLL : !MemoryDBLaws M node_hash, TL : !TrieLaws D M TM node_hash}.
Context `{IO : IterOrder, !IterOrderLaw, RL : RocksDBLaws R, HB : Blake2bLaws, ED : Ed25519, HX : Hex}.
Context `{BA : BincodeLaws Account, BT : Bincode MsgTransfer, BX : Bincode TxHashType}.
Context `{BE : Bincode ListEntry, BTX : Bincode (list Transaction), BSG : Bincode (list VerificationItem)}.
Context `{BHD : BincodeLaws Header, BBK : BincodeLaws Block}.
Context `{PH : PriorityHeap, OL : PoolOrderLaw} {E : Type}.
Implicit Types (bc : BlockChain D M R) (b p : Block) (bs : list Block) (tp : TxPoolManager).

(** The block [b] offers the pending transactions on top of [p]. *)
Record offers tp p (now slot : Z) (v : Value) (pf : VrfProof) b : Prop := {
  of_txs : txs b = TxPoolManager.get_pending tp;
  of_signs : block_signs b = [] ∧ proofs b = [];
  of_vrf : vrf_output (header b) = value_bytes v ∧
           VRFProof.to_bytes (vrf_proof (header b)) = proof_bytes pf;
  of_slot : Block.slot (header b) = slot ∧ time (header b) = now;
  of_pre bs : height (header p) = Z.of_nat (length bs) → precheck p bs b = None;
}.

(** Producing a block executes the pending transactions: it succeeds exactly
    when they do. *)
Lemma produce_block_any bc p bs m tp now slot v pf :
  chain_inv bc (p :: bs) → in_u 64 (height (header p) + 1) →
  trie_rep (kv_map (backend (state_backend bc))) (Block.state_root p) m →
  match map_exec (TxPoolManager.get_pending tp) m with
  | Ok m' => ∃ bc' b,
      Builder.produce_block (E:=E) bc tp now slot (Block.hash p) v pf = Ok (bc', b) ∧
      (time (header p) < now → offers tp p now slot v pf b) ∧ height (header b) = height (header p) + 1 ∧
      time (header b) = now ∧ txs b = TxPoolManager.get_pending tp ∧ chain_inv bc' (p :: bs) ∧
      trie_rep (kv_map (backend (state_backend bc'))) (Block.state_root b) m' ∧
      trie_rep (kv_map (backend (state_backend bc'))) (Block.state_root p) m
  | _ => Builder.produce_block (E:=E) bc tp now slot (Block.hash p) v pf = Panic
  end.
Proof.
  intros Hi Hh Hm. unfold Builder.produce_block.
  pose proof (ci_stored _ _ Hi) as [[Hsp _] _]%Forall_cons.
  unfold BlockChain.get_block. rewrite (get_block_Some _ _ _ Hsp), bind_Ok.
  cbn [unwrap]. rewrite bind_Ok. unfold Builder.apply_block, Balance.new.
  assert (state_rep (BlockChain.state_at bc (Block.state_root p)) m) as Hs.
  { apply from_existing_rep; [apply Hi|done]. }
  set (blk := Block.new Header_default (Builder.prepare_transactions tp) [] []).
  pose proof (exec_block_state blk _ m NULL_ROOT Hs) as Hex.
  change (txs blk) with (TxPoolManager.get_pending tp) in Hex.
  destruct (Executor.exc_txs_in_block blk _ _) as [[b' r]|e|],
    (map_exec (TxPoolManager.get_pending tp) m) as [m'|e'|] eqn:Hme; try done.
  simpl in Hex. destruct Hex as [Hr Hsub].
  cbn [unwrap_res]. rewrite bind_Ok. cbv [mret outcome_mret]. rewrite bind_Ok. cbn [fst snd].
  unfold add_u, Block.block_height. rewrite arith_in, bind_Ok by done.
  eexists _, _; split_and!; [done| |done|done|done| | |].
  - intros Ht. split; [done|done| |done|].
    + split; [done|]. apply vrf_proof_roundtrip.
    + intros bs' Hlen. unfold precheck. cbn [header height parent_hash time sign_root tx_root].
      rewrite decide_False by (simpl; lia). rewrite decide_False by auto.
      rewrite decide_False by auto. rewrite decide_False by lia.
      rewrite decide_False by auto. by rewrite decide_False by auto.
  - by eapply sync_inv.
  - done.
  - by eapply trie_rep_mono.
Qed.
Lemma produce_block_spec bc p bs m tp now slot v pf :
  chain_inv bc (p :: bs) → in_u 64 (height (header p) + 1) → time (header p) < now →
  trie_rep (kv_map (backend (state_backend bc))) (Block.state_root p) m →
  match map_exec (TxPoolManager.get_pending tp) m with
  | Ok m' => ∃ bc' b,
      Builder.produce_block (E:=E) bc tp now slot (Block.hash p) v pf = Ok (bc', b) ∧
      offers tp p now slot v pf b ∧ chain_inv bc' (p :: bs) ∧
      trie_rep (kv_map (backend (state_backend bc'))) (Block.state_root b) m' ∧
      trie_rep (kv_map (backend (state_backend bc'))) (Block.state_root p) m
  | _ => Builder.produce_block (E:=E) bc tp now slot (Block.hash p) v pf = Panic
  end.
Proof.
  intros Hi Hh Ht Hm. pose proof (produce_block_any bc p bs m tp now slot v pf Hi Hh Hm) as Hs.
  destruct (map_exec _ m); [|done..]. destruct Hs as (bc' & b & Hp & Ho & _ & _ & _ & Hr). eauto 8.
Qed.

Lemma offers_height bc tp p bs now slot v pf b :
  chain_inv bc (p :: bs) → offers tp p now slot v pf b →
  height (header b) = height (header p) + 1.
Proof.
  intros Hi Ho. pose proof (of_pre _ _ _ _ _ _ _ Ho bs (head_length _ _ _ Hi)) as Hpre.
  unfold precheck in Hpre. repeat case_decide; done.
Qed.

Lemma accepts_offer bc tp p bs now slot v pf b m m' B :
  chain_inv bc (p :: bs) → in_u 64 (height (header p) + 1) → offers tp p now slot v pf b →
  no_collision bc b → trie_rep (kv_map (backend (state_backend bc))) (Block.state_root p) m →
  map_exec (TxPoolManager.get_pending tp) m = Ok m' → trie_rep B (Block.state_root b) m' →
  ∃ bc', BlockChain.import_block bc b = Ok bc' ∧ chain_inv bc' (b :: p :: bs).
Proof.
  intros Hi Hh Ho Hnc Hm He Hb.
  pose proof (of_pre _ _ _ _ _ _ _ Ho bs (head_length _ _ _ Hi)) as Hpre.
  pose proof (offers_height _ _ _ _ _ _ _ _ _ Hi Ho) as Hbh.
  rewrite (import_block_checks bc p bs b Hi), Hpre by (by rewrite Hbh).
  pose proof (import_checked_spec bc p bs b m Hi ltac:(by rewrite Hbh) Hnc Hm Hpre) as Hs.
  rewrite (of_txs _ _ _ _ _ _ _ Ho), He in Hs.
  destruct Hs as [?|(bc' & _ & _ & _ & Hno)]; [done|]. by destruct (Hno B).
Qed.

(** Importing never removes a state node, and leaves the executed state. *)
Lemma import_block_keeps bc p bs b m bc2 :
  chain_inv bc (p :: bs) → in_u 64 (height (header b)) →
  trie_rep (kv_map (backend (state_backend bc))) (Block.state_root p) m →
  BlockChain.import_block bc b = Ok bc2 →
  kv_map (backend (state_backend bc)) ⊆ kv_map (backend (state_backend bc2)) ∧
  ∃ m', map_exec (txs b) m = Ok m' ∧ trie_rep (kv_map (backend (state_backend bc2))) (Block.state_root b) m'.
Proof.
  intros Hi Hh Hm. rewrite (import_block_checks bc p bs b Hi Hh).
  destruct (precheck p bs b); [done|]. unfold import_checked, BlockChain.apply_transactions, Balance.new.
  assert (state_rep (BlockChain.state_at bc (Block.state_root p)) m) as Hs.
  { apply from_existing_rep; [apply Hi|done]. }
  pose proof (exec_block_state b _ m NULL_ROOT Hs) as Hex.
  destruct (Executor.exc_txs_in_block b _ _) as [[b' r]|e|], (map_exec (txs b) m) as [m'|e'|]; try done.
  destruct Hex as [Hr Hsub]. cbn [unwrap_res]. rewrite bind_Ok. cbv [mret outcome_mret].
  rewrite bind_Ok. cbn [fst snd] in Hr |- *. case_decide as Hroot; [done|].
  intros (c1 & _ & (c2 & _ & [= <-])%bind_Ok_inv)%bind_Ok_inv. split; [exact Hsub|].
  exists m'. split; [done|]. destruct (decide (Block.state_root b = r)) as [->|]; [exact Hr|done].
Qed.

(** A rejected block leaves the chain and its states. *)
Lemma import_err_keeps bc p bs b m e bc2 :
  chain_inv bc (p :: bs) → in_u 64 (height (header b)) →
  trie_rep (kv_map (backend (state_backend bc))) (Block.state_root p) m →
  BlockChain.import_block bc b = Err (e, bc2) →
  chain_inv bc2 (p :: bs) ∧ trie_rep (kv_map (backend (state_backend bc2))) (Block.state_root p) m.
Proof.
  intros Hi Hh Hm. rewrite (import_block_checks bc p bs b Hi Hh).
  destruct (precheck p bs b); [by intros [= _ <-]|]. unfold import_checked, BlockChain.apply_transactions, Balance.new.
  assert (state_rep (BlockChain.state_at bc (Block.state_root p)) m) as Hs.
  { apply from_existing_rep; [apply Hi|done]. }
  pose proof (exec_block_state b _ m NULL_ROOT Hs) as Hex.
  destruct (Executor.exc_txs_in_block b _ _) as [[b' r]|e'|], (map_exec (txs b) m) as [m'|e2|]; try done.
  destruct Hex as [Hr Hsub]. cbn [unwrap_res]. rewrite bind_Ok. cbv [mret outcome_mret].
  rewrite bind_Ok. cbn [fst snd] in Hr |- *. case_decide as Hroot.
  - intros [= _ <-]. split; [by eapply sync_inv|by eapply trie_rep_mono].
  - destruct (write_block_map (bc_db (BlockChain.sync bc (treedb b'))) b) as (c1 & -> & _). cbn [unwrap_res].
    rewrite bind_Ok. destruct (write_head_map c1 (Header.hash (header b))) as (c2 & -> & _). done.
Qed.

(** The entry for [h] is outdated. *)
Definition outdated L (h : Hash) (x : Hash * Transaction) : Prop :=
  x.1 = h ∧ tx_nonce x.2 ≤ acc_nonce (L (tx_sender x.2)).
#[local] Instance outdated_dec L h x : Decision (outdated L h x).
Proof. unfold outdated. apply _. Defined.

Lemma retain_total (s : StateDB D M) m L l pm :
  state_rep s m → ledger_of m L → Forall (λ x, addr_wf (tx_sender x.2)) l →
  ∃ pm', TxPoolManager.retain (E:=E) (Balance.new s) l pm = Ok pm' ∧
    ∀ h, pm' !! h = (if decide (Exists (outdated L h) l) then None else pm !! h).
Proof.
  intros Hs HL Hl. revert pm. induction Hl as [|[h0 tx0] l Ha _ IH]; intros pm.
  { exists pm. split; [done|]. intros h. rewrite decide_False; [done|]. by intros ?%Exists_nil. }
  cbn [TxPoolManager.retain]. unfold Balance.get_account.
  rewrite (load_account_rep (SL:=StateDB_StorageLaws) _ L); [|by exists m|done]. rewrite bind_Ok.
  unfold Transaction.get_nonce, Account.get_nonce. cbn [snd] in Ha.
  destruct (IH (if decide (tx_nonce tx0 > acc_nonce (L (tx_sender tx0))) then pm else delete h0 pm))
    as (pm' & Hr & Hpm).
  exists pm'. split; [done|]. intros h. rewrite Hpm. clear IH Hpm Hr.
  case_decide as Hl; [by rewrite decide_True by (by right)|].
  case_decide as Hgt; case_decide as Hex; try done.
  - apply Exists_cons in Hex as [[_ Hle]|?]; [cbn in Hle; lia|done].
  - apply Exists_cons in Hex as [[Heq _]|?]; [|done]. cbn in Heq. subst. apply lookup_delete_eq.
  - apply lookup_delete_ne. intros ->. apply Hex. left. split; [done|cbn; lia].
Qed.
End ProductionFacts.

Section ProductionProperties.
Context {D M TM R : Type} {node_hash : bytes → Hash}.
Context `{P : Profile, KL : KVDBLaws D, MM : MemoryDB M, TO : !TrieOps (ArchiveDB D M) TM}.
Context `{MLL : !MemoryDBLaws M node_hash, TL : !TrieLaws D M TM node_hash}.
Context `{IO : IterOrder, !IterOrderLaw, RL : RocksDBLaws R, HB : Blake2bLaws, ED : Ed25519, HX : Hex}.
Context `{BA : BincodeLaws Account, BT : Bincode MsgTransfer, BX : Bincode TxHashType}.
Context `{BE : Bincode ListEntry, BTX : Bincode (list Transaction), BSG : Bincode (list VerificationItem)}.
Context `{BHD : BincodeLaws Header, BBK : BincodeLaws Block}.
Context `{PH : PriorityHeap, OL : PoolOrderLaw} {E : Type}.
Implicit Types (bc : BlockChain D M R) (b p : Block) (bs : list Block) (tp : TxPoolManager).

(** A produced block is accepted: when the pending transactions can be executed
    on the head's state, the proposer obtains a block with exactly those
    transactions, and every node whose chain has the same head and head state
    imports it, the proposer included. *)
Theorem produced_block_accepted bc p bs m m' tp now slot v pf :
  chain_inv bc (p :: bs) → in_u 64 (height (header p) + 1) → time (header p) < now →
  trie_rep (kv_map (backend (state_backend bc))) (Block.state_root p) m →
  map_exec (TxPoolManager.get_pending tp) m = Ok m' →
  ∃ bc' b, Builder.produce_block (E:=E) bc tp now slot (Block.hash p) v pf = Ok (bc', b) ∧
    txs b = TxPoolManager.get_pending tp ∧ chain_inv bc' (p :: bs) ∧
    (no_collision bc' b →
     ∃ bc'', BlockChain.import_block bc' b = Ok bc'' ∧ chain_inv bc'' (b :: p :: bs)) ∧
    ∀ (other : BlockChain D M R) bs', chain_inv other (p :: bs') → no_collision other b →
      trie_rep (kv_map (backend (state_backend other))) (Block.state_root p) m →
      ∃ other', BlockChain.import_block other b = Ok other' ∧ chain_inv other' (b :: p :: bs').
Proof.
  intros Hi Hh Ht Hm He.
  pose proof (produce_block_spec (E:=E) bc p bs m tp now slot v pf Hi Hh Ht Hm) as Hs.
  rewrite He in Hs. destruct Hs as (bc' & b & Hp & Ho & Hi' & Hb & Hm').
  exists bc', b. split_and!; [done|by eapply of_txs|done| |].
  - intros Hnc. by eapply accepts_offer.
  - intros other bs' Hio Hnc Hmo. by eapply accepts_offer.
Qed.

(** The pool does not execute transactions, and production does not skip those
    that fail: one pending transaction that cannot be executed panics the
    proposer. *)
Theorem produce_block_bad_pending bc p bs m tp now slot v pf :
  chain_inv bc (p :: bs) → in_u 64 (height (header p) + 1) → time (header p) < now →
  trie_rep (kv_map (backend (state_backend bc))) (Block.state_root p) m →
  is_ok (map_exec (TxPoolManager.get_pending tp) m) = false →
  Builder.produce_block (E:=E) bc tp now slot (Block.hash p) v pf = Panic.
Proof.
  intros Hi Hh Ht Hm He.
  pose proof (produce_block_spec (E:=E) bc p bs m tp now slot v pf Hi Hh Ht Hm) as Hs.
  by destruct (map_exec _ m).
Qed.

(** C15: The slot of a proposer, end to end, on a valid chain whose head is older than the
    clock.  When the pending transactions execute one after the other on the state of the
    head, and the hash of the new block is not that of another stored block, the head is
    extended by a block with exactly these transactions, the block is published, and of
    the pending transactions exactly those whose nonce is above that of their sender in
    the new state remain; the rest of the pool is untouched.  When one of them does not
    execute, the proposer panics. *)
Theorem propose_extends_chain (n : Node D M R) p bs m now slot v pf :
  chain_inv (node_chain n) (p :: bs) → in_u 64 (height (header p) + 1) → time (header p) < now →
  trie_rep (kv_map (backend (state_backend (node_chain n)))) (Block.state_root p) m →
  map_Forall (λ _ tx, addr_wf (tx_sender tx)) (pending (node_pool n)) →
  (∀ bc' b, Builder.produce_block (E:=E) (node_chain n) (node_pool n) now slot (Block.hash p) v pf
            = Ok (bc', b) → no_collision bc' b) →
  match map_exec (TxPoolManager.get_pending (node_pool n)) m with
  | Ok m' => ∀ L, ledger_of m' L →
      ∃ n' b, EpochProposal.propose (E:=E) n now slot v pf = Ok n' ∧
        chain_inv (node_chain n') (b :: p :: bs) ∧ published n' = b :: published n ∧
        txs b = TxPoolManager.get_pending (node_pool n) ∧
        pending (node_pool n') =
          filter (λ x, acc_nonce (L (tx_sender x.2)) < tx_nonce x.2) (pending (node_pool n)) ∧
        pool (node_pool n') = pool (node_pool n) ∧
        ordered_queue (node_pool n') = ordered_queue (node_pool n)
  | _ => EpochProposal.propose (E:=E) n now slot v pf = Panic
  end.
Proof.
  intros Hi Hh Ht Hm Hwf Hnc.
  pose proof (produce_block_spec (E:=E) _ p bs m (node_pool n) now slot v pf Hi Hh Ht Hm) as Hs.
  destruct (map_exec _ m) as [m'|e|] eqn:He;
    [|unfold EpochProposal.propose, Builder.get_head_block; by rewrite (inv_current _ _ _ Hi), bind_Ok, Hs..].
  intros L HL. destruct Hs as (bc' & b & Hp & Ho & Hi' & Hb & Hm').
  destruct (accepts_offer bc' _ p bs now slot v pf b m m' _ Hi' Hh Ho (Hnc _ _ Hp) Hm' He Hb)
    as (bc2 & Himp & Hi2).
  destruct (import_block_keeps _ _ _ _ _ _ Hi' ltac:(by rewrite (offers_height _ _ _ _ _ _ _ _ _ Hi' Ho))
    Hm' Himp) as (_ & m2 & He2 & Hb2). rewrite (of_txs _ _ _ _ _ _ _ Ho), He in He2. injection He2 as <-.
  unfold EpochProposal.propose, Builder.get_head_block. rewrite (inv_current _ _ _ Hi), bind_Ok.
  rewrite Hp, bind_Ok. cbn [fst snd]. unfold BlockChain.insert_block. rewrite Himp.
  unfold TxPoolManager.reset_pool.
  destruct (retain_total (E:=E) (BlockChain.state_at bc2 (Block.state_root b)) m' L
    (pool_order (pending (node_pool n))) (pending (node_pool n))) as (pm & Hr & Hpm).
  { apply from_existing_rep; [apply Hi2|done]. }
  { done. }
  { rewrite pool_order_perm. apply Forall_forall. intros [h tx] Hx%elem_of_map_to_list. by apply (Hwf h). }
  rewrite Hr, bind_Ok. eexists _, b. split_and!; [done|done|done|by eapply of_txs| |done|done].
  cbn. apply map_eq. intros h. rewrite Hpm, map_lookup_filter.
  destruct (pending (node_pool n) !! h) as [tx|] eqn:Hl; cbn.
  - case_decide as Hex.
    + apply Exists_exists in Hex as ([h' tx'] & Hin & [Heq Hle]). cbn in Heq, Hle. subst h'.
      rewrite pool_order_perm in Hin. apply elem_of_map_to_list in Hin. simplify_eq.
      rewrite option_guard_False; [done|lia].
    + rewrite option_guard_True; [done|]. apply Z.nle_gt. intros Hge. apply Hex, Exists_exists.
      exists (h, tx). rewrite pool_order_perm, elem_of_map_to_list. split; [done|]. split; [done|exact Hge].
  - by case_decide.
Qed.
End ProductionProperties.

(** ** Worked examples *)
Module EpochEx.
Export PoolEx.
#[export] Existing Instance example_ristretto.
#[export] Existing Instance example_ristretto_laws.
(** Every slot has a proposer. *)
#[export] Instance example_float : FloatPow := λ _ _, Some (1, 1).
Definition stake : EpochPoS := EpochPoS.new false.
(** In the example scheme the secret key is the public key. *)
Definition key : PrivKey := mkPrivKey ed_genesis_pub_key.
Definition val : Value := mkValue [3].
Definition prf : VrfProof := mkVrfProof [4].
Definition node : Node MemoryKV ex_mem (gmap bytes bytes) := mkNode gen TxPoolManager.new [].
Definition unsigned_pool : TxPoolManager :=
  get_pool (run_ops TxPoolManager.new [(gen, AddTx (gtx 4))]).
Definition unsigned_node : Node MemoryKV ex_mem (gmap bytes bytes) := mkNode gen unsigned_pool [].
Lemma unsigned_exec m : is_ok (map_exec (TxPoolManager.get_pending unsigned_pool) m) = false.
Proof. vm_compute. reflexivity. Qed.
Lemma unsigned_senders : map_Forall (λ _ tx, addr_wf (tx_sender tx)) (pending (node_pool unsigned_node)).
Proof. apply (bool_decide_unpack _). vm_compute. reflexivity. Qed.

Lemma empty_exec m : map_exec (TxPoolManager.get_pending TxPoolManager.new) m = Ok m.
Proof. reflexivity. Qed.
Lemma gen_next : in_u 64 (height (header (genesis gen)) + 1).
Proof. rewrite gen_height. by vm_compute. Qed.
Lemma gen_before : time (header (genesis gen)) < GENESIS_TIME + 6.
Proof. rewrite gen_time. lia. Qed.

(** The empty block of slot 1 is new. *)
Definition b_empty : Block :=
  match Builder.produce_block (E:=unit) gen TxPoolManager.new (GENESIS_TIME + 6) 1
          (Block.hash (genesis gen)) val prf with Ok r => r.2 | _ => Block_default end.
Lemma b_empty_fresh : Block.hash b_empty ≠ Block.hash (genesis gen).
Proof. apply (bool_decide_ne hash_bytes). vm_compute. reflexivity. Qed.
Lemma b_empty_no_collision bc' b :
  Builder.produce_block (E:=unit) gen TxPoolManager.new (GENESIS_TIME + 6) 1
    (Block.hash (genesis gen)) val prf = Ok (bc', b) → no_collision bc' b.
Proof.
  intros Hp. destruct gen_state as (m & Hm & _).
  pose proof (produce_block_spec (E:=unit) gen (genesis gen) [] m TxPoolManager.new
    (GENESIS_TIME + 6) 1 val prf gen_inv gen_next gen_before Hm) as Hs.
  rewrite empty_exec in Hs.
  destruct Hs as (bc2 & b2 & Hp2 & _ & Hi & _). rewrite Hp in Hp2. injection Hp2 as <- <-.
  assert (b = b_empty) as -> by (unfold b_empty; by rewrite Hp).
  clear Hp. intros b' Hg. destruct (inv_get_block (E:=unit) bc' _ (Block.hash b_empty) Hi)
    as [(q & Hq & Hh & _)|[_ Hn]].
  - apply list_elem_of_singleton in Hq. rewrite Hq in Hh. destruct (b_empty_fresh (eq_sym Hh)).
  - rewrite Hg in Hn. discriminate Hn.
Qed.
End EpochEx.

Section EpochWitnesses.
Import EpochEx.

Lemma epoch_height_range_witness :
  EpochId.get_height_from_eid (E:=unit) 0 = Ok (0, 0) ∧
  ∃ low hi, EpochId.get_height_from_eid (E:=unit) 3 = Ok (low, hi) ∧ hi - low = EPOCH_LENGTH - 1.
Proof.
  split.
  - apply (epoch_height_range 0); [vm_compute; split; [discriminate|reflexivity]|left; reflexivity].
  - destruct (proj2 (epoch_height_range (E:=unit) 3 ltac:(vm_compute; split; [discriminate|reflexivity])))
      as (low & hi & He & Hd & _); [reflexivity|reflexivity|].
    exists low, hi. split; [exact He|exact Hd].
Defined.

Lemma slot_tick_late_witness :
  ∃ t', poll_n (E:=unit) 3 (SlotTick.new 0 0 6 0) 12500 12500 =
    Ok (t', [Some 2; Some 2; Some 2]).
Proof.
  destruct (slot_tick_late (E:=unit) (SlotTick.new 0 0 6 0) 12500 12500 2) as (t' & Ht & _);
    [reflexivity|vm_compute; split; [discriminate|reflexivity]|vm_compute; discriminate|reflexivity|].
  exists t'. exact Ht.
Defined.

Lemma get_slot_proposer_spec_witness :
  ∃ info v, EpochPoS.get_epoch_info (E:=unit) 2 gen stake 0 = Some (Ok info) ∧
    EpochPoS.get_slot_proposer (E:=unit) 2 gen stake 7 0 = Some (Ok (Some v)) ∧ v ∈ validators info.
Proof.
  assert (option_map (λ o, match o with Ok i => length (validators i) | _ => O end)
            (EpochPoS.get_epoch_info (E:=unit) 2 gen stake 0) = Some 1%nat) as Hl
    by (vm_compute; reflexivity).
  destruct (EpochPoS.get_epoch_info (E:=unit) 2 gen stake 0) as [[info|e|]|] eqn:Hi;
    [|discriminate Hl..].
  pose proof (get_slot_proposer_spec (E:=unit) 2 gen stake 7 0 info Hi) as Hs.
  destruct (validators info) as [|v0 l] eqn:Hv; [cbn in Hl; rewrite Hv in Hl; discriminate Hl|].
  destruct Hs as (v & Hs & Hin & _). exists info, v. rewrite Hv.
  split; [reflexivity|]. split; [exact Hs|exact Hin].
Defined.

Lemma make_slot_proposer_sound_witness :
  ∃ v pf info, EpochPoS.make_slot_proposer (E:=unit) 2 gen stake 3 key = Some (Ok (Some (v, pf))) ∧
    ∃ w, w ∈ validators info ∧ PrivKey.to_pubkey key = Ok (mkPubkey (take 32 (vs_pubkey w))).
Proof.
  assert (match EpochPoS.make_slot_proposer (E:=unit) 2 gen stake 3 key with
          | Some (Ok (Some _)) => true | _ => false end = true) as Hok by (vm_compute; reflexivity).
  destruct (EpochPoS.make_slot_proposer (E:=unit) 2 gen stake 3 key) as [[[[v pf]|]|e|]|] eqn:Hm;
    [|discriminate Hok..].
  destruct (make_slot_proposer_sound (E:=unit) 2 gen stake 3 key v pf Hm) as (info & x & t & _ & Hw & _).
  exists v, pf, info. split; [reflexivity|exact Hw].
Defined.

Lemma produced_block_accepted_witness :
  ∃ bc' b, Builder.produce_block (E:=unit) gen TxPoolManager.new (GENESIS_TIME + 6) 1
             (Block.hash (genesis gen)) val prf = Ok (bc', b) ∧
    ∃ bc'', BlockChain.import_block bc' b = Ok bc''.
Proof.
  destruct gen_state as (m & Hm & _).
  destruct (produced_block_accepted (E:=unit) gen (genesis gen) [] m m TxPoolManager.new
    (GENESIS_TIME + 6) 1 val prf gen_inv gen_next gen_before Hm (empty_exec m))
    as (bc' & b & Hp & _ & _ & Hown & _).
  exists bc', b. split; [exact Hp|]. destruct (Hown (b_empty_no_collision bc' b Hp)) as (bc2 & Hi & _).
  exists bc2. exact Hi.
Defined.

Lemma unsigned_no_block bc' b :
  Builder.produce_block (E:=unit) gen unsigned_pool (GENESIS_TIME + 6) 1
    (Block.hash (genesis gen)) val prf = Ok (bc', b) → no_collision bc' b.
Proof.
  destruct gen_state as (m & Hm & _). intros Hp.
  pose proof (produce_block_bad_pending (E:=unit) gen (genesis gen) [] m unsigned_pool
    (GENESIS_TIME + 6) 1 val prf gen_inv gen_next gen_before Hm (unsigned_exec m)) as Hbad.
  pose proof (eq_trans (eq_sym Hbad) Hp) as Hx. discriminate Hx.
Qed.

Lemma produce_block_bad_pending_witness :
  Builder.produce_block (E:=unit) gen unsigned_pool (GENESIS_TIME + 6) 1
    (Block.hash (genesis gen)) val prf = Panic.
Proof.
  destruct gen_state as (m & Hm & _).
  apply (produce_block_bad_pending (E:=unit) gen (genesis gen) [] m unsigned_pool
    (GENESIS_TIME + 6) 1 val prf gen_inv gen_next gen_before Hm).
  apply unsigned_exec.
Defined.

Lemma propose_extends_chain_witness :
  (∃ n' b, EpochProposal.propose (E:=unit) node (GENESIS_TIME + 6) 1 val prf = Ok n' ∧
           chain_inv (node_chain n') [b; genesis gen] ∧ published n' = [b]) ∧
  EpochProposal.propose (E:=unit) unsigned_node (GENESIS_TIME + 6) 1 val prf = Panic.
Proof.
  destruct gen_state as (m & Hm & HL & _). split.
  - pose proof (propose_extends_chain (E:=unit) node (genesis gen) [] m
      (GENESIS_TIME + 6) 1 val prf gen_inv gen_next gen_before Hm (map_Forall_empty _)
      b_empty_no_collision) as Hp. cbn [node_pool node] in Hp. rewrite (empty_exec m) in Hp. destruct (Hp _ HL) as (n' & b & He & Hi & Hpub & _).
    exists n', b. split; [exact He|]. split; [exact Hi|exact Hpub].
  - pose proof (propose_extends_chain (E:=unit) unsigned_node (genesis gen) [] m
      (GENESIS_TIME + 6) 1 val prf gen_inv gen_next gen_before Hm unsigned_senders) as Hp.
    pose proof (unsigned_exec m) as Hx. cbn [node_pool unsigned_node] in Hp.
    destruct (map_exec (TxPoolManager.get_pending unsigned_pool) m); [discriminate Hx|exact (Hp unsigned_no_block)..].
Defined.
End EpochWitnesses.
