(* ===== verification/P2PCodec.v ===== *)
(** * P2PCodec: requests and responses as bytes (src/network/src/p2p/codec)

    A request opens a substream under a protocol name; it is written as one
    length-prefixed frame.  Responses are a sequence of chunks: a response code
    and a length-prefixed frame.  The framing ([unsigned_varint::codec::UviBytes])
    is third-party code: a class of operations with its documented laws. *)
From Stdlib Require String.
From S2P Require Import Prelude Hashing Types Codec Messages.
Import (notations) String.

(** ** tokio's codec traits: a buffer is appended to, or consumed from *)
Class Encoder (C Item E : Type) : Type := encode : C → Item → bytes → Outcome E (C * bytes).
Class Decoder (C Item E : Type) : Type := decode : C → bytes → Outcome E (option Item * C * bytes).
#[global] Hint Mode Encoder ! - - : typeclass_instances.
#[global] Hint Mode Decoder ! - - : typeclass_instances.

(** ** The framing library

    [uvi_new n] is the default codec with [set_max_len(n)]. *)
Class UviBytes : Type := {
  uvi_state : Type;
  uvi_new : Z → uvi_state;
  uvi_encode : uvi_state → bytes → bytes → Outcome unit (uvi_state * bytes);
  uvi_decode : uvi_state → bytes → Outcome unit (option bytes * uvi_state * bytes);
}.

(** A frame is the variable-length code of its length, and its bytes.  The decoder
    takes the length off the buffer when it is complete, remembers it
    ([uvi_view]), and takes the bytes off when they are complete. *)
Class UviBytesLaws `{UviBytes} : Type := {
  uvi_header : nat → bytes;
  uvi_view : uvi_state → option nat;
  uvi_max : uvi_state → Z;
  uvi_header_nil n : uvi_header n ≠ [];
  uvi_header_zero : uvi_header 0 = [0];
  uvi_new_view n : uvi_view (uvi_new n) = None;
  uvi_new_max n : uvi_max (uvi_new n) = n;
  uvi_encode_ok u p dst : Z.of_nat (length p) ≤ uvi_max u →
    ∃ u', uvi_encode u p dst = Ok (u', dst ++ uvi_header (length p) ++ p) ∧
      uvi_view u' = uvi_view u ∧ uvi_max u' = uvi_max u;
  uvi_encode_long u p dst : uvi_max u < Z.of_nat (length p) → uvi_encode u p dst = Err tt;
  (** Not even the length is there. *)
  uvi_decode_header u n src rest : uvi_view u = None → uvi_header n = src ++ rest → rest ≠ [] →
    ∃ u', uvi_decode u src = Ok (None, u', src) ∧ uvi_view u' = None ∧ uvi_max u' = uvi_max u;
  uvi_decode_long u n src : uvi_view u = None → uvi_max u < Z.of_nat n →
    uvi_decode u (uvi_header n ++ src) = Err tt;
  (** The length, or what follows a length read before. *)
  uvi_decode_body u n pre src : Z.of_nat n ≤ uvi_max u →
    (uvi_view u = None ∧ pre = uvi_header n) ∨ (uvi_view u = Some n ∧ pre = []) →
    ∃ u', uvi_max u' = uvi_max u ∧
      uvi_decode u (pre ++ src) =
        (if decide (length src < n)%nat then Ok (None, u', src)
         else Ok (Some (take n src), u', drop n src)) ∧
      uvi_view u' = (if decide (length src < n)%nat then Some n else None);
}.

(** ** Protocol names (src/network/src/p2p/protocol.rs) *)
Definition MAX_P2P_SIZE : Z := 4194304.
Definition PROTOCOL_PREFIX : bytes := bytes_of "/map/req"%string.
Definition RPC_STATUS : bytes := bytes_of "status"%string.
Definition RPC_GOODBYE : bytes := bytes_of "goodbye"%string.
Definition RPC_BLOCKS_BY_RANGE : bytes := bytes_of "map_blocks_by_range"%string.
Definition RPC_BLOCKS_BY_ROOT : bytes := bytes_of "map_blocks_by_root"%string.
Definition V1 : bytes := bytes_of "1"%string.
Definition BIN_ENCODING : bytes := bytes_of "bin"%string.

Record ProtocolId : Type := mkProtocolId {
  message_name : bytes;
  version : bytes;
  encoding : bytes;
  protocol_id : bytes;
}.
Module ProtocolId.
Definition new (message_name version encoding : bytes) : ProtocolId :=
  mkProtocolId message_name version encoding
    (PROTOCOL_PREFIX ++ slash :: message_name ++ slash :: version ++ slash :: encoding).
Definition protocol_name (p : ProtocolId) : bytes := protocol_id p.
End ProtocolId.

(** What a node listens for, and what a request asks for. *)
Definition P2PProtocol_protocol_info : list ProtocolId :=
  [ProtocolId.new RPC_STATUS V1 BIN_ENCODING;
   ProtocolId.new RPC_GOODBYE V1 BIN_ENCODING;
   ProtocolId.new RPC_BLOCKS_BY_RANGE V1 BIN_ENCODING;
   ProtocolId.new RPC_BLOCKS_BY_ROOT V1 BIN_ENCODING].
Definition supported_protocols (r : P2PRequest) : list ProtocolId :=
  match r with
  | P2PRequest.Status _ => [ProtocolId.new RPC_STATUS V1 BIN_ENCODING]
  | P2PRequest.Goodbye _ => [ProtocolId.new RPC_GOODBYE V1 BIN_ENCODING]
  | P2PRequest.BlocksByRange _ => [ProtocolId.new RPC_BLOCKS_BY_RANGE V1 BIN_ENCODING]
  | P2PRequest.BlocksByRoot _ => [ProtocolId.new RPC_BLOCKS_BY_ROOT V1 BIN_ENCODING]
  end.

(** [debug_assert!] is compiled in the profile that checks overflow. *)
Definition debug_assert `{P : Profile} {E} (b : bool) : Outcome E unit :=
  if overflow_checks && negb b then Panic else Ok tt.

(** [From<io::Error> for P2PError]. *)
Definition io_error {A} (o : Outcome unit A) : Outcome P2PError A := map_err (λ _, P2PError.IoError) o.

Section Codecs.
Context `{UviBytes, P : Profile}.
Context `{Bincode StatusMessage, Bincode GoodbyeReason, Bincode BlocksByRangeRequest,
  Bincode BlocksByRootRequest, Bincode (list Hash), Bincode ErrorMessage}.

(** ** Inbound: decode requests, encode responses (codec/bin.rs) *)
Record BINInboundCodec : Type := mkBINInboundCodec { bi_inner : uvi_state; bi_protocol : ProtocolId }.

Definition BINInboundCodec_new {E} (protocol : ProtocolId) (max_packet_size : Z) : Outcome E BINInboundCodec :=
  _ ← debug_assert (bool_decide (encoding protocol = BIN_ENCODING));
  mret (mkBINInboundCodec (uvi_new max_packet_size) protocol).

(** Blocks are bytes already; a termination is never encoded. *)
Definition response_bytes {E} (item : P2PErrorResponse) : Outcome E bytes :=
  match item with
  | P2PErrorResponse.Success resp =>
      match resp with
      | P2PResponse.Status res => Ok (serialize res)
      | P2PResponse.BlocksByRange res => Ok res
      | P2PResponse.BlocksByRoot res => Ok res
      end
  | P2PErrorResponse.InvalidRequest err => Ok (serialize err)
  | P2PErrorResponse.ServerError err => Ok (serialize err)
  | P2PErrorResponse.Unknown err => Ok (serialize err)
  | P2PErrorResponse.StreamTermination _ => Panic
  end.
#[export] Instance BINInboundCodec_encode : Encoder BINInboundCodec P2PErrorResponse P2PError := λ c item dst,
  bs ← response_bytes item;
  if decide (bs ≠ []) then
    r ← io_error (uvi_encode (bi_inner c) bs dst);
    mret (mkBINInboundCodec r.1 (bi_protocol c), r.2)
  else mret (c, dst ++ [0]).

(** [bincode::deserialize(..).unwrap()]; an unknown version or name is
    [unreachable!]. *)
Definition decode_request (p : ProtocolId) (packet : bytes) : Outcome P2PError P2PRequest :=
  if decide (message_name p = RPC_STATUS) then
    if decide (version p = V1) then P2PRequest.Status <$> unwrap (deserialize packet) else Panic
  else if decide (message_name p = RPC_GOODBYE) then
    if decide (version p = V1) then P2PRequest.Goodbye <$> unwrap (deserialize packet) else Panic
  else if decide (message_name p = RPC_BLOCKS_BY_RANGE) then
    if decide (version p = V1) then P2PRequest.BlocksByRange <$> unwrap (deserialize packet) else Panic
  else if decide (message_name p = RPC_BLOCKS_BY_ROOT) then
    if decide (version p = V1) then P2PRequest.BlocksByRoot <$> unwrap (deserialize packet) else Panic
  else Panic.

#[export] Instance BINInboundCodec_decode : Decoder BINInboundCodec P2PRequest P2PError := λ c src,
  r ← io_error (uvi_decode (bi_inner c) src);
  let c := mkBINInboundCodec r.1.2 (bi_protocol c) in
  match r.1.1 with
  | Some packet => req ← decode_request (bi_protocol c) packet; mret (Some req, c, r.2)
  | None => mret (None, c, r.2)
  end.

(** ** Outbound: encode requests, decode responses *)
Record BINOutboundCodec : Type := mkBINOutboundCodec { bo_inner : uvi_state; bo_protocol : ProtocolId }.

Definition BINOutboundCodec_new {E} (protocol : ProtocolId) (max_packet_size : Z) : Outcome E BINOutboundCodec :=
  _ ← debug_assert (bool_decide (encoding protocol = BIN_ENCODING));
  mret (mkBINOutboundCodec (uvi_new max_packet_size) protocol).

(** A request by roots is written as its list. *)
Definition request_bytes (r : P2PRequest) : bytes :=
  match r with
  | P2PRequest.Status req => serialize req
  | P2PRequest.Goodbye req => serialize req
  | P2PRequest.BlocksByRange req => serialize req
  | P2PRequest.BlocksByRoot req => serialize (block_roots req)
  end.
#[export] Instance BINOutboundCodec_encode : Encoder BINOutboundCodec P2PRequest P2PError := λ c item dst,
  r ← io_error (uvi_encode (bo_inner c) (request_bytes item) dst);
  mret (mkBINOutboundCodec r.1 (bo_protocol c), r.2).

(** A response without bytes. *)
Definition empty_response (p : ProtocolId) : Outcome P2PError P2PResponse :=
  if decide (message_name p = RPC_STATUS) then
    if decide (version p = V1) then Err P2PError.Custom else Panic
  else if decide (message_name p = RPC_GOODBYE) then Err P2PError.InvalidProtocol
  else if decide (message_name p = RPC_BLOCKS_BY_RANGE) then
    if decide (version p = V1) then Ok (P2PResponse.BlocksByRange []) else Panic
  else if decide (message_name p = RPC_BLOCKS_BY_ROOT) then
    if decide (version p = V1) then Ok (P2PResponse.BlocksByRoot []) else Panic
  else Panic.
Definition decode_response (p : ProtocolId) (raw_bytes : bytes) : Outcome P2PError P2PResponse :=
  if decide (message_name p = RPC_STATUS) then
    if decide (version p = V1) then P2PResponse.Status <$> unwrap (deserialize raw_bytes) else Panic
  else if decide (message_name p = RPC_GOODBYE) then Err P2PError.InvalidProtocol
  else if decide (message_name p = RPC_BLOCKS_BY_RANGE) then
    if decide (version p = V1) then Ok (P2PResponse.BlocksByRange raw_bytes) else Panic
  else if decide (message_name p = RPC_BLOCKS_BY_ROOT) then
    if decide (version p = V1) then Ok (P2PResponse.BlocksByRoot raw_bytes) else Panic
  else Panic.

#[export] Instance BINOutboundCodec_decode : Decoder BINOutboundCodec P2PResponse P2PError := λ c src,
  if decide (src = [0]) then
    resp ← empty_response (bo_protocol c); mret (Some resp, c, [])
  else
    r ← io_error (uvi_decode (bo_inner c) src);
    let c := mkBINOutboundCodec r.1.2 (bo_protocol c) in
    match r.1.1 with
    | Some raw_bytes => resp ← decode_response (bo_protocol c) raw_bytes; mret (Some resp, c, r.2)
    | None => mret (None, c, r.2)
    end.

Definition BINOutboundCodec_decode_error (c : BINOutboundCodec) (src : bytes)
    : Outcome P2PError (option ErrorMessage * BINOutboundCodec * bytes) :=
  r ← io_error (uvi_decode (bo_inner c) src);
  let c := mkBINOutboundCodec r.1.2 (bo_protocol c) in
  match r.1.1 with
  | Some packet => e ← unwrap (deserialize packet); mret (Some e, c, r.2)
  | None => mret (None, c, r.2)
  end.
End Codecs.

(** ** The global codecs (codec/base.rs): the response code of each chunk *)
Class DecodeError (C ErrorType E : Type) : Type :=
  decode_error : C → bytes → Outcome E (option ErrorType * C * bytes).
#[global] Hint Mode DecodeError ! - - : typeclass_instances.
#[export] Instance BINOutboundCodec_decode_error_instance `{UviBytes, Bincode ErrorMessage} :
  DecodeError BINOutboundCodec ErrorMessage P2PError := BINOutboundCodec_decode_error.

Record BaseInboundCodec (TCodec : Type) : Type := mkBaseInboundCodec { in_inner : TCodec }.
Record BaseOutboundCodec (TOutboundCodec : Type) : Type := mkBaseOutboundCodec {
  out_inner : TOutboundCodec;
  current_response_code : option Z;
}.
Arguments mkBaseInboundCodec {TCodec}. Arguments in_inner {TCodec}.
Arguments mkBaseOutboundCodec {TOutboundCodec}. Arguments out_inner {TOutboundCodec}.
Arguments current_response_code {TOutboundCodec}.

Section Base.
Context {TCodec E : Type}.
Definition BaseInboundCodec_new (codec : TCodec) : BaseInboundCodec TCodec := mkBaseInboundCodec codec.
Definition BaseOutboundCodec_new (codec : TCodec) : BaseOutboundCodec TCodec := mkBaseOutboundCodec codec None.

(** [dst] is cleared; [as_u8().expect(..)]. *)
#[export] Instance BaseInboundCodec_encode `{Encoder TCodec P2PErrorResponse E} :
    Encoder (BaseInboundCodec TCodec) P2PErrorResponse E := λ c item dst,
  code ← unwrap (P2PErrorResponse.as_u8 item);
  r ← encode (in_inner c) item [code];
  mret (mkBaseInboundCodec r.1, r.2).
#[export] Instance BaseInboundCodec_decode `{Decoder TCodec P2PRequest E} :
    Decoder (BaseInboundCodec TCodec) P2PRequest E := λ c src,
  r ← decode (in_inner c) src;
  mret (r.1.1, mkBaseInboundCodec r.1.2, r.2).
#[export] Instance BaseOutboundCodec_encode `{Encoder TCodec P2PRequest E} :
    Encoder (BaseOutboundCodec TCodec) P2PRequest E := λ c item dst,
  r ← encode (out_inner c) item dst;
  mret (mkBaseOutboundCodec r.1 (current_response_code c), r.2).

(** The response code, taken off the buffer unless it was read before. *)
Definition split_code (c : BaseOutboundCodec TCodec) (src : bytes) : Outcome E (Z * bytes) :=
  match current_response_code c, src with
  | Some resp_code, _ => Ok (resp_code, src)
  | None, resp_code :: src => Ok (resp_code, src)
  | None, [] => Panic
  end.
#[export] Instance BaseOutboundCodec_decode
    `{Decoder TCodec P2PResponse E, DecodeError TCodec ErrorMessage E} :
    Decoder (BaseOutboundCodec TCodec) P2PErrorResponse E := λ c src,
  if decide (length src ≤ 1)%nat then mret (None, c, src)
  else
    s ← split_code c src;
    let (response_code, src) := (s : Z * bytes) in
    inner_result ←
      (if P2PErrorResponse.is_response response_code then
         r ← decode (out_inner c) src;
         mret (P2PErrorResponse.Success <$> r.1.1, r.1.2, r.2)
       else
         r ← decode_error (out_inner c) src;
         mret (P2PErrorResponse.from_error response_code <$> r.1.1, r.1.2, r.2));
    let code := match inner_result.1.1 with Some _ => None | None => Some response_code end in
    mret (inner_result.1.1, mkBaseOutboundCodec inner_result.1.2 code, inner_result.2).
End Base.

(** ** The codecs of a substream (codec/mod.rs) *)
Section Wire.
Context `{UviBytes, P : Profile}.
Context `{Bincode StatusMessage, Bincode GoodbyeReason, Bincode BlocksByRangeRequest,
  Bincode BlocksByRootRequest, Bincode (list Hash), Bincode ErrorMessage}.

Inductive InboundCodec : Type := InBIN (codec : BaseInboundCodec BINInboundCodec).
Inductive OutboundCodec : Type := OutBIN (codec : BaseOutboundCodec BINOutboundCodec).

#[export] Instance InboundCodec_encode : Encoder InboundCodec P2PErrorResponse P2PError := λ c item dst,
  match c with InBIN codec => r ← encode codec item dst; mret (InBIN r.1, r.2) end.
#[export] Instance InboundCodec_decode : Decoder InboundCodec P2PRequest P2PError := λ c src,
  match c with InBIN codec => r ← decode codec src; mret (r.1.1, InBIN r.1.2, r.2) end.
#[export] Instance OutboundCodec_encode : Encoder OutboundCodec P2PRequest P2PError := λ c item dst,
  match c with OutBIN codec => r ← encode codec item dst; mret (OutBIN r.1, r.2) end.
#[export] Instance OutboundCodec_decode : Decoder OutboundCodec P2PErrorResponse P2PError := λ c src,
  match c with OutBIN codec => r ← decode codec src; mret (r.1.1, OutBIN r.1.2, r.2) end.

(** The codec a negotiated substream gets: whatever the encoding, it is [bin].  An
    inbound upgrade ends with the first request; the socket, and its timeouts, are
    not modelled. *)
Definition upgrade_inbound_codec {E} (protocol : ProtocolId) : Outcome E InboundCodec :=
  codec ← BINInboundCodec_new protocol MAX_P2P_SIZE;
  mret (InBIN (BaseInboundCodec_new codec)).
Definition upgrade_inbound_request (req : option P2PRequest) : Outcome P2PError P2PRequest :=
  match req with Some req => Ok req | None => Err P2PError.Custom end.
Definition upgrade_outbound_codec {E} (protocol : ProtocolId) : Outcome E OutboundCodec :=
  codec ← BINOutboundCodec_new protocol MAX_P2P_SIZE;
  mret (OutBIN (BaseOutboundCodec_new codec)).
(** The first thing sent on an outbound substream is the request. *)
Definition upgrade_outbound (self : P2PRequest) (protocol : ProtocolId) : Outcome P2PError (OutboundCodec * bytes) :=
  codec ← upgrade_outbound_codec protocol;
  encode codec self [].
End Wire.

(** ** A stream that arrives in fragments

    The reader of a substream appends what arrives to its buffer and decodes until
    the decoder asks for more. *)
Section Stream.
Context {C Item E : Type} `{Decoder C Item E}.

Fixpoint drain (fuel : nat) (c : C) (src : bytes) : Outcome E (list Item * C * bytes) :=
  match fuel with
  | O => Ok ([], c, src)
  | S fuel =>
      r ← decode c src;
      match r.1.1 with
      | None => Ok ([], r.1.2, r.2)
      | Some item => r' ← drain fuel r.1.2 r.2; Ok (item :: r'.1.1, r'.1.2, r'.2)
      end
  end.
(** An item takes a byte, so the length of the buffer bounds their number. *)
Fixpoint feed (c : C) (buf : bytes) (frags : list bytes) : Outcome E (list Item * C * bytes) :=
  match frags with
  | [] => Ok ([], c, buf)
  | f :: frags =>
      r ← drain (S (length (buf ++ f))) c (buf ++ f);
      r' ← feed r.1.2 r.2 frags;
      Ok (r.1.1 ++ r'.1.1, r'.1.2, r'.2)
  end.

(** A decoder with an invariant: [wait c pre src] holds when [pre] of the encoding
    of an item was consumed before [src] arrived; a decoder that asked for more is
    at [rest]. *)
Context (enc : Item → bytes) (ok : Item → Prop) (wait rest : C → bytes → bytes → Prop).
Hypothesis decode_item : ∀ c pre src x tail,
  ok x → wait c pre src → pre ++ src = enc x ++ tail →
  ∃ c', decode c src = Ok (Some x, c', tail) ∧ (length tail < length src)%nat ∧ ∀ src', wait c' [] src'.
Hypothesis decode_part : ∀ c pre src x more,
  ok x → wait c pre src → pre ++ src ++ more = enc x → more ≠ [] →
  ∃ c' pre' src', decode c src = Ok (None, c', src') ∧ pre' ++ src' = pre ++ src ∧ rest c' pre' src'.
Hypothesis decode_empty : ∀ c, (∀ src, wait c [] src) →
  ∃ c', decode c [] = Ok (None, c', []) ∧ rest c' [] [].
Hypothesis rest_wait : ∀ c pre buf f, rest c pre buf → wait c pre (buf ++ f).

(** A prefix of the stream holds whole items, then a part of one. *)
Lemma drain_spec fuel c pre src xs more :
  Forall ok xs → wait c pre src → pre ++ src ++ more = concat (enc <$> xs) → (length src < fuel)%nat →
  (xs = [] → ∀ src, wait c [] src) →
  ∃ taken left c' pre' buf', xs = taken ++ left ∧ drain fuel c src = Ok (taken, c', buf') ∧
    rest c' pre' buf' ∧ pre' ++ buf' ++ more = concat (enc <$> left) ∧
    (left = [] ∨ ∃ x tl, left = x :: tl ∧ (length (pre' ++ buf') < length (enc x))%nat).
Proof.
  revert c pre src xs. induction fuel as [|fuel IH]; intros c pre src xs Hok Hw Heq Hf Hnil; [lia|].
  destruct xs as [|x xs].
  { simpl in Heq. apply app_eq_nil in Heq as [-> Heq]. apply app_eq_nil in Heq as [-> ->].
    destruct (decode_empty c (Hnil eq_refl)) as (c' & Hd & Hr).
    exists [], [], c', [], []. simpl. rewrite Hd. simpl. split_and!; auto. }
  apply Forall_cons in Hok as [Hx Hok]. rewrite fmap_cons in Heq. simpl concat in Heq.
  destruct (app_eq_inv (pre ++ src) more (enc x) (concat (enc <$> xs))) as [(k & Hk & Hc)|(k & Hk & Hc)];
    [by rewrite <-app_assoc|..].
  - destruct (decode_item c pre src x k Hx Hw Hk) as (c' & Hdec & Hlen & Hw').
    destruct (IH c' [] k xs Hok (Hw' _)) as (dn & lf & c2 & pre' & buf' & Hxs & Hdr & Hrest);
      [by rewrite Hc|lia|auto|].
    exists (x :: dn), lf, c2, pre', buf'. split_and!; [by rewrite Hxs| |apply Hrest..].
    simpl. rewrite Hdec. simpl. by rewrite Hdr.
  - destruct (decide (k = [])) as [->|Hne].
    { rewrite app_nil_r in Hk. destruct (decode_item c pre src x [] Hx Hw) as (c' & Hdec & Hlen & Hw');
        [by rewrite app_nil_r|].
      destruct (IH c' [] [] xs Hok (Hw' _)) as (dn & lf & c2 & pre' & buf' & Hxs & Hdr & Hrest);
        [done|simpl; lia|auto|].
      exists (x :: dn), lf, c2, pre', buf'. split_and!; [by rewrite Hxs| |apply Hrest..].
      simpl. rewrite Hdec. simpl. by rewrite Hdr. }
    destruct (decode_part c pre src x k Hx Hw) as (c' & pre' & src' & Hdec & Hps & Hr); [by rewrite app_assoc|done|].
    exists [], (x :: xs), c', pre', src'. split_and!; [done|simpl; by rewrite Hdec|done| |].
    + rewrite fmap_cons. simpl. rewrite app_assoc, Hps, <-app_assoc. done.
    + right. exists x, xs. split; [done|]. rewrite Hps, Hk, (length_app _ k).
      destruct k; [done|simpl; lia].
Qed.

(** However the stream is cut, exactly its items come out, and nothing is left. *)
Lemma feed_spec c pre buf xs frags :
  Forall ok xs → rest c pre buf → pre ++ buf ++ concat frags = concat (enc <$> xs) →
  (xs = [] → pre = [] ∧ buf = []) →
  (∀ x tl, xs = x :: tl → (length (pre ++ buf) < length (enc x))%nat) →
  ∃ c', feed c buf frags = Ok (xs, c', []) ∧ rest c' [] [].
Proof.
  revert c pre buf xs. induction frags as [|f frags IH]; intros c pre buf xs Hok Hr Heq Hnil Hlt; simpl in Heq; cbn [feed].
  - rewrite app_nil_r in Heq. destruct xs as [|x xs].
    { destruct (Hnil eq_refl) as [-> ->]. eauto. }
    exfalso. specialize (Hlt x xs eq_refl). rewrite Heq in Hlt. simpl in Hlt. rewrite length_app in Hlt. lia.
  - rewrite app_assoc in Heq.
    destruct (drain_spec (S (length (buf ++ f))) c pre (buf ++ f) xs (concat frags) Hok (rest_wait _ _ _ _ Hr))
      as (dn & lf & c' & pre' & buf' & -> & Hdr & Hr' & Heq' & Hlf);
      [by rewrite <-Heq, <-!app_assoc|lia| |].
    { intros Hx. destruct (Hnil Hx) as [-> ->]. intros src. exact (rest_wait c [] [] src Hr). }
    rewrite Hdr. rewrite bind_Ok. cbn [fst snd]. apply Forall_app in Hok as [_ Hok].
    destruct (IH c' pre' buf' lf Hok Hr' Heq') as (c2 & Hfd & Hr2).
    + intros ->. simpl in Heq'. apply app_eq_nil in Heq' as [-> Heq']. by apply app_eq_nil in Heq' as [-> _].
    + intros x tl Hx. destruct Hlf as [->|(x' & tl' & -> & ?)]; [done|]. by injection Hx as -> ->.
    + exists c2. rewrite Hfd. done.
Qed.
End Stream.

(** ** Frames *)
Section Frames.
Context `{UL : UviBytesLaws}.
Implicit Types (u : uvi_state) (p : bytes).

Definition frame p : bytes := uvi_header (length p) ++ p.
(** [pre] of a frame was consumed. *)
Definition uvi_wait u (pre : bytes) : Prop :=
  (uvi_view u = None ∧ pre = []) ∨
  (∃ n, uvi_view u = Some n ∧ pre = uvi_header n ∧ Z.of_nat n ≤ uvi_max u).

(** The code of a length tells where it ends. *)
Lemma uvi_header_inj u n n' a b :
  uvi_view u = None → Z.of_nat n ≤ uvi_max u → Z.of_nat n' ≤ uvi_max u →
  uvi_header n ++ a = uvi_header n' ++ b → n = n'.
Proof.
  intros Hu Hn Hn' Heq. set (z := replicate (n + n') 0).
  destruct (uvi_decode_body u n (uvi_header n) (a ++ z) Hn) as (u1 & _ & H1 & _); [by left|].
  destruct (uvi_decode_body u n' (uvi_header n') (b ++ z) Hn') as (u2 & _ & H2 & _); [by left|].
  assert (Hz : length z = (n + n')%nat) by apply length_replicate.
  rewrite decide_False in H1 by (rewrite length_app; lia).
  rewrite decide_False in H2 by (rewrite length_app; lia).
  rewrite app_assoc, Heq, <-app_assoc, H2 in H1. injection H1 as Ht _ _.
  apply (f_equal length) in Ht. rewrite !length_take, !length_app in Ht. lia.
Qed.
Lemma uvi_wait_frame u pre p src tail :
  uvi_wait u pre → Z.of_nat (length p) ≤ uvi_max u → pre ++ src = frame p ++ tail →
  (uvi_view u = None ∧ pre = []) ∨ (uvi_view u = Some (length p) ∧ pre = uvi_header (length p)).
Proof.
  intros [[Hu ->]|(n & Hu & -> & Hn)] Hp Heq; [by left|right].
  unfold frame in Heq. rewrite <-app_assoc in Heq.
  assert (n = length p) as -> by
    (eapply (uvi_header_inj (uvi_new (uvi_max u))); rewrite ?uvi_new_max; eauto using uvi_new_view).
  done.
Qed.

Lemma uvi_item u pre src p tail :
  uvi_wait u pre → Z.of_nat (length p) ≤ uvi_max u → pre ++ src = frame p ++ tail →
  ∃ u', uvi_decode u src = Ok (Some p, u', tail) ∧ uvi_view u' = None ∧ uvi_max u' = uvi_max u.
Proof.
  intros Hw Hp Heq. pose proof (uvi_wait_frame u pre p src tail Hw Hp Heq) as [[Hu ->]|[Hu ->]].
  - simpl in Heq. subst src. unfold frame. rewrite <-app_assoc.
    destruct (uvi_decode_body u (length p) (uvi_header (length p)) (p ++ tail) Hp) as (u' & Hm & Hd & Hv); [by left|].
    rewrite decide_False in Hd by (rewrite length_app; lia); rewrite decide_False in Hv by (rewrite length_app; lia).
    rewrite take_app_length, drop_app_length in Hd. eauto.
  - unfold frame in Heq. rewrite <-app_assoc in Heq. apply app_inv_head in Heq as ->.
    destruct (uvi_decode_body u (length p) [] (p ++ tail) Hp) as (u' & Hm & Hd & Hv); [by right|].
    rewrite decide_False in Hd by (rewrite length_app; lia); rewrite decide_False in Hv by (rewrite length_app; lia).
    rewrite take_app_length, drop_app_length in Hd. eauto.
Qed.

Lemma uvi_part u pre src p more :
  uvi_wait u pre → Z.of_nat (length p) ≤ uvi_max u → pre ++ src ++ more = frame p → more ≠ [] →
  ∃ u' pre' src', uvi_decode u src = Ok (None, u', src') ∧ pre' ++ src' = pre ++ src ∧
    uvi_wait u' pre' ∧ uvi_max u' = uvi_max u ∧
    (pre' = [] ∧ src' = src ∨ pre' = uvi_header (length p) ∧ p ≠ []).
Proof.
  intros Hw Hp Heq Hm.
  destruct (uvi_wait_frame u pre p (src ++ more) [] Hw Hp) as [[Hu ->]|[Hu ->]]; [by rewrite app_nil_r| |].
  - simpl in Heq. unfold frame in Heq.
    destruct (app_eq_inv _ _ _ _ Heq) as [(k & -> & ->)|(k & Hk & Hc)].
    + destruct (uvi_decode_body u _ (uvi_header (length (k ++ more))) k Hp) as (u' & Hmx & Hd & Hv); [by left|].
      assert (length k < length (k ++ more))%nat by (rewrite length_app; destruct more; simpl; [done|lia]).
      rewrite decide_True in Hd by done; rewrite decide_True in Hv by done.
      exists u', (uvi_header (length (k ++ more))), k. split_and!; auto; [right; rewrite Hmx; eauto|].
      right. split; [done|]. by destruct k, more.
    + destruct (decide (k = [])) as [->|Hk'].
      * simpl in Hc. subst more. rewrite app_nil_r in Hk. subst src.
        destruct (uvi_decode_body u (length p) (uvi_header (length p)) [] Hp) as (u' & Hmx & Hd & Hv); [by left|].
        rewrite app_nil_r in Hd. rewrite decide_True in Hd by (destruct p; simpl; [done|lia]); rewrite decide_True in Hv by (destruct p; simpl; [done|lia]).
        exists u', (uvi_header (length p)), []. split_and!; auto; [by rewrite app_nil_r|right; rewrite Hmx; eauto].
      * destruct (uvi_decode_header u (length p) src k Hu Hk Hk') as (u' & Hd & Hv & Hmx).
        exists u', [], src. split_and!; auto. by left.
  - unfold frame in Heq. apply app_inv_head in Heq. subst p.
    destruct (uvi_decode_body u _ [] src Hp) as (u' & Hmx & Hd & Hv); [by right|].
    assert (length src < length (src ++ more))%nat by (rewrite length_app; destruct more; simpl; [done|lia]).
    rewrite decide_True in Hd by done; rewrite decide_True in Hv by done.
    exists u', (uvi_header (length (src ++ more))), src. split_and!; auto; [right; rewrite Hmx; eauto|].
    right. split; [done|]. by destruct src, more.
Qed.

(** A single zero is the frame without bytes, and the beginning of no other. *)
Lemma uvi_part_zero u p more :
  uvi_view u = None → Z.of_nat (length p) ≤ uvi_max u → [0] ++ more = frame p → more = [].
Proof.
  intros Hu Hp Heq. unfold frame in Heq. rewrite <-uvi_header_zero in Heq.
  assert (0%nat = length p) as Hn.
  { eapply (uvi_header_inj u 0%nat (length p)); eauto; lia. }
  rewrite <-Hn in Heq. apply app_inv_head in Heq. subst. by destruct p.
Qed.
End Frames.

(** ** Streams of responses and requests *)
Section WireFacts.
Context `{UL : UviBytesLaws, P : Profile}.
Context `{BincodeLaws StatusMessage, BincodeLaws GoodbyeReason, BincodeLaws BlocksByRangeRequest,
  BincodeLaws BlocksByRootRequest, Bincode (list Hash), BincodeLaws ErrorMessage}.

(** The bytes of a response, and the chunk that carries it. *)
Definition payload (r : P2PErrorResponse) : bytes :=
  match response_bytes (E:=P2PError) r with Ok bs => bs | _ => [] end.
Definition chunk (r : P2PErrorResponse) : bytes := default 0 (P2PErrorResponse.as_u8 r) :: frame (payload r).

(** The responses a protocol carries. *)
Definition response_fits (p : ProtocolId) (r : P2PErrorResponse) : Prop :=
  match r with
  | P2PErrorResponse.Success (P2PResponse.Status _) => message_name p = RPC_STATUS ∧ version p = V1
  | P2PErrorResponse.Success (P2PResponse.BlocksByRange _) => message_name p = RPC_BLOCKS_BY_RANGE ∧ version p = V1
  | P2PErrorResponse.Success (P2PResponse.BlocksByRoot _) => message_name p = RPC_BLOCKS_BY_ROOT ∧ version p = V1
  | P2PErrorResponse.StreamTermination _ => False
  | _ => True
  end.
Definition sendable (p : ProtocolId) (r : P2PErrorResponse) : Prop :=
  response_fits p r ∧ Z.of_nat (length (payload r)) ≤ MAX_P2P_SIZE ∧ length (payload r) ≠ 1%nat.

Lemma fits_decode p r :
  response_fits p r →
  (P2PErrorResponse.is_response (default 0 (P2PErrorResponse.as_u8 r)) = true ∧
   ∃ resp, r = P2PErrorResponse.Success resp ∧ decode_response p (payload r) = Ok resp ∧
     (payload r = [] → empty_response p = Ok resp)) ∨
  (P2PErrorResponse.is_response (default 0 (P2PErrorResponse.as_u8 r)) = false ∧ payload r ≠ [] ∧
   ∃ e, deserialize (payload r) = Some e ∧
     P2PErrorResponse.from_error (default 0 (P2PErrorResponse.as_u8 r)) e = r).
Proof.
  destruct r as [resp|e|e|e|]; simpl; [|try by intros _; right; split; [done|]; unfold payload; simpl;
    rewrite deserialize_serialize; split; [apply serialize_nonempty|eauto]..|done].
  intros Hf. left. split; [done|]. exists resp. split; [done|].
  unfold decode_response, empty_response, payload.
  destruct resp as [st|bs|bs]; destruct Hf as [-> ->]; simpl.
  - rewrite deserialize_serialize. split; [done|]. intros []%serialize_nonempty.
  - by split; [|intros ->].
  - by split; [|intros ->].
Qed.

(** Whatever was in the buffer is dropped. *)
Lemma encode_chunk p u r dst :
  response_fits p r → Z.of_nat (length (payload r)) ≤ uvi_max u →
  ∃ u', encode (InBIN (mkBaseInboundCodec (mkBINInboundCodec u p))) r dst =
      Ok (InBIN (mkBaseInboundCodec (mkBINInboundCodec u' p)), chunk r) ∧ uvi_max u' = uvi_max u.
Proof.
  intros Hf Hp. unfold encode, InboundCodec_encode, encode, BaseInboundCodec_encode, encode, BINInboundCodec_encode.
  assert (Hr : response_bytes (E:=P2PError) r = Ok (payload r)) by (by destruct r as [[]| | | |]).
  assert (Hc : P2PErrorResponse.as_u8 r = Some (default 0 (P2PErrorResponse.as_u8 r))) by (by destruct r).
  rewrite Hc. simpl. rewrite Hr. simpl. unfold chunk, frame.
  case_decide as Hne; simpl.
  - destruct (uvi_encode_ok u (payload r) [default 0 (P2PErrorResponse.as_u8 r)] Hp) as (u' & -> & _ & Hm).
    simpl. eauto.
  - rewrite Hne. simpl. rewrite uvi_header_zero. eauto.
Qed.

(** The state of a decoder of responses that consumed [pre] of a chunk. *)
Definition out_codec (p : ProtocolId) (u : uvi_state) (code : option Z) : OutboundCodec :=
  OutBIN (mkBaseOutboundCodec (mkBINOutboundCodec u p) code).
Definition chunk_wait (p : ProtocolId) (c : OutboundCodec) (pre src : bytes) : Prop :=
  ∃ u code, c = out_codec p u code ∧ uvi_max u = MAX_P2P_SIZE ∧
    ((pre = [] ∧ code = None ∧ uvi_view u = None) ∨
     (∃ k pre2, pre = k :: pre2 ∧ code = Some k ∧ uvi_wait u pre2 ∧
        (pre2 = [] → src ≠ [] ∧ src ≠ [0]) ∧ (∀ n, uvi_view u = Some n → (2 ≤ n)%nat))).
Definition chunk_rest (p : ProtocolId) (c : OutboundCodec) (pre buf : bytes) : Prop := chunk_wait p c pre buf.

Lemma chunk_rest_wait p c pre buf f : chunk_rest p c pre buf → chunk_wait p c pre (buf ++ f).
Proof.
  intros (u & code & -> & Hm & [Hw|(k & pre2 & -> & -> & Hw & Hs & Hn)]); exists u; eauto 10.
  eexists. split_and!; [done..|]. right. exists k, pre2. split_and!; [done..| |done].
  intros Hp. specialize (Hs Hp) as [Hne Hz]. destruct buf as [|b [|b' buf]]; [done| |done].
  simpl. split; [done|]. intros [= -> ->]. done.
Qed.

(** The inner decoder, given the response code. *)
Definition inner_decode (u : uvi_state) (p : ProtocolId) (k : Z) (src : bytes)
    : Outcome P2PError (option P2PErrorResponse * BINOutboundCodec * bytes) :=
  if P2PErrorResponse.is_response k then
    mbind (M:=Outcome P2PError) (λ r : option P2PResponse * BINOutboundCodec * bytes,
      mret (P2PErrorResponse.Success <$> r.1.1, r.1.2, r.2)) (decode (mkBINOutboundCodec u p) src)
  else
    mbind (M:=Outcome P2PError) (λ r : option ErrorMessage * BINOutboundCodec * bytes,
      mret (P2PErrorResponse.from_error k <$> r.1.1, r.1.2, r.2)) (decode_error (mkBINOutboundCodec u p) src).

Lemma decode_inner p u code k src src2 :
  (2 ≤ length src)%nat → (code = None ∧ src = k :: src2) ∨ (code = Some k ∧ src = src2) →
  decode (out_codec p u code) src =
    r ← inner_decode u p k src2;
    mret (r.1.1, OutBIN (mkBaseOutboundCodec r.1.2 (match r.1.1 with Some _ => None | None => Some k end)), r.2).
Proof.
  intros Hl Hc. unfold out_codec, decode, OutboundCodec_decode, decode, BaseOutboundCodec_decode.
  rewrite decide_False by lia.
  assert (Hs : split_code (E:=P2PError) (mkBaseOutboundCodec (mkBINOutboundCodec u p) code) src = Ok (k, src2))
    by (destruct Hc as [[-> ->]|[-> ->]]; done).
  rewrite Hs, bind_Ok. cbn [out_inner]. fold (inner_decode u p k src2).
  by destruct (inner_decode u p k src2) as [[[[]]]| |].
Qed.

Lemma inner_item p u r pre src tail :
  response_fits p r → Z.of_nat (length (payload r)) ≤ uvi_max u → uvi_wait u pre →
  pre ++ src = frame (payload r) ++ tail → (pre = [] ∨ src ≠ [0]) →
  ∃ u', inner_decode u p (default 0 (P2PErrorResponse.as_u8 r)) src =
      Ok (Some r, mkBINOutboundCodec u' p, tail) ∧ uvi_view u' = None ∧ uvi_max u' = uvi_max u.
Proof.
  intros Hf Hp Hw Heq Hz. destruct (uvi_item u pre src (payload r) tail Hw Hp Heq) as (u' & Hd & Hv & Hm).
  unfold inner_decode. destruct (fits_decode p r Hf) as [(-> & resp & Hr & Hdec & Hem)|(-> & Hne & e & He & Hfr)].
  - unfold decode, BINOutboundCodec_decode. cbn [bo_protocol bo_inner]. case_decide as Hs.
    + subst src. destruct Hz as [->|]; [|done]. simpl in Heq.
      assert (payload r = [] ∧ tail = []) as [Hpr ->].
      { destruct Hw as [[Hu _]|(n & _ & Hn & _)]; [|by destruct (uvi_header_nil n)].
        unfold frame in Heq. rewrite <-app_assoc, <-uvi_header_zero in Heq.
        rewrite <-(app_nil_r (uvi_header 0)) in Heq.
        pose proof (uvi_header_inj u 0 (length (payload r)) [] _ Hu ltac:(lia) Hp Heq) as Hl.
        rewrite <-Hl in Heq. apply app_inv_head in Heq. by symmetry in Heq; apply app_eq_nil in Heq. }
      rewrite (Hem Hpr). simpl. exists u. rewrite <-Hr. split_and!; [done| |done].
      destruct Hw as [[Hu _]|(n & _ & Hn & _)]; [done|by destruct (uvi_header_nil n)].
    + rewrite Hd. simpl. rewrite Hdec. simpl. rewrite <-Hr. eauto.
  - unfold decode_error, BINOutboundCodec_decode_error_instance, BINOutboundCodec_decode_error. cbn [bo_protocol bo_inner].
    rewrite Hd. simpl. rewrite He. simpl. rewrite Hfr. eauto.
Qed.

Lemma inner_part p u r pre src more :
  response_fits p r → Z.of_nat (length (payload r)) ≤ uvi_max u → length (payload r) ≠ 1%nat → uvi_wait u pre →
  pre ++ src ++ more = frame (payload r) → more ≠ [] → (src ≠ [] ∧ src ≠ [0]) ∨ pre ≠ [] ∧ src ≠ [0] →
  ∃ u' pre' src', inner_decode u p (default 0 (P2PErrorResponse.as_u8 r)) src =
      Ok (None, mkBINOutboundCodec u' p, src') ∧ pre' ++ src' = pre ++ src ∧ uvi_wait u' pre' ∧
      uvi_max u' = uvi_max u ∧ (pre' = [] → src' ≠ [] ∧ src' ≠ [0]) ∧
      (∀ n, uvi_view u' = Some n → (2 ≤ n)%nat).
Proof.
  intros Hf Hp Hp1 Hw Heq Hm Hz.
  assert (src ≠ [0]) as Hs by tauto.
  destruct (uvi_part u pre src (payload r) more Hw Hp Heq Hm) as (u' & pre' & src' & Hd & Hps & Hw' & Hmx & Hc).
  exists u', pre', src'. split_and!; auto.
  - unfold inner_decode. destruct (P2PErrorResponse.is_response _).
    + unfold decode, BINOutboundCodec_decode. cbn [bo_protocol bo_inner]. by rewrite decide_False, Hd by done.
    + unfold decode_error, BINOutboundCodec_decode_error_instance, BINOutboundCodec_decode_error. cbn [bo_protocol bo_inner].
      by rewrite Hd.
  - intros ->. destruct Hc as [[_ ->]|[Hc _]]; [|by destruct (uvi_header_nil (length (payload r)))].
    simpl in Hps. rewrite <-(app_nil_l src) in Hps at 1. apply app_inv_tail in Hps. subst pre. tauto.
  - intros n Hv. destruct Hw' as [[Hu _]|(n' & Hu & Hpre & Hn)]; rewrite Hu in Hv; [done|]. injection Hv as ->.
    destruct Hc as [[-> _]|[Hc Hne]]; [by destruct (uvi_header_nil n)|].
    assert (n = length (payload r)) as ->; [|destruct (payload r) as [|? []]; simpl in *; [done|done|lia]].
    apply (uvi_header_inj (uvi_new (uvi_max u)) n _ [] []); rewrite ?uvi_new_max, ?uvi_new_view, <-?Hc, <-?Hpre;
      auto; lia.
Qed.

Lemma chunk_decode_item p c pre src r tail :
  sendable p r → chunk_wait p c pre src → pre ++ src = chunk r ++ tail →
  ∃ c', decode c src = Ok (Some r, c', tail) ∧ (length tail < length src)%nat ∧ ∀ src', chunk_wait p c' [] src'.
Proof.
  intros (Hf & Hp & Hp1) (u & code & -> & Hm & Hcase) Heq. rewrite <-Hm in Hp. unfold chunk in Heq.
  assert (Hh : (1 ≤ length (frame (payload r)))%nat).
  { unfold frame. rewrite length_app. pose proof (uvi_header_nil (length (payload r))).
    destruct (uvi_header (length (payload r))); [done|simpl; lia]. }
  set (k := default 0 (P2PErrorResponse.as_u8 r)) in *. simpl in Heq.
  assert (∃ pre2 src2, uvi_wait u pre2 ∧ pre2 ++ src2 = frame (payload r) ++ tail ∧
    ((code = None ∧ src = k :: src2) ∨ (code = Some k ∧ src = src2)) ∧ (2 ≤ length src)%nat ∧
    (pre2 = [] ∨ src2 ≠ [0]) ∧ (length tail < length src)%nat)
    as (pre2 & src2 & Hw & Heq2 & Hc & Hl & Hz & Hlt).
  { pose proof (f_equal length Heq) as Hlen.
    destruct Hcase as [(-> & -> & Hu)|(k' & pre2 & -> & -> & Hw & Hs & Hn)]; simpl in Heq, Hlen; rewrite !length_app in Hlen.
    - exists [], (frame (payload r) ++ tail). split_and!; auto; [by left|lia|lia].
    - injection Heq as -> Heq. exists pre2, src.
      destruct (uvi_wait_frame u pre2 (payload r) src tail Hw Hp Heq) as [[Hu ->]|[Hu ->]].
      + specialize (Hs eq_refl) as [Hne Hz]. simpl in Heq.
        assert (2 ≤ length src)%nat.
        { destruct src as [|b [|]]; [done| |simpl; lia]. exfalso. apply Hz.
          assert (tail = []) as -> by (destruct tail; [done|simpl in Hlen; lia]).
          rewrite app_nil_r in Heq. unfold frame in *.
          assert (payload r = []) as Hpr.
          { destruct (payload r); [done|]. rewrite length_app in Hh, Hlen. simpl in *.
            pose proof (uvi_header_nil (S (length l))). destruct (uvi_header _); simpl in *; [done|lia]. }
          rewrite Hpr in Heq. simpl in Heq. rewrite uvi_header_zero in Heq. done. }
        split_and!; auto. simpl in Hlen. lia.
      + specialize (Hn _ Hu). unfold frame in Heq, Hlen. rewrite <-app_assoc in Heq. apply app_inv_head in Heq. subst src.
        rewrite !length_app. split_and!; auto; [by unfold frame; rewrite <-app_assoc|lia| |lia].
        right. intros Hx. apply (f_equal length) in Hx. rewrite length_app in Hx. simpl in Hx. lia. }
  rewrite (decode_inner p u code k src src2 Hl Hc).
  destruct (inner_item p u r pre2 src2 tail Hf Hp Hw Heq2 Hz) as (u' & Hd & Hv & Hm'). fold k in Hd. rewrite Hd. simpl.
  eexists. split_and!; [done|done|]. intros src'. exists u', None. split_and!; [done|congruence|]. by left.
Qed.

Lemma chunk_decode_part p c pre src r more :
  sendable p r → chunk_wait p c pre src → pre ++ src ++ more = chunk r → more ≠ [] →
  ∃ c' pre' src', decode c src = Ok (None, c', src') ∧ pre' ++ src' = pre ++ src ∧ chunk_rest p c' pre' src'.
Proof.
  intros (Hf & Hp & Hp1) Hwait Heq Hmore. pose proof Hwait as (u & code & -> & Hm & Hcase). rewrite <-Hm in Hp.
  destruct (decide (length src ≤ 1)%nat) as [Hl|Hl].
  { exists (out_codec p u code), pre, src. split_and!; [|done|exact Hwait].
    unfold out_codec, decode, OutboundCodec_decode, decode, BaseOutboundCodec_decode. by rewrite decide_True. }
  unfold chunk in Heq. set (k := default 0 (P2PErrorResponse.as_u8 r)) in *.
  assert (∃ pre2 src2, uvi_wait u pre2 ∧ pre2 ++ src2 ++ more = frame (payload r) ∧
    ((code = None ∧ src = k :: src2) ∨ (code = Some k ∧ src = src2)) ∧ pre ++ src = k :: pre2 ++ src2 ∧
    (src2 ≠ [] ∧ src2 ≠ [0] ∨ pre2 ≠ [] ∧ src2 ≠ [0])) as (pre2 & src2 & Hw & Heq2 & Hc & Hpe & Hz).
  { destruct Hcase as [(-> & -> & Hu)|(k' & pre2 & -> & -> & Hw & Hs & Hn)].
    - destruct src as [|k' src2]; [simpl in Hl; lia|]. simpl in Heq. injection Heq as -> Heq.
      exists [], src2. split_and!; auto; [by left|]. left. destruct src2; [simpl in Hl; lia|]. split; [done|].
      intros Hx. rewrite Hx in Heq. by apply Hmore, (uvi_part_zero u (payload r) more Hu Hp).
    - simpl in Heq. injection Heq as -> Heq. exists pre2, src. split_and!; auto.
      left. split; intros ->; simpl in Hl; lia. }
  rewrite (decode_inner p u code k src src2) by (auto; lia).
  destruct (inner_part p u r pre2 src2 more Hf Hp Hp1 Hw Heq2 Hmore Hz) as (u' & pre' & src' & Hd & Hps & Hw' & Hm' & Hr & Hn).
  fold k in Hd. rewrite Hd. simpl. eexists _, (k :: pre'), src'. split_and!; [done|rewrite Hpe, <-Hps; done|].
  exists u', (Some k). split_and!; [done|congruence|]. right. exists k, pre'. done.
Qed.

(** What the writer of a substream sends: a chunk per response, each flushed before
    the next. *)
Fixpoint send_all (c : InboundCodec) (rs : list P2PErrorResponse) : Outcome P2PError (InboundCodec * bytes) :=
  match rs with
  | [] => Ok (c, [])
  | r :: rs =>
      e ← (encode c r [] : Outcome P2PError (InboundCodec * bytes));
      f ← send_all e.1 rs;
      Ok (f.1, e.2 ++ f.2)
  end.
Lemma send_all_spec p u rs :
  Forall (sendable p) rs → uvi_max u = MAX_P2P_SIZE →
  ∃ c', send_all (InBIN (mkBaseInboundCodec (mkBINInboundCodec u p))) rs = Ok (c', concat (chunk <$> rs)).
Proof.
  intros Hs. revert u. induction Hs as [|r rs (Hf & Hp & _) Hs IH]; intros u Hm; simpl; [eauto|].
  destruct (encode_chunk p u r [] Hf) as (u' & -> & Hm'); [lia|]. rewrite bind_Ok. simpl.
  destruct (IH u') as (c' & ->); [congruence|]. simpl. eauto.
Qed.
Lemma listened_bin p : p ∈ P2PProtocol_protocol_info → encoding p = BIN_ENCODING ∧ version p = V1.
Proof. unfold P2PProtocol_protocol_info. set_solver. Qed.
Lemma upgrade_codecs {E} p :
  p ∈ P2PProtocol_protocol_info →
  upgrade_inbound_codec (E:=E) p = Ok (InBIN (mkBaseInboundCodec (mkBINInboundCodec (uvi_new MAX_P2P_SIZE) p))) ∧
  upgrade_outbound_codec (E:=E) p = Ok (out_codec p (uvi_new MAX_P2P_SIZE) None).
Proof.
  intros [He _]%listened_bin. unfold upgrade_inbound_codec, upgrade_outbound_codec, BINInboundCodec_new, BINOutboundCodec_new.
  unfold debug_assert. rewrite bool_decide_true by done. by rewrite andb_false_r.
Qed.

(** The same for the decoder of requests. *)
Definition in_codec (p : ProtocolId) (u : uvi_state) : InboundCodec :=
  InBIN (mkBaseInboundCodec (mkBINInboundCodec u p)).
Definition request_wait (p : ProtocolId) (c : InboundCodec) (pre src : bytes) : Prop :=
  ∃ u, c = in_codec p u ∧ uvi_max u = MAX_P2P_SIZE ∧ uvi_wait u pre ∧ uvi_view u ≠ Some 0%nat.
Definition request_ok (p : ProtocolId) (r : P2PRequest) : Prop :=
  decode_request p (request_bytes r) = Ok r ∧ Z.of_nat (length (request_bytes r)) ≤ MAX_P2P_SIZE.
Definition request_frame (r : P2PRequest) : bytes := frame (request_bytes r).

Lemma uvi_wait_nil u : uvi_wait u [] → uvi_view u = None.
Proof. intros [[Hu _]|(n & _ & Hn & _)]; [done|by destruct (uvi_header_nil n)]. Qed.
Lemma decode_in_codec p u src o u' src' :
  uvi_decode u src = Ok (o, u', src') →
  decode (in_codec p u) src =
    (match o with
     | Some packet => req ← decode_request p packet; mret (Some req, in_codec p u', src')
     | None => Ok (None, in_codec p u', src')
     end).
Proof.
  intros Hd. unfold in_codec, decode, InboundCodec_decode, decode, BaseInboundCodec_decode, decode, BINInboundCodec_decode.
  cbn [in_inner bi_inner]. rewrite Hd. simpl. destruct o as [packet|]; [|done]. by destruct (decode_request p packet).
Qed.
Lemma request_decode_item p c pre src r tail :
  request_ok p r → request_wait p c pre src → pre ++ src = request_frame r ++ tail →
  ∃ c', decode c src = Ok (Some r, c', tail) ∧ (length tail < length src)%nat ∧ ∀ src', request_wait p c' [] src'.
Proof.
  intros [Hr Hl] (u & -> & Hm & Hw & Hz) Heq. rewrite <-Hm in Hl.
  destruct (uvi_item u pre src _ tail Hw Hl Heq) as (u' & Hd & Hv & Hm').
  exists (in_codec p u'). split_and!.
  - rewrite (decode_in_codec p u src _ _ _ Hd), Hr. done.
  - destruct (uvi_wait_frame u pre _ src tail Hw Hl Heq) as [[Hu ->]|[Hu ->]].
    + simpl in Heq. subst src. unfold request_frame, frame. rewrite !length_app.
      pose proof (uvi_header_nil (length (request_bytes r))). destruct (uvi_header _); [done|simpl; lia].
    + unfold request_frame, frame in Heq. rewrite <-app_assoc in Heq. apply app_inv_head in Heq. subst src.
      rewrite length_app. destruct (request_bytes r); [by rewrite Hu in Hz|simpl; lia].
  - intros src'. exists u'. rewrite Hv. split_and!; [done|congruence|by left|done].
Qed.
Lemma request_decode_part p c pre src r more :
  request_ok p r → request_wait p c pre src → pre ++ src ++ more = request_frame r → more ≠ [] →
  ∃ c' pre' src', decode c src = Ok (None, c', src') ∧ pre' ++ src' = pre ++ src ∧ request_wait p c' pre' src'.
Proof.
  intros [Hr Hl] (u & -> & Hm & Hw & Hz) Heq Hmore. rewrite <-Hm in Hl.
  destruct (uvi_part u pre src _ more Hw Hl Heq Hmore) as (u' & pre' & src' & Hd & Hps & Hw' & Hm' & Hc).
  exists (in_codec p u'), pre', src'. split_and!; [exact (decode_in_codec p u src _ _ _ Hd)|done|].
  exists u'. split_and!; [done|congruence|done|]. intros Hv.
  destruct Hw' as [[Hu _]|(n & Hu & Hpre & Hn)]; rewrite Hu in Hv; [done|]. injection Hv as ->.
  destruct Hc as [[-> _]|[Hc Hne]]; [by destruct (uvi_header_nil 0)|].
  assert (0%nat = length (request_bytes r)) as Hx.
  { apply (uvi_header_inj (uvi_new (uvi_max u)) 0 _ [] []); rewrite ?uvi_new_max, ?uvi_new_view, <-?Hc, <-?Hpre; auto; lia. }
  by destruct (request_bytes r).
Qed.
Lemma request_decode_empty p c :
  (∀ src, request_wait p c [] src) → ∃ c', decode c [] = Ok (None, c', []) ∧ request_wait p c' [] [].
Proof.
  intros Hc. destruct (Hc []) as (u & -> & Hm & Hw & Hz).
  destruct (uvi_decode_header u 0 [] [0] (uvi_wait_nil u Hw)) as (u' & Hd & Hv & Hm'); [apply uvi_header_zero|done|].
  exists (in_codec p u'). split; [exact (decode_in_codec p u _ _ _ _ Hd)|].
  exists u'. rewrite Hv. split_and!; [done|congruence|by left|done].
Qed.
End WireFacts.

Section WireTheorems.
Context `{UL : UviBytesLaws, P : Profile}.
Context `{BincodeLaws StatusMessage, BincodeLaws GoodbyeReason, BincodeLaws BlocksByRangeRequest,
  BincodeLaws BlocksByRootRequest, Bincode (list Hash), BincodeLaws ErrorMessage}.

(** C37: The responses written on a substream are the responses read from it, in order,
    however the bytes are cut on the way.  The one exception is a response of a
    single byte. *)
Theorem response_stream_roundtrip p rs :
  p ∈ P2PProtocol_protocol_info → Forall (sendable p) rs →
  ∃ cin cout stream cin',
    upgrade_inbound_codec (E:=P2PError) p = Ok cin ∧ upgrade_outbound_codec (E:=P2PError) p = Ok cout ∧
    send_all cin rs = Ok (cin', stream) ∧
    ∀ frags, concat frags = stream → ∃ cout', feed cout [] frags = Ok (rs, cout', []).
Proof.
  intros Hp Hs. destruct (upgrade_codecs (E:=P2PError) p Hp) as [-> ->].
  destruct (send_all_spec p (uvi_new MAX_P2P_SIZE) rs Hs (uvi_new_max _)) as (cin' & Hsend).
  eexists _, _, _, cin'. split_and!; [done|done|exact Hsend|]. intros frags Hfr.
  destruct (feed_spec chunk (sendable p) (chunk_wait p) (chunk_rest p)
    (chunk_decode_item p) (chunk_decode_part p)) with (c := out_codec p (uvi_new MAX_P2P_SIZE) None)
    (pre := @nil Z) (buf := @nil Z) (xs := rs) (frags := frags) as (c' & Hfd & _); auto.
  - intros c Hc. exists c. split; [|apply Hc]. destruct (Hc []) as (u & code & -> & _). done.
  - apply chunk_rest_wait.
  - exists (uvi_new MAX_P2P_SIZE), None. split_and!; [done|apply uvi_new_max|]. left. by rewrite uvi_new_view.
  - intros x tl _. unfold chunk. simpl. lia.
  - eauto.
Qed.

(** A response of one byte whose length arrives before it is not delivered: the
    decoder waits for a second byte, as it does while only a response code is there. *)
Theorem one_byte_response_stalls k x :
  ∃ c', feed (out_codec (ProtocolId.new RPC_BLOCKS_BY_RANGE V1 BIN_ENCODING) (uvi_new MAX_P2P_SIZE) None) []
    [k :: uvi_header 1; [x]] = Ok ([], c', [x]).
Proof.
  set (p := ProtocolId.new _ _ _). set (u := uvi_new MAX_P2P_SIZE).
  destruct (uvi_decode_body u 1 (uvi_header 1) []) as (u' & Hm & Hd & Hv);
    [unfold u; by rewrite uvi_new_max|left; split; [apply uvi_new_view|done]|].
  rewrite app_nil_r in Hd. rewrite decide_True in Hd by (simpl; lia).
  assert (Hne : uvi_header 1 ≠ [0]).
  { intros Hz. rewrite <-uvi_header_zero, <-(app_nil_r (uvi_header 1)), <-(app_nil_r (uvi_header 0)) in Hz.
    apply (uvi_header_inj u) in Hz; [done|apply uvi_new_view|unfold u; by rewrite uvi_new_max..]. }
  assert (Hi : inner_decode u p k (uvi_header 1) = Ok (None, mkBINOutboundCodec u' p, [])).
  { unfold inner_decode. destruct (P2PErrorResponse.is_response k).
    - unfold decode, BINOutboundCodec_decode. rewrite decide_False by done. cbn [bo_inner]. by rewrite Hd.
    - unfold decode_error, BINOutboundCodec_decode_error_instance, BINOutboundCodec_decode_error.
      cbn [bo_inner]. by rewrite Hd. }
  cbn [feed drain app]. rewrite (decode_inner p u None k _ (uvi_header 1)).
  - rewrite Hi. simpl. eauto.
  - pose proof (uvi_header_nil 1). destruct (uvi_header 1); [done|simpl; lia].
  - by left.
Qed.

(** A request is read by the listener as it was sent, however its bytes are cut, when
    a list of roots is encoded as the request that holds it. *)
Theorem request_roundtrip req p :
  (∀ r : BlocksByRootRequest, serialize (block_roots r) = serialize r) →
  p ∈ supported_protocols req → Z.of_nat (length (request_bytes req)) ≤ MAX_P2P_SIZE →
  p ∈ P2PProtocol_protocol_info ∧
  ∃ cout cin stream, upgrade_outbound req p = Ok (cout, stream) ∧
    upgrade_inbound_codec (E:=P2PError) p = Ok cin ∧
    ∀ frags, concat frags = stream → ∃ cin', feed cin [] frags = Ok ([req], cin', []).
Proof.
  intros Hnew Hp Hlen.
  assert (Hl : p ∈ P2PProtocol_protocol_info) by (destruct req; set_solver).
  split; [done|]. destruct (upgrade_codecs (E:=P2PError) p Hl) as [Hin Hout].
  destruct (uvi_encode_ok (uvi_new MAX_P2P_SIZE) (request_bytes req) []) as (u' & He & _); [by rewrite uvi_new_max|].
  eexists _, _, (frame (request_bytes req)). split_and!.
  - unfold upgrade_outbound. rewrite Hout, bind_Ok.
    unfold out_codec, encode, OutboundCodec_encode, encode, BaseOutboundCodec_encode, encode, BINOutboundCodec_encode.
    cbn [out_inner bo_inner]. rewrite He. done.
  - exact Hin.
  - intros frags Hfr.
    assert (Hdec : decode_request p (request_bytes req) = Ok req).
    { unfold decode_request. destruct req as [q|q|q|q]; simpl in Hp; apply list_elem_of_singleton in Hp as ->; simpl;
        rewrite ?Hnew, deserialize_serialize; done. }
    destruct (feed_spec request_frame (request_ok p) (request_wait p) (request_wait p)
      (request_decode_item p) (request_decode_part p) (request_decode_empty p)) with
      (c := in_codec p (uvi_new MAX_P2P_SIZE)) (pre := @nil Z) (buf := @nil Z)
      (xs := [req]) (frags := frags) as (c' & Hfd & _);
      [done|by repeat constructor| | |done| |by eauto].
    + exists (uvi_new MAX_P2P_SIZE). rewrite uvi_new_view, uvi_new_max. split_and!; [done|done| |done].
      left. split; [apply uvi_new_view|done].
    + simpl. by rewrite app_nil_r.
    + intros x tl [= <- _]. unfold request_frame, frame. rewrite length_app.
      pose proof (uvi_header_nil (length (request_bytes req))). destruct (uvi_header _); [done|simpl; lia].
Qed.

(** Bytes of the peer are decoded with [unwrap]: a frame that is not the encoding of
    a request panics the listener, and so does a malformed error on the other side. *)
Theorem malformed_frame_panics p packet :
  p ∈ P2PProtocol_protocol_info → message_name p = RPC_STATUS → Z.of_nat (length packet) ≤ MAX_P2P_SIZE →
  deserialize (A:=StatusMessage) packet = None → deserialize (A:=ErrorMessage) packet = None →
  feed (in_codec p (uvi_new MAX_P2P_SIZE)) [] [frame packet] = Panic ∧
  feed (out_codec p (uvi_new MAX_P2P_SIZE) None) [] [1 :: frame packet] = Panic.
Proof.
  intros Hp Hn Hl Hs He. destruct (listened_bin p Hp) as [_ Hv].
  destruct (uvi_item (uvi_new MAX_P2P_SIZE) [] (frame packet) packet []) as (u' & Hd & _);
    [left; split; [apply uvi_new_view|done]|by rewrite uvi_new_max|by rewrite app_nil_r|].
  split; cbn [feed drain app].
  - rewrite (decode_in_codec p _ _ _ _ _ Hd). unfold decode_request.
    rewrite decide_True, decide_True by done. by rewrite Hs.
  - rewrite (decode_inner p _ None 1 _ (frame packet)).
    + unfold inner_decode. change (P2PErrorResponse.is_response 1) with false. cbn iota.
      unfold decode_error, BINOutboundCodec_decode_error_instance, BINOutboundCodec_decode_error.
      cbn [bo_inner]. rewrite Hd. simpl. by rewrite He.
    + unfold frame. simpl. rewrite length_app. pose proof (uvi_header_nil (length packet)).
      destruct (uvi_header _); [done|simpl; lia].
    + by left.
Qed.
End WireTheorems.

(** ** Worked example: LEB128 lengths *)
Fixpoint leb_go (fuel : nat) (n : Z) : bytes :=
  match fuel with
  | O => [n]
  | S fuel => if decide (n < 128) then [n] else (128 + n mod 128) :: leb_go fuel (n / 128)
  end.
Definition leb (n : nat) : bytes := leb_go n (Z.of_nat n).
Fixpoint leb_read (src : bytes) : option (Z * bytes) :=
  match src with
  | [] => None
  | b :: src =>
      if decide (b < 128) then Some (b, src)
      else match leb_read src with
           | Some (v, rest) => Some (b - 128 + 128 * v, rest)
           | None => None
           end
  end.

Lemma leb_read_go fuel n rest :
  0 ≤ n ≤ Z.of_nat fuel → leb_read (leb_go fuel n ++ rest) = Some (n, rest).
Proof.
  revert n. induction fuel as [|fuel IH]; intros n Hn; simpl.
  { by rewrite decide_True by lia. }
  case_decide as Hlt; simpl; [by rewrite decide_True|].
  pose proof (Z.mod_pos_bound n 128). rewrite decide_False by lia.
  rewrite IH; [|split; [apply Z.div_pos; lia|]].
  - f_equal. f_equal. pose proof (Z.div_mod n 128). lia.
  - assert (n / 128 < n) by (apply Z.div_lt; lia). lia.
Qed.
Lemma leb_read_part fuel n src rest :
  0 ≤ n ≤ Z.of_nat fuel → leb_go fuel n = src ++ rest → rest ≠ [] → leb_read src = None.
Proof.
  revert n src. induction fuel as [|fuel IH]; intros n src Hn Heq Hr; simpl in Heq.
  { destruct src as [|? []]; [done| |done]. simpl in Heq. injection Heq as _ <-. done. }
  case_decide as Hlt.
  { destruct src as [|? []]; [done| |done]. simpl in Heq. injection Heq as _ <-. done. }
  destruct src as [|b src]; [done|]. injection Heq as <- Heq. simpl.
  pose proof (Z.mod_pos_bound n 128). rewrite decide_False by lia.
  rewrite (IH (n / 128) src); [done| |done|done]. split; [apply Z.div_pos; lia|].
  assert (n / 128 < n) by (apply Z.div_lt; lia). lia.
Qed.

Module WireEx.
(** The limit, and the length of the frame in progress. *)
Definition frame_body (max : Z) (n : nat) (src : bytes) : Outcome unit (option bytes * (Z * option nat) * bytes) :=
  if decide (length src < n)%nat then Ok (None, (max, Some n), src) else Ok (Some (take n src), (max, None), drop n src).
#[export] Instance example_uvi : UviBytes := {|
  uvi_state := Z * option nat;
  uvi_new n := (n, None);
  uvi_encode u p dst := if decide (u.1 < Z.of_nat (length p)) then Err tt else Ok (u, dst ++ leb (length p) ++ p);
  uvi_decode u src :=
    match u.2 with
    | Some n => frame_body u.1 n src
    | None =>
        match leb_read src with
        | None => Ok (None, u, src)
        | Some (n, src) => if decide (u.1 < n) then Err tt else frame_body u.1 (Z.to_nat n) src
        end
    end;
|}.
#[export] Instance example_uvi_laws : UviBytesLaws.
Proof.
  refine {| uvi_header := leb; uvi_view := snd; uvi_max := fst |}; simpl.
  - intros n Hn. unfold leb in Hn. destruct n; [done|]. simpl in Hn. by case_decide.
  - done.
  - done.
  - done.
  - intros [max v] p dst Hp. simpl in *. rewrite decide_False by lia. eauto.
  - intros [max v] p dst Hp. simpl in *. by rewrite decide_True by lia.
  - intros [max v] n src rest Hv Heq Hr. simpl in *. subst v.
    rewrite (leb_read_part n (Z.of_nat n) src rest) by (done || lia). eauto.
  - intros [max v] n src Hv Hm. simpl in *. subst v. unfold leb.
    rewrite leb_read_go by lia. by rewrite decide_True.
  - intros [max v] n pre src Hn Hc. simpl in *.
    exists (max, if decide (length src < n)%nat then Some n else None). unfold frame_body. destruct Hc as [[-> ->]|[-> ->]]; simpl.
    + unfold leb. rewrite leb_read_go, decide_False, Nat2Z.id by lia. by case_decide.
    + by case_decide.
Defined.

#[export] Instance status_eq_dec : EqDecision StatusMessage.
Proof. solve_decision. Defined.
#[export] Instance status_countable : Countable StatusMessage.
Proof.
  apply (inj_countable' (λ s, (genesis_hash s, finalized_root s, finalized_number s, head_root s, network_id s))
    (λ t, mkStatusMessage t.1.1.1.1 t.1.1.1.2 t.1.1.2 t.1.2 t.2)). by intros [].
Defined.
#[export] Instance goodbye_eq_dec : EqDecision GoodbyeReason.
Proof. solve_decision. Defined.
#[export] Instance goodbye_countable : Countable GoodbyeReason.
Proof. apply (inj_countable' GoodbyeReason.into GoodbyeReason.from goodbye_roundtrip). Defined.
#[export] Instance range_request_eq_dec : EqDecision BlocksByRangeRequest.
Proof. solve_decision. Defined.
#[export] Instance range_request_countable : Countable BlocksByRangeRequest.
Proof.
  apply (inj_countable' (λ s, (head_block_root s, start_slot s, count s, step s))
    (λ t, mkBlocksByRangeRequest t.1.1.1 t.1.1.2 t.1.2 t.2)). by intros [].
Defined.
#[export] Instance error_eq_dec : EqDecision ErrorMessage.
Proof. solve_decision. Defined.
#[export] Instance error_countable : Countable ErrorMessage.
Proof. apply (inj_countable' error_message mkErrorMessage). by intros []. Defined.
#[export] Instance ex_bin_status : Bincode StatusMessage := example_bincode.
#[export] Instance ex_bin_goodbye : Bincode GoodbyeReason := example_bincode.
#[export] Instance ex_bin_range : Bincode BlocksByRangeRequest := example_bincode.
#[export] Instance ex_bin_error : Bincode ErrorMessage := example_bincode.
#[export] Instance ex_bin_hashes : Bincode (list Hash) := example_bincode.
#[export] Instance ex_bin_roots : Bincode BlocksByRootRequest := {|
  serialize r := serialize (block_roots r);
  deserialize l := mkBlocksByRootRequest <$> deserialize l;
|}.
#[export] Instance ex_bin_status_laws : BincodeLaws StatusMessage := example_bincode_laws.
#[export] Instance ex_bin_goodbye_laws : BincodeLaws GoodbyeReason := example_bincode_laws.
#[export] Instance ex_bin_range_laws : BincodeLaws BlocksByRangeRequest := example_bincode_laws.
#[export] Instance ex_bin_error_laws : BincodeLaws ErrorMessage := example_bincode_laws.
#[export] Instance ex_bin_roots_laws : BincodeLaws BlocksByRootRequest.
Proof.
  split; intros [l]; unfold serialize, deserialize, ex_bin_roots; cbn [block_roots].
  - exact (f_equal (fmap mkBlocksByRootRequest)
      (@deserialize_serialize (list Hash) example_bincode example_bincode_laws l)).
  - exact (@serialize_nonempty (list Hash) example_bincode example_bincode_laws l).
Qed.
#[export] Existing Instance Dev.
Definition p_range : ProtocolId := ProtocolId.new RPC_BLOCKS_BY_RANGE V1 BIN_ENCODING.
Definition p_status : ProtocolId := ProtocolId.new RPC_STATUS V1 BIN_ENCODING.
(** Two blocks, an empty answer and an error. *)
Definition replies : list P2PErrorResponse :=
  [P2PErrorResponse.Success (P2PResponse.BlocksByRange [7; 8; 9]); P2PErrorResponse.Success (P2PResponse.BlocksByRange []);
   P2PErrorResponse.Success (P2PResponse.BlocksByRange (replicate 200 5)); P2PErrorResponse.ServerError (mkErrorMessage [])].
End WireEx.

Section WireWitnesses.
Import WireEx.

Lemma response_stream_roundtrip_witness :
  ∃ cin cout stream cin',
    upgrade_inbound_codec (E:=P2PError) p_range = Ok cin ∧ upgrade_outbound_codec (E:=P2PError) p_range = Ok cout ∧
    send_all cin replies = Ok (cin', stream) ∧
    ∀ frags, concat frags = stream → ∃ cout', feed cout [] frags = Ok (replies, cout', []).
Proof.
  apply (response_stream_roundtrip p_range replies).
  - unfold P2PProtocol_protocol_info, p_range. set_solver.
  - unfold replies, sendable. repeat constructor; simpl; (lia || done).
Defined.

Lemma request_roundtrip_witness :
  ∃ cout cin stream, upgrade_outbound (P2PRequest.BlocksByRoot (mkBlocksByRootRequest [Hash_default]))
      (ProtocolId.new RPC_BLOCKS_BY_ROOT V1 BIN_ENCODING) = Ok (cout, stream) ∧
    upgrade_inbound_codec (E:=P2PError) (ProtocolId.new RPC_BLOCKS_BY_ROOT V1 BIN_ENCODING) = Ok cin ∧
    ∀ frags, concat frags = stream → ∃ cin', feed cin [] frags =
      Ok ([P2PRequest.BlocksByRoot (mkBlocksByRootRequest [Hash_default])], cin', []).
Proof.
  apply (request_roundtrip (P2PRequest.BlocksByRoot (mkBlocksByRootRequest [Hash_default]))
    (ProtocolId.new RPC_BLOCKS_BY_ROOT V1 BIN_ENCODING)).
  - intros r. reflexivity.
  - simpl. set_solver.
  - simpl. unfold MAX_P2P_SIZE. lia.
Defined.

Lemma malformed_frame_panics_witness :
  feed (in_codec p_status (uvi_new MAX_P2P_SIZE)) [] [frame [9]] = Panic ∧
  feed (out_codec p_status (uvi_new MAX_P2P_SIZE) None) [] [1 :: frame [9]] = Panic.
Proof.
  apply (malformed_frame_panics p_status [9]).
  - unfold P2PProtocol_protocol_info, p_status. set_solver.
  - reflexivity.
  - simpl. unfold MAX_P2P_SIZE. lia.
  - reflexivity.
  - reflexivity.
Defined.
End WireWitnesses.
