(* ===== verification/P2PHandler.v ===== *)
(** * P2PHandler: the substreams of one connection (src/network/src/p2p/handler.rs)

    The handler opens a substream per outbound request and keeps the inbound ones
    until they are answered.  libp2p calls it: with a negotiated substream, with an
    event of the application, with a failed negotiation, and to poll it.

    The framed substreams and the timer queue are third-party code: [Framed] and
    [DelayQueue], with the laws the handler relies on.  [now] is [Instant::now()]. *)
From Stdlib Require String.
From S2P Require Import Prelude Hashing Types Codec Messages.
Import (notations) String.

(** ** Futures *)
Module Poll.
Inductive t (A : Type) : Type := Ready (a : A) | NotReady | Failed (e : P2PError).
Arguments Ready {A}. Arguments NotReady {A}. Arguments Failed {A}.
End Poll.
Abbreviation Poll := Poll.t.

(** Inbound substreams read requests and write responses: [send] starts a write, which
    gives the substream back when it is flushed.  Outbound ones read responses. *)
Class Framed : Type := {
  InboundFramed : Type;
  InboundSend : Type;
  OutboundFramed : Type;
  in_poll : InboundFramed → Poll (option P2PRequest) * InboundFramed;
  in_send : InboundFramed → P2PErrorResponse → InboundSend;
  in_send_poll : InboundSend → Poll InboundFramed * InboundSend;
  in_close : InboundFramed → Poll unit * InboundFramed;
  out_poll : OutboundFramed → Poll (option P2PErrorResponse) * OutboundFramed;
  out_close : OutboundFramed → Poll unit * OutboundFramed;
}.

(** tokio's queue of timers.  [remove] and [reset] panic on a key that is not there;
    [poll] takes out an expired entry. *)
Class DelayQueue (V : Type) : Type := {
  dq : Type;
  dq_key : Type;
  dq_new : dq;
  dq_insert : dq → V → Z → dq_key * dq;
  dq_remove : dq → dq_key → option dq;
  dq_reset : dq → dq_key → Z → option dq;
  dq_poll : dq → Poll (option V) * dq;
}.

(** The iteration order of a hash map. *)
Class KeyOrder : Type := map_keys : ∀ A, gmap Z A → list Z.
Arguments map_keys {_ A}.

(** A [Duration], in milliseconds. *)
Definition from_secs (n : Z) : Z := n * 1000.
Definition from_millis (n : Z) : Z := n.

Definition RESPONSE_TIMEOUT : Z := 10.
Definition IO_ERROR_RETRIES : Z := 3.

(** ** What libp2p says and is told *)
Module UpgrErr.
Inductive t : Type := Timeout | Timer | Select | Apply (e : P2PError).
End UpgrErr.
Abbreviation UpgrErr := UpgrErr.t.
Module KeepAlive.
Inductive t : Type := Until (instant : Z) | Yes | No.
End KeepAlive.
Abbreviation KeepAlive := KeepAlive.t.
Module HandlerEvent.
Inductive t : Type := Custom (e : P2PEvent) | OutboundSubstreamRequest (protocol : P2PRequest) (info : P2PEvent).
End HandlerEvent.
Abbreviation HandlerEvent := HandlerEvent.t.

(** ** State *)
Module InboundState.
Inductive t `{Framed} : Type :=
  | ResponsePendingSend (substream : InboundSend) (closing : bool)
  | ResponseIdle (substream : InboundFramed)
  | Closing (substream : InboundFramed)
  | Poisoned.
End InboundState.
Abbreviation InboundSubstreamState := InboundState.t.
Module OutboundState.
Inductive t `{Framed} : Type :=
  | RequestPendingResponse (substream : OutboundFramed) (request : P2PRequest)
  | Closing (substream : OutboundFramed)
  | Poisoned.
End OutboundState.
Abbreviation OutboundSubstreamState := OutboundState.t.

Record P2PHandler `{Framed, DelayQueue Z} : Type := mkP2PHandler {
  pending_error : list (Z * UpgrErr);
  events_out : list P2PEvent;
  dial_queue : list P2PEvent;
  dial_negotiated : Z;
  inbound_substreams : gmap Z (InboundSubstreamState * option dq_key);
  inbound_substreams_delay : dq;
  outbound_substreams : gmap Z (OutboundSubstreamState * dq_key);
  outbound_substreams_delay : dq;
  queued_outbound_items : gmap Z (list P2PErrorResponse);
  current_inbound_substream_id : Z;
  max_dial_negotiated : Z;
  keep_alive : KeepAlive;
  inactive_timeout : Z;
  outbound_io_error_retries : Z;
}.
Arguments mkP2PHandler {_ _}.
Abbreviation Step := (Outcome UpgrErr (P2PHandler * option HandlerEvent)).

Section Handler.
Context `{FR : Framed, DQ : DelayQueue Z, KO : KeyOrder, P : Profile}.
Implicit Types (h : P2PHandler).

Definition set_pending_error h x := mkP2PHandler x (events_out h) (dial_queue h) (dial_negotiated h) (inbound_substreams h) (inbound_substreams_delay h) (outbound_substreams h) (outbound_substreams_delay h) (queued_outbound_items h) (current_inbound_substream_id h) (max_dial_negotiated h) (keep_alive h) (inactive_timeout h) (outbound_io_error_retries h).
Definition set_events_out h x := mkP2PHandler (pending_error h) x (dial_queue h) (dial_negotiated h) (inbound_substreams h) (inbound_substreams_delay h) (outbound_substreams h) (outbound_substreams_delay h) (queued_outbound_items h) (current_inbound_substream_id h) (max_dial_negotiated h) (keep_alive h) (inactive_timeout h) (outbound_io_error_retries h).
Definition set_dial h q n := mkP2PHandler (pending_error h) (events_out h) q n (inbound_substreams h) (inbound_substreams_delay h) (outbound_substreams h) (outbound_substreams_delay h) (queued_outbound_items h) (current_inbound_substream_id h) (max_dial_negotiated h) (keep_alive h) (inactive_timeout h) (outbound_io_error_retries h).
Definition set_inbound h x d := mkP2PHandler (pending_error h) (events_out h) (dial_queue h) (dial_negotiated h) x d (outbound_substreams h) (outbound_substreams_delay h) (queued_outbound_items h) (current_inbound_substream_id h) (max_dial_negotiated h) (keep_alive h) (inactive_timeout h) (outbound_io_error_retries h).
Definition set_outbound h x d := mkP2PHandler (pending_error h) (events_out h) (dial_queue h) (dial_negotiated h) (inbound_substreams h) (inbound_substreams_delay h) x d (queued_outbound_items h) (current_inbound_substream_id h) (max_dial_negotiated h) (keep_alive h) (inactive_timeout h) (outbound_io_error_retries h).
Definition set_queued h x := mkP2PHandler (pending_error h) (events_out h) (dial_queue h) (dial_negotiated h) (inbound_substreams h) (inbound_substreams_delay h) (outbound_substreams h) (outbound_substreams_delay h) x (current_inbound_substream_id h) (max_dial_negotiated h) (keep_alive h) (inactive_timeout h) (outbound_io_error_retries h).
Definition set_current_id h x := mkP2PHandler (pending_error h) (events_out h) (dial_queue h) (dial_negotiated h) (inbound_substreams h) (inbound_substreams_delay h) (outbound_substreams h) (outbound_substreams_delay h) (queued_outbound_items h) x (max_dial_negotiated h) (keep_alive h) (inactive_timeout h) (outbound_io_error_retries h).
Definition set_keep_alive h x := mkP2PHandler (pending_error h) (events_out h) (dial_queue h) (dial_negotiated h) (inbound_substreams h) (inbound_substreams_delay h) (outbound_substreams h) (outbound_substreams_delay h) (queued_outbound_items h) (current_inbound_substream_id h) (max_dial_negotiated h) x (inactive_timeout h) (outbound_io_error_retries h).
Definition set_retries h x := mkP2PHandler (pending_error h) (events_out h) (dial_queue h) (dial_negotiated h) (inbound_substreams h) (inbound_substreams_delay h) (outbound_substreams h) (outbound_substreams_delay h) (queued_outbound_items h) (current_inbound_substream_id h) (max_dial_negotiated h) (keep_alive h) (inactive_timeout h) x.

Definition set_inbound_state h id (s : InboundSubstreamState) (k : option dq_key) : P2PHandler :=
  set_inbound h (<[id := (s, k)]> (inbound_substreams h)) (inbound_substreams_delay h).
Definition set_outbound_state h id (s : OutboundSubstreamState) (k : dq_key) : P2PHandler :=
  set_outbound h (<[id := (s, k)]> (outbound_substreams h)) (outbound_substreams_delay h).

Definition new (inactive_timeout : Z) : P2PHandler :=
  mkP2PHandler [] [] [] 0 ∅ dq_new ∅ dq_new ∅ 1 8 KeepAlive.Yes inactive_timeout 0.

Definition pending_requests {E} h : Outcome E Z :=
  add_u 32 (dial_negotiated h) (Z.of_nat (length (dial_queue h)) mod 2 ^ 32).

Definition send_request h (e : P2PEvent) : P2PHandler :=
  let h := set_keep_alive h KeepAlive.Yes in set_dial h (dial_queue h ++ [e]) (dial_negotiated h).

(** ** Closing an inbound substream that timed out *)
Definition timed_out : P2PErrorResponse :=
  P2PErrorResponse.ServerError (mkErrorMessage (bytes_of "Request timed out"%string)).
Definition close {E} (s : InboundSubstreamState) (outbound_queue : list P2PErrorResponse)
    : Outcome E (InboundSubstreamState * list P2PErrorResponse) :=
  let stream_termination := P2PErrorResponse.StreamTermination ResponseTermination.BlocksByRange in
  match s with
  | InboundState.ResponsePendingSend substream closing =>
      Ok (InboundState.ResponsePendingSend substream closing,
          if closing then outbound_queue else outbound_queue ++ [timed_out; stream_termination])
  | InboundState.ResponseIdle substream =>
      let (r, substream) := in_poll substream in
      match r with
      | Poll.Ready None => Ok (InboundState.Closing substream, outbound_queue)
      | _ => Ok (InboundState.ResponsePendingSend (in_send substream timed_out) true, outbound_queue)
      end
  | InboundState.Closing substream => Ok (InboundState.Closing substream, outbound_queue)
  | InboundState.Poisoned => Panic
  end.

(** ** Calls of libp2p *)
Definition inject_fully_negotiated_inbound {E} (now : Z) h (req : P2PRequest) (substream : InboundFramed)
    : Outcome E P2PHandler :=
  let h := match keep_alive h with
           | KeepAlive.Until _ => set_keep_alive h (KeepAlive.Until (now + inactive_timeout h))
           | _ => h
           end in
  match req with
  | P2PRequest.Goodbye _ => Ok (set_events_out h (events_out h ++ [P2PEvent.Request 0 req]))
  | _ =>
      let id := current_inbound_substream_id h in
      let (delay_key, delay) := dq_insert (inbound_substreams_delay h) id (from_secs RESPONSE_TIMEOUT) in
      let h := set_inbound h (<[id := (InboundState.ResponseIdle substream, Some delay_key)]> (inbound_substreams h)) delay in
      let h := set_events_out h (events_out h ++ [P2PEvent.Request id req]) in
      next ← add_u 64 id 1;
      mret (set_current_id h next)
  end.

Definition inject_fully_negotiated_outbound {E} (now : Z) h (out : OutboundFramed) (p2p_event : P2PEvent)
    : Outcome E P2PHandler :=
  n ← sub_u 32 (dial_negotiated h) 1;
  let h := set_dial h (dial_queue h) n in
  let h := if bool_decide (n = 0) && bool_decide (dial_queue h = []) && bool_decide (outbound_substreams h = ∅)
           then set_keep_alive h (KeepAlive.Until (now + inactive_timeout h))
           else set_keep_alive h KeepAlive.Yes in
  match p2p_event with
  | P2PEvent.Request id request =>
      if P2PRequest.expect_response request then
        let (delay_key, delay) := dq_insert (outbound_substreams_delay h) id (from_secs RESPONSE_TIMEOUT) in
        mret (set_outbound h (<[id := (OutboundState.RequestPendingResponse out request, delay_key)]> (outbound_substreams h)) delay)
      else mret h
  | _ => mret h
  end.

Definition inject_event {E} h (rpc_event : P2PEvent) : Outcome E P2PHandler :=
  match rpc_event with
  | P2PEvent.Request _ _ => Ok (send_request h rpc_event)
  | P2PEvent.Response rpc_id response =>
      let res_is_error := P2PErrorResponse.is_error response in
      let res_is_multiple := P2PErrorResponse.multiple_responses response in
      match inbound_substreams h !! rpc_id with
      | Some (InboundState.ResponseIdle substream, k) =>
          match response with
          | P2PErrorResponse.StreamTermination _ => Ok (set_inbound_state h rpc_id (InboundState.Closing substream) k)
          | _ => Ok (set_inbound_state h rpc_id
                   (InboundState.ResponsePendingSend (in_send substream response) (negb res_is_multiple || res_is_error)) k)
          end
      | Some (InboundState.ResponsePendingSend substream closing, k) =>
          if res_is_multiple then
            Ok (set_queued h (<[rpc_id := default [] (queued_outbound_items h !! rpc_id) ++ [response]]> (queued_outbound_items h)))
          else Ok (set_inbound_state h rpc_id (InboundState.ResponsePendingSend substream true) k)
      | Some (InboundState.Closing substream, k) => Ok h
      | Some (InboundState.Poisoned, _) => Panic
      | None => Ok h
      end
  | P2PEvent.Error _ _ => Ok h
  end.

Definition report_dial_error h (request : P2PEvent) (error : UpgrErr) : P2PHandler :=
  let h := set_retries h 0 in
  let request_id := match request with P2PEvent.Request id _ => id | _ => 0 end in
  set_pending_error h (pending_error h ++ [(request_id, error)]).
Definition inject_dial_upgrade_error {E} h (request : P2PEvent) (error : UpgrErr) : Outcome E P2PHandler :=
  match error with
  | UpgrErr.Apply P2PError.IoError =>
      n ← add_u 8 (outbound_io_error_retries h) 1;
      let h := set_retries h n in
      if decide (n < IO_ERROR_RETRIES) then mret (send_request h request)
      else mret (report_dial_error h request error)
  | _ => mret (report_dial_error h request error)
  end.

Definition connection_keep_alive h : KeepAlive := keep_alive h.

(** ** Polling

    A part of [poll] returns an event, which ends the call, or goes on. *)
Definition and_then (m : Step) (f : P2PHandler → Step) : Step :=
  r ← m; match r.2 with Some _ => Ok r | None => f r.1 end.
Definition ready h (e : P2PEvent) : Step := Ok (h, Some (HandlerEvent.Custom e)).

(** [pending_error.pop()]. *)
Definition report_error h : Step :=
  match last (pending_error h) with
  | None => Ok (h, None)
  | Some (request_id, err) =>
      let h := set_pending_error h (removelast (pending_error h)) in
      match err with
      | UpgrErr.Apply P2PError.InvalidProtocol => ready h (P2PEvent.Error request_id P2PError.InvalidProtocol)
      | UpgrErr.Timeout | UpgrErr.Timer => ready h (P2PEvent.Error request_id P2PError.Custom)
      | UpgrErr.Apply err => ready h (P2PEvent.Error request_id err)
      | UpgrErr.Select => ready h (P2PEvent.Error request_id P2PError.Custom)
      end
  end.

Definition report_event h : Step :=
  match events_out h with
  | [] => Ok (h, None)
  | e :: events => ready (set_events_out h events) e
  end.

Definition expire_inbound {E} h (rpc_id : Z) : Outcome E P2PHandler :=
  match inbound_substreams h !! rpc_id with
  | Some (substream_state, _) =>
      let outbound_queue := default [] (queued_outbound_items h !! rpc_id) in
      r ← close substream_state outbound_queue;
      let h := set_queued h (<[rpc_id := r.2]> (queued_outbound_items h)) in
      mret (set_inbound_state h rpc_id r.1 None)
  | None => Ok h
  end.
(** [fuel] is more than the number of timers; running out of it counts as a panic, and
    does not happen. *)
Fixpoint purge_inbound (fuel : nat) h : Step :=
  match fuel with
  | O => Panic
  | S fuel =>
      let (r, delay) := dq_poll (inbound_substreams_delay h) in
      let h := set_inbound h (inbound_substreams h) delay in
      match r with
      | Poll.Failed _ => Err UpgrErr.Timer
      | Poll.Ready (Some stream_id) => h ← expire_inbound (E:=UpgrErr) h stream_id; purge_inbound fuel h
      | Poll.Ready None | Poll.NotReady => Ok (h, None)
      end
  end.

Definition purge_outbound h : Step :=
  let (r, delay) := dq_poll (outbound_substreams_delay h) in
  let h := set_outbound h (outbound_substreams h) delay in
  match r with
  | Poll.Failed _ => Err UpgrErr.Timer
  | Poll.Ready (Some stream_id) =>
      ready (set_outbound h (delete stream_id (outbound_substreams h)) (outbound_substreams_delay h))
        (P2PEvent.Error stream_id P2PError.Custom)
  | Poll.Ready None | Poll.NotReady => Ok (h, None)
  end.

(** The new state of a flushed substream, the rest of its queue, and whether there was
    something queued. *)
Definition apply_queued_responses (raw_substream : InboundFramed) (queued : option (list P2PErrorResponse))
    : InboundSubstreamState * option (list P2PErrorResponse) * bool :=
  match queued with
  | Some (item :: queue) =>
      (match item with
       | P2PErrorResponse.StreamTermination _ => InboundState.Closing raw_substream
       | chunk => InboundState.ResponsePendingSend (in_send raw_substream chunk) false
       end, Some queue, true)
  | _ => (InboundState.ResponseIdle raw_substream, queued, false)
  end.
Definition apply_queued h id (raw_substream : InboundFramed) (k : option dq_key) : P2PHandler * bool :=
  let '(s, queue, more) := apply_queued_responses raw_substream (queued_outbound_items h !! id) in
  let h := match queue with
           | Some queue => set_queued h (<[id := queue]> (queued_outbound_items h))
           | None => h
           end in
  (set_inbound_state h id s k, more).

(** The timer of a substream that goes away, and its entry. *)
Definition drop_inbound {E} h id (k : option dq_key) : Outcome E P2PHandler :=
  delay ← match k with
          | Some delay_key => unwrap (dq_remove (inbound_substreams_delay h) delay_key)
          | None => Ok (inbound_substreams_delay h)
          end;
  mret (set_inbound h (delete id (inbound_substreams h)) delay).
Definition drop_outbound {E} h id (k : dq_key) : Outcome E P2PHandler :=
  delay ← unwrap (dq_remove (outbound_substreams_delay h) k);
  mret (set_outbound h (delete id (outbound_substreams h)) delay).
Definition idle_keep_alive (now : Z) h : P2PHandler :=
  if bool_decide (outbound_substreams h = ∅) && bool_decide (inbound_substreams h = ∅)
  then set_keep_alive h (KeepAlive.Until (now + inactive_timeout h)) else h.

(** One pass over an inbound substream; the flag is [new_items_to_send]. *)
Definition drive_inbound_once (now : Z) h (id : Z) : Outcome UpgrErr (P2PHandler * option HandlerEvent * bool) :=
  match inbound_substreams h !! id with
  | None => Panic
  | Some (InboundState.ResponsePendingSend substream closing, k) =>
      let (r, substream) := in_send_poll substream in
      match r with
      | Poll.Ready raw_substream =>
          if closing then Ok (set_inbound_state h id (InboundState.Closing raw_substream) k, None, false)
          else let (h, more) := apply_queued h id raw_substream k in Ok (h, None, more)
      | Poll.NotReady => Ok (set_inbound_state h id (InboundState.ResponsePendingSend substream closing) k, None, false)
      | Poll.Failed e =>
          h ← drop_inbound h id k;
          Ok (h, Some (HandlerEvent.Custom (P2PEvent.Error 0 e)), false)
      end
  | Some (InboundState.ResponseIdle substream, k) =>
      let (h, more) := apply_queued h id substream k in Ok (h, None, more)
  | Some (InboundState.Closing substream, k) =>
      let (r, substream) := in_close substream in
      match r with
      | Poll.Ready _ | Poll.Failed _ =>
          h ← drop_inbound h id k;
          let h := set_queued h (delete id (queued_outbound_items h)) in
          Ok (idle_keep_alive now h, None, false)
      | Poll.NotReady => Ok (set_inbound_state h id (InboundState.Closing substream) k, None, false)
      end
  | Some (InboundState.Poisoned, _) => Panic
  end.
Fixpoint drive_inbound_loop (now : Z) (fuel : nat) h (id : Z) : Step :=
  match fuel with
  | O => Panic
  | S fuel =>
      r ← drive_inbound_once now h id;
      match r.1.2 with
      | Some _ => Ok r.1
      | None => match r.2 with true => drive_inbound_loop now fuel r.1.1 id | false => Ok r.1 end
      end
  end.
(** A pass that goes on takes an item off the queue. *)
Definition drive_inbound (now : Z) h (id : Z) : Step :=
  drive_inbound_loop now (S (length (default [] (queued_outbound_items h !! id)))) h id.

Definition drive_outbound (now : Z) h (id : Z) : Step :=
  match outbound_substreams h !! id with
  | None => Panic
  | Some (OutboundState.RequestPendingResponse substream request, k) =>
      let (r, substream) := out_poll substream in
      match r with
      | Poll.Ready (Some response) =>
          h ← (if P2PRequest.multiple_responses request && negb (P2PErrorResponse.is_error response) then
                 let h := set_outbound_state h id (OutboundState.RequestPendingResponse substream request) k in
                 delay ← unwrap (dq_reset (outbound_substreams_delay h) k (from_secs RESPONSE_TIMEOUT));
                 mret (set_outbound h (outbound_substreams h) delay)
               else mret (set_outbound_state h id (OutboundState.Closing substream) k));
          ready h (P2PEvent.Response id response)
      | Poll.Ready None =>
          h ← drop_outbound h id k;
          if P2PRequest.multiple_responses request then
            t ← P2PRequest.stream_termination request;
            ready h (P2PEvent.Response id (P2PErrorResponse.StreamTermination t))
          else ready h (P2PEvent.Error id P2PError.Custom)
      | Poll.NotReady => Ok (set_outbound_state h id (OutboundState.RequestPendingResponse substream request) k, None)
      | Poll.Failed e => h ← drop_outbound h id k; ready h (P2PEvent.Error id e)
      end
  | Some (OutboundState.Closing substream, k) =>
      let (r, substream) := out_close substream in
      match r with
      | Poll.Ready _ | Poll.Failed _ => h ← drop_outbound h id k; Ok (idle_keep_alive now h, None)
      | Poll.NotReady => Ok (set_outbound_state h id (OutboundState.Closing substream) k, None)
      end
  | Some (OutboundState.Poisoned, _) => Panic
  end.

(** The loops over the keys there were at their start. *)
Fixpoint drive_all (drive : P2PHandler → Z → Step) h (ids : list Z) : Step :=
  match ids with
  | [] => Ok (h, None)
  | id :: ids => and_then (drive h id) (λ h, drive_all drive h ids)
  end.

Definition dial h : Step :=
  match dial_queue h with
  | rpc_event :: queue =>
      if decide (dial_negotiated h < max_dial_negotiated h) then
        n ← add_u 32 (dial_negotiated h) 1;
        let h := set_dial h queue n in
        match rpc_event with
        | P2PEvent.Request id req => Ok (h, Some (HandlerEvent.OutboundSubstreamRequest req (P2PEvent.Request id req)))
        | _ => Ok (h, None)
        end
      else Ok (h, None)
  | [] => Ok (h, None)
  end.

Definition poll (fuel : nat) (now : Z) h : Step :=
  and_then (report_error h) (λ h,
  and_then (report_event h) (λ h,
  and_then (purge_inbound fuel h) (λ h,
  and_then (purge_outbound h) (λ h,
  and_then (drive_all (drive_inbound now) h (map_keys (inbound_substreams h))) (λ h,
  and_then (drive_all (drive_outbound now) h (map_keys (outbound_substreams h))) (λ h,
  dial h)))))).
End Handler.
