(* ===== verification/P2PHandlerInv.v ===== *)
(** * P2PHandlerInv: properties of the substream handler

    No sequence of calls that libp2p can make panics the handler; its tables and
    timers stay consistent; the responses of the application are written in order;
    failed negotiations use up its slots for good. *)
From Stdlib Require String.
From S2P Require Import Prelude Hashing Types Codec Messages P2PHandler.
Import (notations) String.

(** ** What the handler relies on *)

(** The timers of a queue, by key. *)
Class DelayQueueLaws (V : Type) `{DelayQueue V} : Type := {
  dq_key_eq :: EqDecision dq_key;
  dq_key_countable :: Countable dq_key;
  dq_view : dq → gmap dq_key V;
  dq_new_view : dq_view dq_new = ∅;
  dq_insert_view q id d :
    dq_view q !! (dq_insert q id d).1 = None ∧
    dq_view (dq_insert q id d).2 = <[(dq_insert q id d).1 := id]> (dq_view q);
  dq_remove_view q k id : dq_view q !! k = Some id →
    ∃ q', dq_remove q k = Some q' ∧ dq_view q' = delete k (dq_view q);
  dq_reset_view q k id d : dq_view q !! k = Some id → ∃ q', dq_reset q k d = Some q' ∧ dq_view q' = dq_view q;
  dq_poll_view q :
    match (dq_poll q).1 with
    | Poll.Ready (Some id) => ∃ k, dq_view q !! k = Some id ∧ dq_view (dq_poll q).2 = delete k (dq_view q)
    | _ => dq_view (dq_poll q).2 = dq_view q
    end;
}.
Class KeyOrderLaws `{KeyOrder} : Prop :=
  map_keys_perm : ∀ A (m : gmap Z A), map_keys m ≡ₚ (map_to_list m).*1.

(** What has been written on a substream: [in_sending] is what was written before, and
    the item that is being written. *)
Class FramedLaws `{Framed} : Type := {
  in_sent : InboundFramed → list P2PErrorResponse;
  in_sending : InboundSend → list P2PErrorResponse * P2PErrorResponse;
  in_poll_sent s : in_sent (in_poll s).2 = in_sent s;
  in_send_sending s r : in_sending (in_send s r) = (in_sent s, r);
  in_send_poll_sent s :
    match (in_send_poll s).1 with
    | Poll.Ready s' => in_sent s' = (in_sending s).1 ++ [(in_sending s).2]
    | _ => in_sending (in_send_poll s).2 = in_sending s
    end;
  in_close_sent s : in_sent (in_close s).2 = in_sent s;
}.

(** ** The invariant *)
Section Inv.
Context `{FR : Framed, DQL : DelayQueueLaws Z}.
Implicit Types (h : P2PHandler).

(** Inbound substreams are numbered; each timer belongs to one of them. *)
Definition inbound_ok (m : gmap Z (InboundSubstreamState * option dq_key)) (d : dq) (next : Z) : Prop :=
  (∀ id s k, m !! id = Some (s, k) →
     s ≠ InboundState.Poisoned ∧ 0 < id < next ∧ ∀ k', k = Some k' → dq_view d !! k' = Some id) ∧
  (∀ k id, dq_view d !! k = Some id → ∃ s, m !! id = Some (s, Some k)).
(** An outbound substream has a timer. *)
Definition outbound_ok (m : gmap Z (OutboundSubstreamState * dq_key)) (d : dq) : Prop :=
  ∀ id s k, m !! id = Some (s, k) → s ≠ OutboundState.Poisoned ∧ dq_view d !! k = Some id.

(** Responses wait only for substreams that were opened, and not behind an idle one. *)
Definition queue_ok (m : gmap Z (InboundSubstreamState * option dq_key)) (q : gmap Z (list P2PErrorResponse)) (next : Z) : Prop :=
  (∀ id l, q !! id = Some l → id < next) ∧
  (∀ id s k, m !! id = Some (InboundState.ResponseIdle s, k) → default [] (q !! id) = []).

Definition is_request (e : P2PEvent) : Prop := match e with P2PEvent.Request _ _ => True | _ => False end.

(** [opening] substreams are being negotiated, [failed] negotiations have failed. *)
Record handler_inv (h : P2PHandler) (opening failed : Z) : Prop := {
  hi_in : inbound_ok (inbound_substreams h) (inbound_substreams_delay h) (current_inbound_substream_id h);
  hi_out : outbound_ok (outbound_substreams h) (outbound_substreams_delay h);
  hi_queue : queue_ok (inbound_substreams h) (queued_outbound_items h) (current_inbound_substream_id h);
  hi_requests : Forall is_request (dial_queue h);
  hi_dial : dial_negotiated h = opening + failed;
  hi_slots : 0 ≤ opening ∧ 0 ≤ failed ∧ opening + failed ≤ 8;
  hi_max : max_dial_negotiated h = 8;
  hi_retries : 0 ≤ outbound_io_error_retries h < IO_ERROR_RETRIES;
  hi_id : 1 ≤ current_inbound_substream_id h < 2 ^ 64;
}.

Lemma new_handler_inv t : handler_inv (new t) 0 0.
Proof.
  unfold new, IO_ERROR_RETRIES. split; simpl; [| | |constructor|(lia || by vm_compute)..].
  - split; intros *; [by rewrite lookup_empty|]. by rewrite dq_new_view, lookup_empty.
  - intros id s k. by rewrite lookup_empty.
  - split; intros *; by rewrite lookup_empty.
Qed.

(** *** Waiting responses *)
Lemma queue_ok_insert m q next s k :
  queue_ok m q next → queue_ok (<[next := (InboundState.ResponseIdle s, k)]> m) q (next + 1).
Proof.
  intros [Hq Hm]. split.
  - intros id l Hl. specialize (Hq id l Hl). lia.
  - intros id s' k'. rewrite lookup_insert_Some. intros [[<- _]|[_ Hid]]; [|eauto].
    destruct (q !! next) as [l|] eqn:Hl; [|done]. specialize (Hq next l Hl). lia.
Qed.
Lemma queue_ok_update m q next id s k :
  queue_ok m q next → (∀ fr, s = InboundState.ResponseIdle fr → default [] (q !! id) = []) →
  queue_ok (<[id := (s, k)]> m) q next.
Proof.
  intros [Hq Hm] Hs. split; [done|]. intros id' s' k'. rewrite lookup_insert_Some.
  intros [[<- [= -> _]]|[_ Hid]]; eauto.
Qed.
Lemma queue_ok_push m q next id l :
  queue_ok m q next → id < next → (∀ s k, m !! id = Some (InboundState.ResponseIdle s, k) → l = []) →
  queue_ok m (<[id := l]> q) next.
Proof.
  intros [Hq Hm] Hid Hl. split.
  - intros id' l'. rewrite lookup_insert_Some. intros [[<- _]|[_ ?]]; eauto.
  - intros id' s' k' Hs. destruct (decide (id' = id)) as [->|Hne].
    + rewrite lookup_insert_eq. eauto.
    + rewrite lookup_insert_ne by done. eauto.
Qed.
(** A state and its queue together. *)
Lemma queue_ok_set m q next id s k l :
  queue_ok m q next → id < next → (∀ fr, s = InboundState.ResponseIdle fr → l = []) →
  queue_ok (<[id := (s, k)]> m) (<[id := l]> q) next.
Proof.
  intros [Hq Hm] Hid Hs. split.
  - intros id' l'. rewrite lookup_insert_Some. intros [[<- _]|[_ ?]]; eauto.
  - intros id' s' k'. rewrite lookup_insert_Some. intros [[<- [= -> _]]|[Hne Hid']].
    + rewrite lookup_insert_eq. eauto.
    + rewrite lookup_insert_ne by done. eauto.
Qed.
Lemma queue_ok_delete m q next id : queue_ok m q next → queue_ok (delete id m) q next.
Proof. intros [Hq Hm]. split; [done|]. intros id' s' k'. rewrite lookup_delete_Some. intros [_ ?]. eauto. Qed.
Lemma queue_ok_drop m q next id : queue_ok (delete id m) q next → queue_ok (delete id m) (delete id q) next.
Proof.
  intros [Hq Hm]. split.
  - intros id' l'. rewrite lookup_delete_Some. intros [_ ?]. eauto.
  - intros id' s' k' Hs. pose proof Hs as [Hne _]%lookup_delete_Some. rewrite lookup_delete_ne by done. eauto.
Qed.

(** *** Inbound table *)
Lemma inbound_ok_insert m d next s t :
  inbound_ok m d next → 1 ≤ next → s ≠ InboundState.Poisoned →
  inbound_ok (<[next := (s, Some (dq_insert d next t).1)]> m) (dq_insert d next t).2 (next + 1).
Proof.
  intros [Hm Hd] Hn Hs. destruct (dq_insert_view d next t) as [Hfr Hv]. split.
  - intros id s' k. rewrite Hv. rewrite lookup_insert_Some. intros [[<- [= <- <-]]|[Hne Hid]].
    + split_and!; [done|lia|lia|]. intros k' [= <-]. by rewrite lookup_insert_eq.
    + destruct (Hm id s' k Hid) as (? & ? & Hk). split_and!; [done|lia|lia|]. intros k' ->.
      specialize (Hk k' eq_refl). rewrite lookup_insert_ne; [done|]. congruence.
  - intros k id. rewrite Hv, lookup_insert_Some. intros [[<- <-]|[Hne Hid]].
    + rewrite lookup_insert_eq. eauto.
    + destruct (Hd k id Hid) as [s' Hs']. exists s'. rewrite lookup_insert_ne; [done|].
      destruct (Hm id s' (Some k) Hs') as (_ & ? & _). lia.
Qed.
Lemma inbound_ok_update m d next id s s' k :
  inbound_ok m d next → m !! id = Some (s, k) → s' ≠ InboundState.Poisoned →
  inbound_ok (<[id := (s', k)]> m) d next.
Proof.
  intros [Hm Hd] Hid Hs'. split.
  - intros id0 s0 k0. rewrite lookup_insert_Some. intros [[<- [= <- <-]]|[_ Hid0]]; [|eauto].
    destruct (Hm id s k Hid) as (_ & ? & ?). done.
  - intros k0 id0 Hk. destruct (Hd k0 id0 Hk) as [s0 Hs0]. destruct (decide (id0 = id)) as [->|Hne].
    + rewrite Hid in Hs0. injection Hs0 as -> ->. rewrite lookup_insert_eq. eauto.
    + rewrite lookup_insert_ne by done. eauto.
Qed.
(** The timer of [id] went off. *)
Lemma inbound_ok_expire m d d' next k id s s' :
  inbound_ok m d next → m !! id = Some (s, Some k) → dq_view d' = delete k (dq_view d) → s' ≠ InboundState.Poisoned →
  inbound_ok (<[id := (s', None)]> m) d' next.
Proof.
  intros [Hm Hd] Hid Hv Hs'. split.
  - intros id0 s0 k0. rewrite lookup_insert_Some. intros [[<- [= <- <-]]|[Hne Hid0]].
    + destruct (Hm id s _ Hid) as (_ & ? & _). done.
    + destruct (Hm id0 s0 k0 Hid0) as (? & ? & Hk). split_and!; [done|lia|lia|]. intros k' ->.
      specialize (Hk k' eq_refl). rewrite Hv, lookup_delete_ne; [done|]. intros <-.
      destruct (Hm id s _ Hid) as (_ & _ & Hk'). specialize (Hk' k eq_refl). congruence.
  - intros k0 id0. rewrite Hv, lookup_delete_Some. intros [Hne Hk]. destruct (Hd k0 id0 Hk) as [s0 Hs0].
    rewrite lookup_insert_ne; [eauto|]. intros ->. rewrite Hid in Hs0. by injection Hs0.
Qed.
Lemma inbound_ok_delete m d next id s k :
  inbound_ok m d next → m !! id = Some (s, k) →
  ∃ d', (match k with Some delay_key => unwrap (dq_remove d delay_key) | None => Ok d end) = Ok (E:=UpgrErr) d' ∧
    inbound_ok (delete id m) d' next.
Proof.
  intros [Hm Hd] Hid. destruct (Hm id s k Hid) as (_ & _ & Hk). destruct k as [k|].
  - destruct (dq_remove_view d k id (Hk k eq_refl)) as (d' & Hr & Hv). exists d'. rewrite Hr. split; [done|]. split.
    + intros id0 s0 k0. rewrite lookup_delete_Some. intros [Hne Hid0].
      destruct (Hm id0 s0 k0 Hid0) as (? & ? & Hk0). split_and!; [done|lia|lia|]. intros k' ->.
      specialize (Hk0 k' eq_refl). rewrite Hv, lookup_delete_ne; [done|]. intros <-.
      specialize (Hk k eq_refl). congruence.
    + intros k0 id0. rewrite Hv, lookup_delete_Some. intros [Hne Hk0]. destruct (Hd k0 id0 Hk0) as [s0 Hs0].
      exists s0. rewrite lookup_delete_ne; [done|]. intros ->. rewrite Hid in Hs0. by injection Hs0.
  - exists d. split; [done|]. split.
    + intros id0 s0 k0. rewrite lookup_delete_Some. intros [_ Hid0]. eauto.
    + intros k0 id0 Hk0. destruct (Hd k0 id0 Hk0) as [s0 Hs0]. exists s0. rewrite lookup_delete_ne; [done|].
      intros ->. rewrite Hid in Hs0. by injection Hs0.
Qed.

(** *** Outbound table *)
Lemma outbound_ok_insert m d id s t :
  outbound_ok m d → s ≠ OutboundState.Poisoned →
  outbound_ok (<[id := (s, (dq_insert d id t).1)]> m) (dq_insert d id t).2.
Proof.
  intros Hm Hs id0 s0 k0. destruct (dq_insert_view d id t) as [Hfr Hv]. rewrite Hv.
  rewrite lookup_insert_Some. intros [[<- [= <- <-]]|[Hne Hid]]; [by rewrite lookup_insert_eq|].
  destruct (Hm id0 s0 k0 Hid) as [? Hk]. rewrite lookup_insert_ne by congruence. done.
Qed.
Lemma outbound_ok_update m d d' id s s' k :
  outbound_ok m d → m !! id = Some (s, k) → s' ≠ OutboundState.Poisoned → dq_view d' = dq_view d →
  outbound_ok (<[id := (s', k)]> m) d'.
Proof.
  intros Hm Hid Hs' Hv id0 s0 k0. rewrite Hv, lookup_insert_Some. intros [[<- [= <- <-]]|[_ Hid0]]; [|eauto].
  destruct (Hm id s k Hid). done.
Qed.
(** A timer of [id] went off: its own, or one of a substream it replaced. *)
Lemma outbound_ok_expire m d d' k id :
  outbound_ok m d → dq_view d !! k = Some id → dq_view d' = delete k (dq_view d) → outbound_ok (delete id m) d'.
Proof.
  intros Hm Hk Hv id0 s0 k0. rewrite lookup_delete_Some. intros [Hne Hid0]. destruct (Hm id0 s0 k0 Hid0) as [? Hk0].
  rewrite Hv, lookup_delete_ne; [done|]. intros <-. congruence.
Qed.
Lemma outbound_ok_delete m d id s k :
  outbound_ok m d → m !! id = Some (s, k) → ∃ d', dq_remove d k = Some d' ∧ outbound_ok (delete id m) d'.
Proof.
  intros Hm Hid. destruct (Hm id s k Hid) as [_ Hk]. destruct (dq_remove_view d k id Hk) as (d' & Hr & Hv).
  exists d'. split; [done|]. exact (outbound_ok_expire m d d' k id Hm Hk Hv).
Qed.
End Inv.

(** ** No call panics *)
Section Safety.
Context `{FR : Framed, DQL : DelayQueueLaws Z, KO : KeyOrder, KL : !KeyOrderLaws, P : Profile}.
Implicit Types (h : P2PHandler) (o f : Z).

(** Updates of parts of the state. *)
Lemma inv_inbound h o f m d q :
  handler_inv h o f → inbound_ok m d (current_inbound_substream_id h) →
  queue_ok m q (current_inbound_substream_id h) → handler_inv (set_queued (set_inbound h m d) q) o f.
Proof. intros [] ??. by split. Qed.
Lemma inv_outbound h o f m d : handler_inv h o f → outbound_ok m d → handler_inv (set_outbound h m d) o f.
Proof. intros [] ?. by split. Qed.
Lemma inv_keep_alive h o f x : handler_inv h o f → handler_inv (set_keep_alive h x) o f.
Proof. intros []. by split. Qed.
Lemma inv_events h o f x : handler_inv h o f → handler_inv (set_events_out h x) o f.
Proof. intros []. by split. Qed.
Lemma inv_pending h o f x : handler_inv h o f → handler_inv (set_pending_error h x) o f.
Proof. intros []. by split. Qed.
Lemma inv_retries h o f n : 0 ≤ n < IO_ERROR_RETRIES → handler_inv h o f → handler_inv (set_retries h n) o f.
Proof. intros ? []. by split; simpl. Qed.
Lemma inv_send_request h o f e : handler_inv h o f → is_request e → handler_inv (send_request h e) o f.
Proof. intros [] He. split; simpl; auto. apply Forall_app. by repeat constructor. Qed.
Lemma inv_inbound_state h o f id s s' k :
  handler_inv h o f → inbound_substreams h !! id = Some (s, k) → s' ≠ InboundState.Poisoned →
  (∀ fr, s' = InboundState.ResponseIdle fr → default [] (queued_outbound_items h !! id) = []) →
  handler_inv (set_inbound_state h id s' k) o f.
Proof.
  intros Hi Hid Hs Hq. apply (inv_inbound h o f _ _ (queued_outbound_items h) Hi).
  - exact (inbound_ok_update _ _ _ _ _ _ _ (hi_in _ _ _ Hi) Hid Hs).
  - exact (queue_ok_update _ _ _ _ _ _ (hi_queue _ _ _ Hi) Hq).
Qed.
Lemma inv_outbound_state h o f id s s' k :
  handler_inv h o f → outbound_substreams h !! id = Some (s, k) → s' ≠ OutboundState.Poisoned →
  handler_inv (set_outbound_state h id s' k) o f.
Proof.
  intros Hi Hid Hs. apply inv_outbound; [done|].
  exact (outbound_ok_update _ _ _ _ _ _ _ (hi_out _ _ _ Hi) Hid Hs eq_refl).
Qed.
Lemma inv_idle now h o f : handler_inv h o f → handler_inv (idle_keep_alive now h) o f.
Proof. intros Hi. unfold idle_keep_alive. case_match; [by apply inv_keep_alive|done]. Qed.
(** *** The calls that are not [poll] *)
Lemma inbound_negotiated_safe {E} now h o f req s :
  handler_inv h o f → current_inbound_substream_id h + 1 < 2 ^ 64 →
  ∃ h', inject_fully_negotiated_inbound (E:=E) now h req s = Ok h' ∧ handler_inv h' o f.
Proof.
  intros Hi Hid. unfold inject_fully_negotiated_inbound.
  set (h1 := match keep_alive h with KeepAlive.Until _ => _ | _ => h end).
  assert (Hi1 : handler_inv h1 o f) by (unfold h1; case_match; auto using inv_keep_alive).
  assert (Hid1 : current_inbound_substream_id h1 + 1 < 2 ^ 64) by (unfold h1; by case_match).
  clearbody h1. clear h Hi Hid. pose proof (hi_id _ _ _ Hi1) as Hnx.
  assert (∃ h', (let id := current_inbound_substream_id h1 in
      let (delay_key, delay) := dq_insert (inbound_substreams_delay h1) id (from_secs RESPONSE_TIMEOUT) in
      let h := set_inbound h1 (<[id := (InboundState.ResponseIdle s, Some delay_key)]> (inbound_substreams h1)) delay in
      let h := set_events_out h (events_out h ++ [P2PEvent.Request id req]) in
      next ← add_u (E:=E) 64 id 1; mret (set_current_id h next)) = Ok h' ∧ handler_inv h' o f) as Hgo.
  { pose proof (inbound_ok_insert _ _ _ (InboundState.ResponseIdle s) (from_secs RESPONSE_TIMEOUT) (hi_in _ _ _ Hi1)
      ltac:(lia) ltac:(done)) as Hins.
    cbv zeta. destruct (dq_insert _ _ _) as [key delay]. unfold add_u. rewrite arith_in by (unfold in_u; lia).
    eexists. split; [reflexivity|].
    pose proof (queue_ok_insert _ _ _ s (Some key) (hi_queue _ _ _ Hi1)). destruct Hi1. split; simpl; auto; lia. }
  destruct req; [exact Hgo| |exact Hgo..]. eauto using inv_events.
Qed.
Lemma outbound_negotiated_safe {E} now h o f out e :
  handler_inv h o f → 0 < o →
  ∃ h', inject_fully_negotiated_outbound (E:=E) now h out e = Ok h' ∧ handler_inv h' (o - 1) f.
Proof.
  intros Hi Ho. unfold inject_fully_negotiated_outbound. pose proof Hi as [Hin Hout Hq Hrq Hd Hs Hm Hr Hid].
  unfold sub_u. rewrite arith_in by (unfold in_u; lia). rewrite bind_Ok.
  set (h1 := if _ && _ && _ then _ else _).
  assert (Hi1 : handler_inv h1 (o - 1) f).
  { unfold h1. destruct (_ && _ && _); apply inv_keep_alive; split; simpl; auto; lia. }
  clearbody h1. destruct e as [id req|id r|id e]; [|by eauto..].
  destruct (P2PRequest.expect_response req); [|by eauto].
  pose proof (outbound_ok_insert _ _ id (OutboundState.RequestPendingResponse out req) (from_secs RESPONSE_TIMEOUT)
    (hi_out _ _ _ Hi1) ltac:(done)) as Hins.
  destruct (dq_insert _ _ _) as [key delay]. eauto using inv_outbound.
Qed.
Lemma event_safe {E} h o f e : handler_inv h o f → ∃ h', inject_event (E:=E) h e = Ok h' ∧ handler_inv h' o f.
Proof.
  intros Hi. destruct e as [id req|id r|id e]; simpl; [eexists; split; [reflexivity|by apply inv_send_request]| |by eauto].
  destruct (inbound_substreams h !! id) as [[s k]|] eqn:Hid; [|by eauto].
  destruct (proj1 (hi_in _ _ _ Hi) id s k Hid) as (Hs & Hlt & _).
  destruct s as [snd closing|fr|fr|]; [| |by eauto|done].
  - destruct (P2PErrorResponse.multiple_responses r); eexists; (split; [reflexivity|]).
    + apply (inv_inbound h o f _ (inbound_substreams_delay h) _ Hi (hi_in _ _ _ Hi)).
      apply queue_ok_push; [apply Hi|lia|]. intros s' k' Hs'. rewrite Hid in Hs'. done.
    + by eapply inv_inbound_state.
  - destruct r; eexists; (split; [reflexivity|]); by eapply inv_inbound_state.
Qed.
Lemma dial_error_safe {E} h o f e err :
  handler_inv h o f → 0 < o → is_request e →
  ∃ h', inject_dial_upgrade_error (E:=E) h e err = Ok h' ∧ handler_inv h' (o - 1) (f + 1).
Proof.
  intros Hi Ho He. assert (Hi' : handler_inv h (o - 1) (f + 1)) by (destruct Hi; split; auto; lia).
  assert (Hrep : ∀ r, handler_inv (report_dial_error (set_retries h r) e err) (o - 1) (f + 1)).
  { intros r. apply inv_pending. destruct Hi'. split; simpl; auto. unfold IO_ERROR_RETRIES. lia. }
  assert (Hrep0 : handler_inv (report_dial_error h e err) (o - 1) (f + 1)).
  { apply inv_pending, inv_retries; [unfold IO_ERROR_RETRIES; lia|done]. }
  unfold inject_dial_upgrade_error. destruct err as [| | |[]]; try by eauto.
  pose proof (hi_retries _ _ _ Hi). unfold IO_ERROR_RETRIES, add_u in *.
  rewrite arith_in by (unfold in_u; lia). rewrite bind_Ok. case_decide; [|by eauto].
  eexists. split; [reflexivity|]. apply inv_send_request; [|done]. apply inv_retries; [unfold IO_ERROR_RETRIES; lia|done].
Qed.

(** *** An inbound substream as the application sees it *)
Context `{FL : !FramedLaws}.

Definition is_termination (r : P2PErrorResponse) : bool :=
  match r with P2PErrorResponse.StreamTermination _ => true | _ => false end.
(** What is sent of a sequence of responses: all before the first termination. *)
Fixpoint before_term (q : list P2PErrorResponse) : list P2PErrorResponse :=
  match q with
  | [] => []
  | r :: q => if is_termination r then [] else r :: before_term q
  end.
Definition has_term (q : list P2PErrorResponse) : bool := existsb is_termination q.

(** An inbound substream as the application sees it: what was written, what is still
    to be written, and whether nothing can follow. *)
Record outbox : Type := mkOutbox { ob_sent : list P2PErrorResponse; ob_todo : list P2PErrorResponse; ob_final : bool }.
Definition view_of (s : InboundSubstreamState) (q : list P2PErrorResponse) : outbox :=
  match s with
  | InboundState.ResponsePendingSend snd closing =>
      mkOutbox (in_sending snd).1 ((in_sending snd).2 :: if closing then [] else before_term q) (closing || has_term q)
  | InboundState.ResponseIdle fr => mkOutbox (in_sent fr) (before_term q) (has_term q)
  | InboundState.Closing fr => mkOutbox (in_sent fr) [] true
  | InboundState.Poisoned => mkOutbox [] [] true
  end.
Definition queue_of h (id : Z) : list P2PErrorResponse := default [] (queued_outbound_items h !! id).
(** Writing moves responses from one side to the other. *)
Definition flows (v v' : outbox) : Prop :=
  (∃ l, ob_sent v' = ob_sent v ++ l ∧ ob_todo v = l ++ ob_todo v') ∧ ob_final v' = ob_final v.

Lemma flows_refl v : flows v v.
Proof. split; [|done]. exists []. by rewrite app_nil_r. Qed.
Lemma flows_trans v1 v2 v3 : flows v1 v2 → flows v2 v3 → flows v1 v3.
Proof.
  intros [(l & Hs & Ht) Hf] [(l' & Hs' & Ht') Hf']. split; [|congruence]. exists (l ++ l').
  by rewrite Hs', Hs, Ht, Ht', <-!app_assoc.
Qed.

(** A call that opens no inbound substream: one whose timer is still running was there
    before, and its responses moved on. *)
Definition moved h h' : Prop :=
  ∀ id s' k, inbound_substreams h' !! id = Some (s', Some k) →
  ∃ s, inbound_substreams h !! id = Some (s, Some k) ∧ flows (view_of s (queue_of h id)) (view_of s' (queue_of h' id)).
Lemma moved_same h h' :
  inbound_substreams h' = inbound_substreams h → queued_outbound_items h' = queued_outbound_items h → moved h h'.
Proof. intros Hi Hq id s k Hid. unfold queue_of. rewrite Hi, Hq in *. exists s. split; [done|apply flows_refl]. Qed.
Lemma moved_trans h1 h2 h3 : moved h1 h2 → moved h2 h3 → moved h1 h3.
Proof.
  intros H12 H23 id s3 k H3. destruct (H23 id s3 k H3) as (s2 & H2 & Hf). destruct (H12 id s2 k H2) as (s1 & H1 & Hf').
  eauto using flows_trans.
Qed.

(** *** Polling *)

(** Substreams the handler asks libp2p to open. *)
Definition opened (ev : option HandlerEvent) : Z :=
  match ev with Some (HandlerEvent.OutboundSubstreamRequest _ _) => 1 | _ => 0 end.
Definition step_safe h (m : Step) o f : Prop :=
  match m with
  | Ok (h', ev) => handler_inv h' (o + opened ev) f ∧ moved h h'
  | Err e => e = UpgrErr.Timer
  | Panic => False
  end.
Lemma step_next h h' o f : handler_inv h' o f → moved h h' → step_safe h (Ok (h', None)) o f.
Proof. intros Hi. simpl. by rewrite Z.add_0_r. Qed.
Lemma step_ready h h' o f e : handler_inv h' o f → moved h h' → step_safe h (ready h' e) o f.
Proof. intros Hi. simpl. by rewrite Z.add_0_r. Qed.
Lemma step_trans h h1 m o f : moved h h1 → step_safe h1 m o f → step_safe h m o f.
Proof. destruct m as [[h' ev]| |]; simpl; [|done|done]. intros ? []. eauto using moved_trans. Qed.
Lemma and_then_safe h m g o f :
  step_safe h m o f → (∀ h1, m = Ok (h1, None) → handler_inv h1 o f → step_safe h1 (g h1) o f) →
  step_safe h (and_then m g) o f.
Proof.
  destruct m as [[h1 [ev|]]| |]; [done| |done|done]. unfold and_then. simpl. rewrite Z.add_0_r.
  intros [Hi Hm] Hg. eapply step_trans; eauto.
Qed.

Lemma report_error_safe h o f : handler_inv h o f → step_safe h (report_error h) o f.
Proof.
  intros Hi. unfold report_error. destruct (last (pending_error h)) as [[id err]|]; [|by apply step_next, moved_same].
  destruct err as [| | |[]]; (apply step_ready; [apply inv_pending, Hi|by apply moved_same]).
Qed.
Lemma report_event_safe h o f : handler_inv h o f → step_safe h (report_event h) o f.
Proof.
  intros Hi. unfold report_event. destruct (events_out h); [by apply step_next, moved_same|].
  apply step_ready; [apply inv_events, Hi|by apply moved_same].
Qed.

Lemma close_spec {E} s q :
  s ≠ InboundState.Poisoned → ∃ s' q', close (E:=E) s q = Ok (s', q') ∧ s' ≠ InboundState.Poisoned ∧
    ∀ fr, s' ≠ InboundState.ResponseIdle fr.
Proof.
  intros Hs. destruct s as [snd c|fr|fr|]; simpl; [..|done]; [by eauto| |by eauto].
  destruct (in_poll fr) as [[[]| |] fr']; by eauto.
Qed.
Lemma expire_inbound_safe h o f k id d' :
  handler_inv h o f → dq_view (inbound_substreams_delay h) !! k = Some id →
  dq_view d' = delete k (dq_view (inbound_substreams_delay h)) →
  ∃ h', expire_inbound (E:=UpgrErr) (set_inbound h (inbound_substreams h) d') id = Ok h' ∧ handler_inv h' o f ∧
    inbound_substreams_delay h' = d' ∧ moved h h'.
Proof.
  intros Hi Hk Hv. unfold expire_inbound. cbn [inbound_substreams set_inbound].
  destruct (proj2 (hi_in _ _ _ Hi) k id Hk) as [s Hid]. rewrite Hid.
  destruct (proj1 (hi_in _ _ _ Hi) id s _ Hid) as (Hs & Hlt & _).
  destruct (close_spec (E:=UpgrErr) s (default [] (queued_outbound_items h !! id)) Hs) as (s' & q' & Hc & Hs' & Hni).
  cbn [queued_outbound_items set_inbound]. rewrite Hc. eexists. split; [reflexivity|]. cbn [fst snd]. split; [|split; [done|]]; cycle 1.
  { intros id' s0 k0. unfold queue_of. cbn. rewrite lookup_insert_Some. intros [[_ [=]]|[Hne Hid']].
    exists s0. rewrite lookup_insert_ne by done. split; [done|apply flows_refl]. }
  change (handler_inv (set_queued (set_inbound h (<[id := (s', None)]> (inbound_substreams h)) d')
    (<[id := q']> (queued_outbound_items h))) o f).
  apply (inv_inbound h o f _ _ _ Hi).
  - exact (inbound_ok_expire _ _ _ _ k id s s' (hi_in _ _ _ Hi) Hid Hv Hs').
  - apply queue_ok_set; [apply Hi|simpl; lia|]. intros fr Hfr. by destruct (Hni fr).
Qed.
Lemma set_inbound_same h o f d' :
  handler_inv h o f → dq_view d' = dq_view (inbound_substreams_delay h) →
  handler_inv (set_inbound h (inbound_substreams h) d') o f.
Proof.
  intros Hi Hv. apply (inv_inbound h o f _ d' (queued_outbound_items h) Hi); [|apply Hi].
  destruct (hi_in _ _ _ Hi) as [H1 H2]. split; rewrite Hv; done.
Qed.
Lemma purge_inbound_safe fuel h o f :
  handler_inv h o f → (size (dq_view (inbound_substreams_delay h)) < fuel)%nat → step_safe h (purge_inbound fuel h) o f.
Proof.
  revert h. induction fuel as [|fuel IH]; intros h Hi Hf; simpl; [lia|].
  pose proof (dq_poll_view (inbound_substreams_delay h)) as Hp.
  destruct (dq_poll (inbound_substreams_delay h)) as [[[id|]| |e] d]; simpl in Hp; [| | |done].
  - destruct Hp as (k & Hk & Hv). destruct (expire_inbound_safe h o f k id d Hi Hk Hv) as (h' & -> & Hi' & Hd' & Hm).
    apply (step_trans h h' _ o f Hm), (IH h' Hi'). rewrite Hd', Hv, map_size_delete_Some by eauto.
    assert (size (dq_view (inbound_substreams_delay h)) ≠ 0%nat) by
      (intros Hx%map_size_empty_iff; by rewrite Hx, lookup_empty in Hk).
    lia.
  - by apply step_next; [apply set_inbound_same|apply moved_same].
  - by apply step_next; [apply set_inbound_same|apply moved_same].
Qed.
Lemma purge_outbound_safe h o f : handler_inv h o f → step_safe h (purge_outbound h) o f.
Proof.
  intros Hi. unfold purge_outbound. pose proof (dq_poll_view (outbound_substreams_delay h)) as Hp.
  assert (Hsame : ∀ d, dq_view d = dq_view (outbound_substreams_delay h) →
    handler_inv (set_outbound h (outbound_substreams h) d) o f).
  { intros d Hd. apply inv_outbound; [done|]. intros id s k Hid. rewrite Hd. exact (hi_out _ _ _ Hi id s k Hid). }
  destruct (dq_poll (outbound_substreams_delay h)) as [[[id|]| |e] d]; simpl in Hp;
    [|by apply step_next; [apply Hsame|apply moved_same]..|done].
  destruct Hp as (k & Hk & Hv). apply step_ready; [|by apply moved_same].
  exact (inv_outbound h o f _ d Hi (outbound_ok_expire _ _ _ k id (hi_out _ _ _ Hi) Hk Hv)).
Qed.

Lemma drop_inbound_safe h o f id s k :
  handler_inv h o f → inbound_substreams h !! id = Some (s, k) →
  ∃ h', drop_inbound (E:=UpgrErr) h id k = Ok h' ∧ handler_inv h' o f ∧
    h' = set_inbound h (delete id (inbound_substreams h)) (inbound_substreams_delay h').
Proof.
  intros Hi Hid. unfold drop_inbound.
  destruct (inbound_ok_delete _ _ _ id s k (hi_in _ _ _ Hi) Hid) as (d' & -> & Hok). rewrite bind_Ok.
  eexists. split; [reflexivity|]. split; [|done].
  apply (inv_inbound h o f _ _ (queued_outbound_items h) Hi Hok). apply queue_ok_delete, Hi.
Qed.
Lemma drop_outbound_safe h o f id s k :
  handler_inv h o f → outbound_substreams h !! id = Some (s, k) →
  ∃ h', drop_outbound (E:=UpgrErr) h id k = Ok h' ∧ handler_inv h' o f.
Proof.
  intros Hi Hid. unfold drop_outbound.
  destruct (outbound_ok_delete _ _ id s k (hi_out _ _ _ Hi) Hid) as (d' & -> & Hok). simpl.
  eexists. split; [reflexivity|]. by apply inv_outbound.
Qed.
Lemma apply_queued_safe h o f id s fr k :
  handler_inv h o f → inbound_substreams h !! id = Some (s, k) →
  handler_inv (apply_queued h id fr k).1 o f.
Proof.
  intros Hi Hid. unfold apply_queued, apply_queued_responses.
  destruct (proj1 (hi_in _ _ _ Hi) id s _ Hid) as (_ & Hlt & _).
  destruct (queued_outbound_items h !! id) as [[|item q]|] eqn:Hq; simpl.
  - apply (inv_inbound h o f _ (inbound_substreams_delay h) _ Hi).
    + by eapply inbound_ok_update; [apply Hi| |].
    + apply queue_ok_set; [apply Hi|lia|done].
  - apply (inv_inbound h o f _ (inbound_substreams_delay h) _ Hi).
    + eapply inbound_ok_update; [apply Hi|done|]. by destruct item.
    + apply queue_ok_set; [apply Hi|lia|]. by destruct item.
  - eapply inv_inbound_state; [done..|]. intros _ _. by rewrite Hq.
Qed.

(** *** Driving the substreams *)
(** What a call does to the substream [id]: it is gone, or it has moved on. *)
Definition stream_moves h h' (id : Z) : Prop :=
  ∀ s k, inbound_substreams h !! id = Some (s, k) →
  inbound_substreams h' !! id = None ∨
  ∃ s', inbound_substreams h' !! id = Some (s', k) ∧ flows (view_of s (queue_of h id)) (view_of s' (queue_of h' id)).
Definition stream_kept h h' (id : Z) : Prop :=
  inbound_substreams h' !! id = inbound_substreams h !! id ∧ queue_of h' id = queue_of h id.

Lemma kept_moves h h' id : stream_kept h h' id → stream_moves h h' id.
Proof. intros [Hi Hq] s k Hs. right. exists s. rewrite Hi, Hq. split; [done|apply flows_refl]. Qed.
Lemma kept_trans h1 h2 h3 id : stream_kept h1 h2 id → stream_kept h2 h3 id → stream_kept h1 h3 id.
Proof. intros [] []. split; congruence. Qed.
Lemma moves_trans h1 h2 h3 id :
  stream_moves h1 h2 id → stream_moves h2 h3 id → (inbound_substreams h2 !! id = None → inbound_substreams h3 !! id = None) →
  stream_moves h1 h3 id.
Proof.
  intros H12 H23 Hn s k Hs. destruct (H12 s k Hs) as [?|(s2 & Hs2 & Hf)]; [auto|].
  destruct (H23 s2 k Hs2) as [?|(s3 & Hs3 & Hf')]; [auto|]. right. exists s3. eauto using flows_trans.
Qed.

Lemma set_inbound_state_kept h id s k id' : id' ≠ id → stream_kept h (set_inbound_state h id s k) id'.
Proof. intros Hne. split; [|done]. cbn. by rewrite lookup_insert_ne. Qed.
Lemma set_queue_kept h id q s k id' :
  id' ≠ id → stream_kept h (set_inbound_state (set_queued h (<[id := q]> (queued_outbound_items h))) id s k) id'.
Proof. intros Hne. unfold stream_kept, queue_of. cbn. by rewrite !lookup_insert_ne. Qed.

Lemma apply_queued_spec h id fr k :
  ∃ s', inbound_substreams (apply_queued h id fr k).1 !! id = Some (s', k) ∧
    flows (mkOutbox (in_sent fr) (before_term (queue_of h id)) (has_term (queue_of h id)))
      (view_of s' (queue_of (apply_queued h id fr k).1 id)) ∧
    (∀ id', id' ≠ id → stream_kept h (apply_queued h id fr k).1 id') ∧
    ((apply_queued h id fr k).2 = true → (length (queue_of (apply_queued h id fr k).1 id) < length (queue_of h id))%nat).
Proof.
  unfold apply_queued, apply_queued_responses, queue_of.
  destruct (queued_outbound_items h !! id) as [[|item q]|] eqn:Hq; cbn -[view_of before_term has_term].
  - rewrite lookup_insert_eq. eexists. split; [reflexivity|]. rewrite lookup_insert_eq. split_and!.
    + apply flows_refl.
    + intros id' Hne. by apply set_queue_kept.
    + done.
  - rewrite lookup_insert_eq. eexists. split; [reflexivity|]. rewrite lookup_insert_eq. split_and!.
    + destruct item; cbn; rewrite ?in_send_sending; (split; [|done]); exists []; by rewrite app_nil_r.
    + intros id' Hne. by apply set_queue_kept.
    + cbn. lia.
  - rewrite lookup_insert_eq. eexists. split; [reflexivity|]. rewrite Hq. split_and!.
    + apply flows_refl.
    + intros id' Hne. by apply set_inbound_state_kept.
    + done.
Qed.

Lemma drive_inbound_once_spec now h o f id s k :
  handler_inv h o f → inbound_substreams h !! id = Some (s, k) →
  ∃ h' ev more, drive_inbound_once now h id = Ok (h', ev, more) ∧ handler_inv h' o f ∧ opened ev = 0 ∧
    (∀ id', id' ≠ id → stream_kept h h' id') ∧ stream_moves h h' id ∧
    (more = true → ev = None ∧ is_Some (inbound_substreams h' !! id) ∧ (length (queue_of h' id) < length (queue_of h id))%nat).
Proof.
  intros Hi Hid. unfold drive_inbound_once. rewrite Hid.
  destruct (proj1 (hi_in _ _ _ Hi) id s k Hid) as (Hs & _).
  assert (Hdrop : ∀ h', h' = set_inbound h (delete id (inbound_substreams h)) (inbound_substreams_delay h') →
    (∀ id', id' ≠ id → stream_kept h h' id') ∧ stream_moves h h' id).
  { intros h' ->. split.
    - intros id' Hne. split; [|done]. cbn. by rewrite lookup_delete_ne.
    - intros s0 k0 _. left. cbn. by rewrite lookup_delete_eq. }
  assert (Hset : ∀ s', flows (view_of s (queue_of h id)) (view_of s' (queue_of h id)) →
    stream_moves h (set_inbound_state h id s' k) id).
  { intros s' Hf s0 k0 Hs0. rewrite Hid in Hs0. injection Hs0 as <- <-. right. exists s'. cbn.
    by rewrite lookup_insert_eq. }
  destruct s as [w closing|fr|fr|]; [| | |done].
  - pose proof (in_send_poll_sent w) as Hp. destruct (in_send_poll w) as [[raw| |e] w']; cbn in Hp.
    + destruct closing.
      * eexists _, _, _. split_and!; [reflexivity|by eapply inv_inbound_state|done|by intros; apply set_inbound_state_kept| |done].
        apply Hset. split; [|done]. exists [(in_sending w).2]. cbn. by rewrite Hp.
      * pose proof (apply_queued_safe h o f id _ raw k Hi Hid) as Hi'.
        destruct (apply_queued_spec h id raw k) as (s' & Hs' & Hf & Hk & Hm).
        destruct (apply_queued h id raw k) as [h' more]. cbn [fst snd] in *.
        eexists _, _, _. split_and!; [reflexivity|done|done|done| |eauto].
        intros s0 k0 Hs0. rewrite Hid in Hs0. injection Hs0 as <- <-. right. exists s'. split; [done|].
        eapply flows_trans; [|exact Hf]. split; [|done]. exists [(in_sending w).2]. cbn. by rewrite Hp.
    + eexists _, _, _. split_and!; [reflexivity|by eapply inv_inbound_state|done|by intros; apply set_inbound_state_kept| |done].
      apply Hset. cbn. rewrite Hp. apply flows_refl.
    + destruct (drop_inbound_safe h o f id _ k Hi Hid) as (h' & -> & Hi' & Heq).
      destruct (Hdrop h' Heq). eexists _, _, _. by split_and!.
  - pose proof (apply_queued_safe h o f id _ fr k Hi Hid) as Hi'.
    destruct (apply_queued_spec h id fr k) as (s' & Hs' & Hf & Hk & Hm).
    destruct (apply_queued h id fr k) as [h' more]. cbn [fst snd] in *.
    eexists _, _, _. split_and!; [reflexivity|done|done|done| |eauto].
    intros s0 k0 Hs0. rewrite Hid in Hs0. injection Hs0 as <- <-. right. eauto.
  - pose proof (in_close_sent fr) as Hp. destruct (in_close fr) as [r fr'] eqn:Hc. cbn in Hp.
    assert (Hdone : ∃ h' ev more, (h ← drop_inbound h id k;
        Ok (idle_keep_alive now (set_queued h (delete id (queued_outbound_items h))), None, false)) = Ok (E:=UpgrErr) (h', ev, more) ∧
        handler_inv h' o f ∧ opened ev = 0 ∧ (∀ id', id' ≠ id → stream_kept h h' id') ∧ stream_moves h h' id ∧
        (more = true → ev = None ∧ is_Some (inbound_substreams h' !! id) ∧ (length (queue_of h' id) < length (queue_of h id))%nat)).
    { destruct (drop_inbound_safe h o f id _ k Hi Hid) as (h' & -> & Hi' & Heq). rewrite bind_Ok.
      assert (Hproj : ∀ h1, inbound_substreams (idle_keep_alive now h1) = inbound_substreams h1 ∧
        queued_outbound_items (idle_keep_alive now h1) = queued_outbound_items h1)
        by (intros h1; unfold idle_keep_alive; by case_match).
      eexists _, _, _. split_and!; [reflexivity| |done| | |done].
      - apply inv_idle. rewrite Heq in Hi' |- *. cbn.
        apply (inv_inbound h o f _ _ _ Hi (hi_in _ _ _ Hi')). apply queue_ok_drop, queue_ok_delete, Hi.
      - intros id' Hne. unfold stream_kept, queue_of. destruct (Hproj (set_queued h' (delete id (queued_outbound_items h')))) as [-> ->].
        rewrite Heq. cbn. by rewrite !lookup_delete_ne.
      - intros s0 k0 _. left. destruct (Hproj (set_queued h' (delete id (queued_outbound_items h')))) as [-> _].
        rewrite Heq. cbn. by rewrite lookup_delete_eq. }
    destruct r as [[]| |e]; [exact Hdone| |exact Hdone].
    eexists _, _, _. split_and!; [reflexivity|by eapply inv_inbound_state|done|by intros; apply set_inbound_state_kept| |done].
    apply Hset. cbn. rewrite Hp. apply flows_refl.
Qed.

Lemma drive_inbound_loop_spec now fuel h o f id :
  handler_inv h o f → is_Some (inbound_substreams h !! id) → (length (queue_of h id) < fuel)%nat →
  ∃ h' ev, drive_inbound_loop now fuel h id = Ok (h', ev) ∧ handler_inv h' o f ∧ opened ev = 0 ∧
    (∀ id', id' ≠ id → stream_kept h h' id') ∧ stream_moves h h' id.
Proof.
  revert h. induction fuel as [|fuel IH]; intros h Hi [[s k] Hid] Hf; [lia|]. cbn [drive_inbound_loop].
  destruct (drive_inbound_once_spec now h o f id s k Hi Hid) as (h1 & ev & more & -> & Hi1 & Hev & Hk & Hm & Hmore).
  rewrite bind_Ok. cbn [fst snd]. destruct ev as [ev|]; [by eexists _, _; split_and!|].
  destruct more; [|by eexists _, _; split_and!].
  destruct (Hmore eq_refl) as (_ & Hsome & Hlen).
  destruct (IH h1 Hi1 Hsome) as (h2 & ev2 & -> & Hi2 & Hev2 & Hk2 & Hm2); [lia|].
  exists h2, ev2. split_and!; [done..| |].
  - intros id' Hne. eapply kept_trans; eauto.
  - eapply moves_trans; [done..|]. intros Hn. destruct Hsome as [? Hsome]. congruence.
Qed.
Lemma drive_inbound_spec now h o f id :
  handler_inv h o f → is_Some (inbound_substreams h !! id) →
  ∃ h' ev, drive_inbound now h id = Ok (h', ev) ∧ handler_inv h' o f ∧ opened ev = 0 ∧
    (∀ id', id' ≠ id → stream_kept h h' id') ∧ stream_moves h h' id.
Proof. intros Hi Hid. apply drive_inbound_loop_spec; [done|done|]. unfold queue_of. lia. Qed.

(** Outbound substreams are driven without touching inbound ones. *)
Lemma drive_outbound_spec now h o f id :
  handler_inv h o f → is_Some (outbound_substreams h !! id) →
  ∃ h' ev, drive_outbound now h id = Ok (h', ev) ∧ handler_inv h' o f ∧ opened ev = 0 ∧
    (∀ id', stream_kept h h' id') ∧ (∀ id', id' ≠ id → outbound_substreams h' !! id' = outbound_substreams h !! id').
Proof.
  intros Hi [[s k] Hid]. unfold drive_outbound. rewrite Hid. destruct (hi_out _ _ _ Hi id s k Hid) as [Hs Hk].
  assert (Hdrop : ∃ h', drop_outbound (E:=UpgrErr) h id k = Ok h' ∧ handler_inv h' o f ∧
    (∀ id', stream_kept h h' id') ∧ (∀ id', id' ≠ id → outbound_substreams h' !! id' = outbound_substreams h !! id')).
  { destruct (drop_outbound_safe h o f id s k Hi Hid) as (h' & Hd & Hi'). exists h'. split; [done|]. split; [done|].
    unfold drop_outbound in Hd. destruct (dq_remove _ k); [|done]. simpl in Hd. injection Hd as <-. split; [done|].
    intros id' Hne. cbn. by rewrite lookup_delete_ne. }
  destruct s as [out req|out|]; [| |done].
  - destruct (out_poll out) as [[[resp|]| |e] out'].
    + destruct (P2PRequest.multiple_responses req && negb (P2PErrorResponse.is_error resp)).
      * destruct (dq_reset_view (outbound_substreams_delay h) k id (from_secs RESPONSE_TIMEOUT) Hk) as (d' & Hr & Hv).
        cbn -[set_outbound set_outbound_state]. cbn [outbound_substreams_delay set_outbound_state set_outbound]. rewrite Hr.
        eexists _, _. split_and!; [reflexivity| |done|done|].
        -- apply (inv_outbound h o f _ d' Hi). by eapply (outbound_ok_update _ (outbound_substreams_delay h)); [apply Hi|..].
        -- intros id' Hne. cbn. by rewrite lookup_insert_ne.
      * eexists _, _. split_and!; [reflexivity|by eapply inv_outbound_state|done|done|].
        intros id' Hne. cbn. by rewrite lookup_insert_ne.
    + destruct Hdrop as (h' & -> & Hi' & Hkp & Hne). rewrite bind_Ok.
      destruct req; simpl; eexists _, _; by split_and!.
    + eexists _, _. split_and!; [reflexivity|by eapply inv_outbound_state|done|done|].
      intros id' Hne. cbn. by rewrite lookup_insert_ne.
    + destruct Hdrop as (h' & -> & Hi' & Hkp & Hne). eexists _, _. by split_and!.
  - assert (Hproj : ∀ h1, inbound_substreams (idle_keep_alive now h1) = inbound_substreams h1 ∧
        queued_outbound_items (idle_keep_alive now h1) = queued_outbound_items h1 ∧
        outbound_substreams (idle_keep_alive now h1) = outbound_substreams h1)
        by (intros h1; unfold idle_keep_alive; by case_match).
    destruct Hdrop as (h' & Hd & Hi' & Hkp & Hne). destruct (Hproj h') as (Hp1 & Hp2 & Hp3).
    assert (Hdone : handler_inv (idle_keep_alive now h') o f ∧ (∀ id', stream_kept h (idle_keep_alive now h') id') ∧
      (∀ id', id' ≠ id → outbound_substreams (idle_keep_alive now h') !! id' = outbound_substreams h !! id')).
    { split_and!; [by apply inv_idle| |by intros id' ?; rewrite Hp3; auto].
      intros id'. unfold stream_kept, queue_of. rewrite Hp1, Hp2. apply Hkp. }
    destruct Hdone as (? & ? & ?).
    destruct (out_close out) as [[[]| |e] out']; rewrite ?Hd; eexists _, _; (split_and!; [reflexivity|try done..]).
    + by eapply inv_outbound_state.
    + intros id' Hne'. cbn. by rewrite lookup_insert_ne.
Qed.

Lemma kept_moved h h' id :
  is_Some (inbound_substreams h !! id) → (∀ id', id' ≠ id → stream_kept h h' id') → stream_moves h h' id → moved h h'.
Proof.
  intros [[s0 k0] H0] Hk Hm id' s' k Hs'. destruct (decide (id' = id)) as [->|Hne].
  - destruct (Hm s0 k0 H0) as [Hn|(s1 & Hs1 & Hf)]; [congruence|].
    rewrite Hs' in Hs1. injection Hs1 as <- <-. eauto.
  - destruct (Hk id' Hne) as [Hi Hq]. exists s'. rewrite Hi in Hs'. rewrite Hq. split; [done|apply flows_refl].
Qed.

(** Each key that was there at the start is driven, unless an event ends the call. *)
Lemma drive_all_safe drive (present : P2PHandler → Z → Prop) o f :
  (∀ h id, handler_inv h o f → present h id → ∃ h' ev, drive h id = Ok (h', ev) ∧ handler_inv h' o f ∧
     opened ev = 0 ∧ moved h h' ∧ ∀ id', id' ≠ id → present h id' → present h' id') →
  ∀ ids h, NoDup ids → handler_inv h o f → (∀ id, id ∈ ids → present h id) → step_safe h (drive_all drive h ids) o f.
Proof.
  intros Hd ids. induction ids as [|id ids IH]; intros h Hnd Hi Hp; cbn [drive_all].
  { by apply step_next, moved_same. }
  apply NoDup_cons in Hnd as [Hni Hnd].
  destruct (Hd h id Hi ltac:(set_solver)) as (h1 & ev & -> & Hi1 & Hev & Hm & Hpr).
  unfold and_then. rewrite bind_Ok. cbn [fst snd]. destruct ev as [ev|].
  - unfold step_safe. by rewrite Hev, Z.add_0_r.
  - apply (step_trans h h1 _ o f Hm), IH; [done|done|]. intros id' Hid'. apply Hpr; [|set_solver]. by intros ->.
Qed.
Lemma map_keys_NoDup {A} (m : gmap Z A) : NoDup (map_keys m).
Proof. rewrite map_keys_perm. apply NoDup_fst_map_to_list. Qed.
Lemma map_keys_is_Some {A} (m : gmap Z A) id : id ∈ map_keys m → is_Some (m !! id).
Proof.
  rewrite map_keys_perm, list_elem_of_fmap. intros ([id' x] & -> & Hx). apply elem_of_map_to_list in Hx. eauto.
Qed.

Lemma dial_safe h o f : handler_inv h o f → step_safe h (dial h) o f.
Proof.
  intros Hi. unfold dial. destruct (dial_queue h) as [|e q] eqn:Hq; [by apply step_next, moved_same|].
  case_decide as Hlt; [|by apply step_next, moved_same]. pose proof Hi as [? ? ? Hr Hd Hs Hmax ? ?].
  unfold add_u. rewrite arith_in by (unfold in_u; lia). rewrite bind_Ok.
  rewrite Hq in Hr. apply Forall_cons in Hr as [He Hr]. destruct e; [|done..].
  split; [split; simpl; auto; lia|by apply moved_same].
Qed.

Lemma poll_safe fuel now h o f :
  handler_inv h o f → (size (dq_view (inbound_substreams_delay h)) < fuel)%nat → step_safe h (poll fuel now h) o f.
Proof.
  intros Hi Hf. unfold poll.
  apply and_then_safe; [by apply report_error_safe|]. intros h1 Hr1 Hi1.
  assert (h1 = h) as ->.
  { unfold report_error in Hr1. destruct (last (pending_error h)) as [[id [| | |[]]]|]; by try injection Hr1. }
  apply and_then_safe; [by apply report_event_safe|]. intros h2 Hr2 Hi2.
  assert (h2 = h) as -> by (unfold report_event in Hr2; destruct (events_out h); by try injection Hr2).
  apply and_then_safe; [by apply purge_inbound_safe|]. intros h3 _ Hi3.
  apply and_then_safe; [by apply purge_outbound_safe|]. intros h4 _ Hi4.
  apply and_then_safe; [|intros h5 _ Hi5].
  { apply (drive_all_safe _ (λ h id, is_Some (inbound_substreams h !! id))); auto using map_keys_NoDup, map_keys_is_Some.
    intros h5 id Hi5 Hid. destruct (drive_inbound_spec now h5 o f id Hi5 Hid) as (h6 & ev & Hd & Hi6 & Hev & Hk & Hm).
    exists h6, ev. split_and!; eauto using kept_moved. intros id' Hne. by rewrite (proj1 (Hk id' Hne)). }
  apply and_then_safe; [|intros h6 _ Hi6; by apply dial_safe].
  apply (drive_all_safe _ (λ h id, is_Some (outbound_substreams h !! id))); auto using map_keys_NoDup, map_keys_is_Some.
  intros h6 id Hi6 Hid. destruct (drive_outbound_spec now h6 o f id Hi6 Hid) as (h7 & ev & Hd & Hi7 & Hev & Hk & Ho).
  exists h7, ev. split_and!; [done..| |].
  - intros id' s' k Hs'. destruct (Hk id') as [Hin Hq]. rewrite Hin in Hs'. rewrite Hq. eauto using flows_refl.
  - intros id' Hne. by rewrite (Ho id' Hne).
Qed.
End Safety.

(** ** A connection: the calls libp2p makes *)
Section Connection.
Context `{FR : Framed, DQL : DelayQueueLaws Z, KO : KeyOrder, KL : !KeyOrderLaws, FL : !FramedLaws, P : Profile}.
Implicit Types (h : P2PHandler).

Inductive conn_op : Type :=
  | InboundNegotiated (now : Z) (req : P2PRequest) (s : InboundFramed)
  | OutboundNegotiated (now : Z) (out : OutboundFramed) (e : P2PEvent)
  | AppEvent (e : P2PEvent)
  | DialFailed (e : P2PEvent) (err : UpgrErr)
  | Polled (fuel : nat) (now : Z).

(** The handler, and the negotiations that are going on and that failed. *)
Record conn : Type := mkConn { cn_handler : P2PHandler; cn_opening : Z; cn_failed : Z }.
Definition start (inactive_timeout : Z) : conn := mkConn (new inactive_timeout) 0 0.

Definition conn_step (c : conn) (op : conn_op) : Outcome UpgrErr (conn * option HandlerEvent) :=
  match op with
  | InboundNegotiated now req s =>
      h ← inject_fully_negotiated_inbound now (cn_handler c) req s;
      Ok (mkConn h (cn_opening c) (cn_failed c), None)
  | OutboundNegotiated now out e =>
      h ← inject_fully_negotiated_outbound now (cn_handler c) out e;
      Ok (mkConn h (cn_opening c - 1) (cn_failed c), None)
  | AppEvent e => h ← inject_event (cn_handler c) e; Ok (mkConn h (cn_opening c) (cn_failed c), None)
  | DialFailed e err =>
      h ← inject_dial_upgrade_error (cn_handler c) e err;
      Ok (mkConn h (cn_opening c - 1) (cn_failed c + 1), None)
  | Polled fuel now =>
      r ← poll fuel now (cn_handler c);
      Ok (mkConn r.1 (cn_opening c + opened r.2) (cn_failed c), r.2)
  end.

(** libp2p negotiates what it was asked to open; ids are not used up; a poll has fuel for
    every timer. *)
Definition op_allowed (c : conn) (op : conn_op) : Prop :=
  match op with
  | InboundNegotiated _ _ _ => current_inbound_substream_id (cn_handler c) + 1 < 2 ^ 64
  | OutboundNegotiated _ _ _ => 0 < cn_opening c
  | AppEvent _ => True
  | DialFailed e _ => 0 < cn_opening c ∧ is_request e
  | Polled fuel _ => (size (dq_view (inbound_substreams_delay (cn_handler c))) < fuel)%nat
  end.

Inductive conn_run : conn → list conn_op → conn → Prop :=
  | run_nil c : conn_run c [] c
  | run_cons c op c' ev ops c'' :
      op_allowed c op → conn_step c op = Ok (c', ev) → conn_run c' ops c'' → conn_run c (op :: ops) c''.

Definition conn_inv (c : conn) : Prop := handler_inv (cn_handler c) (cn_opening c) (cn_failed c).
Lemma start_inv t : conn_inv (start t).
Proof. exact (new_handler_inv t). Qed.

Lemma conn_step_safe c op :
  conn_inv c → op_allowed c op →
  match conn_step c op with Ok (c', _) => conn_inv c' | Err e => e = UpgrErr.Timer | Panic => False end.
Proof.
  intros Hi Ha. destruct op as [now req s|now out e|e|e err|fuel now]; simpl in Ha |- *.
  - destruct (inbound_negotiated_safe (E:=UpgrErr) now _ _ _ req s Hi Ha) as (h' & -> & ?). done.
  - destruct (outbound_negotiated_safe (E:=UpgrErr) now _ _ _ out e Hi Ha) as (h' & -> & ?). done.
  - destruct (event_safe (E:=UpgrErr) _ _ _ e Hi) as (h' & -> & ?). done.
  - destruct Ha as [Ha He]. destruct (dial_error_safe (E:=UpgrErr) _ _ _ e err Hi Ha He) as (h' & -> & ?). done.
  - pose proof (poll_safe fuel now _ _ _ Hi Ha) as Hs.
    destruct (poll fuel now (cn_handler c)) as [[h' ev]|e|]; simpl in *; [by destruct Hs|done|done].
Qed.
Lemma conn_run_inv c ops c' : conn_inv c → conn_run c ops c' → conn_inv c'.
Proof.
  intros Hi Hr. induction Hr as [|c op c' ev ops c'' Ha Hs Hr IH]; [done|]. apply IH.
  pose proof (conn_step_safe c op Hi Ha) as Hx. by rewrite Hs in Hx.
Qed.

(** *** Failed negotiations *)
Definition failures (ops : list conn_op) : Z :=
  Z.of_nat (length (filter (λ op, match op with DialFailed _ _ => true | _ => false end = true) ops)).
Lemma conn_step_failed c op c' ev :
  conn_step c op = Ok (c', ev) → cn_failed c' = cn_failed c + failures [op].
Proof.
  unfold failures. intros Hs. destruct op; simpl in *; outcome_inv; simpl; lia.
Qed.
Lemma failures_cons op ops : failures (op :: ops) = failures [op] + failures ops.
Proof. unfold failures. rewrite !filter_cons, filter_nil. case_decide; simpl; lia. Qed.
Lemma conn_run_failed c ops c' : conn_run c ops c' → cn_failed c' = cn_failed c + failures ops.
Proof.
  induction 1 as [|c op c' ev ops c'' _ Hs _ IH]; [unfold failures; simpl; lia|].
  apply conn_step_failed in Hs. rewrite failures_cons. lia.
Qed.

(** *** Responses *)
Definition chunk_or_term (r : P2PErrorResponse) : Prop :=
  P2PErrorResponse.multiple_responses r = true ∧ (P2PErrorResponse.is_error r = false ∨ is_termination r = true).
(** The responses of the application to the request [id]. *)
Definition op_answers (id : Z) (op : conn_op) : list P2PErrorResponse :=
  match op with AppEvent (P2PEvent.Response id' r) => if decide (id' = id) then [r] else [] | _ => [] end.
Definition answers (id : Z) (ops : list conn_op) : list P2PErrorResponse := ops ≫= op_answers id.

(** The application adds [l] to an outbox. *)
Definition extends (v v' : outbox) (l : list P2PErrorResponse) : Prop :=
  ob_sent v' ++ ob_todo v' = ob_sent v ++ ob_todo v ++ (if ob_final v then [] else before_term l) ∧
  ob_final v' = ob_final v || has_term l.

Lemma before_term_app l l' :
  before_term (l ++ l') = before_term l ++ (if has_term l then [] else before_term l').
Proof.
  induction l as [|r l IH]; simpl; [done|]. destruct (is_termination r); simpl; [done|]. by rewrite IH.
Qed.
Lemma has_term_app l l' : has_term (l ++ l') = has_term l || has_term l'.
Proof. apply existsb_app. Qed.
Lemma extends_trans v1 v2 v3 l l' : extends v1 v2 l → extends v2 v3 l' → extends v1 v3 (l ++ l').
Proof.
  intros [H12 F12] [H23 F23]. split.
  - rewrite H23, app_assoc, H12, F12, <-!app_assoc, before_term_app. do 2 f_equal.
    destruct (ob_final v1), (has_term l); simpl; by rewrite ?app_nil_r.
  - by rewrite F23, F12, has_term_app, orb_assoc.
Qed.
Lemma flows_extends v v' : flows v v' → extends v v' [].
Proof.
  intros [(l & Hs & Ht) Hf]. split; [|simpl; by rewrite orb_false_r].
  rewrite Hs, Ht. destruct (ob_final v); simpl; by rewrite app_nil_r, app_assoc.
Qed.

(** A response to [id]. *)
Lemma event_extends {E} h o f id r h' s' k :
  handler_inv h o f → inject_event (E:=E) h (P2PEvent.Response id r) = Ok h' → chunk_or_term r →
  inbound_substreams h' !! id = Some (s', k) →
  ∃ s, inbound_substreams h !! id = Some (s, k) ∧ extends (view_of s (queue_of h id)) (view_of s' (queue_of h' id)) [r].
Proof.
  intros Hi Hev [Hmul Her] Hs'. cbn [inject_event] in Hev.
  destruct (inbound_substreams h !! id) as [[s k0]|] eqn:Hid; [|injection Hev as <-; congruence].
  destruct s as [w closing|fr|fr|].
  - rewrite Hmul in Hev. injection Hev as <-. cbn in Hs'. rewrite Hid in Hs'. injection Hs' as <- <-.
    eexists. split; [done|]. unfold queue_of. cbn -[before_term has_term]. rewrite lookup_insert_eq.
    cbn -[before_term has_term]. set (q := default [] _).
    split; cbn -[before_term has_term]; [|rewrite has_term_app; by destruct closing].
    destruct closing; cbn -[before_term has_term]; [done|]. rewrite before_term_app. by destruct (has_term q).
  - assert (Hq : queue_of h id = []) by exact (proj2 (hi_queue _ _ _ Hi) id fr k0 Hid).
    exists (InboundState.ResponseIdle fr). rewrite Hq.
    destruct r as [[]|e|e|e|t]; try done; try (by destruct Her); injection Hev as <-; cbn in Hs';
      rewrite lookup_insert_eq in Hs'; injection Hs' as <- <-; (split; [done|]); unfold queue_of in *; cbn;
      rewrite ?Hq, ?in_send_sending; done.
  - injection Hev as <-. rewrite Hid in Hs'. injection Hs' as <- <-. eexists. split; [done|]. by split.
  - discriminate Hev.
Qed.
Lemma event_other {E} h e h' id :
  inject_event (E:=E) h e = Ok h' → (∀ r, e ≠ P2PEvent.Response id r) → stream_kept h h' id.
Proof.
  intros Hev Hne. destruct e as [id' req|id' r|id' err]; cbn [inject_event] in Hev; [by injection Hev as <-| |by injection Hev as <-].
  assert (id' ≠ id) as Hid by (intros ->; by destruct (Hne r)).
  repeat case_match; simplify_eq; try done; try by apply set_inbound_state_kept.
  split; [done|]. unfold queue_of. cbn. by rewrite lookup_insert_ne.
Qed.

(** *** Substreams keep their numbers *)
Abbreviation cur := current_inbound_substream_id.
Definition keeps_cur (m : Step) h : Prop := ∀ h' ev, m = Ok (h', ev) → cur h' = cur h.
Lemma keeps_and_then m g h : keeps_cur m h → (∀ h1, cur h1 = cur h → keeps_cur (g h1) h) → keeps_cur (and_then m g) h.
Proof.
  intros Hm Hg h' ev He. unfold and_then in He. apply bind_Ok_inv in He as ([h1 e1] & H1 & He). cbn in He.
  specialize (Hm h1 e1 H1). destruct e1; [by injection He as <- <-|]. exact (Hg h1 Hm h' ev He).
Qed.
Lemma keeps_trans m h h1 : cur h1 = cur h → keeps_cur m h1 → keeps_cur m h.
Proof. intros He Hm h' ev Hk. rewrite <-He. eauto. Qed.
Lemma idle_cur now h : cur (idle_keep_alive now h) = cur h.
Proof. unfold idle_keep_alive. by case_match. Qed.
Lemma drop_inbound_cur {E} h id k h' : drop_inbound (E:=E) h id k = Ok h' → cur h' = cur h.
Proof. unfold drop_inbound. intros. by outcome_inv. Qed.
Lemma drop_outbound_cur {E} h id k h' : drop_outbound (E:=E) h id k = Ok h' → cur h' = cur h.
Proof. unfold drop_outbound. intros. by outcome_inv. Qed.
Lemma apply_queued_cur h id fr k : cur (apply_queued h id fr k).1 = cur h.
Proof. unfold apply_queued. destruct (apply_queued_responses _ _) as [[s [q|]] m]; done. Qed.
Lemma purge_inbound_cur fuel h : keeps_cur (purge_inbound fuel h) h.
Proof.
  revert h. induction fuel as [|fuel IH]; intros h h' ev He; simpl in He; [done|].
  destruct (dq_poll _) as [[[id|]| |e] d]; simplify_eq; [|done|done].
  apply bind_Ok_inv in He as (h1 & H1 & He). apply IH in He. rewrite He.
  unfold expire_inbound in H1. repeat case_match; outcome_inv; done.
Qed.
Lemma drive_inbound_once_cur now h id h' ev more :
  drive_inbound_once now h id = Ok (h', ev, more) → cur h' = cur h.
Proof.
  unfold drive_inbound_once. intros He.
  destruct (inbound_substreams h !! id) as [[[w closing|fr|fr|] k]|]; [..|done|done].
  - destruct (in_send_poll w) as [[raw| |e] w']; [destruct closing| |].
    + by injection He as <- <- <-.
    + pose proof (apply_queued_cur h id raw k) as Hc. destruct (apply_queued h id raw k). by injection He as <- <- <-.
    + by injection He as <- <- <-.
    + apply bind_Ok_inv in He as (h1 & H1%drop_inbound_cur & [= <- <- <-]). done.
  - pose proof (apply_queued_cur h id fr k) as Hc. destruct (apply_queued h id fr k). by injection He as <- <- <-.
  - destruct (in_close fr) as [[[]| |e] fr']; [|by injection He as <- <- <-|];
      apply bind_Ok_inv in He as (h1 & H1%drop_inbound_cur & [= <- <- <-]); by rewrite idle_cur.
Qed.
Lemma drive_inbound_cur now fuel h id : keeps_cur (drive_inbound_loop now fuel h id) h.
Proof.
  revert h. induction fuel as [|fuel IH]; intros h h' ev He; simpl in He; [done|].
  apply bind_Ok_inv in He as ([[h1 e1] more] & H1%drive_inbound_once_cur & He). cbn in He.
  destruct e1; [by injection He as <- <-|]. destruct more; [|by injection He as <- <-].
  apply IH in He. congruence.
Qed.
Lemma drive_outbound_cur now h id : keeps_cur (drive_outbound now h id) h.
Proof.
  intros h' ev He. unfold drive_outbound in He.
  destruct (outbound_substreams h !! id) as [[[out req|out|] k]|]; [| |done|done].
  - destruct (out_poll out) as [[[resp|]| |e] out'].
    + apply bind_Ok_inv in He as (h1 & H1 & [= <- <-]). case_match; outcome_inv; done.
    + apply bind_Ok_inv in He as (h1 & H1%drop_outbound_cur & He). destruct req; by injection He as <- <-.
    + by injection He as <- <-.
    + apply bind_Ok_inv in He as (h1 & H1%drop_outbound_cur & [= <- <-]). done.
  - destruct (out_close out) as [[[]| |e] out']; [|by injection He as <- <-|];
      apply bind_Ok_inv in He as (h1 & H1%drop_outbound_cur & [= <- <-]); by rewrite idle_cur.
Qed.
Lemma drive_all_cur drive h ids : (∀ h id, keeps_cur (drive h id) h) → keeps_cur (drive_all drive h ids) h.
Proof.
  intros Hd. revert h. induction ids as [|id ids IH]; intros h; [by intros h' ev [= <- <-]|].
  apply keeps_and_then; [apply Hd|]. intros h1 Hc. exact (keeps_trans _ h h1 Hc (IH h1)).
Qed.
Lemma poll_cur fuel now h : keeps_cur (poll fuel now h) h.
Proof.
  unfold poll. apply keeps_and_then; [|intros h1 H1; apply (keeps_trans _ h h1 H1); clear h H1].
  { intros h' ev He. unfold report_error in He. repeat case_match; unfold ready in He; by simplify_eq. }
  apply keeps_and_then; [|intros h2 H2; apply (keeps_trans _ h1 h2 H2); clear h1 H2].
  { intros h' ev He. unfold report_event in He. repeat case_match; unfold ready in He; by simplify_eq. }
  apply keeps_and_then; [apply purge_inbound_cur|intros h3 H3; apply (keeps_trans _ h2 h3 H3); clear h2 H3].
  apply keeps_and_then; [|intros h4 H4; apply (keeps_trans _ h3 h4 H4); clear h3 H4].
  { intros h' ev He. unfold purge_outbound in He. repeat case_match; unfold ready in He; by simplify_eq. }
  apply keeps_and_then; [|intros h5 H5; apply (keeps_trans _ h4 h5 H5); clear h4 H5].
  { apply drive_all_cur. intros h id. apply drive_inbound_cur. }
  apply keeps_and_then; [|intros h6 H6; apply (keeps_trans _ h5 h6 H6); clear h5 H6].
  { apply drive_all_cur. intros h id. apply drive_outbound_cur. }
  intros h' ev He. unfold dial in He. destruct (dial_queue h6) as [|e q]; [by injection He as <- <-|].
  case_decide; [|by injection He as <- <-]. apply bind_Ok_inv in He as (n & _ & He).
  destruct e; by injection He as <- <-.
Qed.
Lemma inbound_negotiated_kept {E} now h req s h' id :
  inject_fully_negotiated_inbound (E:=E) now h req s = Ok h' → 1 ≤ cur h → cur h + 1 < 2 ^ 64 → id < cur h →
  stream_kept h h' id ∧ cur h ≤ cur h'.
Proof.
  intros Hh H1 Hmax Hlt. unfold inject_fully_negotiated_inbound in Hh.
  set (h1 := match keep_alive h with KeepAlive.Until _ => _ | _ => h end) in Hh.
  assert (Hp : inbound_substreams h1 = inbound_substreams h ∧ queued_outbound_items h1 = queued_outbound_items h ∧ cur h1 = cur h)
    by (unfold h1; destruct (keep_alive h); done).
  clearbody h1. destruct Hp as (Hp1 & Hp2 & Hp3). destruct (dq_insert _ _ _) as [key d].
  unfold add_u in Hh. rewrite arith_in in Hh by (unfold in_u; lia).
  unfold stream_kept, queue_of.
  destruct req; simpl in Hh; injection Hh as <-; cbn; rewrite ?Hp1, ?Hp2, ?Hp3, ?lookup_insert_ne by lia; (split; [done|lia]).
Qed.
Lemma outbound_negotiated_kept {E} now h out e h' id :
  inject_fully_negotiated_outbound (E:=E) now h out e = Ok h' → stream_kept h h' id ∧ cur h' = cur h.
Proof.
  unfold inject_fully_negotiated_outbound. intros Hh. apply bind_Ok_inv in Hh as (n & _ & Hh).
  destruct (_ && _ && _), e as [id' req| |]; cbn in Hh; try destruct (P2PRequest.expect_response req);
    try destruct (dq_insert _ _ _); by injection Hh as <-.
Qed.
Lemma dial_error_kept {E} h e err h' id :
  inject_dial_upgrade_error (E:=E) h e err = Ok h' → stream_kept h h' id ∧ cur h' = cur h.
Proof.
  unfold inject_dial_upgrade_error. intros Hh. destruct err as [| | |[]]; try by injection Hh as <-.
  apply bind_Ok_inv in Hh as (n & _ & Hh). case_decide; by injection Hh as <-.
Qed.
Lemma event_cur {E} h e h' : inject_event (E:=E) h e = Ok h' → cur h' = cur h.
Proof.
  intros Hev. destruct e as [id' req|id' r|id' err]; cbn [inject_event] in Hev; [by injection Hev as <-| |by injection Hev as <-].
  repeat case_match; by simplify_eq.
Qed.
Lemma conn_step_cur c op c' ev :
  conn_inv c → op_allowed c op → conn_step c op = Ok (c', ev) → cur (cn_handler c) ≤ cur (cn_handler c').
Proof.
  intros Hi Ha Hs. pose proof (hi_id _ _ _ Hi).
  destruct op as [now req s|now out e|e|e err|fuel now]; simpl in Hs, Ha; apply bind_Ok_inv in Hs as (h' & Hh & [= <- <-]); simpl.
  - destruct (inbound_negotiated_kept now _ req s h' 0 Hh) as [_ ?]; lia.
  - by destruct (outbound_negotiated_kept now _ out e h' 0 Hh) as [_ ->].
  - by rewrite (event_cur _ e h' Hh).
  - by destruct (dial_error_kept _ e err h' 0 Hh) as [_ ->].
  - destruct h' as [h' ev']. cbn. by rewrite (poll_cur fuel now _ h' ev' Hh).
Qed.

Lemma conn_step_extends c op c' ev id s' k :
  conn_inv c → op_allowed c op → conn_step c op = Ok (c', ev) → id < cur (cn_handler c) →
  Forall chunk_or_term (op_answers id op) →
  inbound_substreams (cn_handler c') !! id = Some (s', Some k) →
  ∃ s, inbound_substreams (cn_handler c) !! id = Some (s, Some k) ∧
    extends (view_of s (queue_of (cn_handler c) id)) (view_of s' (queue_of (cn_handler c') id)) (op_answers id op).
Proof.
  intros Hi Ha Hs Hlt Hch Hs'. pose proof (hi_id _ _ _ Hi) as Hid.
  assert (Hkept : stream_kept (cn_handler c) (cn_handler c') id → op_answers id op = [] →
    ∃ s, inbound_substreams (cn_handler c) !! id = Some (s, Some k) ∧
    extends (view_of s (queue_of (cn_handler c) id)) (view_of s' (queue_of (cn_handler c') id)) (op_answers id op)).
  { intros [Hin Hq] ->. rewrite Hin in Hs'. rewrite Hq. eauto using flows_extends, flows_refl. }
  destruct op as [now req s|now out e|e|e err|fuel now]; simpl in Hs, Ha; apply bind_Ok_inv in Hs as (h' & Hh & [= <- <-]); simpl in Hs'.
  - apply Hkept; [|done]. by apply (inbound_negotiated_kept now _ req s h' id Hh); [lia..|].
  - apply Hkept; [|done]. by apply (outbound_negotiated_kept now _ out e h' id Hh).
  - destruct e as [id' req|id' r|id' err]; [apply Hkept; [by apply (event_other _ _ h' id Hh)|done]| |apply Hkept; [by apply (event_other _ _ h' id Hh)|done]].
    cbn [op_answers] in *. case_decide as Heq.
    + subst id'. apply Forall_cons in Hch as [Hch _]. exact (event_extends _ _ _ id r h' s' (Some k) Hi Hh Hch Hs').
    + apply Hkept; [|done]. eapply event_other; [done|]. intros r' [= ? _]. done.
  - apply Hkept; [|done]. by apply (dial_error_kept _ e err h' id Hh).
  - pose proof (poll_safe fuel now _ _ _ Hi Ha) as Hp. rewrite Hh in Hp. destruct h' as [h' ev']. destruct Hp as [_ Hm].
    destruct (Hm id s' k Hs') as (s & Hss & Hf). exists s. split; [done|]. by apply flows_extends.
Qed.
Lemma conn_run_extends c ops c' id s' k :
  conn_inv c → conn_run c ops c' → id < cur (cn_handler c) → Forall chunk_or_term (answers id ops) →
  inbound_substreams (cn_handler c') !! id = Some (s', Some k) →
  ∃ s, inbound_substreams (cn_handler c) !! id = Some (s, Some k) ∧
    extends (view_of s (queue_of (cn_handler c) id)) (view_of s' (queue_of (cn_handler c') id)) (answers id ops).
Proof.
  intros Hi Hr. revert Hi. induction Hr as [c|c op c1 ev ops c2 Ha Hs Hr IH]; intros Hi Hlt Hch Hs'.
  { eauto using flows_extends, flows_refl. }
  cbn in Hch. apply Forall_app in Hch as [Hop Hch].
  pose proof (conn_step_safe c op Hi Ha) as Hi1. rewrite Hs in Hi1. pose proof (conn_step_cur c op c1 ev Hi Ha Hs).
  destruct (IH Hi1 ltac:(lia) Hch Hs') as (s1 & Hs1 & He1).
  destruct (conn_step_extends c op c1 ev id s1 k Hi Ha Hs Hlt Hop Hs1) as (s & Hss & He).
  eauto using extends_trans.
Qed.
End Connection.

(** ** Theorems *)
Section HandlerTheorems.
Context `{FR : Framed, DQL : DelayQueueLaws Z, KO : KeyOrder, KL : !KeyOrderLaws, FL : !FramedLaws, P : Profile}.

(** C34: Whatever libp2p and the application do with a connection, its tables and timers stay
    consistent and no call panics: no substream is left poisoned, no timer is removed
    twice, no counter overflows, and the loops end. *)
Theorem handler_reachable t ops c op :
  conn_run (start t) ops c → op_allowed c op → conn_inv c ∧ conn_step c op ≠ Panic.
Proof.
  intros Hr Ha. pose proof (conn_run_inv _ _ _ (start_inv t) Hr) as Hi. split; [done|].
  intros Hp. pose proof (conn_step_safe c op Hi Ha) as Hs. by rewrite Hp in Hs.
Qed.

(** C35: The responses to a request are written in the order the application gave them, up to
    the first termination, and none is lost or written twice, as long as the substream is
    there and its timer is running; when it is closing, all of them have been written. *)
Theorem responses_in_order c ops c' id fr s' k :
  conn_inv c → conn_run c ops c' →
  inbound_substreams (cn_handler c) !! id = Some (InboundState.ResponseIdle fr, Some k) → in_sent fr = [] →
  Forall chunk_or_term (answers id ops) →
  inbound_substreams (cn_handler c') !! id = Some (s', Some k) →
  let v := view_of s' (queue_of (cn_handler c') id) in
  ob_sent v ++ ob_todo v = before_term (answers id ops) ∧
  (∀ fr', s' = InboundState.Closing fr' → in_sent fr' = before_term (answers id ops) ∧ has_term (answers id ops) = true).
Proof.
  intros Hi Hr Hid Hfr Hch Hs'.
  destruct (proj1 (hi_in _ _ _ Hi) id _ _ Hid) as (_ & Hlt & _).
  destruct (conn_run_extends c ops c' id s' k Hi Hr ltac:(lia) Hch Hs') as (s & Hs & [He Hf]).
  rewrite Hid in Hs. injection Hs as <-.
  assert (Hq : queue_of (cn_handler c) id = []) by exact (proj2 (hi_queue _ _ _ Hi) id fr _ Hid).
  rewrite Hq in He, Hf. cbn -[before_term has_term] in He, Hf. rewrite Hfr in He. split; [exact He|].
  intros fr' ->. simpl in He, Hf. by rewrite app_nil_r in He.
Qed.

(** C36: A failed negotiation never gives its slot back: after eight of them no request is
    sent on the connection any more, whatever happens. *)
Theorem failed_dials_block_requests t ops c ops' c' fuel now c'' ev :
  conn_run (start t) ops c → 8 ≤ failures ops → conn_run c ops' c' →
  op_allowed c' (Polled fuel now) → conn_step c' (Polled fuel now) = Ok (c'', Some ev) →
  ∃ e, ev = HandlerEvent.Custom e.
Proof.
  intros Hr Hf Hr' Ha Hs.
  pose proof (conn_run_inv _ _ _ (start_inv t) Hr) as Hi.
  pose proof (conn_run_inv _ _ _ Hi Hr') as Hi'.
  pose proof (conn_step_safe c' _ Hi' Ha) as Hi''. rewrite Hs in Hi''.
  apply conn_run_failed in Hr, Hr'. simpl in Hr.
  assert (0 ≤ failures ops') by (unfold failures; lia).
  pose proof (hi_slots _ _ _ Hi') as Hs'. pose proof (hi_slots _ _ _ Hi'') as Hs''.
  simpl in Hs. apply bind_Ok_inv in Hs as ([h'' ev'] & _ & Hs). cbn in Hs. injection Hs as <- Hev. subst ev'.
  simpl in Hs''. destruct ev as [e|req info]; [eauto|]. simpl in Hs''. lia.
Qed.

(** Requests are told apart by the id the application chose.  A second request under the
    same id takes the place of the first, whose responses are never read, but the
    timer of the first stays: when it goes off, the second substream is dropped, and a
    timer remains for a request that is no longer there. *)
Theorem duplicate_request_id h o f id s1 k1 now out req h' :
  handler_inv h o f → 0 < o → P2PRequest.expect_response req = true →
  outbound_substreams h !! id = Some (s1, k1) →
  inject_fully_negotiated_outbound (E:=UpgrErr) now h out (P2PEvent.Request id req) = Ok h' →
  (∃ k2, outbound_substreams h' !! id = Some (OutboundState.RequestPendingResponse out req, k2) ∧ k2 ≠ k1 ∧
     dq_view (outbound_substreams_delay h') !! k1 = Some id ∧ dq_view (outbound_substreams_delay h') !! k2 = Some id) ∧
  ∀ d, dq_poll (outbound_substreams_delay h') = (Poll.Ready (Some id), d) →
  ∃ h'' k, purge_outbound h' = Ok (h'', Some (HandlerEvent.Custom (P2PEvent.Error id P2PError.Custom))) ∧
    outbound_substreams h'' !! id = None ∧ dq_view (outbound_substreams_delay h'') !! k = Some id.
Proof.
  intros Hi Ho Hreq Hid Hh. pose proof Hi as [_ Hout _ _ Hd Hsl _ _ _].
  destruct (Hout id s1 k1 Hid) as [_ Hk1].
  unfold inject_fully_negotiated_outbound, sub_u in Hh. rewrite arith_in in Hh by (unfold in_u; lia).
  rewrite bind_Ok, Hreq in Hh.
  set (h1 := if _ && _ && _ then _ else _) in Hh.
  assert (Hp : outbound_substreams h1 = outbound_substreams h ∧ outbound_substreams_delay h1 = outbound_substreams_delay h)
    by (unfold h1; by destruct (_ && _ && _)).
  clearbody h1. destruct Hp as [Hp1 Hp2]. rewrite Hp1, Hp2 in Hh.
  destruct (dq_insert_view (outbound_substreams_delay h) id (from_secs RESPONSE_TIMEOUT)) as [Hfr Hv].
  destruct (dq_insert _ _ _) as [k2 d2]. cbn [fst snd] in Hfr, Hv. injection Hh as <-.
  assert (Hne : k2 ≠ k1) by congruence.
  assert (Hv1 : dq_view d2 !! k1 = Some id) by (rewrite Hv, lookup_insert_ne; done).
  assert (Hv2 : dq_view d2 !! k2 = Some id) by (rewrite Hv, lookup_insert_eq; done).
  split.
  - exists k2. cbn. rewrite lookup_insert_eq. done.
  - cbn. intros d Hpoll. pose proof (dq_poll_view d2) as Hpv. rewrite Hpoll in Hpv. destruct Hpv as (k & Hk & Hdel).
    unfold purge_outbound. cbn. rewrite Hpoll. cbn in Hdel.
    exists (set_outbound h1 (delete id (<[id := (OutboundState.RequestPendingResponse out req, k2)]> (outbound_substreams h))) d),
      (if decide (k = k1) then k2 else k1).
    split; [done|]. cbn. rewrite lookup_delete_eq, Hdel. split; [done|].
    case_decide; subst; by rewrite lookup_delete_ne.
Qed.
End HandlerTheorems.

(** ** Worked examples *)
Module ConnEx.
(** Substreams that flush at once and stay open, and requests answered from a list. *)
#[export] Instance example_framed : Framed := {|
  InboundFramed := list P2PErrorResponse;
  InboundSend := list P2PErrorResponse * P2PErrorResponse;
  OutboundFramed := list P2PErrorResponse;
  in_poll s := (Poll.NotReady, s);
  in_send s r := (s, r);
  in_send_poll w := (Poll.Ready (w.1 ++ [w.2]), w);
  in_close s := (Poll.NotReady, s);
  out_poll s := match s with [] => (Poll.Ready None, []) | r :: s => (Poll.Ready (Some r), s) end;
  out_close s := (Poll.Ready tt, s);
|}.
#[export] Instance example_framed_laws : FramedLaws.
Proof. refine {| in_sent := λ s, s; in_sending := λ w, w |}; done. Defined.

(** Timers that never go off. *)
Definition next_key (m : gmap positive Z) : positive := Pos.succ (map_fold (λ k _ a, Pos.max k a) 1%positive m).
Lemma next_key_fresh m : m !! next_key m = None.
Proof.
  assert (Hle : ∀ k x, m !! k = Some x → (k ≤ map_fold (λ k _ a, Pos.max k a) 1 m)%positive).
  { revert m. apply (map_fold_weak_ind (λ b m, ∀ k x, m !! k = Some x → (k ≤ b)%positive)); [by intros * ?%lookup_empty_Some|].
    intros i x m b Hi IH k y. rewrite lookup_insert_Some. intros [[<- _]|[_ Hk]]; [lia|]. specialize (IH k y Hk). lia. }
  destruct (m !! next_key m) as [x|] eqn:Hx; [|done]. specialize (Hle _ _ Hx). unfold next_key in Hle. lia.
Qed.
#[export] Instance example_dq : DelayQueue Z := {|
  dq := gmap positive Z;
  dq_key := positive;
  dq_new := ∅;
  dq_insert q id _ := (next_key q, <[next_key q := id]> q);
  dq_remove q k := if q !! k then Some (delete k q) else None;
  dq_reset q k _ := if q !! k then Some q else None;
  dq_poll q := (Poll.NotReady, q);
|}.
#[export] Instance example_dq_laws : DelayQueueLaws Z.
Proof.
  refine (Build_DelayQueueLaws Z example_dq (_ : EqDecision positive) (_ : Countable positive) (λ q, q) _ _ _ _ _); simpl; try done.
  - intros q id d. split; [apply next_key_fresh|done].
  - intros q k id ->. eauto.
  - intros q k id d ->. eauto.
Defined.
#[export] Instance example_keys : KeyOrder := λ A m, (map_to_list m).*1.
#[export] Instance example_keys_laws : KeyOrderLaws.
Proof. intros A m. done. Qed.
#[export] Existing Instance Dev.

#[export] Instance op_allowed_dec c op : Decision (op_allowed c op).
Proof. destruct op as [| | |[]|]; simpl; apply _. Defined.
Fixpoint exec (c : conn) (ops : list conn_op) : option conn :=
  match ops with
  | [] => Some c
  | op :: ops =>
      if decide (op_allowed c op) then
        match conn_step c op with Ok (c', _) => exec c' ops | _ => None end
      else None
  end.
Lemma exec_run c ops c' : exec c ops = Some c' → conn_run c ops c'.
Proof.
  revert c. induction ops as [|op ops IH]; intros c; simpl; [intros [= ->]; constructor|].
  case_decide as Ha; [|done]. destruct (conn_step c op) as [[c1 ev]| |] eqn:Hs; [|done..]. intros Hx.
  exact (run_cons _ _ _ _ _ _ Ha Hs (IH c1 Hx)).
Qed.
Definition get (o : option conn) : conn := default (start 30) o.

Definition goodbye : P2PRequest := P2PRequest.Goodbye GoodbyeReason.Fault.
Definition by_range : P2PRequest := P2PRequest.BlocksByRange (mkBlocksByRangeRequest Hash_default 0 2 1).
Definition block (n : Z) : P2PErrorResponse := P2PErrorResponse.Success (P2PResponse.BlocksByRange [n]).
Definition stop : P2PErrorResponse := P2PErrorResponse.StreamTermination ResponseTermination.BlocksByRange.
(** A peer asks for blocks. *)
Definition opens : conn_op := InboundNegotiated 0 by_range [].
Definition asked : conn := get (exec (start 30) [opens]).
(** It is sent two, the end, and one too many. *)
Definition served : list conn_op :=
  [AppEvent (P2PEvent.Response 1 (block 7)); AppEvent (P2PEvent.Response 1 (block 8)); Polled 3 1; Polled 3 1;
   AppEvent (P2PEvent.Response 1 stop); AppEvent (P2PEvent.Response 1 (block 9)); Polled 3 2].
(** Eight requests that libp2p cannot negotiate, the error of the last not yet polled. *)
Definition failing : list conn_op :=
  concat (replicate 8 [AppEvent (P2PEvent.Request 0 by_range); Polled 3 0; Polled 3 0; DialFailed (P2PEvent.Request 0 by_range) UpgrErr.Timeout]).
(** A request under an id in use. *)
Definition asks_twice : list conn_op :=
  [AppEvent (P2PEvent.Request 0 by_range); AppEvent (P2PEvent.Request 0 by_range); Polled 3 0; Polled 3 0;
   OutboundNegotiated 0 [stop] (P2PEvent.Request 0 by_range)].
Definition twice : conn := get (exec (start 30) asks_twice).
Definition once : OutboundFramed := [stop].
Definition unwritten : InboundFramed := [].
Definition written : InboundFramed := [block 7; block 8].
End ConnEx.

Section ConnWitnesses.
Import ConnEx.

Lemma handler_reachable_witness :
  ∃ c, conn_run (start 30) (opens :: served) c ∧ conn_inv c ∧
    conn_step c (Polled 3 5) ≠ Panic.
Proof.
  exists (get (exec (start 30) (opens :: served))).
  assert (Hr : conn_run (start 30) (opens :: served)
    (get (exec (start 30) (opens :: served)))) by (apply exec_run; vm_compute; reflexivity).
  split; [exact Hr|]. apply (handler_reachable 30 _ _ (Polled 3 5) Hr). vm_compute. lia.
Defined.

Lemma responses_in_order_witness :
  ∃ c' fr', conn_run asked served c' ∧
    inbound_substreams (cn_handler c') !! 1 = Some (InboundState.Closing fr', Some 2%positive) ∧ fr' = written.
Proof.
  assert (Hr : conn_run asked served (get (exec asked served))) by (apply exec_run; vm_compute; reflexivity).
  assert (Ha : conn_run (start 30) [opens] asked) by (apply exec_run; vm_compute; reflexivity).
  exists (get (exec asked served)), written. split; [exact Hr|]. split; [vm_compute; reflexivity|].
  destruct (responses_in_order asked served (get (exec asked served)) 1 unwritten (InboundState.Closing written) 2%positive)
    as [_ Hc].
  - exact (conn_run_inv _ _ _ (start_inv 30) Ha).
  - exact Hr.
  - vm_compute. reflexivity.
  - reflexivity.
  - vm_compute. repeat (constructor; [split; [reflexivity|first [left; reflexivity|right; reflexivity]]|]). constructor.
  - vm_compute. reflexivity.
  - exact (proj1 (Hc _ eq_refl)).
Defined.

Lemma failed_dials_block_requests_witness :
  ∃ c c' ev, conn_run (start 30) failing c ∧ conn_step c (Polled 3 0) = Ok (c', Some ev) ∧
    ∃ e, ev = HandlerEvent.Custom e.
Proof.
  set (c := get (exec (start 30) failing)).
  assert (Hr : conn_run (start 30) failing c) by (apply exec_run; vm_compute; reflexivity).
  assert (Hok : match conn_step c (Polled 3 0) with Ok (_, Some _) => true | _ => false end = true) by (vm_compute; reflexivity).
  destruct (conn_step c (Polled 3 0)) as [[c' [ev|]]|e|] eqn:Hs; [|discriminate Hok..].
  exists c, c', ev. split; [exact Hr|]. split; [exact Hs|].
  apply (failed_dials_block_requests 30 failing c [] c 3 0 c' ev Hr); [vm_compute; discriminate|constructor|vm_compute; lia|exact Hs].
Defined.

Lemma duplicate_request_id_witness :
  ∃ h' k2, inject_fully_negotiated_outbound (E:=UpgrErr) 1 (cn_handler twice) once (P2PEvent.Request 0 by_range) = Ok h' ∧
    outbound_substreams h' !! 0 = Some (OutboundState.RequestPendingResponse once by_range, k2) ∧ k2 ≠ 2%positive.
Proof.
  assert (Hi : conn_inv twice).
  { apply (conn_run_inv (start 30) asks_twice twice (start_inv 30)). apply exec_run. vm_compute. reflexivity. }
  destruct (is_ok_inv (inject_fully_negotiated_outbound (E:=UpgrErr) 1 (cn_handler twice) once (P2PEvent.Request 0 by_range)))
    as [h' Hh]; [vm_compute; reflexivity|].
  destruct (duplicate_request_id (cn_handler twice) (cn_opening twice) (cn_failed twice) 0
    (OutboundState.RequestPendingResponse once by_range) 2%positive 1 once by_range h' Hi) as [(k2 & Hk & Hne & _) _].
  - vm_compute. reflexivity.
  - reflexivity.
  - vm_compute. reflexivity.
  - exact Hh.
  - exists h', k2. split; [exact Hh|]. split; [exact Hk|exact Hne].
Defined.
End ConnWitnesses.
