(* ===== verification/NetService.v ===== *)
(** * NetService: the network thread (src/network/src/service.rs, behaviour.rs, manager.rs)

    libp2p's swarm drives the behaviour of this node: gossip, the request protocol
    ([P2P]) and discovery.  The service turns its events into messages for the message
    handler, keeps track of peers, dials the nodes that discovery finds and bans peers
    for a while.  The network thread moves messages between the channels and the
    service.

    The swarm, gossipsub, Kademlia, the cache of seen messages and the timers are
    third-party code and parameters. *)
From Stdlib Require String.
From S2P Require Import Prelude Hashing Types Codec Keys Transaction Block Messages Handler P2PHandler.
Import (notations) String.

Module ConnectedPoint.
Inductive t : Type := Dialer | Listener.
End ConnectedPoint.
Abbreviation ConnectedPoint := ConnectedPoint.t.

(** ** The request protocol of the swarm (src/network/src/p2p/mod.rs) *)
Module P2PMessage.
Inductive t (Peer : Type) : Type :=
  | P2P (p : Peer) (e : P2PEvent)
  | InjectConnect (p : Peer) (point : ConnectedPoint)
  | PeerDisconnected (p : Peer).
Arguments P2P {Peer}. Arguments InjectConnect {Peer}. Arguments PeerDisconnected {Peer}.
End P2PMessage.
Abbreviation P2PMessage := P2PMessage.t.
(** [NetworkBehaviourAction], the two kinds that occur. *)
Module BehaviourAction.
Inductive t (Peer Out : Type) : Type := SendEvent (p : Peer) (e : P2PEvent) | GenerateEvent (e : Out).
Arguments SendEvent {Peer Out}. Arguments GenerateEvent {Peer Out}.
End BehaviourAction.
Abbreviation BehaviourAction := BehaviourAction.t.

Record P2P (Peer : Type) : Type := mkP2P { p2p_events : list (BehaviourAction Peer (P2PMessage Peer)) }.
Arguments mkP2P {Peer}. Arguments p2p_events {Peer}.
Module P2P.
Section P2P.
Context {Peer : Type}.
Implicit Types (b : P2P Peer) (p : Peer).
Definition new : P2P Peer := mkP2P [].
Definition push b a : P2P Peer := mkP2P (p2p_events b ++ [a]).
Definition send_rpc b p (e : P2PEvent) : P2P Peer := push b (BehaviourAction.SendEvent p e).
Definition new_handler `{Framed, DelayQueue Z} : P2PHandler := P2PHandler.new (from_secs 30).
Definition inject_connected b p (point : ConnectedPoint) : P2P Peer :=
  push b (BehaviourAction.GenerateEvent (P2PMessage.InjectConnect p point)).
Definition inject_disconnected b p : P2P Peer := push b (BehaviourAction.GenerateEvent (P2PMessage.PeerDisconnected p)).
Definition inject_node_event b p (e : P2PEvent) : P2P Peer :=
  push b (BehaviourAction.GenerateEvent (P2PMessage.P2P p e)).
Definition poll b : option (BehaviourAction Peer (P2PMessage Peer)) * P2P Peer :=
  match p2p_events b with
  | e :: events => (Some e, mkP2P events)
  | [] => (None, b)
  end.
End P2P.
End P2P.

(** ** The behaviour (src/network/src/behaviour.rs) *)
Module BehaviourEvent.
Inductive t (Peer MsgId Addr : Type) : Type :=
  | RPC (p : Peer) (e : P2PEvent)
  | InjectConnect (p : Peer) (point : ConnectedPoint)
  | PeerDisconnected (p : Peer)
  | GossipMessage (id : MsgId) (source : Peer) (topics : list bytes) (message : PubsubMessage)
  | FindPeers (p : Peer) (addrs : list Addr).
Arguments RPC {Peer MsgId Addr}. Arguments InjectConnect {Peer MsgId Addr}. Arguments PeerDisconnected {Peer MsgId Addr}.
Arguments GossipMessage {Peer MsgId Addr}. Arguments FindPeers {Peer MsgId Addr}.
End BehaviourEvent.
Abbreviation BehaviourEvent := BehaviourEvent.t.

(** Gossipsub: [subscribe], [publish], [propagate_message]; Kademlia: [add_address],
    [get_closest_peers]; the LRU cache of a given capacity: [put] says whether the key
    was there. *)
Class Discovery (Peer MsgId Addr : Type) : Type := {
  Gossipsub : Type;
  gs_subscribe : Gossipsub → bytes → bool * Gossipsub;
  gs_publish : Gossipsub → bytes → bytes → Gossipsub;
  gs_propagate : Gossipsub → MsgId → Peer → Gossipsub;
  Kademlia : Type;
  kad_add_address : Kademlia → Peer → Addr → Kademlia;
  kad_get_closest_peers : Kademlia → Peer → Kademlia;
  LruCache : Type;
  lru_new : Z → LruCache;
  lru_put : LruCache → MsgId → bool * LruCache;
}.
Module GossipsubEvent.
Inductive t (Peer MsgId : Type) : Type :=
  | Message (propagation_source : Peer) (id : MsgId) (topics : list bytes) (data : bytes)
  | Subscribed (p : Peer) (topic : bytes)
  | Unsubscribed.
Arguments Message {Peer MsgId}. Arguments Subscribed {Peer MsgId}. Arguments Unsubscribed {Peer MsgId}.
End GossipsubEvent.
Module MdnsEvent.
Inductive t (Peer Addr : Type) : Type := Discovered (l : list (Peer * Addr)) | Expired (l : list (Peer * Addr)).
Arguments Discovered {Peer Addr}. Arguments Expired {Peer Addr}.
End MdnsEvent.
Module KademliaEvent.
Inductive t (Peer Addr : Type) : Type :=
  | GetClosestPeersResult
  | RoutingUpdated (peer : Peer) (addresses : list Addr)
  | Other.
Arguments GetClosestPeersResult {Peer Addr}. Arguments RoutingUpdated {Peer Addr}. Arguments Other {Peer Addr}.
End KademliaEvent.

Record Behaviour (Peer MsgId Addr : Type) `{Discovery Peer MsgId Addr} : Type := mkBehaviour {
  gossipsub : Gossipsub;
  bh_p2p : P2P Peer;
  kademlia : Kademlia;
  bh_events : list (BehaviourEvent Peer MsgId Addr);
  seen_gossip_messages : LruCache;
}.
Arguments mkBehaviour {Peer MsgId Addr _}. Arguments gossipsub {Peer MsgId Addr _}. Arguments bh_p2p {Peer MsgId Addr _}.
Arguments kademlia {Peer MsgId Addr _}. Arguments bh_events {Peer MsgId Addr _}. Arguments seen_gossip_messages {Peer MsgId Addr _}.

Module Behaviour.
Section Behaviour.
Context {Peer MsgId Addr : Type} `{D : !Discovery Peer MsgId Addr}.
Implicit Types (b : Behaviour Peer MsgId Addr).

(** Over the configured gossipsub and Kademlia. *)
Definition new (g : Gossipsub) (k : Kademlia) : Behaviour Peer MsgId Addr := mkBehaviour g P2P.new k [] (lru_new 100000).

Definition push b e := mkBehaviour (gossipsub b) (bh_p2p b) (kademlia b) (bh_events b ++ [e]) (seen_gossip_messages b).
Definition set_gossipsub b g := mkBehaviour g (bh_p2p b) (kademlia b) (bh_events b) (seen_gossip_messages b).
Definition set_kademlia b k := mkBehaviour (gossipsub b) (bh_p2p b) k (bh_events b) (seen_gossip_messages b).

Definition inject_gossipsub b (event : GossipsubEvent.t Peer MsgId) : Behaviour Peer MsgId Addr :=
  match event with
  | GossipsubEvent.Message propagation_source id topics data =>
      let msg := PubsubMessage.from_topics topics data in
      let (seen, cache) := lru_put (seen_gossip_messages b) id in
      let b := mkBehaviour (gossipsub b) (bh_p2p b) (kademlia b) (bh_events b) cache in
      if seen then b else push b (BehaviourEvent.GossipMessage id propagation_source topics msg)
  | GossipsubEvent.Subscribed _ _ => b
  | GossipsubEvent.Unsubscribed => b
  end.
Definition inject_p2p b (event : P2PMessage Peer) : Behaviour Peer MsgId Addr :=
  match event with
  | P2PMessage.InjectConnect p point => push b (BehaviourEvent.InjectConnect p point)
  | P2PMessage.PeerDisconnected p => push b (BehaviourEvent.PeerDisconnected p)
  | P2PMessage.P2P p e => push b (BehaviourEvent.RPC p e)
  end.
Fixpoint add_addresses (k : Kademlia) (l : list (Peer * Addr)) : Kademlia :=
  match l with [] => k | (p, a) :: l => add_addresses (kad_add_address k p a) l end.
Definition inject_mdns b (event : MdnsEvent.t Peer Addr) : Behaviour Peer MsgId Addr :=
  match event with
  | MdnsEvent.Discovered l => set_kademlia b (add_addresses (kademlia b) l)
  | MdnsEvent.Expired _ => b
  end.
Definition inject_kademlia b (message : KademliaEvent.t Peer Addr) : Behaviour Peer MsgId Addr :=
  match message with
  | KademliaEvent.GetClosestPeersResult => b
  | KademliaEvent.RoutingUpdated peer addresses => push b (BehaviourEvent.FindPeers peer addresses)
  | KademliaEvent.Other => b
  end.
Definition poll b : option (BehaviourEvent Peer MsgId Addr) * Behaviour Peer MsgId Addr :=
  match bh_events b with
  | e :: events => (Some e, mkBehaviour (gossipsub b) (bh_p2p b) (kademlia b) events (seen_gossip_messages b))
  | [] => (None, b)
  end.

Definition subscribe b (topic : bytes) : bool * Behaviour Peer MsgId Addr :=
  let (r, g) := gs_subscribe (gossipsub b) topic in (r, set_gossipsub b g).
Fixpoint publish_all (g : Gossipsub) (topics : list bytes) (data : bytes) : Gossipsub :=
  match topics with [] => g | topic :: topics => publish_all (gs_publish g topic data) topics data end.
Definition publish b (topics : list bytes) (message : PubsubMessage) : Behaviour Peer MsgId Addr :=
  set_gossipsub b (publish_all (gossipsub b) topics (PubsubMessage.into_data message)).
Definition query_kad b (to_search : Peer) : Behaviour Peer MsgId Addr :=
  set_kademlia b (kad_get_closest_peers (kademlia b) to_search).
Definition propagate_message b (propagation_source : Peer) (message_id : MsgId) : Behaviour Peer MsgId Addr :=
  set_gossipsub b (gs_propagate (gossipsub b) message_id propagation_source).
Definition send_rpc b (p : Peer) (e : P2PEvent) : Behaviour Peer MsgId Addr :=
  mkBehaviour (gossipsub b) (P2P.send_rpc (bh_p2p b) p e) (kademlia b) (bh_events b) (seen_gossip_messages b).
(** It only prints. *)
Definition inject_disconnected b (p : Peer) : Behaviour Peer MsgId Addr := b.
End Behaviour.
End Behaviour.

(** ** The service (src/network/src/service.rs) *)
Definition BAN_PEER_WAIT_TIMEOUT : Z := 200.
Definition BAN_PEER_TIMEOUT : Z := 30.

Module DialStatus.
Inductive t : Type := Connected | Dial | Dialing | Disconnected | Unknown.
#[global] Instance eq_dec : EqDecision t.
Proof. solve_decision. Defined.
End DialStatus.
Abbreviation DialStatus := DialStatus.t.
Record DialNode (Addr : Type) : Type := mkDialNode { addrs : list Addr; dial_state : DialStatus }.
Arguments mkDialNode {Addr}. Arguments addrs {Addr}. Arguments dial_state {Addr}.

Module Libp2pEvent.
Inductive t (Peer MsgId : Type) : Type :=
  | RPC (p : Peer) (e : P2PEvent)
  | PeerDialed (p : Peer)
  | PeerDisconnected (p : Peer)
  | PubsubMessage (id : MsgId) (source : Peer) (topics : list bytes) (message : PubsubMessage).
Arguments RPC {Peer MsgId}. Arguments PeerDialed {Peer MsgId}. Arguments PeerDisconnected {Peer MsgId}.
Arguments PubsubMessage {Peer MsgId}.
End Libp2pEvent.
Abbreviation Libp2pEvent := Libp2pEvent.t.

(** The swarm holds the behaviour, and is polled for its events; an address is text
    when it is looked at; a hash map is iterated in some order; an interval ticks. *)
Class Swarm (Peer MsgId Addr : Type) `{Discovery Peer MsgId Addr, Countable Peer} : Type := {
  swarm_t : Type;
  swarm_poll : swarm_t → Poll (option (BehaviourEvent Peer MsgId Addr)) * swarm_t;
  swarm_dial_addr : swarm_t → Addr → bool * swarm_t;
  swarm_ban : swarm_t → Peer → swarm_t;
  swarm_unban : swarm_t → Peer → swarm_t;
  swarm_deref : swarm_t → Behaviour Peer MsgId Addr;
  swarm_deref_mut : swarm_t → Behaviour Peer MsgId Addr → swarm_t;
  addr_to_string : Addr → bytes;
  node_order : gmap Peer (DialNode Addr) → list Peer;
  Interval : Type;
  interval_poll : Interval → bool * Interval;
}.

(** [str::contains]. *)
Fixpoint is_prefix (p s : bytes) : bool :=
  match p, s with
  | [], _ => true
  | x :: p, y :: s => bool_decide (x = y) && is_prefix p s
  | _ :: _, [] => false
  end.
Fixpoint str_contains (s p : bytes) : bool :=
  is_prefix p s || match s with [] => false | _ :: s => str_contains s p end.

Record Service (Peer MsgId Addr : Type) `{Swarm Peer MsgId Addr, DelayQueue Peer} : Type := mkService {
  swarm : swarm_t;
  peers_to_ban : dq;
  peer_ban_timeout : dq;
  peers : gset Peer;
  nodes : gmap Peer (DialNode Addr);
  dial_interval : Interval;
}.

Arguments mkService {Peer MsgId Addr _ _ _ _ _}. Arguments swarm {Peer MsgId Addr _ _ _ _ _}. Arguments peers_to_ban {Peer MsgId Addr _ _ _ _ _}. 
Arguments peer_ban_timeout {Peer MsgId Addr _ _ _ _ _}. Arguments peers {Peer MsgId Addr _ _ _ _ _}. Arguments nodes {Peer MsgId Addr _ _ _ _ _}. 
Arguments dial_interval {Peer MsgId Addr _ _ _ _ _}. 

(** How an event of the swarm goes on: the call returns, the loop goes on or ends. *)
Inductive Flow (A : Type) : Type := Return (a : A) | Continue | Break.
Arguments Return {A}. Arguments Continue {A}. Arguments Break {A}.

Module Service.
Section Service.
Context {Peer MsgId Addr : Type} `{SW : Swarm Peer MsgId Addr, DQ : !DelayQueue Peer} {E : Type}.
Abbreviation Svc := (Service Peer MsgId Addr).
Abbreviation Event := (Libp2pEvent Peer MsgId).
Implicit Types (s : Svc) (p : Peer).

Definition set_swarm s x : Svc := mkService x (peers_to_ban s) (peer_ban_timeout s) (peers s) (nodes s) (dial_interval s).
Definition set_bans s x y : Svc := mkService (swarm s) x y (peers s) (nodes s) (dial_interval s).
Definition set_peers s x : Svc := mkService (swarm s) (peers_to_ban s) (peer_ban_timeout s) x (nodes s) (dial_interval s).
Definition set_nodes s x : Svc := mkService (swarm s) (peers_to_ban s) (peer_ban_timeout s) (peers s) x (dial_interval s).
Definition set_interval s x : Svc := mkService (swarm s) (peers_to_ban s) (peer_ban_timeout s) (peers s) (nodes s) x.
Definition set_node_state s p (st : DialStatus) (n : DialNode Addr) : Svc :=
  set_nodes s (<[p := mkDialNode (addrs n) st]> (nodes s)).

(** The topics [new] subscribes to. *)
Definition default_topics : list GossipTopic := [GossipTopic.MapBlock; GossipTopic.Transaction].

Fixpoint dial_all (sw : swarm_t) (dial_addrs : list Addr) : swarm_t :=
  match dial_addrs with [] => sw | addr :: dial_addrs => dial_all (swarm_dial_addr sw addr).2 dial_addrs end.
(** The topics that gossipsub accepts are logged. *)
Fixpoint subscribe_all (sw : swarm_t) (topics : list GossipTopic) : list bytes * swarm_t :=
  match topics with
  | [] => ([], sw)
  | topic :: topics =>
      let (ok, b) := Behaviour.subscribe (swarm_deref sw) (GossipTopic.into topic) in
      let (subscribed, sw) := subscribe_all (swarm_deref_mut sw b) topics in
      (if ok then GossipTopic.into topic :: subscribed else subscribed, sw)
  end.
(** [sw] is the swarm that listens, [interval] ticks every 15 seconds. *)
Definition new (sw : swarm_t) (dial_addrs : list Addr) (interval : Interval) : Svc :=
  let sw := dial_all sw dial_addrs in
  let (_, sw) := subscribe_all sw default_topics in
  mkService sw dq_new dq_new ∅ ∅ interval.

Definition disconnect_and_ban_peer s p (timeout : Z) : Svc :=
  let bans := (dq_insert (peers_to_ban s) p (from_millis BAN_PEER_WAIT_TIMEOUT)).2 in
  let unbans := (dq_insert (peer_ban_timeout s) p timeout).2 in
  set_bans s bans unbans.

(** Nodes without a connection that were not dialed yet, or were left. *)
Definition dialable s p (n : DialNode Addr) : bool :=
  negb (bool_decide (p ∈ peers s)) &&
  (bool_decide (dial_state n = DialStatus.Unknown) || bool_decide (dial_state n = DialStatus.Disconnected)).
(** [node.addrs[0]]; whether dialing failed is only logged. *)
Fixpoint dial_nodes s (order : list Peer) : Outcome E Svc :=
  match order with
  | [] => Ok s
  | p :: order =>
      match nodes s !! p with
      | Some n =>
          if dialable s p n then
            let s := set_node_state s p DialStatus.Dial n in
            addr ← unwrap (head (addrs n));
            let (_, sw) := swarm_dial_addr (swarm s) addr in
            dial_nodes (set_swarm s sw) order
          else dial_nodes s order
      | None => dial_nodes s order
      end
  end.
Definition dial_peer s : Outcome E Svc := dial_nodes s (node_order (nodes s)).

Definition usable_addr (a : Addr) : bool :=
  negb (str_contains (addr_to_string a) (bytes_of "127.0.0.1"%string) || negb (str_contains (addr_to_string a) (bytes_of "ip4"%string))).

Definition on_behaviour_event s (event : BehaviourEvent Peer MsgId Addr) : Outcome E (Svc * Flow Event) :=
  match event with
  | BehaviourEvent.GossipMessage id source topics message => Ok (s, Return (Libp2pEvent.PubsubMessage id source topics message))
  | BehaviourEvent.RPC p e => Ok (s, Return (Libp2pEvent.RPC p e))
  | BehaviourEvent.InjectConnect p point =>
      let s := set_peers s (peers s ∪ {[p]}) in
      let s := match nodes s !! p with Some n => set_node_state s p DialStatus.Connected n | None => s end in
      match point with
      | ConnectedPoint.Listener => Ok (s, Continue)
      | ConnectedPoint.Dialer => Ok (s, Return (Libp2pEvent.PeerDialed p))
      end
  | BehaviourEvent.PeerDisconnected p =>
      n ← unwrap (nodes s !! p);
      let s := set_node_state s p DialStatus.Disconnected n in
      let s := set_peers s (peers s ∖ {[p]}) in
      Ok (s, Return (Libp2pEvent.PeerDisconnected p))
  | BehaviourEvent.FindPeers p found =>
      match nodes s !! p with
      | None =>
          let addr_vec := filter (λ a, usable_addr a = true) found in
          let s := if decide (addr_vec ≠ []) then set_nodes s (<[p := mkDialNode addr_vec DialStatus.Unknown]> (nodes s)) else s in
          Ok (s, Break)
      | Some _ => Ok (s, Continue)
      end
  end.

(** The loops of [poll].  [fuel] bounds their rounds; running out of it counts as a
    panic. *)
Fixpoint poll_swarm (fuel : nat) s : Outcome E (Svc * option Event) :=
  match fuel with
  | O => Panic
  | S fuel =>
      let (r, sw) := swarm_poll (swarm s) in
      let s := set_swarm s sw in
      match r with
      | Poll.Ready (Some event) =>
          f ← on_behaviour_event s event;
          match f.2 with
          | Return e => Ok (f.1, Some e)
          | Continue => poll_swarm fuel f.1
          | Break => Ok (f.1, None)
          end
      | Poll.Ready None => Panic
      | Poll.NotReady | Poll.Failed _ => Ok (s, None)
      end
  end.
Fixpoint poll_dial (fuel : nat) s : Outcome E Svc :=
  match fuel with
  | O => Panic
  | S fuel =>
      let (tick, i) := interval_poll (dial_interval s) in
      let s := set_interval s i in
      if tick then
        if decide (8 < size (peers s))%nat then Ok s else s ← dial_peer s; poll_dial fuel s
      else Ok s
  end.
Fixpoint poll_bans (fuel : nat) s : Outcome E Svc :=
  match fuel with
  | O => Panic
  | S fuel =>
      let (r, q) := dq_poll (peers_to_ban s) in
      let s := set_bans s q (peer_ban_timeout s) in
      match r with
      | Poll.Ready (Some p) =>
          let s := set_swarm s (swarm_ban (swarm s) p) in
          poll_bans fuel (set_swarm s (swarm_deref_mut (swarm s) (Behaviour.inject_disconnected (swarm_deref (swarm s)) p)))
      | Poll.NotReady | Poll.Ready None => Ok s
      | Poll.Failed _ => poll_bans fuel s
      end
  end.
Fixpoint poll_unbans (fuel : nat) s : Outcome E Svc :=
  match fuel with
  | O => Panic
  | S fuel =>
      let (r, q) := dq_poll (peer_ban_timeout s) in
      let s := set_bans s (peers_to_ban s) q in
      match r with
      | Poll.Ready (Some p) => poll_unbans fuel (set_swarm s (swarm_unban (swarm s) p))
      | Poll.NotReady | Poll.Ready None => Ok s
      | Poll.Failed _ => poll_unbans fuel s
      end
  end.
Definition poll (fuel : nat) s : Outcome E (Svc * option Event) :=
  r ← poll_swarm fuel s;
  match r.2 with
  | Some _ => Ok r
  | None =>
      s ← poll_dial fuel r.1;
      s ← poll_bans fuel s;
      s ← poll_unbans fuel s;
      Ok (s, None)
  end.
End Service.
End Service.

(** ** The network thread (src/network/src/manager.rs) *)
Module NetworkThread.
Section NetworkThread.
Context {Peer MsgId Addr : Type} `{SW : Swarm Peer MsgId Addr, DQ : !DelayQueue Peer}.
Abbreviation Svc := (Service Peer MsgId Addr).
Implicit Types (s : Svc) (p : Peer).

Definition with_behaviour s (f : Behaviour Peer MsgId Addr → Behaviour Peer MsgId Addr) : Svc :=
  Service.set_swarm s (swarm_deref_mut (swarm s) (f (swarm_deref (swarm s)))).
Definition on_network_message s (message : NetworkMessage Peer MsgId) : Svc :=
  match message with
  | NetworkMessage.Publish topics message =>
      with_behaviour s (λ b, Behaviour.publish b (GossipTopic.into <$> topics) message)
  | NetworkMessage.P2P p e => with_behaviour s (λ b, Behaviour.send_rpc b p e)
  | NetworkMessage.Propagate p id => with_behaviour s (λ b, Behaviour.propagate_message b p id)
  | NetworkMessage.Disconnect p => Service.disconnect_and_ban_peer s p (from_secs BAN_PEER_TIMEOUT)
  end.
Fixpoint drain_network s (recv : list (NetworkMessage Peer MsgId)) : Svc :=
  match recv with [] => s | m :: recv => drain_network (on_network_message s m) recv end.

(** An event for the message handler, and the peer that says goodbye. *)
Definition on_libp2p_event (event : Libp2pEvent Peer MsgId) : HandlerMessage Peer MsgId * option Peer :=
  match event with
  | Libp2pEvent.RPC p e =>
      (HandlerMessage.RPC p e, match e with P2PEvent.Request _ (P2PRequest.Goodbye _) => Some p | _ => None end)
  | Libp2pEvent.PubsubMessage id source _ message => (HandlerMessage.PubsubMessage id source message, None)
  | Libp2pEvent.PeerDialed p => (HandlerMessage.PeerDialed p, None)
  | Libp2pEvent.PeerDisconnected p => (HandlerMessage.PeerDisconnected p, None)
  end.
(** [open]: the handler's receiver is alive; the peers to ban are a stack. *)
Fixpoint drain_service (fuel fuel' : nat) s (open : bool) (to_ban : list Peer)
    : Outcome unit (Svc * list (HandlerMessage Peer MsgId) * list Peer) :=
  match fuel with
  | O => Panic
  | S fuel =>
      match Service.poll (E:=unit) fuel' s with
      | Ok (s, Some event) =>
          let (m, goodbye) := on_libp2p_event event in
          let to_ban := match goodbye with Some p => p :: to_ban | None => to_ban end in
          if open then
            r ← drain_service fuel fuel' s open to_ban;
            Ok (r.1.1, m :: r.1.2, r.2)
          else Err tt
      | Ok (s, None) => Ok (s, [], to_ban)
      | Err _ => Ok (s, [], to_ban)
      | Panic => Panic
      end
  end.
Fixpoint ban_all s (to_ban : list Peer) : Svc :=
  match to_ban with
  | [] => s
  | p :: to_ban => ban_all (Service.disconnect_and_ban_peer s p (from_secs BAN_PEER_TIMEOUT)) to_ban
  end.
(** One poll of the future: what the channel holds, whether it is closed behind that. *)
Definition network_service (fuel fuel' : nat) s (recv : list (NetworkMessage Peer MsgId)) (closed open : bool)
    : Outcome unit (Svc * list (HandlerMessage Peer MsgId)) :=
  let s := drain_network s recv in
  if closed then Err tt
  else
    r ← drain_service fuel fuel' s open [];
    Ok (ban_all r.1.1 r.2, r.1.2).

(** What the generator and the RPC server publish. *)
Definition publish_block `{Bincode Block} (data : Block) : NetworkMessage Peer MsgId :=
  NetworkMessage.Publish [GossipTopic.MapBlock] (PubsubMessage.Block (serialize data)).
Definition publish_transaction `{Bincode Transaction} (data : Transaction) : NetworkMessage Peer MsgId :=
  NetworkMessage.Publish [GossipTopic.Transaction] (PubsubMessage.Transaction (serialize data)).
End NetworkThread.
End NetworkThread.
