(* ===== verification/NetServiceInv.v ===== *)
(** * NetServiceInv: what the network thread guarantees

    The service dials each node that discovery found once and keeps an address for it;
    its loops end; a peer that discovery never found brings the thread down when it
    leaves; a dial that fails is not repeated; gossip is passed on once. *)
From Stdlib Require String.
From S2P Require Import Prelude Hashing Types Codec Keys Transaction Block Messages Handler P2PHandler NetService.
Import (notations) String.

(** ** Dialing *)
Class NodeOrderLaw (Peer MsgId Addr : Type) `{Swarm Peer MsgId Addr} : Prop :=
  node_order_perm : ∀ m : gmap Peer (DialNode Addr), node_order m ≡ₚ (map_to_list m).*1.

Section ServiceFacts.
Context {Peer MsgId Addr : Type} `{SW : Swarm Peer MsgId Addr, DQ : !DelayQueue Peer, NO : !NodeOrderLaw Peer MsgId Addr}.
Context {E : Type}.
Abbreviation Svc := (Service Peer MsgId Addr).
Implicit Types (s : Svc) (p : Peer).

(** Every node has an address. *)
Definition nodes_ok s : Prop := ∀ p n, nodes s !! p = Some n → addrs n ≠ [].

Lemma dial_nodes_spec s order :
  NoDup order → nodes_ok s →
  ∃ s', Service.dial_nodes (E:=E) s order = Ok s' ∧ nodes_ok s' ∧ peers s' = peers s ∧
    ∀ p, nodes s' !! p =
      match nodes s !! p with
      | Some n => Some (if bool_decide (p ∈ order) && Service.dialable s p n then mkDialNode (addrs n) DialStatus.Dial else n)
      | None => None
      end.
Proof.
  intros Hnd. revert s. induction Hnd as [|p order Hp Hnd IH]; intros s Hok; simpl.
  { exists s. split_and!; [done..|]. intros p. by destruct (nodes s !! p). }
  assert (Hskip : (∀ n, nodes s !! p = Some n → Service.dialable s p n = false) → ∀ q,
    match nodes s !! q with
    | Some n => Some (if bool_decide (q ∈ order) && Service.dialable s q n then mkDialNode (addrs n) DialStatus.Dial else n)
    | None => None
    end = match nodes s !! q with
    | Some n => Some (if bool_decide (q ∈ p :: order) && Service.dialable s q n then mkDialNode (addrs n) DialStatus.Dial else n)
    | None => None
    end).
  { intros Hn q. destruct (nodes s !! q) as [n|] eqn:Hq; [|done]. destruct (decide (q = p)) as [->|Hne].
    - rewrite (Hn n Hq). by rewrite !andb_false_r.
    - by rewrite (bool_decide_ext (q ∈ order) (q ∈ p :: order)) by set_solver. }
  destruct (nodes s !! p) as [n|] eqn:Hn; [destruct (Service.dialable s p n) eqn:Hd|].
  - destruct (addrs n) as [|a l] eqn:Ha; [by destruct (Hok p n Hn)|]. simpl.
    destruct (swarm_dial_addr (swarm s) a) as [r sw].
    destruct (IH (Service.set_swarm (Service.set_node_state s p DialStatus.Dial n) sw)) as (s' & Hs & Hok' & Hpe & Hno).
    { intros q m. simpl. rewrite lookup_insert_Some. intros [[<- <-]|[_ Hq]]; [simpl; by rewrite Ha|eauto]. }
    exists s'. split_and!; [done..|]. intros q. rewrite Hno. simpl. destruct (decide (q = p)) as [->|Hne].
    + rewrite lookup_insert_eq, Hn, Hd, (bool_decide_false (p ∈ order)), (bool_decide_true (p ∈ p :: order)) by set_solver. done.
    + rewrite lookup_insert_ne by done. by rewrite (bool_decide_ext (q ∈ order) (q ∈ p :: order)) by set_solver.
  - destruct (IH s Hok) as (s' & Hs & Hok' & Hpe & Hno). exists s'. split_and!; [done..|].
    intros q. rewrite Hno. apply Hskip. intros m ?. by simplify_eq.
  - destruct (IH s Hok) as (s' & Hs & Hok' & Hpe & Hno). exists s'. split_and!; [done..|].
    intros q. rewrite Hno. apply Hskip. intros m ?. by simplify_eq.
Qed.
Lemma dial_peer_spec s :
  nodes_ok s →
  ∃ s', Service.dial_peer (E:=E) s = Ok s' ∧ nodes_ok s' ∧ peers s' = peers s ∧
    ∀ p, nodes s' !! p =
      match nodes s !! p with
      | Some n => Some (if Service.dialable s p n then mkDialNode (addrs n) DialStatus.Dial else n)
      | None => None
      end.
Proof.
  intros Hok. destruct (dial_nodes_spec s (node_order (nodes s))) as (s' & Hs & Hok' & Hp & Hn);
    [rewrite node_order_perm; apply NoDup_fst_map_to_list|done|].
  exists s'. split_and!; [done..|]. intros p. rewrite Hn. destruct (nodes s !! p) as [n|] eqn:Hq; [|done].
  rewrite bool_decide_true; [done|]. rewrite node_order_perm, list_elem_of_fmap. exists (p, n).
  by rewrite elem_of_map_to_list.
Qed.
(** Dialing changes nodes and the swarm only. *)
Definition timers_kept s s' : Prop :=
  peers_to_ban s' = peers_to_ban s ∧ peer_ban_timeout s' = peer_ban_timeout s ∧ dial_interval s' = dial_interval s.
Lemma timers_kept_trans s1 s2 s3 : timers_kept s1 s2 → timers_kept s2 s3 → timers_kept s1 s3.
Proof. unfold timers_kept. intros (-> & -> & ->) (-> & -> & ->). done. Qed.
Lemma dial_nodes_frame s order s' : Service.dial_nodes (E:=E) s order = Ok s' → timers_kept s s'.
Proof.
  revert s. induction order as [|p order IH]; intros s; simpl; [by intros [= <-]|].
  destruct (nodes s !! p) as [n|]; [case_match|]; [|apply IH..].
  rewrite bind_Ok_inv. intros (a & _ & Hs). destruct (swarm_dial_addr _ a) as [r sw]. apply IH in Hs. exact Hs.
Qed.

Lemma on_behaviour_event_nodes s e (D : gset Peer) :
  nodes_ok s → D ⊆ dom (nodes s) → (∀ p, e = BehaviourEvent.PeerDisconnected p → p ∈ D) →
  ∃ s' f, Service.on_behaviour_event (E:=E) s e = Ok (s', f) ∧ nodes_ok s' ∧ D ⊆ dom (nodes s') ∧
    swarm s' = swarm s ∧ timers_kept s s'.
Proof.
  intros Hok HD Hp.
  assert (Hset : ∀ p n st, nodes s !! p = Some n → nodes_ok (Service.set_node_state s p st n) ∧
    D ⊆ dom (nodes (Service.set_node_state s p st n))).
  { intros p n st Hn. split; [|simpl; set_solver]. intros q m. simpl. rewrite lookup_insert_Some.
    intros [[<- <-]|[_ Hq]]; simpl; eauto. }
  destruct e as [p e|p point|p|id src topics msg|p found]; simpl.
  - by eexists _, _.
  - destruct (nodes s !! p) as [n|] eqn:Hn; destruct point; eexists _, _; (split; [done|]).
    all: try (destruct (Hset p n DialStatus.Connected Hn) as [H1 H2]; by split_and!).
    all: by split_and!.
  - assert (∃ n, nodes s !! p = Some n) as [n Hn] by (apply elem_of_dom; set_solver).
    rewrite Hn. simpl. eexists _, _. split; [done|].
    destruct (Hset p n DialStatus.Disconnected Hn) as [H1 H2]. by split_and!.
  - by eexists _, _.
  - destruct (nodes s !! p) as [n|] eqn:Hn; [by eexists _, _|]. eexists _, _. split; [done|].
    case_decide as Hv; simpl; [|by split_and!]. split_and!; [|set_solver|done..].
    intros q m. simpl. rewrite lookup_insert_Some. intros [[<- <-]|[_ Hq]]; simpl; eauto.
Qed.
End ServiceFacts.

(** ** Every round ends *)
(** What the thread waits for comes to an end: the swarm never closes and has a number
    of events to report, the interval is late by a number of ticks, the queues hold a
    number of timers.  This is assumed of tokio and libp2p; in particular a poll of a
    queue that fails must use up a timer, since the loop over it only warns and goes
    on. *)
Class Drains (Peer MsgId Addr : Type) `{Swarm Peer MsgId Addr, DelayQueue Peer} : Type := {
  sw_left : swarm_t → nat;
  sw_left_poll sw :
    match (swarm_poll sw).1 with
    | Poll.Ready (Some _) => sw_left (swarm_poll sw).2 < sw_left sw
    | Poll.Ready None => False
    | _ => True
    end%nat;
  ticks : Interval → nat;
  ticks_poll i : (interval_poll i).1 = true → (ticks (interval_poll i).2 < ticks i)%nat;
  timers : dq → nat;
  timers_poll q :
    match (dq_poll q).1 with
    | Poll.Ready (Some _) | Poll.Failed _ => timers (dq_poll q).2 < timers q
    | _ => True
    end%nat;
}.

Section Rounds.
Context {Peer MsgId Addr : Type} `{SW : Swarm Peer MsgId Addr, DQ : !DelayQueue Peer, NO : !NodeOrderLaw Peer MsgId Addr}.
Context {DR : Drains Peer MsgId Addr}.
(** From the states [Q] on, only the peers [D] are reported to leave. *)
Context (D : gset Peer) (Q : swarm_t → Prop).
Definition leavers : Prop :=
  ∀ sw, Q sw → Q (swarm_poll sw).2 ∧ ∀ p, (swarm_poll sw).1 = Poll.Ready (Some (BehaviourEvent.PeerDisconnected p)) → p ∈ D.
Context (HQ : leavers).
Abbreviation Svc := (Service Peer MsgId Addr).
Implicit Types (s : Svc) (p : Peer).

Definition round_ok s : Prop := nodes_ok s ∧ D ⊆ dom (nodes s).

Lemma poll_swarm_returns {E} fuel s :
  round_ok s → Q (swarm s) → (sw_left (swarm s) < fuel)%nat →
  ∃ s' r, Service.poll_swarm (E:=E) fuel s = Ok (s', r) ∧ round_ok s' ∧ timers_kept s s' ∧
    (r ≠ None → Q (swarm s') ∧ (sw_left (swarm s') < sw_left (swarm s))%nat).
Proof.
  revert s. induction fuel as [|fuel IH]; intros s [Hok HD] Hq Hf; [lia|]. simpl.
  destruct (HQ (swarm s) Hq) as [Hq' Hdis]. pose proof (sw_left_poll (swarm s)) as Hlt.
  destruct (swarm_poll (swarm s)) as [[[e|]| |err] sw]; simpl in *; [|done|by eexists _, None|by eexists _, None].
  destruct (on_behaviour_event_nodes (E:=E) (Service.set_swarm s sw) e D Hok HD) as (s1 & f & -> & Hok1 & HD1 & Hs1 & Ht1).
  { intros p ->. by apply Hdis. }
  simpl in *. destruct f as [ev| |].
  - eexists _, _. split_and!; [done..|]. intros _. by rewrite Hs1.
  - destruct (IH s1) as (s' & r & Hr & Hrs & Ht & Hl); [done|by rewrite Hs1|rewrite Hs1; lia|].
    exists s', r. split_and!; [done|done|by eapply timers_kept_trans|].
    intros Hn. destruct (Hl Hn) as [? Hlt2]. rewrite Hs1 in Hlt2. split; [done|lia].
  - eexists _, _. by split_and!.
Qed.
Lemma poll_dial_returns {E} fuel s :
  round_ok s → (ticks (dial_interval s) < fuel)%nat →
  ∃ s', Service.poll_dial (E:=E) fuel s = Ok s' ∧ round_ok s' ∧
    peers_to_ban s' = peers_to_ban s ∧ peer_ban_timeout s' = peer_ban_timeout s.
Proof.
  revert s. induction fuel as [|fuel IH]; intros s [Hok HD] Hf; [lia|]. simpl.
  pose proof (ticks_poll (dial_interval s)) as Ht. destruct (interval_poll _) as [[|] i]; simpl in *; [|by eexists].
  case_decide; [by eexists|].
  destruct (dial_peer_spec (E:=E) (Service.set_interval s i) Hok) as (s1 & Hs1 & Hok1 & _ & Hn1).
  rewrite Hs1. simpl. destruct (dial_nodes_frame _ _ _ Hs1) as (Hb1 & Hb2 & Hi). simpl in *.
  destruct (IH s1) as (s' & Hs' & Hr & Hp1 & Hp2).
  - split; [done|]. intros p Hp. apply HD, elem_of_dom in Hp as [n Hn]. apply elem_of_dom. rewrite Hn1, Hn. by eexists.
  - rewrite Hi. specialize (Ht eq_refl). lia.
  - exists s'. rewrite Hp1, Hp2. by split_and!.
Qed.
Lemma poll_bans_returns {E} fuel s :
  round_ok s → (timers (peers_to_ban s) < fuel)%nat →
  ∃ s', Service.poll_bans (E:=E) fuel s = Ok s' ∧ round_ok s' ∧ peer_ban_timeout s' = peer_ban_timeout s.
Proof.
  revert s. induction fuel as [|fuel IH]; intros s Hok Hf; [lia|]. simpl.
  pose proof (timers_poll (peers_to_ban s)) as Ht. destruct (dq_poll _) as [[[p|]| |e] q]; simpl in *; [|by eexists..|].
  all: match goal with |- context [Service.poll_bans _ ?s1] => destruct (IH s1) as (s' & -> & Hr & Hb) end;
    [done|simpl; lia|by exists s'].
Qed.
Lemma poll_unbans_returns {E} fuel s :
  round_ok s → (timers (peer_ban_timeout s) < fuel)%nat →
  ∃ s', Service.poll_unbans (E:=E) fuel s = Ok s' ∧ round_ok s'.
Proof.
  revert s. induction fuel as [|fuel IH]; intros s Hok Hf; [lia|]. simpl.
  pose proof (timers_poll (peer_ban_timeout s)) as Ht. destruct (dq_poll _) as [[[p|]| |e] q]; simpl in *; [|by eexists..|].
  all: match goal with |- context [Service.poll_unbans _ ?s1] => destruct (IH s1) as (s' & -> & Hr) end;
    [done|simpl; lia|by exists s'].
Qed.

(** A new service has no nodes. *)
Lemma new_nodes_ok sw addrs i : nodes_ok (Service.new (Addr:=Addr) sw addrs i).
Proof. unfold Service.new. destruct (Service.subscribe_all _ _). intros p n. simpl. by rewrite lookup_empty. Qed.

(** How much there is to do. *)
Definition work s : nat :=
  sw_left (swarm s) `max` ticks (dial_interval s) `max` timers (peers_to_ban s) `max` timers (peer_ban_timeout s).
Lemma poll_returns {E} fuel s :
  round_ok s → Q (swarm s) → (work s < fuel)%nat →
  ∃ s' r, Service.poll (E:=E) fuel s = Ok (s', r) ∧ round_ok s' ∧
    (r ≠ None → Q (swarm s') ∧ timers_kept s s' ∧ (sw_left (swarm s') < sw_left (swarm s))%nat).
Proof.
  unfold work. intros Hok Hq Hf. unfold Service.poll.
  destruct (poll_swarm_returns (E:=E) fuel s Hok Hq) as (s1 & r & -> & Hok1 & Ht & Hl); [lia|]. simpl.
  destruct r as [ev|]; [exists s1, (Some ev); naive_solver|]. destruct Ht as (Ht1 & Ht2 & Ht3).
  destruct (poll_dial_returns (E:=E) fuel s1 Hok1) as (s2 & -> & Hok2 & Hb1 & Hb2); [rewrite Ht3; lia|]. simpl.
  destruct (poll_bans_returns (E:=E) fuel s2 Hok2) as (s3 & -> & Hok3 & Hb3); [rewrite Hb1, Ht1; lia|]. simpl.
  destruct (poll_unbans_returns (E:=E) fuel s3 Hok3) as (s4 & -> & Hok4); [rewrite Hb3, Hb2, Ht2; lia|]. simpl.
  by exists s4, None.
Qed.
Lemma drain_service_returns fuel fuel' s open to_ban :
  round_ok s → Q (swarm s) → (work s < fuel')%nat → (sw_left (swarm s) < fuel)%nat →
  (∃ s' out bans, NetworkThread.drain_service fuel fuel' s open to_ban = Ok (s', out, bans) ∧ round_ok s') ∨
  open = false ∧ NetworkThread.drain_service fuel fuel' s open to_ban = Err ().
Proof.
  revert s to_ban. induction fuel as [|fuel IH]; intros s to_ban Hok Hq Hw Hf; [lia|]. simpl.
  destruct (poll_returns (E:=unit) fuel' s Hok Hq Hw) as (s1 & r & -> & Hok1 & Hl).
  destruct r as [ev|]; [|left; by eexists _, _, _]. destruct (NetworkThread.on_libp2p_event ev) as [m g].
  destruct open; [|by right]. destruct Hl as (Hq1 & (Hb1 & Hb2 & Hi) & Hlt); [done|].
  destruct (IH s1 (match g with Some p => p :: to_ban | None => to_ban end)) as [(s' & out & bans & -> & Hs')|[? _]];
    [done..|unfold work in *; rewrite Hb1, Hb2, Hi; lia|lia| |done].
  left. simpl. by eexists _, _, _.
Qed.
Lemma ban_all_nodes s to_ban : round_ok s → round_ok (NetworkThread.ban_all s to_ban).
Proof. revert s. induction to_ban as [|p l IH]; intros s Hs; [done|]. by apply IH. Qed.
Lemma drain_network_nodes s recv : round_ok s → round_ok (NetworkThread.drain_network s recv).
Proof. revert s. induction recv as [|m l IH]; intros s Hs; [done|]. apply IH. by destruct m. Qed.

(** C38: Every round of the network thread ends, without a panic: when the peers that leave
    are recorded as nodes (by discovery, with an address to dial), and the swarm, the interval and the queues of
    timers have finitely much to report, a round with that much fuel returns the next
    state and the messages for the handler; it ends with an error when the handler is
    gone.  Afterwards every node still has the address that dialing takes. *)
Theorem network_round_returns fuel fuel' s recv open :
  round_ok s → Q (swarm (NetworkThread.drain_network s recv)) →
  (work (NetworkThread.drain_network s recv) < fuel')%nat → (work (NetworkThread.drain_network s recv) < fuel)%nat →
  (∃ s' out, NetworkThread.network_service fuel fuel' s recv false open = Ok (s', out) ∧ round_ok s') ∨
  open = false ∧ NetworkThread.network_service fuel fuel' s recv false open = Err ().
Proof.
  intros Hok Hq Hw Hf. unfold NetworkThread.network_service.
  destruct (drain_service_returns fuel fuel' (NetworkThread.drain_network s recv) open [])
    as [(s' & out & bans & -> & Hs')|[? ->]]; [by apply drain_network_nodes|done..|unfold work in Hf; lia| |by right].
  left. simpl. eexists _, _. split; [done|by apply ban_all_nodes].
Qed.
End Rounds.


(** ** A dial that fails *)
Section Dials.
Context {Peer MsgId Addr : Type} `{SW : Swarm Peer MsgId Addr, DQ : !DelayQueue Peer, NO : !NodeOrderLaw Peer MsgId Addr}.
Abbreviation Svc := (Service Peer MsgId Addr).
Implicit Types (s : Svc) (p : Peer).

(** From the states [Q] on, whatever it is asked, the swarm reports no connection to
    [p]. *)
Record never_connects p (Q : swarm_t → Prop) : Prop := {
  nc_poll sw : Q sw → Q (swarm_poll sw).2 ∧ ∀ e, (swarm_poll sw).1 = Poll.Ready (Some e) →
    (∀ point, e ≠ BehaviourEvent.InjectConnect p point) ∧ e ≠ BehaviourEvent.PeerDisconnected p;
  nc_dial sw a : Q sw → Q (swarm_dial_addr sw a).2;
  nc_ban sw q : Q sw → Q (swarm_ban sw q);
  nc_unban sw q : Q sw → Q (swarm_unban sw q);
  nc_behaviour sw b : Q sw → Q (swarm_deref_mut sw b);
}.

(** Rounds of the thread, with any messages. *)
Inductive rounds : Svc → Svc → Prop :=
  | rounds_nil s : rounds s s
  | rounds_cons s1 s2 s3 fuel fuel' recv open out :
      NetworkThread.network_service fuel fuel' s1 recv false open = Ok (s2, out) → rounds s2 s3 → rounds s1 s3.

Section Stuck.
Context (p : Peer) (Q : swarm_t → Prop) (HQ : never_connects p Q) (n : DialNode Addr) (Hn : dial_state n = DialStatus.Dial).
Definition stuck s : Prop := Q (swarm s) ∧ nodes s !! p = Some n.

Lemma stuck_event s e sw' s' f {E} :
  stuck s → swarm_poll (swarm s) = (Poll.Ready (Some e), sw') →
  Service.on_behaviour_event (E:=E) (Service.set_swarm s sw') e = Ok (s', f) → stuck s'.
Proof.
  intros [Hq Hs] Hp. destruct (nc_poll _ _ HQ _ Hq) as [Hq' Hne]. rewrite Hp in Hq', Hne. simpl in *.
  destruct (Hne e eq_refl) as [Hc Hd]. destruct e as [q e|q point|q|id src topics msg|q found]; simpl.
  - intros [= <- _]. done.
  - assert (q ≠ p) by (intros ->; by apply (Hc point)).
    destruct (nodes s !! q) as [m|] eqn:Hm; destruct point; intros [= <- _]; split; simpl; [done| |done| |done..];
      by rewrite lookup_insert_ne.
  - assert (q ≠ p) by congruence. rewrite bind_Ok_inv. intros (m & Hm & [= <- _]). split; [done|]. simpl. by rewrite lookup_insert_ne.
  - intros [= <- _]. done.
  - destruct (nodes s !! q) as [m|] eqn:Hm; intros [= <- _]; [done|]. assert (q ≠ p) by congruence.
    case_decide; [|done]. split; [done|]. simpl. by rewrite lookup_insert_ne.
Qed.
Lemma stuck_swarm fuel s s' r {E} : stuck s → Service.poll_swarm (E:=E) fuel s = Ok (s', r) → stuck s'.
Proof.
  revert s. induction fuel as [|fuel IH]; intros s Hs; simpl; [done|].
  pose proof (proj1 (nc_poll _ _ HQ _ (proj1 Hs))) as Hq.
  destruct (swarm_poll (swarm s)) as [[[e|]| |err] sw] eqn:Hp; simpl in *; [|done|intros [= <- _]; by split; [|apply Hs]..].
  rewrite bind_Ok_inv. intros ([s1 f] & He & Hf). pose proof (stuck_event _ _ _ _ _ Hs Hp He) as Hs1.
  destruct f; simplify_eq/=; eauto.
Qed.
Lemma stuck_dial s order s' {E} : stuck s → Service.dial_nodes (E:=E) s order = Ok s' → stuck s'.
Proof.
  revert s. induction order as [|q order IH]; intros s [Hq Hs]; simpl; [by intros [= <-]|].
  destruct (nodes s !! q) as [m|] eqn:Hm; [destruct (Service.dialable s q m) eqn:Hd|]; [|by apply IH..].
  assert (q ≠ p).
  { intros ->. simplify_eq. unfold Service.dialable in Hd. rewrite Hn in Hd. simpl in Hd. by rewrite andb_false_r in Hd. }
  rewrite bind_Ok_inv. intros (a & _ & R1). simpl in R1. pose proof (nc_dial _ _ HQ (swarm s) a Hq) as Hq1.
  destruct (swarm_dial_addr (swarm s) a) as [r sw]. apply IH in R1; [done|]. split; [done|]. simpl. by rewrite lookup_insert_ne.
Qed.
Lemma stuck_poll_dial fuel s s' {E} : stuck s → Service.poll_dial (E:=E) fuel s = Ok s' → stuck s'.
Proof.
  revert s. induction fuel as [|fuel IH]; intros s Hs; simpl; [done|]. destruct (interval_poll _) as [[|] i]; [|by intros [= <-]].
  case_decide; [by intros [= <-]|]. rewrite bind_Ok_inv. intros (s1 & R1 & R2). apply IH in R2; [done|].
  by eapply stuck_dial in R1.
Qed.
Lemma stuck_poll_bans fuel s s' {E} : stuck s → Service.poll_bans (E:=E) fuel s = Ok s' → stuck s'.
Proof.
  revert s. induction fuel as [|fuel IH]; intros s Hs; simpl; [done|].
  destruct (dq_poll _) as [[[q|]| |e] d]; [|by intros [= <-]..|by apply IH]. apply IH. split; [|apply Hs].
  apply (nc_behaviour _ _ HQ), (nc_ban _ _ HQ), Hs.
Qed.
Lemma stuck_poll_unbans fuel s s' {E} : stuck s → Service.poll_unbans (E:=E) fuel s = Ok s' → stuck s'.
Proof.
  revert s. induction fuel as [|fuel IH]; intros s Hs; simpl; [done|].
  destruct (dq_poll _) as [[[q|]| |e] d]; [|by intros [= <-]..|by apply IH]. apply IH. split; [|apply Hs].
  apply (nc_unban _ _ HQ), Hs.
Qed.
Lemma stuck_poll fuel s s' r {E} : stuck s → Service.poll (E:=E) fuel s = Ok (s', r) → stuck s'.
Proof.
  intros Hs. unfold Service.poll. rewrite bind_Ok_inv. intros ([s1 r1] & R1 & Hr). eapply stuck_swarm in R1; [|done].
  simpl in *. destruct r1 as [ev|]; [by simplify_eq|].
  rewrite bind_Ok_inv in Hr. destruct Hr as (s2 & R2 & Hr). eapply stuck_poll_dial in R2; [|done].
  rewrite bind_Ok_inv in Hr. destruct Hr as (s3 & R3 & Hr). eapply stuck_poll_bans in R3; [|done].
  rewrite bind_Ok_inv in Hr. destruct Hr as (s4 & R4 & Hr). eapply stuck_poll_unbans in R4; [|done].
  by simplify_eq.
Qed.
Lemma stuck_drain fuel fuel' s open to_ban s' out bans :
  stuck s → NetworkThread.drain_service fuel fuel' s open to_ban = Ok (s', out, bans) → stuck s'.
Proof.
  revert s to_ban out bans. induction fuel as [|fuel IH]; intros s to_ban out bans Hs; simpl; [done|].
  destruct (Service.poll fuel' s) as [[s1 [ev|]]|e|] eqn:Hp; [|eapply stuck_poll in Hp; [by intros [= <- _ _]|done]|by intros [= <- _ _]|done].
  eapply stuck_poll in Hp; [|done]. destruct (NetworkThread.on_libp2p_event ev) as [m g]. destruct open; [|done].
  rewrite bind_Ok_inv. intros ([[s2 o2] b2] & R2 & [= <- _ _]). by eapply IH in R2.
Qed.
Lemma stuck_recv s recv : stuck s → stuck (NetworkThread.drain_network s recv).
Proof.
  revert s. induction recv as [|m l IH]; intros s Hs; [done|]. apply IH.
  destruct m; [split; [apply (nc_behaviour _ _ HQ), Hs|apply Hs]..|done].
Qed.
Lemma stuck_ban s l : stuck s → stuck (NetworkThread.ban_all s l).
Proof. revert s. induction l as [|q l IH]; intros s Hs; [done|]. by apply IH. Qed.
Lemma stuck_rounds s s' : rounds s s' → stuck s → stuck s'.
Proof.
  induction 1 as [|s1 s2 s3 fuel fuel' recv open out R1 _ IH]; [done|]. intros Hs. apply IH.
  unfold NetworkThread.network_service in R1. rewrite bind_Ok_inv in R1. destruct R1 as ([[s0 o] b] & R1 & [= <- _]).
  apply stuck_ban. by eapply stuck_drain, R1; apply stuck_recv.
Qed.
End Stuck.

(** A dial that fails is not repeated: once [dial_peer] has dialed a node, and while the
    swarm reports no connection to it, no round of the network thread makes it a node
    to dial again, whatever is received and however often the dial interval ticks.
    [DialStatus::Dial] is left by a connection only. *)
Theorem failed_dial_not_retried p Q s s1 s2 n :
  never_connects p Q → nodes_ok s → nodes s !! p = Some n → Service.dialable s p n = true →
  Service.dial_peer (E:=unit) s = Ok s1 → Q (swarm s1) → rounds s1 s2 →
  nodes s2 !! p = Some (mkDialNode (addrs n) DialStatus.Dial) ∧
  Service.dialable s2 p (mkDialNode (addrs n) DialStatus.Dial) = false.
Proof.
  intros HQ Hok Hn Hd R1 Hq Hr. destruct (dial_peer_spec (E:=unit) s Hok) as (s' & R1' & _ & _ & Hs).
  rewrite R1 in R1'. injection R1' as <-.
  split; [|unfold Service.dialable; simpl; apply andb_false_r].
  apply (stuck_rounds p Q HQ (mkDialNode (addrs n) DialStatus.Dial) eq_refl _ _ Hr). split; [done|]. by rewrite Hs, Hn, Hd.
Qed.

(** The swarm reports that a peer has connected to this node. *)
Definition peer_joined p : BehaviourEvent Peer MsgId Addr := BehaviourEvent.InjectConnect p ConnectedPoint.Listener.

(** C40: A peer that connected to this node, and that discovery never found, brings the
    network thread down when it leaves: [PeerDisconnected] unwraps its entry in
    [nodes].  No amount of fuel helps. *)
Theorem unknown_peer_disconnect_panics s p sw1 sw2 recv open fuel fuel' :
  swarm_poll (swarm (NetworkThread.drain_network s recv)) =
    (Poll.Ready (Some (peer_joined p)), sw1) →
  swarm_poll sw1 = (Poll.Ready (Some (BehaviourEvent.PeerDisconnected p)), sw2) →
  nodes s !! p = None →
  NetworkThread.network_service fuel fuel' s recv false open = Panic ∧
  ∃ s1, Service.on_behaviour_event (E:=unit) (NetworkThread.drain_network s recv)
          (peer_joined p) = Ok (s1, Continue) ∧
    p ∈ peers s1 ∧ Service.on_behaviour_event (E:=unit) s1 (BehaviourEvent.PeerDisconnected p) = Panic.
Proof.
  intros R1 R2 Hn.
  assert (Hn' : nodes (NetworkThread.drain_network s recv) !! p = None).
  { clear R1. revert s Hn. induction recv as [|m l IH]; intros s Hn; [done|]. apply IH. by destruct m. }
  split.
  - unfold NetworkThread.network_service. destruct fuel as [|fuel]; [done|]. simpl. unfold Service.poll.
    destruct fuel' as [|fuel']; [done|]. simpl. rewrite R1. simpl. rewrite Hn'. simpl.
    destruct fuel' as [|fuel']; [done|]. simpl. rewrite R2. simpl. by rewrite Hn'.
  - simpl. rewrite Hn'. eexists. split; [done|]. simpl. rewrite Hn'. split; [set_solver|done].
Qed.
End Dials.

(** ** Gossip *)
(** The cache keeps the ids that were used last, up to its capacity. *)
Class LruLaws (Peer MsgId Addr : Type) `{Discovery Peer MsgId Addr, EqDecision MsgId} : Type := {
  lru_view : LruCache → list MsgId;
  lru_cap : LruCache → nat;
  lru_new_view n : lru_view (lru_new n) = [] ∧ lru_cap (lru_new n) = Z.to_nat n;
  lru_put_view c id :
    (lru_put c id).1 = bool_decide (id ∈ lru_view c) ∧
    lru_view (lru_put c id).2 = take (lru_cap c) (id :: filter (λ x, x ≠ id) (lru_view c));
  lru_put_cap c id : lru_cap (lru_put c id).2 = lru_cap c;
}.

Section Gossip.
Context {Peer MsgId Addr : Type} `{Countable MsgId, D : !Discovery Peer MsgId Addr, LL : !LruLaws Peer MsgId Addr}.
Implicit Types (b : Behaviour Peer MsgId Addr) (id : MsgId).

Definition inject_all b (evs : list (GossipsubEvent.t Peer MsgId)) : Behaviour Peer MsgId Addr :=
  foldl Behaviour.inject_gossipsub b evs.
Definition msg_id (e : GossipsubEvent.t Peer MsgId) : option MsgId :=
  match e with GossipsubEvent.Message _ id _ _ => Some id | _ => None end.
Abbreviation seen b := (lru_view (seen_gossip_messages b)).
Abbreviation cap b := (lru_cap (seen_gossip_messages b)).

Lemma inject_message b src id topics data :
  let b' := Behaviour.inject_gossipsub b (GossipsubEvent.Message src id topics data) in
  cap b' = cap b ∧
  seen b' = take (cap b) (id :: filter (λ x, x ≠ id) (seen b)) ∧
  bh_events b' = bh_events b ++
    (if bool_decide (id ∈ seen b) then [] else [BehaviourEvent.GossipMessage id src topics (PubsubMessage.from_topics topics data)]).
Proof.
  simpl. destruct (lru_put_view (seen_gossip_messages b) id) as [<- <-]. pose proof (lru_put_cap (seen_gossip_messages b) id).
  destruct (lru_put _ _) as [[|] c]; simpl in *; [by rewrite app_nil_r|done].
Qed.
Lemma inject_seen b evs id : id ∈ seen (inject_all b evs) → id ∈ seen b ∨ id ∈ omap msg_id evs.
Proof.
  revert b. induction evs as [|e evs IH]; intros b; simpl; [by left|]. intros Hin. apply IH in Hin as [Hin|Hin].
  - destruct e as [src id' topics data| |]; simpl; [|by left..].
    destruct (inject_message b src id' topics data) as (_ & Hs & _). cbv zeta in Hs. rewrite Hs in Hin.
    apply (subseteq_take (cap b)) in Hin.
    rewrite elem_of_cons, list_elem_of_filter in Hin. rewrite elem_of_cons. naive_solver.
  - right. destruct e; simpl; [rewrite elem_of_cons|..]; by auto.
Qed.

(** The ids used after [id]. *)
Lemma inject_remembers b evs id l l' :
  seen b = l ++ id :: l' → NoDup l → id ∉ l →
  (size (list_to_set l ∪ list_to_set (omap msg_id evs) ∖ {[id]} : gset MsgId) < cap b)%nat →
  id ∈ seen (inject_all b evs).
Proof.
  revert b l l'. induction evs as [|e evs IH]; intros b l l' Hs Hnd Hid Hsz; simpl; [rewrite Hs; set_solver|].
  destruct e as [src y topics data| |]; simpl in *; [|by eapply IH..].
  destruct (inject_message b src y topics data) as (Hc & Hs' & _). cbv zeta in Hs', Hc. simpl in Hs', Hc.
  destruct (cap b) as [|cap] eqn:Hcap; [lia|]. simpl in Hs'. rewrite Hs, filter_app, filter_cons in Hs'.
  destruct (decide (y = id)) as [->|Hy].
  - eapply (IH _ []); [done|constructor|set_solver|].
    rewrite Hc. eapply Nat.le_lt_trans, Hsz. apply subseteq_size. set_solver.
  - rewrite decide_True in Hs' by congruence.
    assert (Hlen : (length (filter (λ x, x ≠ y) l) < cap)%nat).
    { cut (size (list_to_set (y :: filter (λ x, x ≠ y) l) : gset MsgId) < S cap)%nat.
      { rewrite size_list_to_set; [simpl; lia|]. constructor; [rewrite list_elem_of_filter; naive_solver|by apply NoDup_filter]. }
      eapply Nat.le_lt_trans, Hsz. apply subseteq_size. intros x. rewrite elem_of_list_to_set, elem_of_cons, list_elem_of_filter.
      set_solver. }
    rewrite take_app_ge in Hs' by lia.
    destruct (cap - length (filter (λ x, x ≠ y) l))%nat as [|k] eqn:Hk; [lia|]. simpl in Hs'.
    eapply (IH _ (y :: filter (λ x, x ≠ y) l)); [by rewrite Hs'| | |].
    + constructor; [rewrite list_elem_of_filter; naive_solver|by apply NoDup_filter].
    + rewrite elem_of_cons, list_elem_of_filter. naive_solver.
    + rewrite Hc. eapply Nat.le_lt_trans, Hsz. apply subseteq_size. intros x. rewrite !elem_of_union, !elem_of_difference, !elem_of_list_to_set.
      rewrite elem_of_cons, list_elem_of_filter. set_solver.
Qed.

Lemma inject_all_cap b evs : cap (inject_all b evs) = cap b.
Proof.
  revert b. induction evs as [|e evs IH]; intros b; [done|]. simpl. rewrite IH.
  destruct e as [src id topics data| |]; [|done..]. by destruct (inject_message b src id topics data).
Qed.

(** C39: Gossip is passed on once: a message whose id was not seen since the node started is
    put at the end of the events for the service, with the content its topics give it,
    and the same id is not passed on again, from any peer and with any content, as
    long as fewer than 100000 other ids came in between. *)
Theorem gossip_passed_on_once g k evs evs' id src src' topics topics' data data' :
  id ∉ omap msg_id evs →
  Z.of_nat (size (list_to_set (omap msg_id evs') ∖ {[id]} : gset MsgId)) < 100000 →
  let b1 := inject_all (Behaviour.new g k) evs in
  let b2 := Behaviour.inject_gossipsub b1 (GossipsubEvent.Message src id topics data) in
  let b3 := inject_all b2 evs' in
  bh_events b2 = bh_events b1 ++ [BehaviourEvent.GossipMessage id src topics (PubsubMessage.from_topics topics data)] ∧
  bh_events (Behaviour.inject_gossipsub b3 (GossipsubEvent.Message src' id topics' data')) = bh_events b3.
Proof.
  intros Hevs Hsz b1 b2 b3. destruct (inject_message b1 src id topics data) as (Hc2 & Hs2 & He2).
  destruct (inject_message b3 src' id topics' data') as (_ & _ & He3). cbv zeta in *. fold b2 in Hs2, He2, Hc2.
  destruct (lru_new_view 100000) as [Hnew Hcap]. split.
  - rewrite He2, bool_decide_false; [done|]. intros [Hn|?]%inject_seen; [|done]. simpl in Hn. rewrite Hnew in Hn. set_solver.
  - rewrite He3, bool_decide_true; [by rewrite app_nil_r|].
    assert (Hc : (0 < cap b1)%nat) by (unfold b1; rewrite inject_all_cap; simpl; rewrite Hcap; lia).
    destruct (cap b1) as [|c] eqn:Hc1; [lia|].
    eapply (inject_remembers b2 evs' id []); [by rewrite Hs2|constructor|set_solver|].
    rewrite list_to_set_nil, union_empty_l_L, Hc2, <- Hc1. unfold b1. rewrite inject_all_cap. simpl. rewrite Hcap. lia.
Qed.
End Gossip.

(** ** A network on paper *)
Module NetEx.
#[export] Instance discovery : Discovery Z Z bytes := {
  Gossipsub := list (bytes * bytes);
  gs_subscribe g _ := (true, g);
  gs_publish g topic data := g ++ [(topic, data)];
  gs_propagate g _ _ := g;
  Kademlia := list (Z * bytes);
  kad_add_address k p a := k ++ [(p, a)];
  kad_get_closest_peers k _ := k;
  LruCache := nat * list Z;
  lru_new n := (Z.to_nat n, []);
  lru_put c id := (bool_decide (id ∈ c.2), (c.1, take c.1 (id :: filter (λ x, x ≠ id) c.2)));
}.
#[export] Instance lru_laws : LruLaws Z Z bytes.
Proof. by refine {| lru_view := λ c : LruCache, c.2; lru_cap := λ c : LruCache, c.1 |}. Defined.

(** A swarm that reports a list of events, in which dials lead to nothing. *)
Record sw : Type := mkSw { sw_events : list (BehaviourEvent Z Z bytes); sw_behaviour : Behaviour Z Z bytes }.
Definition sw_poll (s : sw) : Poll (option (BehaviourEvent Z Z bytes)) * sw :=
  match sw_events s with
  | e :: l => (Poll.Ready (Some e), mkSw l (sw_behaviour s))
  | [] => (Poll.NotReady, s)
  end.
#[export] Instance swarm_inst : Swarm Z Z bytes := {
  swarm_t := sw;
  swarm_poll := sw_poll;
  swarm_dial_addr s _ := (true, s);
  swarm_ban s _ := s;
  swarm_unban s _ := s;
  swarm_deref := sw_behaviour;
  swarm_deref_mut s b := mkSw (sw_events s) b;
  addr_to_string a := a;
  node_order m := (map_to_list m).*1;
  Interval := nat;
  interval_poll i := match i with O => (false, O) | S i => (true, i) end;
}.
#[export] Instance node_order_law : NodeOrderLaw Z Z bytes.
Proof. by intros m. Qed.
Definition queue_poll (q : list Z) : Poll (option Z) * list Z :=
  match q with x :: q => (Poll.Ready (Some x), q) | [] => (Poll.NotReady, []) end.
#[export] Instance peer_queue : DelayQueue Z := {
  dq := list Z;
  dq_key := unit;
  dq_new := [];
  dq_insert q p _ := (tt, q ++ [p]);
  dq_remove q _ := Some q;
  dq_reset q _ _ := Some q;
  dq_poll := queue_poll;
}.
#[export] Instance drains : Drains Z Z bytes.
Proof.
  refine {| sw_left := λ s : swarm_t, length (sw_events s); ticks := λ i : Interval, i; timers := λ q : dq, length q |}.
  - intros s. simpl. unfold sw_poll. destruct (sw_events s); simpl; [done|lia].
  - intros [|i]; simpl; [done|lia].
  - intros [|x q]; simpl; [done|lia].
Defined.

Definition addr : bytes := bytes_of "/ip4/10.0.0.7/tcp/4001"%string.
Definition behaviour : Behaviour Z Z bytes := mkBehaviour [] P2P.new [] [] (2%nat, []).
Definition service (events : list (BehaviourEvent Z Z bytes)) (ns : gmap Z (DialNode bytes)) : Service Z Z bytes :=
  mkService (mkSw events behaviour) [] [] ∅ ns 1%nat.

Definition known : gmap Z (DialNode bytes) := {[7%Z := mkDialNode [addr] DialStatus.Connected]}.
Definition goodbye : BehaviourEvent Z Z bytes := BehaviourEvent.RPC 7%Z (P2PEvent.Request 1 (P2PRequest.Goodbye GoodbyeReason.Fault)).
Definition left7 : BehaviourEvent Z Z bytes := BehaviourEvent.PeerDisconnected 7%Z.

Definition only_7_leaves (s : swarm_t) : Prop := Forall (λ e, ∀ p, e = BehaviourEvent.PeerDisconnected p → p = 7%Z) (sw_events s).
Lemma only_7_leavers : leavers {[7%Z]} only_7_leaves.
Proof.
  intros s Hs. unfold only_7_leaves in *. simpl. unfold sw_poll. destruct (sw_events s) as [|e l] eqn:He; simpl; [by rewrite He|].
  apply Forall_cons in Hs as [H7 Hl]. split; [done|]. intros p [= ->]. specialize (H7 p eq_refl). set_solver.
Qed.
Definition silent (s : swarm_t) : Prop := sw_events s = [].
Lemma silent_never_connects p : never_connects p silent.
Proof.
  split; try done. intros s Hs. unfold silent in *. simpl. unfold sw_poll. rewrite Hs. simpl. done.
Qed.
Definition gs0 : @Gossipsub Z Z bytes _ := [].
Definition kad0 : @Kademlia Z Z bytes _ := [].
Definition start : Behaviour Z Z bytes := Behaviour.new gs0 kad0.
End NetEx.
Import NetEx.

(** A peer says goodbye and leaves: the round ends. *)
Lemma network_round_returns_witness :
  ∃ s' out, NetworkThread.network_service 5 5 (service [goodbye; left7] known)
    [NetworkMessage.Disconnect 3%Z] false true = Ok (s', out) ∧ round_ok {[7%Z]} s'.
Proof.
  destruct (network_round_returns (DR:=drains) {[7%Z]} only_7_leaves only_7_leavers 5 5
    (service [goodbye; left7] known) [NetworkMessage.Disconnect 3%Z] true) as [Hr|[Ho _]].
  - split; [|vm_compute; set_solver]. intros p n. unfold service, known. simpl.
    rewrite lookup_singleton_Some. by intros [_ <-].
  - repeat constructor; intros p [= ->]; done.
  - vm_compute. lia.
  - vm_compute. lia.
  - exact Hr.
  - discriminate Ho.
Defined.

Lemma failed_dial_not_retried_witness :
  let s := service [] {[7%Z := mkDialNode [addr] DialStatus.Unknown]} in
  ∃ s1 s2 out, Service.dial_peer (E:=unit) s = Ok s1 ∧
    NetworkThread.network_service 5 5 s1 [] false true = Ok (s2, out) ∧
    nodes s2 !! 7%Z = Some (mkDialNode [addr] DialStatus.Dial) ∧
    Service.dialable s2 7%Z (mkDialNode [addr] DialStatus.Dial) = false.
Proof.
  eexists _, _, _. split; [vm_compute; reflexivity|]. split; [vm_compute; reflexivity|].
  eapply (failed_dial_not_retried 7%Z silent (service [] {[7%Z := mkDialNode [addr] DialStatus.Unknown]})
    _ _ (mkDialNode [addr] DialStatus.Unknown)).
  - apply silent_never_connects.
  - intros p n. unfold service. simpl. rewrite lookup_singleton_Some. by intros [_ <-].
  - reflexivity.
  - reflexivity.
  - vm_compute. reflexivity.
  - reflexivity.
  - eapply (rounds_cons _ _ _ 5 5 [] true); [vm_compute; reflexivity|constructor].
Defined.

Lemma unknown_peer_disconnect_panics_witness :
  NetworkThread.network_service 100 100
    (service [BehaviourEvent.InjectConnect 9%Z ConnectedPoint.Listener; BehaviourEvent.PeerDisconnected 9%Z] known)
    [] false true = Panic.
Proof.
  refine (proj1 (unknown_peer_disconnect_panics
    (service [BehaviourEvent.InjectConnect 9%Z ConnectedPoint.Listener; BehaviourEvent.PeerDisconnected 9%Z] known)
    9%Z (mkSw [BehaviourEvent.PeerDisconnected 9%Z] behaviour) (mkSw [] behaviour) [] true 100 100 _ _ _));
    reflexivity.
Defined.

Lemma gossip_passed_on_once_witness :
  let m id src := GossipsubEvent.Message src id [] [] in
  let b1 := inject_all start ([] : list (GossipsubEvent.t Z Z)) in
  let b2 := Behaviour.inject_gossipsub b1 (m 1%Z 7%Z) in
  let b3 := inject_all b2 [m 2%Z 7%Z] in
  bh_events b2 = bh_events b1 ++ [BehaviourEvent.GossipMessage 1%Z 7%Z [] (PubsubMessage.from_topics [] [])] ∧
  bh_events (Behaviour.inject_gossipsub b3 (m 1%Z 8%Z)) = bh_events b3.
Proof.
  apply (gossip_passed_on_once (Addr:=bytes) gs0 kad0 [] [GossipsubEvent.Message 7%Z 2%Z [] []] 1%Z 7%Z 8%Z [] [] [] []).
  - set_solver.
  - vm_compute. reflexivity.
Defined.
