(* ===== verification/Rpc.v ===== *)
(** * Rpc: the JSON-RPC interface of the node (src/rpc/src/api)

    [map_sendTransaction] makes a transfer of an account whose key the node holds, signs
    it, gives it to the pool and publishes it; the chain interface reads blocks.  The text
    of an answer is a constructor; the pool and the chain behind their locks are
    arguments. *)
From Stdlib Require String.
From S2P Require Import Prelude Hashing Types Codec Keys Store State StateExample Transaction Storage Balance Block Executor.
From S2P Require Import Staking Runtime Vrf ChainStore BlockChain TxPool Messages Handler Epoch NetService.
Import (notations) String.

Module HexError.
Inductive t : Type := TooShort | OddLength | InvalidChar (c : Z) | NoPrefix.
End HexError.
(** The text that [send_transaction] returns: what is printed after the constant words. *)
Module Reply.
Inductive t : Type :=
  | FromNotHex (from : bytes) | ToNotHex (to : bytes) | ConvertError (text : bytes) | NoAccount (from : bytes) | TxHash (text : bytes).
End Reply.

Definition is_hex_char (c : Z) : bool :=
  bool_decide (65 ≤ c ≤ 70) || bool_decide (97 ≤ c ≤ 102) || bool_decide (48 ≤ c ≤ 57).
Fixpoint check_chars (l : bytes) : Outcome HexError.t unit :=
  match l with
  | [] => Ok tt
  | c :: l => if is_hex_char c then check_chars l else Err (HexError.InvalidChar c)
  end.
Definition is_hex (hex : bytes) : Outcome HexError.t unit :=
  if decide (length hex < 2)%nat then Err HexError.TooShort
  else if decide (Z.land (Z.of_nat (length hex)) 1 ≠ 0) then Err HexError.OddLength
  else if decide (take 2 hex = bytes_of "0x") then check_chars (drop 2 hex)
  else Err HexError.NoPrefix.

Record AccountManagerImpl : Type := mkAccountManagerImpl { accounts : gmap Address PrivKey }.
Module AccountManagerImpl.
Section AccountManager.
Context {D M TM R Peer MsgId : Type} `{P : Profile, KVDB D, MemoryDB M, TO : !TrieOps (ArchiveDB D M) TM}.
Context `{IterOrder, RocksDB R, Blake2b, Ed25519, Hex}.
Context `{Bincode Account, Bincode MsgTransfer, Bincode TxHashType, Bincode Header, Bincode Block, Bincode Transaction}.
Context `{PriorityHeap, PoolOrder} {E : Type}.
Implicit Types (bc : BlockChain D M R) (tp : TxPoolManager) (self : AccountManagerImpl).

Definition new (key : bytes) : Outcome E AccountManagerImpl :=
  if decide (key = []) then Ok (mkAccountManagerImpl ∅)
  else
    priv_key ← unwrap_res (PrivKey.from_hex key);
    pubkey ← unwrap_res (PrivKey.to_pubkey priv_key);
    let address := Address.from_pubkey (Pubkey.to_bytes pubkey) in
    Ok (mkAccountManagerImpl {[ address := priv_key ]}).

(** The pool, what is sent to the network thread, and the answer. *)
Definition send_transaction self bc tp (from to : bytes) (value : Z)
    : Outcome E (TxPoolManager * list (NetworkMessage Peer MsgId) * Reply.t) :=
  if negb (is_ok (is_hex from)) then Ok (tp, [], Reply.FromNotHex from)
  else if negb (is_ok (is_hex to)) then Ok (tp, [], Reply.ToNotHex to)
  else
    match Address.from_hex from with
    | Panic => Panic
    | Err _ => Ok (tp, [], Reply.ConvertError from)
    | Ok from =>
        match Address.from_hex to with
        | Panic => Panic
        | Err _ => Ok (tp, [], Reply.ConvertError to)
        | Ok to =>
            match accounts self !! from with
            | None => Ok (tp, [], Reply.NoAccount (Address.fmt_display from))
            | Some priv_key =>
                nonce ← TxPoolManager.get_nonce bc from;
                let input := serialize (mkMsgTransfer to value) in
                next ← add_u 64 nonce 1;
                let tx := Transaction.new from next 1000 1000 (bytes_of "balance.transfer") input in
                tx ← unwrap_res (Transaction.sign tx (PrivKey.to_bytes priv_key));
                r ← TxPoolManager.add_tx bc tp tx;
                Ok (r.1, if r.2 : bool then [NetworkThread.publish_transaction tx] else [], Reply.TxHash (Hash.fmt_display (Transaction.hash tx)))
            end
        end
    end.
End AccountManager.
End AccountManagerImpl.

Module ChainRpcImpl.
Section ChainRpc.
Context {D M R : Type} `{RocksDB R, Bincode Header, Bincode Block} {E : Type}.
Implicit Types (bc : BlockChain D M R).
Definition get_block bc (h : Hash) : Outcome E (option Block) := BlockChain.get_block bc h.
Definition get_block_by_number bc (num : Z) : Outcome E (option Block) := BlockChain.get_block_by_number bc num.
Definition get_header_by_number bc (num : Z) : Outcome E (option Header) := BlockChain.get_header_by_number bc num.
Definition get_transaction (h : Hash) : option bytes := Some (bytes_of "Success").
End ChainRpc.
End ChainRpcImpl.

(** A block with its hash as text (src/rpc/src/types/block_json.rs). *)
Record BlockJson : Type := mkBlockJson { inner : Block; extra_info : list (bytes * bytes) }.
Module BlockJson.
Definition default_extra_info `{Blake2b, Bincode Header} (b : Block) : list (bytes * bytes) :=
  [(bytes_of "hash", Hash.fmt_display (Block.hash b))].
Definition from `{Blake2b, Bincode Header} (b : Block) : BlockJson := mkBlockJson b (default_extra_info b).
End BlockJson.

(** ** Addresses as text *)
Section HexFacts.
Context `{HL : HexLaws}.
Definition hex_text (b : bytes) : bytes := bytes_of "0x" ++ hex_encode b.
Lemma hex_digits_length b : length (hex_digits b) = (2 * length b)%nat.
Proof. induction b; simpl; lia. Qed.
Lemma check_chars_digits l : Forall is_hex_digit l → check_chars l = Ok tt.
Proof.
  induction 1 as [|c l Hc _ IH]; simpl; [done|]. replace (is_hex_char c) with true; [done|]. symmetry. unfold is_hex_char.
  destruct Hc; [rewrite (bool_decide_true (48 ≤ c ≤ 57)) by done|rewrite (bool_decide_true (97 ≤ c ≤ 102)) by done].
  - apply orb_true_r.
  - by rewrite orb_true_r.
Qed.
Lemma is_hex_text b : Forall is_byte b → is_hex (hex_text b) = Ok tt.
Proof.
  intros Hb. unfold is_hex, hex_text. change (bytes_of "0x") with [48; 120].
  assert (Hl : length ([48; 120] ++ hex_encode b) = (2 * S (length b))%nat).
  { rewrite length_app, hex_encode_spec, hex_digits_length by done. simpl. lia. }
  rewrite Hl, decide_False by lia. rewrite decide_False.
  - rewrite decide_True by done. apply check_chars_digits. by apply hex_encode_digits.
  - intros Hne. apply Hne. rewrite (Z.land_ones _ 1) by lia. change (2 ^ 1) with 2. rewrite Nat2Z.inj_mul. apply Z.mod_divide; [lia|].
    exists (Z.of_nat (S (length b))). lia.
Qed.
Lemma address_text a : addr_wf a → Address.from_hex (hex_text (addr_bytes a)) = Ok a.
Proof. intros Ha. by apply Address_from_hex_encode. Qed.
(** Any other number of bytes brings [copy_from_slice] down. *)
Lemma other_text b : Forall is_byte b → length b ≠ 20%nat → Address.from_hex (hex_text b) = Panic.
Proof.
  intros Hb Hl. unfold Address.from_hex, hex_text. change (bytes_of "0x" ++ hex_encode b) with (48 :: 120 :: hex_encode b).
  rewrite strip_0x_hex, hex_decode_encode by done. simpl. unfold copy_from_slice. by rewrite decide_False.
Qed.
End HexFacts.

Section AccountFacts.
Context `{HB : Blake2b, EL : Ed25519Laws, HL : HexLaws} {E : Type}.
(** The key given on the command line is the key of its own address. *)
Lemma new_account sk :
  length sk = 32%nat → Forall is_byte sk → secret_ok sk = true →
  AccountManagerImpl.new (E:=E) (hex_text sk) =
    Ok (mkAccountManagerImpl {[ Address.from_pubkey (public_of_secret sk) := mkPrivKey sk ]}).
Proof.
  intros Hl Hb Hok. unfold AccountManagerImpl.new, hex_text. change (bytes_of "0x" ++ hex_encode sk) with (48 :: 120 :: hex_encode sk).
  rewrite decide_False by done. unfold PrivKey.from_hex. rewrite strip_0x_hex, hex_decode_encode by done. simpl.
  rewrite decide_True by done. simpl. unfold PrivKey.to_pubkey, PrivKey.to_secrit_key. simpl. rewrite Hok. done.
Qed.
End AccountFacts.

(** ** Sending a transaction *)
Section RpcFacts.
Context {D M TM R Peer MsgId : Type} {node_hash : bytes → Hash}.
Context `{P : Profile, KL : KVDBLaws D, MM : MemoryDB M, TO : !TrieOps (ArchiveDB D M) TM}.
Context `{MLL : !MemoryDBLaws M node_hash, TL : !TrieLaws D M TM node_hash}.
Context `{IO : IterOrder, !IterOrderLaw, RL : RocksDBLaws R, HB : Blake2bLaws, AK : !AddressKeys, EL : Ed25519Laws, HL : HexLaws}.
Context `{BA : BincodeLaws Account, BT : BincodeLaws MsgTransfer, BX : Bincode TxHashType}.
Context `{BE : Bincode ListEntry, BTX : Bincode (list Transaction), BSG : Bincode (list VerificationItem)}.
Context `{BHD : BincodeLaws Header, BBK : BincodeLaws Block, BTN : Bincode Transaction}.
Context `{PH : PriorityHeap, OL : PoolOrderLaw} {E : Type}.
Implicit Types (bc : BlockChain D M R) (b p : Block) (bs : list Block) (tp : TxPoolManager) (self : AccountManagerImpl) (L : ledger).

(** The node knows the ledger of its head. *)
Definition head_ledger bc p bs m L : Prop :=
  chain_inv bc (p :: bs) ∧ trie_rep (kv_map (backend (state_backend bc))) (Block.state_root p) m ∧ ledger_of m L.
Lemma head_account_spec {E'} bc p bs m L a :
  head_ledger bc p bs m L → addr_wf a → TxPoolManager.head_account (E:=E') bc a = Ok (L a).
Proof.
  intros (Hi & Hm & HL') Ha. unfold TxPoolManager.head_account. rewrite (inv_current _ _ _ Hi), bind_Ok.
  unfold Balance.get_account. apply (load_account_rep (SL:=StateDB_StorageLaws)); [|done].
  exists m. split; [|done]. apply from_existing_rep; [apply Hi|done].
Qed.

(** A transaction is pooled exactly when the balance covers its value and its nonce is
    the next one; nothing else is looked at. *)
Lemma add_tx_spec {E'} bc tp p bs m L tx msg :
  head_ledger bc p bs m L → addr_wf (tx_sender tx) → deserialize (tx_data tx) = Some msg →
  in_u 64 (acc_nonce (L (tx_sender tx)) + 1) →
  TxPoolManager.add_tx (E:=E') bc tp tx =
    Ok (if decide (transfer_value msg ≤ acc_balance (L (tx_sender tx)) ∧ tx_nonce tx = acc_nonce (L (tx_sender tx)) + 1)
        then (TxPoolManager.set_pending tp (<[Transaction.hash tx := tx]> (pending tp)), true) else (tp, false)).
Proof.
  intros Hh Hs Hd Hn. unfold TxPoolManager.add_tx, TxPoolManager.validate_tx, Transaction.get_value, Transaction.get_nonce.
  rewrite (head_account_spec _ _ _ _ _ _ Hh Hs), bind_Ok, Hd. cbn [unwrap]. rewrite !bind_Ok.
  unfold Account.get_balance, Account.get_nonce. cbv [mret outcome_mret]. rewrite bind_Ok.
  case_decide as Hb; [by rewrite decide_False by lia|].
  unfold add_u. rewrite arith_in, bind_Ok by done.
  case_decide; [by rewrite decide_False by lia|by rewrite decide_True by lia].
Qed.

(** The transaction the node makes. *)
Record made L (from to : Address) (value : Z) (tx : Transaction) : Prop := {
  mk_sender : tx_sender tx = from;
  mk_nonce : tx_nonce tx = acc_nonce (L from) + 1;
  mk_data : deserialize (tx_data tx) = Some (mkMsgTransfer to value);
  mk_signed : Transaction.verify_sign tx = Ok tt;
}.
Lemma sign_keeps tx sk tx' :
  Transaction.sign tx sk = Ok tx' → tx_sender tx' = tx_sender tx ∧ tx_nonce tx' = tx_nonce tx ∧ tx_data tx' = tx_data tx.
Proof.
  unfold Transaction.sign, Transaction.set_sign_data. intros Hs.
  repeat (apply bind_Ok_inv in Hs as (? & _ & Hs)). by injection Hs as <-.
Qed.
Lemma send_spec self bc tp p bs m L from to value sk :
  head_ledger bc p bs m L → addr_wf from → addr_wf to → in_u 64 (acc_nonce (L from) + 1) →
  accounts self !! from = Some (mkPrivKey sk) → length sk = 32%nat → secret_ok sk = true →
  ∃ tx, made L from to value tx ∧
    AccountManagerImpl.send_transaction (Peer:=Peer) (MsgId:=MsgId) (E:=E) self bc tp (hex_text (addr_bytes from)) (hex_text (addr_bytes to)) value =
    Ok (if decide (value ≤ acc_balance (L from))
        then (TxPoolManager.set_pending tp (<[Transaction.hash tx := tx]> (pending tp)), [NetworkThread.publish_transaction tx], Reply.TxHash (Hash.fmt_display (Transaction.hash tx)))
        else (tp, [], Reply.TxHash (Hash.fmt_display (Transaction.hash tx)))).
Proof.
  intros Hh Hf Ht Hn Hk Hl Hok. unfold AccountManagerImpl.send_transaction.
  rewrite !is_hex_text by (apply Hf || apply Ht). cbn [is_ok negb]. rewrite !address_text, Hk by done.
  unfold TxPoolManager.get_nonce. rewrite (head_account_spec _ _ _ _ _ _ Hh Hf), bind_Ok. unfold Account.get_nonce. cbv [mret outcome_mret]. rewrite bind_Ok.
  unfold add_u at 1. rewrite arith_in, bind_Ok by done. cbv zeta. set (tx0 := Transaction.new _ _ _ _ _ _).
  destruct (sign_verify tx0 sk Hl Hok) as (tx & Hs & Hv & Hh' & _ & _). exists tx.
  destruct (sign_keeps _ _ _ Hs) as (Hse & Hno & Hda). simpl in Hse, Hno, Hda.
  assert (Hmade : made L from to value tx) by (split; [done|done|rewrite Hda; apply deserialize_serialize|done]).
  split; [done|]. unfold PrivKey.to_bytes. simpl sk_inner. rewrite Hs. cbn [unwrap_res]. rewrite bind_Ok.
  rewrite (add_tx_spec bc tp p bs m L tx (mkMsgTransfer to value)); [|done|by rewrite Hse|by apply Hmade|by rewrite Hse].
  rewrite bind_Ok, Hse, Hno. cbn [transfer_value].
  case_decide as Hb; [by rewrite decide_True by lia|by rewrite decide_False by lia].
Qed.

Lemma made_wf L from to value tx : made L from to value tx → addr_wf from → addr_wf to → in_u 128 value → tx_wf tx.
Proof.
  intros Hm Hf Ht Hv. split; [by rewrite (mk_sender _ _ _ _ _ Hm)|]. intros msg Hd. rewrite (mk_data _ _ _ _ _ Hm) in Hd. by simplify_eq.
Qed.
Lemma pending_one tp tx : pending tp = ∅ →
  TxPoolManager.get_pending (TxPoolManager.set_pending tp (<[Transaction.hash tx := tx]> (pending tp))) = [tx].
Proof.
  intros He. unfold TxPoolManager.get_pending. simpl. rewrite He.
  pose proof (pool_order_perm {[Transaction.hash tx := tx]}) as Hp. rewrite map_to_list_singleton in Hp.
  symmetry in Hp. apply Permutation_singleton_l in Hp. unfold singletonM, map_singleton in Hp. by rewrite <- Hp.
Qed.
Lemma pending_two tp tx tx' : pending tp = {[Transaction.hash tx := tx]} → Transaction.hash tx' ≠ Transaction.hash tx →
  let l := TxPoolManager.get_pending (TxPoolManager.set_pending tp (<[Transaction.hash tx' := tx']> (pending tp))) in
  l = [tx; tx'] ∨ l = [tx'; tx].
Proof.
  intros He Hn. unfold TxPoolManager.get_pending. simpl. rewrite He.
  pose proof (pool_order_perm (<[Transaction.hash tx' := tx']> {[Transaction.hash tx := tx]})) as Hp.
  rewrite map_to_list_insert, map_to_list_singleton in Hp by (by rewrite lookup_singleton_ne).
  symmetry in Hp. apply (Permutation_map snd) in Hp. simpl in Hp. symmetry in Hp. set (l := List.map snd _) in Hp.
  change (l = [tx; tx'] ∨ l = [tx'; tx]).
  destruct l as [|a [|b [|c l]]]; try (by apply Permutation_length in Hp).
  apply Permutation_length_2_inv in Hp. naive_solver.
Qed.
(** Transactions executed on a map that holds a ledger. *)
Lemma map_exec_ledger m L l :
  ledger_of m L → Forall tx_wf l →
  match LedgerExec.exec_txs l Address_default L with
  | Ok L' => ∃ m', map_exec l m = Ok m' ∧ ledger_of m' L'
  | _ => is_ok (map_exec l m) = false
  end.
Proof.
  intros HL' Htx. assert (Hmw : addr_wf Address_default) by (split; [done|]; by apply Forall_replicate).
  pose proof (exc_txs_loop_refines (SL:=map_storage_laws) l (mkBalance m Hash_default) L Address_default) as Hr.
  specialize (Hr ltac:(by exists m) Hmw Htx). unfold map_exec.
  destruct (Executor.exc_txs_loop _ _ _) as [b'|e|], (LedgerExec.exec_txs _ _ _) as [L'|e'|]; try done.
  destruct Hr as (m' & Hm' & HL2). simpl in Hm'. exists m'. by rewrite <- Hm' in HL2 |- *.
Qed.

(** What the transfer leaves, with the fee for the zero address. *)
Definition paid L L' (from to : Address) (value : Z) : Prop :=
  L' from = mkAccount (acc_balance (L from) - transfer_fee - value) (acc_nonce (L from) + 1) (acc_locked (L from)) ∧
  acc_balance (L' to) = acc_balance (L to) + value ∧
  acc_balance (L' Address_default) = acc_balance (L Address_default) + transfer_fee ∧
  ∀ a, a ≠ from → a ≠ to → a ≠ Address_default → L' a = L a.
Lemma made_exec L from to value tx :
  Ledger.wf L → made L from to value tx → in_u 64 (acc_nonce (L from) + 1) → in_u 128 value →
  value + transfer_fee ≤ acc_balance (L from) → from ≠ to → from ≠ Address_default → to ≠ Address_default →
  in_u 128 (acc_balance (L to) + value) → in_u 128 (acc_balance (L Address_default) + transfer_fee) →
  ∃ L', LedgerExec.exec_txs [tx] Address_default L = Ok L' ∧ paid L L' from to value.
Proof.
  intros Hwf Hm Hn Hv Hf Hft Hfd Htd Hto Hfee.
  destruct (exec_tx_valid L tx (mkMsgTransfer to value) Hwf) as [He _].
  { split_and!; [by apply Hm|by apply Hm|by rewrite (mk_nonce _ _ _ _ _ Hm), (mk_sender _ _ _ _ _ Hm)|by rewrite (mk_sender _ _ _ _ _ Hm)]. }
  { done. }
  { by rewrite (mk_nonce _ _ _ _ _ Hm). }
  { done. }
  simpl. rewrite He, bind_Ok. unfold Ledger.update. set (L1 := after_tx _ _ _).
  assert (HL1 : ∀ a, a ≠ from → a ≠ to → L1 a = L a).
  { intros a Ha Hb. unfold L1, after_tx. rewrite (mk_sender _ _ _ _ _ Hm). simpl. rewrite LedgerFacts.after_transfer_other by done.
    apply charge_other. by rewrite (mk_sender _ _ _ _ _ Hm). }
  rewrite LedgerFacts.credit_in by (rewrite HL1 by auto; done). cbv [mret outcome_mret]. rewrite !bind_Ok. eexists. split; [done|].
  assert (Hch : charge L tx from = mkAccount (acc_balance (L from) - transfer_fee) (acc_nonce (L from) + 1) (acc_locked (L from))).
  { pose proof (charge_sender L tx) as Hc. by rewrite (mk_sender _ _ _ _ _ Hm) in Hc. }
  unfold paid. rewrite LedgerFacts.set_eq, !LedgerFacts.set_ne by auto. split_and!.
  - unfold L1, after_tx, LedgerFacts.after_transfer. rewrite (mk_sender _ _ _ _ _ Hm). simpl.
    rewrite LedgerFacts.set_ne, LedgerFacts.set_eq by auto. by rewrite Hch.
  - unfold L1, after_tx, LedgerFacts.after_transfer. rewrite (mk_sender _ _ _ _ _ Hm). simpl.
    rewrite LedgerFacts.set_eq. simpl. rewrite LedgerFacts.set_ne by auto. rewrite charge_other; [done|]. by rewrite (mk_sender _ _ _ _ _ Hm).
  - simpl. by rewrite HL1 by auto.
  - intros a Ha Hb Hc. rewrite LedgerFacts.set_ne by done. by apply HL1.
Qed.

(** Until a block is made the account's nonce stays: a second transfer of the account is
    made with the same nonce, and no block can be produced of the two. *)
Lemma second_send_stops_proposer self bc tp p bs m L from to value tx to' value' sk now slot v pf :
  head_ledger bc p bs m L → pending tp = {[Transaction.hash tx := tx]} → made L from to value tx → in_u 128 value → addr_wf to →
  addr_wf from → addr_wf to' → accounts self !! from = Some (mkPrivKey sk) → length sk = 32%nat → secret_ok sk = true →
  in_u 128 value' → value' ≤ acc_balance (L from) → in_u 64 (acc_nonce (L from) + 1) →
  in_u 64 (height (header p) + 1) → time (header p) < now →
  ∃ tx' tp',
    AccountManagerImpl.send_transaction (Peer:=Peer) (MsgId:=MsgId) (E:=E) self bc tp (hex_text (addr_bytes from)) (hex_text (addr_bytes to')) value' =
      Ok (tp', [NetworkThread.publish_transaction tx'], Reply.TxHash (Hash.fmt_display (Transaction.hash tx'))) ∧
    (Transaction.hash tx' ≠ Transaction.hash tx → Builder.produce_block (E:=E) bc tp' now slot (Block.hash p) v pf = Panic).
Proof.
  intros Hh Hpe Hm Hv Ht Hf Ht' Hk Hl Hok Hv' Hb Hn Hhe Hti.
  destruct (send_spec self bc tp p bs m L from to' value' sk Hh Hf Ht' Hn Hk Hl Hok) as (tx' & Hm' & Hs).
  rewrite decide_True in Hs by lia. eexists tx', _. split; [exact Hs|]. intros Hne. destruct Hh as (Hi & Hms & HLm).
  pose proof (produce_block_spec (E:=E) bc p bs m (TxPoolManager.set_pending tp (<[Transaction.hash tx' := tx']> (pending tp))) now slot v pf Hi Hhe Hti Hms) as Hpb.
  set (l := TxPoolManager.get_pending _) in Hpb.
  assert (Hwf : tx_wf tx ∧ tx_wf tx') by (split; [exact (made_wf _ _ _ _ _ Hm Hf Ht Hv)|exact (made_wf _ _ _ _ _ Hm' Hf Ht' Hv')]).
  assert (Hno : is_ok (LedgerExec.exec_txs l Address_default L) = false ∧ Forall tx_wf l).
  { destruct (pending_two tp tx tx' Hpe Hne) as [Hl1|Hl1]; fold l in Hl1; rewrite Hl1;
      (split; [|rewrite !Forall_cons, Forall_nil; tauto]); apply exec_txs_same_nonce;
      rewrite ?(mk_sender _ _ _ _ _ Hm), ?(mk_sender _ _ _ _ _ Hm'), ?(mk_nonce _ _ _ _ _ Hm), ?(mk_nonce _ _ _ _ _ Hm'); done. }
  destruct Hno as [Hno Hall]. pose proof (map_exec_ledger m L l HLm Hall) as Hx.
  destruct (LedgerExec.exec_txs l Address_default L); [discriminate Hno|..]; by destruct (map_exec l m).
Qed.

(** C21: From the interface to the chain.  Take a node with no pending transaction and an
    account it has the key of, which sends to another account, neither of them the zero
    address, which collects the fees, a value that it can pay together with the fee and
    that the receiver can hold.  The transfer is signed, pooled and published, the answer
    is the first four bytes of its hash, and the next block of the node consists of it
    and moves exactly the value and the fee.  When the account sends a second, different
    transfer before that block is made, it is pooled and published too, with the same
    nonce, and the node panics instead of making the block. *)
Theorem send_transaction_reaches_block self bc tp p bs m L from to value sk now slot v pf :
  head_ledger bc p bs m L → Ledger.wf L → pending tp = ∅ →
  addr_wf from → addr_wf to → from ≠ to → from ≠ Address_default → to ≠ Address_default →
  accounts self !! from = Some (mkPrivKey sk) → length sk = 32%nat → secret_ok sk = true →
  in_u 128 value → value + transfer_fee ≤ acc_balance (L from) → in_u 64 (acc_nonce (L from) + 1) →
  in_u 128 (acc_balance (L to) + value) → in_u 128 (acc_balance (L Address_default) + transfer_fee) →
  in_u 64 (height (header p) + 1) → time (header p) < now →
  ∃ tx tp' bc' b L' m',
    AccountManagerImpl.send_transaction (Peer:=Peer) (MsgId:=MsgId) (E:=E) self bc tp (hex_text (addr_bytes from)) (hex_text (addr_bytes to)) value =
      Ok (tp', [NetworkThread.publish_transaction tx], Reply.TxHash (Hash.fmt_display (Transaction.hash tx))) ∧
    Builder.produce_block (E:=E) bc tp' now slot (Block.hash p) v pf = Ok (bc', b) ∧ txs b = [tx] ∧
    trie_rep (kv_map (backend (state_backend bc'))) (Block.state_root b) m' ∧ ledger_of m' L' ∧ paid L L' from to value ∧
    ∀ to2 value2, addr_wf to2 → in_u 128 value2 → value2 ≤ acc_balance (L from) →
      ∃ tx2 tp2,
        AccountManagerImpl.send_transaction (Peer:=Peer) (MsgId:=MsgId) (E:=E) self bc tp' (hex_text (addr_bytes from)) (hex_text (addr_bytes to2)) value2 =
          Ok (tp2, [NetworkThread.publish_transaction tx2], Reply.TxHash (Hash.fmt_display (Transaction.hash tx2))) ∧
        (Transaction.hash tx2 ≠ Transaction.hash tx →
         Builder.produce_block (E:=E) bc tp2 now slot (Block.hash p) v pf = Panic).
Proof.
  intros Hh Hwf He Hf Ht Hft Hfd Htd Hk Hl Hok Hv Hb Hn Hto Hfee Hhe Hti.
  destruct (send_spec self bc tp p bs m L from to value sk Hh Hf Ht Hn Hk Hl Hok) as (tx & Hm & Hs).
  rewrite decide_True in Hs by (unfold transfer_fee in *; lia).
  destruct (made_exec L from to value tx) as (L' & HL1 & Hp); [done..|].
  pose proof Hh as (Hi & Hms & HLm).
  pose proof (map_exec_ledger m L [tx] HLm (proj2 (list.Forall_singleton _ _) (made_wf _ _ _ _ _ Hm Hf Ht Hv))) as Hx. rewrite HL1 in Hx.
  destruct Hx as (m' & Hmx & HL2).
  pose proof (produce_block_spec (E:=E) bc p bs m (TxPoolManager.set_pending tp (<[Transaction.hash tx := tx]> (pending tp))) now slot v pf Hi Hhe Hti Hms) as Hpb.
  rewrite pending_one, Hmx in Hpb by done. destruct Hpb as (bc' & b & Hpb & Hof & _ & Htr & _).
  exists tx, (TxPoolManager.set_pending tp (<[Transaction.hash tx := tx]> (pending tp))), bc', b, L', m'. split_and!; [done|done| |done..|].
  - rewrite (of_txs _ _ _ _ _ _ _ Hof). by apply pending_one.
  - intros to2 value2 Ht2 Hv2 Hb2. eapply (second_send_stops_proposer self bc _ p bs m L from to value tx); try done. simpl. by rewrite He.
Qed.

(** The pool does not count the fee: a transfer of more than the balance less the fee is
    pooled and published all the same, and the next block cannot be produced. *)
Theorem send_transaction_stops_proposer self bc tp p bs m L from to value sk now slot v pf :
  head_ledger bc p bs m L → pending tp = ∅ → addr_wf from → addr_wf to →
  accounts self !! from = Some (mkPrivKey sk) → length sk = 32%nat → secret_ok sk = true →
  in_u 128 value → in_u 64 (acc_nonce (L from) + 1) → in_u 128 (value + transfer_fee) →
  value ≤ acc_balance (L from) < value + transfer_fee →
  in_u 64 (height (header p) + 1) → time (header p) < now →
  ∃ tx tp',
    AccountManagerImpl.send_transaction (Peer:=Peer) (MsgId:=MsgId) (E:=E) self bc tp (hex_text (addr_bytes from)) (hex_text (addr_bytes to)) value =
      Ok (tp', [NetworkThread.publish_transaction tx], Reply.TxHash (Hash.fmt_display (Transaction.hash tx))) ∧
    Builder.produce_block (E:=E) bc tp' now slot (Block.hash p) v pf = Panic.
Proof.
  intros Hh He Hf Ht Hk Hl Hok Hv Hn Hfe Hb Hhe Hti.
  destruct (send_spec self bc tp p bs m L from to value sk Hh Hf Ht Hn Hk Hl Hok) as (tx & Hm & Hs).
  rewrite decide_True in Hs by lia. eexists tx, _. split; [exact Hs|].
  destruct Hh as (Hi & Hms & HLm). pose proof (map_exec_ledger m L [tx] HLm (proj2 (list.Forall_singleton _ _) (made_wf _ _ _ _ _ Hm Hf Ht Hv))) as Hx.
  assert (He' : LedgerExec.exec_txs [tx] Address_default L = Err BalanceNotEnough).
  { simpl. unfold LedgerExec.exec_tx, add_u. rewrite (mk_data _ _ _ _ _ Hm), (mk_signed _ _ _ _ _ Hm), (mk_sender _ _ _ _ _ Hm).
    cbn [unwrap]. rewrite !bind_Ok, (arith_in 64), bind_Ok by done. rewrite (mk_nonce _ _ _ _ _ Hm), decide_False by auto.
    cbn [transfer_value]. rewrite (arith_in 128), bind_Ok by done. by rewrite decide_True by lia. }
  rewrite He' in Hx.
  pose proof (produce_block_spec (E:=E) bc p bs m (TxPoolManager.set_pending tp (<[Transaction.hash tx := tx]> (pending tp))) now slot v pf Hi Hhe Hti Hms) as Hpb.
  rewrite pending_one in Hpb by done. by destruct (map_exec [tx] m).
Qed.

(** An address in hex of another length than 20 bytes passes the check of the interface
    and panics the node; a transfer the account cannot pay is answered with the hash of
    a transaction that was thrown away. *)
Theorem send_transaction_bad_input self bc tp p bs m L from to value sk (short : bytes) :
  head_ledger bc p bs m L → addr_wf from → addr_wf to → in_u 64 (acc_nonce (L from) + 1) →
  accounts self !! from = Some (mkPrivKey sk) → length sk = 32%nat → secret_ok sk = true →
  Forall is_byte short → length short ≠ 20%nat → acc_balance (L from) < value →
  (AccountManagerImpl.send_transaction (Peer:=Peer) (MsgId:=MsgId) (E:=E) self bc tp (hex_text short) (hex_text (addr_bytes to)) value = Panic) ∧
  (AccountManagerImpl.send_transaction (Peer:=Peer) (MsgId:=MsgId) (E:=E) self bc tp (hex_text (addr_bytes from)) (hex_text short) value = Panic) ∧
  ∃ h, AccountManagerImpl.send_transaction (Peer:=Peer) (MsgId:=MsgId) (E:=E) self bc tp (hex_text (addr_bytes from)) (hex_text (addr_bytes to)) value =
    Ok (tp, [], Reply.TxHash h).
Proof.
  intros Hh Hf Ht Hn Hk Hl Hok Hs Hsl Hb. split_and!.
  - unfold AccountManagerImpl.send_transaction. rewrite !is_hex_text by (exact Hs || exact (proj2 Ht)). cbn [is_ok negb]. by rewrite other_text.
  - unfold AccountManagerImpl.send_transaction. rewrite !is_hex_text by (exact Hs || exact (proj2 Hf)). cbn [is_ok negb].
    by rewrite (address_text from), other_text.
  - destruct (send_spec self bc tp p bs m L from to value sk Hh Hf Ht Hn Hk Hl Hok) as (tx & Hm & Hse).
    rewrite decide_False in Hse by lia. eexists. exact Hse.
Qed.
End RpcFacts.

(** ** Worked examples *)
Section RpcWitnesses.
Import EpochEx.
#[local] Instance tx_bin : Bincode Transaction := example_bincode.
Abbreviation me := (mkAccountManagerImpl {[ genesis_addr := key ]}).
Lemma me_key : accounts me !! genesis_addr = Some (mkPrivKey ed_genesis_pub_key).
Proof. apply lookup_singleton_eq. Qed.
Lemma genesis_wf : Ledger.wf genesis_ledger.
Proof. intros a. unfold genesis_ledger, Ledger.set. case_decide; by vm_compute. Qed.
Lemma addr_2_wf : addr_wf (addr 2).
Proof. split; [reflexivity|]. apply (bool_decide_eq_true_1 _). vm_compute. reflexivity. Qed.
Lemma genesis_funds : genesis_ledger genesis_addr = mkAccount 1000000000000000000 0 0.
Proof. unfold genesis_ledger, Ledger.set. by rewrite decide_True. Qed.

Lemma send_transaction_reaches_block_witness :
  ∃ tx tp' bc' b,
    AccountManagerImpl.send_transaction (Peer:=Z) (MsgId:=Z) (E:=unit) me gen TxPoolManager.new (hex_text (addr_bytes genesis_addr)) (hex_text (addr_bytes (addr 2))) 5 =
      Ok (tp', [NetworkThread.publish_transaction tx], Reply.TxHash (Hash.fmt_display (Transaction.hash tx))) ∧
    Builder.produce_block (E:=unit) gen tp' (GENESIS_TIME + 6) 1 (Block.hash (genesis gen)) val prf = Ok (bc', b) ∧ txs b = [tx].
Proof.
  destruct gen_state as (m & Hm & HL & _).
  destruct (send_transaction_reaches_block (Peer:=Z) (MsgId:=Z) (E:=unit) me gen TxPoolManager.new (genesis gen) [] m genesis_ledger
    genesis_addr (addr 2) 5 ed_genesis_pub_key (GENESIS_TIME + 6) 1 val prf) as (tx & tp' & bc' & b & L' & m' & Hs & Hp & Ht & _).
  - split; [exact gen_inv|]. split; [exact Hm|exact HL].
  - exact genesis_wf.
  - reflexivity.
  - exact genesis_addr_wf.
  - exact addr_2_wf.
  - apply (bool_decide_ne addr_bytes). vm_compute. reflexivity.
  - apply (bool_decide_ne addr_bytes). vm_compute. reflexivity.
  - apply (bool_decide_ne addr_bytes). vm_compute. reflexivity.
  - exact me_key.
  - reflexivity.
  - vm_compute. reflexivity.
  - by vm_compute.
  - rewrite genesis_funds. by vm_compute.
  - rewrite genesis_funds. by vm_compute.
  - by vm_compute.
  - by vm_compute.
  - exact gen_next.
  - exact gen_before.
  - exists tx, tp', bc', b. split; [exact Hs|]. split; [exact Hp|exact Ht].
Defined.
Lemma send_transaction_stops_proposer_witness :
  ∃ tx tp',
    AccountManagerImpl.send_transaction (Peer:=Z) (MsgId:=Z) (E:=unit) me gen TxPoolManager.new (hex_text (addr_bytes genesis_addr)) (hex_text (addr_bytes (addr 2))) 1000000000000000000 =
      Ok (tp', [NetworkThread.publish_transaction tx], Reply.TxHash (Hash.fmt_display (Transaction.hash tx))) ∧
    Builder.produce_block (E:=unit) gen tp' (GENESIS_TIME + 6) 1 (Block.hash (genesis gen)) val prf = Panic.
Proof.
  destruct gen_state as (m & Hm & HL & _).
  apply (send_transaction_stops_proposer (Peer:=Z) (MsgId:=Z) (E:=unit) me gen TxPoolManager.new (genesis gen) [] m genesis_ledger
    genesis_addr (addr 2) 1000000000000000000 ed_genesis_pub_key (GENESIS_TIME + 6) 1 val prf).
  - split; [exact gen_inv|]. split; [exact Hm|exact HL].
  - reflexivity.
  - exact genesis_addr_wf.
  - exact addr_2_wf.
  - exact me_key.
  - reflexivity.
  - vm_compute. reflexivity.
  - by vm_compute.
  - rewrite genesis_funds. by vm_compute.
  - by vm_compute.
  - rewrite genesis_funds. by vm_compute.
  - exact gen_next.
  - exact gen_before.
Defined.
Lemma send_transaction_bad_input_witness :
  AccountManagerImpl.send_transaction (Peer:=Z) (MsgId:=Z) (E:=unit) me gen TxPoolManager.new (hex_text [18]) (hex_text (addr_bytes (addr 2))) (10 ^ 19) = Panic.
Proof.
  destruct gen_state as (m & Hm & HL & _).
  destruct (send_transaction_bad_input (Peer:=Z) (MsgId:=Z) (E:=unit) me gen TxPoolManager.new (genesis gen) [] m genesis_ledger
    genesis_addr (addr 2) (10 ^ 19) ed_genesis_pub_key [18]) as [Hs _].
  - split; [exact gen_inv|]. split; [exact Hm|exact HL].
  - exact genesis_addr_wf.
  - exact addr_2_wf.
  - rewrite genesis_funds. by vm_compute.
  - exact me_key.
  - reflexivity.
  - vm_compute. reflexivity.
  - apply (bool_decide_eq_true_1 _). vm_compute. reflexivity.
  - discriminate.
  - rewrite genesis_funds. by vm_compute.
  - exact Hs.
Defined.
End RpcWitnesses.
