(* ===== verification/Gossip.v ===== *)
(** * Gossip: blocks and transactions on their way between nodes

    What one node publishes (src/generator, src/rpc) goes through its network thread to
    gossipsub, from there to another node's behaviour, service and network thread, and
    to the message handler of that node.  This file composes the components of both
    ends: a follower that receives the blocks of a proposer in order keeps up with it, a
    follower that receives two blocks in the wrong order stays behind, and a transaction
    that is sent to one node is pooled on the others. *)
From S2P Require Import Prelude Hashing Types Codec Keys Store State StateExample Transaction Storage Balance Block Executor.
From S2P Require Import Staking Runtime Vrf ChainStore BlockChain TxPool ChainService Messages SyncManager Handler Epoch P2PHandler NetService Rpc.

(** ** From the gossip of one node to the message handler of another *)

(** What a node gives to gossipsub for a message: each topic with the data. *)
Definition gossiped {Peer MsgId} (m : NetworkMessage Peer MsgId) : list (bytes * bytes) :=
  match m with
  | NetworkMessage.Publish topics m => (λ t, (GossipTopic.into t, PubsubMessage.into_data m)) <$> topics
  | _ => []
  end.

Section Wire.
Context {Peer MsgId Addr : Type} `{SW : Swarm Peer MsgId Addr, DQ : !DelayQueue Peer}.
Context `{BB : Bincode Block, BT : Bincode Transaction}.
Implicit Types (sv : Service Peer MsgId Addr) (b : Behaviour Peer MsgId Addr).

(** A message with an id that was not seen is queued for the service with the
    contents its topic gives it. *)
Lemma inject_new b src id topics data cache :
  lru_put (seen_gossip_messages b) id = (false, cache) → bh_events b = [] →
  (Behaviour.poll (Behaviour.inject_gossipsub b (GossipsubEvent.Message src id topics data))).1 =
    Some (BehaviourEvent.GossipMessage id src topics (PubsubMessage.from_topics topics data)).
Proof. intros Hl He. unfold Behaviour.inject_gossipsub. rewrite Hl. unfold Behaviour.push, Behaviour.poll. simpl. by rewrite He. Qed.

(** A gossip event of the swarm reaches the message handler first. *)
Lemma gossip_event_handled fuel fuel' sv sw' id src topics m to_ban s2 out bans :
  swarm_poll (swarm sv) = (Poll.Ready (Some (BehaviourEvent.GossipMessage id src topics m)), sw') →
  NetworkThread.drain_service fuel (S fuel') (Service.set_swarm sv sw') true to_ban = Ok (s2, out, bans) →
  NetworkThread.drain_service (S fuel) (S fuel') sv true to_ban =
    Ok (s2, HandlerMessage.PubsubMessage id src m :: out, bans).
Proof.
  intros Hp Hr. cbn [NetworkThread.drain_service]. unfold Service.poll. cbn [Service.poll_swarm]. rewrite Hp.
  cbn [Service.on_behaviour_event]. rewrite !bind_Ok. cbn [fst snd]. rewrite bind_Ok. cbn [snd].
  cbn [NetworkThread.on_libp2p_event]. rewrite Hr. by rewrite bind_Ok.
Qed.

(** From one network thread to the other: what the first gives to gossipsub under a
    topic the second reports, when gossipsub delivers it under a new id and the swarm
    reports what its behaviour has queued; a block arrives as a block and a
    transaction as a transaction. *)
Theorem gossip_reaches_handler (sva svb : Service Peer MsgId Addr) topic m src id fuel fuel' cache sw' s2 out bans :
  topic = GossipTopic.MapBlock ∧ m = PubsubMessage.Block (PubsubMessage.into_data m) ∨
    topic = GossipTopic.Transaction ∧ m = PubsubMessage.Transaction (PubsubMessage.into_data m) →
  let heard := Behaviour.inject_gossipsub (swarm_deref (swarm svb))
                 (GossipsubEvent.Message src id [GossipTopic.into topic] (PubsubMessage.into_data m)) in
  lru_put (seen_gossip_messages (swarm_deref (swarm svb))) id = (false, cache) → bh_events (swarm_deref (swarm svb)) = [] →
  swarm_poll (swarm_deref_mut (swarm svb) heard) = (Poll.Ready (Behaviour.poll heard).1, sw') →
  NetworkThread.drain_service fuel (S fuel') (Service.set_swarm svb sw') true [] = Ok (s2, out, bans) →
  NetworkThread.on_network_message sva (NetworkMessage.Publish [topic] m) =
    NetworkThread.with_behaviour sva (λ b, Behaviour.set_gossipsub b (gs_publish (gossipsub b) (GossipTopic.into topic) (PubsubMessage.into_data m))) ∧
  NetworkThread.drain_service (S fuel) (S fuel') (Service.set_swarm svb (swarm_deref_mut (swarm svb) heard)) true [] =
    Ok (s2, HandlerMessage.PubsubMessage id src m :: out, bans).
Proof.
  intros Ht heard Hl He Hp Hr. split; [done|].
  pose proof (inject_new (swarm_deref (swarm svb)) src id [GossipTopic.into topic] (PubsubMessage.into_data m) cache Hl He) as Hi.
  assert (Hm : PubsubMessage.from_topics [GossipTopic.into topic] (PubsubMessage.into_data m) = m).
  { destruct Ht as [[-> Hm]|[-> Hm]]; rewrite Hm at 2; apply pubsub_roundtrip. }
  fold heard in Hi. rewrite Hi, Hm in Hp. eapply gossip_event_handled; [exact Hp|exact Hr].
Qed.
End Wire.

(** ** A follower *)

(** The message handler on what gossipsub delivers: id, sender, and topic with data. *)
Section Hear.
Context {C Pool Q Peer MsgId : Type} `{P : Profile, ChainService C, PoolService C Pool, BlockQueue Q}.
Context `{Blake2b, Bincode Header, Bincode Block, Bincode Transaction} {E : Type}.
Fixpoint hear (s : MessageProcessor C Pool Q Peer MsgId) (l : list (MsgId * Peer * (bytes * bytes)))
    : Outcome E (MessageProcessor C Pool Q Peer MsgId) :=
  match l with
  | [] => Ok s
  | (id, p, (topic, data)) :: l =>
      s ← MessageHandler.handle_message s (HandlerMessage.PubsubMessage id p (PubsubMessage.from_topics [topic] data));
      hear s l
  end.
(** The deliveries of published blocks. *)
Definition blocks_heard (l : list (MsgId * Peer * Block)) : list (MsgId * Peer * (bytes * bytes)) :=
  l ≫= λ x, pair x.1 <$> gossiped (NetworkThread.publish_block (Peer:=Peer) (MsgId:=MsgId) x.2).
End Hear.

Section Follower.
Context {C Pool Q Peer MsgId : Type} `{P : Profile, PS : PoolService C Pool, BL : BlockQueueLaws Q}.
Context `{CL : ChainServiceLaws C, BB : BincodeLaws Block, BT : Bincode Transaction} {E : Type}.
Abbreviation MP := (MessageProcessor C Pool Q Peer MsgId).
Implicit Types (s : MP) (p : Peer) (bs : list Block) (l : list (MsgId * Peer * Block)).

(** The chain accepts the blocks one after the other. *)
Inductive imports : C → list Block → C → Prop :=
  | imports_nil c : imports c [] c
  | imports_cons c b bl c1 c2 : cs_admissible c b → cs_import_block c b = Ok c1 → imports c1 bl c2 → imports c (b :: bl) c2.

Lemma imports_head c q bs b bl c2 :
  cs_holds c (q :: bs) → imports c (b :: bl) c2 →
  ∃ c1, cs_import_block c b = Ok c1 ∧ imports c1 bl c2 ∧ cs_holds c1 (b :: q :: bs) ∧ height (header b) = height (header q) + 1.
Proof.
  intros Hc Hi. inversion Hi as [|? ? ? c1 ? Ha Hb Hl]; subst. exists c1.
  pose proof (cs_import_spec c q bs b Hc Ha) as Hs. rewrite Hb in Hs. destruct Hs as [Hs _]. split_and!; [done..|].
  pose proof (cs_heights _ _ O b Hs eq_refl) as Hhb. pose proof (cs_heights _ _ 1%nat q Hs eq_refl) as Hhq. simpl length in *. lia.
Qed.
Lemma imports_holds c q bs bl c2 :
  cs_holds c (q :: bs) → imports c bl c2 → cs_holds c2 (rev bl ++ q :: bs).
Proof.
  revert c q bs. induction bl as [|b bl IH]; intros c q bs Hc Hi; [by inversion Hi; subst|].
  destruct (imports_head _ _ _ _ _ _ Hc Hi) as (c1 & _ & Hl & Hs & _). specialize (IH _ _ _ Hs Hl). simpl. by rewrite <-app_assoc.
Qed.

(** A delivery of a published block is a gossiped block. *)
Lemma hear_block s id p b l :
  hear (E:=E) s (blocks_heard ((id, p, b) :: l)) =
    r ← MessageProcessor.on_block_gossip s p b;
    hear (if (r.2 : bool) then MessageHandler.propagate_message r.1 id p else r.1) (blocks_heard l).
Proof.
  change (blocks_heard ((id, p, b) :: l)) with ((id, p, (GossipTopic.into GossipTopic.MapBlock, serialize b)) :: blocks_heard l).
  cbn [hear]. rewrite (proj1 (pubsub_roundtrip _)). cbn [MessageHandler.handle_message MessageHandler.handle_gossip].
  rewrite deserialize_serialize. by destruct (MessageProcessor.on_block_gossip s p b) as [[s' []]|e|].
Qed.

(** In order, every block is imported at once and passed on. *)
Lemma hear_in_order s q bs l c' :
  cs_holds (mp_chain s) (q :: bs) → imports (mp_chain s) l.*2 c' →
  height (header q) + Z.of_nat (length l) + 1024 < 2 ^ 63 →
  bq_map (mp_queue s) = ∅ → mp_sync_open s = true → hn_open (mp_net s) = true →
  ∃ s', hear (E:=E) s (blocks_heard l) = Ok s' ∧ mp_chain s' = c' ∧ mp_sync s' = mp_sync s ∧ bq_map (mp_queue s') = ∅ ∧
    mp_tx_pool s' = mp_tx_pool s ∧
    hn_sent (mp_net s') = hn_sent (mp_net s) ++ ((λ x, NetworkMessage.Propagate x.1.2 x.1.1) <$> l).
Proof.
  revert s q bs. induction l as [|[[id p] b] l IH]; intros s q bs Hc Hi Hh Hq Hop Hnet.
  { inversion Hi; subst. exists s. by rewrite app_nil_r. }
  destruct (imports_head _ _ _ _ _ _ Hc Hi) as (c1 & Hb & Hl & Hs & Hhb). simpl in Hb, Hs, Hhb. simpl length in Hh.
  rewrite hear_block. pose proof (on_block_gossip_next (E:=E) s q bs p b Hc ltac:(lia)) as Hn.
  rewrite Hb in Hn. destruct Hn as (s1 & -> & Hsy & Hch & Hpool & Hn1 & Hop1 & Hq1); [|done|done|].
  { intros x z Hx. by rewrite Hq, lookup_empty in Hx. }
  rewrite bind_Ok. cbn [fst snd]. simpl in Hch, Hn1, Hq1, Hpool, Hop1.
  assert (Hnp : mp_net (MessageHandler.propagate_message s1 id p) =
    mkHandlerNet true (hn_sent (mp_net s) ++ [NetworkMessage.Propagate p id])).
  { simpl. rewrite Hn1. unfold HandlerNetworkContext.try_send. by rewrite Hnet. }
  destruct (IH (MessageHandler.propagate_message s1 id p) b (q :: bs)) as (s' & Hr & Hc' & Hsy' & Hq' & Hp' & Hnet');
    [simpl; by rewrite Hch|simpl; by rewrite Hch|lia|simpl; by rewrite Hq1|simpl; by rewrite Hop1|by rewrite Hnp|].
  exists s'. rewrite Hsy', Hp', Hnet', Hnp. simpl. split_and!; [done..|by rewrite <-app_assoc].
Qed.

(** With the next block queued, a block behind it makes the handler import the queued
    block, publish it, and queue the new one. *)
Lemma on_block_gossip_lag s q bs p low block c1 :
  cs_holds (mp_chain s) (q :: bs) → height (header q) + 1024 < 2 ^ 63 →
  bq_map (mp_queue s) = {[low := - height (header low)]} →
  height (header low) = height (header q) + 1 → height (header block) = height (header q) + 2 →
  mp_sync_open s = true → cs_import_block (mp_chain s) low = Ok c1 →
  ∃ s', MessageProcessor.on_block_gossip (E:=E) s p block = Ok (s', false) ∧ mp_chain s' = c1 ∧ mp_sync s' = mp_sync s ∧
    mp_sync_open s' = true ∧ mp_net s' = HandlerNetworkContext.broadcast_block (mp_net s) low ∧
    bq_map (mp_queue s') = {[block := - height (header block)]}.
Proof.
  intros Hc Hmax Hq Hlow Hblk Hop Hi.
  destruct (on_block_gossip_enters (E:=E) s q bs p block Hc Hmax) as [Hpos ->]; [unfold QUEUE_GOSSIP_BLOCK; lia|]. cbv zeta.
  set (s1 := MessageProcessor.set_queue s _).
  assert (Hmap : bq_map (mp_queue s1) = <[block := - height (header block)]> {[low := - height (header low)]}).
  { simpl. by rewrite bq_push_spec, Hq. }
  assert (Hne : block ≠ low) by (intros ->; lia).
  assert (Hpop : ∃ q1, bq_pop (mp_queue s1) = Some (low, - height (header low), q1) ∧ bq_map q1 = {[block := - height (header block)]}).
  { pose proof (bq_pop_spec (mp_queue s1)) as Hp. rewrite Hmap in Hp. destruct (bq_pop (mp_queue s1)) as [[[x z] q1]|].
    - destruct Hp as (Hx & Hmx & Hd). specialize (Hmx low (- height (header low))).
      rewrite lookup_insert_ne, lookup_singleton_eq in Hmx by done. specialize (Hmx eq_refl).
      apply lookup_insert_Some in Hx as [[<- <-]|[_ [<- <-]%lookup_singleton_Some]]; [lia|]. exists q1. split; [done|]. rewrite Hd.
      rewrite delete_insert_ne by done. by rewrite delete_singleton_eq.
    - by apply insert_non_empty in Hp. }
  destruct Hpop as (q1 & Hpop & Hq1).
  assert (Hlen : ∃ k, bq_len (mp_queue s1) = S k).
  { rewrite bq_len_spec, Hmap. destruct (size _) eqn:Hz; [|eauto]. apply map_size_empty_inv in Hz. by apply insert_non_empty in Hz. }
  destruct Hlen as [k ->]. rewrite (gossip_loop_pop _ _ _ _ _ _ _ low q1) by (done || lia).
  unfold MessageProcessor.import_block. simpl mp_chain. rewrite Hi, bind_Ok. cbv zeta. cbn [fst snd].
  rewrite decide_False by lia. set (s2 := MessageProcessor.set_net _ _).
  destruct (gossip_loop_ahead (E:=E) k s2 p block (height (header block)) (height (header q)) false)
    as (s' & -> & (Hs1 & _ & Hs3 & Hs5 & Hs4) & _ & Hsy); [lia|lia| |].
  { intros b z Hz. simpl in Hz. rewrite Hq1 in Hz. apply lookup_singleton_Some in Hz as [<- <-]. lia. }
  exists s'. rewrite Hs1, Hs3, Hs4, Hs5, Hsy by (done || (simpl; rewrite Hq1; apply map_non_empty_singleton)).
  rewrite decide_False by (unfold SLOT_IMPORT_TOLERANCE; lia). rewrite app_nil_r. by split_and!.
Qed.

(** From then on the handler stays one block behind what it hears. *)
Lemma hear_behind s q bs low l c' :
  cs_holds (mp_chain s) (q :: bs) → imports (mp_chain s) (low :: l.*2) c' →
  height (header q) + Z.of_nat (length l) + 1024 < 2 ^ 63 →
  bq_map (mp_queue s) = {[low := - height (header low)]} → mp_sync_open s = true →
  ∃ s' last, hear (E:=E) s (blocks_heard l) = Ok s' ∧ mp_sync s' = mp_sync s ∧
    rev (low :: l.*2) = last :: rev (take (length l) (low :: l.*2)) ∧
    cs_import_block (mp_chain s') last = Ok c' ∧ cs_holds (mp_chain s') (rev (take (length l) (low :: l.*2)) ++ q :: bs).
Proof.
  revert s q bs low. induction l as [|[[id p] b] l IH]; intros s q bs low Hc Hi Hh Hq Hop;
    destruct (imports_head _ _ _ _ _ _ Hc Hi) as (c1 & Hlow & Hl & Hs & Hhl).
  { inversion Hl; subst. by exists s, low. }
  simpl length in Hh. destruct (imports_head _ _ _ _ _ _ Hs Hl) as (c2 & Hb & Hl2 & Hs2 & Hhb). simpl in Hb, Hhb.
  rewrite hear_block.
  destruct (on_block_gossip_lag s q bs p low b c1) as (s1 & -> & Hch & Hsy & Hop1 & _ & Hq1); try done; [lia|lia|].
  rewrite bind_Ok. cbn [fst snd].
  destruct (IH s1 low (q :: bs) b) as (s' & last & Hr & Hsy' & Hla & Hc1 & Hc2);
    [by rewrite Hch|by rewrite Hch|lia|done|done|].
  exists s', last. rewrite Hsy', Hsy. split_and!; [done..| |done|].
  - change (rev (low :: ((id, p, b) :: l).*2)) with (rev (b :: l.*2) ++ [low]). by rewrite Hla.
  - simpl. by rewrite <-app_assoc.
Qed.
End Follower.

(** ** A proposer and its followers *)
Section Network.
Context {D M TM R Q Peer MsgId : Type} {node_hash : bytes → Hash}.
Context `{P : Profile, KL : KVDBLaws D, MM : MemoryDB M, TO : !TrieOps (ArchiveDB D M) TM}.
Context `{MLL : !MemoryDBLaws M node_hash, TL : !TrieLaws D M TM node_hash}.
Context `{IO : IterOrder, !IterOrderLaw, RL : RocksDBLaws R, HB : Blake2bLaws, ED : Ed25519, HX : Hex, RI : Ristretto, FP : FloatPow}.
Context `{BA : BincodeLaws Account, BT : Bincode MsgTransfer, BX : Bincode TxHashType}.
Context `{BE : Bincode ListEntry, BTX : Bincode (list Transaction), BSG : Bincode (list VerificationItem)}.
Context `{BHD : BincodeLaws Header, BBK : BincodeLaws Block, BTN : Bincode Transaction}.
Context `{PH : PriorityHeap, OL : PoolOrderLaw, BL : BlockQueueLaws Q} {E : Type}.
Abbreviation Chain := (BlockChain D M R).
Abbreviation MP := (MessageProcessor Chain TxPoolManager Q Peer MsgId).
Implicit Types (a bc : Chain) (b p : Block) (bs : list Block) (n : Node D M R) (s : MP).

(** Two nodes hold the same chain and the state of its head. *)
Definition in_step a bc bs : Prop :=
  chain_inv a bs ∧ chain_inv bc bs ∧ ∃ p m, head bs = Some p ∧
    trie_rep (kv_map (backend (state_backend a))) (Block.state_root p) m ∧
    trie_rep (kv_map (backend (state_backend bc))) (Block.state_root p) m.

(** The blocks a node publishes on top of a chain, oldest first, over some ticks of its
    slot clock.  In a slot the node is the proposer or not, its block is accepted or not;
    between the slots its pool changes in any way.  The hash of a published block is
    not that of another block of the chain. *)
Inductive slots : Node D M R → list Block → list Block → Node D M R → Prop :=
  | slots_nil n bs : slots n bs [] n
  | slots_pool n tp bs l n' : slots (mkNode (node_chain n) tp (published n)) bs l n' → slots n bs l n'
  | slots_tick fuel stake myid n bs now slot n1 new l n' :
      EpochProposal.on_slot (E:=E) fuel n stake myid now slot = Some (Ok n1) → published n1 = new ++ published n →
      (∀ b b', b ∈ new → b' ∈ bs → Block.hash b' = Block.hash b → header b' = header b) →
      slots n1 (new ++ bs) l n' → slots n bs (new ++ l) n'.

Lemma fresh_no_collision bc bs b :
  chain_inv bc bs → (∀ b', b' ∈ bs → Block.hash b' = Block.hash b → header b' = header b) → no_collision bc b.
Proof.
  intros Hi Hf b' Hg. destruct (inv_get_block (E:=unit) bc bs (Block.hash b) Hi) as [(c & Hc & Hh & Hg')|[_ Hg']];
    rewrite Hg in Hg'; [|done]. injection Hg' as <-. by apply Hf.
Qed.

(** What a proposal publishes is imported by another node in step. *)
Lemma propose_step n bc p bs now slot v pf n1 new :
  in_step (node_chain n) bc (p :: bs) → in_u 64 (height (header p) + 1) →
  EpochProposal.propose (E:=E) n now slot v pf = Ok n1 → published n1 = new ++ published n →
  (∀ b b', b ∈ new → b' ∈ p :: bs → Block.hash b' = Block.hash b → header b' = header b) →
  ∃ bc1, imports bc new bc1 ∧ in_step (node_chain n1) bc1 (new ++ p :: bs) ∧ (length new ≤ 1)%nat.
Proof.
  intros (Hia & Hib & p' & m & [= <-] & Hma & Hmb) Hh Hp Hpub Hf.
  unfold EpochProposal.propose, Builder.get_head_block in Hp. rewrite (inv_current _ _ _ Hia), bind_Ok in Hp.
  pose proof (produce_block_any (E:=E) _ p bs m (node_pool n) now slot v pf Hia Hh Hma) as Hs.
  destruct (map_exec (TxPoolManager.get_pending (node_pool n)) m) as [m'|e|] eqn:He; [|by rewrite Hs in Hp..].
  destruct Hs as (a1 & b1 & Hpb & Ho & Hhb & Hti & Htx & Hia1 & Htb & Hma1). rewrite Hpb, bind_Ok in Hp. cbn [fst snd] in Hp.
  unfold BlockChain.insert_block in Hp. assert (Hub : in_u 64 (height (header b1))) by (by rewrite Hhb).
  destruct (BlockChain.import_block a1 b1) as [a2|[e a2]|] eqn:Hia2; [| |done].
  - apply bind_Ok_inv in Hp as (tp & _ & [= <-]). simpl in Hpub.
    assert (new = [b1]) as ->. { apply (app_inv_tail (published n)). by rewrite <-Hpub. }
    assert (Hfb : ∀ b', b' ∈ p :: bs → Block.hash b' = Block.hash b1 → header b' = header b1).
    { intros b' Hb'. by apply Hf; [left|]. }
    assert (Ht : time (header p) < now).
    { rewrite (import_block_checks a1 p bs b1 Hia1 Hub) in Hia2. unfold precheck in Hia2. rewrite Hti in Hia2.
      repeat case_decide; try done. lia. }
    assert (Hnb : no_collision bc b1) by (by eapply fresh_no_collision).
    destruct (accepts_offer bc _ p bs now slot v pf b1 m m' _ Hib Hh (Ho Ht) Hnb Hmb He Htb) as (bc1 & Himp & Hib1).
    exists bc1. split_and!; [|split; [|split; [done|]]|simpl; lia].
    + econstructor; [by split|exact Himp|constructor].
    + pose proof (import_spec a1 p bs b1 Hia1) as Hsp. rewrite Hia2 in Hsp. apply Hsp. split; [done|by eapply fresh_no_collision].
    + exists b1, m'. split; [done|].
      destruct (import_block_keeps _ _ _ _ _ _ Hia1 Hub Hma1 Hia2) as (_ & m1 & He1 & Hm1).
      destruct (import_block_keeps _ _ _ _ _ _ Hib Hub Hmb Himp) as (_ & m2 & He2 & Hm2).
      rewrite Htx, He in He1, He2. by simplify_eq.
  - injection Hp as <-. simpl in Hpub. assert (new = []) as ->. { apply (app_inv_tail (published n)). by rewrite <-Hpub. }
    destruct (import_err_keeps _ _ _ _ _ _ _ Hia1 Hub Hma1 Hia2) as [Hi2 Hm2].
    exists bc. split_and!; [constructor| |simpl; lia]. split; [exact Hi2|]. split; [done|]. by exists p, m.
Qed.
Lemma slot_step fuel stake myid n bc p bs now slot n1 new :
  in_step (node_chain n) bc (p :: bs) → in_u 64 (height (header p) + 1) →
  EpochProposal.on_slot (E:=E) fuel n stake myid now slot = Some (Ok n1) → published n1 = new ++ published n →
  (∀ b b', b ∈ new → b' ∈ p :: bs → Block.hash b' = Block.hash b → header b' = header b) →
  ∃ bc1, imports bc new bc1 ∧ in_step (node_chain n1) bc1 (new ++ p :: bs) ∧ (length new ≤ 1)%nat.
Proof.
  intros Hin Hh Hs Hpub Hf. unfold EpochProposal.on_slot, fbind in Hs.
  destruct (EpochPoS.make_slot_proposer _ _ _ _ _) as [[[[v pf]|]|e|]|]; try done; injection Hs as Hs.
  - by eapply propose_step.
  - subst n1. assert (new = []) as ->. { apply (app_inv_tail (published n)). by rewrite <-Hpub. }
    exists bc. split; [constructor|]. split; [done|simpl; lia].
Qed.

Lemma imports_app c l1 c1 l2 c2 : imports (C:=Chain) c l1 c1 → imports c1 l2 c2 → imports c (l1 ++ l2) c2.
Proof. induction 1; [done|]. intros. econstructor; eauto. Qed.
Lemma slots_imports n bc q bs l n' :
  in_step (node_chain n) bc (q :: bs) → slots n (q :: bs) l n' → height (header q) + Z.of_nat (length l) + 1 < 2 ^ 64 →
  ∃ bc', imports bc l bc' ∧ in_step (node_chain n') bc' (rev l ++ q :: bs).
Proof.
  intros Hin Hs. remember (q :: bs) as ch eqn:Hch. revert q bs bc Hin Hch.
  induction Hs as [n ch|n tp ch l n' _ IH|fuel stake myid n ch now slot n1 new l n' Hs Hpub Hf _ IH]; intros q bs bc Hin -> Hlen.
  - exists bc. split; [constructor|done].
  - by eapply IH.
  - rewrite length_app in Hlen. assert (Hq : 0 ≤ height (header q)) by (rewrite (head_length _ _ _ (proj1 Hin)); lia).
    destruct (slot_step fuel stake myid n bc q bs now slot n1 new Hin ltac:(unfold in_u; lia) Hs Hpub Hf) as (bc1 & Hi & Hin1 & Hle).
    destruct new as [|b [|? ?]]; [| |simpl in Hle; lia].
    + destruct (IH q bs bc1 Hin1 eq_refl) as (bc' & Hl & Hin'); [simpl in Hlen; lia|]. exists bc'. split; [by eapply imports_app|done].
    + simpl length in Hlen. destruct (IH b (q :: bs) bc1 Hin1 eq_refl) as (bc' & Hl & Hin').
      { rewrite (head_length _ _ _ (proj1 Hin1)). rewrite (head_length _ _ _ (proj1 Hin)) in Hlen. simpl length. lia. }
      exists bc'. split; [by eapply (imports_app _ [b])|]. simpl. by rewrite <-app_assoc.
Qed.

(** The proposal service runs through such slots, whatever the clocks show when it is
    polled. *)
Lemma on_slot_publishes fuel n stake myid now slot n1 :
  EpochProposal.on_slot (E:=E) fuel n stake myid now slot = Some (Ok n1) → ∃ new, published n1 = new ++ published n ∧ (length new ≤ 1)%nat.
Proof.
  unfold EpochProposal.on_slot, fbind. destruct (EpochPoS.make_slot_proposer _ _ _ _ _) as [[[[v pf]|]|e|]|]; try done.
  2:{ intros [= <-]. by exists []; split; [|simpl; lia]. }
  intros [= Hs]. unfold EpochProposal.propose in Hs. apply bind_Ok_inv in Hs as (p & _ & ([a b] & _ & Hs)%bind_Ok_inv).
  destruct (BlockChain.insert_block _ _) as [a2|[e a2]|]; [| |done].
  - apply bind_Ok_inv in Hs as (tp & _ & [= <-]). by exists [b].
  - injection Hs as <-. exists []. split; [done|simpl; lia].
Qed.
Lemma proposal_loop_slots fuel n stake myid t polls n' bs :
  EpochProposal.proposal_loop (E:=E) fuel n stake myid t polls = Some (Ok n') →
  ∃ l, published n' = rev l ++ published n ∧ (NoDup (Block.hash <$> rev l ++ bs) → slots n bs l n').
Proof.
  revert n t bs. induction polls as [|[[instant now] secs] polls IH]; intros n t bs; cbn [EpochProposal.proposal_loop].
  { intros [= <-]. exists []. split; [done|constructor]. }
  destruct (SlotTick.poll t instant now) as [[t' [slot|]]|e|]; try done; [|by apply IH].
  unfold fbind. destruct (EpochProposal.on_slot _ _ _ _ _ _) as [[n1|e|]|] eqn:Hs; try done. intros Hl.
  destruct (on_slot_publishes _ _ _ _ _ _ _ Hs) as (new & Hnew & Hle). destruct (IH n1 t' (new ++ bs) Hl) as (l & Hpub & Hsl).
  assert (Hrev : rev (new ++ l) = rev l ++ new).
  { destruct new as [|b [|? ?]]; [by rewrite app_nil_r|done|simpl in Hle; lia]. }
  exists (new ++ l). rewrite Hrev, Hpub, Hnew, <-!app_assoc. split; [done|]. intros Hnd.
  apply (slots_tick fuel stake myid n bs secs slot n1 new l n' Hs Hnew); [|by apply Hsl].
  intros b b' Hb Hb' Heq. exfalso. rewrite !fmap_app in Hnd. apply NoDup_app in Hnd as (_ & _ & Hnd).
  apply NoDup_app in Hnd as (_ & Hd & _). apply (Hd (Block.hash b)); [by apply list_elem_of_fmap_2|].
  rewrite <-Heq. by apply list_elem_of_fmap_2.
Qed.

(** The slot of a proposer without transactions. *)
Definition empty_block p (now slot : Z) (v : Value) (pf : VrfProof) : Block :=
  let h := header (Block.new Header_default [] [] []) in
  mkBlock (mkHeader (height (header p) + 1) (Block.hash p) slot (value_bytes v) (VRFProof.new (proof_bytes pf))
             (tx_root h) (sign_root h) (Block.state_root p) now) [] [] [].
Lemma empty_slot n p bs m now slot v pf (b := empty_block p now slot v pf) :
  chain_inv (node_chain n) (p :: bs) → in_u 64 (height (header p) + 1) → time (header p) < now →
  trie_rep (kv_map (backend (state_backend (node_chain n)))) (Block.state_root p) m → pending (node_pool n) = ∅ →
  (∀ b', b' ∈ p :: bs → Block.hash b' = Block.hash b → header b' = header b) →
  ∃ n', EpochProposal.propose (E:=E) n now slot v pf = Ok n' ∧ published n' = b :: published n ∧
    chain_inv (node_chain n') (b :: p :: bs) ∧
    trie_rep (kv_map (backend (state_backend (node_chain n')))) (Block.state_root b) m ∧ pending (node_pool n') = ∅.
Proof.
  intros Hi Hh Ht Hm He Hf.
  assert (Hpo : pool_order (pending (node_pool n)) = []).
  { apply Permutation_nil_r. by rewrite pool_order_perm, He, map_to_list_empty. }
  pose proof (produce_block_spec (E:=E) _ p bs m (node_pool n) now slot v pf Hi Hh Ht Hm) as Hs.
  assert (Hge : TxPoolManager.get_pending (node_pool n) = []) by (unfold TxPoolManager.get_pending; by rewrite Hpo).
  rewrite Hge in Hs. destruct Hs as (bc' & b' & Hp & Ho & Hi' & Hb & Hm').
  assert (b' = b) as ->.
  { pose proof (trie_rep_canonical _ _ _ _ _ Hb Hm) as Hroot. revert Hp. unfold Builder.produce_block, Builder.prepare_transactions.
    rewrite Hge. pose proof (ci_stored _ _ Hi) as [[Hsp _] _]%Forall_cons.
    unfold BlockChain.get_block. rewrite (get_block_Some _ _ _ Hsp), bind_Ok. cbn [unwrap]. rewrite bind_Ok.
    intros ([bc2 r] & _ & (hb & Hadd & Heq)%bind_Ok_inv)%bind_Ok_inv. unfold add_u, Block.block_height in Hadd.
    rewrite arith_in in Hadd by done. injection Hadd as <-. injection Heq as _ <-. cbn in Hroot. by rewrite Hroot. }
  destruct (accepts_offer bc' _ p bs now slot v pf b m m _ Hi' Hh Ho ltac:(by eapply fresh_no_collision) Hm' ltac:(by rewrite Hge) Hb)
    as (bc2 & Himp & Hi2).
  pose proof (offers_height _ _ _ _ _ _ _ _ _ Hi' Ho) as Hhb.
  destruct (import_block_keeps _ _ _ _ _ _ Hi' ltac:(by rewrite Hhb) Hm' Himp) as (_ & m2 & [= <-] & Hb2).
  unfold EpochProposal.propose, Builder.get_head_block. rewrite (inv_current _ _ _ Hi), bind_Ok, Hp, bind_Ok. cbn [fst snd].
  unfold BlockChain.insert_block. rewrite Himp. unfold TxPoolManager.reset_pool. rewrite Hpo. cbn [TxPoolManager.retain].
  rewrite !bind_Ok. eexists. by split_and!.
Qed.

Context (n n' : Node D M R) (s : MP) (q : Block) (bs : list Block).
(** The handler of a follower that is in step, with nothing queued, and its channels. *)
Record ready : Prop := {
  rd_step : in_step (node_chain n) (mp_chain s) (q :: bs);
  rd_queue : bq_map (mp_queue s) = ∅;
  rd_sync : mp_sync_open s = true;
  rd_net : hn_open (mp_net s) = true;
}.

(** C16: A proposer and a follower over any number of slots: whatever the pool of the
    proposer holds when it proposes, a follower that hears the published blocks in
    order ends with the same chain and state, has passed every block on, and does not
    need to synchronise. *)
Theorem follower_keeps_up (l : list (MsgId * Peer * Block)) :
  ready → slots n (q :: bs) l.*2 n' → height (header q) + Z.of_nat (length l) + 1024 < 2 ^ 63 →
  ∃ s', hear (E:=E) s (blocks_heard l) = Ok s' ∧ in_step (node_chain n') (mp_chain s') (rev l.*2 ++ q :: bs) ∧
    mp_sync s' = mp_sync s ∧
    hn_sent (mp_net s') = hn_sent (mp_net s) ++ ((λ x, NetworkMessage.Propagate x.1.2 x.1.1) <$> l).
Proof.
  intros [Hin Hq Hsy Hne] Hs Hlen.
  destruct (slots_imports _ _ _ _ _ _ Hin Hs) as (bc' & Hi & Hin'); [rewrite length_fmap; lia|].
  assert (Hc : cs_holds (mp_chain s) (q :: bs)) by apply Hin.
  destruct (hear_in_order (E:=E) s q bs l bc' Hc Hi Hlen Hq Hsy Hne) as (s' & Hr & <- & Hsy' & _ & _ & Hse).
  by exists s'.
Qed.

(** The same for the proposal service under its slot clock: a follower that hears what it
    publishes, oldest first, stays in step however the service is polled. *)
Theorem proposal_service_followed fuel stake pr instant now polls :
  ready → EpochProposal.make_proposal (E:=E) fuel n stake pr instant now polls = Some (Ok n') →
  ∃ blocks, published n' = rev blocks ++ published n ∧
    ∀ l : list (MsgId * Peer * Block), l.*2 = blocks → NoDup (Block.hash <$> rev blocks ++ q :: bs) →
      height (header q) + Z.of_nat (length l) + 1024 < 2 ^ 63 →
      ∃ s', hear (E:=E) s (blocks_heard l) = Ok s' ∧ in_step (node_chain n') (mp_chain s') (rev blocks ++ q :: bs).
Proof.
  intros [Hin Hq Hsy Hne] Hm. destruct (proposal_loop_slots _ _ _ _ _ _ _ (q :: bs) Hm) as (blocks & Hpub & Hs).
  exists blocks. split; [done|]. intros l <- Hnd Hlen.
  destruct (slots_imports _ _ _ _ _ _ Hin (Hs Hnd)) as (bc' & Hi & Hin'); [rewrite length_fmap; lia|].
  assert (Hc : cs_holds (mp_chain s) (q :: bs)) by apply Hin.
  destruct (hear_in_order (E:=E) s q bs l bc' Hc Hi Hlen Hq Hsy Hne) as (s' & Hr & <- & _). by exists s'.
Qed.

(** C17: Two blocks that arrive in the wrong order leave the follower one block behind: the
    loop over the queue compares with the height it read before the import, so the
    queued block waits for the next one, and so on.  The sync thread is not told. *)
Theorem reordered_follower_lags (x1 x2 : MsgId * Peer * Block) (l : list (MsgId * Peer * Block)) :
  ready → slots n (q :: bs) (x1.2 :: x2.2 :: l.*2) n' → height (header q) + Z.of_nat (length l) + 1026 < 2 ^ 63 →
  ∃ s' last ch, hear (E:=E) s (blocks_heard (x2 :: x1 :: l)) = Ok s' ∧ mp_sync s' = mp_sync s ∧
    last :: ch = rev (x1.2 :: x2.2 :: l.*2) ++ q :: bs ∧
    chain_inv (node_chain n') (last :: ch) ∧ chain_inv (mp_chain s') ch.
Proof.
  intros [Hin Hq Hsy Hne] Hs Hlen.
  destruct (slots_imports _ _ _ _ _ _ Hin Hs) as (bc' & Hi & Hin'); [simpl; rewrite length_fmap; lia|].
  assert (Hc : cs_holds (mp_chain s) (q :: bs)) by apply Hin. destruct x1 as [[i1 p1] b1], x2 as [[i2 p2] b2].
  destruct (imports_head _ _ _ _ _ _ Hc Hi) as (c1 & Hi1 & Hil & Hc1 & Hh1).
  destruct (imports_head _ _ _ _ _ _ Hc1 Hil) as (c2 & Hi2 & _ & Hc2 & Hh2). cbn [snd] in Hi1, Hh1, Hi2, Hh2.
  rewrite hear_block. assert (Hempty : ahead_queue (height (header q)) (mp_queue s)).
  { intros b z Hz. by rewrite Hq, lookup_empty in Hz. }
  destruct (on_block_gossip_ahead (E:=E) s q bs p2 b2 Hc ltac:(lia) Hempty Hsy) as (s1 & -> & Hch1 & _ & Hop1 & Hq1 & Hsy1);
    [unfold QUEUE_GOSSIP_BLOCK; lia|]. rewrite bind_Ok. cbn [fst snd]. rewrite hear_block.
  rewrite Hq, insert_empty in Hq1. rewrite decide_False, app_nil_r in Hsy1 by (unfold SLOT_IMPORT_TOLERANCE; lia).
  pose proof (on_block_gossip_next (E:=E) s1 q bs p1 b1 ltac:(by rewrite Hch1) ltac:(lia)) as Hn.
  rewrite Hch1, Hi1 in Hn. destruct Hn as (s2 & -> & Hsy2 & Hch2 & _ & _ & Hop2 & Hq2); [|done|done|].
  { intros b z Hz. rewrite Hq1 in Hz. apply lookup_singleton_Some in Hz as [<- <-]. lia. }
  rewrite bind_Ok. cbn [fst snd]. simpl in Hch2, Hop2, Hq2.
  destruct (hear_behind (E:=E) (MessageHandler.propagate_message s2 i1 p1) b1 (q :: bs) b2 l bc')
    as (s' & last & Hr & Hsy' & Hl & _ & Hl'); simpl; rewrite ?Hch2, ?Hq2, ?Hop2; [done..|lia|done|done|].
  exists s', last, (rev (take (length l) (b2 :: l.*2)) ++ b1 :: q :: bs).
  assert (Heq : last :: rev (take (length l) (b2 :: l.*2)) ++ b1 :: q :: bs = rev (b1 :: b2 :: l.*2) ++ q :: bs).
  { change (rev (b1 :: b2 :: l.*2)) with (rev (b2 :: l.*2) ++ [b1]). by rewrite Hl, <-app_assoc. }
  rewrite Hsy'. split_and!; [done|simpl; by rewrite Hsy2|done| |done]. rewrite Heq. apply Hin'.
Qed.
End Network.

(** ** Transactions *)
Section Transactions.
Context {D M TM R Q Peer MsgId : Type} {node_hash : bytes → Hash}.
Context `{P : Profile, KL : KVDBLaws D, MM : MemoryDB M, TO : !TrieOps (ArchiveDB D M) TM}.
Context `{MLL : !MemoryDBLaws M node_hash, TL : !TrieLaws D M TM node_hash}.
Context `{IO : IterOrder, !IterOrderLaw, RL : RocksDBLaws R, HB : Blake2bLaws, AK : !AddressKeys, EL : Ed25519Laws, HL : HexLaws}.
Context `{BA : BincodeLaws Account, BT : BincodeLaws MsgTransfer, BX : Bincode TxHashType}.
Context `{BE : Bincode ListEntry, BTX : Bincode (list Transaction), BSG : Bincode (list VerificationItem)}.
Context `{BHD : BincodeLaws Header, BBK : BincodeLaws Block, BTN : BincodeLaws Transaction}.
Context `{PH : PriorityHeap, OL : PoolOrderLaw, BQ : BlockQueue Q} {E : Type}.
Abbreviation Chain := (BlockChain D M R).
Abbreviation MP := (MessageProcessor Chain TxPoolManager Q Peer MsgId).
Implicit Types (s : MP) (tx : Transaction) (p : Block) (bs : list Block).

(** The delivery of a published transaction. *)
Definition tx_heard (id : MsgId) (src : Peer) tx : list (MsgId * Peer * (bytes * bytes)) :=
  pair (id, src) <$> gossiped (NetworkThread.publish_transaction (Peer:=Peer) (MsgId:=MsgId) tx).

(** The pool takes it or not; it is not passed on. *)
Lemma hear_transaction s id src tx :
  hear (E:=E) s (tx_heard id src tx) =
    r ← TxPoolManager.add_tx (mp_chain s) (mp_tx_pool s) tx; Ok (MessageProcessor.set_pool s r.1).
Proof.
  change (tx_heard id src tx) with [(id, src, (GossipTopic.into GossipTopic.Transaction, serialize tx))]. cbn [hear].
  rewrite (proj2 (pubsub_roundtrip _)). cbn [MessageHandler.handle_message MessageHandler.handle_gossip].
  rewrite deserialize_serialize. unfold MessageProcessor.on_transaction_gossip, ps_add_tx, tx_pool_service.
  by destruct (TxPoolManager.add_tx (mp_chain s) (mp_tx_pool s) tx) as [[tp []]|e|].
Qed.

(** One transaction whose signature is refused makes the execution of the list fail,
    whatever stands before it. *)
Lemma bad_signature_fails l tx m :
  tx ∈ l → is_ok (Transaction.verify_sign tx) = false → is_ok (map_exec l m) = false.
Proof.
  intros Hin Hv. unfold map_exec. generalize (mkBalance m Hash_default).
  induction l as [|tx' l IH]; intros b; [by apply not_elem_of_nil in Hin|].
  cbn [Executor.exc_txs_loop]. apply elem_of_cons in Hin as [<-|Hin].
  - unfold Executor.exc_transfer_tx, Executor.verify_tx_sign.
    destruct (Transaction.get_to_address tx); [|done..]. rewrite bind_Ok. by destruct (Transaction.verify_sign tx).
  - destruct (Executor.exc_transfer_tx tx' b) as [[b1 h]|e|]; [|done..]. rewrite bind_Ok. cbn [fst].
    destruct (Balance.add_balance b1 Address_default transfer_fee) as [b2|e|]; [|done..]. rewrite bind_Ok. by apply IH.
Qed.

(** C19: A transfer that one node accepts from its user is pooled by every node that hears
    of it and has the same head state; such a node sends nothing on. *)
Theorem transaction_spreads self (bc : Chain) tp p bs bs' m L from to value sk s id src :
  head_ledger bc p bs m L → head_ledger (mp_chain s) p bs' m L → addr_wf from → addr_wf to →
  in_u 64 (acc_nonce (L from) + 1) → value ≤ acc_balance (L from) →
  accounts self !! from = Some (mkPrivKey sk) → length sk = 32%nat → secret_ok sk = true →
  ∃ tx tp' s',
    AccountManagerImpl.send_transaction (Peer:=Peer) (MsgId:=MsgId) (E:=E) self bc tp (hex_text (addr_bytes from)) (hex_text (addr_bytes to)) value =
      Ok (tp', [NetworkThread.publish_transaction tx], Reply.TxHash (Hash.fmt_display (Transaction.hash tx))) ∧
    pending tp' = <[Transaction.hash tx := tx]> (pending tp) ∧
    hear (E:=E) s (tx_heard id src tx) = Ok s' ∧
    pending (mp_tx_pool s') = <[Transaction.hash tx := tx]> (pending (mp_tx_pool s)) ∧
    mp_chain s' = mp_chain s ∧ mp_net s' = mp_net s.
Proof.
  intros Hh Hh' Hf Ht Hn Hv Hk Hl Hok.
  destruct (send_spec (Peer:=Peer) (MsgId:=MsgId) (E:=E) self bc tp p bs m L from to value sk Hh Hf Ht Hn Hk Hl Hok) as (tx & Hm & Hs).
  rewrite decide_True in Hs by done. eexists tx, _, _. split_and!; [exact Hs|done| | | |].
  - rewrite hear_transaction, (add_tx_spec _ _ p bs' m L tx (mkMsgTransfer to value)), bind_Ok; [done|done| |by apply Hm|];
      by rewrite (mk_sender _ _ _ _ _ Hm).
  - rewrite (mk_sender _ _ _ _ _ Hm), decide_True; [done|]. split; [done|by apply Hm].
  - done.
  - done.
Qed.

(** C18: What any peer can do to a node with one gossiped transaction: bytes that are not a
    transfer panic the handler; a transfer in the name of a funded account, with its
    next nonce and without a valid signature, is pooled, and the node cannot produce a
    block any more. *)
Theorem hostile_transaction p bs m L s id src tx now slot v pf :
  head_ledger (mp_chain s) p bs m L → addr_wf (tx_sender tx) → in_u 64 (acc_nonce (L (tx_sender tx)) + 1) →
  in_u 64 (height (header p) + 1) → time (header p) < now →
  match deserialize (A:=MsgTransfer) (tx_data tx) with
  | None => hear (E:=E) s (tx_heard id src tx) = Panic
  | Some msg =>
      transfer_value msg ≤ acc_balance (L (tx_sender tx)) → tx_nonce tx = acc_nonce (L (tx_sender tx)) + 1 →
      is_ok (Transaction.verify_sign tx) = false →
      ∃ s', hear (E:=E) s (tx_heard id src tx) = Ok s' ∧
        Builder.produce_block (E:=E) (mp_chain s') (mp_tx_pool s') now slot (Block.hash p) v pf = Panic
  end.
Proof.
  intros Hh Hs Hn Hhe Hti. rewrite hear_transaction. destruct (deserialize (tx_data tx)) as [msg|] eqn:Hd.
  - intros Hb Hno Hv. rewrite (add_tx_spec _ _ p bs m L tx msg Hh Hs Hd Hn), bind_Ok, decide_True by done.
    cbn [fst]. eexists. split; [done|]. destruct Hh as (Hi & Hms & _). simpl mp_chain. simpl mp_tx_pool.
    set (tp := TxPoolManager.set_pending _ _).
    pose proof (produce_block_spec (E:=E) (mp_chain s) p bs m tp now slot v pf Hi Hhe Hti Hms) as Hpb.
    assert (Hbad : is_ok (map_exec (TxPoolManager.get_pending tp) m) = false).
    { apply (bad_signature_fails _ tx); [|done]. unfold TxPoolManager.get_pending. apply list_elem_of_fmap.
      exists (Transaction.hash tx, tx). split; [done|]. rewrite pool_order_perm. apply elem_of_map_to_list. simpl. apply lookup_insert_eq. }
    by destruct (map_exec _ m).
  - unfold TxPoolManager.add_tx, TxPoolManager.validate_tx, Transaction.get_value.
    rewrite (head_account_spec _ _ _ _ _ _ Hh Hs), bind_Ok, Hd. done.
Qed.
End Transactions.

(** ** Worked examples: two empty slots above the genesis block *)
Module GossipEx.
Export EpochEx HandlerEx.
#[export] Instance tx_bincode_laws : @BincodeLaws Transaction tx_bincode := example_bincode_laws.
Abbreviation cnode := (Node MemoryKV ex_mem (gmap bytes bytes)).
(** A validator set that is known, with the genesis account in it. *)
Definition stake0 : EpochPoS := mkEpochPoS {[ 0 := mkEpochInfo 0 (replicate 32 0) [mkValidatorStake ed_genesis_pub_key 1 0 true] ]} 0 false.
Definition vp (slot : Z) : Value * VrfProof :=
  match EpochPoS.make_slot_proposer (E:=unit) 2 gen stake0 slot key with Some (Ok (Some x)) => x | _ => (val, prf) end.
Lemma vp_ok (bc : chain) slot : slot = 1 ∨ slot = 2 → EpochPoS.make_slot_proposer (E:=unit) 2 bc stake0 slot key = Some (Ok (Some (vp slot))).
Proof.
  intros Hs. assert (Hb : EpochPoS.make_slot_proposer (E:=unit) 2 bc stake0 slot key = EpochPoS.make_slot_proposer (E:=unit) 2 gen stake0 slot key).
  { unfold EpochPoS.make_slot_proposer, EpochPoS.get_epoch_info.
    assert (Hl : epoch_infos stake0 !! (slot / EPOCH_LENGTH) = Some (mkEpochInfo 0 (replicate 32 0) [mkValidatorStake ed_genesis_pub_key 1 0 true])).
    { destruct Hs as [->| ->]; reflexivity. }
    rewrite Hl. reflexivity. }
  assert (Hok : match EpochPoS.make_slot_proposer (E:=unit) 2 gen stake0 slot key with Some (Ok (Some _)) => true | _ => false end = true).
  { destruct Hs as [->| ->]; vm_compute; reflexivity. }
  rewrite Hb. unfold vp. destruct (EpochPoS.make_slot_proposer (E:=unit) 2 gen stake0 slot key) as [[[x|]|e|]|]; [reflexivity|discriminate Hok..].
Qed.
Definition e1 : Block := empty_block g0 (GENESIS_TIME + 6) 1 (vp 1).1 (vp 1).2.
Definition e2 : Block := empty_block e1 (GENESIS_TIME + 12) 2 (vp 2).1 (vp 2).2.
Lemma empty_height p now slot v pf : height (header (empty_block p now slot v pf)) = height (header p) + 1.
Proof. reflexivity. Qed.
Lemma e1_height : height (header e1) = 1.
Proof. unfold e1. rewrite empty_height, g0_height. reflexivity. Qed.
Lemma empty_time p now slot v pf : time (header (empty_block p now slot v pf)) = now.
Proof. reflexivity. Qed.
Lemma e1_time : time (header e1) = GENESIS_TIME + 6.
Proof. apply empty_time. Qed.
Definition differ (x y z : bytes) : bool := negb (bool_decide (y = x) || bool_decide (z = x) || bool_decide (z = y)).
Lemma differ_ne (x y z : Hash) : differ (hash_bytes x) (hash_bytes y) (hash_bytes z) = true → x ≠ y ∧ x ≠ z ∧ y ≠ z.
Proof.
  unfold differ. rewrite negb_true_iff, !orb_false_iff, !bool_decide_eq_false. intros [[Hyx Hzx] Hzy].
  split_and!; intros ->; auto.
Qed.
Lemma e_fresh : Block.hash g0 ≠ Block.hash e1 ∧ Block.hash g0 ≠ Block.hash e2 ∧ Block.hash e1 ≠ Block.hash e2.
Proof. apply differ_ne. vm_compute. reflexivity. Qed.
Lemma e1_fresh b' : b' ∈ [g0] → Block.hash b' = Block.hash e1 → header b' = header e1.
Proof. intros ->%list_elem_of_singleton Hh. destruct (proj1 e_fresh Hh). Qed.
Lemma e2_fresh b' : b' ∈ [e1; g0] → Block.hash b' = Block.hash e2 → header b' = header e2.
Proof.
  intros [->| ->%list_elem_of_singleton]%elem_of_cons Hh.
  - destruct (proj2 (proj2 e_fresh) Hh).
  - destruct (proj1 (proj2 e_fresh) Hh).
Qed.
(** The proposer after two slots. *)
Lemma slot_is_proposed (n n' : cnode) now slot :
  slot = 1 ∨ slot = 2 → EpochProposal.propose (E:=unit) n now slot (vp slot).1 (vp slot).2 = Ok n' →
  EpochProposal.on_slot (E:=unit) 2 n stake0 key now slot = Some (Ok n').
Proof. intros Hs Hp. unfold EpochProposal.on_slot. rewrite vp_ok by exact Hs. cbn [fbind]. revert Hp. destruct (vp slot) as [v pf]. intros Hp. f_equal. exact Hp. Qed.
Lemma slot_1 : ∃ n1 m, EpochProposal.propose (E:=unit) node (GENESIS_TIME + 6) 1 (vp 1).1 (vp 1).2 = Ok n1 ∧ published n1 = [e1] ∧
  chain_inv (node_chain n1) [e1; g0] ∧
  trie_rep (kv_map (backend (state_backend (node_chain n1)))) (Block.state_root e1) m ∧ pending (node_pool n1) = ∅.
Proof.
  destruct gen_state as (m & Hm & _).
  destruct (empty_slot (E:=unit) node g0 [] m (GENESIS_TIME + 6) 1 (vp 1).1 (vp 1).2 gen_inv gen_next gen_before Hm eq_refl e1_fresh)
    as (n1 & Hn1). exists n1, m. exact Hn1.
Qed.
Lemma slot_2 (n1 : cnode) m : chain_inv (node_chain n1) [e1; g0] →
  trie_rep (kv_map (backend (state_backend (node_chain n1)))) (Block.state_root e1) m → pending (node_pool n1) = ∅ →
  ∃ n2, EpochProposal.propose (E:=unit) n1 (GENESIS_TIME + 12) 2 (vp 2).1 (vp 2).2 = Ok n2 ∧ published n2 = e2 :: published n1.
Proof.
  intros Hi Hm He.
  assert (Hh : in_u 64 (height (header e1) + 1)) by (rewrite e1_height; by vm_compute).
  assert (Ht : time (header e1) < GENESIS_TIME + 12) by (rewrite e1_time; lia).
  pose proof (empty_slot (E:=unit) n1 e1 [g0] m (GENESIS_TIME + 12) 2 (vp 2).1 (vp 2).2 Hi Hh Ht Hm He) as Hs.
  destruct (Hs e2_fresh) as (n2 & Hp & Hb & _). exists n2. split; [exact Hp|exact Hb].
Qed.
Lemma two_slots : ∃ n2, slots (E:=unit) node [g0] [e1; e2] n2.
Proof.
  destruct slot_1 as (n1 & m & Hp1 & Hb1 & Hi1 & Hm1 & He1). destruct (slot_2 n1 m Hi1 Hm1 He1) as (n2 & Hp2 & Hb2).
  exists n2. apply (slots_tick 2 stake0 key node [g0] (GENESIS_TIME + 6) 1 n1 [e1] [e2]);
    [exact (slot_is_proposed _ _ _ 1 (or_introl eq_refl) Hp1)|exact Hb1| |].
  { intros b b' ->%list_elem_of_singleton. apply e1_fresh. }
  apply (slots_tick 2 stake0 key n1 [e1; g0] (GENESIS_TIME + 12) 2 n2 [e2] []);
    [exact (slot_is_proposed _ _ _ 2 (or_intror eq_refl) Hp2)|exact Hb2| |constructor].
  intros b b' ->%list_elem_of_singleton. apply e2_fresh.
Qed.
Lemma srv_ready : ready (MsgId:=unit) (Peer:=Z) node srv g0 [].
Proof.
  destruct gen_state as (m & Hm & _).
  split; [|reflexivity..]. split; [exact gen_inv|]. split; [exact gen_inv|]. exists g0, m. split; [reflexivity|]. split; exact Hm.
Qed.
End GossipEx.

Section GossipWitnesses.
Import GossipEx.

Lemma follower_keeps_up_witness :
  ∃ n2 s', hear (E:=unit) srv (blocks_heard [(tt, 7, e1); (tt, 8, e2)]) = Ok s' ∧
    in_step (node_chain n2) (mp_chain s') [e2; e1; g0].
Proof.
  destruct two_slots as (n2 & Hs).
  destruct (follower_keeps_up (E:=unit) node n2 srv g0 [] [(tt, 7, e1); (tt, 8, e2)] srv_ready Hs) as (s' & Hr & Hin & _).
  - rewrite g0_height. simpl. lia.
  - exists n2, s'. split; [exact Hr|exact Hin].
Defined.

Lemma reordered_follower_lags_witness :
  ∃ (n2 : cnode) s' last ch, hear (E:=unit) srv (blocks_heard [(tt, 8, e2); (tt, 7, e1)]) = Ok s' ∧
    last :: ch = [e2; e1; g0] ∧ chain_inv (node_chain n2) (last :: ch) ∧ chain_inv (mp_chain s') ch.
Proof.
  destruct two_slots as (n2 & Hs).
  destruct (reordered_follower_lags (E:=unit) node n2 srv g0 [] (tt, 7, e1) (tt, 8, e2) [] srv_ready Hs) as (s' & last & ch & Hr & _ & Hl & Ha & Hb).
  - rewrite g0_height. simpl. lia.
  - exists n2, s', last, ch. split; [exact Hr|]. split; [exact Hl|]. split; [exact Ha|exact Hb].
Defined.

(** The node of the genesis account and another node. *)
Lemma transaction_spreads_witness :
  ∃ tx tp' s',
    AccountManagerImpl.send_transaction (Peer:=Z) (MsgId:=unit) (E:=unit) (mkAccountManagerImpl {[ genesis_addr := key ]}) gen TxPoolManager.new
      (hex_text (addr_bytes genesis_addr)) (hex_text (addr_bytes (addr 2))) 5 =
      Ok (tp', [NetworkThread.publish_transaction tx], Reply.TxHash (Hash.fmt_display (Transaction.hash tx))) ∧
    hear (E:=unit) srv (tx_heard tt 7 tx) = Ok s' ∧ pending (mp_tx_pool s') = {[ Transaction.hash tx := tx ]}.
Proof.
  destruct gen_state as (m & Hm & HL & _).
  assert (Hh : head_ledger gen g0 [] m genesis_ledger) by (split; [exact gen_inv|split; [exact Hm|exact HL]]).
  destruct (transaction_spreads (E:=unit) (mkAccountManagerImpl {[ genesis_addr := key ]}) gen TxPoolManager.new g0 [] [] m genesis_ledger
    genesis_addr (addr 2) 5 ed_genesis_pub_key srv tt 7) as (tx & tp' & s' & Hs & _ & Hr & Hp & _).
  - exact Hh.
  - exact Hh.
  - exact genesis_addr_wf.
  - exact addr_2_wf.
  - rewrite genesis_funds. by vm_compute.
  - rewrite genesis_funds. by vm_compute.
  - exact me_key.
  - reflexivity.
  - vm_compute. reflexivity.
  - exists tx, tp', s'. split; [exact Hs|]. split; [exact Hr|exact Hp].
Defined.

(** An unsigned transfer of the genesis account. *)
Lemma hostile_transaction_witness :
  ∃ s', hear (E:=unit) srv (tx_heard tt 7 (gtx 4)) = Ok s' ∧
    Builder.produce_block (E:=unit) (mp_chain s') (mp_tx_pool s') (GENESIS_TIME + 6) 1 (Block.hash g0) val prf = Panic.
Proof.
  destruct gen_state as (m & Hm & HL & _).
  pose proof (hostile_transaction (E:=unit) g0 [] m genesis_ledger srv tt 7 (gtx 4) (GENESIS_TIME + 6) 1 val prf) as Hh.
  change (tx_data (gtx 4)) with (serialize (mkMsgTransfer (addr 2) 5)) in Hh. rewrite deserialize_serialize in Hh. apply Hh.
  - split; [exact gen_inv|split; [exact Hm|exact HL]].
  - exact genesis_addr_wf.
  - change (tx_sender (gtx 4)) with genesis_addr. rewrite genesis_funds. by vm_compute.
  - exact gen_next.
  - exact gen_before.
  - change (tx_sender (gtx 4)) with genesis_addr. rewrite genesis_funds. by vm_compute.
  - change (tx_sender (gtx 4)) with genesis_addr. rewrite genesis_funds. by vm_compute.
  - vm_compute. reflexivity.
Defined.
End GossipWitnesses.
