(* ===== verification/Startup.v ===== *)
(** * Startup: from the command line to a running node
    (src/cli/src/lib.rs, src/service/src/lib.rs, src/network/src/config.rs)

    [run] turns the arguments into a configuration, [Service::new_service] opens the
    databases and [Service::start] loads the chain, configures the network, starts the RPC
    server and gives the node its keys.  The clap crate, the file system, multiaddresses,
    secp256k1 keys and the source of randomness are parameters; threads, the tokio runtime
    and the logger are left out. *)
From Stdlib Require String.
From S2P Require Import Prelude Hashing Types Codec Keys Store State StateExample Transaction Storage Balance Block Executor.
From S2P Require Import Staking Runtime Vrf ChainStore BlockChain TxPool ChainService Restart Messages Handler Epoch NetService Rpc.
Import (notations) String.

(** ** Text *)

(** [str::parse::<u16>]. *)
Fixpoint parse_digits (acc : Z) (l : bytes) : option Z :=
  match l with
  | [] => Some acc
  | c :: l =>
      if decide (48 ≤ c ≤ 57) then
        let v := 10 * acc + (c - 48) in
        if decide (v < 2 ^ 16) then parse_digits v l else None
      else None
  end.
Definition parse_u16 (text : bytes) : option Z :=
  let digits := match text with c :: l => if decide (c = 43) then l else text | [] => [] end in
  if decide (digits = []) then None else parse_digits 0 digits.
(** [format!("{}", n)] of a number below 100000. *)
Fixpoint decimal (fuel : nat) (n : Z) : bytes :=
  match fuel with
  | O => []
  | S fuel => if decide (n < 10) then [48 + n] else decimal fuel (n / 10) ++ [48 + n mod 10]
  end.
Definition fmt_u16 (n : Z) : bytes := decimal 5 n.
(** [str::split]. *)
Fixpoint split_on (c : Z) (text : bytes) : list bytes :=
  match text with
  | [] => [[]]
  | x :: text =>
      if decide (x = c) then [] :: split_on c text
      else match split_on c text with [] => [[x]] | w :: ws => (x :: w) :: ws end
  end.
(** [Path::join] on Unix. *)
Definition path_join (dir x : bytes) : bytes :=
  match head x with
  | Some 47 => x
  | _ => match last dir with None => x | Some c => if decide (c = 47) then dir ++ x else dir ++ [47] ++ x end
  end.

(** ** Third-party code *)
Class Multiaddrs (Addr : Type) : Type := {
  multiaddr_parse : bytes → option Addr;
  (* [/ip4/0.0.0.0/tcp/port] *)
  any_tcp : Z → Addr;
}.
(** [clap::ArgMatches]: an argument of [App] is read by its name. *)
Record ArgMatches : Type := mkArgMatches {
  value_of : bytes → option bytes;
  is_present : bytes → bool;
  subcommand : option bytes;
}.
(** The file system, as far as the key file needs it: reading opens the file and reads
    it to its end, writing creates it. *)
Class FileSystem (F : Type) : Type := {
  fs_read : F → bytes → option bytes;
  fs_create_dir_all : F → bytes → F;
  fs_write : F → bytes → bytes → bool * F;
}.
Class FileSystemLaws (F : Type) `{FileSystem F} : Prop := {
  read_written f path data f' : fs_write f path data = (true, f') → fs_read f' path = Some data;
}.
(** Secret keys of libp2p's secp256k1. *)
Class Secp256k1 (K : Type) : Type := {
  secp_from_bytes : bytes → option K;
  secp_to_bytes : K → bytes;
}.
Class Secp256k1Laws (K : Type) `{Secp256k1 K} : Prop :=
  secp_bytes k : secp_from_bytes (secp_to_bytes k) = Some k.

(** ** The network configuration (src/network/src/config.rs) *)
Definition NODE_KEY_FILENAME : bytes := bytes_of "nodekey".
Module NetworkConfig.
Record t (Addr : Type) : Type := mk { network_dir : bytes; listen_address : Addr; port : Z; dial_addrs : list Addr }.
Arguments mk {Addr}. Arguments network_dir {Addr}. Arguments listen_address {Addr}. Arguments port {Addr}. Arguments dial_addrs {Addr}.
Section NetworkConfig.
Context {Addr : Type} `{Multiaddrs Addr}.
(** [home]: the home directory, if there is one. *)
Definition default (home : option bytes) : t Addr :=
  let dir := match home with Some d => d | None => bytes_of "." end in
  mk (path_join dir (bytes_of ".map")) (any_tcp 40313) 40313 [].
Definition new (home : option bytes) : t Addr := default home.
Definition update_network_cfg (self : t Addr) (data_dir : bytes) (dial_addrs : list Addr) (p2p_port : Z) : t Addr :=
  mk (path_join data_dir (bytes_of "network")) (any_tcp p2p_port) (port self) dial_addrs.
End NetworkConfig.
End NetworkConfig.
Abbreviation NetworkConfig := NetworkConfig.t.

Section NodeIdentity.
Context {Addr F K : Type} `{FileSystem F, Secp256k1 K}.
Definition key_file (config : NetworkConfig Addr) : bytes := path_join (NetworkConfig.network_dir config) NODE_KEY_FILENAME.
(** [generated]: the key that [generate_secp256k1] would give. *)
Definition load_private_key (config : NetworkConfig Addr) (f : F) (generated : K) : K * F :=
  let loaded := match fs_read f (key_file config) with Some key_bytes => secp_from_bytes key_bytes | None => None end in
  match loaded with
  | Some secret_key => (secret_key, f)
  | None =>
      let f := fs_create_dir_all f (NetworkConfig.network_dir config) in
      (generated, (fs_write f (key_file config) (secp_to_bytes generated)).2)
  end.
End NodeIdentity.

(** The filter of the network's log (src/network/src/manager.rs). *)
Module Level.
Inductive t : Type := Critical | Error | Warning | Info | Debug | Trace.
Definition of_text (log_level : bytes) : t :=
  if decide (log_level = bytes_of "info") then Debug
  else if decide (log_level = bytes_of "debug") then Debug
  else if decide (log_level = bytes_of "trace") then Trace
  else if decide (log_level = bytes_of "warn") then Info
  else if decide (log_level = bytes_of "error") then Error
  else if decide (log_level = bytes_of "crit") then Critical
  else Info.
End Level.

(** ** The configuration of the node (src/service/src/lib.rs) *)
Record NodeConfig (Addr : Type) : Type := mkNodeConfig {
  cfg_log : bytes;
  data_dir : bytes;
  rpc_addr : bytes;
  rpc_port : Z;
  cfg_key : bytes;
  poa_privkey : bytes;
  cfg_dev_mode : bool;
  cfg_dial_addrs : list Addr;
  p2p_port : Z;
  seal_block : bool;
}.
Arguments mkNodeConfig {Addr}. Arguments cfg_log {Addr}. Arguments data_dir {Addr}. Arguments rpc_addr {Addr}. Arguments rpc_port {Addr}.
Arguments cfg_key {Addr}. Arguments poa_privkey {Addr}. Arguments cfg_dev_mode {Addr}. Arguments cfg_dial_addrs {Addr}.
Arguments p2p_port {Addr}. Arguments seal_block {Addr}.
Module NodeConfig.
Definition default {Addr} : NodeConfig Addr :=
  mkNodeConfig (bytes_of "info") (bytes_of ".") (bytes_of "127.0.0.1") 9545 [] [] false [] 40313 false.
End NodeConfig.

(** ** Generated keys (src/common/ed25519/src/generator.rs) *)
Module Generator.
(** [seed]: the secret key that [SecretKey::generate] draws. *)
Definition new `{Ed25519} {E} (seed : bytes) : Outcome E (PrivKey * Pubkey) :=
  let priv_key := mkPrivKey seed in
  pub_key ← unwrap_res (PrivKey.to_pubkey priv_key);
  mret (priv_key, pub_key).
(** [Display] of private and public keys. *)
Definition fmt_key (inner : bytes) : bytes := 48 :: 120 :: hex_digits inner.
Definition create_key `{Ed25519} {E} (seed : bytes) : Outcome E (PrivKey * Pubkey) := new seed.
End Generator.

(** ** The command line (src/cli/src/lib.rs) *)

(** What [run] ends with: keys are printed as text, the key is refused, nothing is cleaned, or
    the node is started. *)
Module Run.
Inductive t (Addr : Type) : Type :=
  | Keys (priv_key pub_key : bytes)
  | Account (priv_key address : bytes)
  | WrongKey
  | Clean
  | Start (config : NodeConfig Addr).
Arguments Keys {Addr}. Arguments Account {Addr}. Arguments WrongKey {Addr}. Arguments Clean {Addr}. Arguments Start {Addr}.
End Run.

Module Cli.
(** The arguments that [App] declares; the ports have default values. *)
Definition declared : list bytes :=
  bytes_of <$> ["data_dir"; "log"; "rpc_addr"; "rpc_port"; "single"; "key"; "dial_addrs"; "p2p_port"; "seal_block"]%string.
Section Cli.
Context {Addr : Type} `{Multiaddrs Addr, Hex, Ed25519, Blake2b} {E : Type}.
Implicit Types (matches : ArgMatches) (config : NodeConfig Addr).

Definition given {A} (o : option A) (dflt : A) : A := match o with Some x => x | None => dflt end.
(** The value of a port argument, if there is one. *)
Definition port_of (value : option bytes) (dflt : Z) : Outcome E Z :=
  match value with Some text => unwrap (parse_u16 text) | None => Ok dflt end.
Definition parse_addrs (text : bytes) : option (list Addr) := mapM multiaddr_parse (split_on 44 text).

(** [Ok None]: the key is refused. *)
Definition configure matches : Outcome E (option (NodeConfig Addr)) :=
  let c := NodeConfig.default in
  let dir := given (value_of matches (bytes_of "data_dir")) (data_dir c) in
  let log := given (value_of matches (bytes_of "log")) (cfg_log c) in
  let rpc := given (value_of matches (bytes_of "rpc_addr")) (rpc_addr c) in
  rport ← port_of (value_of matches (bytes_of "rpc_port")) (rpc_port c);
  pport ← port_of (value_of matches (bytes_of "p2p_port")) (p2p_port c);
  let key := if is_present matches (bytes_of "key") then value_of matches (bytes_of "key") else None in
  match key with
  | Some k => if is_ok (PrivKey.from_hex k) then Ok (Some k) else Ok None
  | None => Ok (Some (cfg_key c))
  end ≫= λ key,
  match key with
  | None => Ok None
  | Some key =>
      let poa := if is_present matches (bytes_of "poa_privkey")
                 then match value_of matches (bytes_of "poa_privkey") with
                      | Some k => if is_ok (PrivKey.from_hex k) then k else poa_privkey c
                      | None => poa_privkey c
                      end
                 else poa_privkey c in
      let dial := if is_present matches (bytes_of "dial_addrs") then value_of matches (bytes_of "dial_addrs") else None in
      dials ← match dial with Some text => unwrap (parse_addrs text) | None => Ok (cfg_dial_addrs c) end;
      Ok (Some (mkNodeConfig log dir rpc rport key poa (is_present matches (bytes_of "single")) dials pport
                  (is_present matches (bytes_of "seal_block"))))
  end.

(** [seed]: the secret key that would be generated. *)
Definition run matches (seed : bytes) : Outcome E (Run.t Addr) :=
  if decide (subcommand matches = Some (bytes_of "keygen")) then
    r ← Generator.new seed; Ok (Run.Keys (Generator.fmt_key (sk_inner r.1)) (Generator.fmt_key (pk_inner r.2)))
  else if decide (subcommand matches = Some (bytes_of "create_account")) then
    r ← Generator.new seed; Ok (Run.Account (Generator.fmt_key (sk_inner r.1)) (Address.fmt_display (Address.from_pubkey (Pubkey.to_bytes r.2))))
  else
    o ← configure matches;
    match o with
    | None => Ok Run.WrongKey
    | Some config =>
        if decide (subcommand matches = Some (bytes_of "clean")) then Ok Run.Clean else Ok (Run.Start config)
    end.
End Cli.
End Cli.

(** ** The service (src/service/src/lib.rs, src/rpc/src/http_server.rs) *)
Record NodeService (D M R Addr : Type) : Type := mkNodeService {
  block_chain : BlockChain D M R;
  tx_pool : TxPoolManager;
  cfg : NodeConfig Addr;
}.
Arguments mkNodeService {D M R Addr}. Arguments block_chain {D M R Addr}. Arguments tx_pool {D M R Addr}. Arguments cfg {D M R Addr}.
(** What [start] hands to the threads: the chain, the configuration of the network, the
    address and the accounts of the RPC server, the key and the mode of the generator. *)
Record Started (D M R Addr Sock : Type) : Type := mkStarted {
  st_chain : BlockChain D M R;
  st_network : NetworkConfig Addr;
  st_log : Level.t;
  st_rpc : Sock;
  st_accounts : AccountManagerImpl;
  st_proposer : Proposer;
  st_stake : EpochPoS;
}.
Arguments mkStarted {D M R Addr Sock}. Arguments st_chain {D M R Addr Sock}. Arguments st_network {D M R Addr Sock}.
Arguments st_log {D M R Addr Sock}. Arguments st_rpc {D M R Addr Sock}. Arguments st_accounts {D M R Addr Sock}.
Arguments st_proposer {D M R Addr Sock}. Arguments st_stake {D M R Addr Sock}.

Module NodeService.
Section NodeService.
Context {D M TM R Addr Sock : Type} `{P : Profile, KVDB D, MemoryDB M, TO : !TrieOps (ArchiveDB D M) TM}.
Context `{IterOrder, RocksDB R, Blake2b, Ed25519, Hex, Bincode Account, Bincode MsgTransfer, Bincode TxHashType, Bincode ListEntry}.
Context `{Bincode (list Transaction), Bincode (list VerificationItem), Bincode Header, Bincode Block, Multiaddrs Addr} {E : Type}.
Implicit Types (self : NodeService D M R Addr) (config : NodeConfig Addr).

(** Over the databases of the data directory. *)
Definition new_service (c : ChainDB R) (d : D) config : NodeService D M R Addr :=
  mkNodeService (BlockChain.new c d) TxPoolManager.new config.

(** [parse_addr]: [SocketAddr]'s parser; the address is then bound. *)
Definition start_http (parse_addr : bytes → option Sock) (addr : bytes) (port : Z) (key : bytes)
    : Outcome E (Sock * AccountManagerImpl) :=
  let url := addr ++ bytes_of ":" ++ fmt_u16 port in
  sock ← unwrap (parse_addr url);
  accounts ← AccountManagerImpl.new key;
  Ok (sock, accounts).

Definition start (parse_addr : bytes → option Sock) (home : option bytes) (seed : bytes) self config
    : Outcome E (Started D M R Addr Sock) :=
  chain ← BlockChain.load (block_chain self);
  let network := NetworkConfig.update_network_cfg (NetworkConfig.new home) (data_dir config) (cfg_dial_addrs config) (p2p_port config) in
  rpc ← start_http parse_addr (rpc_addr config) (rpc_port config) (cfg_key config);
  node_key ← match PrivKey.from_hex (cfg_key config) with
             | Ok k => Ok k
             | _ => r ← Generator.create_key seed; Ok r.1
             end;
  let stake := EpochPoS.new (cfg_dev_mode config) in
  slot_clock ← EpochProposal.new node_key;
  Ok (mkStarted chain network (Level.of_text (cfg_log config)) rpc.1 rpc.2 slot_clock stake).
End NodeService.
End NodeService.

(** ** Facts: numbers as text *)
Lemma parse_digits_app l c acc v :
  parse_digits acc l = Some v → parse_digits acc (l ++ [c]) = parse_digits v [c].
Proof.
  revert acc. induction l as [|x l IH]; intros acc Hl; [by injection Hl as ->|]. cbn [parse_digits app] in *.
  case_decide; [|done]. case_decide; [|done]. by apply IH.
Qed.
Lemma decimal_digits fuel n : 0 ≤ n < 10 ^ Z.of_nat fuel → n < 2 ^ 16 →
  (decimal fuel n = [] → fuel = O) ∧ parse_digits 0 (decimal fuel n) = Some n ∧ head (decimal fuel n) ≠ Some 43.
Proof.
  revert n. induction fuel as [|fuel IH]; intros n Hn H16; [simpl in *; split; [done|]; split; [f_equal; lia|done]|].
  cbn [decimal]. case_decide as Hlt.
  - split; [done|]. split; [|simpl; intros [= He]; lia]. cbn [parse_digits]. rewrite !decide_True by lia. f_equal. lia.
  - assert (Hd : 0 ≤ n / 10 < 10 ^ Z.of_nat fuel).
    { split; [apply Z.div_pos; lia|]. apply Z.div_lt_upper_bound; [lia|]. rewrite Nat2Z.inj_succ, Z.pow_succ_r in Hn by lia. lia. }
    pose proof (Z.div_mod n 10 ltac:(lia)) as Hdm. pose proof (Z.mod_pos_bound n 10 ltac:(lia)) as Hm.
    destruct (IH (n / 10) Hd ltac:(lia)) as (Hne & Hp & Hh).
    split; [intros He; by apply app_eq_nil in He as [_ ?]|]. split.
    + rewrite (parse_digits_app _ _ _ _ Hp). cbn [parse_digits]. rewrite !decide_True by lia. f_equal. lia.
    + destruct (decimal fuel (n / 10)) as [|x l] eqn:Hx; [|exact Hh]. specialize (Hne eq_refl). subst fuel. simpl in Hd. lia.
Qed.
(** A port is read back from its digits. *)
Lemma parse_fmt_u16 n : in_u 16 n → parse_u16 (fmt_u16 n) = Some n.
Proof.
  intros Hn. unfold in_u in Hn. destruct (decimal_digits 5 n) as (Hne & Hp & Hh); [simpl; lia|lia|].
  unfold parse_u16, fmt_u16. destruct (decimal 5 n) as [|c l]; [by specialize (Hne eq_refl)|].
  cbv zeta. rewrite (decide_False (P:=c = 43)) by (intros ->; by destruct Hh). by rewrite decide_False.
Qed.

(** ** Properties *)
Section Identity.
Context {Addr F K : Type} `{FL : FileSystemLaws F, SL : Secp256k1Laws K}.
Implicit Types (config : NetworkConfig Addr) (f : F).

(** A node keeps its identity: once a key was read from the key file or could be written
    to it, every later start gives the same key and writes nothing. *)
Theorem node_identity_stable config f (generated generated' : K) :
  is_Some (fs_read f (key_file config) ≫= secp_from_bytes (K:=K)) ∨
    (fs_write (fs_create_dir_all f (NetworkConfig.network_dir config)) (key_file config) (secp_to_bytes generated)).1 = true →
  load_private_key config (load_private_key config f generated).2 generated' = load_private_key config f generated.
Proof.
  unfold load_private_key at 2 3. destruct (fs_read f (key_file config) ≫= secp_from_bytes (K:=K)) as [k|] eqn:Hr.
  - intros _. unfold mbind, option_bind in Hr. rewrite Hr. cbn [snd]. unfold load_private_key. by rewrite Hr.
  - intros [[]%is_Some_None|Hok]. unfold mbind, option_bind in Hr. rewrite Hr. cbn [snd].
    destruct (fs_write _ _ _) as [ok f'] eqn:Hw. cbn [fst snd] in Hok |- *. subst ok.
    unfold load_private_key. by rewrite (read_written _ _ _ _ Hw), secp_bytes.
Qed.
End Identity.

Section StartProperties.
Context {D M TM R Addr Sock : Type} {node_hash : bytes → Hash}.
Context `{P : Profile, KL : KVDBLaws D, MM : MemoryDB M, TO : !TrieOps (ArchiveDB D M) TM}.
Context `{MLL : !MemoryDBLaws M node_hash, TL : !TrieLaws D M TM node_hash}.
Context `{IO : IterOrder, !IterOrderLaw, RL : RocksDBLaws R, HB : Blake2bLaws, EL : Ed25519Laws, HL : HexLaws}.
Context `{BA : BincodeLaws Account, BT : Bincode MsgTransfer, BX : Bincode TxHashType}.
Context `{BE : Bincode ListEntry, BTX : Bincode (list Transaction), BSG : Bincode (list VerificationItem)}.
Context `{BHD : BincodeLaws Header, BBK : BincodeLaws Block, MA : Multiaddrs Addr} {E : Type}.
Implicit Types (bc : BlockChain D M R) (bs : list Block) (matches : ArgMatches) (config : NodeConfig Addr).

(** The command line [--key 0x.. --rpc_port .. --p2p_port ..]. *)
Record key_and_ports matches (sk : bytes) (rport pport : Z) : Prop := {
  kp_sub : subcommand matches = None;
  kp_key : is_present matches (bytes_of "key") = true ∧ value_of matches (bytes_of "key") = Some (hex_text sk);
  kp_rpc : value_of matches (bytes_of "rpc_port") = Some (fmt_u16 rport);
  kp_p2p : value_of matches (bytes_of "p2p_port") = Some (fmt_u16 pport);
  kp_dial : is_present matches (bytes_of "dial_addrs") = false;
}.

Lemma from_hex_text sk : length sk = 32%nat → Forall is_byte sk → PrivKey.from_hex (hex_text sk) = Ok (mkPrivKey sk).
Proof.
  intros Hl Hb. unfold PrivKey.from_hex, hex_text. change (bytes_of "0x" ++ hex_encode sk) with (48 :: 120 :: hex_encode sk).
  rewrite strip_0x_hex, hex_decode_encode by done. simpl. by rewrite decide_True.
Qed.

Lemma from_pubkey_wf raw : addr_wf (Address.from_pubkey raw).
Proof.
  unfold Address.from_pubkey, addr_wf. cbn [addr_bytes]. split; [|apply Forall_drop, blake2b_256_bytes].
  by rewrite length_drop, length_blake2b_256.
Qed.
(** The account that [create_account] prints is the one that the node has when it is
    started with the printed key. *)
Theorem created_account matches seed :
  subcommand matches = Some (bytes_of "create_account") → length seed = 32%nat → Forall is_byte seed → secret_ok seed = true →
  ∃ key text address, Cli.run (Addr:=Addr) (E:=E) matches seed = Ok (Run.Account key text) ∧
    Address.from_hex text = Ok address ∧ AccountManagerImpl.new (E:=E) key = Ok (mkAccountManagerImpl {[ address := mkPrivKey seed ]}).
Proof.
  intros Hs Hl Hb Hok. unfold Cli.run. rewrite Hs, decide_False, decide_True by done. unfold Generator.new.
  rewrite (proj1 (sign_spec (mkPrivKey seed) [] Hok)). cbn [unwrap_res]. rewrite !bind_Ok. cbv [mret outcome_mret]. rewrite bind_Ok.
  eexists _, _, (Address.from_pubkey (public_of_secret seed)). split; [done|]. cbn [fst snd sk_inner Pubkey.to_bytes pk_inner].
  split; [apply Address_display_parses, from_pubkey_wf|].
  replace (Generator.fmt_key seed) with (hex_text seed); [by apply new_account|].
  unfold hex_text, Generator.fmt_key. by rewrite hex_encode_spec.
Qed.

(** [clap] reports only arguments that [App] declares, so the key of the consensus is
    always the empty text: it cannot be set. *)
Theorem poa_key_never_set matches config :
  (∀ n, is_present matches n = true → n ∈ Cli.declared) →
  Cli.configure (E:=E) matches = Ok (Some config) → poa_privkey config = [].
Proof.
  intros Hd. assert (Hp : is_present matches (bytes_of "poa_privkey") = false).
  { destruct (is_present matches _) eqn:Hx; [|done]. apply Hd in Hx. exfalso. revert Hx. apply (bool_decide_eq_false_1 _). by vm_compute. }
  unfold Cli.configure. rewrite Hp. intros (rp & _ & (pp & _ & Hk)%bind_Ok_inv)%bind_Ok_inv.
  apply bind_Ok_inv in Hk as ([k|] & _ & Hk); [|done]. apply bind_Ok_inv in Hk as (d & _ & Hk). by injection Hk as <-.
Qed.

(** C20: From the command line to the node: started with a key and ports over databases that
    hold a chain, the node has that chain, listens on the given ports, sends transfers for
    the account of the key and proposes blocks under the key. *)
Theorem node_starts matches sk rport pport seed home parse_addr (sock : Sock) bc bs :
  key_and_ports matches sk rport pport → in_u 16 rport → in_u 16 pport →
  length sk = 32%nat → Forall is_byte sk → secret_ok sk = true → chain_inv bc bs →
  parse_addr (Cli.given (value_of matches (bytes_of "rpc_addr")) (bytes_of "127.0.0.1") ++ bytes_of ":" ++ fmt_u16 rport) = Some sock →
  ∃ config st, Cli.run (E:=E) matches seed = Ok (Run.Start config) ∧
    NodeService.start (E:=E) parse_addr home seed (NodeService.new_service (bc_db bc) (backend (state_backend bc)) config) config = Ok st ∧
    chain_inv (st_chain st) bs ∧ last bs = Some (genesis (st_chain st)) ∧ st_rpc st = sock ∧
    NetworkConfig.listen_address (st_network st) = any_tcp pport ∧
    accounts (st_accounts st) = {[ Address.from_pubkey (public_of_secret sk) := mkPrivKey sk ]} ∧ 
    st_proposer st = mkProposer (mkPrivKey sk) (mkPubkey (public_of_secret sk)) ∧
    dev_mode (st_stake st) = is_present matches (bytes_of "single").
Proof.
  intros [Hsub [Hkp Hkv] Hr Hp Hd] Hrp Hpp Hl Hb Hok Hi Hs.
  pose proof (from_hex_text sk Hl Hb) as Hfh.
  assert (Hcfg : ∃ config, Cli.configure (E:=E) matches = Ok (Some config) ∧ cfg_key config = hex_text sk ∧ rpc_port config = rport ∧
    p2p_port config = pport ∧ rpc_addr config = Cli.given (value_of matches (bytes_of "rpc_addr")) (bytes_of "127.0.0.1") ∧
    cfg_dev_mode config = is_present matches (bytes_of "single")).
  { unfold Cli.configure. rewrite Hkp, Hkv, Hr, Hp, Hd. unfold Cli.port_of. rewrite !parse_fmt_u16 by done. cbn [unwrap].
    rewrite !bind_Ok, Hfh. cbn [is_ok]. rewrite !bind_Ok. by eexists. }
  destruct Hcfg as (config & Hc & Hck & Hcr & Hcp & Hca & Hcd).
  destruct (restart_spec (E:=E) bc bs Hi) as (bc' & Hre & Hi' & Hg & _).
  exists config. eexists. split; [|split].
  - unfold Cli.run. rewrite Hsub, !decide_False by done. rewrite Hc, bind_Ok. by rewrite decide_False.
  - unfold NodeService.start, NodeService.start_http, NodeService.new_service. cbn [block_chain].
    unfold restart in Hre. rewrite Hre, bind_Ok, Hck, Hca, Hcr. cbv zeta. rewrite Hs. cbn [unwrap].
    rewrite bind_Ok, (new_account sk Hl Hb Hok), !bind_Ok, Hfh, bind_Ok.
    unfold EpochProposal.new. rewrite (proj1 (sign_spec (mkPrivKey sk) [] Hok)). reflexivity.
  - cbn [st_chain st_rpc st_network st_accounts st_proposer st_stake fst snd accounts]. rewrite Hcd.
    unfold NetworkConfig.update_network_cfg. cbn [NetworkConfig.listen_address]. rewrite Hcp. by split_and!.
Qed.
End StartProperties.

(** ** Worked examples *)
Module StartEx.
Export EpochEx.
(** A file system of files, keys of any length, addresses that are ports. *)
#[export] Instance example_fs : FileSystem (gmap bytes bytes) := {
  fs_read f path := f !! path;
  fs_create_dir_all f _ := f;
  fs_write f path data := (true, <[path := data]> f);
}.
#[export] Instance example_fs_laws : FileSystemLaws (gmap bytes bytes).
Proof. split. intros f path data f' [= <-]. apply lookup_insert_eq. Qed.
#[export] Instance example_secp : Secp256k1 bytes := { secp_from_bytes b := Some b; secp_to_bytes b := b }.
#[export] Instance example_secp_laws : Secp256k1Laws bytes.
Proof. done. Qed.
#[export] Instance example_addrs : Multiaddrs Z := { multiaddr_parse _ := None; any_tcp p := p }.

(** [--key 0x.. --rpc_port 80 --p2p_port 40000 --single] *)
Definition args : ArgMatches := mkArgMatches
  (λ n, if decide (n = bytes_of "key") then Some (hex_text ed_genesis_pub_key)
        else if decide (n = bytes_of "rpc_port") then Some (fmt_u16 80)
        else if decide (n = bytes_of "p2p_port") then Some (fmt_u16 40000) else None)
  (λ n, bool_decide (n ∈ [bytes_of "key"; bytes_of "rpc_port"; bytes_of "p2p_port"; bytes_of "single"])) None.
Lemma args_ok : key_and_ports args ed_genesis_pub_key 80 40000.
Proof. split; [reflexivity|split; reflexivity|reflexivity..]. Qed.
Lemma args_declared n : is_present args n = true → n ∈ Cli.declared.
Proof.
  intros Hn%bool_decide_eq_true. revert n Hn.
  assert (Forall (λ n, n ∈ Cli.declared) [bytes_of "key"; bytes_of "rpc_port"; bytes_of "p2p_port"; bytes_of "single"]) as Hall.
  { apply (bool_decide_eq_true_1 _). vm_compute. reflexivity. }
  intros n Hn. rewrite Forall_forall in Hall. exact (Hall n Hn).
Qed.
Definition sock_of (t : bytes) : option bytes := Some t.
End StartEx.

Section StartWitnesses.
Import StartEx.
Lemma node_identity_stable_witness :
  load_private_key (NetworkConfig.new (Addr:=Z) None) (load_private_key (NetworkConfig.new (Addr:=Z) None) (∅ : gmap bytes bytes) [7]).2 [8] =
    load_private_key (NetworkConfig.new (Addr:=Z) None) (∅ : gmap bytes bytes) [7].
Proof. apply node_identity_stable. right. reflexivity. Defined.

Lemma poa_key_never_set_witness :
  ∃ config, Cli.configure (Addr:=Z) (E:=unit) args = Ok (Some config) ∧ poa_privkey config = [].
Proof.
  destruct (Cli.configure (Addr:=Z) (E:=unit) args) as [[config|]|e|] eqn:Hc; [|discriminate Hc..].
  exists config. split; [reflexivity|]. exact (poa_key_never_set (E:=unit) args config args_declared Hc).
Defined.

Lemma node_starts_witness :
  ∃ config st, Cli.run (Addr:=Z) (E:=unit) args [] = Ok (Run.Start config) ∧
    NodeService.start (E:=unit) sock_of None [] (NodeService.new_service (bc_db gen) (backend (state_backend gen)) config) config = Ok st ∧
    chain_inv (st_chain st) [genesis gen] ∧ pr_myid (st_proposer st) = key.
Proof.
  destruct (node_starts (E:=unit) args ed_genesis_pub_key 80 40000 [] None sock_of
    (bytes_of "127.0.0.1" ++ bytes_of ":" ++ fmt_u16 80) gen [genesis gen] args_ok)
    as (config & st & Hr & Hs & Hi & _ & _ & _ & _ & Hk & _).
  - by vm_compute.
  - by vm_compute.
  - reflexivity.
  - apply (bool_decide_eq_true_1 _). vm_compute. reflexivity.
  - vm_compute. reflexivity.
  - exact gen_inv.
  - reflexivity.
  - exists config, st. split; [exact Hr|]. split; [exact Hs|]. split; [exact Hi|]. rewrite Hk. reflexivity.
Defined.
End StartWitnesses.
