(* ===== verification/PoolLib.v ===== *)
(** * PoolLib: the generic transaction pool (src/pool/src/transaction_pool)

    A pool of verified transactions, grouped by sender and ordered within a sender by a
    [Scoring].  The best and the worst transaction of every sender are kept in sets
    ordered by score, from which pending transactions are taken and the cheapest one
    is evicted when a limit is reached.

    The traits of the crate are classes: the transaction ([VerifiedTransaction]), its
    ordering ([Scoring]), who watches the pool ([Listener]), what can go in a block
    ([Ready]).  [BTreeSet] is a sorted list, [usize] has 64 bits, the order in which a
    [HashMap] is iterated is a parameter. *)
From S2P Require Import Prelude.

(** ** Traits and data *)
Class VerifiedTransaction (T Hash Sender : Type) : Type := {
  hash : T → Hash;
  mem_usage : T → Z;
  sender : T → Sender;
}.
Record Transaction (T : Type) : Type := mkTransaction { insertion_id : Z; transaction : T }.
Arguments mkTransaction {T}. Arguments insertion_id {T}. Arguments transaction {T}.

Module Choice.
Inductive t : Type := RejectNew | ReplaceOld | InsertNew.
End Choice.
Abbreviation Choice := Choice.t.
Module Change.
Inductive t (Ev : Type) : Type :=
  | InsertedAt (i : nat) | RemovedAt (i : nat) | ReplacedAt (i : nat) | Culled (n : nat) | Event (e : Ev).
Arguments InsertedAt {Ev}. Arguments RemovedAt {Ev}. Arguments ReplacedAt {Ev}. Arguments Culled {Ev}. Arguments Event {Ev}.
End Change.
Abbreviation Change := Change.t.
(** [&self] is the instance; the scores are updated in place. *)
Class Scoring (T : Type) : Type := {
  Score : Type;
  ScoreEvent : Type;
  score_cmp : Score → Score → comparison;
  score_default : Score;
  compare : T → T → comparison;
  choose : T → T → Choice;
  update_scores : list (Transaction T) → list Score → Change ScoreEvent → list Score;
  should_ignore_sender_limit : T → bool;
}.

Record ScoreWithRef (T : Type) `{Scoring T} : Type := mkScoreWithRef { score : Score; score_tx : Transaction T }.
Arguments mkScoreWithRef {T _}. Arguments score {T _}. Arguments score_tx {T _}.
Module ScoreWithRef.
Definition new {T} `{Scoring T} (s : Score) (t : Transaction T) : ScoreWithRef T := mkScoreWithRef s t.
(** The higher score comes first, then the lower insertion id. *)
Definition cmp {T} `{Scoring T} (a b : ScoreWithRef T) : comparison :=
  match score_cmp (score b) (score a) with
  | Eq => Z.compare (insertion_id (score_tx a)) (insertion_id (score_tx b))
  | c => c
  end.
End ScoreWithRef.

Record ReplaceTransaction (T : Type) : Type := mkReplaceTransaction {
  replace_tx : Transaction T;
  pooled_by_sender : option (list (Transaction T));
}.
Arguments mkReplaceTransaction {T}. Arguments replace_tx {T}. Arguments pooled_by_sender {T}.
Class ShouldReplace (T : Type) : Type := should_replace : ReplaceTransaction T → ReplaceTransaction T → Choice.

Module Readiness.
Inductive t : Type := Stale | Ready | Future.
#[global] Instance eq_dec : EqDecision t.
Proof. solve_decision. Defined.
End Readiness.
Abbreviation Readiness := Readiness.t.
Class Ready (R T : Type) : Type := is_ready : R → T → Readiness * R.
(** A closure, with its captured state. *)
#[export] Instance ready_fn {St T} : Ready (St * (St → T → Readiness * St)) T := λ r tx,
  let (x, st) := r.2 r.1 tx in (x, (st, r.2)).
#[export] Instance ready_pair {A B T} `{Ready A T, Ready B T} : Ready (A * B) T := λ r tx,
  let (x, a) := is_ready r.1 tx in
  match x with
  | Readiness.Ready => let (y, b) := is_ready r.2 tx in (y, (a, b))
  | x => (x, (a, r.2))
  end.

(** The score in a message is [None] where the text is "unknown". *)
Module Error.
Inductive t (Hash Sc : Type) : Type :=
  | AlreadyImported (h : Hash) | TooCheapToEnter (h : Hash) (min_score : option Sc) | TooCheapToReplace (old new : Hash).
Arguments AlreadyImported {Hash Sc}. Arguments TooCheapToEnter {Hash Sc}. Arguments TooCheapToReplace {Hash Sc}.
End Error.
Abbreviation Error := Error.t.

Class Listener (L T Err : Type) : Type := {
  added : L → T → option T → L;
  rejected : L → T → Err → L;
  dropped : L → T → option T → L;
  invalid : L → T → L;
  canceled : L → T → L;
  culled : L → T → L;
}.
Inductive NoopListener : Type := noop_listener.
#[export] Instance noop {T Err} : Listener NoopListener T Err := {
  added l _ _ := l; rejected l _ _ := l; dropped l _ _ := l; invalid l _ := l; canceled l _ := l; culled l _ := l;
}.
#[export] Instance listener_pair {A B T Err} `{Listener A T Err, Listener B T Err} : Listener (A * B) T Err := {
  added l tx old := (added l.1 tx old, added l.2 tx old);
  rejected l tx reason := (rejected l.1 tx reason, rejected l.2 tx reason);
  dropped l tx by_tx := (dropped l.1 tx by_tx, dropped l.2 tx by_tx);
  invalid l tx := (invalid l.1 tx, invalid l.2 tx);
  canceled l tx := (canceled l.1 tx, canceled l.2 tx);
  culled l tx := (culled l.1 tx, culled l.2 tx);
}.

Record Options : Type := mkOptions { max_count : Z; max_per_sender : Z; max_mem_usage : Z }.
Definition Options_default : Options := mkOptions 1024 16 (8 * 1024 * 1024).
Record LightStatus : Type := mkLightStatus { ls_mem_usage : Z; transaction_count : Z; ls_senders : Z }.
Record Status : Type := mkStatus { stalled : Z; pending_count : Z; future : Z }.

(** ** The standard library *)
(** [slice::binary_search_by]: an index with [Equal], or where to insert. *)
Section BinarySearch.
Context {A : Type} (f : A → comparison).
Fixpoint search_loop {E} (fuel : nat) (l : list A) (base size : nat) : Outcome E nat :=
  match fuel with
  | O => Panic
  | S fuel =>
      if decide (1 < size)%nat then
        let half := Nat.div2 size in
        let mid := (base + half)%nat in
        x ← unwrap (l !! mid);
        let base := match f x with Gt => base | _ => mid end in
        search_loop fuel l base (size - half)
      else Ok base
  end.
Definition binary_search_by {E} (l : list A) : Outcome E (nat + nat) :=
  if decide (length l = 0%nat) then Ok (inr 0%nat)
  else
    base ← search_loop (length l) l 0 (length l);
    x ← unwrap (l !! base);
    match f x with
    | Eq => Ok (inl base)
    | Lt => Ok (inr (S base))
    | Gt => Ok (inr base)
    end.
End BinarySearch.

(** [Vec]: [insert], [remove], [pop]. *)
Definition vec_insert {E A} (l : list A) (i : nat) (x : A) : Outcome E (list A) :=
  if decide (i ≤ length l)%nat then Ok (take i l ++ x :: drop i l) else Panic.
Definition vec_remove {E A} (l : list A) (i : nat) : Outcome E (list A) :=
  if decide (i < length l)%nat then Ok (take i l ++ drop (S i) l) else Panic.

(** [BTreeSet] over an ordering. *)
Section BTreeSet.
Context {A : Type} (cmp : A → A → comparison).
Fixpoint bt_insert (x : A) (l : list A) : list A :=
  match l with
  | [] => [x]
  | y :: l' => match cmp x y with Lt => x :: l | Eq => l | Gt => y :: bt_insert x l' end
  end.
Fixpoint bt_remove (x : A) (l : list A) : list A :=
  match l with
  | [] => []
  | y :: l' => match cmp x y with Lt => l | Eq => l' | Gt => y :: bt_remove x l' end
  end.
End BTreeSet.

(** The iteration order of a hash map. *)
Class MapOrder : Type := map_items : ∀ K A `{Countable K}, gmap K A → list (K * A).
Arguments map_items {_ K A _ _}.

(** ** The transactions of a sender *)
Module AddResult.
Inductive t (T S : Type) : Type :=
  | Ok (tx : T) | TooCheapToEnter (tx : T) (s : S) | TooCheap (old new : T) | Replaced (old new : T) | PushedOut (old new : T).
Arguments Ok {T S}. Arguments TooCheapToEnter {T S}. Arguments TooCheap {T S}. Arguments Replaced {T S}. Arguments PushedOut {T S}.
End AddResult.
Abbreviation AddResult := AddResult.t.
Record Transactions (T : Type) `{Scoring T} : Type := mkTransactions { transactions : list (Transaction T); scores : list Score }.
Arguments mkTransactions {T _}. Arguments transactions {T _}. Arguments scores {T _}.

Module Transactions.
Section Transactions.
Context {T : Type} `{SC : !Scoring T} {E : Type}.
Implicit Types (set : Transactions T) (tx : Transaction T).
Definition default : Transactions T := mkTransactions [] [].
Definition is_empty set : bool := match transactions set with [] => true | _ => false end.
Definition len set : nat := length (transactions set).
Definition iter set : list (Transaction T) := transactions set.

Definition worst_and_best set : Outcome E (option ((Score * Transaction T) * (Score * Transaction T))) :=
  match scores set with
  | [] => Ok None
  | best :: _ =>
      worst ← unwrap (last (scores set));
      best_tx ← unwrap (head (transactions set));
      worst_tx ← unwrap (transactions set !! (length (scores set) - 1)%nat);
      Ok (Some ((worst, worst_tx), (best, best_tx)))
  end.
Definition find_next set (tx : T) : Outcome E (option (Score * Transaction T)) :=
  r ← binary_search_by (λ old, compare (transaction old) tx) (transactions set);
  match r with
  | inl index =>
      let index := S index in
      if decide (index < length (scores set))%nat then
        s ← unwrap (scores set !! index);
        t ← unwrap (transactions set !! index);
        Ok (Some (s, t))
      else Ok None
  | inr _ => Ok None
  end.

(** [self.scores[index - 1]] panics for an empty set. *)
Definition push_cheapest_transaction set tx (max_count : Z) : Outcome E (Transactions T * AddResult (Transaction T) Score) :=
  let index := length (transactions set) in
  if bool_decide (Z.of_nat index = max_count) && negb (should_ignore_sender_limit (transaction tx)) then
    min_score ← match index with O => Panic | S i => unwrap (scores set !! i) end;
    Ok (set, AddResult.TooCheapToEnter tx min_score)
  else
    let txs := transactions set ++ [tx] in
    Ok (mkTransactions txs (update_scores txs (scores set ++ [score_default]) (Change.InsertedAt index)), AddResult.Ok tx).
Definition update_scores set (event : ScoreEvent) : Transactions T :=
  mkTransactions (transactions set) (PoolLib.update_scores (transactions set) (scores set) (Change.Event event)).
Definition add set (new : Transaction T) (max_count : Z) : Outcome E (Transactions T * AddResult (Transaction T) Score) :=
  r ← binary_search_by (λ old, compare (transaction old) (transaction new)) (transactions set);
  let index := match r with inl index => index | inr index => index end in
  if decide (index = length (transactions set)) then push_cheapest_transaction set new max_count
  else
    old ← unwrap (transactions set !! index);
    match choose (transaction old) (transaction new) with
    | Choice.RejectNew => Ok (set, AddResult.TooCheap old new)
    | Choice.InsertNew =>
        txs ← vec_insert (transactions set) index new;
        sc ← vec_insert (scores set) index score_default;
        let sc := PoolLib.update_scores txs sc (Change.InsertedAt index) in
        if decide (Z.of_nat (length txs) > max_count) then
          old ← unwrap (last txs);
          let txs := removelast txs in
          let sc := removelast sc in
          let sc := PoolLib.update_scores txs sc (Change.RemovedAt (length txs)) in
          Ok (mkTransactions txs sc, AddResult.PushedOut old new)
        else Ok (mkTransactions txs sc, AddResult.Ok new)
    | Choice.ReplaceOld =>
        let txs := <[index := new]> (transactions set) in
        Ok (mkTransactions txs (PoolLib.update_scores txs (scores set) (Change.ReplacedAt index)), AddResult.Replaced old new)
    end.
Definition remove set (tx : T) : Outcome E (Transactions T * bool) :=
  r ← binary_search_by (λ old, compare (transaction old) tx) (transactions set);
  match r with
  | inr _ => Ok (set, false)
  | inl index =>
      txs ← vec_remove (transactions set) index;
      sc ← vec_remove (scores set) index;
      Ok (mkTransactions txs (PoolLib.update_scores txs sc (Change.RemovedAt index)), true)
  end.

Section Cull.
Context {R : Type} `{RD : !Ready R T}.
Fixpoint first_non_stalled (ready : R) (txs : list (Transaction T)) : nat * R :=
  match txs with
  | [] => (0%nat, ready)
  | tx :: txs =>
      let (x, ready) := is_ready ready (transaction tx) in
      match x with
      | Readiness.Stale => let (n, ready) := first_non_stalled ready txs in (S n, ready)
      | Readiness.Ready | Readiness.Future => (0%nat, ready)
      end
  end.
(** [n] elements are popped off both vectors. *)
Fixpoint pop_stalled (n : nat) (txs : list (Transaction T)) (sc : list Score) (result : list (Transaction T))
    : Outcome E (list (Transaction T) * list Score * list (Transaction T)) :=
  match n with
  | O => Ok (txs, sc, result)
  | S n =>
      tx ← unwrap (last txs);
      pop_stalled n (removelast txs) (removelast sc) (result ++ [tx])
  end.
Definition cull set (ready : R) : Outcome E (Transactions T * list (Transaction T) * R) :=
  if is_empty set then Ok (set, [], ready)
  else
    let (first, ready) := first_non_stalled ready (transactions set) in
    if decide (first = 0%nat) then Ok (set, [], ready)
    else
      r ← pop_stalled first (rev (transactions set)) (rev (scores set)) [];
      let txs := rev r.1.1 in
      let sc := rev r.1.2 in
      let result := r.2 in
      let sc := PoolLib.update_scores txs sc (Change.Culled (length result)) in
      Ok (mkTransactions txs sc, rev result, ready).
End Cull.
End Transactions.
End Transactions.

(** ** The pool *)
Record Pool (T Hash Sender L : Type) `{Scoring T, Countable Hash, Countable Sender} : Type := mkPool {
  listener : L;
  options : Options;
  pool_mem_usage : Z;
  by_sender : gmap Sender (Transactions T);
  by_hash : gmap Hash (Transaction T);
  best_transactions : list (ScoreWithRef T);
  worst_transactions : list (ScoreWithRef T);
  last_insertion_id : Z;
}.
Arguments mkPool {T Hash Sender L _ _ _ _ _}. Arguments listener {T Hash Sender L _ _ _ _ _}. Arguments options {T Hash Sender L _ _ _ _ _}.
Arguments pool_mem_usage {T Hash Sender L _ _ _ _ _}. Arguments by_sender {T Hash Sender L _ _ _ _ _}. Arguments by_hash {T Hash Sender L _ _ _ _ _}.
Arguments best_transactions {T Hash Sender L _ _ _ _ _}. Arguments worst_transactions {T Hash Sender L _ _ _ _ _}.
Arguments last_insertion_id {T Hash Sender L _ _ _ _ _}.

Module Pool.
Section Pool.
Context {T Hash Sender L : Type} `{SC : !Scoring T, Countable Hash, Countable Sender, VT : !VerifiedTransaction T Hash Sender}.
Context `{LI : !Listener L T (Error Hash Score), P : Profile, MO : MapOrder} {E : Type}.
Abbreviation Pl := (Pool T Hash Sender L).
Abbreviation Tx := (Transaction T).
Abbreviation Err := (Error Hash Score).
Implicit Types (p : Pl) (tx : Tx).

Definition new (l : L) (o : Options) : Pl := mkPool l o 0 ∅ ∅ [] [] 0.

Definition set_listener p l : Pl := mkPool l (options p) (pool_mem_usage p) (by_sender p) (by_hash p) (best_transactions p) (worst_transactions p) (last_insertion_id p).
Definition set_mem p m h : Pl := mkPool (listener p) (options p) m (by_sender p) h (best_transactions p) (worst_transactions p) (last_insertion_id p).
Definition set_by_sender p t : Pl := mkPool (listener p) (options p) (pool_mem_usage p) t (by_hash p) (best_transactions p) (worst_transactions p) (last_insertion_id p).
Definition set_ends p b w : Pl := mkPool (listener p) (options p) (pool_mem_usage p) (by_sender p) (by_hash p) b w (last_insertion_id p).
Definition set_insertion_id p i : Pl := mkPool (listener p) (options p) (pool_mem_usage p) (by_sender p) (by_hash p) (best_transactions p) (worst_transactions p) i.

Definition finalize_remove p (h : Hash) : Outcome E (Pl * option T) :=
  match by_hash p !! h with
  | Some old =>
      m ← sub_u 64 (pool_mem_usage p) (mem_usage (transaction old));
      Ok (set_mem p m (delete h (by_hash p)), Some (transaction old))
  | None => Ok (p, None)
  end.
Definition finalize_insert p (new : Tx) (old : option Tx) : Outcome E Pl :=
  m ← add_u 64 (pool_mem_usage p) (mem_usage (transaction new));
  let p := set_mem p m (<[hash (transaction new) := new]> (by_hash p)) in
  match old with
  | Some old => r ← finalize_remove p (hash (transaction old)); Ok r.1
  | None => Ok p
  end.

(** Updating the sets of best and worst transactions. *)
Definition update (collection : list (ScoreWithRef T)) (x : Score * Tx) (remove : bool) : list (ScoreWithRef T) :=
  if remove then bt_remove ScoreWithRef.cmp (ScoreWithRef.new x.1 x.2) collection
  else bt_insert ScoreWithRef.cmp (ScoreWithRef.new x.1 x.2) collection.
Definition is_same (a b : Score * Tx) : bool :=
  match score_cmp a.1 b.1 with Eq => bool_decide (hash (transaction a.2) = hash (transaction b.2)) | _ => false end.
Definition replace_end (collection : list (ScoreWithRef T)) (x y : Score * Tx) : list (ScoreWithRef T) :=
  if is_same x y then collection else update (update collection x true) y false.
Abbreviation Ends := (option ((Score * Tx) * (Score * Tx))).
Definition update_senders_worst_and_best p (previous current : Ends) : Pl :=
  match previous, current with
  | None, Some (worst, best) =>
      set_ends p (update (best_transactions p) best false) (update (worst_transactions p) worst false)
  | Some (worst, best), None =>
      let p := set_by_sender p (delete (sender (transaction worst.2)) (by_sender p)) in
      set_ends p (update (best_transactions p) best true) (update (worst_transactions p) worst true)
  | Some (w1, b1), Some (w2, b2) =>
      set_ends p (replace_end (best_transactions p) b1 b2) (replace_end (worst_transactions p) w1 w2)
  | None, None => p
  end.

(** [f] changes the transactions of a sender. *)
Definition remove_from_set {R} p (s : Sender) (f : Transactions T → Outcome E (Transactions T * R)) : Outcome E (Pl * option R) :=
  match by_sender p !! s with
  | Some set =>
      prev ← Transactions.worst_and_best set;
      r ← f set;
      let p := set_by_sender p (<[s := r.1]> (by_sender p)) in
      next ← Transactions.worst_and_best r.1;
      Ok (update_senders_worst_and_best p prev next, Some r.2)
  | None => Ok (p, None)
  end.

Section Import.
Context `{RP : !ShouldReplace T}.
Definition remove_worst p tx : Outcome E (Pl * (option Tx + Err)) :=
  match last (worst_transactions p) with
  | None => Ok (p, inr (Error.TooCheapToEnter (hash (transaction tx)) None))
  | Some old =>
      let get_replace_tx t := mkReplaceTransaction t (Transactions.iter <$> (by_sender p !! sender (transaction tx))) in
      match should_replace (get_replace_tx (score_tx old)) (get_replace_tx tx) with
      | Choice.InsertNew => Ok (p, inl None)
      | Choice.ReplaceOld =>
          r ← remove_from_set p (sender (transaction (score_tx old))) (λ set, Transactions.remove set (transaction (score_tx old)));
          Ok (r.1, inl (Some (score_tx old)))
      | Choice.RejectNew => Ok (p, inr (Error.TooCheapToEnter (hash (transaction tx)) (Some (score old))))
      end
  end.
(** The closure of the same name in [import]: whether one was removed. *)
Definition evict p tx : Outcome E (Pl * (bool + Err)) :=
  r ← remove_worst p tx;
  match r.2 with
  | inr err => Ok (set_listener r.1 (rejected (listener r.1) (transaction tx) err), inr err)
  | inl None => Ok (r.1, inl false)
  | inl (Some removed) =>
      let p := set_listener r.1 (dropped (listener r.1) (transaction removed) (Some (transaction tx))) in
      r ← finalize_remove p (hash (transaction removed));
      Ok (r.1, inl true)
  end.
(** The two loops; every round but the last takes a transaction out.  Running out of
    [fuel] counts as a panic. *)
Fixpoint evict_count (fuel : nat) p tx : Outcome E (Pl * option Err) :=
  match fuel with
  | O => Panic
  | S fuel =>
      n ← add_u 64 (Z.of_nat (size (by_hash p))) 1;
      if decide (n > max_count (options p)) then
        r ← evict p tx;
        match r.2 with
        | inr err => Ok (r.1, Some err)
        | inl true => evict_count fuel r.1 tx
        | inl false => Ok (r.1, None)
        end
      else Ok (p, None)
  end.
Fixpoint evict_mem (fuel : nat) p tx : Outcome E (Pl * option Err) :=
  match fuel with
  | O => Panic
  | S fuel =>
      n ← add_u 64 (pool_mem_usage p) (mem_usage (transaction tx));
      if decide (n > max_mem_usage (options p)) then
        r ← evict p tx;
        match r.2 with
        | inr err => Ok (r.1, Some err)
        | inl true => evict_mem fuel r.1 tx
        | inl false => Ok (r.1, None)
        end
      else Ok (p, None)
  end.

Definition insert_transaction p tx : Outcome E (Pl * (T + Err)) :=
  let s := sender (transaction tx) in
  let set := default Transactions.default (by_sender p !! s) in
  prev_state ← Transactions.worst_and_best set;
  r ← Transactions.add set tx (max_per_sender (options p));
  current_state ← Transactions.worst_and_best r.1;
  let p := set_by_sender p (<[s := r.1]> (by_sender p)) in
  let p := update_senders_worst_and_best p prev_state current_state in
  match r.2 with
  | AddResult.Ok tx =>
      let p := set_listener p (added (listener p) (transaction tx) None) in
      p ← finalize_insert p tx None;
      Ok (p, inl (transaction tx))
  | AddResult.PushedOut old new | AddResult.Replaced old new =>
      let p := set_listener p (added (listener p) (transaction new) (Some (transaction old))) in
      p ← finalize_insert p new (Some old);
      Ok (p, inl (transaction new))
  | AddResult.TooCheap old new =>
      let error := Error.TooCheapToReplace (hash (transaction old)) (hash (transaction new)) in
      Ok (set_listener p (rejected (listener p) (transaction new) error), inr error)
  | AddResult.TooCheapToEnter new s =>
      let error := Error.TooCheapToEnter (hash (transaction new)) (Some s) in
      Ok (set_listener p (rejected (listener p) (transaction new) error), inr error)
  end.
Definition import p (t : T) : Outcome E (Pl * (T + Err)) :=
  match by_hash p !! hash t with
  | Some _ => Ok (p, inr (Error.AlreadyImported (hash t)))
  | None =>
      id ← add_u 64 (last_insertion_id p) 1;
      let p := set_insertion_id p id in
      let tx := mkTransaction id t in
      r ← evict_count (S (size (by_hash p))) p tx;
      match r.2 with
      | Some err => Ok (r.1, inr err)
      | None =>
          r ← evict_mem (S (size (by_hash r.1))) r.1 tx;
          match r.2 with
          | Some err => Ok (r.1, inr err)
          | None => insert_transaction r.1 tx
          end
      end
  end.
End Import.

Fixpoint drop_all (l : L) (txs : list (Hash * Tx)) : L :=
  match txs with [] => l | (_, tx) :: txs => drop_all (dropped l (transaction tx) None) txs end.
Definition clear p : Pl :=
  mkPool (drop_all (listener p) (map_items (by_hash p))) (options p) 0 ∅ ∅ [] [] (last_insertion_id p).
Definition remove p (h : Hash) (is_invalid : bool) : Outcome E (Pl * option T) :=
  r ← finalize_remove p h;
  match r.2 with
  | Some t =>
      s ← remove_from_set r.1 (sender t) (λ set, Transactions.remove set t);
      let p := s.1 in
      let l := if is_invalid then invalid (listener p) t else canceled (listener p) t in
      Ok (set_listener p l, Some t)
  | None => Ok (r.1, None)
  end.

Section Cull.
Context {R : Type} `{RD : !Ready R T}.
Fixpoint finalize_culled p (removed : list Tx) : Outcome E Pl :=
  match removed with
  | [] => Ok p
  | tx :: removed =>
      r ← finalize_remove p (hash (transaction tx));
      finalize_culled (set_listener r.1 (culled (listener r.1) (transaction tx))) removed
  end.
Definition remove_stalled p (s : Sender) (ready : R) : Outcome E (Pl * nat * R) :=
  r ← remove_from_set p s (λ set, r ← Transactions.cull set ready; Ok (r.1.1, (r.1.2, r.2)));
  match r.2 with
  | Some (removed, ready) => p ← finalize_culled r.1 removed; Ok (p, length removed, ready)
  | None => Ok (r.1, 0%nat, ready)
  end.
Fixpoint remove_stalled_all p (senders : list Sender) (ready : R) (removed : nat) : Outcome E (Pl * nat) :=
  match senders with
  | [] => Ok (p, removed)
  | s :: senders => r ← remove_stalled p s ready; remove_stalled_all r.1.1 senders r.2 (removed + r.1.2)
  end.
Definition cull p (senders : option (list Sender)) (ready : R) : Outcome E (Pl * nat) :=
  match senders with
  | Some senders => remove_stalled_all p senders ready 0
  | None => remove_stalled_all p (map_items (by_sender p)).*1 ready 0
  end.
End Cull.

Definition find p (h : Hash) : option T := transaction <$> by_hash p !! h.
Definition worst_transaction p : option T := (transaction ∘ score_tx) <$> last (worst_transactions p).
Definition is_full p : bool :=
  bool_decide (max_count (options p) ≤ Z.of_nat (size (by_hash p))) || bool_decide (max_mem_usage (options p) ≤ pool_mem_usage p).
Definition senders p : list Sender := (λ x, sender (transaction (score_tx x))) <$> best_transactions p.
Definition update_scores p (s : Sender) (event : ScoreEvent) : Outcome E Pl :=
  match by_sender p !! s with
  | Some set =>
      prev ← Transactions.worst_and_best set;
      let set := Transactions.update_scores set event in
      current ← Transactions.worst_and_best set;
      Ok (update_senders_worst_and_best (set_by_sender p (<[s := set]> (by_sender p))) prev current)
  | None => Ok p
  end.
Definition light_status p : LightStatus :=
  mkLightStatus (pool_mem_usage p) (Z.of_nat (size (by_hash p))) (Z.of_nat (size (by_sender p))).

Section Pending.
Context {R : Type} `{RD : !Ready R T}.
(** The transactions of a sender, until one is in the future: all of those behind it
    are as well. *)
Fixpoint status_sender (ready : R) (txs : list Tx) (st : Status) : Status * R :=
  match txs with
  | [] => (st, ready)
  | tx :: rest =>
      let (x, ready) := is_ready ready (transaction tx) in
      match x with
      | Readiness.Stale => status_sender ready rest (mkStatus (stalled st + 1) (pending_count st) (future st))
      | Readiness.Ready => status_sender ready rest (mkStatus (stalled st) (pending_count st + 1) (future st))
      | Readiness.Future => (mkStatus (stalled st) (pending_count st) (future st + Z.of_nat (length txs)), ready)
      end
  end.
Fixpoint status_all (ready : R) (sets : list (Sender * Transactions T)) (st : Status) : Status :=
  match sets with
  | [] => st
  | (_, set) :: sets => let (st, ready) := status_sender ready (Transactions.iter set) st in status_all ready sets st
  end.
Definition status p (ready : R) : Status := status_all ready (map_items (by_sender p)) (mkStatus 0 0 0).

(** [PendingIterator]: its state, and [next] on the pool it borrows. *)
Record PendingIterator : Type := mkPendingIterator { pi_ready : R; pi_best : list (ScoreWithRef T) }.
Definition pending p (ready : R) : PendingIterator := mkPendingIterator ready (best_transactions p).
Definition pending_from_sender p (ready : R) (s : Sender) : Outcome E PendingIterator :=
  match by_sender p !! s with
  | Some set =>
      w ← Transactions.worst_and_best set;
      Ok (mkPendingIterator ready (match w with Some (_, best) => bt_insert ScoreWithRef.cmp (ScoreWithRef.new best.1 best.2) [] | None => [] end))
  | None => Ok (mkPendingIterator ready [])
  end.
Definition next_of_sender p (best : ScoreWithRef T) : Outcome E (option (Score * Tx)) :=
  match by_sender p !! sender (transaction (score_tx best)) with
  | Some set => Transactions.find_next set (transaction (score_tx best))
  | None => Ok None
  end.
Fixpoint next (fuel : nat) p (it : PendingIterator) : Outcome E (option T * PendingIterator) :=
  match pi_best it with
  | [] => Ok (None, it)
  | best :: rest =>
      match fuel with
      | O => Panic
      | S fuel =>
          let (tx_state, ready) := is_ready (pi_ready it) (transaction (score_tx best)) in
          rest ← match tx_state with
                 | Readiness.Ready | Readiness.Stale =>
                     n ← next_of_sender p best;
                     Ok match n with
                        | Some (s, tx) => bt_insert ScoreWithRef.cmp (ScoreWithRef.new s tx) rest
                        | None => rest
                        end
                 | Readiness.Future => Ok rest
                 end;
          let it := mkPendingIterator ready rest in
          if decide (tx_state = Readiness.Ready) then Ok (Some (transaction (score_tx best)), it) else next fuel p it
      end
  end.

(** [UnorderedIterator]. *)
Record UnorderedIterator : Type := mkUnorderedIterator {
  un_ready : R;
  un_senders : list (Sender * Transactions T);
  un_transactions : option (list Tx);
}.
Definition unordered_pending p (ready : R) : UnorderedIterator := mkUnorderedIterator ready (map_items (by_sender p)) None.
Fixpoint unordered_loop (ready : R) (sets : list (Sender * Transactions T)) (txs : option (list Tx)) : option T * UnorderedIterator :=
  let fallback ready txs :=
    match sets with
    | [] => (None, mkUnorderedIterator ready [] txs)
    | (_, set) :: sets => unordered_loop ready sets (Some (Transactions.iter set))
    end in
  match txs with
  | Some (tx :: rest) =>
      let (x, ready) := is_ready ready (transaction tx) in
      match x with
      | Readiness.Ready => (Some (transaction tx), mkUnorderedIterator ready sets (Some rest))
      | _ => fallback ready (Some rest)
      end
  | txs => fallback ready txs
  end.
Definition unordered_next (it : UnorderedIterator) : option T * UnorderedIterator :=
  unordered_loop (un_ready it) (un_senders it) (un_transactions it).
End Pending.
End Pool.

(** The pools without a listener; the scoring is the instance. *)
Section Constructors.
Context {T Hash Sender : Type} `{SC : !Scoring T, Countable Hash, Countable Sender}.
Definition with_scoring (o : Options) : Pool T Hash Sender NoopListener := new noop_listener o.
Definition with_options (o : Options) : Pool T Hash Sender NoopListener := with_scoring o.
Definition default_pool : Pool T Hash Sender NoopListener := with_scoring Options_default.
End Constructors.
End Pool.
