(* ===== verification/PoolLibInv.v ===== *)
(** * PoolLibInv: what the generic pool guarantees

    Binary search finds the slot of a transaction; the indexes by hash, by sender and by
    score describe the same transactions after every operation; imports respect the
    limits; pending transactions come out in the order of each sender. *)
From Stdlib Require Import Sorted.
From S2P Require Import Prelude PoolLib.

(** ** Binary search *)
Section BinarySearchFacts.
Context {A : Type} (f : A → comparison).
(** [f] falls from [Lt] over [Eq] to [Gt]. *)
Definition monotone (l : list A) : Prop :=
  ∀ i j x y, (i ≤ j)%nat → l !! i = Some x → l !! j = Some y → (f y = Lt → f x = Lt) ∧ (f x = Gt → f y = Gt).

Lemma search_loop_spec {E} fuel l base size :
  (1 ≤ size ≤ fuel)%nat → (base + size ≤ length l)%nat → monotone l →
  (∀ x, l !! base = Some x → base ≠ 0%nat → f x ≠ Gt) →
  (∀ j x, (base + size ≤ j)%nat → l !! j = Some x → f x = Gt) →
  ∃ b, search_loop (E:=E) f fuel l base size = Ok b ∧ (b < length l)%nat ∧
    (∀ x, l !! b = Some x → b ≠ 0%nat → f x ≠ Gt) ∧ (∀ j x, (b < j)%nat → l !! j = Some x → f x = Gt).
Proof.
  revert base size. induction fuel as [|fuel IH]; intros base size Hs Hb Hm Hlo Hhi; [lia|]. simpl.
  case_decide as H1.
  - pose proof (Nat.div2_div size) as Hd. assert (Hh : (1 ≤ Nat.div2 size ∧ Nat.div2 size < size ∧ 2 * Nat.div2 size ≤ size)%nat).
    { rewrite Hd. split_and!; [apply Nat.div_le_lower_bound; lia|apply Nat.div_lt; lia|apply Nat.mul_div_le; lia]. }
    set (half := Nat.div2 size) in *. destruct (lookup_lt_is_Some_2 l (base + half)) as [x Hx]; [lia|]. rewrite Hx. simpl.
    destruct (f x) eqn:Hf.
    + apply IH; [lia|lia|done| |intros j y Hj; apply Hhi; lia]. intros y Hy _. simplify_eq. by rewrite Hf.
    + apply IH; [lia|lia|done| |intros j y Hj; apply Hhi; lia]. intros y Hy _. simplify_eq. by rewrite Hf.
    + apply IH; [lia|lia|done|done|]. intros j y Hj Hy. eapply (Hm (base + half)%nat j); [lia|done..].
  - assert (size = 1%nat) as -> by lia. exists base. split_and!; [done|lia|done|]. intros j y Hj. apply Hhi. lia.
Qed.
Lemma binary_search_spec {E} l :
  monotone l →
  (∃ i x, binary_search_by (E:=E) f l = Ok (inl i) ∧ l !! i = Some x ∧ f x = Eq) ∨
  (∃ i, binary_search_by (E:=E) f l = Ok (inr i) ∧ (i ≤ length l)%nat ∧
     (∀ j x, (j < i)%nat → l !! j = Some x → f x = Lt) ∧ (∀ j x, (i ≤ j)%nat → l !! j = Some x → f x = Gt)).
Proof.
  intros Hm. unfold binary_search_by. case_decide as Hl.
  { right. exists O. split_and!; [done|lia|lia|]. intros j x _ Hx%lookup_lt_Some. lia. }
  destruct (search_loop_spec (E:=E) (length l) l 0 (length l)) as (b & -> & Hb & Hlo & Hhi); [lia|lia|done|done| |].
  { intros j x Hj Hx%lookup_lt_Some. lia. }
  simpl. destruct (lookup_lt_is_Some_2 l b Hb) as [x Hx]. rewrite Hx. simpl. destruct (f x) eqn:Hf; [left; eauto|right..].
  - exists (S b). split_and!; [done|lia| |]; intros j y Hj Hy; [|apply (Hhi j y); [lia|done]].
    eapply (Hm j b); [lia|done..].
  - exists b. assert (b = 0%nat) as -> by (destruct (decide (b = 0%nat)); [done|by destruct (Hlo x)]).
    split_and!; [done|lia|lia|]. intros j y Hj Hy. eapply (Hm 0%nat j); [lia|done..].
Qed.
End BinarySearchFacts.

(** ** Sorted sets *)
Section SortedSets.
Context {A : Type} (cmp : A → A → comparison).
Context (cmp_opp : ∀ x y, cmp y x = CompOpp (cmp x y)) (cmp_trans : ∀ x y z, cmp x y = Lt → cmp y z = Lt → cmp x z = Lt).
Context (cmp_eq : ∀ x y z, cmp x y = Eq → cmp x z = cmp y z).
Definition bt_sorted (l : list A) : Prop := StronglySorted (λ x y, cmp x y = Lt) l.

Lemma cmp_refl x : cmp x x = Eq.
Proof using cmp_opp. pose proof (cmp_opp x x). by destruct (cmp x x). Qed.
Lemma cmp_gt x y : cmp x y = Gt → cmp y x = Lt.
Proof using cmp_opp. intros Hc. by rewrite cmp_opp, Hc. Qed.
Lemma cmp_eq_sym x y : cmp x y = Eq → cmp y x = Eq.
Proof using cmp_opp. intros Hc. by rewrite cmp_opp, Hc. Qed.

Lemma bt_insert_elem x l y : (∀ z, z ∈ l → cmp x z ≠ Eq) → y ∈ bt_insert cmp x l ↔ y = x ∨ y ∈ l.
Proof using Type. clear cmp_opp cmp_trans cmp_eq.
  induction l as [|z l IH]; intros Hne; simpl; [set_solver|].
  pose proof (Hne z ltac:(left)) as Hz. destruct (cmp x z) eqn:Hc; [done|set_solver|].
  rewrite elem_of_cons, IH by set_solver. set_solver.
Qed.
Lemma bt_insert_subset x l y : y ∈ bt_insert cmp x l → y = x ∨ y ∈ l.
Proof using Type. clear cmp_opp cmp_trans cmp_eq.
  induction l as [|z l IH]; simpl; [set_solver|]. destruct (cmp x z); [set_solver|set_solver|].
  rewrite !elem_of_cons. intros [->|Hy]; [auto|]. destruct (IH Hy); auto.
Qed.
Lemma bt_insert_sorted x l : bt_sorted l → bt_sorted (bt_insert cmp x l).
Proof using cmp_opp cmp_trans.
  induction 1 as [|z l Hs IH Hz]; simpl; [repeat constructor|]. destruct (cmp x z) eqn:Hc.
  - by constructor.
  - constructor; [by constructor|]. constructor; [done|]. eapply Forall_impl; [exact Hz|]. intros y. by apply cmp_trans.
  - constructor; [done|]. apply Forall_forall. intros y [->|Hy]%bt_insert_subset; [by apply cmp_gt|].
    by eapply Forall_forall in Hz.
Qed.
Lemma bt_remove_elem x l y : bt_sorted l → y ∈ bt_remove cmp x l ↔ y ∈ l ∧ cmp x y ≠ Eq.
Proof using cmp_trans cmp_eq. clear cmp_opp.
  induction 1 as [|z l Hs IH Hz]; simpl; [set_solver|]. rewrite Forall_forall in Hz. destruct (cmp x z) eqn:Hc.
  - split.
    + intros Hy. split; [by right|]. rewrite (cmp_eq x z y Hc), (Hz y Hy). done.
    + intros [[->|Hy]%elem_of_cons Hne]; done.
  - split; [|naive_solver]. intros Hy. split; [done|]. apply elem_of_cons in Hy as [->|Hy]; [by rewrite Hc|].
    by rewrite (cmp_trans x z y Hc (Hz y Hy)).
  - rewrite !elem_of_cons, IH. split; [|naive_solver]. intros [->|[Hy Hne]]; [rewrite Hc|]; auto.
Qed.
Lemma bt_remove_subset x l y : y ∈ bt_remove cmp x l → y ∈ l.
Proof using Type. clear cmp_opp cmp_trans cmp_eq. induction l as [|z l IH]; simpl; [done|]. destruct (cmp x z); set_solver. Qed.
Lemma bt_remove_sorted x l : bt_sorted l → bt_sorted (bt_remove cmp x l).
Proof using Type. clear cmp_opp cmp_trans cmp_eq.
  induction 1 as [|z l Hs IH Hz]; simpl; [constructor|]. destruct (cmp x z); [done|by constructor|].
  constructor; [done|]. rewrite Forall_forall in *. intros y Hy%bt_remove_subset. auto.
Qed.
End SortedSets.

(** ** Scoring *)
(** Scores and slots are totally ordered and the table of scores keeps its length. *)
Class ScoringLaws (T : Type) `{Scoring T} : Prop := {
  score_cmp_eq a b : score_cmp a b = Eq ↔ a = b;
  score_cmp_opp a b : score_cmp b a = CompOpp (score_cmp a b);
  score_cmp_trans a b c : score_cmp a b = Lt → score_cmp b c = Lt → score_cmp a c = Lt;
  compare_opp (a b : T) : compare b a = CompOpp (compare a b);
  compare_trans (a b c : T) : compare a b = Lt → compare b c = Lt → compare a c = Lt;
  compare_eq (a b c : T) : compare a b = Eq → compare a c = compare b c;
  update_scores_length txs sc ch : length (update_scores txs sc ch) = length sc;
}.
(** A scoring that never keeps two transactions in one slot.  The trait does not ask for
    it: [Choice::InsertNew] may be answered for any two transactions.  A set finds its
    transactions by their slot alone, so that without it the indexes of the pool come
    apart ([same_slot_breaks_indexes] in PoolLibOps); the scoring of the tests has it. *)
Class OnePerSlot (T : Type) `{Scoring T} : Prop :=
  choose_slot (old new : T) : compare old new = Eq → choose old new ≠ Choice.InsertNew.

Section RefOrder.
Context {T : Type} `{SL : ScoringLaws T}.
Implicit Types (a b c : ScoreWithRef T).
Lemma ref_cmp_eq a b : ScoreWithRef.cmp a b = Eq ↔ score a = score b ∧ insertion_id (score_tx a) = insertion_id (score_tx b).
Proof.
  unfold ScoreWithRef.cmp. destruct (score_cmp (score b) (score a)) eqn:Hs.
  - apply score_cmp_eq in Hs. rewrite Z.compare_eq_iff. naive_solver.
  - split; [done|]. intros [He _]. symmetry in He. apply score_cmp_eq in He. congruence.
  - split; [done|]. intros [He _]. symmetry in He. apply score_cmp_eq in He. congruence.
Qed.
Lemma ref_cmp_opp a b : ScoreWithRef.cmp b a = CompOpp (ScoreWithRef.cmp a b).
Proof.
  unfold ScoreWithRef.cmp. rewrite (score_cmp_opp (score a) (score b)). destruct (score_cmp (score a) (score b)); simpl; [|done..].
  apply Z.compare_antisym.
Qed.
Lemma ref_cmp_eq_l a b c : ScoreWithRef.cmp a b = Eq → ScoreWithRef.cmp a c = ScoreWithRef.cmp b c.
Proof. intros [Hs Hi]%ref_cmp_eq. unfold ScoreWithRef.cmp. by rewrite Hs, Hi. Qed.
Lemma ref_cmp_trans a b c : ScoreWithRef.cmp a b = Lt → ScoreWithRef.cmp b c = Lt → ScoreWithRef.cmp a c = Lt.
Proof.
  unfold ScoreWithRef.cmp.
  destruct (score_cmp (score b) (score a)) eqn:H1; [|intros _|done]; (destruct (score_cmp (score c) (score b)) eqn:H2; [|intros _|done]).
  - apply score_cmp_eq in H1, H2. rewrite H2, H1, (proj2 (score_cmp_eq _ _) eq_refl), !Z.compare_lt_iff. lia.
  - apply score_cmp_eq in H1. intros _. by rewrite <- H1, H2.
  - apply score_cmp_eq in H2. intros _. by rewrite H2, H1.
  - by rewrite (score_cmp_trans _ _ _ H2 H1).
Qed.
End RefOrder.

(** ** The transactions of one sender *)
Section SetFacts.
Context {T : Type} `{SL : ScoringLaws T} {E : Type}.
Implicit Types (set : Transactions T) (tx : Transaction T).
Abbreviation slot_lt := (λ a b : Transaction T, compare (transaction a) (transaction b) = Lt).

Definition set_wf set : Prop := length (scores set) = length (transactions set) ∧ StronglySorted slot_lt (transactions set).

Lemma slots_sorted (l : list (Transaction T)) i j x y :
  StronglySorted slot_lt l → (i < j)%nat → l !! i = Some x → l !! j = Some y → slot_lt x y.
Proof.
  intros Hs. revert i j. induction Hs as [|z l Hs IH Hz]; intros i j Hij Hx Hy; [done|].
  destruct j as [|j]; [lia|]. destruct i as [|i]; simplify_eq/=; [|eapply (IH i j); [lia|done..]].
  by eapply Forall_lookup_1 in Hz.
Qed.
Lemma compare_refl (a : T) : compare a a = Eq.
Proof. pose proof (compare_opp a a). by destruct (compare a a). Qed.
Lemma compare_gt (a b : T) : compare a b = Gt ↔ compare b a = Lt.
Proof. rewrite (compare_opp b a). destruct (compare b a); simpl; naive_solver. Qed.
Lemma compare_eq_sym (a b : T) : compare a b = Eq → compare b a = Eq.
Proof. intros Hc. by rewrite compare_opp, Hc. Qed.

Lemma slots_monotone (l : list (Transaction T)) (t : T) : StronglySorted slot_lt l → monotone (λ old, compare (transaction old) t) l.
Proof.
  intros Hs i j x y Hij Hx Hy. destruct (decide (i = j)) as [->|Hne]; [naive_solver|].
  assert (Hlt : slot_lt x y) by (eapply (slots_sorted l i j); [done|lia|done..]). simpl in *. split.
  - intros Hyt. by eapply compare_trans.
  - rewrite !compare_gt. intros Hxt. by eapply compare_trans.
Qed.
(** A slot is held by one transaction. *)
Lemma slots_unique (l : list (Transaction T)) i j x y :
  StronglySorted slot_lt l → l !! i = Some x → l !! j = Some y → compare (transaction x) (transaction y) = Eq → i = j.
Proof.
  intros Hs Hx Hy Hc. destruct (Nat.lt_trichotomy i j) as [Hlt|[?|Hlt]]; [|done|].
  - pose proof (slots_sorted l i j x y Hs Hlt Hx Hy). simpl in *. congruence.
  - pose proof (slots_sorted l j i y x Hs Hlt Hy Hx) as Hyx. apply compare_eq_sym in Hc. simpl in *. congruence.
Qed.
(** Inserting at the place the search gives keeps the order. *)
Lemma slots_insert (l : list (Transaction T)) i new :
  StronglySorted slot_lt l → (i ≤ length l)%nat →
  (∀ j x, (j < i)%nat → l !! j = Some x → slot_lt x new) → (∀ j x, (i ≤ j)%nat → l !! j = Some x → slot_lt new x) →
  StronglySorted slot_lt (take i l ++ new :: drop i l).
Proof.
  intros Hs. revert i. induction Hs as [|z l Hs IH Hz]; intros i Hi Hlo Hhi.
  { rewrite take_nil, drop_nil. repeat constructor. }
  destruct i as [|i]; simpl.
  - constructor; [by constructor|]. apply Forall_lookup. intros j x Hj. apply (Hhi j x); [lia|done].
  - constructor.
    + apply IH; [simpl in Hi; lia| |]; intros j x Hj Hx; [apply (Hlo (S j))|apply (Hhi (S j))]; simpl; (lia || done).
    + apply Forall_app. rewrite Forall_forall in Hz. split; [|constructor].
      * apply Forall_forall. intros x Hx. apply Hz. by eapply subseteq_take.
      * apply (Hlo 0%nat z); [lia|done].
      * apply Forall_forall. intros x Hx. apply Hz. by eapply subseteq_drop.
Qed.
Lemma slots_sublist l l' : l' `sublist_of` l → StronglySorted slot_lt l → StronglySorted slot_lt l'.
Proof.
  intros Hsub. induction Hsub as [|x l l' Hs IH|x l l' Hs IH]; [done|..]; inversion_clear 1; [|by auto].
  rewrite Forall_forall in *. constructor; [by auto|]. apply Forall_forall. eauto using elem_of_sublist.
Qed.

(** The search on a set. *)
Lemma search_spec set (t : T) :
  set_wf set →
  (∃ i x, binary_search_by (E:=E) (λ old, compare (transaction old) t) (transactions set) = Ok (inl i) ∧
     transactions set !! i = Some x ∧ compare (transaction x) t = Eq) ∨
  (∃ i, binary_search_by (E:=E) (λ old, compare (transaction old) t) (transactions set) = Ok (inr i) ∧
     (i ≤ length (transactions set))%nat ∧
     (∀ j x, (j < i)%nat → transactions set !! j = Some x → compare (transaction x) t = Lt) ∧
     (∀ j x, (i ≤ j)%nat → transactions set !! j = Some x → compare t (transaction x) = Lt)).
Proof.
  intros [_ Hs]. destruct (binary_search_spec (E:=E) _ _ (slots_monotone _ t Hs)) as [(i & x & Hr & Hx & He)|(i & Hr & Hi & Hlo & Hhi)].
  - left. eauto.
  - right. exists i. split_and!; [done..|]. intros j x Hj Hx. apply compare_gt. eauto.
Qed.
Lemma search_found set i x (t : T) :
  set_wf set → transactions set !! i = Some x → compare (transaction x) t = Eq →
  binary_search_by (E:=E) (λ old, compare (transaction old) t) (transactions set) = Ok (inl i).
Proof.
  intros Hwf Hx Hc. destruct (search_spec set t Hwf) as [(j & y & -> & Hy & Hcy)|(j & -> & _ & Hlo & Hhi)].
  - do 2 f_equal. eapply slots_unique; [apply Hwf|done..|]. rewrite (compare_eq _ _ _ Hcy). by apply compare_eq_sym.
  - destruct (decide (i < j)%nat); [specialize (Hlo i x ltac:(lia) Hx); congruence|].
    specialize (Hhi i x ltac:(lia) Hx). apply compare_eq_sym in Hc. congruence.
Qed.

(** *** First and last *)
Definition ends_of set : option ((Score * Transaction T) * (Score * Transaction T)) :=
  match head (zip (scores set) (transactions set)), last (zip (scores set) (transactions set)) with
  | Some best, Some worst => Some (worst, best)
  | _, _ => None
  end.
Lemma worst_and_best_ends set : set_wf set → Transactions.worst_and_best (E:=E) set = Ok (ends_of set).
Proof.
  intros [Hl _]. unfold Transactions.worst_and_best, ends_of.
  destruct (transactions set) as [|t txs] eqn:Ht; [by destruct (scores set)|].
  destruct (scores set) as [|s sc] eqn:Hs; [done|]. simpl head. simpl in Hl.
  rewrite !last_lookup, length_zip_with_l_eq by (simpl; lia). rewrite lookup_zip_with.
  destruct (lookup_lt_is_Some_2 (s :: sc) (pred (length (s :: sc)))) as [w ->]; [simpl; lia|].
  destruct (lookup_lt_is_Some_2 (t :: txs) (pred (length (s :: sc)))) as [wt Hwt]; [simpl; lia|].
  rewrite Hwt. simpl. simpl in Hwt. by rewrite Nat.sub_0_r, Hwt.
Qed.
Lemma ends_of_None set : set_wf set → ends_of set = None ↔ transactions set = [].
Proof.
  intros [Hl _]. unfold ends_of. destruct (scores set) as [|s sc] eqn:Hs, (transactions set) as [|t txs]; try done.
  simpl zip_with. split; [|done]. destruct (last _) eqn:Hla; [done|]. by apply last_None in Hla.
Qed.
Lemma ends_of_elem set w b : ends_of set = Some (w, b) → w.2 ∈ transactions set ∧ b.2 ∈ transactions set.
Proof.
  unfold ends_of. destruct (head _) as [b'|] eqn:Hb; [|done]. destruct (last _) as [w'|] eqn:Hw; [|done]. intros [= -> ->].
  assert (Hz : ∀ x, x ∈ zip (scores set) (transactions set) → x.2 ∈ transactions set).
  { intros [s t] Hx. by eapply elem_of_zip_r in Hx. }
  split; apply Hz; [by apply last_Some_elem_of|by apply head_Some_elem_of].
Qed.

(** *** Changing a set *)
Lemma vec_insert_ok {A} (l : list A) i x : (i ≤ length l)%nat → vec_insert (E:=E) l i x = Ok (take i l ++ x :: drop i l).
Proof. intros. unfold vec_insert. by rewrite decide_True. Qed.
Lemma vec_remove_ok {A} (l : list A) i : (i < length l)%nat → vec_remove (E:=E) l i = Ok (take i l ++ drop (S i) l).
Proof. intros. unfold vec_remove. by rewrite decide_True. Qed.
Lemma insert_perm {A} (l : list A) i x : take i l ++ x :: drop i l ≡ₚ x :: l.
Proof. rewrite <- Permutation_middle. by rewrite take_drop. Qed.
Lemma remove_perm {A} (l : list A) i x : l !! i = Some x → l ≡ₚ x :: (take i l ++ drop (S i) l).
Proof. intros Hx. rewrite <- (take_drop_middle l i x Hx) at 1. by rewrite <- Permutation_middle. Qed.
Lemma removelast_snoc {A} (l : list A) x : removelast (l ++ [x]) = l.
Proof. apply removelast_last. Qed.
Lemma elem_rev {A} (l : list A) x : x ∈ rev l ↔ x ∈ l.
Proof. by rewrite <- Permutation_rev. Qed.
Lemma length_removelast {A} (l : list A) : length (removelast l) = (length l - 1)%nat.
Proof.
  induction l as [|x l _] using rev_ind; [done|]. rewrite removelast_snoc, length_app. simpl. lia.
Qed.

(** The new set holds the new transaction, and at most one other has gone. *)
Definition add_result set (new : Transaction T) set' (r : AddResult (Transaction T) Score) : Prop :=
  match r with
  | AddResult.Ok tx => tx = new ∧ transactions set' ≡ₚ new :: transactions set
  | AddResult.PushedOut old tx | AddResult.Replaced old tx =>
      tx = new ∧ ∃ rest, transactions set ≡ₚ old :: rest ∧ transactions set' ≡ₚ new :: rest
  | AddResult.TooCheap old tx => tx = new ∧ set' = set ∧ old ∈ transactions set
  | AddResult.TooCheapToEnter tx _ => tx = new ∧ set' = set ∧ transactions set ≠ []
  end.
(** The limit per sender: it is kept, unless the new transaction may ignore it. *)
Definition fits (max : Z) (new : Transaction T) (l l' : list (Transaction T)) : Prop :=
  should_ignore_sender_limit (transaction new) = false → Z.of_nat (length l) ≤ max → Z.of_nat (length l') ≤ max.
Lemma push_cheapest_spec set new max :
  set_wf set → 0 < max → (∀ x, x ∈ transactions set → slot_lt x new) →
  ∃ set' r, Transactions.push_cheapest_transaction (E:=E) set new max = Ok (set', r) ∧ set_wf set' ∧ add_result set new set' r ∧
    fits max new (transactions set) (transactions set').
Proof.
  intros [Hl Hs] Hm Hlast. unfold Transactions.push_cheapest_transaction. destruct (bool_decide _ && _) eqn:Hc.
  - apply andb_true_iff in Hc as [Hc%bool_decide_eq_true _]. destruct (length (transactions set)) as [|i] eqn:Hi; [lia|].
    destruct (lookup_lt_is_Some_2 (scores set) i) as [x ->]; [lia|]. simpl. eexists _, _. split; [done|].
    split; [by split; [lia|]|]. split; [|by intros ?]. split_and!; [done..|]. by intros He; rewrite He in Hi.
  - eexists _, _. split; [done|]. split_and!.
    + split; simpl; [rewrite update_scores_length, !length_app; simpl; lia|].
      pose proof (slots_insert (transactions set) (length (transactions set)) new Hs) as Hins.
      rewrite take_ge, drop_ge in Hins by lia. apply Hins; [done| |].
      * intros j x _ Hx. eapply Hlast, list_elem_of_lookup_2, Hx.
      * intros j x Hj Hx%lookup_lt_Some. lia.
    + split; [done|]. simpl. by rewrite Permutation_app_comm.
    + intros Hig Hle. rewrite Hig, andb_true_r in Hc. apply bool_decide_eq_false in Hc. simpl. rewrite length_app. simpl. lia.
Qed.
(** Where the new transaction belongs. *)
Definition place set (new : Transaction T) (i : nat) : Prop :=
  (i ≤ length (transactions set))%nat ∧
  (∀ j x, (j < i)%nat → transactions set !! j = Some x → slot_lt x new) ∧
  (∀ j x, (i < j)%nat → transactions set !! j = Some x → slot_lt new x) ∧
  (∀ x, transactions set !! i = Some x → compare (transaction x) (transaction new) = Eq ∨ slot_lt new x).
Lemma search_place set new :
  set_wf set →
  ∃ r, binary_search_by (E:=E) (λ old, compare (transaction old) (transaction new)) (transactions set) = Ok r ∧
    place set new (match r with inl i => i | inr i => i end).
Proof.
  intros Hwf. pose proof Hwf as [_ Hs].
  destruct (search_spec set (transaction new) Hwf) as [(i & x & Hr & Hx & He)|(i & Hr & Hi & Hlo & Hhi)].
  - eexists. split; [exact Hr|]. split_and!; [apply lookup_lt_Some in Hx; lia| | |intros y Hy; simplify_eq; by left].
    + intros j y Hj Hy. pose proof (slots_sorted _ j i y x Hs Hj Hy Hx) as Hyx. simpl in *. apply compare_gt.
      apply compare_eq_sym in He. rewrite (compare_eq _ _ _ He). by apply compare_gt.
    + intros j y Hj Hy. pose proof (slots_sorted _ i j x y Hs Hj Hx Hy) as Hyx. simpl in *. by rewrite <- (compare_eq _ _ _ He).
  - eexists. split; [exact Hr|]. split_and!; [done|done|intros j x Hj; apply Hhi; lia|]. intros x Hx. right. by apply (Hhi i).
Qed.
(** The new transaction takes a place. *)
Lemma replace_at set new i old :
  set_wf set → place set new i → transactions set !! i = Some old →
  StronglySorted slot_lt (<[i := new]> (transactions set)) ∧
  ∃ rest, transactions set ≡ₚ old :: rest ∧ <[i := new]> (transactions set) ≡ₚ new :: rest.
Proof.
  intros [_ Hs] (Hi & Hlo & Hhi & _) Hold. pose proof (lookup_lt_Some _ _ _ Hold) as Hlt.
  assert (Hli : length (take i (transactions set)) = i) by (rewrite length_take; lia). rewrite insert_take_drop by lia. split.
  - pose proof (slots_insert (take i (transactions set) ++ drop (S i) (transactions set)) i new) as Hins.
    rewrite take_app_length', drop_app_length' in Hins by done. apply Hins.
    + eapply slots_sublist; [|done]. rewrite <- (take_drop_middle _ _ _ Hold) at 3. apply sublist_app; [done|by apply sublist_cons].
    + rewrite length_app. lia.
    + intros j x Hj. rewrite lookup_app_l by lia. rewrite lookup_take_lt by done. by apply Hlo.
    + intros j x Hj. rewrite lookup_app_r by lia. rewrite lookup_drop. intros Hx. eapply Hhi; [|exact Hx]. lia.
  - exists (take i (transactions set) ++ drop (S i) (transactions set)). split; [by apply remove_perm|]. by rewrite <- Permutation_middle.
Qed.
(** The new transaction goes in front of another one. *)
Lemma insert_at set new i old :
  set_wf set → place set new i → transactions set !! i = Some old → slot_lt new old →
  let txs := take i (transactions set) ++ new :: drop i (transactions set) in
  StronglySorted slot_lt txs ∧ ∃ rest out, txs = rest ++ [out] ∧ StronglySorted slot_lt rest ∧
    ∃ rest', transactions set ≡ₚ out :: rest' ∧ rest ≡ₚ new :: rest'.
Proof.
  intros [_ Hs] (Hi & Hlo & Hhi & _) Hold Hnew. pose proof (lookup_lt_Some _ _ _ Hold) as Hlt. cbv zeta.
  assert (Hins : StronglySorted slot_lt (take i (transactions set) ++ new :: drop i (transactions set))).
  { apply slots_insert; [done..|]. intros j x Hj Hx. destruct (decide (i = j)) as [<-|]; [by simplify_eq|]. apply (Hhi j x); [lia|done]. }
  split; [done|]. destruct (last (transactions set)) as [out|] eqn:Hla; [|apply last_None in Hla; rewrite Hla in Hold; done].
  assert (Hsplit : ∃ rest, drop i (transactions set) = rest ++ [out]).
  { apply last_Some in Hla as [l' Hl']. rewrite Hl' in Hlt |- *. rewrite length_app in Hlt. simpl in Hlt.
    exists (drop i l'). rewrite drop_app_le by lia. done. }
  destruct Hsplit as [rest Hrest]. rewrite Hrest in *. exists (take i (transactions set) ++ new :: rest), out.
  split; [by rewrite <- app_assoc|]. split.
  - eapply slots_sublist, Hins. apply sublist_app; [done|]. apply sublist_skip. by apply sublist_inserts_r.
  - exists (take i (transactions set) ++ rest). split; [|by rewrite <- Permutation_middle].
    rewrite <- (take_drop i (transactions set)) at 1. rewrite Hrest, app_assoc, Permutation_app_comm. done.
Qed.
Lemma add_spec `{OS : !OnePerSlot T} set new max :
  set_wf set → 0 < max →
  ∃ set' r, Transactions.add (E:=E) set new max = Ok (set', r) ∧ set_wf set' ∧ add_result set new set' r ∧
    fits max new (transactions set) (transactions set').
Proof.
  intros Hwf Hm. pose proof Hwf as [Hl Hs]. unfold Transactions.add.
  destruct (search_place set new Hwf) as (r & -> & Hp). rewrite bind_Ok. set (i := match r with inl i => i | inr i => i end) in *.
  clearbody i. pose proof Hp as (Hi & Hlo & _ & Hat). case_decide as Hend.
  { apply push_cheapest_spec; [done..|]. intros x (j & Hx)%list_elem_of_lookup. apply (Hlo j); [apply lookup_lt_Some in Hx; lia|done]. }
  destruct (lookup_lt_is_Some_2 (transactions set) i) as [old Hold]; [lia|]. rewrite Hold. simpl.
  destruct (choose (transaction old) (transaction new)) eqn:Hch.
  - eexists _, _. split; [done|]. split; [done|]. split; [|by intros ?]. split_and!; [done..|]. by eapply list_elem_of_lookup_2.
  - destruct (replace_at set new i old Hwf Hp Hold) as [Hso Hperm]. eexists _, _. split; [done|].
    split; [|split; [by split|intros _; simpl; by rewrite length_insert]]. split; simpl; [by rewrite update_scores_length, length_insert|done].
  - assert (Hnew : slot_lt new old) by (destruct (Hat old Hold) as [He|]; [by destruct (choose_slot _ _ He)|done]).
    destruct (insert_at set new i old Hwf Hp Hold Hnew) as (Hso & rest & out & Htxs & Hso' & Hperm). rewrite !vec_insert_ok by lia. simpl.
    assert (Hlen : length (take i (scores set) ++ score_default :: drop i (scores set)) =
      length (take i (transactions set) ++ new :: drop i (transactions set))).
    { rewrite !length_app. simpl. rewrite !length_take, !length_drop. lia. }
    case_decide as Hmax.
    + (* the last one goes *)
      rewrite Htxs, last_snoc in *. simpl. rewrite removelast_snoc. eexists _, _. split; [done|]. split; [|split; [by split|]].
      * split; simpl; [|done]. rewrite update_scores_length, length_removelast, update_scores_length, Hlen, length_app. simpl. lia.
      * intros _. destruct Hperm as (rest' & Hp1%Permutation_length & Hp2%Permutation_length). simpl in *. lia.
    + eexists _, _. split; [done|]. split; [by split; simpl; rewrite ?update_scores_length|]. split; [split; [done|apply insert_perm]|].
      intros _ _. simpl in *. lia.
Qed.

Lemma remove_spec set tx :
  set_wf set → tx ∈ transactions set →
  ∃ set', Transactions.remove (E:=E) set (transaction tx) = Ok (set', true) ∧ set_wf set' ∧
    transactions set ≡ₚ tx :: transactions set'.
Proof.
  intros Hwf [i Hi]%list_elem_of_lookup. pose proof Hwf as [Hl Hs]. pose proof (lookup_lt_Some _ _ _ Hi) as Hlt.
  unfold Transactions.remove. rewrite (search_found set i tx) by (done || apply compare_refl). simpl.
  rewrite !vec_remove_ok by lia. simpl. eexists. split; [done|]. split; [split; simpl|by apply remove_perm].
  - rewrite update_scores_length, !length_app, !length_take, !length_drop. lia.
  - eapply slots_sublist, Hs. rewrite <- (take_drop_middle _ _ _ Hi) at 3. apply sublist_app; [done|by apply sublist_cons].
Qed.

Section CullFacts.
Context {R : Type} `{RD : !Ready R T}.
Implicit Types (ready : R).
Lemma first_non_stalled_le ready txs : ((Transactions.first_non_stalled ready txs).1 ≤ length txs)%nat.
Proof.
  revert ready. induction txs as [|tx txs IH]; intros ready; simpl; [done|].
  destruct (is_ready ready (transaction tx)) as [[] r]; simpl; [|lia..].
  specialize (IH r). destruct (Transactions.first_non_stalled r txs). simpl in *. lia.
Qed.
Lemma pop_stalled_spec n txs (sc : list Score) result :
  (n ≤ length txs)%nat →
  Transactions.pop_stalled (E:=E) n (rev txs) (rev sc) result = Ok (rev (drop n txs), rev (drop n sc), result ++ take n txs).
Proof.
  revert txs sc result. induction n as [|n IH]; intros txs sc result Hn; simpl; [by rewrite !drop_0, take_0, app_nil_r|].
  destruct txs as [|t txs]; [simpl in Hn; lia|]. change (rev (t :: txs)) with (rev txs ++ [t]).
  rewrite last_snoc, removelast_snoc. simpl unwrap. rewrite bind_Ok.
  assert (Hr : removelast (rev sc) = rev (tail sc)) by (destruct sc; simpl; [done|apply removelast_snoc]).
  rewrite Hr, IH by (simpl in Hn; lia). rewrite <- app_assoc. simpl. destruct sc; simpl; [by rewrite drop_nil|done].
Qed.
Lemma cull_set_spec set ready :
  set_wf set →
  let n := (Transactions.first_non_stalled ready (transactions set)).1 in
  ∃ set', Transactions.cull (E:=E) set ready =
      Ok (set', rev (take n (transactions set)), (Transactions.first_non_stalled ready (transactions set)).2) ∧
    set_wf set' ∧ transactions set' = drop n (transactions set).
Proof.
  intros Hwf n. pose proof Hwf as [Hl Hs]. unfold Transactions.cull.
  pose proof (first_non_stalled_le ready (transactions set)) as Hle. fold n in Hle.
  replace (Transactions.is_empty set) with (bool_decide (transactions set = []))
    by (unfold Transactions.is_empty; by destruct (transactions set)).
  case_bool_decide as He; [exists set; subst n; by rewrite He|].
  destruct (Transactions.first_non_stalled ready (transactions set)) as [m r]. simpl in n. subst n. cbn [fst snd] in *.
  case_decide as H0; [subst m; by exists set|].
  rewrite pop_stalled_spec by done. simpl. rewrite !rev_involutive. eexists. split; [done|]. split; [split; simpl|done].
  - rewrite update_scores_length, !length_drop. lia.
  - eapply slots_sublist, Hs. apply sublist_drop.
Qed.
End CullFacts.
End SetFacts.

(** ** The indexes of the pool *)
Section IndexFacts.
Context {T Hash Sender : Type} `{SL : ScoringLaws T, Countable Hash, Countable Sender, VT : !VerifiedTransaction T Hash Sender}.
Abbreviation Tx := (Transaction T).
Abbreviation Sets := (gmap Sender (Transactions T)).
Implicit Types (m : Sets) (s : Sender) (set : Transactions T) (t : Tx).
Abbreviation tx_sender t := (sender (transaction t)).
Abbreviation tx_hash t := (hash (transaction t)).

Definition member m t : Prop := ∃ set, m !! tx_sender t = Some set ∧ t ∈ transactions set.
(** Sets are well formed, not empty, and of one sender. *)
Definition senders_ok m : Prop :=
  ∀ s set, m !! s = Some set → set_wf set ∧ transactions set ≠ [] ∧ ∀ t, t ∈ transactions set → tx_sender t = s.
(** Insertion ids and hashes identify transactions. *)
Definition distinct (U : Tx → Prop) : Prop :=
  ∀ t t', U t → U t' → insertion_id t = insertion_id t' ∨ tx_hash t = tx_hash t' → t = t'.

(** One end of every sender, in order. *)
Abbreviation End := (Score * Tx)%type.
Definition end_ref (e : End) : ScoreWithRef T := ScoreWithRef.new e.1 e.2.
Definition indexed (proj : End * End → End) (coll : list (ScoreWithRef T)) m : Prop :=
  bt_sorted ScoreWithRef.cmp coll ∧
  ∀ x, x ∈ coll ↔ ∃ s set e, m !! s = Some set ∧ ends_of set = Some e ∧ x = end_ref (proj e).

Lemma set_member m s set t : senders_ok m → m !! s = Some set → t ∈ transactions set → member m t ∧ tx_sender t = s.
Proof. intros Hok Hs Ht. destruct (Hok s set Hs) as (_ & _ & Hse). rewrite <- (Hse t Ht) in Hs. split; [by exists set|auto]. Qed.
Lemma member_insert m s set t :
  (∀ t, t ∈ transactions set → tx_sender t = s) →
  member (<[s := set]> m) t ↔ t ∈ transactions set ∨ (member m t ∧ tx_sender t ≠ s).
Proof.
  intros Hse. unfold member. split.
  - intros (set' & Hs & Ht). apply lookup_insert_Some in Hs as [[<- <-]|[Hne Hs]]; eauto.
  - intros [Ht|[(set' & Hs & Ht) Hne]].
    + exists set. by rewrite (Hse t Ht), lookup_insert_eq.
    + exists set'. by rewrite lookup_insert_ne.
Qed.
Lemma member_delete m s t : member (delete s m) t ↔ member m t ∧ tx_sender t ≠ s.
Proof. unfold member. setoid_rewrite lookup_delete_Some. naive_solver. Qed.

Section OneIndex.
Context (proj : End * End → End) (proj_elem : ∀ set e, ends_of set = Some e → (proj e).2 ∈ transactions set).

Lemma indexed_insert coll m s set e :
  senders_ok m → indexed proj coll m → m !! s = None → ends_of set = Some e →
  (∀ t, t ∈ transactions set → tx_sender t = s) → distinct (λ t, member m t ∨ t ∈ transactions set) →
  indexed proj (Pool.update coll (proj e) false) (<[s := set]> m).
Proof.
  intros Hok [Hso Hix] Hs He Hse Hd. unfold Pool.update. fold (end_ref (proj e)).
  assert (Hne : ∀ z, z ∈ coll → ScoreWithRef.cmp (end_ref (proj e)) z ≠ Eq).
  { intros z (s' & set' & e' & Hs' & He' & ->)%Hix [_ Hid]%ref_cmp_eq. simpl in Hid.
    pose proof (proj_elem _ _ He) as Hx1. pose proof (proj_elem _ _ He') as Hx2.
    destruct (set_member m s' set' _ Hok Hs' Hx2) as [Hm Hs2].
    assert ((proj e).2 = (proj e').2) as Heq by (apply Hd; auto). rewrite <- Heq, (Hse _ Hx1) in Hs2. congruence. }
  split; [apply bt_insert_sorted; [apply ref_cmp_opp|apply ref_cmp_trans|done]|].
  intros x. rewrite bt_insert_elem by done. rewrite Hix. split.
  - intros [->|(s' & set' & e' & Hs' & Hr)]; [exists s, set, e; by rewrite lookup_insert_eq|].
    exists s', set', e'. rewrite lookup_insert_ne; [done|congruence].
  - intros (s' & set' & e' & Hs' & He' & ->). apply lookup_insert_Some in Hs' as [[<- <-]|[Hn Hs']]; [left; congruence|right; eauto 10].
Qed.
Lemma indexed_delete coll m s set e :
  senders_ok m → indexed proj coll m → m !! s = Some set → ends_of set = Some e → distinct (member m) →
  indexed proj (Pool.update coll (proj e) true) (delete s m).
Proof.
  intros Hok [Hso Hix] Hs He Hd. unfold Pool.update. fold (end_ref (proj e)).
  split; [by apply bt_remove_sorted|].
  intros x. rewrite (bt_remove_elem _ ref_cmp_trans ref_cmp_eq_l) by done. rewrite Hix. split.
  - intros [(s' & set' & e' & Hs' & He' & ->) Hne]. exists s', set', e'. split; [|done]. apply lookup_delete_Some. split; [|done].
    intros <-. destruct Hne. assert (e = e') as -> by congruence. apply ref_cmp_eq. done.
  - intros (s' & set' & e' & [Hn Hs']%lookup_delete_Some & He' & ->). split; [eauto 10|]. intros [_ Hid]%ref_cmp_eq. simpl in Hid.
    destruct (set_member m s set _ Hok Hs (proj_elem _ _ He)) as [Hm1 Hs1].
    destruct (set_member m s' set' _ Hok Hs' (proj_elem _ _ He')) as [Hm2 Hs2].
    assert ((proj e).2 = (proj e').2) as Heq by auto. congruence.
Qed.
Lemma indexed_replace coll m s set set' e e' :
  senders_ok m → indexed proj coll m → m !! s = Some set → ends_of set = Some e → ends_of set' = Some e' →
  (∀ t, t ∈ transactions set' → tx_sender t = s) → distinct (λ t, member m t ∨ t ∈ transactions set') →
  indexed proj (Pool.replace_end coll (proj e) (proj e')) (<[s := set']> m).
Proof.
  intros Hok Hix Hs He He' Hse Hd. unfold Pool.replace_end.
  assert (Hdm : distinct (member m)) by (intros t t' Ht Ht'; apply Hd; by left).
  destruct (Pool.is_same (proj e) (proj e')) eqn:Hsame.
  - (* the same score and transaction *)
    assert (proj e = proj e') as Heq.
    { unfold Pool.is_same in Hsame. destruct (score_cmp _ _) eqn:Hc; [|done..]. apply score_cmp_eq in Hc.
      apply bool_decide_eq_true in Hsame. destruct (set_member m s set _ Hok Hs (proj_elem _ _ He)) as [Hm1 _].
      assert ((proj e).2 = (proj e').2) by (apply Hd; eauto). destruct (proj e), (proj e'). simpl in *. congruence. }
    destruct Hix as [Hso Hix]. split; [done|]. intros x. rewrite Hix. split.
    + intros (s1 & set1 & e1 & Hs1 & He1 & ->). destruct (decide (s1 = s)) as [->|Hn].
      * exists s, set', e'. rewrite lookup_insert_eq. split_and!; [done..|]. rewrite <- Heq. congruence.
      * exists s1, set1, e1. by rewrite lookup_insert_ne.
    + intros (s1 & set1 & e1 & Hs1 & He1 & ->). apply lookup_insert_Some in Hs1 as [[<- <-]|[Hn Hs1]]; [|eauto 10].
      exists s, set, e. split_and!; [done..|]. rewrite Heq. congruence.
  - rewrite <- (insert_delete_eq m s set'). apply indexed_insert; [| |apply lookup_delete_eq|done..|].
    + intros s1 set1 [_ Hs1]%lookup_delete_Some. by apply Hok.
    + by eapply indexed_delete.
    + intros t t' Ht Ht'. apply Hd; [destruct Ht as [[Ht _]%member_delete|Ht]|destruct Ht' as [[Ht' _]%member_delete|Ht']]; auto.
Qed.
End OneIndex.
End IndexFacts.

(** ** The invariant of the pool *)
Class VerifiedTransactionLaws (T Hash Sender : Type) `{VerifiedTransaction T Hash Sender} : Prop :=
  mem_usage_pos : ∀ t : T, 0 ≤ mem_usage t.

Section PoolFacts.
Context {T Hash Sender L : Type} `{SL : ScoringLaws T, Countable Hash, Countable Sender, VT : !VerifiedTransaction T Hash Sender}.
Context {VL : VerifiedTransactionLaws T Hash Sender}.
Context `{LI : !Listener L T (Error Hash Score), P : Profile, MO : MapOrder} {E : Type}.
Abbreviation Pl := (Pool T Hash Sender L).
Abbreviation Tx := (Transaction T).
Implicit Types (p : Pl) (s : Sender) (set : Transactions T) (t tx : Tx) (h : gmap Hash Tx).
Abbreviation tx_sender t := (sender (transaction t)).
Abbreviation tx_hash t := (hash (transaction t)).
Abbreviation tx_mem t := (mem_usage (transaction t)).
Abbreviation in_pool p t := (member (by_sender p) t).

(** The indexes by sender and by score. *)
Record pool_core p : Prop := {
  pc_senders : senders_ok (by_sender p);
  pc_distinct : distinct (member (by_sender p));
  pc_best : indexed snd (best_transactions p) (by_sender p);
  pc_worst : indexed fst (worst_transactions p) (by_sender p);
}.
Definition mem_total h : Z := map_fold (λ _ t acc, tx_mem t + acc) 0 h.
(** All indexes hold the same transactions, and the memory counter is their sum. *)
Record pool_inv p : Prop := {
  pi_core : pool_core p;
  pi_hash : ∀ k t, by_hash p !! k = Some t ↔ in_pool p t ∧ tx_hash t = k;
  pi_mem : pool_mem_usage p = mem_total (by_hash p);
  pi_ids : 0 ≤ last_insertion_id p ∧ ∀ t, in_pool p t → insertion_id t ≤ last_insertion_id p;
}.

Lemma pool_new_inv l o : pool_inv (Pool.new l o).
Proof.
  assert (Hno : ∀ t, ¬ member (∅ : gmap Sender (Transactions T)) t) by (intros t (set & Hs & _); by rewrite lookup_empty in Hs).
  assert (Hix : ∀ pr, indexed pr [] (∅ : gmap Sender (Transactions T))).
  { intros pr. split; [constructor|]. intros x. split; [by intros ?%not_elem_of_nil|].
    intros (s & set & e & Hs & _). by rewrite lookup_empty in Hs. }
  split; [split; simpl; [intros s set Hs; by rewrite lookup_empty in Hs|intros t t' []%Hno|done..]|..]; simpl.
  - intros k t. rewrite lookup_empty. split; [done|]. by intros [[]%Hno _].
  - done.
  - split; [done|]. by intros t []%Hno.
Qed.

(** *** Changing the set of a sender *)
Definition same_rest p p' : Prop :=
  by_hash p' = by_hash p ∧ pool_mem_usage p' = pool_mem_usage p ∧ options p' = options p ∧
  last_insertion_id p' = last_insertion_id p ∧ listener p' = listener p.
Lemma fst_elem set e : ends_of set = Some e → (fst e).2 ∈ transactions set.
Proof. destruct e as [w b]. intros He. by apply ends_of_elem in He as [? ?]. Qed.
Lemma snd_elem set e : ends_of set = Some e → (snd e).2 ∈ transactions set.
Proof. destruct e as [w b]. intros He. by apply ends_of_elem in He as [? ?]. Qed.
Lemma senders_ok_insert m s set :
  senders_ok m → set_wf set → transactions set ≠ [] → (∀ t, t ∈ transactions set → tx_sender t = s) → senders_ok (<[s := set]> m).
Proof. intros Hok Hwf Hne Hse s' set'. rewrite lookup_insert_Some. intros [[<- <-]|[_ Hs]]; [done|by apply Hok]. Qed.

Lemma set_change p s set set' :
  pool_core p → (by_sender p !! s = Some set ∨ by_sender p !! s = None ∧ transactions set = []) →
  set_wf set → set_wf set' → (∀ t, t ∈ transactions set' → tx_sender t = s) →
  distinct (λ t, in_pool p t ∨ t ∈ transactions set') → (transactions set = [] → transactions set' ≠ []) →
  let p' := Pool.update_senders_worst_and_best (Pool.set_by_sender p (<[s := set']> (by_sender p))) (ends_of set) (ends_of set') in
  pool_core p' ∧ same_rest p p' ∧
  ∀ t, in_pool p' t ↔ t ∈ transactions set' ∨ in_pool p t ∧ tx_sender t ≠ s.
Proof.
  intros [Hok Hdi Hb Hw] Hset Hwf Hwf' Hse Hd Hne. cbv zeta.
  assert (Hin : ∀ t, member (<[s := set']> (by_sender p)) t ↔ t ∈ transactions set' ∨ in_pool p t ∧ tx_sender t ≠ s)
    by (intros t; by apply member_insert).
  assert (Hd' : distinct (member (<[s := set']> (by_sender p)))) by (intros t t' Ht%Hin Ht'%Hin; apply Hd; tauto).
  destruct (ends_of set) as [[w b]|] eqn:He, (ends_of set') as [[w' b']|] eqn:He'; simpl.
  - (* both *)
    assert (transactions set ≠ []) by (intros Hx%ends_of_None; [congruence|done]).
    assert (transactions set' ≠ []) by (intros Hx%ends_of_None; [congruence|done]).
    destruct Hset as [Hs|[_ ?]]; [|done]. split; [|by split].
    split; simpl; [by apply senders_ok_insert|done| |].
    + exact (indexed_replace snd snd_elem _ _ s set set' _ _ Hok Hb Hs He He' Hse Hd).
    + exact (indexed_replace fst fst_elem _ _ s set set' _ _ Hok Hw Hs He He' Hse Hd).
  - (* the set is empty now *)
    destruct Hset as [Hs|[_ Hx]]; [|apply ends_of_None in Hx; [congruence|done]].
    pose proof (proj1 (ends_of_None set' Hwf') He') as Hx'.
    assert (tx_sender w.2 = s) as ->.
    { destruct (ends_of_elem _ _ _ He) as [Hw1 _]. by destruct (set_member _ _ _ _ Hok Hs Hw1). }
    rewrite delete_insert_eq. split; [|split; [done|]].
    + split; simpl; [intros s1 set1 [_ Hs1]%lookup_delete_Some; by apply Hok| | |].
      * intros t t' [Ht _]%member_delete [Ht' _]%member_delete. by apply Hdi.
      * exact (indexed_delete snd snd_elem _ _ s set _ Hok Hb Hs He Hdi).
      * exact (indexed_delete fst fst_elem _ _ s set _ Hok Hw Hs He Hdi).
    + intros t. rewrite member_delete, Hx'. set_solver.
  - (* the first transactions *)
    pose proof (proj1 (ends_of_None set Hwf) He) as Hx. specialize (Hne Hx).
    destruct Hset as [Hs|[Hs _]]; [by destruct (Hok _ _ Hs) as (_ & ? & _)|]. split; [|by split].
    split; simpl; [by apply senders_ok_insert|done| |].
    + exact (indexed_insert snd snd_elem _ _ s set' _ Hok Hb Hs He' Hse Hd).
    + exact (indexed_insert fst fst_elem _ _ s set' _ Hok Hw Hs He' Hse Hd).
  - apply ends_of_None in He; [|done]. apply ends_of_None in He'; [|done]. by destruct (Hne He).
Qed.

(** The set that a change leaves to the sender. *)
Lemma set_change_sender p s set set' s' :
  set_wf set → set_wf set' → (∀ t, t ∈ transactions set → tx_sender t = s) → (transactions set = [] → transactions set' ≠ []) →
  by_sender (Pool.update_senders_worst_and_best (Pool.set_by_sender p (<[s := set']> (by_sender p))) (ends_of set) (ends_of set')) !! s' =
  if decide (s' = s) then match transactions set' with [] => None | _ => Some set' end else by_sender p !! s'.
Proof.
  intros Hwf Hwf' Hse Hne.
  destruct (ends_of set) as [[w b]|] eqn:He, (ends_of set') as [[w' b']|] eqn:He'; simpl.
  - assert (transactions set' ≠ []) by (intros Hx%ends_of_None; [congruence|done]). case_decide; simplify_eq.
    + rewrite lookup_insert_eq. by destruct (transactions set').
    + by rewrite lookup_insert_ne.
  - apply ends_of_elem in He as [Hw _]. rewrite (Hse _ Hw), delete_insert_eq. apply ends_of_None in He'; [|done]. rewrite He'.
    case_decide; simplify_eq; [by rewrite lookup_delete_eq|by rewrite lookup_delete_ne].
  - assert (transactions set' ≠ []) by (intros Hx%ends_of_None; [congruence|done]). case_decide; simplify_eq.
    + rewrite lookup_insert_eq. by destruct (transactions set').
    + by rewrite lookup_insert_ne.
  - apply ends_of_None in He; [|done]. apply ends_of_None in He'; [|done]. by destruct (Hne He).
Qed.
(** The transactions of a sender. *)
Definition sender_txs p s : list Tx := match by_sender p !! s with Some set => transactions set | None => [] end.
Lemma set_change_txs p s set set' s' :
  set_wf set → set_wf set' → (∀ t, t ∈ transactions set → tx_sender t = s) → (transactions set = [] → transactions set' ≠ []) →
  sender_txs (Pool.update_senders_worst_and_best (Pool.set_by_sender p (<[s := set']> (by_sender p))) (ends_of set) (ends_of set')) s' =
  if decide (s' = s) then transactions set' else sender_txs p s'.
Proof.
  intros Hwf Hwf' Hse Hne. unfold sender_txs. rewrite set_change_sender by done. case_decide; [|done].
  by destruct (transactions set') eqn:Hx; rewrite ?Hx.
Qed.

(** [remove_from_set] with an operation that takes transactions out. *)
Lemma remove_from_set_spec {R} p s set (f : Transactions T → Outcome E (Transactions T * R)) set' r :
  pool_core p → by_sender p !! s = Some set → f set = Ok (set', r) → set_wf set' →
  (∀ t, t ∈ transactions set' → t ∈ transactions set) →
  ∃ p', Pool.remove_from_set p s f = Ok (p', Some r) ∧ pool_core p' ∧ same_rest p p' ∧
    ∀ t, in_pool p' t ↔ t ∈ transactions set' ∨ in_pool p t ∧ tx_sender t ≠ s.
Proof.
  intros Hc Hs Hf Hwf' Hsub. destruct (pc_senders _ Hc s set Hs) as (Hwf & Hne & Hse).
  unfold Pool.remove_from_set. rewrite Hs, worst_and_best_ends by done. simpl. rewrite Hf. simpl.
  rewrite worst_and_best_ends by done. simpl. eexists. split; [done|].
  apply set_change; [done|by left|done|done| | |done]; [by auto|].
  intros t t' Ht Ht'. apply (pc_distinct _ Hc).
  - destruct Ht as [|Ht]; [done|]. by eapply set_member; [apply Hc|done|auto].
  - destruct Ht' as [|Ht']; [done|]. by eapply set_member; [apply Hc|done|auto].
Qed.

(** *** The index by hash *)
Lemma mem_total_insert h k t : h !! k = None → mem_total (<[k := t]> h) = tx_mem t + mem_total h.
Proof. intros Hk. unfold mem_total. rewrite map_fold_insert_L; [done| |done]. intros. lia. Qed.
Lemma mem_total_delete h k t : h !! k = Some t → mem_total h = tx_mem t + mem_total (delete k h).
Proof. intros Hk. unfold mem_total. rewrite (map_fold_delete_L _ _ k t); [done| |done]. intros. lia. Qed.
Lemma mem_total_pos h : 0 ≤ mem_total h.
Proof.
  unfold mem_total. apply (map_fold_weak_ind (λ r _, 0 ≤ r)); [done|]. intros k t h' r _ Hr.
  pose proof (mem_usage_pos (transaction t)). lia.
Qed.
Lemma finalize_remove_spec p k t :
  by_hash p !! k = Some t → pool_mem_usage p = mem_total (by_hash p) → pool_mem_usage p < 2 ^ 64 →
  Pool.finalize_remove (E:=E) p k =
    Ok (Pool.set_mem p (mem_total (delete k (by_hash p))) (delete k (by_hash p)), Some (transaction t)).
Proof.
  intros Hk Hm Hb. unfold Pool.finalize_remove. rewrite Hk. rewrite (mem_total_delete _ _ _ Hk) in Hm.
  pose proof (mem_total_pos (delete k (by_hash p))). pose proof (mem_usage_pos (transaction t)).
  unfold sub_u. rewrite arith_in by (unfold in_u; lia). simpl. do 3 f_equal. lia.
Qed.

(** *** Taking transactions out *)
Lemma core_ext p p' :
  pool_core p → by_sender p' = by_sender p → best_transactions p' = best_transactions p → worst_transactions p' = worst_transactions p →
  pool_core p'.
Proof. intros [Hs Hd Hb Hw] E1 E2 E3. split; rewrite ?E1, ?E2, ?E3; done. Qed.
Lemma slots_NoDup (l : list Tx) : StronglySorted (λ a b : Tx, compare (transaction a) (transaction b) = Lt) l → NoDup l.
Proof.
  induction 1 as [|t l _ IH Ht]; constructor; [|done]. intros Hin. eapply Forall_forall in Ht; [|done]. simpl in Ht.
  by rewrite compare_refl in Ht.
Qed.
Lemma take_out_spec p t :
  pool_core p → in_pool p t →
  ∃ p', Pool.remove_from_set (E:=E) p (tx_sender t) (λ set, Transactions.remove set (transaction t)) = Ok (p', Some true) ∧
    pool_core p' ∧ same_rest p p' ∧ ∀ u, in_pool p' u ↔ in_pool p u ∧ u ≠ t.
Proof.
  intros Hc (set & Hs & Ht). destruct (pc_senders _ Hc _ _ Hs) as (Hwf & Hne & Hse).
  destruct (remove_spec (E:=E) set t Hwf Ht) as (set' & Hr & Hwf' & Hperm).
  assert (Hnd : NoDup (t :: transactions set')) by (rewrite <- Hperm; apply slots_NoDup, Hwf).
  apply NoDup_cons in Hnd as [Hnt _].
  destruct (remove_from_set_spec p (tx_sender t) set (λ set, Transactions.remove set (transaction t)) set' true Hc Hs Hr Hwf') as (p' & Hp & Hc' & Hrest & Hin).
  { intros u Hu. rewrite Hperm. by right. }
  exists p'. split_and!; [done..|]. intros u. rewrite Hin. split.
  - intros [Hu|[Hu Hsu]]; [|split; [done|by intros ->]]. split; [|by intros ->].
    eapply set_member; [apply Hc|exact Hs|]. rewrite Hperm. by right.
  - intros [(set1 & Hs1 & Hu) Hut]. destruct (decide (tx_sender u = tx_sender t)) as [Heq|Hn]; [left|right; split; [by exists set1|done]].
    rewrite Heq, Hs in Hs1. injection Hs1 as <-. rewrite Hperm in Hu. by apply elem_of_cons in Hu as [->|Hu].
Qed.
(** Both indexes keep the same transactions. *)
Lemma inv_keep p p' (keep : Tx → Prop) :
  pool_inv p → pool_core p' → (∀ u, in_pool p' u ↔ in_pool p u ∧ keep u) →
  (∀ k u, by_hash p' !! k = Some u ↔ by_hash p !! k = Some u ∧ keep u) →
  pool_mem_usage p' = mem_total (by_hash p') → last_insertion_id p' = last_insertion_id p → pool_inv p'.
Proof.
  intros [Hc Hh Hm [Hi0 Hi]] Hc' Hin Hk Hm' Hl. split; [done| |done|].
  - intros k u. rewrite Hk, Hh, Hin. tauto.
  - rewrite Hl. split; [done|]. intros u [Hu _]%Hin. auto.
Qed.
Lemma hash_member p t : pool_inv p → in_pool p t → by_hash p !! tx_hash t = Some t.
Proof. intros Hi Ht. by apply (pi_hash _ Hi). Qed.
Lemma delete_keep p t k u :
  pool_inv p → in_pool p t → delete (tx_hash t) (by_hash p) !! k = Some u ↔ by_hash p !! k = Some u ∧ u ≠ t.
Proof.
  intros Hi Ht. rewrite lookup_delete_Some. pose proof (hash_member p t Hi Ht) as Hk. split.
  - intros [Hn Hu]. split; [done|]. intros ->. apply (pi_hash _ Hi) in Hu as [_ ?]. congruence.
  - intros [Hu Hn]. split; [|done]. intros <-. congruence.
Qed.

Lemma remove_pool_spec p k b :
  pool_inv p → pool_mem_usage p < 2 ^ 64 →
  match by_hash p !! k with
  | Some t => ∃ p', Pool.remove (E:=E) p k b = Ok (p', Some (transaction t)) ∧ pool_inv p' ∧ by_hash p' = delete k (by_hash p) ∧
      options p' = options p ∧ last_insertion_id p' = last_insertion_id p
  | None => Pool.remove (E:=E) p k b = Ok (p, None)
  end.
Proof.
  intros Hi Hf. unfold Pool.remove. destruct (by_hash p !! k) as [t|] eqn:Hk; [|unfold Pool.finalize_remove; by rewrite Hk].
  rewrite (finalize_remove_spec p k t Hk) by (done || apply Hi). simpl.
  pose proof (proj1 (pi_hash _ Hi k t) Hk) as [Ht <-].
  set (p1 := Pool.set_mem p _ _). destruct (take_out_spec p1 t) as (p' & Hp & Hc' & (Hb & Hm & Ho & Hl & _) & Hin);
    [by eapply core_ext; [apply Hi|..]|done|]. rewrite Hp. simpl. eexists. split; [done|]. simpl. rewrite Hb. split; [|done].
  apply (inv_keep p _ (λ u, u ≠ t) Hi); simpl; [by eapply core_ext; [apply Hc'|..]|exact Hin| |by rewrite Hm, Hb|by rewrite Hl].
  intros k u. rewrite Hb. by apply delete_keep.
Qed.

(** *** Making room *)
(** Transactions have gone, nothing else has changed. *)
Definition shrunk p p' : Prop :=
  pool_inv p' ∧ by_hash p' ⊆ by_hash p ∧ pool_mem_usage p' ≤ pool_mem_usage p ∧ options p' = options p ∧
  last_insertion_id p' = last_insertion_id p.
Lemma shrunk_refl p p' :
  pool_inv p → by_sender p' = by_sender p → by_hash p' = by_hash p → best_transactions p' = best_transactions p →
  worst_transactions p' = worst_transactions p → pool_mem_usage p' = pool_mem_usage p → options p' = options p →
  last_insertion_id p' = last_insertion_id p → shrunk p p'.
Proof.
  intros Hi Hs Hh Hb Hw Hm Ho Hl. split; [|rewrite Hh, Hm; done].
  split; [by eapply core_ext; [apply Hi|..]|intros k t; rewrite Hh, Hs; apply Hi|rewrite Hm, Hh; apply Hi|].
  rewrite Hl, Hs. apply Hi.
Qed.
Lemma shrunk_trans p1 p2 p3 : shrunk p1 p2 → shrunk p2 p3 → shrunk p1 p3.
Proof. intros (_ & Ha & Hb & Hc & Hd) (? & ? & ? & He & Hg). split_and!; [done|by etrans|lia|by rewrite He|by rewrite Hg]. Qed.
Lemma in_pool_txs p t : in_pool p t ↔ t ∈ sender_txs p (tx_sender t).
Proof.
  unfold member, sender_txs. destruct (by_sender p !! tx_sender t) as [set|]; [naive_solver|].
  split; [naive_solver|]. by intros ?%not_elem_of_nil.
Qed.
Lemma sender_txs_ok p s : pool_inv p → NoDup (sender_txs p s) ∧ ∀ t, t ∈ sender_txs p s → tx_sender t = s.
Proof.
  intros Hi. unfold sender_txs. destruct (by_sender p !! s) as [set|] eqn:Hs; [|split; [constructor|by intros t ?%not_elem_of_nil]].
  destruct (pc_senders _ (pi_core _ Hi) s set Hs) as ([_ Hso] & _ & Hse). split; [by apply slots_NoDup|done].
Qed.
Lemma shrunk_sender p p' s : pool_inv p → shrunk p p' → (length (sender_txs p' s) ≤ length (sender_txs p s))%nat.
Proof.
  intros Hi (Hi' & Hsub & _). destruct (sender_txs_ok p' s Hi') as [Hnd Hse]. apply submseteq_length, NoDup_submseteq; [done|].
  intros t Ht. pose proof (Hse t Ht) as He. rewrite <- He in Ht |- *. apply in_pool_txs in Ht. apply in_pool_txs.
  apply (hash_member p' t Hi') in Ht. eapply lookup_weaken in Ht; [|exact Hsub]. by apply (pi_hash _ Hi) in Ht as [? _].
Qed.
Lemma worst_member p x : pool_core p → last (worst_transactions p) = Some x → in_pool p (score_tx x).
Proof.
  intros Hc Hx. apply last_Some_elem_of in Hx. apply (proj2 (pc_worst _ Hc)) in Hx as (s & set & e & Hs & He & ->). simpl.
  eapply set_member; [apply Hc|done|]. by apply fst_elem.
Qed.

Section ImportFacts.
Context `{RP : !ShouldReplace T}.
(** The caller could not decide between a pooled transaction and the new one: it answered
    [InsertNew], with which both are kept above the limits. *)
Definition undecided p tx : Prop := ∃ old pooled, by_hash p !! tx_hash old = Some old ∧
  should_replace (mkReplaceTransaction old pooled) (mkReplaceTransaction tx pooled) = Choice.InsertNew.
Definition too_cheap (t : Tx) (e : Error Hash Score) : Prop := ∃ sc, e = Error.TooCheapToEnter (tx_hash t) sc.

Lemma evict_spec p tx :
  pool_inv p → pool_mem_usage p < 2 ^ 64 →
  ∃ p' r, Pool.evict (E:=E) p tx = Ok (p', r) ∧ shrunk p p' ∧
    match r with
    | inr e => too_cheap tx e
    | inl false => undecided p tx
    | inl true => (size (by_hash p') < size (by_hash p))%nat
    end.
Proof.
  intros Hi Hf. unfold Pool.evict, Pool.remove_worst. destruct (last (worst_transactions p)) as [old|] eqn:Hla; simpl.
  2: { eexists _, _. split; [done|]. split; [by apply shrunk_refl|by eexists]. }
  destruct (should_replace _ _) eqn:Hch; simpl.
  - eexists _, _. split; [done|]. split; [by apply shrunk_refl|by eexists].
  - pose proof (worst_member p old (pi_core _ Hi) Hla) as Hin. set (t := score_tx old) in *.
    destruct (take_out_spec p t (pi_core _ Hi) Hin) as (p1 & -> & Hc1 & (Hb & Hm & Ho & Hl & _) & Hin1). simpl.
    pose proof (hash_member p t Hi Hin) as Hk. pose proof (mem_total_delete _ _ _ Hk) as Hmt.
    set (p2 := Pool.set_listener p1 _).
    rewrite (finalize_remove_spec p2 (tx_hash t) t); [|simpl; by rewrite Hb|simpl; rewrite Hb, Hm; apply Hi|simpl; by rewrite Hm].
    simpl. eexists _, _. split; [done|]. rewrite Hb.
    assert (Hlt : (size (delete (tx_hash t) (by_hash p)) < size (by_hash p))%nat).
    { rewrite map_size_delete_Some by (by eexists). pose proof (map_size_ne_0_lookup_2 (by_hash p) (tx_hash t)).
      assert (size (by_hash p) ≠ 0%nat) by (apply map_size_non_empty_iff; intros He; by rewrite He, lookup_empty in Hk). lia. }
    split; [|done]. split_and!; simpl; [| | |by rewrite Ho|by rewrite Hl].
    + apply (inv_keep p _ (λ u, u ≠ t) Hi); simpl; [by eapply core_ext; [exact Hc1|..]|exact Hin1| |done|by rewrite Hl].
      intros k u. by apply delete_keep.
    + apply delete_subseteq.
    + rewrite (pi_mem _ Hi), Hmt. pose proof (mem_usage_pos (transaction t)). lia.
  - eexists _, _. split; [done|]. split; [by apply shrunk_refl|]. eexists _, _. split; [|exact Hch].
    apply (hash_member p _ Hi). by apply (worst_member p _ (pi_core _ Hi)).
Qed.

Lemma undecided_mono p p' tx : shrunk p p' → undecided p' tx → undecided p tx.
Proof. intros (_ & Hs & _) (old & pooled & Ho & Hch). exists old, pooled. split; [by eapply lookup_weaken|done]. Qed.
Lemma shrunk_size p p' : shrunk p p' → (size (by_hash p') ≤ size (by_hash p))%nat.
Proof. intros (_ & Hs & _). by apply map_subseteq_size. Qed.
Lemma evict_count_spec fuel p tx :
  pool_inv p → pool_mem_usage p < 2 ^ 64 → (size (by_hash p) < fuel)%nat → Z.of_nat (size (by_hash p)) + 1 < 2 ^ 64 →
  ∃ p' r, Pool.evict_count (E:=E) fuel p tx = Ok (p', r) ∧ shrunk p p' ∧
    match r with
    | Some e => too_cheap tx e
    | None => undecided p tx ∨ Z.of_nat (size (by_hash p')) + 1 ≤ max_count (options p)
    end.
Proof.
  revert p. induction fuel as [|fuel IH]; intros p Hi Hf Hfu Hn; [lia|]. simpl.
  unfold add_u. rewrite arith_in by (unfold in_u; lia). simpl. case_decide as Hc.
  2: { eexists _, _. split; [done|]. split; [by apply shrunk_refl|right; lia]. }
  destruct (evict_spec p tx Hi Hf) as (p1 & r & -> & Hs1 & Hr). simpl. destruct r as [[|]|e].
  - pose proof Hs1 as (Hi1 & _ & Hm1 & Ho1 & _). destruct (IH p1) as (p' & r & Hp & Hs & Hr'); [done|lia..|].
    exists p', r. split_and!; [done|by eapply shrunk_trans|]. rewrite <- Ho1. destruct r; [done|]. destruct Hr'; [left; by eapply undecided_mono|by right].
  - eexists _, _. split; [done|]. split; [done|]. by left.
  - eexists _, _. split; [done|]. done.
Qed.
Lemma evict_mem_spec fuel p tx :
  pool_inv p → pool_mem_usage p + tx_mem tx < 2 ^ 64 → (size (by_hash p) < fuel)%nat →
  ∃ p' r, Pool.evict_mem (E:=E) fuel p tx = Ok (p', r) ∧ shrunk p p' ∧
    match r with
    | Some e => too_cheap tx e
    | None => undecided p tx ∨ pool_mem_usage p' + tx_mem tx ≤ max_mem_usage (options p)
    end.
Proof.
  revert p. induction fuel as [|fuel IH]; intros p Hi Hf Hfu; [lia|]. simpl.
  pose proof (mem_usage_pos (transaction tx)) as Hpos. pose proof (mem_total_pos (by_hash p)) as Hmt. rewrite <- (pi_mem _ Hi) in Hmt.
  unfold add_u. rewrite arith_in by (unfold in_u; lia). simpl. case_decide as Hc.
  2: { eexists _, _. split; [done|]. split; [by apply shrunk_refl|right; lia]. }
  destruct (evict_spec p tx Hi) as (p1 & r & -> & Hs1 & Hr); [lia|]. simpl. destruct r as [[|]|e].
  - pose proof Hs1 as (Hi1 & _ & Hm1 & Ho1 & _). destruct (IH p1) as (p' & r & Hp & Hs & Hr'); [done|lia..|].
    exists p', r. split_and!; [done|by eapply shrunk_trans|]. rewrite <- Ho1. destruct r; [done|]. destruct Hr'; [left; by eapply undecided_mono|by right].
  - eexists _, _. split; [done|]. split; [done|]. by left.
  - eexists _, _. split; [done|]. done.
Qed.

(** *** Adding a transaction *)
Lemma add_members_swap p tx old set set' rest :
  (∀ t, t ∈ transactions set → in_pool p t ∧ tx_sender t = tx_sender tx) →
  (∀ t, in_pool p t ↔ t ∈ transactions set ∨ in_pool p t ∧ tx_sender t ≠ tx_sender tx) →
  NoDup (transactions set) → transactions set ≡ₚ old :: rest → transactions set' ≡ₚ tx :: rest →
  tx = tx ∧ in_pool p old ∧ tx_sender old = tx_sender tx ∧
  ∀ t, ¬ in_pool p tx → t ∈ transactions set' ∨ in_pool p t ∧ tx_sender t ≠ tx_sender tx ↔ (t = tx ∨ in_pool p t) ∧ t ≠ old.
Proof.
  intros Hm Hsplit Hnd Hp Hp'. assert (Ho : old ∈ transactions set) by (rewrite Hp; by left). apply Hm in Ho as [Ho Hos].
  split_and!; [done..|]. intros t Htx. rewrite Hp in Hnd. apply NoDup_cons in Hnd as [Hno _].
  rewrite (Hsplit t), Hp, Hp', !elem_of_cons. split.
  - intros [[->|Ht]|[Ht Hse]]; (split; [tauto|intros ->; done]).
  - naive_solver.
Qed.
(** What is in the pool once the sender's set has been replaced. *)
Lemma add_members p tx set set' r :
  pool_core p → (by_sender p !! tx_sender tx = Some set ∨ by_sender p !! tx_sender tx = None ∧ transactions set = []) →
  set_wf set → add_result set tx set' r →
  let U t := t ∈ transactions set' ∨ in_pool p t ∧ tx_sender t ≠ tx_sender tx in
  match r with
  | AddResult.Ok new => new = tx ∧ ∀ t, U t ↔ t = tx ∨ in_pool p t
  | AddResult.PushedOut old new | AddResult.Replaced old new =>
      new = tx ∧ in_pool p old ∧ tx_sender old = tx_sender tx ∧ ∀ t, ¬ in_pool p tx → U t ↔ (t = tx ∨ in_pool p t) ∧ t ≠ old
  | AddResult.TooCheap old new => new = tx ∧ ∀ t, U t ↔ in_pool p t
  | AddResult.TooCheapToEnter new _ => new = tx ∧ ∀ t, U t ↔ in_pool p t
  end.
Proof.
  intros Hc Hset Hwf Hr U.
  assert (Hm : ∀ t, t ∈ transactions set → in_pool p t ∧ tx_sender t = tx_sender tx).
  { intros t Ht. destruct Hset as [Hs|[_ He]]; [by eapply set_member; [apply Hc|..]|by rewrite He in Ht; apply not_elem_of_nil in Ht]. }
  assert (Hm' : ∀ t, in_pool p t → tx_sender t = tx_sender tx → t ∈ transactions set).
  { intros t (set1 & Hs1 & Ht) Hse. rewrite Hse in Hs1. destruct Hset as [Hs|[Hs _]]; congruence. }
  assert (Hsplit : ∀ t, in_pool p t ↔ t ∈ transactions set ∨ in_pool p t ∧ tx_sender t ≠ tx_sender tx).
  { intros t. destruct (decide (tx_sender t = tx_sender tx)); [|naive_solver]. split; [|by intros [?%Hm|?]; naive_solver]. auto. }
  assert (Hnd : NoDup (transactions set)) by apply slots_NoDup, Hwf.
  destruct r as [t1|t1 s1|t1 t2|t1 t2|t1 t2]; simpl in Hr.
  - destruct Hr as [-> Hp]. split; [done|]. intros t. unfold U. rewrite Hp, elem_of_cons, (Hsplit t). tauto.
  - destruct Hr as (-> & -> & _). split; [done|]. intros t. by rewrite (Hsplit t).
  - destruct Hr as (-> & -> & _). split; [done|]. intros t. by rewrite (Hsplit t).
  - destruct Hr as [-> (rest & Hp & Hp')]. by apply (add_members_swap p tx t1 set set' rest).
  - destruct Hr as [-> (rest & Hp & Hp')]. by apply (add_members_swap p tx t1 set set' rest).
Qed.

Lemma finalize_insert_spec p tx :
  by_hash p !! tx_hash tx = None → pool_mem_usage p = mem_total (by_hash p) → pool_mem_usage p + tx_mem tx < 2 ^ 64 →
  ∃ p1, p1 = Pool.set_mem p (mem_total (<[tx_hash tx := tx]> (by_hash p))) (<[tx_hash tx := tx]> (by_hash p)) ∧
    Pool.finalize_insert (E:=E) p tx None = Ok p1 ∧
    ∀ old, Pool.finalize_insert (E:=E) p tx (Some old) = (r ← Pool.finalize_remove p1 (tx_hash old); Ok r.1).
Proof.
  intros Hk Hm Hb. eexists. split; [done|]. unfold Pool.finalize_insert.
  pose proof (mem_total_pos (by_hash p)). pose proof (mem_usage_pos (transaction tx)).
  unfold add_u. rewrite arith_in by (unfold in_u; lia). simpl. rewrite mem_total_insert by done. rewrite Hm.
  rewrite (Z.add_comm (mem_total _)). done.
Qed.
(** The transaction joins both indexes. *)
Lemma inv_join p p' tx :
  pool_inv p → pool_core p' → by_hash p !! tx_hash tx = None → (∀ u, in_pool p' u ↔ u = tx ∨ in_pool p u) →
  by_hash p' = <[tx_hash tx := tx]> (by_hash p) → pool_mem_usage p' = mem_total (by_hash p') →
  last_insertion_id p' = last_insertion_id p → insertion_id tx ≤ last_insertion_id p → pool_inv p'.
Proof.
  intros [Hc Hh Hm [Hi0 Hi]] Hc' Hk Hin Hb Hm' Hl Hid. split; [done| |done|].
  - intros k u. rewrite Hb, lookup_insert_Some, Hh, Hin. split.
    + intros [[<- <-]|[Hn [Hu Hk']]]; auto.
    + intros [[->|Hu] Hk']; [by left|]. right. split; [|done]. intros He. rewrite <- Hk' in He.
      assert (Hu' : by_hash p !! tx_hash u = Some u) by (by apply Hh). congruence.
  - rewrite Hl. split; [done|]. intros u [->|Hu]%Hin; auto.
Qed.
Definition entered p tx p' : Prop :=
  by_hash p' = <[tx_hash tx := tx]> (by_hash p) ∨
  ∃ old, by_hash p !! tx_hash old = Some old ∧ tx_sender old = tx_sender tx ∧
    by_hash p' = delete (tx_hash old) (<[tx_hash tx := tx]> (by_hash p)).

Lemma finish_swap p p1 tx old l :
  pool_inv p → pool_core p1 → same_rest p p1 → by_hash p !! tx_hash tx = None → insertion_id tx ≤ last_insertion_id p →
  pool_mem_usage p + tx_mem tx < 2 ^ 64 → in_pool p old → tx_sender old = tx_sender tx →
  (∀ u, in_pool p1 u ↔ (u = tx ∨ in_pool p u) ∧ u ≠ old) →
  ∃ p', Pool.finalize_insert (E:=E) (Pool.set_listener p1 l) tx (Some old) = Ok p' ∧ pool_inv p' ∧ options p' = options p ∧
    last_insertion_id p' = last_insertion_id p ∧ by_sender p' = by_sender p1 ∧ entered p tx p'.
Proof.
  intros Hi Hc1 (Hb & Hm & Ho & Hl & _) Hk Hid Hmem Hold Hse Hin. pose proof (hash_member p old Hi Hold) as Hko.
  assert (Hne : tx_hash tx ≠ tx_hash old) by congruence.
  destruct (finalize_insert_spec (Pool.set_listener p1 l) tx) as (p2 & Hp2 & _ & Hf);
    [simpl; by rewrite Hb|simpl; rewrite Hm, Hb; apply Hi|simpl; by rewrite Hm|].
  assert (Hb2 : by_hash p2 = <[tx_hash tx := tx]> (by_hash p)) by (rewrite Hp2; simpl; by rewrite Hb).
  assert (Hm2 : pool_mem_usage p2 = mem_total (by_hash p2)) by (by rewrite Hp2).
  rewrite Hf, (finalize_remove_spec p2 (tx_hash old) old); [|by rewrite Hb2, lookup_insert_ne|done|].
  2: { rewrite Hm2, Hb2, mem_total_insert, <- (pi_mem _ Hi) by done. lia. }
  simpl. eexists. split; [done|]. simpl. rewrite Hb2. split; [|split_and!; [by rewrite Hp2..|right; eauto]].
  split; simpl; [by eapply core_ext; [exact Hc1|rewrite Hp2..]| |done|].
  - intros k u. rewrite Hp2. simpl. rewrite Hin, lookup_delete_Some, lookup_insert_Some, (pi_hash _ Hi). split.
    + intros [Hn [[<- <-]|[Hn' [Hu <-]]]]; split; auto; try (split; [tauto|]); intros ->; done.
    + intros [[[->|Hu] Hn] <-]; [auto|]. split; [intros He|right; split; [|done]; intros He].
      * pose proof (hash_member p u Hi Hu). congruence.
      * pose proof (hash_member p u Hi Hu). congruence.
  - rewrite Hp2. simpl. rewrite Hl. split; [apply Hi|]. intros u [[->|Hu] _]%Hin; [done|by apply Hi].
Qed.

Definition turned_away tx (e : Error Hash Score) : Prop :=
  too_cheap tx e ∨ ∃ old, e = Error.TooCheapToReplace old (tx_hash tx).
Lemma add_distinct p tx set set' r :
  pool_inv p → by_hash p !! tx_hash tx = None → (∀ t, in_pool p t → insertion_id t < insertion_id tx) →
  (∀ t, t ∈ transactions set → in_pool p t) → add_result set tx set' r →
  (∀ t, t ∈ transactions set' → t = tx ∨ t ∈ transactions set) ∧ distinct (λ t, in_pool p t ∨ t ∈ transactions set') ∧
  (transactions set = [] → transactions set' ≠ []).
Proof.
  intros Hi Hk Hid Hm Hr.
  assert (Hsub : ∀ t, t ∈ transactions set' → t = tx ∨ t ∈ transactions set).
  { intros t. destruct r; simpl in Hr; [destruct Hr as [_ ->]; by rewrite elem_of_cons|by destruct Hr as (_ & -> & _); auto..| |];
      destruct Hr as (_ & rest & Hp & ->); rewrite Hp, !elem_of_cons; tauto. }
  split; [done|]. split.
  - assert (Hd : ∀ t, in_pool p t → insertion_id t ≠ insertion_id tx ∧ tx_hash t ≠ tx_hash tx).
    { intros t Ht. split; [specialize (Hid t Ht); lia|]. pose proof (hash_member p t Hi Ht). congruence. }
    assert (Hin : ∀ t, in_pool p t ∨ t ∈ transactions set' → t = tx ∨ in_pool p t) by naive_solver.
    intros t t' [->|Ht]%Hin [->|Ht']%Hin Heq; [done|..].
    + destruct (Hd t' Ht'). naive_solver.
    + destruct (Hd t Ht). naive_solver.
    + by apply (pc_distinct _ (pi_core _ Hi)).
  - intros He Hn. destruct r; simpl in Hr; rewrite ?He, ?Hn in Hr.
    + destruct Hr as [_ Hr]. by apply Permutation_nil_cons in Hr.
    + by destruct Hr as (_ & _ & ?).
    + destruct Hr as (_ & _ & Hr). by apply not_elem_of_nil in Hr.
    + destruct Hr as (_ & rest & Hr & _). by apply Permutation_nil_cons in Hr.
    + destruct Hr as (_ & rest & Hr & _). by apply Permutation_nil_cons in Hr.
Qed.
Lemma refused_inv p p1 l :
  pool_inv p → pool_core p1 → same_rest p p1 → (∀ u, in_pool p1 u ↔ in_pool p u) → pool_inv (Pool.set_listener p1 l).
Proof.
  intros Hi Hc1 (Hb & Hm & _ & Hl & _) Hin.
  apply (inv_keep p _ (λ _, True) Hi); simpl; [by eapply core_ext; [exact Hc1|..]|intros u; rewrite Hin; tauto| |rewrite Hm, Hb; apply Hi|done].
  intros k u. rewrite Hb. tauto.
Qed.
(** The set of a sender, empty if it has none. *)
Lemma sender_set p s :
  pool_inv p → let set := default Transactions.default (by_sender p !! s) in
  (by_sender p !! s = Some set ∨ by_sender p !! s = None ∧ transactions set = []) ∧
  set_wf set ∧ ∀ t, t ∈ transactions set → in_pool p t ∧ tx_sender t = s.
Proof.
  intros Hi. destruct (by_sender p !! s) as [set|] eqn:Hs; simpl.
  - split; [by left|]. split; [by apply (pc_senders _ (pi_core _ Hi)) in Hs as [? _]|]. intros t. by eapply set_member; [apply Hi|].
  - split; [by right|]. split; [split; [done|constructor]|]. intros t Ht. by apply not_elem_of_nil in Ht.
Qed.
Lemma insert_transaction_spec `{OS : !OnePerSlot T} p tx :
  pool_inv p → by_hash p !! tx_hash tx = None → (∀ t, in_pool p t → insertion_id t < insertion_id tx) →
  insertion_id tx ≤ last_insertion_id p → 0 < max_per_sender (options p) → pool_mem_usage p + tx_mem tx < 2 ^ 64 →
  ∃ p' r, Pool.insert_transaction (E:=E) p tx = Ok (p', r) ∧ pool_inv p' ∧ options p' = options p ∧
    last_insertion_id p' = last_insertion_id p ∧
    match r with
    | inl t => t = transaction tx ∧ entered p tx p'
    | inr e => turned_away tx e ∧ by_hash p' = by_hash p
    end ∧
    ∀ s, sender_txs p' s = sender_txs p s ∨ s = tx_sender tx ∧ fits (max_per_sender (options p)) tx (sender_txs p s) (sender_txs p' s).
Proof.
  intros Hi Hk Hid Hle Hmax Hmem. unfold Pool.insert_transaction. destruct (sender_set p (tx_sender tx) Hi) as (Hset & Hwf & Hm).
  set (set := default Transactions.default _) in *. rewrite worst_and_best_ends by done. rewrite bind_Ok.
  destruct (add_spec (E:=E) set tx (max_per_sender (options p)) Hwf Hmax) as (set' & r & -> & Hwf' & Hr & Hfit). rewrite bind_Ok. cbn [fst snd].
  rewrite worst_and_best_ends by done. rewrite bind_Ok.
  destruct (add_distinct p tx set set' r Hi Hk Hid) as (Hsub & Hd & Hne); [by intros t [? _]%Hm|done|].
  destruct (set_change p (tx_sender tx) set set' (pi_core _ Hi) Hset Hwf Hwf') as (Hc1 & Hrest & Hin); [|done..|].
  { intros t [->|[_ ?]%Hm]%Hsub; done. }
  pose proof (add_members p tx set set' r (pi_core _ Hi) Hset Hwf Hr) as Hu. cbv zeta in Hu.
  assert (Hntx : ¬ in_pool p tx) by (intros Ht; specialize (Hid tx Ht); lia).
  assert (Htxs := λ s', set_change_txs p (tx_sender tx) set set' s' Hwf Hwf' (λ t Ht, proj2 (Hm t Ht)) Hne).
  assert (Hset0 : sender_txs p (tx_sender tx) = transactions set) by (unfold sender_txs, set; by destruct (by_sender p !! tx_sender tx)).
  set (p1 := Pool.update_senders_worst_and_best _ _ _) in *. clearbody p1. pose proof Hrest as (Hb & Hme & Ho & Hl & _).
  assert (Hlim : ∀ p', by_sender p' = by_sender p1 → ∀ s, sender_txs p' s = sender_txs p s ∨
    s = tx_sender tx ∧ fits (max_per_sender (options p)) tx (sender_txs p s) (sender_txs p' s)).
  { intros p' Hp' s. assert (sender_txs p' s = sender_txs p1 s) as -> by (unfold sender_txs; by rewrite Hp').
    rewrite Htxs. case_decide as He; [right; by rewrite He, Hset0|by left]. }
  clear Htxs Hset0. destruct r as [t1|t1 s1|t1 t2|t1 t2|t1 t2]; destruct Hu as [-> Hu]; simpl.
  - destruct (finalize_insert_spec (Pool.set_listener p1 (added (listener p1) (transaction tx) None)) tx) as (p2 & Hp2 & -> & _);
      [simpl; by rewrite Hb|simpl; rewrite Hme, Hb; apply Hi|simpl; by rewrite Hme|]. simpl.
    eexists _, _. split; [done|]. rewrite Hp2. simpl. split; [|split_and!; [done..|by left; simpl; rewrite Hb|by apply Hlim]].
    apply (inv_join p _ tx); simpl; [done|by eapply core_ext; [exact Hc1|..]|done|intros u; by rewrite Hin|by rewrite Hb|done..].
  - eexists _, _. split; [done|]. split_and!; [|done..|left; by eexists|done|by apply Hlim].
    apply (refused_inv p); [done..|]. intros u. by rewrite Hin.
  - eexists _, _. split; [done|]. split_and!; [|done..|right; by eexists|done|by apply Hlim].
    apply (refused_inv p); [done..|]. intros u. by rewrite Hin.
  - destruct Hu as (Hold & Hse & Hu).
    edestruct (finish_swap p p1 tx t1) as (p' & -> & Hi' & Ho' & Hl' & Hs' & He'); [done..|by intros u; rewrite Hin; apply Hu|]. simpl.
    eexists _, _. split; [done|]. split_and!; [done..|by apply Hlim].
  - destruct Hu as (Hold & Hse & Hu).
    edestruct (finish_swap p p1 tx t1) as (p' & -> & Hi' & Ho' & Hl' & Hs' & He'); [done..|by intros u; rewrite Hin; apply Hu|]. simpl.
    eexists _, _. split; [done|]. split_and!; [done..|by apply Hlim].
Qed.

(** *** Importing *)
Lemma next_id_inv p : pool_inv p → pool_inv (Pool.set_insertion_id p (last_insertion_id p + 1)).
Proof.
  intros [Hc Hh Hm [Hi0 Hi]]. split; simpl; [by eapply core_ext; [exact Hc|..]|done|done|].
  split; [lia|]. intros t Ht. specialize (Hi t Ht). lia.
Qed.
Lemma shrunk_ids p p' tx :
  pool_inv p → shrunk (Pool.set_insertion_id p (last_insertion_id p + 1)) p' → by_hash p !! tx_hash tx = None →
  insertion_id tx = last_insertion_id p + 1 →
  by_hash p' !! tx_hash tx = None ∧ ∀ t, in_pool p' t → insertion_id t < insertion_id tx.
Proof.
  intros Hi (Hi' & Hsub & _) Hk Hid. simpl in Hsub. split; [by eapply lookup_weaken_None|]. intros t Ht.
  apply (hash_member p' t Hi') in Ht. eapply lookup_weaken in Ht; [|exact Hsub]. apply (pi_hash _ Hi) in Ht as [Ht _].
  apply (pi_ids _ Hi) in Ht. lia.
Qed.
Lemma entered_size p tx p' : entered p tx p' → (size (by_hash p') ≤ S (size (by_hash p)))%nat.
Proof.
  assert (Hins : (size (<[tx_hash tx := tx]> (by_hash p)) ≤ S (size (by_hash p)))%nat) by (rewrite map_size_insert; case_match; simpl; lia).
  intros [->|(old & _ & _ & ->)]; [done|]. etrans; [|exact Hins]. apply map_subseteq_size, delete_subseteq.
Qed.
Lemma entered_mem p tx p' :
  by_hash p !! tx_hash tx = None → entered p tx p' → mem_total (by_hash p') ≤ mem_total (by_hash p) + tx_mem tx.
Proof.
  intros Hk [->|(old & Ho & _ & ->)]; [rewrite mem_total_insert by done; lia|].
  assert (Hko : <[tx_hash tx := tx]> (by_hash p) !! tx_hash old = Some old) by (rewrite lookup_insert_ne by congruence; done).
  pose proof (mem_total_delete _ _ _ Hko) as Hd. rewrite mem_total_insert in Hd by done.
  pose proof (mem_usage_pos (transaction old)). lia.
Qed.
Lemma entered_bounds p tx p' :
  pool_inv p → pool_inv p' → by_hash p !! tx_hash tx = None → entered p tx p' →
  (size (by_hash p') ≤ S (size (by_hash p)))%nat ∧ pool_mem_usage p' ≤ pool_mem_usage p + tx_mem tx.
Proof.
  intros Hi Hi' Hk He. split; [by eapply entered_size|]. rewrite (pi_mem _ Hi), (pi_mem _ Hi'). by apply entered_mem.
Qed.
Lemma entered_lookup p tx p' :
  by_hash p !! tx_hash tx = None → entered p tx p' →
  by_hash p' !! tx_hash tx = Some tx ∧ ∀ k u, k ≠ tx_hash tx → by_hash p' !! k = Some u → by_hash p !! k = Some u.
Proof.
  intros Hk [->|(old & Ho & _ & ->)].
  - rewrite lookup_insert_eq. split; [done|]. intros k u Hn. by rewrite lookup_insert_ne.
  - rewrite lookup_delete_ne, lookup_insert_eq by congruence. split; [done|].
    intros k u Hn [_ Hu]%lookup_delete_Some. by rewrite lookup_insert_ne in Hu.
Qed.

Lemma import_cases `{OS : !OnePerSlot T} p (t : T) :
  pool_inv p → 0 < max_per_sender (options p) → last_insertion_id p + 1 < 2 ^ 64 →
  Z.of_nat (size (by_hash p)) + 1 < 2 ^ 64 → pool_mem_usage p + mem_usage t < 2 ^ 64 →
  ∃ p' r, Pool.import (E:=E) p t = Ok (p', r) ∧ pool_inv p' ∧ options p' = options p ∧
    (last_insertion_id p ≤ last_insertion_id p' ≤ last_insertion_id p + 1) ∧
    ((size (by_hash p') ≤ S (size (by_hash p)))%nat ∧ pool_mem_usage p' ≤ pool_mem_usage p + mem_usage t) ∧
    match r with
    | inl t' => t' = t ∧ by_hash p !! hash t = None ∧ by_hash p' !! hash t = Some (mkTransaction (last_insertion_id p + 1) t) ∧
        (∀ k u, k ≠ hash t → by_hash p' !! k = Some u → by_hash p !! k = Some u) ∧
        (undecided p (mkTransaction (last_insertion_id p + 1) t) ∨
           Z.of_nat (size (by_hash p')) ≤ max_count (options p) ∧ pool_mem_usage p' ≤ max_mem_usage (options p))
    | inr (Error.AlreadyImported k) => k = hash t ∧ is_Some (by_hash p !! k) ∧ p' = p
    | inr _ => by_hash p !! hash t = None ∧ by_hash p' ⊆ by_hash p
    end ∧
    ∀ s, (s = sender t → should_ignore_sender_limit t = false) →
      Z.of_nat (length (sender_txs p s)) ≤ max_per_sender (options p) → Z.of_nat (length (sender_txs p' s)) ≤ max_per_sender (options p).
Proof.
  intros Hi Hmax Hid Hn Hmem. unfold Pool.import. destruct (by_hash p !! hash t) as [t0|] eqn:Hk.
  { eexists _, _. split; [done|]. pose proof (mem_usage_pos t). split_and!; [done|done|lia..|done|by rewrite Hk|done|done]. }
  pose proof (proj1 (pi_ids _ Hi)) as Hpos. unfold add_u at 1. rewrite arith_in by (unfold in_u; lia). rewrite bind_Ok.
  set (tx := mkTransaction (last_insertion_id p + 1) t). pose proof (next_id_inv p Hi) as Hi0. set (p0 := Pool.set_insertion_id _ _) in *.
  pose proof (mem_usage_pos t) as Hmp.
  assert (Hlen : ∀ p2, shrunk p0 p2 → ∀ s, (length (sender_txs p2 s) ≤ length (sender_txs p s))%nat)
    by (intros p2 Hs2 s; exact (shrunk_sender p0 p2 s Hi0 Hs2)).
  destruct (evict_count_spec (S (size (by_hash p0))) p0 tx Hi0) as (p1 & r1 & -> & Hs1 & Hr1); [simpl; lia..|].
  rewrite bind_Ok. cbn [fst snd].
  pose proof Hs1 as (Hi1 & Hsub1 & Hm1 & Ho1 & Hl1). simpl in Hsub1, Hm1, Ho1, Hl1. destruct r1 as [e|].
  { destruct Hr1 as [sc ->]. eexists _, _. split; [done|]. rewrite Hl1. pose proof (shrunk_size _ _ Hs1) as Hsz. simpl in Hsz.
    split_and!; [done|done|lia..|done|done|]. intros s _ Hle. specialize (Hlen _ Hs1 s). lia. }
  destruct (evict_mem_spec (S (size (by_hash p1))) p1 tx Hi1) as (p2 & r2 & -> & Hs2 & Hr2); [simpl; lia|lia|].
  rewrite bind_Ok. cbn [fst snd].
  pose proof (shrunk_trans _ _ _ Hs1 Hs2) as Hs. pose proof Hs as (Hi2 & Hsub2 & Hm2 & Ho2 & Hl2). simpl in Hsub2, Hm2, Ho2, Hl2.
  pose proof (shrunk_size _ _ Hs) as Hsz. simpl in Hsz. specialize (Hlen _ Hs). destruct r2 as [e|].
  { destruct Hr2 as [sc ->]. eexists _, _. split; [done|]. rewrite Hl2.
    split_and!; [done|done|lia..|done|done|]. intros s _ Hle. specialize (Hlen s). lia. }
  destruct (shrunk_ids p p2 tx Hi Hs Hk eq_refl) as [Hk2 Hid2].
  destruct (insert_transaction_spec p2 tx Hi2 Hk2 Hid2) as (p' & r & -> & Hi' & Ho' & Hl' & Hr & Hfit); [rewrite Hl2; simpl; lia|by rewrite Ho2|simpl; lia|].
  eexists _, _. split; [done|]. split; [done|]. rewrite Ho', Hl', Ho2, Hl2. split; [done|]. split; [lia|].
  assert (Hsend : ∀ s, (s = sender t → should_ignore_sender_limit t = false) →
    Z.of_nat (length (sender_txs p s)) ≤ max_per_sender (options p) → Z.of_nat (length (sender_txs p' s)) ≤ max_per_sender (options p)).
  { intros s Hig Hle. specialize (Hlen s). destruct (Hfit s) as [->|[-> Hf]]; [lia|]. rewrite Ho2 in Hf. apply Hf; [by apply Hig|lia]. }
  destruct r as [t'|e].
  - destruct Hr as [-> He]. destruct (entered_bounds p2 tx p' Hi2 Hi' Hk2 He) as [Hes Hem]. simpl in Hem. split; [lia|].
    destruct (entered_lookup p2 tx p' Hk2 He) as [Hnew Hother]. split_and!; [done..| | |done].
    + intros k u Hne Hu. eapply lookup_weaken; [by apply Hother|done].
    + destruct Hr1 as [Hu|Hr1]; [left; exact Hu|]. destruct Hr2 as [Hu|Hr2]; [left; exact (undecided_mono p0 p1 tx Hs1 Hu)|].
      right. simpl in Hr1, Hr2. rewrite Ho1 in Hr2. apply shrunk_size in Hs2. lia.
  - destruct Hr as [Hr Hb]. rewrite (pi_mem _ Hi'), Hb, <- (pi_mem _ Hi2). split; [lia|]. split; [|done].
    destruct Hr as [[sc ->]|[old ->]]; done.
Qed.
End ImportFacts.

(** *** Culling *)
Lemma mem_total_delete_le h k : mem_total (delete k h) ≤ mem_total h.
Proof.
  destruct (h !! k) as [t|] eqn:Hk; [|by rewrite delete_id].
  rewrite (mem_total_delete h k t Hk). pose proof (mem_usage_pos (transaction t)). lia.
Qed.
Lemma finalize_culled_spec p removed :
  pool_mem_usage p = mem_total (by_hash p) → pool_mem_usage p < 2 ^ 64 → NoDup removed →
  (∀ k u, by_hash p !! k = Some u → tx_hash u = k) → (∀ t, t ∈ removed → by_hash p !! tx_hash t = Some t) →
  ∃ p', Pool.finalize_culled (E:=E) p removed = Ok p' ∧ by_sender p' = by_sender p ∧ best_transactions p' = best_transactions p ∧
    worst_transactions p' = worst_transactions p ∧ options p' = options p ∧ last_insertion_id p' = last_insertion_id p ∧
    pool_mem_usage p' = mem_total (by_hash p') ∧ pool_mem_usage p' ≤ pool_mem_usage p ∧
    (∀ k u, by_hash p' !! k = Some u ↔ by_hash p !! k = Some u ∧ u ∉ removed) ∧
    size (by_hash p) = (length removed + size (by_hash p'))%nat.
Proof.
  revert p. induction removed as [|t removed IH]; intros p Hm Hf Hnd Hkey Hre; simpl.
  { exists p. split_and!; try done. intros k u. set_solver. }
  apply NoDup_cons in Hnd as [Hnt Hnd]. pose proof (Hre t ltac:(left)) as Ht.
  rewrite (finalize_remove_spec p (tx_hash t) t) by done. rewrite bind_Ok. cbn [fst snd].
  pose proof (mem_total_delete_le (by_hash p) (tx_hash t)) as Hle. set (p1 := Pool.set_listener _ _).
  destruct (IH p1) as (p' & -> & Hs & Hb & Hw & Ho & Hl & Hm' & Hle' & Hin & Hsz); simpl; [done|lia|done| | |].
  - intros k u [_ Hu]%lookup_delete_Some. auto.
  - intros u Hu. rewrite lookup_delete_ne; [apply Hre; by right|]. intros He. assert (Hx := Hre u ltac:(by right)).
    rewrite <- He, Ht in Hx. congruence.
  - exists p'. split_and!; try done; [simpl in Hle'; lia| |].
    + intros k u. rewrite Hin. simpl. rewrite lookup_delete_Some, not_elem_of_cons. split.
      * intros [[Hn Hu] Hr]. split; [done|]. split; [|done]. intros ->. by apply Hkey in Hu.
      * intros [Hu [Hn Hr]]. split; [|done]. split; [|done]. intros <-. congruence.
    + simpl in Hsz. rewrite map_size_delete_Some in Hsz by (by eexists).
      assert (size (by_hash p) ≠ 0%nat) by (apply map_size_non_empty_iff; intros He; by rewrite He, lookup_empty in Ht). lia.
Qed.

Section CullPool.
Context {R : Type} `{RD : !Ready R T}.
Implicit Types (ready : R).
(** The first [n] of a sender are taken out of its set. *)
Lemma drop_change p s set set' n :
  pool_inv p → by_sender p !! s = Some set → set_wf set' → transactions set' = drop n (transactions set) →
  let p1 := Pool.update_senders_worst_and_best (Pool.set_by_sender p (<[s := set']> (by_sender p))) (ends_of set) (ends_of set') in
  pool_core p1 ∧ same_rest p p1 ∧ (∀ u, in_pool p1 u ↔ in_pool p u ∧ u ∉ rev (take n (transactions set))) ∧
  ∀ s', sender_txs p1 s' = if decide (s' = s) then drop n (sender_txs p s) else sender_txs p s'.
Proof.
  intros Hi Hs Hwf' Ht'. destruct (pc_senders _ (pi_core _ Hi) s set Hs) as (Hwf & Hne & Hse).
  assert (Hnd : NoDup (take n (transactions set) ++ drop n (transactions set))) by (rewrite take_drop; apply slots_NoDup, Hwf).
  apply NoDup_app in Hnd as (_ & Hdis & _).
  assert (Hdr : ∀ t, t ∈ drop n (transactions set) → in_pool p t ∧ tx_sender t = s).
  { intros t Ht. eapply set_member; [apply Hi|done|by eapply subseteq_drop]. }
  destruct (set_change p s set set' (pi_core _ Hi) (or_introl Hs) Hwf Hwf') as (Hc1 & Hr & Hin1).
  { intros t Ht. rewrite Ht' in Ht. by apply Hdr. }
  { rewrite Ht'. intros t t' Ht Hu. apply (pc_distinct _ (pi_core _ Hi)); [destruct Ht as [|Ht%Hdr]|destruct Hu as [|Hu%Hdr]]; tauto. }
  { done. }
  pose proof (λ s', set_change_txs p s set set' s' Hwf Hwf' Hse (λ He, False_ind _ (Hne He))) as Hsend.
  cbv zeta. split_and!; [done..| |].
  - intros u. rewrite Hin1, Ht', elem_rev. split.
    + intros [Hu|[Hu Hsu]]; [split; [by apply Hdr|intros Hx; by apply (Hdis u)]|].
      split; [done|]. intros Hx%subseteq_take. by apply Hse in Hx.
    + intros [Hu Hx]. destruct (decide (tx_sender u = s)) as [Hsu|]; [left|by right].
      destruct Hu as (set1 & Hs1 & Hu). rewrite Hsu, Hs in Hs1. injection Hs1 as <-.
      rewrite <- (take_drop n (transactions set)), elem_of_app in Hu. tauto.
  - intros s'. rewrite Hsend, Ht'. unfold sender_txs at 2. by rewrite Hs.
Qed.
Lemma remove_stalled_spec p s ready :
  pool_inv p → pool_mem_usage p < 2 ^ 64 →
  let n := (Transactions.first_non_stalled ready (sender_txs p s)).1 in
  ∃ p', Pool.remove_stalled (E:=E) p s ready = Ok (p', n, (Transactions.first_non_stalled ready (sender_txs p s)).2) ∧
    shrunk p p' ∧ size (by_hash p) = (n + size (by_hash p'))%nat ∧
    ∀ s', sender_txs p' s' = if decide (s' = s) then drop n (sender_txs p s) else sender_txs p s'.
Proof.
  intros Hi Hf. unfold Pool.remove_stalled. unfold sender_txs at 1 2 3. destruct (by_sender p !! s) as [set|] eqn:Hs.
  2: { unfold Pool.remove_from_set. rewrite Hs. simpl. exists p. split_and!; [done|by apply shrunk_refl|done|].
       intros s'. case_decide; [subst s'; unfold sender_txs; by rewrite Hs|done]. }
  cbv zeta. destruct (pc_senders _ (pi_core _ Hi) s set Hs) as (Hwf & Hne & Hse).
  destruct (cull_set_spec (E:=E) set ready Hwf) as (set' & Hcu & Hwf' & Ht'). cbv zeta in Hcu, Ht'.
  pose proof (first_non_stalled_le ready (transactions set)) as Hle. set (n := (Transactions.first_non_stalled ready _).1) in *.
  destruct (drop_change p s set set' n Hi Hs Hwf' Ht') as (Hc1 & (Hb & Hm & Ho & Hl & _) & Hkeep & Hsend).
  unfold Pool.remove_from_set. rewrite Hs, worst_and_best_ends by done. rewrite bind_Ok, Hcu, !bind_Ok. cbn [fst snd].
  rewrite worst_and_best_ends by done. rewrite !bind_Ok. cbn [fst snd].
  set (p1 := Pool.update_senders_worst_and_best _ _ _) in *. clearbody p1.
  destruct (finalize_culled_spec p1 (rev (take n (transactions set)))) as (p' & -> & Hs' & Hb' & Hw' & Ho' & Hl' & Hm' & Hle' & Hh' & Hsz).
  { rewrite Hm, Hb. apply Hi. }
  { by rewrite Hm. }
  { rewrite <- Permutation_rev. eapply sublist_NoDup; [apply slots_NoDup, Hwf|apply sublist_take]. }
  { intros k u. rewrite Hb. by intros [_ ?]%(pi_hash _ Hi). }
  { intros u Hu. rewrite Hb. apply (hash_member p u Hi). rewrite elem_rev in Hu.
    eapply set_member; [apply Hi|exact Hs|by eapply subseteq_take]. }
  rewrite bind_Ok, length_rev, length_take, Nat.min_l by done. exists p'. split; [done|].
  rewrite length_rev, length_take, Nat.min_l, Hb in Hsz by done. split_and!; [|done|].
  - split_and!; [|apply map_subseteq_spec; intros k u Hu; rewrite <- Hb; by apply Hh'|lia|by rewrite Ho'|by rewrite Hl'].
    apply (inv_keep p p' (λ u, u ∉ rev (take n (transactions set))) Hi); [by eapply core_ext; [exact Hc1|..]| | |done|by rewrite Hl'].
    + intros u. rewrite Hs'. apply Hkeep.
    + intros k u. by rewrite Hh', Hb.
  - intros s'. specialize (Hsend s'). unfold sender_txs in Hsend |- *. rewrite Hs', Hsend. by rewrite ?Hs.
Qed.

Lemma remove_stalled_all_spec p senders ready n :
  pool_inv p → pool_mem_usage p < 2 ^ 64 →
  ∃ p' m, Pool.remove_stalled_all (E:=E) p senders ready n = Ok (p', m) ∧ shrunk p p' ∧
    (n + size (by_hash p) = m + size (by_hash p'))%nat.
Proof.
  revert p ready n. induction senders as [|s senders IH]; intros p ready n Hi Hf; simpl.
  { eexists _, _. split; [done|]. split; [by apply shrunk_refl|done]. }
  destruct (remove_stalled_spec p s ready Hi Hf) as (p1 & -> & Hs1 & Hsz & _). rewrite bind_Ok. cbn [fst snd].
  pose proof Hs1 as (Hi1 & _ & Hm1 & _).
  destruct (IH p1 (Transactions.first_non_stalled ready (sender_txs p s)).2
              (n + (Transactions.first_non_stalled ready (sender_txs p s)).1)%nat Hi1) as (p' & m & -> & Hs' & Hsz'); [lia|].
  eexists _, _. split; [done|]. split; [by eapply shrunk_trans|lia].
Qed.
Lemma cull_shrinks p sel ready :
  pool_inv p → pool_mem_usage p < 2 ^ 64 →
  ∃ p' n, Pool.cull (E:=E) p sel ready = Ok (p', n) ∧ shrunk p p' ∧ size (by_hash p) = (n + size (by_hash p'))%nat.
Proof. intros Hi Hf. destruct sel as [l|]; simpl; by apply (remove_stalled_all_spec p _ ready 0). Qed.

(** A readiness that depends on the transaction alone. *)
Section Pure.
Context (ready : R) (f : T → Readiness) (pure : ∀ t : T, is_ready ready t = (f t, ready)).
Fixpoint keep_from (l : list Tx) : list Tx :=
  match l with
  | [] => []
  | t :: l' => if decide (f (transaction t) = Readiness.Stale) then keep_from l' else l
  end.
Lemma first_non_stalled_pure l :
  (Transactions.first_non_stalled ready l).2 = ready ∧ drop (Transactions.first_non_stalled ready l).1 l = keep_from l.
Proof using pure.
  induction l as [|t l [IH1 IH2]]; simpl; [done|]. rewrite pure. destruct (f (transaction t)); simpl; [|done..].
  destruct (Transactions.first_non_stalled ready l). done.
Qed.
Lemma keep_from_idem l : keep_from (keep_from l) = keep_from l.
Proof. induction l as [|t l IH]; simpl; [done|]. case_decide as Hs; [done|]. simpl. by rewrite decide_False. Qed.
Lemma remove_stalled_all_pure p senders n p' m :
  pool_inv p → pool_mem_usage p < 2 ^ 64 → Pool.remove_stalled_all (E:=E) p senders ready n = Ok (p', m) →
  ∀ s, sender_txs p' s = if decide (s ∈ senders) then keep_from (sender_txs p s) else sender_txs p s.
Proof using All.
  revert p n. induction senders as [|s1 senders IH]; intros p n Hi Hf Hr s; simpl in Hr; [by simplify_eq|].
  destruct (remove_stalled_spec p s1 ready Hi Hf) as (p1 & Hp1 & (Hi1 & _ & Hm1 & _) & _ & Hs1). rewrite Hp1, bind_Ok in Hr. cbn [fst snd] in Hr.
  destruct (first_non_stalled_pure (sender_txs p s1)) as [Hpr Hpd]. rewrite Hpr in Hr.
  rewrite (IH _ _ Hi1 ltac:(lia) Hr s), Hs1, Hpd. destruct (decide (s = s1)) as [->|Hn].
  - rewrite keep_from_idem, (decide_True _ _ (list_elem_of_here s1 senders)). by case_decide.
  - case_decide; [rewrite decide_True by (by right)|rewrite decide_False by set_solver]; done.
Qed.
End Pure.
End CullPool.
End PoolFacts.
