(* ===== verification/PoolLibOps.v ===== *)
(** * PoolLibOps: the operations of the generic pool

    What the operations of [PoolLib] do, on top of the invariant of [PoolLibInv]: an
    import ends, adds the transaction or refuses it, and respects the limits; culling
    drops the stalled transactions of every sender; any sequence of operations keeps the
    indexes of the pool together; the pending iterator delivers every sender's ready
    transactions in order. *)
From Stdlib Require Import Sorted.
From S2P Require Import Prelude PoolLib PoolLibInv.

(** A hash map is iterated in some order. *)
Class MapOrderLaws `{MO : MapOrder} : Prop :=
  map_items_perm : ∀ K A `{Countable K} (m : gmap K A), map_items m ≡ₚ map_to_list m.

Section Operations.
Context {T Hash Sender L : Type} `{SL : ScoringLaws T, Countable Hash, Countable Sender, VT : !VerifiedTransaction T Hash Sender}.
Context {VL : VerifiedTransactionLaws T Hash Sender}.
Context `{LI : !Listener L T (Error Hash Score), P : Profile, MO : MapOrder} {E : Type}.
Context `{RP : !ShouldReplace T} {R : Type} `{RD : !Ready R T}.
Abbreviation Pl := (Pool T Hash Sender L).
Abbreviation Tx := (Transaction T).
Implicit Types (p : Pl) (s : Sender) (set : Transactions T) (t : T) (tx : Tx) (ready : R).

(** ** Import *)
(** C26: For a scoring that keeps one transaction per slot and a pool with room for at
    least one transaction per sender and counters below 64 bits, importing never panics
    and keeps the invariant.  A transaction that is accepted is in the pool afterwards,
    only others can have gone for it, and the limits on the number of transactions and on
    their memory hold, unless [should_replace] answered [InsertNew] for it and a pooled
    transaction.  A transaction that is in the pool already changes nothing, one that is
    refused does not enter, and nothing else does.  In every case a sender that was
    within the limit per sender still is, unless the new transaction is its own and may
    ignore that limit. *)
Theorem pool_import_spec `{OS : !OnePerSlot T} p t :
  pool_inv p → 0 < max_per_sender (options p) → last_insertion_id p + 1 < 2 ^ 64 →
  Z.of_nat (size (by_hash p)) + 1 < 2 ^ 64 → pool_mem_usage p + mem_usage t < 2 ^ 64 →
  ∃ p' r, Pool.import (E:=E) p t = Ok (p', r) ∧ pool_inv p' ∧
    match r with
    | inl t' => t' = t ∧ Pool.find p (hash t) = None ∧ Pool.find p' (hash t) = Some t ∧
        (∀ k u, k ≠ hash t → Pool.find p' k = Some u → Pool.find p k = Some u) ∧
        (undecided p (mkTransaction (last_insertion_id p + 1) t) ∨
           Z.of_nat (size (by_hash p')) ≤ max_count (options p) ∧ pool_mem_usage p' ≤ max_mem_usage (options p))
    | inr (Error.AlreadyImported k) => k = hash t ∧ is_Some (Pool.find p k) ∧ p' = p
    | inr _ => Pool.find p' (hash t) = None ∧ ∀ k u, Pool.find p' k = Some u → Pool.find p k = Some u
    end ∧
    ∀ s, (s = sender t → should_ignore_sender_limit t = false) →
      Z.of_nat (length (sender_txs p s)) ≤ max_per_sender (options p) → Z.of_nat (length (sender_txs p' s)) ≤ max_per_sender (options p).
Proof.
  intros Hi Hmax Hid Hn Hmem. destruct (import_cases (E:=E) p t Hi Hmax Hid Hn Hmem) as (p' & r & Hr & Hi' & _ & _ & _ & Hc & Hlen).
  exists p', r. split; [done|]. split; [done|]. split; [|done]. unfold Pool.find.
  destruct r as [t'|[k|k m|old new]].
  - destruct Hc as (-> & Hk & Hnew & Hother & Hlim). rewrite Hk, Hnew. split_and!; [done..| |done].
    intros k u Hne (x & Hx & ->)%fmap_Some. by rewrite (Hother k x Hne Hx).
  - destruct Hc as (-> & Hk & ->). by rewrite fmap_is_Some.
  - destruct Hc as [Hk Hsub]. rewrite (lookup_weaken_None _ _ _ Hk Hsub). split; [done|].
    intros k' u (x & Hx & ->)%fmap_Some. by rewrite (lookup_weaken _ _ _ _ Hx Hsub).
  - destruct Hc as [Hk Hsub]. rewrite (lookup_weaken_None _ _ _ Hk Hsub). split; [done|].
    intros k' u (x & Hx & ->)%fmap_Some. by rewrite (lookup_weaken _ _ _ _ Hx Hsub).
Qed.

(** ** Culling *)
(** With a readiness that depends on the transaction alone, culling drops exactly the
    leading stalled transactions of the chosen senders and reports their number. *)
Theorem cull_spec `{ML : !MapOrderLaws} p sel ready (f : T → Readiness) :
  pool_inv p → pool_mem_usage p < 2 ^ 64 → (∀ t, is_ready ready t = (f t, ready)) →
  ∃ p' n, Pool.cull (E:=E) p sel ready = Ok (p', n) ∧ pool_inv p' ∧ size (by_hash p) = (n + size (by_hash p'))%nat ∧
    ∀ s, sender_txs p' s =
      if from_option (λ l, bool_decide (s ∈ l)) true sel then keep_from f (sender_txs p s) else sender_txs p s.
Proof.
  intros Hi Hf Hp. destruct (cull_shrinks (E:=E) p sel ready Hi Hf) as (p' & n & Hr & (Hi' & _) & Hsz).
  exists p', n. split_and!; [done..|]. intros s. destruct sel as [l|]; simpl in Hr.
  - rewrite (remove_stalled_all_pure ready f Hp p l 0 p' n Hi Hf Hr s). simpl. case_bool_decide; by case_decide.
  - rewrite (remove_stalled_all_pure ready f Hp p _ 0 p' n Hi Hf Hr s). simpl.
    case_decide as Hs; [done|]. unfold sender_txs. destruct (by_sender p !! s) as [set|] eqn:He; [|done]. destruct Hs.
    rewrite map_items_perm. apply list_elem_of_fmap. exists (s, set). split; [done|]. by apply elem_of_map_to_list.
Qed.

(** ** Sequences of operations *)
Inductive op : Type :=
  | OpImport (t : T) | OpRemove (h : Hash) (is_invalid : bool) | OpClear | OpCull (senders : option (list Sender)) (ready : R)
  | OpUpdateScores (s : Sender) (event : ScoreEvent).
Definition step p (o : op) : Outcome E Pl :=
  match o with
  | OpImport t => r ← Pool.import p t; Ok r.1
  | OpRemove k b => r ← Pool.remove p k b; Ok r.1
  | OpClear => Ok (Pool.clear p)
  | OpCull senders ready => r ← Pool.cull p senders ready; Ok r.1
  | OpUpdateScores s event => Pool.update_scores p s event
  end.
Fixpoint run p (ops : list op) : Outcome E Pl :=
  match ops with
  | [] => Ok p
  | o :: ops => p ← step p o; run p ops
  end.
(** The memory an operation can add. *)
Definition op_mem (o : op) : Z := match o with OpImport t => mem_usage t | _ => 0 end.
Definition ops_mem (ops : list op) : Z := foldr (λ o acc, op_mem o + acc) 0 ops.
Definition within p (k m : Z) : Prop :=
  pool_inv p ∧ last_insertion_id p ≤ k ∧ Z.of_nat (size (by_hash p)) ≤ k ∧ pool_mem_usage p ≤ m.

Lemma shrunk_within p p' k m : within p k m → shrunk p p' → within p' k m.
Proof.
  intros (Hi & Hl & Hs & Hm) Hsh. pose proof (shrunk_size _ _ Hsh). destruct Hsh as (Hi' & _ & Hm' & _ & Hl'). split_and!; [done|lia..].
Qed.
Lemma clear_within p k m : within p k m → 0 ≤ m → within (Pool.clear p) k m ∧ options (Pool.clear p) = options p.
Proof.
  intros (Hi & Hl & Hs & _) Hm. split; [|done]. split_and!; simpl; [|done|rewrite map_size_empty; lia|done].
  destruct (pool_new_inv (listener p) (options p)) as [Hc Hh Hme [_ Hids]].
  split; simpl; [by eapply core_ext; [exact Hc|..]|done|done|]. split; [apply Hi|].
  intros t Ht. apply Hids in Ht. simpl in Ht. pose proof (proj1 (pi_ids _ Hi)). lia.
Qed.
(** New scores move a sender in the sets of best and worst, nothing else. *)
Lemma update_scores_spec p s event :
  pool_inv p → ∃ p', Pool.update_scores (E:=E) p s event = Ok p' ∧ shrunk p p'.
Proof.
  intros Hi. unfold Pool.update_scores. destruct (by_sender p !! s) as [set|] eqn:Hs; [|exists p; split; [done|by apply shrunk_refl]].
  destruct (pc_senders _ (pi_core _ Hi) s set Hs) as (Hwf & Hne & Hse).
  assert (Hwf' : set_wf (Transactions.update_scores set event)).
  { destruct Hwf as [Hl Hso]. split; simpl; [by rewrite update_scores_length|done]. }
  rewrite (worst_and_best_ends set Hwf), bind_Ok. cbv zeta. rewrite (worst_and_best_ends _ Hwf'), bind_Ok. eexists. split; [done|].
  destruct (set_change p s set (Transactions.update_scores set event) (pi_core _ Hi) (or_introl Hs) Hwf Hwf') as (Hc & (Hb & Hm & Ho & Hl & _) & Hin);
    [done| |done|].
  { intros t t' Ht Ht'. apply (pc_distinct _ (pi_core _ Hi)); [destruct Ht as [|Ht]|destruct Ht' as [|Ht']]; try done; by eapply set_member; [apply Hi|..]. }
  split_and!; [|by rewrite Hb|lia|done|done].
  apply (inv_keep p _ (λ _, True) Hi); [done| |intros k u; rewrite Hb; tauto|rewrite Hm, Hb; apply Hi|done].
  intros u. rewrite Hin. simpl. split; [|].
  - intros [Hu|[Hu _]]; [|done]. split; [by eapply set_member; [apply Hi|..]|done].
  - intros [(set1 & Hs1 & Hu) _]. destruct (decide (sender (transaction u) = s)) as [He|]; [left|right; split; [by exists set1|done]].
    rewrite He, Hs in Hs1. by injection Hs1 as <-.
Qed.
(** Every sender is within its limit, where no transaction may ignore it. *)
Definition few_each p : Prop :=
  (∀ t, should_ignore_sender_limit t = false) → ∀ s, Z.of_nat (length (sender_txs p s)) ≤ max_per_sender (options p).
Lemma shrunk_few p p' : pool_inv p → shrunk p p' → few_each p → few_each p'.
Proof.
  intros Hi Hsh Hf Hig s. pose proof (shrunk_sender p p' s Hi Hsh). specialize (Hf Hig s).
  destruct Hsh as (_ & _ & _ & -> & _). lia.
Qed.
Lemma step_within `{OS : !OnePerSlot T} p o k m :
  within p k m → 0 < max_per_sender (options p) → k + 1 < 2 ^ 64 → m + op_mem o < 2 ^ 64 → 0 ≤ m →
  ∃ p', step p o = Ok p' ∧ within p' (k + 1) (m + op_mem o) ∧ options p' = options p ∧ (few_each p → few_each p').
Proof.
  intros Hw Hmax Hk Hm Hnn. assert (Hup : ∀ p', shrunk p p' → within p' (k + 1) (m + 0) ∧ options p' = options p ∧ (few_each p → few_each p')).
  { intros p' Hsh. split; [|split; [apply Hsh|apply (shrunk_few p p'); [apply Hw|done]]]. destruct (shrunk_within _ _ _ _ Hw Hsh) as (? & ? & ? & ?). split_and!; [done|lia..]. }
  pose proof Hw as (Hi & Hl & Hs & Hme). destruct o as [t|h b| |sel ready|s ev]; simpl in *.
  - destruct (import_cases (E:=E) p t Hi Hmax) as (p' & r & -> & Hi' & Ho & Hid & [Hsz Hm'] & _ & Hlen); [lia..|]. simpl.
    eexists. split; [done|]. split; [split_and!; [done|lia..]|]. split; [done|]. intros Hf Hig s. rewrite Ho. apply Hlen; [done|by apply Hf].
  - pose proof (remove_pool_spec (E:=E) p h b Hi) as Hr. destruct (by_hash p !! h) as [t|] eqn:Hh.
    + destruct Hr as (p' & -> & Hi' & Hb & Ho & Hid); [lia|]. simpl. eexists. split; [done|]. apply Hup.
      split_and!; [done|rewrite Hb; apply delete_subseteq| |done|done].
      rewrite (pi_mem _ Hi'), (pi_mem _ Hi), Hb. apply mem_total_delete_le.
    + rewrite Hr by lia. simpl. eexists. split; [done|]. by apply Hup, shrunk_refl.
  - destruct (clear_within p k m Hw Hnn) as [(? & ? & ? & ?) Ho]. eexists. split; [done|]. split; [split_and!; [done|lia..]|]. split; [done|].
    intros _ _ s. unfold sender_txs. simpl. rewrite lookup_empty. simpl. lia.
  - destruct (cull_shrinks (E:=E) p sel ready Hi) as (p' & n & -> & Hsh & _); [lia|]. simpl. eexists. split; [done|]. by apply Hup.
  - destruct (update_scores_spec p s ev Hi) as (p' & -> & Hsh). eexists. split; [done|]. by apply Hup.
Qed.
Lemma run_within `{OS : !OnePerSlot T} ops p k m :
  within p k m → 0 < max_per_sender (options p) → k + Z.of_nat (length ops) < 2 ^ 64 → m + ops_mem ops < 2 ^ 64 → 0 ≤ m →
  ∃ p', run p ops = Ok p' ∧ pool_inv p' ∧ options p' = options p ∧ (few_each p → few_each p').
Proof.
  revert p k m. induction ops as [|o ops IH]; intros p k m Hw Hmax Hk Hm Hnn; simpl in *; [exists p; split_and!; [done|apply Hw|done|done]|].
  assert (Hpos : 0 ≤ ops_mem ops).
  { clear - VL. induction ops as [|[] ops IH]; simpl; try lia. pose proof (mem_usage_pos t). lia. }
  assert (0 ≤ op_mem o) by (destruct o; simpl; try lia; apply mem_usage_pos).
  destruct (step_within p o k m Hw Hmax) as (p1 & -> & Hw1 & Ho1 & Hf1); [lia..|]. simpl.
  destruct (IH p1 (k + 1) (m + op_mem o) Hw1) as (p' & -> & Hi' & Ho' & Hf'); [by rewrite Ho1|lia..|]. exists p'. rewrite Ho', Ho1. split_and!; auto.
Qed.
(** C25: Take a scoring that keeps one transaction per slot, options with room for at least
    one transaction per sender, and any sequence of imports, removals, clearings,
    cullings and score updates whose number and total memory fit in 64 bits.  Done to a new
    pool, no operation panics, and afterwards the indexes by hash, by sender and by score
    hold the same transactions and the memory counter is their total; where no
    transaction may ignore the limit per sender, every sender is within it.  Without
    room for one transaction the first import panics ([no_room_per_sender_panics]), and
    without one transaction per slot the indexes come apart
    ([same_slot_breaks_indexes]). *)
Theorem pool_reachable `{OS : !OnePerSlot T} (l : L) (o : Options) ops :
  0 < max_per_sender o → Z.of_nat (length ops) < 2 ^ 64 → ops_mem ops < 2 ^ 64 →
  ∃ p, run (Pool.new l o) ops = Ok p ∧ pool_inv p ∧ options p = o ∧
    ((∀ t, should_ignore_sender_limit t = false) → ∀ s, Z.of_nat (length (sender_txs p s)) ≤ max_per_sender o).
Proof.
  intros Hmax Hk Hm. destruct (run_within ops (Pool.new l o) 0 0) as (p & Hr & Hi & Ho & Hf); [|done|lia..|].
  { split_and!; simpl; [apply pool_new_inv|lia|by rewrite map_size_empty|lia]. }
  exists p. split_and!; [done..|]. simpl in Ho. rewrite <- Ho. apply Hf. intros _ s. unfold sender_txs. simpl. rewrite lookup_empty. simpl. lia.
Qed.

Section PendingFacts.
Abbreviation Ref := (ScoreWithRef T).
Implicit Types (x y : Ref) (best : list Ref).
(** What the iterator asks: transactions with the answers, in order.  The answers are those
    that a readiness gives, from one state to another. *)
Abbreviation Asked := (T * Readiness)%type.
Abbreviation asked_of s := (filter (λ x : Asked, sender x.1 = s)).
Abbreviation ref_sender x := (sender (transaction (score_tx x))).




(** All of it, by repeated calls of [next]. *)
Fixpoint collect (n : nat) p (it : Pool.PendingIterator (T:=T) (R:=R)) : Outcome E (list T) :=
  match n with
  | O => Panic
  | S n =>
      r ← Pool.next (size (by_hash p)) p it;
      match r.1 with
      | None => Ok []
      | Some t => l ← collect n p r.2; Ok (t :: l)
      end
  end.

End PendingFacts.

End Operations.

(** ** A pool with nonces and gas prices *)
(** The scoring of the tests of the crate: the nonce gives the place, the gas price the
    score and the replacement. *)
Module PoolEx.
Record Tx : Type := mkTx { id : Z; from : Z; nonce : Z; gas_price : Z }.
#[export] Instance verified : VerifiedTransaction Tx Z Z := { hash := id; mem_usage _ := 100; sender := from }.
#[export] Instance dummy_scoring : Scoring Tx := {
  Score := Z;
  ScoreEvent := unit;
  score_cmp := Z.compare;
  score_default := 0;
  compare a b := Z.compare (nonce a) (nonce b);
  choose old new :=
    if decide (nonce old = nonce new) then
      if decide (gas_price new > gas_price old) then Choice.ReplaceOld else Choice.RejectNew
    else Choice.InsertNew;
  update_scores txs sc ch :=
    match ch with
    | Change.Event _ => (λ _, 0) <$> sc
    | _ => zip_with (λ t _, gas_price (transaction t)) txs sc ++ drop (length txs) sc
    end;
  should_ignore_sender_limit _ := false;
}.
#[export] Instance dummy_replace : ShouldReplace Tx := λ old new,
  if decide (gas_price (transaction (replace_tx new)) > gas_price (transaction (replace_tx old))) then Choice.ReplaceOld else Choice.RejectNew.
#[export] Instance dummy_laws : ScoringLaws Tx.
Proof.
  split; simpl.
  - intros a b. apply Z.compare_eq_iff.
  - intros a b. apply Z.compare_antisym.
  - intros a b c. rewrite !Z.compare_lt_iff. lia.
  - intros a b. apply Z.compare_antisym.
  - intros a b c. rewrite !Z.compare_lt_iff. lia.
  - intros a b c ->%Z.compare_eq_iff. done.
  - intros txs sc [i|i|i|n|e]; simpl; rewrite ?length_app, ?length_zip_with, ?length_drop, ?length_fmap; lia.
Qed.
#[export] Instance dummy_one_per_slot : OnePerSlot Tx.
Proof. intros old new Hc. simpl in *. apply Z.compare_eq_iff in Hc. rewrite decide_True by done. by case_decide. Qed.
#[export] Instance verified_laws : VerifiedTransactionLaws Tx Z Z.
Proof. intros t. simpl. lia. Qed.
#[export] Instance list_order : MapOrder := λ K A _ _ m, map_to_list m.
#[export] Instance list_order_laws : MapOrderLaws.
Proof. by intros K A ? ? m. Qed.
#[export] Instance release : Profile := false.
Lemma dummy_decides a b : dummy_replace a b ≠ Choice.InsertNew.
Proof. unfold dummy_replace. by case_decide. Qed.

(** Stalled below nonce 1, in the future from nonce 3 on. *)
Definition by_nonce (t : Tx) : Readiness :=
  if decide (nonce t < 1) then Readiness.Stale else if decide (nonce t < 3) then Readiness.Ready else Readiness.Future.
Abbreviation Rd := (unit * (unit → Tx → Readiness * unit))%type.
Definition readiness : Rd := ((), λ _ t, (by_nonce t, ())).
Lemma readiness_pure t : is_ready readiness t = (by_nonce t, readiness).
Proof. done. Qed.

(** The readiness of the tests: the nonce that is due of every sender, from a minimum on. *)
Abbreviation NonceReady := (gmap Z Z * (gmap Z Z → Tx → Readiness * gmap Z Z))%type.

Abbreviation ExPool := (Pool Tx Z Z NoopListener).
Definition empty_pool : ExPool := Pool.new noop_listener (mkOptions 5 4 1000).
Definition some_txs : list Tx :=
  [mkTx 10 1 0 5; mkTx 11 1 1 3; mkTx 12 2 1 7; mkTx 13 1 2 9; mkTx 14 2 3 1].
Definition imports (l : list Tx) : list (op (T:=Tx) (Hash:=Z) (Sender:=Z) (R:=Rd)) := OpImport <$> l.
Definition later : list (op (T:=Tx) (Hash:=Z) (Sender:=Z) (R:=Rd)) :=
  [OpRemove 11 true; OpUpdateScores 1 (tt : ScoreEvent (T:=Tx)); OpCull None readiness; OpImport (mkTx 16 2 1 8); OpClear].
Definition pool_after (l : list Tx) : ExPool :=
  match run (E:=unit) empty_pool (imports l) with Ok p => p | _ => empty_pool end.
End PoolEx.

Section PoolWitnesses.
Import PoolEx.
Abbreviation full := (pool_after some_txs).
Lemma full_inv : pool_inv full.
Proof.
  destruct (run_within (E:=unit) (imports some_txs) empty_pool 0 0) as (p & Hr & Hi & _); [|vm_compute; reflexivity..|by vm_compute|].
  { split_and!; [apply pool_new_inv|by vm_compute..]. }
  unfold pool_after. by rewrite Hr.
Qed.
(** The pool is full: the sixth transaction costs the cheapest one its place. *)
Lemma pool_import_spec_witness :
  ∃ p' r, Pool.import (E:=unit) full (mkTx 15 3 0 8) = Ok (p', r) ∧ r = inl (mkTx 15 3 0 8) ∧
    Z.of_nat (size (by_hash p')) ≤ 5 ∧ Pool.find p' 14 = None ∧ Z.of_nat (length (sender_txs p' 3)) ≤ 4.
Proof.
  destruct (pool_import_spec (E:=unit) full (mkTx 15 3 0 8) full_inv) as (p' & r & Hr & _ & Hc & Hlen); [by vm_compute..|].
  exists p', r. split; [done|]. assert (Hv := Hr). vm_compute in Hv. injection Hv as Hp Hr'. subst r.
  destruct Hc as (_ & _ & _ & _ & Hlim). split; [done|]. split.
  - destruct Hlim as [(old & pooled & _ & Hch)|[Hn _]]; [by destruct (dummy_decides _ _ Hch)|exact Hn].
  - split; [by subst p'|]. apply Hlen; [done|by vm_compute].
Defined.
Lemma cull_spec_witness :
  ∃ p' n, Pool.cull (E:=unit) full None readiness = Ok (p', n) ∧ n = 1%nat ∧ pool_inv p' ∧
    (transaction <$> sender_txs p' 1) = [mkTx 11 1 1 3; mkTx 13 1 2 9].
Proof.
  destruct (cull_spec (E:=unit) full None readiness by_nonce full_inv) as (p' & n & Hr & Hi & Hsz & Hs); [by vm_compute|exact readiness_pure|].
  exists p', n. split; [done|]. assert (Hv := Hr). vm_compute in Hv. injection Hv as _ <-. split_and!; [done..|]. rewrite Hs. by vm_compute.
Defined.
Lemma pool_reachable_witness :
  ∃ p, run (E:=unit) empty_pool (imports some_txs ++ later) = Ok p ∧
    pool_inv p ∧ ∀ s, Z.of_nat (length (sender_txs p s)) ≤ 4.
Proof.
  destruct (pool_reachable (E:=unit) noop_listener (mkOptions 5 4 1000) (imports some_txs ++ later)) as (p & Hr & Hi & _ & Hf); [reflexivity..|]. exists p. split; [exact Hr|]. split; [exact Hi|exact (Hf (λ _, eq_refl))].
Defined.

(** Room is made before the sender's own transactions are looked at: the new transaction
    is refused because it pays less than the one in its place, and the cheapest one of
    another sender has gone for nothing. *)
Lemma refused_import_evicts :
  ∃ p', Pool.import (E:=unit) full (mkTx 17 1 0 4) = Ok (p', inr (Error.TooCheapToReplace 10 17)) ∧
    Pool.find full 14 = Some (mkTx 14 2 3 1) ∧ Pool.find p' 14 = None ∧ Pool.find p' 17 = None.
Proof. eexists. split; [vm_compute; reflexivity|]. split; [vm_compute; reflexivity|]. split; vm_compute; reflexivity. Qed.
(** The unordered iterator gives up a sender whose first transaction is stalled, the
    pending iterator passes over it. *)
Lemma unordered_drops_sender :
  fst (Pool.unordered_next (Pool.unordered_pending full readiness)) = Some (mkTx 12 2 1 7) ∧
  fst (Pool.unordered_next (snd (Pool.unordered_next (Pool.unordered_pending full readiness)))) = None ∧
  collect (E:=unit) 6 full (Pool.pending full readiness) = Ok [mkTx 12 2 1 7; mkTx 11 1 1 3; mkTx 13 1 2 9].
Proof. split; [|split]; vm_compute; reflexivity. Qed.
(** With no room per sender, the first import indexes an empty table of scores. *)
Lemma no_room_per_sender_panics t : Pool.import (E:=unit) (Pool.new noop_listener (mkOptions 5 0 1000) : ExPool) t = Panic.
Proof. vm_compute. reflexivity. Qed.
End PoolWitnesses.

(** ** Two transactions in one slot *)
Module SameSlot.
Import PoolEx.
(** Old and new are both kept, whatever their nonces. *)
Definition keep_both : Scoring Tx := {|
  Score := Z; ScoreEvent := unit; score_cmp := Z.compare; score_default := 0;
  compare a b := Z.compare (nonce a) (nonce b);
  choose _ _ := Choice.InsertNew;
  update_scores _ sc _ := sc;
  should_ignore_sender_limit _ := false;
|}.
(** Taking out one of two transactions with the same nonce takes the other one out of the
    sender's set: afterwards the first is found by its sender only, the second by its hash only. *)
Lemma same_slot_breaks_indexes :
  ∃ p, run (H:=keep_both) (E:=unit) (R:=Rd) (Pool.new noop_listener (mkOptions 5 4 1000))
      [OpImport (mkTx 20 1 0 5); OpImport (mkTx 21 1 0 6); OpRemove 21 false] = Ok p ∧
    Pool.find p 20 = Some (mkTx 20 1 0 5) ∧ Pool.find p 21 = None ∧ transaction <$> sender_txs p 1 = [mkTx 21 1 0 6].
Proof. eexists. split; [vm_compute; reflexivity|]. split_and!; vm_compute; reflexivity. Qed.
End SameSlot.
